(* ===== verification/_CoqProject ===== *)
-Q . S2P
Prelude.v
GoIO.v
Wire.v
Frame.v
Hello.v
Handshake.v
Codec.v
MsgApp.v
Messages.v
Heartbeat.v
Exec.v
Registry.v
Json.v
JsonScan.v
ExecJson.v
Vpp.v
Stream.v
Flow.v
Session.v
SessionInv.v
Ledger.v
SessionFifo.v
SessionWake.v
SessionRecv.v
SessionPair.v
Bridge.v
Tunnel.v
Rpc.v
RpcServer.v
RpcPair.v
