(* ===== verification/Prelude.v ===== *)
(** * A verification of the MVCP protocol library ([src/protocol], Go)

    MVCP is the protocol between a host process ("core") and the agent inside a
    virtual machine ("vhandler").  The library has these parts, from the bottom
    up: length-prefixed frames and binary primitives; the message bodies and the
    registry that decodes them by type byte; HELLO, capability negotiation and
    the handshake that opens a connection; a request/response RPC layer; the
    app channel, which multiplexes credit-controlled byte streams over one
    connection; and VPP, the small console protocol.

    ** Files

    - [Prelude.v] (this file): bytes, machine-width integers, big-endian
      encodings, token counting, the hint databases.
    - [GoIO.v]: what the code uses of Go: error values and [errors.Is/As], fmt
      verbs, the state-and-error monad, readers and writers that may fail or
      fragment, the laws [Reads], [Writes] and [Canon].
    - [Wire.v] (encode.go, decode.go): every primitive in both directions.
    - [Frame.v] (frame.go, mvcp.go, conn.go): frames, constants, service names.
    - [Hello.v] (hello.go, capabilities.go), [Handshake.v] (handshake.go).
    - [Codec.v]: the class [Codec] (what a message type provides), [CodecLaws]
      and [StrictCodec] (what the registry and the session rely on).
      [MsgApp.v], [Messages.v], [Heartbeat.v], [Exec.v] (messages/): instances.
    - [Registry.v] (message.go and every [init]): one dispatch over the sum of
      all messages, proved against the class.
    - [Json.v], [JsonScan.v]: what exec.go uses of encoding/json: the scanner,
      string literals, compaction, and that the decoder's two passes agree;
      [ExecJson.v] (messages/exec.go): the JSON body of EXEC in both directions,
      and with it the round trip of the whole registry.
    - [Vpp.v] (vpp/).
    - [Stream.v] (app/stream.go): a stream's record and, for each method, the
      code under [Stream.mu] as one function; the stream invariant.
    - [Flow.v]: the two ends of one stream and the connection between them.
    - [Session.v] (app/session.go, and stream.go's methods around their
      sections): the session as a machine of goroutines; [SessionInv.v]: its
      invariants; [Ledger.v]: the exact accounting of buffered bytes and the
      stream invariant inside the session; [SessionFifo.v]: the order of bytes
      through the session and its refinement of the sections of [Stream.v];
      [SessionWake.v]: who sleeps in [cond.Wait] has nothing to do;
      [SessionRecv.v]: what a session does with the frames of an orderly peer,
      and what it sends; [SessionPair.v]: two sessions on one connection.
    - [Bridge.v] (app/bridge.go): the goroutines of [Bridge]; [Tunnel.v]: a
      bridge on each of two sessions, its calls the sessions' calls.
    - [Rpc.v] (rpc/types.go, rpc/client.go): requests, the client as a machine;
      [RpcServer.v] (rpc/server.go): the server as a machine; [RpcPair.v]: both
      on one connection.

    ** How code is modelled

    A Go function that reads or writes is a monadic function over the state of
    its reader or writer, with the source's early returns and error texts.
    uint8 .. uint64 are [Z] with wrap-around written out ([to_u]).  Strings and
    []byte are lists of bytes.  Concurrent code is a machine: a goroutine is
    the list of steps it has left (its call stack), a step is what the code does
    under one lock, one channel operation, one read or one write, and a
    schedule is a list of labels that also carry the environment's answers
    (frames, write failures, handler results, contexts, map order).  All
    definitions are executable; theorems about machines quantify over all
    schedules.

    ** What the theorems show

    - Wire: frames and messages round-trip, decoders accept exactly the
      encodings (frames, HELLO, app messages), frames are read exactly however
      the transport fragments bytes, and cut or oversized input gives the errors
      stated.  Each of the 35 messages goes through the registry and back; the
      JSON body of EXEC round-trips, spec and non-UTF-8 strings included, and
      what its decoder accepts is well typed.
    - Handshake: for every input, what each side sends and returns is what the
      negotiation document says of a greeting, of a frame that is no HELLO and
      of no frame, on connections that take writes; on any connection a peer is
      accepted only when it greeted, its role is listed and the requirements
      are met.  Peers that accept each other agree; a deadline that was armed is
      cleared.
    - Streams: the stream invariant; resets are final; two peers running this
      code never exceed each other's credit, deliver bytes in order and conserve
      credit, in every interleaving; a sender with data and credit is awake.
    - Session: quotas, table consistency, no double close of a channel,
      observer callbacks in order and once, local ids never reused, exact buffer
      accounting, bytes in order in both directions, no lost wake-up, in every
      interleaving.  Two
      sessions on one connection: what is read at one end of a stream is what was
      written at the other, and with a bridge at each end what one endpoint is
      given is what the other said.
    - RPC: no frame of a call is reordered, nor lost while the call is not done;
      ids never zero; the server starts the registered handler once for each
      request, or refuses it once, and its frames stay whole; end to end, a call
      gets exactly what the handler of its own request wrote.
    - Defects, as theorems: [Close] blocking forever, APP_CLOSE overtaking data,
      a read loop waiting for itself, the last frame of a stream lost at the end
      of the connection, an answer cut because the bridge closed the endpoint it
      was for, a wrapped credit sum, fields dropped by the registered HEARTBEAT
      decoder, an EXEC body with trailing bytes accepted after a stray bracket,
      rules of the negotiation document that nothing enforces.

    ** Fuel

    Loops over input are structural, or carry the length of the input as fuel:
    the heartbeat extension loop consumes at least four bytes a round and the
    loop of path.Clean at least one ([path_Clean_terminates]), a member of a JSON
    object more than one ([members_total]).  Machines have
    no fuel: a schedule is a finite list of any length.

    ** Not modelled

    The texts of encoding/json's errors and [%q] quoting in one error text
    (parameters); the handler functions of an RPC server; logging; the
    operating system's connection, whose behaviour is the environment's choice
    at every step.  In the session machine a write that fails leaves no part of
    its frame on the connection ([GoIO.v] and [RpcServer.v] model partial
    writes); in the bridge [io.Copy] is its read and write loop, without the
    [io.WriterTo] and [io.ReaderFrom] of an endpoint.  The registry and the session take the decoder of EXEC as an
    argument and their theorems hold for any; [ExecJson.v] gives the real one.
    Tests, documents and the empty sdk directories are not code of the
    library. *)
From Stdlib Require Import ZArith Lia Strings.Byte.
From stdpp Require Import base list gmap strings pretty sorting.

Open Scope Z_scope.

(** ** Bytes and machine-width integers *)

Abbreviation byte := Init.Byte.byte.
Abbreviation bytes := (list byte).

#[global] Instance byte_eq_dec : EqDecision byte := Byte.byte_eq_dec.

#[global] Instance byte_countable : Countable byte.
Proof. exact (inj_countable Byte.to_N Byte.of_N Byte.of_to_N). Defined.

#[global] Instance byte_inhabited : Inhabited byte := populate x00.

Definition byte_val (b : byte) : Z := Z.of_N (Byte.to_N b).

Definition byte_of (z : Z) : byte :=
  default x00 (Byte.of_N (Z.to_N (z mod 256))).

Lemma byte_val_range b : 0 <= byte_val b < 256.
Proof. unfold byte_val. pose proof (Byte.to_N_bounded b). lia. Qed.

Lemma byte_of_val b : byte_of (byte_val b) = b.
Proof.
  unfold byte_of. rewrite Z.mod_small by apply byte_val_range.
  unfold byte_val. by rewrite N2Z.id, Byte.of_to_N.
Qed.

Lemma byte_val_of z : byte_val (byte_of z) = z mod 256.
Proof.
  unfold byte_of. pose proof (Z.mod_pos_bound z 256 ltac:(lia)).
  destruct (Byte.of_N (Z.to_N (z mod 256))) as [b|] eqn:E; simpl.
  - unfold byte_val. apply Byte.to_of_N in E. rewrite E. lia.
  - apply Byte.of_N_None_iff in E. lia.
Qed.

(** Go strings are byte sequences; [str] injects source literals. *)
Definition str (s : string) : bytes := String.list_byte_of_string s.

Definition zlen {A} (l : list A) : Z := Z.of_nat (length l).

Lemma zlen_nonneg {A} (l : list A) : 0 <= zlen l.
Proof. unfold zlen. lia. Qed.

Lemma zlen_nil {A} : zlen (@nil A) = 0.
Proof. done. Qed.

Lemma zlen_cons {A} (x : A) l : zlen (x :: l) = 1 + zlen l.
Proof. unfold zlen. simpl length. lia. Qed.

Lemma zlen_app {A} (l k : list A) : zlen (l ++ k) = zlen l + zlen k.
Proof. unfold zlen. rewrite length_app. lia. Qed.

Lemma zlen_to_nat {A} (l : list A) : Z.to_nat (zlen l) = length l.
Proof. unfold zlen. lia. Qed.

Lemma zlen_0 {A} (l : list A) : zlen l = 0 -> l = [].
Proof. destruct l; [done|]. rewrite zlen_cons. pose proof (zlen_nonneg l). lia. Qed.

Lemma zlen_take {A} n (l : list A) :
  0 <= n <= zlen l -> zlen (take (Z.to_nat n) l) = n.
Proof. unfold zlen. intros ?. rewrite length_take. lia. Qed.

Lemma zlen_drop {A} n (l : list A) :
  0 <= n <= zlen l -> zlen (drop (Z.to_nat n) l) = zlen l - n.
Proof. unfold zlen. intros ?. rewrite length_drop. lia. Qed.

(** Unsigned and signed ranges of Go's fixed-width integers, as decidable
    boolean tests, and the wrap-around of a conversion to each width. *)
Definition in_u (w : Z) (v : Z) : bool := (0 <=? v) && (v <? 2 ^ w).
Definition in_i (w : Z) (v : Z) : bool := (- 2 ^ (w - 1) <=? v) && (v <? 2 ^ (w - 1)).

Abbreviation u8 := (in_u 8).
Abbreviation u16 := (in_u 16).
Abbreviation u32 := (in_u 32).
Abbreviation u64 := (in_u 64).
Abbreviation i32 := (in_i 32).
Abbreviation i64 := (in_i 64).

Definition to_u (w v : Z) : Z := v mod 2 ^ w.
Definition to_i (w v : Z) : Z := (v + 2 ^ (w - 1)) mod 2 ^ w - 2 ^ (w - 1).

Lemma in_u_spec w v : in_u w v = true <-> 0 <= v < 2 ^ w.
Proof. unfold in_u. rewrite andb_true_iff, Z.leb_le, Z.ltb_lt. done. Qed.

Lemma in_i_spec w v : in_i w v = true <-> - 2 ^ (w - 1) <= v < 2 ^ (w - 1).
Proof. unfold in_i. rewrite andb_true_iff, Z.leb_le, Z.ltb_lt. done. Qed.

Lemma to_u_id w v : in_u w v = true -> to_u w v = v.
Proof. rewrite in_u_spec. intros. by apply Z.mod_small. Qed.

Lemma to_u_range w v : 0 < w -> in_u w (to_u w v) = true.
Proof. intros. apply in_u_spec, Z.mod_pos_bound. lia. Qed.

Lemma to_i_range w v : 0 < w -> in_i w (to_i w v) = true.
Proof.
  intros. apply in_i_spec. unfold to_i.
  pose proof (Z.mod_pos_bound (v + 2 ^ (w - 1)) (2 ^ w) ltac:(lia)).
  assert (2 ^ w = 2 * 2 ^ (w - 1)) by
    (rewrite <- Z.pow_succ_r by lia; f_equal; lia).
  lia.
Qed.

(** Reinterpreting a signed value as unsigned and back is the identity. *)
Lemma to_i_to_u w v : 0 < w -> in_i w v = true -> to_i w (to_u w v) = v.
Proof.
  rewrite in_i_spec. unfold to_i, to_u. intros Hw Hv.
  rewrite Zplus_mod_idemp_l, Z.mod_small; [lia|].
  assert (2 ^ w = 2 * 2 ^ (w - 1)) by
    (rewrite <- Z.pow_succ_r by lia; f_equal; lia).
  lia.
Qed.

(** ** Big-endian encoding ([encoding/binary].BigEndian) *)

(** [PutUintN]: byte [i] of the [n]-byte buffer is [byte(v >> 8*(n-1-i))]. *)
Fixpoint be_put (n : nat) (v : Z) : bytes :=
  match n with
  | O => []
  | S k => byte_of (Z.shiftr v (8 * Z.of_nat k)) :: be_put k v
  end.

(** [UintN]: the bytes or-ed together, most significant first. *)
Definition be_get (bs : bytes) : Z :=
  foldl (fun acc b => Z.lor (Z.shiftl acc 8) (byte_val b)) 0 bs.

Lemma shift_or_byte a b : Z.lor (Z.shiftl a 8) (byte_val b) = a * 256 + byte_val b.
Proof.
  pose proof (byte_val_range b).
  assert (Hd : Z.land (Z.shiftl a 8) (byte_val b) = 0).
  { apply Z.bits_inj'. intros n Hn. rewrite Z.land_spec, Z.bits_0.
    destruct (Z.lt_ge_cases n 8); [by rewrite Z.shiftl_spec_low|].
    replace (byte_val b) with (byte_val b mod 2 ^ 8) by (rewrite Z.mod_small; lia).
    rewrite Z.mod_pow2_bits_high by lia. by rewrite andb_false_r. }
  pose proof (Z.add_lor_land (Z.shiftl a 8) (byte_val b)) as Hs.
  rewrite Hd, Z.shiftl_mul_pow2 in Hs by lia.
  rewrite Z.shiftl_mul_pow2 by lia. lia.
Qed.

Lemma be_get_acc bs acc :
  foldl (fun acc b => Z.lor (Z.shiftl acc 8) (byte_val b)) acc bs
  = acc * 256 ^ zlen bs + be_get bs.
Proof.
  unfold be_get. revert acc. induction bs as [|b bs IH]; intros acc; simpl.
  { change (zlen []) with 0. lia. }
  rewrite IH, (IH (Z.lor _ _)), !shift_or_byte, zlen_cons.
  rewrite Z.pow_add_r by (pose proof (zlen_nonneg bs); lia). lia.
Qed.

Lemma be_get_cons b bs : be_get (b :: bs) = byte_val b * 256 ^ zlen bs + be_get bs.
Proof.
  unfold be_get at 1. simpl. rewrite be_get_acc, shift_or_byte. lia.
Qed.

Lemma be_get_range bs : 0 <= be_get bs < 256 ^ zlen bs.
Proof.
  induction bs as [|b bs IH]; [done|].
  rewrite be_get_cons, zlen_cons, Z.pow_add_r by (pose proof (zlen_nonneg bs); lia).
  pose proof (byte_val_range b). nia.
Qed.

Lemma length_be_put n v : length (be_put n v) = n.
Proof. induction n; simpl; congruence. Qed.

Lemma zlen_be_put n v : zlen (be_put n v) = Z.of_nat n.
Proof. unfold zlen. by rewrite length_be_put. Qed.

(** Only the low [n] bytes of [v] are written: the conversion truncates. *)
Lemma be_get_put n v : be_get (be_put n v) = v mod 256 ^ Z.of_nat n.
Proof.
  induction n as [|n IH]; [by rewrite Z.mod_1_r|].
  cbn [be_put]. rewrite be_get_cons, IH, zlen_be_put, byte_val_of.
  rewrite Z.shiftr_div_pow2 by lia. rewrite Z.pow_mul_r by lia. change (2 ^ 8) with 256.
  rewrite Nat2Z.inj_succ, Z.pow_succ_r by lia.
  rewrite (Z.mul_comm 256). rewrite Z.rem_mul_r by lia. lia.
Qed.

Lemma be_put_get bs : be_put (length bs) (be_get bs) = bs.
Proof.
  assert (H : forall bs k, be_put (length bs) (k * 256 ^ zlen bs + be_get bs) = bs).
  { clear. induction bs as [|b bs IH]; intros k; [done|]. simpl length. cbn [be_put].
    rewrite be_get_cons. f_equal.
    - rewrite Z.shiftr_div_pow2 by lia. rewrite Z.pow_mul_r by lia.
      change (2 ^ 8) with 256. fold (zlen bs).
      pose proof (be_get_range bs). pose proof (zlen_nonneg bs).
      rewrite zlen_cons, Z.pow_add_r by lia.
      replace (_ + _) with (be_get bs + (k * 256 + byte_val b) * 256 ^ zlen bs) by lia.
      rewrite Z.div_add by lia. rewrite Z.div_small by lia.
      rewrite <- (byte_of_val b) at 2. unfold byte_of.
      do 3 f_equal. rewrite Z.add_0_l, Z.add_comm, Z.mod_add by lia. done.
    - rewrite zlen_cons, Z.pow_add_r by (pose proof (zlen_nonneg bs); lia).
      replace (_ + _) with ((k * 256 + byte_val b) * 256 ^ zlen bs + be_get bs) by lia.
      apply IH. }
  specialize (H bs 0). by rewrite Z.mul_0_l, Z.add_0_l in H.
Qed.

(** ** Tokens: how often a step occurs in the goroutines of a machine *)

Definition b2n (b : bool) : nat := if b then 1%nat else 0%nat.

Definition tally {A} (f : A -> nat) (g : list A) : nat := sum_list_with f g.
Definition tally_pool {A} (f : A -> nat) (p : list (list A)) : nat := sum_list_with (tally f) p.

Lemma tally_app {A} (f : A -> nat) g h : tally f (g ++ h) = (tally f g + tally f h)%nat.
Proof. apply sum_list_with_app. Qed.

Lemma tally_cons {A} (f : A -> nat) i g : tally f (i :: g) = (f i + tally f g)%nat.
Proof. done. Qed.

Lemma tally_pool_app {A} (f : A -> nat) p q : tally_pool f (p ++ q) = (tally_pool f p + tally_pool f q)%nat.
Proof. apply sum_list_with_app. Qed.

Lemma tally_pool_insert {A} (f : A -> nat) p t g0 g :
  p !! t = Some g0 -> (tally_pool f (<[t := g]> p) + tally f g0 = tally_pool f p + tally f g)%nat.
Proof.
  revert t; induction p as [|h p IH]; intros [|t] H; simplify_eq/=; [lia|].
  specialize (IH t H). unfold tally_pool in *. lia.
Qed.

Lemma tally_elem {A} (f : A -> nat) g i : i ∈ g -> (f i <= tally f g)%nat.
Proof.
  induction g as [|h g IH]; intros H; [by apply elem_of_nil in H|]. rewrite tally_cons.
  apply elem_of_cons in H as [->|H]; [lia|]. specialize (IH H). lia.
Qed.

Lemma tally_zero {A} (f : A -> nat) g : Forall (fun i => f i = 0%nat) g -> tally f g = 0%nat.
Proof. induction 1 as [|i g Hi _ IH]; [done|]. by rewrite tally_cons, Hi, IH. Qed.

Lemma tally_pool_zero {A} (f : A -> nat) p : Forall (Forall (fun i => f i = 0%nat)) p -> tally_pool f p = 0%nat.
Proof. induction 1 as [|g p Hg _ IH]; [done|]. cbn. rewrite (tally_zero f g Hg). exact IH. Qed.

Lemma tally_pool_elem {A} (f : A -> nat) p g : g ∈ p -> (tally f g <= tally_pool f p)%nat.
Proof.
  induction p as [|h p IH]; intros H; [by apply elem_of_nil in H|].
  change (tally_pool f (h :: p)) with (tally f h + tally_pool f p)%nat.
  apply elem_of_cons in H as [->|H]; [lia|]. specialize (IH H). lia.
Qed.

Lemma lookup_snoc_inv {A} (l : list A) x r y :
  (l ++ [x]) !! r = Some y -> l !! r = Some y \/ r = length l /\ y = x.
Proof.
  intros [H|[H1 H2]]%lookup_app_Some; [by left|right].
  apply list_lookup_singleton_Some in H2 as [H2 ->]. split; [lia|done].
Qed.

(** ** Hint databases: [wire] holds the reader/writer laws of the codecs. *)
Create HintDb wire.
