(* ===== verification/GoIO.v ===== *)
(** * Go runtime model: error values, the error monad, [io.Reader], [io.Writer]

    The parts of the language and its standard library every package of the
    protocol is written against.  Error values are data ([error]) with their
    text ([Error]) and their unwrapping chain ([errors_Is], [errors_As_reject]),
    because the handshake puts error texts on the wire and branches on
    [errors.Is].  A fallible operation on a reader, a writer or a connection
    is a state-and-error computation [M S A]. *)
From Stdlib Require Import ZArith Lia Strings.Byte.
From stdpp Require Import base list gmap strings pretty.
From S2P Require Import Prelude.

Open Scope Z_scope.

(** ** Error values *)

(** The package-level [errors.New] values: compared by identity. *)
Inductive sentinel :=
  | io_EOF
  | io_ErrUnexpectedEOF
  | ErrFrameTooLarge
  | vpp_ErrFrameTooLarge
  | ErrBadVPPHandshake
  | ErrBadMVCPMagic
  | ErrUnsupportedMVCPVersion
  | errMalformedHello
  | errHandshakeDeadlineRequired
  | ErrSessionClosed
  | ErrStreamClosed
  | ErrStreamIDExhausted.

#[global] Instance sentinel_eq_dec : EqDecision sentinel.
Proof. solve_decision. Defined.

Definition sentinel_text (s : sentinel) : bytes :=
  match s with
  | io_EOF => str "EOF"
  | io_ErrUnexpectedEOF => str "unexpected EOF"
  | ErrFrameTooLarge => str "mvcp: frame exceeds maximum size"
  | vpp_ErrFrameTooLarge => str "vpp: frame exceeds maximum size of 64 KB"
  | ErrBadVPPHandshake => str "vpp: bad handshake magic or version"
  | ErrBadMVCPMagic => str "mvcp: bad handshake magic"
  | ErrUnsupportedMVCPVersion => str "mvcp: unsupported wire version"
  | errMalformedHello => str "mvcp: malformed hello"
  | errHandshakeDeadlineRequired =>
      str "mvcp: handshake requires a connection with SetDeadline support"
  | ErrSessionClosed => str "app: session closed"
  | ErrStreamClosed => str "app: stream closed"
  | ErrStreamIDExhausted => str "app: stream id space exhausted"
  end.

(** [Errorf] is a text with no [%w]; [Wrapf pre e post] is
    [fmt.Errorf(pre + "%w" + post, e)]; the three structured error types are
    the program's own; [IOError] is any error of the transport. *)
Inductive error :=
  | Sentinel (s : sentinel)
  | Errorf (text : bytes)
  | Wrapf (pre : bytes) (e : error) (post : bytes)
  | HandshakeError (code : Z) (message : bytes)
  | RejectError (code : Z) (message : bytes)
  | ResetError (code : Z) (message : bytes)
  | IOError (text : bytes).

#[global] Instance error_eq_dec : EqDecision error.
Proof. solve_decision. Defined.

Coercion Sentinel : sentinel >-> error.

(** ** fmt verbs *)

(** [%d]. *)
Definition fmt_d (z : Z) : bytes := str (pretty z).

Definition hex_digit (z : Z) : byte :=
  byte_of (if z <? 10 then 48 + z else 55 + z).

(** [%02X] and [%04X] of a value within 8 and 16 bits. *)
Definition fmt_02X (z : Z) : bytes :=
  [hex_digit (Z.shiftr z 4 mod 16); hex_digit (z mod 16)].

Definition fmt_04X (z : Z) : bytes :=
  fmt_02X (Z.shiftr z 8 mod 256) ++ fmt_02X (z mod 256).

(** The texts of the library's error types. *)
Definition HandshakeError_Error (code : Z) (message : bytes) : bytes :=
  str "mvcp: handshake rejected: 0x" ++ fmt_04X code ++ str " " ++ message.

Definition RejectError_Error (code : Z) (message : bytes) : bytes :=
  str "app: rejected 0x" ++ fmt_04X code ++ str ": " ++ message.

Definition ResetError_Error (code : Z) (message : bytes) : bytes :=
  str "app: reset 0x" ++ fmt_04X code ++ str ": " ++ message.

(** [err.Error()]. *)
Fixpoint Error (e : error) : bytes :=
  match e with
  | Sentinel s => sentinel_text s
  | Errorf t => t
  | Wrapf pre e post => pre ++ Error e ++ post
  | HandshakeError c m => HandshakeError_Error c m
  | RejectError c m => RejectError_Error c m
  | ResetError c m => ResetError_Error c m
  | IOError t => t
  end.

(** [errors.Is(err, target)] for a sentinel target. *)
Fixpoint errors_Is (e : error) (s : sentinel) : bool :=
  match e with
  | Sentinel s' => bool_decide (s' = s)
  | Wrapf _ e _ => errors_Is e s
  | _ => false
  end.

(** [errors.As(err, &rej)] for a [*RejectError] target: its code. *)
Fixpoint errors_As_reject (e : error) : option Z :=
  match e with
  | RejectError c _ => Some c
  | Wrapf _ e _ => errors_As_reject e
  | _ => None
  end.

(** ** The state-and-error monad *)

Inductive result (A : Type) :=
  | Ok (a : A)
  | Err (e : error).
Arguments Ok {A} a.
Arguments Err {A} e.

Definition M (S A : Type) : Type := S -> result A * S.

#[global] Instance M_ret {S} : MRet (M S) := fun A a s => (Ok a, s).

#[global] Instance M_bind {S} : MBind (M S) := fun A B f m s =>
  match m s with
  | (Ok a, s') => f a s'
  | (Err e, s') => (Err e, s')
  end.

#[global] Instance result_ret : MRet result := @Ok.

#[global] Instance result_bind : MBind result := fun A B f r =>
  match r with Ok a => f a | Err e => Err e end.

Definition fail {S A} (e : error) : M S A := fun s => (Err e, s).

(** A pure call that may fail. *)
Definition lift {S A} (r : result A) : M S A := fun s => (r, s).

(** [if err != nil { return fmt.Errorf(pre + "%w", err) }]. *)
Definition errw {S A} (pre : string) (m : M S A) : M S A := fun s =>
  match m s with
  | (Err e, s') => (Err (Wrapf (str pre) e []), s')
  | r => r
  end.

(** [if cond { return e }]. *)
Definition reject_if {S} (cond : bool) (e : error) : M S unit :=
  if cond then fail e else mret tt.

(** ** io.Reader *)

(** A reader is the bytes still to come and the error its [Read] returns once
    they are consumed ([io.EOF] for [bytes.NewReader]). *)
Record Reader := mkReader { rdata : bytes; rerr : error }.

Definition NewReader (data : bytes) : Reader := mkReader data io_EOF.

(** [r.Len()] of a [bytes.Reader]. *)
Definition Len : M Reader Z := fun r => (Ok (zlen (rdata r)), r).

(** [io.ReadFull(r, buf)] with [len(buf) = n]: nothing is read for an empty
    buffer; a short stream is consumed, and reports [io.ErrUnexpectedEOF] for
    an end of file after at least one byte. *)
Definition ReadFull (n : Z) : M Reader bytes := fun r =>
  if n <=? 0 then (Ok [], r)
  else if n <=? zlen (rdata r) then
    (Ok (take (Z.to_nat n) (rdata r)), mkReader (drop (Z.to_nat n) (rdata r)) (rerr r))
  else
    (Err (if bool_decide (rdata r = []) then rerr r
          else if bool_decide (rerr r = Sentinel io_EOF) then Sentinel io_ErrUnexpectedEOF
          else rerr r),
     mkReader [] (rerr r)).

(** [io.ReadAll(r)]: an end of file is not an error. *)
Definition ReadAll : M Reader bytes := fun r =>
  (if bool_decide (rerr r = Sentinel io_EOF) then Ok (rdata r) else Err (rerr r),
   mkReader [] (rerr r)).

(** ** io.Writer *)

(** A writer remembers the payload of every [Write] call, in order.  The fault
    list gives the outcome of the coming calls: [None] for a complete write,
    [Some (n, e)] for one that stores [n] bytes and fails; an exhausted list
    means every further write succeeds, so [bytes.Buffer] is the empty list. *)
Record Writer := mkWriter { wcalls : list bytes; wfaults : list (option (nat * error)) }.

Definition Buffer : Writer := mkWriter [] [].

Definition wout (w : Writer) : bytes := concat (wcalls w).

Definition Write (p : bytes) : M Writer unit := fun w =>
  match wfaults w with
  | Some (n, e) :: fs => (Err e, mkWriter (wcalls w ++ [take n p]) fs)
  | None :: fs => (Ok tt, mkWriter (wcalls w ++ [p]) fs)
  | [] => (Ok tt, mkWriter (wcalls w ++ [p]) [])
  end.

(** A [MarshalBinary] body: writes into a fresh [bytes.Buffer], then
    [buf.Bytes()]. *)
Definition to_bytes (m : M Writer unit) : result bytes :=
  match m Buffer with
  | (Ok _, w) => Ok (wout w)
  | (Err e, _) => Err e
  end.

(** An [UnmarshalBinary] body: reads from [bytes.NewReader(data)]. *)
Definition from_bytes {A} (m : M Reader A) (data : bytes) : result A :=
  fst (m (NewReader data)).

(** ** Reasoning rules *)

(** [Reads m bs x]: on any reader that starts with [bs], [m] consumes exactly
    [bs] and returns [x]. *)
Definition Reads {A} (m : M Reader A) (bs : bytes) (x : A) : Prop :=
  forall rest e, m (mkReader (bs ++ rest) e) = (Ok x, mkReader rest e).

(** [Writes m bs]: on any writer that does not fail, [m] appends [bs]. *)
Definition Writes (m : M Writer unit) (bs : bytes) : Prop :=
  forall w, wfaults w = [] ->
  exists w', m w = (Ok tt, w') /\ wfaults w' = [] /\ wout w' = wout w ++ bs.

(** [Canon m enc ok]: whatever [m] returns, it consumed exactly [enc] of it,
    and the value satisfies [ok]. *)
Definition Canon {A} (m : M Reader A) (enc : A -> bytes) (ok : A -> Prop) : Prop :=
  forall r x r', m r = (Ok x, r') ->
  rdata r = enc x ++ rdata r' /\ rerr r' = rerr r /\ ok x.


Lemma bind_unfold {S A B} (m : M S A) (f : A -> M S B) s :
  (m ≫= f) s = match m s with (Ok a, s') => f a s' | (Err e, s') => (Err e, s') end.
Proof. done. Qed.

Lemma bind_ok {S A B} (m : M S A) (f : A -> M S B) s a s' :
  m s = (Ok a, s') -> (m ≫= f) s = f a s'.
Proof. intros H. by rewrite bind_unfold, H. Qed.

Lemma bind_err {S A B} (m : M S A) (f : A -> M S B) s e s' :
  m s = (Err e, s') -> (m ≫= f) s = (Err e, s').
Proof. intros H. by rewrite bind_unfold, H. Qed.

Lemma bind_inv {S A B} (m : M S A) (f : A -> M S B) s b s'' :
  (m ≫= f) s = (Ok b, s'') -> exists a s', m s = (Ok a, s') /\ f a s' = (Ok b, s'').
Proof.
  rewrite bind_unfold. destruct (m s) as [[a|e] s'] eqn:E; [eauto|discriminate].
Qed.

Lemma errw_ok_inv {S A} pre (m : M S A) s a s' :
  errw pre m s = (Ok a, s') -> m s = (Ok a, s').
Proof. unfold errw. destruct (m s) as [[]]; [done|discriminate]. Qed.

Lemma reject_if_inv {S} c e (s s' : S) u :
  reject_if c e s = (Ok u, s') -> c = false /\ s' = s.
Proof. unfold reject_if. destruct c; [discriminate|]. by intros [= _ ->]. Qed.

Lemma reads_ret {A} (x : A) : Reads (mret x) [] x.
Proof. done. Qed.

Lemma reads_bind {A B} (m : M Reader A) (f : A -> M Reader B) b1 b2 x y :
  Reads m b1 x -> Reads (f x) b2 y -> Reads (m ≫= f) (b1 ++ b2) y.
Proof. intros H1 H2 rest e. rewrite <- app_assoc. by rewrite (bind_ok _ _ _ _ _ (H1 _ _)). Qed.

Lemma reads_errw {A} pre (m : M Reader A) bs x : Reads m bs x -> Reads (errw pre m) bs x.
Proof. intros H rest e. unfold errw. by rewrite H. Qed.

Lemma reads_from_bytes {A} (m : M Reader A) bs x : Reads m bs x -> from_bytes m bs = Ok x.
Proof. intros H. unfold from_bytes, NewReader. by rewrite <- (app_nil_r bs), H. Qed.

(** Peeling one field off the front of a body being decoded. *)
Lemma from_bytes_bind {A B} (m : M Reader A) (f : A -> M Reader B) bs rest x :
  Reads m bs x -> from_bytes (m ≫= f) (bs ++ rest) = from_bytes (f x) rest.
Proof. intros H. unfold from_bytes, NewReader. by rewrite (bind_ok _ _ _ _ _ (H _ _)). Qed.

Lemma from_bytes_bind_last {A B} (m : M Reader A) (f : A -> M Reader B) bs x :
  Reads m bs x -> from_bytes (m ≫= f) bs = from_bytes (f x) [].
Proof. intros H. rewrite <- (app_nil_r bs) at 1. by apply from_bytes_bind. Qed.

Lemma from_bytes_ret {A} (x : A) bs : from_bytes (mret x) bs = Ok x.
Proof. done. Qed.

Lemma writes_ret : Writes (mret tt) [].
Proof. intros w Hw. exists w. by rewrite app_nil_r. Qed.

Lemma writes_bind m (k : M Writer unit) b1 b2 :
  Writes m b1 -> Writes k b2 -> Writes (m ≫= fun _ => k) (b1 ++ b2).
Proof.
  intros H1 H2 w Hw. destruct (H1 w Hw) as (w1 & E1 & F1 & O1).
  destruct (H2 w1 F1) as (w2 & E2 & F2 & O2).
  exists w2. rewrite (bind_ok _ _ _ _ _ E1). split_and!; [done..|].
  by rewrite O2, O1, app_assoc.
Qed.

Lemma writes_errw pre m bs : Writes m bs -> Writes (errw pre m) bs.
Proof.
  intros H w Hw. destruct (H w Hw) as (w' & E & ? & ?). exists w'.
  unfold errw. by rewrite E.
Qed.

Lemma writes_Write p : Writes (Write p) p.
Proof.
  intros w Hw. exists (mkWriter (wcalls w ++ [p]) []). unfold Write, wout. rewrite Hw.
  split_and!; [done..|]. simpl. by rewrite concat_app, concat_cons, concat_nil, app_nil_r.
Qed.

Lemma writes_to_bytes m bs : Writes m bs -> to_bytes m = Ok bs.
Proof.
  intros H. destruct (H Buffer eq_refl) as (w' & E & _ & O).
  unfold to_bytes. rewrite E. by rewrite O.
Qed.

#[export] Hint Resolve reads_ret reads_bind reads_errw writes_ret writes_bind
  writes_errw writes_Write : wire.

(** Decomposes a successful run of a chain of reads into the runs of its
    reads, and a failing guard into its condition. *)
Ltac inv_run :=
  repeat match goal with
  | H : (_ ≫= _) _ = (Ok _, _) |- _ =>
      let a := fresh "x" in let s := fresh "r" in let E := fresh "E" in
      apply bind_inv in H; destruct H as (a & s & E & H)
  | H : errw _ _ _ = (Ok _, _) |- _ => apply errw_ok_inv in H
  | H : reject_if _ _ _ = (Ok _, _) |- _ => apply reject_if_inv in H; destruct H as [? ?]
  | H : mret _ _ = (Ok _, _) |- _ => injection H as ? ?
  | H : Len _ = (Ok _, _) |- _ => injection H as ? ?
  | H : fail _ _ = (Ok _, _) |- _ => discriminate H
  end; subst.

Lemma ReadFull_exact n data rest e :
  0 <= n -> zlen data = n ->
  ReadFull n (mkReader (data ++ rest) e) = (Ok data, mkReader rest e).
Proof.
  intros Hn Hl. unfold ReadFull. simpl.
  destruct (Z.leb_spec n 0).
  { rewrite (zlen_0 data) by lia. done. }
  rewrite zlen_app. pose proof (zlen_nonneg rest).
  rewrite (proj2 (Z.leb_le n (zlen data + zlen rest))) by lia.
  subst n. by rewrite zlen_to_nat, take_app_length, drop_app_length.
Qed.

Lemma reads_ReadFull data : Reads (ReadFull (zlen data)) data data.
Proof. intros rest e. by apply ReadFull_exact; [apply zlen_nonneg|]. Qed.

Lemma ReadFull_inv n r x r' :
  0 <= n -> ReadFull n r = (Ok x, r') ->
  rdata r = x ++ rdata r' /\ rerr r' = rerr r /\ zlen x = n.
Proof.
  intros Hn. unfold ReadFull.
  destruct (Z.leb_spec n 0); [intros [= <- <-]; split_and!; [done..|]; rewrite zlen_nil; lia|].
  destruct (Z.leb_spec n (zlen (rdata r))); [|discriminate].
  intros [= <- <-]. simpl. rewrite take_drop, zlen_take by lia. done.
Qed.

(** A stream that ends inside a non-empty field is an error, and which one. *)
Lemma ReadFull_short n data :
  zlen data < n ->
  ReadFull n (NewReader data)
  = (Err (if bool_decide (data = []) then io_EOF else io_ErrUnexpectedEOF), mkReader [] io_EOF).
Proof.
  intros H. pose proof (zlen_nonneg data). unfold ReadFull, NewReader. simpl.
  rewrite (proj2 (Z.leb_gt n 0)), (proj2 (Z.leb_gt n (zlen data))) by lia.
  by case_bool_decide.
Qed.

(** ** Fragmented streams

    A connection delivers its bytes in chunks of its own choosing; a [Read]
    returns at most what the current chunk still holds.  [ReadFull_chunked] is
    the loop of [io.ReadAtLeast] over such a stream. *)
Record ChunkReader := mkChunkReader { chunks : list bytes; cerr : error }.

Definition chunk_view (c : ChunkReader) : Reader := mkReader (concat (chunks c)) (cerr c).

Fixpoint read_at_least (n : Z) (acc : bytes) (cs : list bytes) (fin : error) :
    result bytes * ChunkReader :=
  if n <=? 0 then (Ok acc, mkChunkReader cs fin)
  else match cs with
  | [] => (Err (if bool_decide (acc = []) then fin
                else if bool_decide (fin = Sentinel io_EOF) then Sentinel io_ErrUnexpectedEOF
                else fin), mkChunkReader [] fin)
  | c :: cs' =>
      if n <=? zlen c then
        (Ok (acc ++ take (Z.to_nat n) c), mkChunkReader (drop (Z.to_nat n) c :: cs') fin)
      else read_at_least (n - zlen c) (acc ++ c) cs' fin
  end.

Definition ReadFull_chunked (n : Z) (c : ChunkReader) : result bytes * ChunkReader :=
  read_at_least n [] (chunks c) (cerr c).

Lemma read_at_least_view n acc cs fin :
  let '(res, c') := read_at_least n acc cs fin in
  let data := concat cs in
  (if n <=? 0 then res = Ok acc /\ chunk_view c' = mkReader data fin
   else if n <=? zlen data then
     res = Ok (acc ++ take (Z.to_nat n) data) /\ chunk_view c' = mkReader (drop (Z.to_nat n) data) fin
   else res = Err (if bool_decide (acc ++ data = []) then fin
                else if bool_decide (fin = Sentinel io_EOF) then Sentinel io_ErrUnexpectedEOF
                else fin) /\ chunk_view c' = mkReader [] fin).
Proof.
  revert n acc. induction cs as [|c cs IH]; intros n acc; simpl.
  { destruct (Z.leb_spec n 0); [done|]. rewrite zlen_nil.
    destruct (Z.leb_spec n 0); [lia|]. by rewrite app_nil_r. }
  destruct (Z.leb_spec n 0); [done|]. rewrite zlen_app.
  pose proof (zlen_nonneg c). pose proof (zlen_nonneg (concat cs)).
  destruct (Z.leb_spec n (zlen c)) as [Hc|Hc].
  { rewrite (proj2 (Z.leb_le n (zlen c + _))) by lia. unfold chunk_view. simpl.
    unfold zlen in Hc. by rewrite take_app_le, drop_app_le by lia. }
  specialize (IH (n - zlen c) (acc ++ c)).
  destruct (read_at_least _ _ _ _) as [res c']. cbv zeta in IH.
  rewrite (proj2 (Z.leb_gt (n - zlen c) 0)) in IH by lia.
  replace (n - zlen c <=? zlen (concat cs)) with (n <=? zlen c + zlen (concat cs)) in IH
    by (apply eq_true_iff_eq; rewrite !Z.leb_le; lia).
  revert IH. destruct (Z.leb_spec n (zlen c + zlen (concat cs))); intros IH.
  - destruct IH as [-> ->]. unfold zlen in Hc |- *.
    rewrite take_app_ge, drop_app_ge by lia. rewrite <- app_assoc.
    by rewrite Z2Nat.inj_sub, Nat2Z.id by lia.
  - by rewrite <- app_assoc in IH.
Qed.

(** Whatever the fragmentation, the loop returns what [ReadFull] returns on
    the concatenated stream and leaves the same bytes unread. *)
Lemma ReadFull_chunked_view n c :
  let '(res, c') := ReadFull_chunked n c in
  (res, chunk_view c') = ReadFull n (chunk_view c).
Proof.
  unfold ReadFull_chunked. pose proof (read_at_least_view n [] (chunks c) (cerr c)) as H.
  destruct (read_at_least _ _ _ _) as [res c']. unfold ReadFull, chunk_view at 2 3 4 5 6 7. simpl in *.
  destruct (n <=? 0); [by destruct H as [-> ->]|].
  destruct (n <=? zlen (concat (chunks c))); destruct H as [-> ->]; done.
Qed.
