(* ===== verification/Wire.v ===== *)
(** * Binary primitives: [protocol/encode.go] and [protocol/decode.go]

    One definition per exported [Write*]/[Read*] function, the reference byte
    encodings, and the laws every message codec is built from: what each
    writer emits, that each reader inverts its writer on the values that fit
    the length prefix, and that a successful read consumed exactly the
    encoding of what it returned. *)
From Stdlib Require Import ZArith Lia Strings.Byte.
From stdpp Require Import base list gmap strings.
From S2P Require Import Prelude GoIO.

Open Scope Z_scope.

(** ** encode.go *)

Definition WriteUint8 (v : Z) : M Writer unit := Write [byte_of v].

Definition WriteUint16 (v : Z) : M Writer unit := Write (be_put 2 v).

Definition WriteUint32 (v : Z) : M Writer unit := Write (be_put 4 v).

Definition WriteUint64 (v : Z) : M Writer unit := Write (be_put 8 v).

Definition WriteInt32 (v : Z) : M Writer unit := WriteUint32 (to_u 32 v).

Definition WriteInt64 (v : Z) : M Writer unit := WriteUint64 (to_u 64 v).

Definition WriteBool (v : bool) : M Writer unit :=
  if v then WriteUint8 1 else WriteUint8 0.

Definition WriteString (s : bytes) : M Writer unit :=
  WriteUint16 (to_u 16 (zlen s)) ;; Write s.

Definition WriteBytes (b : bytes) : M Writer unit :=
  WriteUint32 (to_u 32 (zlen b)) ;; Write b.

(** [for _, v := range s { write(v) }], stopping at the first error. *)
Fixpoint write_all {A} (f : A -> M Writer unit) (l : list A) : M Writer unit :=
  match l with
  | [] => mret tt
  | x :: l' => f x ;; write_all f l'
  end.

Definition WriteStringSlice (s : list bytes) : M Writer unit :=
  WriteUint16 (to_u 16 (zlen s)) ;; write_all WriteString s.

(** The argument lists the map's entries in the order [range] visits them,
    which Go leaves unspecified. *)
Definition WriteStringMap (m : list (bytes * bytes)) : M Writer unit :=
  WriteUint16 (to_u 16 (zlen m)) ;;
  write_all (fun kv => WriteString kv.1 ;; WriteString kv.2) m.

(** ** decode.go *)

Definition ReadUint8 : M Reader Z := buf ← ReadFull 1; mret (be_get buf).

Definition ReadUint16 : M Reader Z := buf ← ReadFull 2; mret (be_get buf).

Definition ReadUint32 : M Reader Z := buf ← ReadFull 4; mret (be_get buf).

Definition ReadUint64 : M Reader Z := buf ← ReadFull 8; mret (be_get buf).

Definition ReadInt32 : M Reader Z := v ← ReadUint32; mret (to_i 32 v).

Definition ReadInt64 : M Reader Z := v ← ReadUint64; mret (to_i 64 v).

Definition ReadBool : M Reader bool := v ← ReadUint8; mret (negb (v =? 0)).

Definition ReadString : M Reader bytes :=
  length ← ReadUint16;
  if length =? 0 then mret [] else ReadFull length.

Definition ReadBytes : M Reader bytes :=
  length ← ReadUint32;
  if length =? 0 then mret [] else ReadFull length.

(** [for i := uint16(0); i < count; i++ { v := read(); s[i] = v }]. *)
Fixpoint read_n {A} (f : M Reader A) (n : nat) : M Reader (list A) :=
  match n with
  | O => mret []
  | S n' => x ← f; l ← read_n f n'; mret (x :: l)
  end.

Definition ReadStringSlice : M Reader (list bytes) :=
  count ← ReadUint16;
  if count =? 0 then mret [] else read_n ReadString (Z.to_nat count).

Fixpoint read_map_entries (n : nat) (m : gmap bytes bytes) : M Reader (gmap bytes bytes) :=
  match n with
  | O => mret m
  | S n' => k ← ReadString; v ← ReadString; read_map_entries n' (<[k:=v]> m)
  end.

Definition ReadStringMap : M Reader (gmap bytes bytes) :=
  count ← ReadUint16;
  if count =? 0 then mret ∅ else read_map_entries (Z.to_nat count) ∅.

(** ** Reference encodings *)

Definition enc_u8 (v : Z) : bytes := [byte_of v].
Definition enc_u16 (v : Z) : bytes := be_put 2 v.
Definition enc_u32 (v : Z) : bytes := be_put 4 v.
Definition enc_u64 (v : Z) : bytes := be_put 8 v.
Definition enc_i32 (v : Z) : bytes := be_put 4 (to_u 32 v).
Definition enc_i64 (v : Z) : bytes := be_put 8 (to_u 64 v).
Definition enc_bool (v : bool) : bytes := enc_u8 (if v then 1 else 0).
Definition enc_string (s : bytes) : bytes := enc_u16 (to_u 16 (zlen s)) ++ s.
Definition enc_bytes (b : bytes) : bytes := enc_u32 (to_u 32 (zlen b)) ++ b.
Definition enc_list {A} (enc : A -> bytes) (l : list A) : bytes := concat (map enc l).
Definition enc_slice (s : list bytes) : bytes :=
  enc_u16 (to_u 16 (zlen s)) ++ enc_list enc_string s.
Definition enc_pair (kv : bytes * bytes) : bytes := enc_string kv.1 ++ enc_string kv.2.
Definition enc_map (m : list (bytes * bytes)) : bytes :=
  enc_u16 (to_u 16 (zlen m)) ++ enc_list enc_pair m.

Lemma enc_list_nil {A} (enc : A -> bytes) : enc_list enc [] = [].
Proof. done. Qed.

Lemma enc_list_cons {A} (enc : A -> bytes) x l : enc_list enc (x :: l) = enc x ++ enc_list enc l.
Proof. done. Qed.

(** The values a length prefix can carry: [str_ok] for the uint16 prefix of
    strings, [buf_ok] for the uint32 prefix of byte strings, [slice_ok] for
    lists of strings. *)
Definition str_ok (s : bytes) : bool := zlen s <? 2 ^ 16.
Definition buf_ok (b : bytes) : bool := zlen b <? 2 ^ 32.
Definition slice_ok (s : list bytes) : bool := (zlen s <? 2 ^ 16) && forallb str_ok s.

(** ** What the writers emit *)

Lemma writes_u8 v : Writes (WriteUint8 v) (enc_u8 v).
Proof. apply writes_Write. Qed.
Lemma writes_u16 v : Writes (WriteUint16 v) (enc_u16 v).
Proof. apply writes_Write. Qed.
Lemma writes_u32 v : Writes (WriteUint32 v) (enc_u32 v).
Proof. apply writes_Write. Qed.
Lemma writes_u64 v : Writes (WriteUint64 v) (enc_u64 v).
Proof. apply writes_Write. Qed.
Lemma writes_i32 v : Writes (WriteInt32 v) (enc_i32 v).
Proof. apply writes_Write. Qed.
Lemma writes_i64 v : Writes (WriteInt64 v) (enc_i64 v).
Proof. apply writes_Write. Qed.
Lemma writes_bool v : Writes (WriteBool v) (enc_bool v).
Proof. destruct v; apply writes_Write. Qed.
Lemma writes_string s : Writes (WriteString s) (enc_string s).
Proof. apply writes_bind; [apply writes_u16|apply writes_Write]. Qed.
Lemma writes_bytes b : Writes (WriteBytes b) (enc_bytes b).
Proof. apply writes_bind; [apply writes_u32|apply writes_Write]. Qed.

Lemma writes_all_Forall {A} (f : A -> M Writer unit) enc l :
  Forall (fun x => Writes (f x) (enc x)) l -> Writes (write_all f l) (enc_list enc l).
Proof.
  induction 1 as [|x l Hx _ IH]; [apply writes_ret|]. by apply writes_bind.
Qed.

Lemma writes_all {A} (f : A -> M Writer unit) enc l :
  (forall x, Writes (f x) (enc x)) -> Writes (write_all f l) (enc_list enc l).
Proof.
  intros H. apply writes_all_Forall, Forall_true. auto.
Qed.

Lemma writes_slice s : Writes (WriteStringSlice s) (enc_slice s).
Proof. apply writes_bind; [apply writes_u16|apply writes_all, writes_string]. Qed.

Lemma writes_map m : Writes (WriteStringMap m) (enc_map m).
Proof.
  apply writes_bind; [apply writes_u16|]. apply writes_all. intros [k v].
  apply writes_bind; apply writes_string.
Qed.

#[export] Hint Resolve writes_u8 writes_u16 writes_u32 writes_u64 writes_i32 writes_i64
  writes_bool writes_string writes_bytes writes_slice writes_map : wire.

(** ** Readers invert writers *)

Lemma reads_be n v :
  0 <= v < 256 ^ Z.of_nat n ->
  Reads (buf ← ReadFull (Z.of_nat n); mret (be_get buf)) (be_put n v) v.
Proof.
  intros Hv rest e. rewrite (bind_ok _ _ _ (be_put n v) (mkReader rest e)).
  - cbv [mret M_ret]. by rewrite be_get_put, Z.mod_small.
  - apply ReadFull_exact; [lia|apply zlen_be_put].
Qed.

Lemma enc_u8_be v : enc_u8 v = be_put 1 v.
Proof. unfold enc_u8. simpl. by rewrite Z.shiftr_0_r. Qed.

Lemma reads_u8 v : u8 v = true -> Reads ReadUint8 (enc_u8 v) v.
Proof. rewrite in_u_spec, enc_u8_be. intros. by apply (reads_be 1). Qed.
Lemma reads_u16 v : u16 v = true -> Reads ReadUint16 (enc_u16 v) v.
Proof. rewrite in_u_spec. intros. by apply (reads_be 2). Qed.
Lemma reads_u32 v : u32 v = true -> Reads ReadUint32 (enc_u32 v) v.
Proof. rewrite in_u_spec. intros. by apply (reads_be 4). Qed.
Lemma reads_u64 v : u64 v = true -> Reads ReadUint64 (enc_u64 v) v.
Proof. rewrite in_u_spec. intros. by apply (reads_be 8). Qed.

(** A reader followed by a pure conversion. *)
Lemma reads_map {A B} (m : M Reader A) (f : A -> B) bs x :
  Reads m bs x -> Reads (v ← m; mret (f v)) bs (f x).
Proof. intros H rest e. by rewrite (bind_ok _ _ _ _ _ (H rest e)). Qed.

Lemma reads_i32 v : i32 v = true -> Reads ReadInt32 (enc_i32 v) v.
Proof.
  intros Hv. rewrite <- (to_i_to_u 32 v) at 2 by done.
  apply reads_map, reads_u32, to_u_range. lia.
Qed.
Lemma reads_i64 v : i64 v = true -> Reads ReadInt64 (enc_i64 v) v.
Proof.
  intros Hv. rewrite <- (to_i_to_u 64 v) at 2 by done.
  apply reads_map, reads_u64, to_u_range. lia.
Qed.
Lemma reads_bool v : Reads ReadBool (enc_bool v) v.
Proof.
  replace v with (negb ((if v then 1 else 0) =? 0)) at 2 by by destruct v.
  apply (reads_map ReadUint8 (fun v => negb (v =? 0))), reads_u8. by destruct v.
Qed.

(** A length-prefixed field: the prefix is read, an empty field reads
    nothing more. *)
Lemma reads_prefixed (rd : M Reader Z) pre data :
  Reads rd pre (zlen data) ->
  Reads (n ← rd; if n =? 0 then mret [] else ReadFull n) (pre ++ data) data.
Proof.
  intros H. eapply reads_bind; [exact H|].
  destruct (Z.eqb_spec (zlen data) 0) as [E|E].
  - rewrite (zlen_0 _ E). apply reads_ret.
  - apply reads_ReadFull.
Qed.

Lemma str_ok_u16 s : str_ok s = true -> u16 (zlen s) = true.
Proof. unfold str_ok. rewrite in_u_spec, Z.ltb_lt. pose proof (zlen_nonneg s). lia. Qed.

Lemma buf_ok_u32 s : buf_ok s = true -> u32 (zlen s) = true.
Proof. unfold buf_ok. rewrite in_u_spec, Z.ltb_lt. pose proof (zlen_nonneg s). lia. Qed.

Lemma reads_string s : str_ok s = true -> Reads ReadString (enc_string s) s.
Proof.
  intros H%str_ok_u16. unfold enc_string. rewrite to_u_id by done.
  by apply reads_prefixed, reads_u16.
Qed.

Lemma reads_bytes b : buf_ok b = true -> Reads ReadBytes (enc_bytes b) b.
Proof.
  intros H%buf_ok_u32. unfold enc_bytes. rewrite to_u_id by done.
  by apply reads_prefixed, reads_u32.
Qed.

Lemma reads_n {A} (f : M Reader A) enc l :
  Forall (fun x => Reads f (enc x) x) l -> Reads (read_n f (length l)) (enc_list enc l) l.
Proof.
  induction 1 as [|x l Hx _ IH]; [apply reads_ret|].
  eapply reads_bind; [exact Hx|]. by apply reads_map.
Qed.

(** The count-prefixed list loop shared by slices, maps and tool lists. *)
Lemma reads_counted {A} (f : M Reader A) enc l :
  zlen l < 2 ^ 16 -> Forall (fun x => Reads f (enc x) x) l ->
  Reads (n ← ReadUint16; if n =? 0 then mret [] else read_n f (Z.to_nat n))
    (enc_u16 (to_u 16 (zlen l)) ++ enc_list enc l) l.
Proof.
  intros Hl Hf. assert (Hu : u16 (zlen l) = true)
    by (apply in_u_spec; pose proof (zlen_nonneg l); lia).
  rewrite to_u_id by done. eapply reads_bind; [by apply reads_u16|].
  destruct (Z.eqb_spec (zlen l) 0) as [E|E].
  - rewrite (zlen_0 _ E). apply reads_ret.
  - rewrite zlen_to_nat. by apply reads_n.
Qed.

Lemma slice_ok_Forall s : slice_ok s = true -> zlen s < 2 ^ 16 /\ Forall (fun x => str_ok x = true) s.
Proof.
  unfold slice_ok. rewrite andb_true_iff, Z.ltb_lt, forallb_forall. intros [? H]. split; [done|].
  apply Forall_forall. intros x Hx. by apply H, list_elem_of_In.
Qed.

Lemma reads_slice s : slice_ok s = true -> Reads ReadStringSlice (enc_slice s) s.
Proof.
  intros [? H]%slice_ok_Forall. unfold ReadStringSlice, enc_slice. apply (reads_counted ReadString enc_string); [assumption|].
  eapply Forall_impl; [exact H|]. intros. by apply reads_string.
Qed.

Lemma reads_map_entries l m :
  Forall (fun kv => str_ok kv.1 = true /\ str_ok kv.2 = true) l ->
  Reads (read_map_entries (length l) m) (enc_list enc_pair l)
    (foldl (fun m kv => <[kv.1:=kv.2]> m) m l).
Proof.
  intros H. revert m. induction H as [|[k v] l [Hk Hv] _ IH]; intros m; [apply reads_ret|].
  rewrite enc_list_cons. unfold enc_pair at 1. rewrite <- app_assoc.
  eapply reads_bind; [by apply reads_string|].
  eapply reads_bind; [by apply reads_string|]. apply IH.
Qed.

(** Inserting a duplicate-free entry list in any order gives the map. *)
Lemma foldl_insert_map {K V} `{Countable K} (l : list (K * V)) (m : gmap K V) :
  NoDup l.*1 -> (forall k, k ∈ l.*1 -> m !! k = None) ->
  foldl (fun m kv => <[kv.1:=kv.2]> m) m l = list_to_map l ∪ m.
Proof.
  revert m. induction l as [|[k v] l IH]; intros m Hnd Hm; simpl.
  { by rewrite map_empty_union. }
  apply NoDup_cons in Hnd as [Hk Hnd]. rewrite IH; [|done|].
  - rewrite <- insert_union_r by by apply not_elem_of_list_to_map. by rewrite insert_union_l.
  - intros k' Hk'. rewrite lookup_insert_ne; [|by intros ->].
    apply Hm. by right.
Qed.

Lemma reads_string_map l :
  zlen l < 2 ^ 16 -> NoDup l.*1 ->
  Forall (fun kv => str_ok kv.1 = true /\ str_ok kv.2 = true) l ->
  Reads ReadStringMap (enc_map l) (list_to_map l).
Proof.
  intros Hl Hnd Hf. assert (Hu : u16 (zlen l) = true)
    by (apply in_u_spec; pose proof (zlen_nonneg l); lia).
  unfold enc_map. rewrite to_u_id by done. eapply reads_bind; [by apply reads_u16|].
  destruct (Z.eqb_spec (zlen l) 0) as [E|E].
  - rewrite (zlen_0 _ E). apply reads_ret.
  - rewrite zlen_to_nat, <- (map_union_empty (list_to_map l)),
      <- (foldl_insert_map l ∅) by (done || intros; apply lookup_empty).
    by apply reads_map_entries.
Qed.

#[export] Hint Resolve reads_u8 reads_u16 reads_u32 reads_u64 reads_i32 reads_i64 reads_bool
  reads_string reads_bytes reads_slice : wire.

(** ** A successful read consumed exactly the encoding of its result *)

Lemma canon_be n :
  Canon (buf ← ReadFull (Z.of_nat n); mret (be_get buf)) (be_put n)
    (fun v => in_u (8 * Z.of_nat n) v = true).
Proof.
  intros r x r' H. inv_run. apply ReadFull_inv in E as (Hd & He & Hl); [|lia].
  assert (length x0 = n) as <- by (unfold zlen in Hl; lia).
  rewrite be_put_get. split_and!; [done..|]. apply in_u_spec.
  pose proof (be_get_range x0). unfold zlen in *. by rewrite Z.pow_mul_r by lia.
Qed.

Lemma canon_u8 : Canon ReadUint8 enc_u8 (fun v => u8 v = true).
Proof. intros r x r' H. rewrite enc_u8_be. by apply (canon_be 1). Qed.
Lemma canon_u16 : Canon ReadUint16 enc_u16 (fun v => u16 v = true).
Proof. apply (canon_be 2). Qed.
Lemma canon_u32 : Canon ReadUint32 enc_u32 (fun v => u32 v = true).
Proof. apply (canon_be 4). Qed.
Lemma canon_u64 : Canon ReadUint64 enc_u64 (fun v => u64 v = true).
Proof. apply (canon_be 8). Qed.

Lemma canon_prefixed (rd : M Reader Z) enc w :
  Canon rd enc (fun v => in_u w v = true) ->
  Canon (n ← rd; if n =? 0 then mret [] else ReadFull n)
    (fun s => enc (to_u w (zlen s)) ++ s) (fun s => in_u w (zlen s) = true).
Proof.
  intros Hrd r x r' H. inv_run. apply Hrd in E as (Hd & He & Hu).
  assert (rdata r0 = x ++ rdata r' /\ rerr r' = rerr r0 /\ zlen x = x0) as (Hd' & He' & Hl).
  { pose proof Hu as Hr. apply in_u_spec in Hr.
    destruct (Z.eqb_spec x0 0); [inv_run; by rewrite zlen_nil|].
    apply ReadFull_inv in H; [done|lia]. }
  rewrite Hd, Hd', He', He, Hl, to_u_id, <- app_assoc by done. done.
Qed.

Lemma canon_string : Canon ReadString enc_string (fun s => str_ok s = true).
Proof.
  intros r x r' H. apply (canon_prefixed _ _ _ canon_u16) in H as (Hd & He & Hu).
  split_and!; [done..|]. apply in_u_spec in Hu. apply Z.ltb_lt. lia.
Qed.

Lemma canon_bytes : Canon ReadBytes enc_bytes (fun s => buf_ok s = true).
Proof.
  intros r x r' H. apply (canon_prefixed _ _ _ canon_u32) in H as (Hd & He & Hu).
  split_and!; [done..|]. apply in_u_spec in Hu. apply Z.ltb_lt. lia.
Qed.

(** Replaces every successful primitive read by what it says of the input. *)
Ltac canon_reads :=
  repeat match goal with
  | H : ReadUint8 _ = (Ok _, _) |- _ => apply canon_u8 in H as (? & ? & ?)
  | H : ReadUint16 _ = (Ok _, _) |- _ => apply canon_u16 in H as (? & ? & ?)
  | H : ReadUint32 _ = (Ok _, _) |- _ => apply canon_u32 in H as (? & ? & ?)
  | H : ReadUint64 _ = (Ok _, _) |- _ => apply canon_u64 in H as (? & ? & ?)
  | H : ReadString _ = (Ok _, _) |- _ => apply canon_string in H as (? & ? & ?)
  | H : ReadBytes _ = (Ok _, _) |- _ => apply canon_bytes in H as (? & ? & ?)
  end.

Lemma from_bytes_ok_inv {A} (m : M Reader A) data x :
  from_bytes m data = Ok x -> exists r', m (NewReader data) = (Ok x, r').
Proof. unfold from_bytes. destruct (m _) as [res r']. simpl. intros ->. eauto. Qed.

(** The trailing-bytes check [if r.Len() != 0 { return ... }]. *)
Lemma Len_bind {A} (f : Z -> M Reader A) r : (Len ≫= f) r = f (zlen (rdata r)) r.
Proof. done. Qed.

(** ** The exact behaviour of strings of any length

    The length prefix keeps the low 16 bits of the length while all the bytes
    are written, so a reader gets back the first [len mod 2^16] bytes and the
    others are left in front of the next field. *)
Lemma ReadString_WriteString_any s rest e :
  let n := Z.to_nat (zlen s mod 2 ^ 16) in
  ReadString (mkReader (enc_string s ++ rest) e)
  = (Ok (take n s), mkReader (drop n s ++ rest) e).
Proof.
  intros n. pose proof (Z.mod_pos_bound (zlen s) (2 ^ 16) ltac:(lia)) as Hb.
  assert (Hle : zlen s mod 2 ^ 16 <= zlen s) by (apply Z.mod_le; [apply zlen_nonneg|lia]).
  assert (Hn : zlen (take n s) = zlen s mod 2 ^ 16) by (apply zlen_take; lia).
  replace (enc_string s ++ rest) with (enc_string (take n s) ++ drop n s ++ rest).
  - apply reads_string. unfold str_ok. rewrite Hn. apply Z.ltb_lt. lia.
  - unfold enc_string. rewrite Hn. unfold to_u. rewrite Z.mod_mod by lia.
    rewrite <- app_assoc, (app_assoc (take n s)), take_drop. by rewrite app_assoc.
Qed.

(** ** Sizes *)

Lemma enc_string_eq s : enc_string s = enc_u16 (to_u 16 (zlen s)) ++ s.
Proof. done. Qed.
Lemma enc_bytes_eq s : enc_bytes s = enc_u32 (to_u 32 (zlen s)) ++ s.
Proof. done. Qed.

Lemma zlen_enc_u8 v : zlen (enc_u8 v) = 1.
Proof. done. Qed.
Lemma zlen_enc_u16 v : zlen (enc_u16 v) = 2.
Proof. done. Qed.
Lemma zlen_enc_u32 v : zlen (enc_u32 v) = 4.
Proof. done. Qed.
Lemma zlen_enc_u64 v : zlen (enc_u64 v) = 8.
Proof. done. Qed.
Lemma zlen_enc_string s : zlen (enc_string s) = 2 + zlen s.
Proof. unfold enc_string. by rewrite zlen_app. Qed.
Lemma zlen_enc_bytes s : zlen (enc_bytes s) = 4 + zlen s.
Proof. unfold enc_bytes. by rewrite zlen_app. Qed.

#[global] Opaque enc_u8 enc_u16 enc_u32 enc_u64 enc_i32 enc_i64 enc_bool enc_string enc_bytes
  enc_list enc_slice enc_pair enc_map.
