(* ===== verification/Frame.v ===== *)
(** * Transport frames, MVCP frames and the protocol constants

    [protocol/frame.go] (length-prefixed transport frames), [protocol/mvcp.go]
    (message types, flags, error codes, limits, the MVCP inner header, the
    service-name pattern) and [protocol/conn.go] (the VPP prefix). *)
From Stdlib Require Import ZArith Lia Strings.Byte.
From stdpp Require Import base list gmap strings.
From S2P Require Import Prelude GoIO Wire.

Open Scope Z_scope.

(** ** mvcp.go: constants *)

Definition frameHeaderSize : Z := 6.

Definition TypeHELLO : Z := 0x00.
Definition TypePING : Z := 0x01.
Definition TypePONG : Z := 0x02.
Definition TypeSHUTDOWN : Z := 0x03.
Definition TypeSHUTDOWNACK : Z := 0x04.
Definition TypeGETSTATUS : Z := 0x05.
Definition TypeSTATUS : Z := 0x06.
Definition TypeHEARTBEAT : Z := 0x07.
Definition TypeEXEC : Z := 0x10.
Definition TypeEXECSTREAM : Z := 0x11.
Definition TypeEXECRESULT : Z := 0x12.
Definition TypeXFERINIT : Z := 0x20.
Definition TypeXFERCHUNK : Z := 0x21.
Definition TypeXFERDONE : Z := 0x22.
Definition TypeTOOLCALL : Z := 0x30.
Definition TypeTOOLRESULT : Z := 0x31.
Definition TypeLISTTOOLS : Z := 0x32.
Definition TypeLISTTOOLSRESULT : Z := 0x33.
Definition TypeSYNCFILESYSTEMS : Z := 0x40.
Definition TypeSYNCFILESYSTEMSACK : Z := 0x41.
Definition TypeAPPOPEN : Z := 0x50.
Definition TypeAPPACCEPT : Z := 0x51.
Definition TypeAPPREJECT : Z := 0x52.
Definition TypeAPPDATA : Z := 0x53.
Definition TypeAPPCREDIT : Z := 0x54.
Definition TypeAPPCLOSE : Z := 0x55.
Definition TypeAPPRESET : Z := 0x56.
Definition TypeEVENTREADY : Z := 0x80.
Definition TypeEVENTFILERECEIVED : Z := 0x81.
Definition TypeEVENTMOUNT : Z := 0x82.
Definition TypeEVENTERROR : Z := 0x83.
Definition TypeEVENTLOG : Z := 0x84.
Definition TypeEVENTINITFAILED : Z := 0x86.
Definition TypeSTARTED : Z := 0xFA.
Definition TypeERROR : Z := 0xFE.

Definition FlagResponse : Z := 0x01.
Definition FlagStreamMore : Z := 0x02.
Definition FlagExecStreaming : Z := 0x04.

Definition ErrorCodeUnknownType : Z := 0x0001.
Definition ErrorCodeBadPayload : Z := 0x0002.
Definition ErrorCodeUnexpectedRole : Z := 0x000B.
Definition ErrorCodeNoCommonCapability : Z := 0x000C.
Definition ErrorCodeAppServiceNotFound : Z := 0x0020.
Definition ErrorCodeAppNotAuthorized : Z := 0x0021.
Definition ErrorCodeAppServiceBusy : Z := 0x0022.
Definition ErrorCodeAppQuotaExceeded : Z := 0x0023.
Definition ErrorCodeAppPeerGone : Z := 0x0024.
Definition ErrorCodeAppOverflow : Z := 0x0025.
Definition ErrorCodeAppTimeout : Z := 0x0026.
Definition ErrorCodeAppProtocolError : Z := 0x0027.
Definition ErrorCodeAppLocalError : Z := 0x0028.

Definition HeartbeatStateFailed : Z := 5.
Definition HealthHealthy : Z := 0.
Definition ExtHealth : Z := 4.
Definition ExtFailureReason : Z := 5.

Definition AppInitialWindow : Z := Z.shiftl 256 10.
Definition AppMaxCredit : Z := 4 * AppInitialWindow.
Definition AppMaxStreams : Z := 64.
Definition AppMaxMetaBytes : Z := Z.shiftl 1 10.
Definition AppMaxDataBytes : Z := Z.shiftl 64 10.
Definition AppMaxSendQueue : Z := Z.shiftl 1 20.
Definition AppMaxBuffered : Z := Z.shiftl 8 20.

(** ** frame.go *)

Definition MaxFrameSize : Z := 16 * 1024 * 1024.

(** Written over the [io.ReadFull] of the connection at hand: a stream seen
    as its bytes ([ReadFrame]) or as the chunks it is delivered in. *)
Definition ReadFrame_with {S} (ReadFull : Z -> M S bytes) : M S bytes :=
  header ← ReadFull 4;
  let length := be_get header in
  reject_if (MaxFrameSize <? length) ErrFrameTooLarge ;;
  ReadFull length.

Definition ReadFrame : M Reader bytes := ReadFrame_with ReadFull.

Definition WriteFrame (payload : bytes) : M Writer unit :=
  Write (be_put 4 (to_u 32 (zlen payload)) ++ payload).

(** ** mvcp.go: the MVCP frame *)

Record Frame := mkFrame { Type_ : Z; Flags : Z; MsgID : Z; Body : bytes }.

#[global] Instance Frame_eq_dec : EqDecision Frame.
Proof. solve_decision. Defined.

Definition ReadMVCPFrame_with {S} (ReadFull : Z -> M S bytes) : M S Frame :=
  payload ← ReadFrame_with ReadFull;
  reject_if (zlen payload <? frameHeaderSize) io_ErrUnexpectedEOF ;;
  mret (mkFrame (byte_val (payload !!! 0%nat)) (byte_val (payload !!! 1%nat))
          (be_get (take 4 (drop 2 payload))) (drop 6 payload)).

Definition ReadMVCPFrame : M Reader Frame := ReadMVCPFrame_with ReadFull.

Definition EncodeMVCPFrame (f : Frame) : bytes :=
  let inner := byte_of (Type_ f) :: byte_of (Flags f) :: be_put 4 (MsgID f) ++ Body f in
  be_put 4 (to_u 32 (zlen inner)) ++ inner.

Arguments EncodeMVCPFrame : simpl never.

Definition WriteMVCPFrame (f : Frame) : M Writer unit := Write (EncodeMVCPFrame f).

Definition EncodeStarted (stream : bool) : bytes :=
  match to_bytes (WriteBool stream) with Ok b => b | Err _ => [] end.

(** ** conn.go: the VPP prefix *)

Definition VPPVersion : Z := 0x01.
Definition vppMagicSize : nat := 3.
Definition vppMagic : bytes := str "VPP".

Definition WriteVPPHandshake : M Writer unit := Write (str "VPP" ++ [byte_of VPPVersion]).

Definition ValidateVPPHandshake : M Reader unit :=
  buf ← ReadFull 4;
  reject_if (negb (bool_decide (take vppMagicSize buf = vppMagic))
             || negb (byte_val (buf !!! vppMagicSize) =? VPPVersion)) ErrBadVPPHandshake.

(** ** mvcp.go: service names

    The pattern [^[a-z][a-z0-9-]{0,30}$] as a regular expression, matched by
    Brzozowski derivatives; both anchors make it a match of the whole text. *)
Inductive regex :=
  | Void
  | Eps
  | Cls (p : byte -> bool)
  | Cat (r1 r2 : regex)
  | Alt (r1 r2 : regex).

Fixpoint nullable (r : regex) : bool :=
  match r with
  | Void | Cls _ => false
  | Eps => true
  | Cat r1 r2 => nullable r1 && nullable r2
  | Alt r1 r2 => nullable r1 || nullable r2
  end.

Fixpoint der (c : byte) (r : regex) : regex :=
  match r with
  | Void | Eps => Void
  | Cls p => if p c then Eps else Void
  | Cat r1 r2 =>
      if nullable r1 then Alt (Cat (der c r1) r2) (der c r2) else Cat (der c r1) r2
  | Alt r1 r2 => Alt (der c r1) (der c r2)
  end.

Fixpoint rmatch (r : regex) (s : bytes) : bool :=
  match s with
  | [] => nullable r
  | c :: s' => rmatch (der c r) s'
  end.

(** [r{0,n}]. *)
Fixpoint UpTo (r : regex) (n : nat) : regex :=
  match n with
  | O => Eps
  | S n' => Alt Eps (Cat r (UpTo r n'))
  end.

Definition in_range (lo hi c : byte) : bool :=
  (byte_val lo <=? byte_val c) && (byte_val c <=? byte_val hi).

(** [[a-z]] and [[a-z0-9-]]. *)
Definition is_lower (c : byte) : bool := in_range "a" "z" c.
Definition is_name_char (c : byte) : bool :=
  is_lower c || in_range "0" "9" c || bool_decide (c = "-"%byte).

Definition appServicePattern : regex := Cat (Cls is_lower) (UpTo (Cls is_name_char) 30).

Definition ValidAppService (service : bytes) : bool :=
  (zlen service <=? 64) && rmatch appServicePattern service.

(** ** Frame laws *)

(** The frames the wire can carry: header fields within their widths and a
    payload within [MaxFrameSize]. *)
Definition frame_ok (f : Frame) : bool :=
  u8 (Type_ f) && u8 (Flags f) && u32 (MsgID f) && (frameHeaderSize + zlen (Body f) <=? MaxFrameSize).

Lemma frame_ok_spec f :
  frame_ok f = true <->
  u8 (Type_ f) = true /\ u8 (Flags f) = true /\ u32 (MsgID f) = true /\
  frameHeaderSize + zlen (Body f) <= MaxFrameSize.
Proof. unfold frame_ok. rewrite !andb_true_iff, Z.leb_le. tauto. Qed.

Definition frame_payload (f : Frame) : bytes :=
  byte_of (Type_ f) :: byte_of (Flags f) :: be_put 4 (MsgID f) ++ Body f.

Lemma zlen_frame_payload f : zlen (frame_payload f) = frameHeaderSize + zlen (Body f).
Proof.
  unfold frame_payload, frameHeaderSize. rewrite !zlen_cons, zlen_app, zlen_be_put. lia.
Qed.

Lemma reads_Frame payload :
  zlen payload <= MaxFrameSize ->
  Reads ReadFrame (be_put 4 (to_u 32 (zlen payload)) ++ payload) payload.
Proof.
  intros H rest e. pose proof (zlen_nonneg payload). unfold MaxFrameSize in H.
  unfold ReadFrame, ReadFrame_with. rewrite <- app_assoc.
  rewrite (bind_ok _ _ _ _ _ (ReadFull_exact 4 _ _ _ ltac:(lia) (zlen_be_put 4 _))).
  rewrite be_get_put, to_u_id by (apply in_u_spec; lia). rewrite Z.mod_small by lia.
  unfold reject_if. rewrite (proj2 (Z.ltb_ge MaxFrameSize _)) by (unfold MaxFrameSize; lia).
  by apply ReadFull_exact.
Qed.

Lemma byte_val_of_u8 v : u8 v = true -> byte_val (byte_of v) = v.
Proof. rewrite byte_val_of, in_u_spec. intros. by apply Z.mod_small. Qed.

Lemma reads_MVCPFrame f : frame_ok f = true -> Reads ReadMVCPFrame (EncodeMVCPFrame f) f.
Proof.
  intros (Ht & Hf & Hm & Hl)%frame_ok_spec rest e. unfold ReadMVCPFrame, ReadMVCPFrame_with, EncodeMVCPFrame.
  fold ReadFrame.
  fold (frame_payload f). pose proof (zlen_frame_payload f) as Hz.
  pose proof (zlen_nonneg (Body f)).
  rewrite (bind_ok _ _ _ _ _ (reads_Frame (frame_payload f) ltac:(lia) rest e)).
  unfold reject_if. rewrite (proj2 (Z.ltb_ge _ _)) by lia.
  unfold frame_payload. cbn [drop lookup_total list_lookup_total].
  rewrite drop_0, (take_app_length' _ _ 4) by (by rewrite length_be_put).
  rewrite be_get_put, (Z.mod_small (MsgID f)) by (by apply in_u_spec in Hm).
  rewrite (drop_app_length' _ _ 4) by (by rewrite length_be_put).
  rewrite !byte_val_of_u8 by done. by destruct f.
Qed.

#[export] Hint Resolve reads_MVCPFrame : wire.

(** A frame is never produced from other bytes than its own encoding, and its
    fields are within bounds: decoding accepts nothing it should not. *)
Lemma ReadFrame_canon :
  Canon ReadFrame (fun p => be_put 4 (to_u 32 (zlen p)) ++ p) (fun p => zlen p <= MaxFrameSize).
Proof.
  intros r p r' H. unfold ReadFrame, ReadFrame_with in H.
  apply bind_inv in H as (hd & r1 & E1 & H). apply bind_inv in H as (u & r2 & E2 & H).
  apply ReadFull_inv in E1 as (Hd1 & He1 & Hl1); [|lia].
  apply reject_if_inv in E2 as [Hmax ->]. apply Z.ltb_ge in Hmax. unfold MaxFrameSize in *.
  pose proof (be_get_range hd) as Hr.
  apply ReadFull_inv in H as (Hd & He & Hl); [|lia].
  rewrite Hd1, Hd, He, He1, Hl, to_u_id by (apply in_u_spec; lia).
  assert (length hd = 4%nat) as <- by (unfold zlen in Hl1; lia).
  by rewrite be_put_get, <- app_assoc.
Qed.

Lemma ReadMVCPFrame_canon : Canon ReadMVCPFrame EncodeMVCPFrame (fun f => frame_ok f = true).
Proof.
  intros r f r' H. unfold ReadMVCPFrame, ReadMVCPFrame_with in H. fold ReadFrame in H.
  apply bind_inv in H as (p & r1 & E1 & H). apply bind_inv in H as (u & r2 & E2 & H).
  apply ReadFrame_canon in E1 as (Hd & He & Hl). apply reject_if_inv in E2 as [Hmin ->].
  injection H as <- <-. apply Z.ltb_ge in Hmin. unfold frameHeaderSize in Hmin.
  do 6 (destruct p as [|? p]; [unfold zlen in Hmin; simpl in Hmin; lia|]).
  unfold EncodeMVCPFrame. cbn [Type_ Flags MsgID Body lookup_total list_lookup_total drop take].
  rewrite drop_0, !byte_of_val. cbn [take]. rewrite take_0.
  rewrite (be_put_get [b1; b2; b3; b4] : be_put 4 _ = _).
  split_and!; [done..|]. apply frame_ok_spec. cbn [Type_ Flags MsgID Body].
  pose proof (be_get_range [b1; b2; b3; b4]). rewrite !in_u_spec.
  rewrite !zlen_cons in Hl. unfold frameHeaderSize.
  pose proof (byte_val_range b). pose proof (byte_val_range b0).
  change (256 ^ zlen [b1; b2; b3; b4]) with (2 ^ 32) in *. lia.
Qed.

Lemma length_EncodeMVCPFrame f : zlen (EncodeMVCPFrame f) = 10 + zlen (Body f).
Proof.
  unfold EncodeMVCPFrame. fold (frame_payload f).
  rewrite zlen_app, zlen_be_put, zlen_frame_payload. unfold frameHeaderSize. lia.
Qed.

(** ** Service names *)

Lemma rmatch_Void s : rmatch Void s = false.
Proof. by induction s. Qed.

Lemma rmatch_Alt r1 r2 s : rmatch (Alt r1 r2) s = rmatch r1 s || rmatch r2 s.
Proof. revert r1 r2. induction s as [|c s IH]; intros r1 r2; [done|]. apply IH. Qed.

Lemma rmatch_Eps s : rmatch Eps s = bool_decide (s = []).
Proof. destruct s; [done|]. simpl. by rewrite rmatch_Void. Qed.

Lemma rmatch_Cat_Void r s : rmatch (Cat Void r) s = false.
Proof. induction s; [done|]. apply IHs. Qed.

Lemma rmatch_Cat_Eps r s : rmatch (Cat Eps r) s = rmatch r s.
Proof.
  destruct s as [|c s]; [done|]. cbn [rmatch der nullable].
  by rewrite rmatch_Alt, rmatch_Cat_Void.
Qed.

Lemma rmatch_Cat_Cls p r c s : rmatch (Cat (Cls p) r) (c :: s) = p c && rmatch r s.
Proof.
  cbn [rmatch der nullable]. destruct (p c); simpl; [apply rmatch_Cat_Eps|apply rmatch_Cat_Void].
Qed.

Lemma rmatch_UpTo p n s :
  rmatch (UpTo (Cls p) n) s = (zlen s <=? Z.of_nat n) && forallb p s.
Proof.
  revert s. induction n as [|n IH]; intros s; cbn [UpTo].
  - rewrite rmatch_Eps. destruct s; [done|]. rewrite zlen_cons.
    rewrite bool_decide_eq_false_2 by done. symmetry. apply andb_false_iff. left.
    apply Z.leb_gt. pose proof (zlen_nonneg s). lia.
  - rewrite rmatch_Alt, rmatch_Eps. destruct s as [|c s]; [done|].
    rewrite bool_decide_eq_false_2, rmatch_Cat_Cls, IH, zlen_cons by done. cbn [orb forallb].
    replace (1 + zlen s <=? Z.of_nat (S n)) with (zlen s <=? Z.of_nat n)
      by (apply eq_true_iff_eq; rewrite !Z.leb_le; lia).
    destruct (p c), (zlen s <=? Z.of_nat n), (forallb p s); done.
Qed.

(** ** Fragmentation *)

(** A run over chunks and a run over the bytes agree. *)
Definition view_run {A} (x : result A * ChunkReader) : result A * Reader :=
  (x.1, chunk_view x.2).

Lemma bind_view {A B} (mc : M ChunkReader A) (m : M Reader A)
    (fc : A -> M ChunkReader B) (f : A -> M Reader B) :
  (forall c, view_run (mc c) = m (chunk_view c)) ->
  (forall a c, view_run (fc a c) = f a (chunk_view c)) ->
  forall c, view_run ((mc ≫= fc) c) = (m ≫= f) (chunk_view c).
Proof.
  intros Hm Hf c. rewrite !bind_unfold. specialize (Hm c). revert Hm.
  destruct (mc c) as [[a|e] c'], (m (chunk_view c)) as [[a'|e'] r']; unfold view_run; simpl;
    intros [= <- <-]; [apply Hf|done].
Qed.

Lemma ReadFull_view n c : view_run (ReadFull_chunked n c) = ReadFull n (chunk_view c).
Proof.
  pose proof (ReadFull_chunked_view n c) as H. unfold view_run.
  destruct (ReadFull_chunked n c). exact H.
Qed.

Lemma ret_view {A} (a : A) c : view_run ((mret a : M ChunkReader A) c) = (mret a : M Reader A) (chunk_view c).
Proof. done. Qed.

Lemma reject_if_view b e c : view_run (reject_if b e c) = reject_if b e (chunk_view c).
Proof. by destruct b. Qed.

#[export] Hint Resolve ReadFull_view ret_view reject_if_view bind_view : wire.

(** ** Properties *)

(** However the transport splits the stream into reads, [ReadMVCPFrame] does
    what it does on the contiguous bytes. *)
Lemma ReadMVCPFrame_view (c : ChunkReader) :
  view_run (ReadMVCPFrame_with ReadFull_chunked c) = ReadMVCPFrame (chunk_view c).
Proof.
  unfold ReadMVCPFrame, ReadMVCPFrame_with, ReadFrame_with. revert c.
  repeat first [apply bind_view; intros | apply ReadFull_view | apply reject_if_view | apply ret_view].
Qed.

(** C28: writing any list of well-formed frames to a connection performs one
    [Write] call per frame, and reading the connection back returns exactly
    those frames in order and leaves nothing: frames are self-delimiting. *)
Theorem frames_stream_roundtrip (fs : list Frame) (e : error)
    (Hfs : Forall (fun f => frame_ok f = true) fs) :
  exists w, write_all WriteMVCPFrame fs Buffer = (Ok tt, w) /\
    wcalls w = map EncodeMVCPFrame fs /\
    read_n ReadMVCPFrame (length fs) (mkReader (wout w) e) = (Ok fs, mkReader [] e).
Proof.
  assert (Hw : forall fs cs, write_all WriteMVCPFrame fs (mkWriter cs [])
    = (Ok tt, mkWriter (cs ++ map EncodeMVCPFrame fs) [])).
  { clear. induction fs as [|f fs IH]; intros cs; simpl; [by rewrite app_nil_r|].
    rewrite bind_unfold. cbn. rewrite IH. by rewrite <- app_assoc. }
  exists (mkWriter (map EncodeMVCPFrame fs) []). split; [apply (Hw fs [])|]. split; [done|]. unfold wout. cbn [wcalls app].
  rewrite <- (app_nil_r (concat _)). apply (reads_n ReadMVCPFrame EncodeMVCPFrame).
  eapply Forall_impl; [exact Hfs|]. apply reads_MVCPFrame.
Qed.

Lemma frames_stream_roundtrip_witness :
  exists w, write_all WriteMVCPFrame [mkFrame 1 0 7 []; mkFrame 0x53 0 0 (str "abc")] Buffer = (Ok tt, w) /\
    wcalls w = map EncodeMVCPFrame [mkFrame 1 0 7 []; mkFrame 0x53 0 0 (str "abc")] /\
    read_n ReadMVCPFrame 2 (mkReader (wout w) io_EOF)
      = (Ok [mkFrame 1 0 7 []; mkFrame 0x53 0 0 (str "abc")], mkReader [] io_EOF).
Proof.
  apply (frames_stream_roundtrip [mkFrame 1 0 7 []; mkFrame 0x53 0 0 (str "abc")]).
  repeat constructor.
Defined.

(** [ReadMVCPFrame] succeeds with a frame exactly when the stream starts
    with that frame's encoding and the frame respects the field widths and
    [MaxFrameSize]; it then consumes exactly the encoding. *)
Theorem ReadMVCPFrame_exact (r r' : Reader) (f : Frame) :
  ReadMVCPFrame r = (Ok f, r') <->
  rdata r = EncodeMVCPFrame f ++ rdata r' /\ rerr r' = rerr r /\ frame_ok f = true.
Proof.
  split; [apply ReadMVCPFrame_canon|].
  destruct r as [d e], r' as [d' e']. simpl. intros (-> & -> & Hf). by apply reads_MVCPFrame.
Qed.

Lemma ReadFull_NewReader_take k n data :
  (k <= length data)%nat -> 0 < n -> Z.of_nat k < n ->
  ReadFull n (NewReader (take k data))
  = (Err (if bool_decide (k = 0%nat) then io_EOF else io_ErrUnexpectedEOF), mkReader [] io_EOF).
Proof.
  intros Hk Hn Hlt. assert (Hl : zlen (take k data) = Z.of_nat k)
    by (unfold zlen; rewrite length_take; lia).
  rewrite ReadFull_short by lia. rewrite (bool_decide_ext (take k data = []) (k = 0%nat)); [done|]. split.
  - intros E. rewrite E in Hl. change (zlen []) with 0 in Hl. lia.
  - by intros ->.
Qed.

(** A connection cut inside a frame: [ReadMVCPFrame] never returns a frame;
    the error is [io.EOF] when the cut is at byte 0 or right after the 4-byte
    length prefix, and [io.ErrUnexpectedEOF] at every other position. *)
Theorem ReadMVCPFrame_truncated (f : Frame) (k : nat)
    (Hf : frame_ok f = true) (Hk : Z.of_nat k < zlen (EncodeMVCPFrame f)) :
  (ReadMVCPFrame (NewReader (take k (EncodeMVCPFrame f)))).1
  = Err (if bool_decide (k = 0%nat \/ k = 4%nat) then io_EOF else io_ErrUnexpectedEOF).
Proof.
  rewrite length_EncodeMVCPFrame in Hk. apply frame_ok_spec in Hf as (_ & _ & _ & Hm).
  unfold ReadMVCPFrame, ReadMVCPFrame_with, EncodeMVCPFrame. fold (frame_payload f).
  pose proof (zlen_frame_payload f) as Hz. unfold frameHeaderSize, MaxFrameSize in *.
  pose proof (zlen_nonneg (Body f)). rewrite bind_unfold. unfold ReadFrame_with.
  assert (Hh : length (be_put 4 (to_u 32 (zlen (frame_payload f)))) = 4%nat) by apply length_be_put.
  rewrite bind_unfold. destruct (decide (k < 4)%nat) as [Hk4|Hk4].
  { rewrite take_app_le, ReadFull_NewReader_take by lia. simpl.
    by rewrite (bool_decide_ext (k = 0%nat) (k = 0%nat \/ k = 4%nat)) by lia. }
  rewrite take_app_ge, Hh by lia. unfold NewReader.
  rewrite (ReadFull_exact 4) by (lia || apply (zlen_be_put 4)).
  rewrite be_get_put, to_u_id by (apply in_u_spec; lia).
  rewrite Z.mod_small by lia. rewrite bind_unfold. unfold reject_if, MaxFrameSize.
  rewrite (proj2 (Z.ltb_ge _ _)) by lia. cbn [mret M_ret].
  fold (NewReader (take (k - 4) (frame_payload f))).
  rewrite ReadFull_NewReader_take by (unfold zlen in *; lia). simpl.
  by rewrite (bool_decide_ext ((k - 4)%nat = 0%nat) (k = 0%nat \/ k = 4%nat)) by lia.
Qed.

Lemma ReadMVCPFrame_truncated_witness :
  (ReadMVCPFrame (NewReader (take 4 (EncodeMVCPFrame (mkFrame 1 0 7 (str "hi")))))).1
  = Err io_EOF.
Proof. apply (ReadMVCPFrame_truncated (mkFrame 1 0 7 (str "hi")) 4); [reflexivity|vm_compute; reflexivity]. Defined.

(** A length prefix above [MaxFrameSize] is refused after reading the
    prefix alone: no payload byte is consumed, so none is allocated for. *)
Theorem ReadMVCPFrame_oversize (n : Z) (rest : bytes) (e : error)
    (Hn : MaxFrameSize < n < 2 ^ 32) :
  ReadMVCPFrame (mkReader (be_put 4 n ++ rest) e) = (Err ErrFrameTooLarge, mkReader rest e).
Proof.
  unfold ReadMVCPFrame, ReadMVCPFrame_with, ReadFrame_with. rewrite !bind_unfold.
  rewrite (ReadFull_exact 4) by (lia || apply (zlen_be_put 4)).
  rewrite be_get_put, Z.mod_small by (unfold MaxFrameSize in Hn; lia).
  unfold reject_if. rewrite bind_unfold. by rewrite (proj2 (Z.ltb_lt _ _)) by lia.
Qed.

Lemma ReadMVCPFrame_oversize_witness :
  ReadMVCPFrame (mkReader (be_put 4 (MaxFrameSize + 1) ++ str "x") io_EOF)
  = (Err ErrFrameTooLarge, mkReader (str "x") io_EOF).
Proof. apply ReadMVCPFrame_oversize. vm_compute. split; reflexivity. Defined.

(** A payload too short for the frame header. *)
Lemma ReadMVCPFrame_short payload rest e :
  zlen payload < frameHeaderSize ->
  ReadMVCPFrame (mkReader (be_put 4 (zlen payload) ++ payload ++ rest) e) = (Err io_ErrUnexpectedEOF, mkReader rest e).
Proof.
  unfold frameHeaderSize. intros Hp. pose proof (zlen_nonneg payload).
  unfold ReadMVCPFrame, ReadMVCPFrame_with, ReadFrame_with. rewrite !bind_unfold.
  rewrite (ReadFull_exact 4) by (lia || apply (zlen_be_put 4)).
  rewrite be_get_put, Z.mod_small by lia. unfold reject_if. rewrite bind_unfold.
  rewrite (proj2 (Z.ltb_ge _ _)) by (unfold MaxFrameSize; lia). cbn [mret M_ret].
  rewrite ReadFull_exact by lia. by rewrite (proj2 (Z.ltb_lt _ _)) by (unfold frameHeaderSize; lia).
Qed.

(** C29: [ReadMVCPFrame] on a transport that splits the stream into reads as it
    likes.  A stream that starts with an encoded frame yields that frame and
    leaves the bytes behind it, and a frame is returned in no other case; a
    length above [MaxFrameSize] is refused after four bytes, a payload shorter
    than the header is an unexpected EOF, and a connection that ends inside a
    frame is an EOF when it ends before the frame or right after the length, an
    unexpected EOF anywhere else. *)
Theorem ReadMVCPFrame_chunked (c : ChunkReader) :
  let '(res, c') := ReadMVCPFrame_with ReadFull_chunked c in
  (forall f rest, frame_ok f = true -> concat (chunks c) = EncodeMVCPFrame f ++ rest ->
     res = Ok f /\ chunk_view c' = mkReader rest (cerr c)) /\
  (forall f, res = Ok f -> frame_ok f = true /\ concat (chunks c) = EncodeMVCPFrame f ++ concat (chunks c')) /\
  (forall n rest, MaxFrameSize < n < 2 ^ 32 -> concat (chunks c) = be_put 4 n ++ rest ->
     res = Err ErrFrameTooLarge /\ chunk_view c' = mkReader rest (cerr c)) /\
  (forall payload rest, zlen payload < frameHeaderSize -> concat (chunks c) = be_put 4 (zlen payload) ++ payload ++ rest ->
     res = Err io_ErrUnexpectedEOF /\ chunk_view c' = mkReader rest (cerr c)) /\
  (forall f k, frame_ok f = true -> Z.of_nat k < zlen (EncodeMVCPFrame f) ->
     concat (chunks c) = take k (EncodeMVCPFrame f) -> cerr c = io_EOF ->
     res = Err (if bool_decide (k = 0%nat \/ k = 4%nat) then io_EOF else io_ErrUnexpectedEOF)).
Proof.
  pose proof (ReadMVCPFrame_view c) as V. destruct (ReadMVCPFrame_with ReadFull_chunked c) as [res c'].
  unfold view_run in V. cbn [fst snd] in V. unfold chunk_view at 2 in V. split_and!.
  - intros f rest Hf E. rewrite E, (reads_MVCPFrame f Hf rest (cerr c)) in V. by apply pair_equal_spec in V.
  - intros f ->. symmetry in V. by apply ReadMVCPFrame_canon in V as (Hd & _ & Hf).
  - intros n rest Hn E. rewrite E, ReadMVCPFrame_oversize in V by done. by apply pair_equal_spec in V.
  - intros p rest Hp E. rewrite E, ReadMVCPFrame_short in V by done. by apply pair_equal_spec in V.
  - intros f k Hf Hk E Ec. rewrite E, Ec in V.
    pose proof (ReadMVCPFrame_truncated f k Hf Hk) as T. unfold NewReader in T. by rewrite <- V in T.
Qed.

Lemma ReadMVCPFrame_chunked_witness :
  (ReadMVCPFrame_with ReadFull_chunked
    (mkChunkReader [take 5 (EncodeMVCPFrame (mkFrame 1 0 7 (str "hi"))); []; drop 5 (EncodeMVCPFrame (mkFrame 1 0 7 (str "hi"))) ++ str "x"] io_EOF)).1
  = Ok (mkFrame 1 0 7 (str "hi")).
Proof.
  pose proof (ReadMVCPFrame_chunked
    (mkChunkReader [take 5 (EncodeMVCPFrame (mkFrame 1 0 7 (str "hi"))); []; drop 5 (EncodeMVCPFrame (mkFrame 1 0 7 (str "hi"))) ++ str "x"] io_EOF)) as H.
  destruct (ReadMVCPFrame_with ReadFull_chunked _) as [res c']. destruct H as [H _].
  apply (H (mkFrame 1 0 7 (str "hi")) (str "x")); reflexivity.
Defined.

(** [ValidAppService] accepts exactly the names of 1 to 31 bytes that
    start with a lower-case letter and continue with lower-case letters,
    digits and hyphens; the separate 64-byte bound never decides. *)
Theorem ValidAppService_spec (service : bytes) :
  ValidAppService service = true <->
  exists c s, service = c :: s /\ is_lower c = true /\ forallb is_name_char s = true /\ zlen s <= 30.
Proof.
  unfold ValidAppService, appServicePattern. destruct service as [|c s].
  { split; [done|]. by intros (c & s & ? & _). }
  rewrite rmatch_Cat_Cls, rmatch_UpTo, !andb_true_iff, !Z.leb_le, zlen_cons.
  split; [intros (_ & ? & ? & ?); eauto 10|].
  intros (? & ? & [= <- <-] & ? & ? & ?). split_and!; [lia|done..].
Qed.
