(* ===== verification/Hello.v ===== *)
(** * The HELLO message and capability negotiation

    [protocol/hello.go] (roles, capabilities, the HELLO codec with its
    validation) and [protocol/capabilities.go] (negotiation of the common
    capability set and the requirement check). *)
From Stdlib Require Import ZArith Lia Strings.Byte.
From stdpp Require Import base list gmap strings sorting.
From S2P Require Import Prelude GoIO Wire Frame.

Open Scope Z_scope.

(** ** hello.go: data *)

Definition maxHelloCapabilities : Z := 64.
Definition maxHelloVersionLen : Z := 128.

Definition RoleUnknown : Z := 0.
Definition RoleCore : Z := 1.
Definition RoleVHandler : Z := 2.

Definition CapabilityExec : Z := 0x01.
Definition CapabilityTools : Z := 0x02.
Definition CapabilityEvents : Z := 0x03.
Definition CapabilityFileTransfer : Z := 0x04.
Definition CapabilitySyncFS : Z := 0x05.
Definition CapabilityAppChannel : Z := 0x06.

Record CapabilitySupport := mkSupport { MinRevision : Z; MaxRevision : Z }.

Abbreviation AdvertisedCapabilities := (gmap Z CapabilitySupport).

Record Capability := mkCapability { CapID : Z; CapMin : Z; CapMax : Z }.

Record Hello := mkHello {
  Role : Z;
  SoftwareVersion : bytes;
  Capabilities : list Capability }.

#[global] Instance CapabilitySupport_eq_dec : EqDecision CapabilitySupport.
Proof. solve_decision. Defined.
#[global] Instance Capability_eq_dec : EqDecision Capability.
Proof. solve_decision. Defined.
#[global] Instance Hello_eq_dec : EqDecision Hello.
Proof. solve_decision. Defined.

Definition DefaultCapabilities : AdvertisedCapabilities :=
  list_to_map
    [(CapabilityExec, mkSupport 1 2);
     (CapabilityTools, mkSupport 1 1);
     (CapabilityEvents, mkSupport 1 1);
     (CapabilityFileTransfer, mkSupport 1 1);
     (CapabilitySyncFS, mkSupport 1 1);
     (CapabilityAppChannel, mkSupport 1 1)].

(** The order [sort.Slice] sorts by. *)
Definition cap_le (c1 c2 : Capability) : Prop := CapID c1 <= CapID c2.

#[global] Instance cap_le_dec c1 c2 : Decision (cap_le c1 c2).
Proof. unfold cap_le. apply _. Defined.
#[global] Instance cap_le_total : Total cap_le.
Proof. intros c1 c2. unfold cap_le. lia. Qed.
#[global] Instance cap_le_trans : Transitive cap_le.
Proof. intros c1 c2 c3. unfold cap_le. lia. Qed.

Definition sort_caps (cs : list Capability) : list Capability := merge_sort cap_le cs.

(** ** hello.go: operations *)

Definition NewHello (role : Z) (softwareVersion : bytes) (caps : AdvertisedCapabilities) : Hello :=
  let cs := map (fun '(id, s) => mkCapability id (MinRevision s) (MaxRevision s)) (map_to_list caps) in
  mkHello role softwareVersion (sort_caps cs).

Definition advertised (h : Hello) : AdvertisedCapabilities :=
  foldl (fun out c => <[CapID c := mkSupport (CapMin c) (CapMax c)]> out) ∅ (Capabilities h).

Definition write_capability (c : Capability) : M Writer unit :=
  reject_if (CapMax c <? CapMin c)
    (Errorf (str "mvcp: hello: capability 0x" ++ fmt_02X (CapID c) ++ str " min > max")) ;;
  WriteUint8 (CapID c) ;;
  WriteUint16 (CapMin c) ;;
  WriteUint16 (CapMax c).

Definition Hello_MarshalBinary (h : Hello) : result bytes :=
  if (Role h =? RoleUnknown) || (RoleVHandler <? Role h) then
    Err (Errorf (str "mvcp: hello: invalid role " ++ fmt_d (Role h)))
  else if maxHelloVersionLen <? zlen (SoftwareVersion h) then
    Err (Errorf (str "mvcp: hello: software version too long (" ++
      fmt_d (zlen (SoftwareVersion h)) ++ str " bytes, max " ++ fmt_d maxHelloVersionLen ++ str ")"))
  else if maxHelloCapabilities <? zlen (Capabilities h) then
    Err (Errorf (str "mvcp: hello: too many capabilities (" ++
      fmt_d (zlen (Capabilities h)) ++ str ", max " ++ fmt_d maxHelloCapabilities ++ str ")"))
  else
    let cs := sort_caps (Capabilities h) in
    to_bytes (
      WriteUint8 (Role h) ;;
      WriteString (SoftwareVersion h) ;;
      WriteUint16 (to_u 16 (zlen cs)) ;;
      write_all write_capability cs).

(** [fmt.Errorf("%w: %v", errMalformedHello, err)] and the validation errors
    that wrap the same sentinel. *)
Definition malformed_text (t : bytes) : error := Wrapf [] errMalformedHello (str ": " ++ t).

Definition malformed {A} (m : M Reader A) : M Reader A := fun r =>
  match m r with
  | (Err e, r') => (Err (malformed_text (Error e)), r')
  | x => x
  end.

Fixpoint read_capabilities (n : nat) (seen : gset Z) (cs : list Capability) :
    M Reader (list Capability) :=
  match n with
  | O => mret cs
  | S n' =>
      id ← malformed ReadUint8;
      minRev ← malformed ReadUint16;
      maxRev ← malformed ReadUint16;
      reject_if (bool_decide (id ∈ seen))
        (malformed_text (str "duplicate capability 0x" ++ fmt_02X id)) ;;
      reject_if (maxRev <? minRev)
        (malformed_text (str "capability 0x" ++ fmt_02X id ++ str " min > max")) ;;
      read_capabilities n' ({[id]} ∪ seen) (cs ++ [mkCapability id minRev maxRev])
  end.

Definition read_hello : M Reader Hello :=
  role ← malformed ReadUint8;
  reject_if (RoleVHandler <? role) (malformed_text (str "invalid role " ++ fmt_d role)) ;;
  verLen ← malformed ReadUint16;
  reject_if (maxHelloVersionLen <? verLen)
    (malformed_text (str "software version too long (" ++ fmt_d verLen ++ str " bytes, max "
                     ++ fmt_d maxHelloVersionLen ++ str ")")) ;;
  verBuf ← malformed (ReadFull verLen);
  count ← malformed ReadUint16;
  reject_if (maxHelloCapabilities <? count)
    (malformed_text (str "too many capabilities (" ++ fmt_d count ++ str ", max "
                     ++ fmt_d maxHelloCapabilities ++ str ")")) ;;
  cs ← read_capabilities (Z.to_nat count) ∅ [];
  n ← Len;
  reject_if (negb (n =? 0)) (malformed_text (fmt_d n ++ str " trailing bytes")) ;;
  mret (mkHello role verBuf cs).

Definition Hello_UnmarshalBinary (data : bytes) : result Hello := from_bytes read_hello data.

(** ** capabilities.go *)

Definition Negotiate (peer local : AdvertisedCapabilities) : gmap Z Z :=
  map_fold (fun id p out =>
    match local !! id with
    | None => out
    | Some l =>
        let lo := Z.max (MinRevision p) (MinRevision l) in
        let hi := Z.min (MaxRevision p) (MaxRevision l) in
        if lo <=? hi then <[id := hi]> out else out
    end) ∅ peer.

(** The receiver lists the requirement map in the order [range] visits it,
    which Go leaves unspecified: the error reported is that of the first
    unsatisfied entry in that order. *)
Fixpoint Requirements_Check (r : list (Z * Z)) (n : gmap Z Z) : result unit :=
  match r with
  | [] => Ok tt
  | (id, minRev) :: r' =>
      match n !! id with
      | None =>
          Err (Errorf (str "mvcp: capability 0x" ++ fmt_02X id
            ++ str " not negotiated (required >= " ++ fmt_d minRev ++ str ")"))
      | Some rev =>
          if rev <? minRev then
            Err (Errorf (str "mvcp: capability 0x" ++ fmt_02X id ++ str " negotiated at revision "
              ++ fmt_d rev ++ str ", required >= " ++ fmt_d minRev))
          else Requirements_Check r' n
      end
  end.

(** ** The HELLO wire form *)

Definition enc_cap (c : Capability) : bytes :=
  enc_u8 (CapID c) ++ enc_u16 (CapMin c) ++ enc_u16 (CapMax c).

Definition hello_wire (h : Hello) : bytes :=
  enc_u8 (Role h) ++ enc_string (SoftwareVersion h) ++
  enc_u16 (zlen (Capabilities h)) ++ enc_list enc_cap (Capabilities h).

Definition cap_ok (c : Capability) : bool :=
  u8 (CapID c) && u16 (CapMin c) && u16 (CapMax c) && (CapMin c <=? CapMax c).

(** What a well-formed HELLO is (docs/06-negotiation.md): a role of the
    enumeration, bounded version and capability list, unique identifiers and
    non-empty revision ranges. *)
Record hello_valid (h : Hello) : Prop := {
  hv_role : 0 <= Role h <= RoleVHandler;
  hv_version : zlen (SoftwareVersion h) <= maxHelloVersionLen;
  hv_count : zlen (Capabilities h) <= maxHelloCapabilities;
  hv_caps : Forall (fun c => cap_ok c = true) (Capabilities h);
  hv_nodup : NoDup (map CapID (Capabilities h)) }.

Definition sorted_hello (h : Hello) : Hello :=
  mkHello (Role h) (SoftwareVersion h) (sort_caps (Capabilities h)).

Lemma cap_ok_spec c :
  cap_ok c = true <->
  u8 (CapID c) = true /\ u16 (CapMin c) = true /\ u16 (CapMax c) = true /\ CapMin c <= CapMax c.
Proof. unfold cap_ok. rewrite !andb_true_iff, Z.leb_le. tauto. Qed.

Lemma sort_caps_perm cs : sort_caps cs ≡ₚ cs.
Proof. apply merge_sort_Permutation. Qed.

(** [sort.Slice] is not stable, but on distinct identifiers the sorted list is
    unique: every sorting of any enumeration gives the modelled list. *)
Lemma sort_caps_unique cs cs' :
  NoDup (map CapID cs) -> cs' ≡ₚ cs -> Sorted cap_le cs' -> cs' = sort_caps cs.
Proof.
  intros Hnd Hp Hs. apply (Sorted_unique_strong cap_le); [|done|apply Sorted_merge_sort, _|].
  - intros c1 c2 H1 H2 L1 L2. unfold cap_le in *. assert (CapID c1 = CapID c2) as Heq by lia.
    rewrite Hp in H1. rewrite sort_caps_perm in H2.
    apply list_elem_of_lookup in H1 as [i Hi], H2 as [j Hj].
    assert (i = j) as ->; [|congruence].
    apply (NoDup_lookup (map CapID cs) i j (CapID c1)); [done|..];
      rewrite (list_lookup_fmap CapID), ?Hi, ?Hj; simpl; congruence.
  - by rewrite sort_caps_perm.
Qed.

Lemma hello_valid_sorted h : hello_valid h -> hello_valid (sorted_hello h).
Proof.
  intros [? ? Hc Hf Hn]. pose proof (sort_caps_perm (Capabilities h)) as Hp.
  split; simpl; [done..| | |].
  - unfold zlen in *. by rewrite Hp.
  - by rewrite Hp.
  - rewrite (Permutation_map CapID Hp). done.
Qed.

(** *** Decoding *)

Lemma malformed_ok_inv {A} (m : M Reader A) r x r' :
  malformed m r = (Ok x, r') -> m r = (Ok x, r').
Proof. unfold malformed. destruct (m r) as [[]]; [done|discriminate]. Qed.

Lemma reads_malformed {A} (m : M Reader A) bs x : Reads m bs x -> Reads (malformed m) bs x.
Proof. intros H rest e. unfold malformed. by rewrite H. Qed.

#[export] Hint Resolve reads_malformed : wire.

Lemma reads_reject_if {A} b e (m : M Reader A) bs x :
  b = false -> Reads m bs x -> Reads (reject_if b e ;; m) bs x.
Proof. intros -> H rest e'. apply H. Qed.

Lemma reads_capabilities cs seen acc :
  Forall (fun c => cap_ok c = true) cs -> NoDup (map CapID cs) ->
  (forall c, c ∈ cs -> CapID c ∉ seen) ->
  Reads (read_capabilities (length cs) seen acc) (enc_list enc_cap cs) (acc ++ cs).
Proof.
  intros Hok. revert seen acc.
  induction Hok as [|c cs Hc _ IH]; intros seen acc Hnd Hs; cbn [length read_capabilities].
  { rewrite app_nil_r, enc_list_nil. apply reads_ret. }
  apply cap_ok_spec in Hc as (H1 & H2 & H3 & H4).
  cbn [map] in Hnd. apply NoDup_cons in Hnd as [Hin Hnd].
  rewrite enc_list_cons. unfold enc_cap at 1. rewrite <- !app_assoc.
  eapply reads_bind; [by eauto with wire|]. eapply reads_bind; [by eauto with wire|].
  eapply reads_bind; [by eauto with wire|].
  apply reads_reject_if; [apply bool_decide_eq_false, Hs; by left|].
  apply reads_reject_if; [by apply Z.ltb_ge|].
  replace (acc ++ c :: cs) with ((acc ++ [mkCapability (CapID c) (CapMin c) (CapMax c)]) ++ cs)
    by (rewrite <- app_assoc; by destruct c).
  apply IH; [done|]. intros c' Hc'. apply not_elem_of_union. split.
  - intros Heq%elem_of_singleton. apply Hin. rewrite <- Heq.
    by apply list_elem_of_In, in_map, list_elem_of_In.
  - apply Hs. by right.
Qed.

Lemma canon_capabilities n seen acc r cs r' :
  read_capabilities n seen acc r = (Ok cs, r') ->
  exists new, cs = acc ++ new /\ length new = n /\
    rdata r = enc_list enc_cap new ++ rdata r' /\ rerr r' = rerr r /\
    Forall (fun c => cap_ok c = true) new /\ NoDup (map CapID new) /\
    (forall c, c ∈ new -> CapID c ∉ seen).
Proof.
  revert seen acc r. induction n as [|n IH]; intros seen acc r H; cbn [read_capabilities] in H.
  { injection H as <- <-. exists []. rewrite app_nil_r, enc_list_nil.
    split_and!; [done..|constructor|]. by intros c ?%not_elem_of_nil. }
  apply bind_inv in H as (id & r1 & E1%malformed_ok_inv & H).
  apply bind_inv in H as (lo & r2 & E2%malformed_ok_inv & H).
  apply bind_inv in H as (hi & r3 & E3%malformed_ok_inv & H).
  apply bind_inv in H as (u1 & r4 & [Hdup ->]%reject_if_inv & H).
  apply bind_inv in H as (u2 & r5 & [Hle ->]%reject_if_inv & H).
  apply bool_decide_eq_false in Hdup. apply Z.ltb_ge in Hle. canon_reads.
  apply IH in H as (new & -> & <- & Hd & He & Hf & Hn & Hs).
  exists (mkCapability id lo hi :: new). rewrite <- app_assoc. split_and!; [done..| | | | |].
  - rewrite enc_list_cons. unfold enc_cap at 1. cbn [CapID CapMin CapMax].
    rewrite <- !app_assoc. congruence.
  - congruence.
  - constructor; [by apply cap_ok_spec|done].
  - simpl. constructor; [|done]. intros (c & Hc1 & Hc2)%list_elem_of_In%in_map_iff.
    apply (Hs c); [by apply list_elem_of_In|]. set_solver.
  - intros c [->|Hc]%elem_of_cons; [done|]. specialize (Hs c Hc). set_solver.
Qed.

Lemma read_hello_wire h : hello_valid h -> from_bytes read_hello (hello_wire h) = Ok h.
Proof.
  intros [Hr Hv Hc Hf Hn]. unfold from_bytes, read_hello, hello_wire, NewReader.
  unfold RoleVHandler, maxHelloVersionLen, maxHelloCapabilities in *.
  pose proof (zlen_nonneg (SoftwareVersion h)). pose proof (zlen_nonneg (Capabilities h)).
  assert (u16 (zlen (SoftwareVersion h)) = true) by (apply in_u_spec; lia).
  rewrite (bind_ok _ _ _ _ _ (reads_malformed _ _ _ (reads_u8 (Role h) ltac:(apply in_u_spec; lia)) _ _)).
  rewrite (proj2 (Z.ltb_ge 2 (Role h))) by lia. cbn [reject_if].
  rewrite enc_string_eq, to_u_id, <- !app_assoc by done.
  rewrite bind_unfold; cbn [mret M_ret].
  rewrite (bind_ok _ _ _ _ _ (reads_malformed _ _ _ (reads_u16 (zlen (SoftwareVersion h)) ltac:(done)) _ _)).
  rewrite (proj2 (Z.ltb_ge 128 _)) by lia. cbn [reject_if]. rewrite bind_unfold; cbn [mret M_ret].
  rewrite (bind_ok _ _ _ _ _ (reads_malformed _ _ _ (reads_ReadFull _) _ _)).
  rewrite (bind_ok _ _ _ _ _ (reads_malformed _ _ _ (reads_u16 (zlen (Capabilities h)) ltac:(apply in_u_spec; lia)) _ _)).
  rewrite (proj2 (Z.ltb_ge 64 _)) by lia. cbn [reject_if]. rewrite bind_unfold; cbn [mret M_ret].
  rewrite zlen_to_nat, <- (app_nil_r (enc_list enc_cap _)).
  rewrite (bind_ok _ _ _ _ _ (reads_capabilities (Capabilities h) ∅ [] Hf Hn ltac:(set_solver) _ _)).
  rewrite Len_bind. by destruct h.
Qed.

Lemma read_hello_canon data h r' :
  read_hello (NewReader data) = (Ok h, r') -> data = hello_wire h /\ hello_valid h.
Proof.
  unfold read_hello. intros H.
  apply bind_inv in H as (role & r1 & E1%malformed_ok_inv & H).
  apply bind_inv in H as (u1 & ? & [Hrole ->]%reject_if_inv & H).
  apply bind_inv in H as (vl & r2 & E2%malformed_ok_inv & H).
  apply bind_inv in H as (u2 & ? & [Hvl ->]%reject_if_inv & H).
  apply bind_inv in H as (ver & r3 & E3%malformed_ok_inv & H).
  apply bind_inv in H as (count & r4 & E4%malformed_ok_inv & H).
  apply bind_inv in H as (u3 & ? & [Hcnt ->]%reject_if_inv & H).
  apply bind_inv in H as (cs & r5 & E5 & H). rewrite Len_bind in H.
  apply bind_inv in H as (u4 & ? & [Hlen ->]%reject_if_inv & H). injection H as <- <-.
  apply negb_false_iff, Z.eqb_eq, zlen_0 in Hlen. apply Z.ltb_ge in Hrole, Hvl, Hcnt.
  apply canon_u8 in E1 as (Hd1 & He1 & Hu1). apply canon_u16 in E2 as (Hd2 & He2 & Hu2).
  apply canon_u16 in E4 as (Hd4 & He4 & Hu4).
  pose proof (proj1 (in_u_spec _ _) Hu1). pose proof (proj1 (in_u_spec _ _) Hu2).
  pose proof (proj1 (in_u_spec _ _) Hu4).
  apply ReadFull_inv in E3 as (Hd3 & He3 & Hl3); [|lia].
  apply canon_capabilities in E5 as (new & -> & Hln & Hd5 & He5 & Hf & Hn & _).
  assert (Hz : zlen new = count) by (unfold zlen; lia).
  rewrite Hlen, app_nil_r in Hd5. unfold NewReader in *. cbn [rdata rerr] in *. split.
  - unfold hello_wire. cbn [Role SoftwareVersion Capabilities app].
    rewrite enc_string_eq, Hl3, Hz, to_u_id, <- !app_assoc by done. congruence.
  - split; cbn [Role SoftwareVersion Capabilities app]; [lia|lia|lia|done..].
Qed.

(** *** Encoding *)

Lemma writes_capability c : CapMin c <= CapMax c -> Writes (write_capability c) (enc_cap c).
Proof.
  intros Hc. unfold write_capability. rewrite (proj2 (Z.ltb_ge _ _)) by lia.
  apply (writes_bind _ _ [] (enc_cap c)); [apply writes_ret|]. unfold enc_cap. eauto with wire.
Qed.

Lemma Hello_MarshalBinary_valid h :
  hello_valid h -> Role h <> RoleUnknown -> Hello_MarshalBinary h = Ok (hello_wire (sorted_hello h)).
Proof.
  intros Hh Hr. pose proof (hello_valid_sorted h Hh) as [_ _ Hc' Hf' _].
  destruct Hh as [Hr' Hv Hc _ _]. unfold Hello_MarshalBinary.
  rewrite (proj2 (Z.eqb_neq _ _)), (proj2 (Z.ltb_ge _ _)), (proj2 (Z.ltb_ge _ _)),
    (proj2 (Z.ltb_ge _ _)) by (lia || done). cbn [orb].
  apply writes_to_bytes. unfold hello_wire. cbn [Role SoftwareVersion Capabilities sorted_hello].
  apply writes_bind; [apply writes_u8|]. apply writes_bind; [apply writes_string|].
  cbn [sorted_hello Capabilities] in Hc', Hf'. unfold maxHelloCapabilities in Hc'.
  pose proof (zlen_nonneg (sort_caps (Capabilities h))).
  rewrite to_u_id by (apply in_u_spec; lia).
  apply writes_bind; [apply writes_u16|]. apply writes_all_Forall.
  eapply Forall_impl; [exact Hf'|]. intros c (_ & _ & _ & ?)%cap_ok_spec. by apply writes_capability.
Qed.

(** *** Tables *)

Lemma foldl_insert_list cs (m : AdvertisedCapabilities) :
  foldl (fun out c => <[CapID c := mkSupport (CapMin c) (CapMax c)]> out) m cs
  = foldl (fun m kv => <[kv.1:=kv.2]> m) m
      (map (fun c => (CapID c, mkSupport (CapMin c) (CapMax c))) cs).
Proof. revert m. induction cs as [|c cs IH]; intros m; [done|]. apply IH. Qed.

Definition cap_entry (c : Capability) : Z * CapabilitySupport :=
  (CapID c, mkSupport (CapMin c) (CapMax c)).

Lemma map_fst_cap_entry cs : (map cap_entry cs).*1 = map CapID cs.
Proof. induction cs as [|c cs IH]; [done|]. simpl. by f_equal. Qed.

Lemma advertised_list h :
  NoDup (map CapID (Capabilities h)) ->
  advertised h = list_to_map (map cap_entry (Capabilities h)).
Proof.
  intros Hn. unfold advertised. rewrite foldl_insert_list. fold cap_entry.
  rewrite foldl_insert_map, map_union_empty; [done|by rewrite map_fst_cap_entry|].
  intros. apply lookup_empty.
Qed.

(** The wire order of the capabilities does not change the table. *)
Lemma advertised_sorted h :
  NoDup (map CapID (Capabilities h)) -> advertised (sorted_hello h) = advertised h.
Proof.
  intros Hn. pose proof (sort_caps_perm (Capabilities h)) as Hp.
  rewrite !advertised_list; [|done|simpl; by rewrite (Permutation_map CapID Hp)].
  simpl. apply list_to_map_proper.
  - rewrite map_fst_cap_entry. by rewrite (Permutation_map CapID Hp).
  - by apply Permutation_map.
Qed.

Lemma cap_entry_map_to_list (caps : AdvertisedCapabilities) :
  map cap_entry (map (fun '(id, s) => mkCapability id (MinRevision s) (MaxRevision s)) (map_to_list caps))
  = map_to_list caps.
Proof.
  rewrite map_map. rewrite <- (map_id (map_to_list caps)) at 2. apply map_ext.
  by intros [id []].
Qed.

Lemma advertised_NewHello role ver caps : advertised (NewHello role ver caps) = caps.
Proof.
  set (cs := map (fun '(id, s) => mkCapability id (MinRevision s) (MaxRevision s)) (map_to_list caps)).
  assert (Hn : NoDup (map CapID cs)).
  { rewrite <- map_fst_cap_entry. unfold cs. rewrite cap_entry_map_to_list.
    apply NoDup_fst_map_to_list. }
  change (NewHello role ver caps) with (sorted_hello (mkHello role ver cs)).
  rewrite advertised_sorted, advertised_list by done. cbn [Capabilities]. unfold cs.
  rewrite cap_entry_map_to_list. apply list_to_map_to_list.
Qed.

(** *** Errors *)

(** Every failure of [m] satisfies [P]. *)
Definition Fails {S A} (m : M S A) (P : error -> Prop) : Prop :=
  forall s e s', m s = (Err e, s') -> P e.

Lemma Fails_bind {S A B} (m : M S A) (f : A -> M S B) P :
  Fails m P -> (forall a, Fails (f a) P) -> Fails (m ≫= f) P.
Proof.
  intros Hm Hf s e s'. rewrite bind_unfold. destruct (m s) as [[a|e'] s1] eqn:E.
  - apply Hf.
  - intros [= <- <-]. by eapply Hm.
Qed.

Lemma Fails_ret {S A} (a : A) P : Fails (mret a : M S A) P.
Proof. by intros s e s' [=]. Qed.

Lemma Fails_reject_if {S} b e (P : error -> Prop) : P e -> Fails (reject_if b e : M S unit) P.
Proof. intros HP s e' s'. destruct b; [|by intros [=]]. by intros [= <- <-]. Qed.

Lemma Fails_Len P : Fails Len P.
Proof. by intros s e s' [=]. Qed.

Abbreviation is_malformed := (fun e => errors_Is e errMalformedHello = true).

Lemma Fails_malformed {A} (m : M Reader A) : Fails (malformed m) is_malformed.
Proof.
  intros s e s'. unfold malformed. destruct (m s) as [[a|e'] s1]; [discriminate|].
  by intros [= <- <-].
Qed.

#[export] Hint Resolve Fails_bind Fails_ret Fails_reject_if Fails_Len Fails_malformed : wire.

Lemma Fails_read_capabilities n seen cs : Fails (read_capabilities n seen cs) is_malformed.
Proof. revert seen cs. induction n; intros; cbn [read_capabilities]; eauto 20 with wire. Qed.

#[export] Hint Resolve Fails_read_capabilities : wire.

Lemma Fails_read_hello : Fails read_hello is_malformed.
Proof. unfold read_hello. repeat first [apply Fails_bind; intros | eauto with wire]. Qed.

(** *** Negotiation *)

Lemma Negotiate_lookup peer local id :
  Negotiate peer local !! id =
  match peer !! id, local !! id with
  | Some p, Some l =>
      if Z.max (MinRevision p) (MinRevision l) <=? Z.min (MaxRevision p) (MaxRevision l)
      then Some (Z.min (MaxRevision p) (MaxRevision l)) else None
  | _, _ => None
  end.
Proof.
  unfold Negotiate.
  apply (map_fold_weak_ind (fun out m => out !! id =
    match m !! id, local !! id with
    | Some p, Some l =>
        if Z.max (MinRevision p) (MinRevision l) <=? Z.min (MaxRevision p) (MaxRevision l)
        then Some (Z.min (MaxRevision p) (MaxRevision l)) else None
    | _, _ => None
    end)).
  { by rewrite !lookup_empty. }
  intros i p m out Hi IH. destruct (decide (i = id)) as [->|Hne].
  - rewrite lookup_insert_eq. rewrite Hi in IH.
    destruct (local !! id) as [l|]; [|done].
    destruct (_ <=? _); [apply lookup_insert_eq|done].
  - rewrite lookup_insert_ne by done. rewrite <- IH.
    destruct (local !! i) as [l|]; [|done].
    destruct (_ <=? _); [by apply lookup_insert_ne|done].
Qed.

Lemma Negotiate_comm peer local : Negotiate peer local = Negotiate local peer.
Proof.
  apply map_eq. intros id. rewrite !Negotiate_lookup.
  destruct (peer !! id) as [p|], (local !! id) as [l|]; try done.
  by rewrite (Z.max_comm (MinRevision p)), (Z.min_comm (MaxRevision p)).
Qed.

Lemma Requirements_Check_ok order n :
  Requirements_Check order n = Ok tt <->
  Forall (fun kv => exists rev, n !! kv.1 = Some rev /\ kv.2 <= rev) order.
Proof.
  induction order as [|[id m] order IH]; simpl; [done|]. rewrite Forall_cons. simpl.
  destruct (n !! id) as [rev|].
  - destruct (Z.ltb_spec rev m).
    + split; [done|]. intros [(r & [= <-] & ?) _]. lia.
    + rewrite IH. split; [eauto|tauto].
  - split; [done|]. by intros [(r & [=] & _) _].
Qed.

(** ** Properties *)

(** C21: [UnmarshalBinary] accepts a HELLO body exactly when it is the wire
    form of a valid HELLO (known role, version at most 128 bytes, at most 64
    capabilities, unique identifiers, min <= max, no trailing byte), and then
    returns that HELLO. *)
Theorem Hello_UnmarshalBinary_exact (data : bytes) (h : Hello) :
  Hello_UnmarshalBinary data = Ok h <-> data = hello_wire h /\ hello_valid h.
Proof.
  split.
  - intros [r' H]%from_bytes_ok_inv. by eapply read_hello_canon.
  - intros [-> Hh]. by apply read_hello_wire.
Qed.

(** Every failure of [UnmarshalBinary] wraps [errMalformedHello], the
    sentinel the server handshake turns into ERROR(BAD_PAYLOAD). *)
Theorem Hello_UnmarshalBinary_errors (data : bytes) (e : error)
    (H : Hello_UnmarshalBinary data = Err e) :
  errors_Is e errMalformedHello = true.
Proof.
  unfold Hello_UnmarshalBinary, from_bytes in H.
  destruct (read_hello (NewReader data)) as [res r'] eqn:E. simpl in H. subst res.
  by eapply Fails_read_hello.
Qed.

Lemma Hello_UnmarshalBinary_errors_witness :
  exists e, Hello_UnmarshalBinary [x01] = Err e /\ errors_Is e errMalformedHello = true.
Proof.
  eexists. split; [reflexivity|].
  apply (Hello_UnmarshalBinary_errors [x01]). reflexivity.
Defined.

(** A HELLO built from a capability table survives the wire: for a sender
    role, a version of at most 128 bytes and a table of at most 64 non-empty
    ranges within their widths, marshalling succeeds, the peer's decoder
    accepts the body, and the table it negotiates with is the sender's. *)
Theorem NewHello_roundtrip (role : Z) (ver : bytes) (caps : AdvertisedCapabilities)
    (Hrole : role = RoleCore \/ role = RoleVHandler)
    (Hver : zlen ver <= maxHelloVersionLen)
    (Hcount : Z.of_nat (size caps) <= maxHelloCapabilities)
    (Hcaps : map_Forall (fun id s => cap_ok (mkCapability id (MinRevision s) (MaxRevision s)) = true) caps) :
  exists body h, Hello_MarshalBinary (NewHello role ver caps) = Ok body /\
    Hello_UnmarshalBinary body = Ok h /\
    Role h = role /\ SoftwareVersion h = ver /\ Sorted cap_le (Capabilities h) /\ advertised h = caps.
Proof.
  set (cs := map (fun '(id, s) => mkCapability id (MinRevision s) (MaxRevision s)) (map_to_list caps)).
  set (h0 := mkHello role ver cs).
  assert (Hn : NoDup (map CapID cs)).
  { rewrite <- map_fst_cap_entry. unfold cs. rewrite cap_entry_map_to_list.
    apply NoDup_fst_map_to_list. }
  assert (Hv : hello_valid h0).
  { split; simpl; [unfold RoleCore, RoleVHandler in *; lia|done| | |done].
    - unfold zlen, cs. by rewrite length_map, length_map_to_list.
    - apply Forall_forall. intros c ((id & s) & <- & Hin%list_elem_of_In)%list_elem_of_In%in_map_iff.
      apply elem_of_map_to_list in Hin. exact (Hcaps id s Hin). }
  pose proof (hello_valid_sorted _ Hv) as Hs. change (sorted_hello h0) with (NewHello role ver caps) in Hs.
  pose proof (hello_valid_sorted _ Hs) as Hss.
  exists (hello_wire (sorted_hello (NewHello role ver caps))), (sorted_hello (NewHello role ver caps)).
  split_and!; [|by apply read_hello_wire|done|done|by apply Sorted_merge_sort, _|].
  - apply Hello_MarshalBinary_valid; [done|]. simpl. unfold RoleCore, RoleVHandler, RoleUnknown in *. lia.
  - rewrite advertised_sorted by apply Hs. apply advertised_NewHello.
Qed.

Lemma NewHello_roundtrip_witness :
  exists body h, Hello_MarshalBinary (NewHello RoleCore (str "1.0") DefaultCapabilities) = Ok body /\
    Hello_UnmarshalBinary body = Ok h /\ Role h = RoleCore /\ SoftwareVersion h = str "1.0" /\
    Sorted cap_le (Capabilities h) /\ advertised h = DefaultCapabilities.
Proof.
  apply (NewHello_roundtrip RoleCore (str "1.0") DefaultCapabilities).
  - left. reflexivity.
  - vm_compute. discriminate.
  - vm_compute. discriminate.
  - intros id s Hs%elem_of_list_to_map_2.
    repeat (apply elem_of_cons in Hs as [[= -> ->]|Hs]; [reflexivity|]).
    by apply not_elem_of_nil in Hs.
Defined.

(** C22: a capability is negotiated exactly at the highest revision both
    tables support, and is absent when one side lacks it or the ranges do not
    meet. *)
Theorem Negotiate_highest_common (peer local : AdvertisedCapabilities) (id v : Z) :
  Negotiate peer local !! id = Some v <->
  exists p l, peer !! id = Some p /\ local !! id = Some l /\
    (MinRevision p <= v <= MaxRevision p /\ MinRevision l <= v <= MaxRevision l) /\
    (forall v', MinRevision p <= v' <= MaxRevision p -> MinRevision l <= v' <= MaxRevision l -> v' <= v).
Proof.
  rewrite Negotiate_lookup. destruct (peer !! id) as [p|], (local !! id) as [l|];
    try (split; [done|]; by intros (? & ? & [=] & [=] & _)).
  destruct (Z.leb_spec (Z.max (MinRevision p) (MinRevision l)) (Z.min (MaxRevision p) (MaxRevision l))).
  - split.
    + intros [= <-]. exists p, l. split_and!; try done; lia.
    + intros (? & ? & [= <-] & [= <-] & ? & Hmax). f_equal.
      specialize (Hmax (Z.min (MaxRevision p) (MaxRevision l)) ltac:(lia) ltac:(lia)). lia.
  - split; [done|]. intros (? & ? & [= <-] & [= <-] & ? & _). lia.
Qed.

(** Negotiation is symmetric, so both peers compute the same set. *)
Theorem Negotiate_symmetric (peer local : AdvertisedCapabilities) :
  Negotiate peer local = Negotiate local peer.
Proof. apply Negotiate_comm. Qed.

(** Whatever order Go iterates the requirement map in, [Check] succeeds
    exactly when every required capability was negotiated at a sufficient
    revision. *)
Theorem Requirements_Check_spec (r : gmap Z Z) (order : list (Z * Z)) (n : gmap Z Z)
    (Horder : order ≡ₚ map_to_list r) :
  Requirements_Check order n = Ok tt <->
  (forall id minRev, r !! id = Some minRev -> exists rev, n !! id = Some rev /\ minRev <= rev).
Proof.
  rewrite Requirements_Check_ok, Horder, Forall_forall. split.
  - intros H id m Hm. apply (H (id, m)). by apply elem_of_map_to_list.
  - intros H [id m] Hin%elem_of_map_to_list. by apply H.
Qed.

Lemma Requirements_Check_spec_witness :
  Requirements_Check [(CapabilityTools, 1); (CapabilityExec, 2)]
    (Negotiate DefaultCapabilities DefaultCapabilities) = Ok tt.
Proof.
  apply (Requirements_Check_spec (list_to_map [(CapabilityExec, 2); (CapabilityTools, 1)])).
  - vm_compute. first [reflexivity | apply Permutation_swap].
  - intros id m Hm%elem_of_list_to_map_2. apply elem_of_cons in Hm as [[= -> ->]|Hm].
    { exists 2. split; [reflexivity|lia]. }
    apply list_elem_of_singleton in Hm as [= -> ->]. exists 1. split; [reflexivity|lia].
Defined.
