(* ===== verification/Handshake.v ===== *)
(** * The MVCP connection handshake: [protocol/handshake.go]

    The connection is the bytes the peer sends, the bytes written so far and
    the deadline calls made on it.  [ServerHandshake] and [ClientHandshake]
    are the two handlers in full: deadline, prefix, HELLO, role check,
    negotiation, requirement check and the ERROR frames of each rejection. *)
From Stdlib Require Import ZArith Lia Strings.Byte.
From stdpp Require Import base list gmap strings.
From S2P Require Import Prelude GoIO Wire Frame Hello.

Open Scope Z_scope.

(** ** The connection *)

(** [SetDeadline] calls: with a deadline in the future, or with the zero time. *)
Inductive deadline_call := Armed | Cleared.

(** [dl] is [None] when the connection has no [SetDeadline] method, otherwise
    the error (if any) [SetDeadline] answers with. *)
Record Conn := mkConn {
  cin : Reader;
  cout : Writer;
  dl : option (option error);
  deadlines : list deadline_call }.

Definition on_in {A} (m : M Reader A) : M Conn A := fun c =>
  let '(res, r) := m (cin c) in (res, mkConn r (cout c) (dl c) (deadlines c)).

Definition on_out {A} (m : M Writer A) : M Conn A := fun c =>
  let '(res, w) := m (cout c) in (res, mkConn (cin c) w (dl c) (deadlines c)).

(** A call whose error is dropped. *)
Definition ignore {S A} (m : M S A) : M S unit := fun s => (Ok tt, (m s).2).

(** [if err != nil { ...handler...; return err' }]. *)
Definition catch {S A} (m : M S A) (handler : error -> M S A) : M S A := fun s =>
  match m s with
  | (Err e, s') => handler e s'
  | r => r
  end.

(** ** handshake.go *)

Definition mvcpVersion : Z := 0x01.
Definition mvcpMagicSize : nat := 4.
Definition mvcpMagic : bytes := str "MVCP".

Definition writeMVCPPrefix : M Writer unit := Write (str "MVCP" ++ [byte_of mvcpVersion]).

Definition validateMVCPPrefix : M Reader unit :=
  buf ← ReadFull 5;
  reject_if (negb (bool_decide (take mvcpMagicSize buf = mvcpMagic))) ErrBadMVCPMagic ;;
  reject_if (negb (byte_val (buf !!! mvcpMagicSize) =? mvcpVersion)) ErrUnsupportedMVCPVersion.

Definition writeHandshakeError (code : Z) (message : bytes) : M Writer unit := fun w =>
  match to_bytes (WriteUint16 code ;; WriteString message) with
  | Ok body => WriteMVCPFrame (mkFrame TypeERROR FlagResponse 0 body) w
  | Err e => (Err e, w)
  end.

(** The arming half of [withHandshakeDeadline]. *)
Definition withHandshakeDeadline : M Conn unit := fun c =>
  match dl c with
  | None => (Err errHandshakeDeadlineRequired, c)
  | Some (Some e) =>
      (Err (Wrapf (str "mvcp: set handshake deadline: ") e []),
       mkConn (cin c) (cout c) (dl c) (deadlines c ++ [Armed]))
  | Some None => (Ok tt, mkConn (cin c) (cout c) (dl c) (deadlines c ++ [Armed]))
  end.

(** [defer clear()]: the returned closure runs on every path out of [body]. *)
Definition defer_clear {A} (body : M Conn A) : M Conn A := fun c =>
  let '(res, c') := body c in
  (res, mkConn (cin c') (cout c') (dl c') (deadlines c' ++ [Cleared])).

Definition readPeerHello : M Reader Hello :=
  validateMVCPPrefix ;;
  frame ← ReadMVCPFrame;
  reject_if (negb (Type_ frame =? TypeHELLO))
    (Wrapf [] errMalformedHello (str ": expected HELLO, got 0x" ++ fmt_02X (Type_ frame))) ;;
  lift (Hello_UnmarshalBinary (Body frame)).

Definition roleAccepted (role : Z) (roles : list Z) : bool :=
  existsb (fun r => role =? r) roles.

(** The requirement map is given by its iteration order, as in
    [Requirements_Check]. *)
Definition ServerHandshake (local : Hello) (acceptRoles : list Z) (reqs : list (Z * Z)) :
    M Conn (Hello * gmap Z Z) :=
  withHandshakeDeadline ;;
  defer_clear (
    errw "mvcp: server handshake: write prefix: " (on_out writeMVCPPrefix) ;;
    body ← errw "mvcp: server handshake: encode hello: " (lift (Hello_MarshalBinary local));
    errw "mvcp: server handshake: write hello: "
      (on_out (WriteMVCPFrame (mkFrame TypeHELLO 0 0 body))) ;;
    peer ← catch (on_in readPeerHello) (fun e =>
      (if errors_Is e errMalformedHello
       then ignore (on_out (writeHandshakeError ErrorCodeBadPayload (Error e)))
       else mret tt) ;;
      fail (Wrapf (str "mvcp: server handshake: read peer hello: ") e []));
    if negb (roleAccepted (Role peer) acceptRoles) then
      let msg := str "unexpected peer role " ++ fmt_d (Role peer) in
      ignore (on_out (writeHandshakeError ErrorCodeUnexpectedRole msg)) ;;
      fail (HandshakeError ErrorCodeUnexpectedRole msg)
    else
      let negotiated := Negotiate (advertised peer) (advertised local) in
      match Requirements_Check reqs negotiated with
      | Err e =>
          ignore (on_out (writeHandshakeError ErrorCodeNoCommonCapability (Error e))) ;;
          fail (HandshakeError ErrorCodeNoCommonCapability (Error e))
      | Ok _ => mret (peer, negotiated)
      end).

Definition ClientHandshake (local : Hello) (expectRoles : list Z) (reqs : list (Z * Z)) :
    M Conn (Hello * gmap Z Z) :=
  withHandshakeDeadline ;;
  defer_clear (
    peer ← errw "mvcp: client handshake: read peer hello: " (on_in readPeerHello);
    if negb (roleAccepted (Role peer) expectRoles) then
      fail (HandshakeError ErrorCodeUnexpectedRole (str "unexpected peer role " ++ fmt_d (Role peer)))
    else
      errw "mvcp: client handshake: write prefix: " (on_out writeMVCPPrefix) ;;
      body ← errw "mvcp: client handshake: encode hello: " (lift (Hello_MarshalBinary local));
      errw "mvcp: client handshake: write hello: "
        (on_out (WriteMVCPFrame (mkFrame TypeHELLO 0 0 body))) ;;
      let negotiated := Negotiate (advertised peer) (advertised local) in
      match Requirements_Check reqs negotiated with
      | Err e =>
          ignore (on_out (writeHandshakeError ErrorCodeNoCommonCapability (Error e))) ;;
          fail (HandshakeError ErrorCodeNoCommonCapability (Error e))
      | Ok _ => mret (peer, negotiated)
      end).

(** ** Wire forms *)

Definition prefix : bytes := str "MVCP" ++ [byte_of mvcpVersion].

Definition hello_frame (h : Hello) : Frame := mkFrame TypeHELLO 0 0 (hello_wire h).

(** What either side sends first: the prefix and its HELLO. *)
Definition greeting (h : Hello) : bytes := prefix ++ EncodeMVCPFrame (hello_frame (sorted_hello h)).

Definition error_frame (code : Z) (msg : bytes) : bytes :=
  EncodeMVCPFrame (mkFrame TypeERROR FlagResponse 0 (enc_u16 code ++ enc_string msg)).

Arguments prefix : simpl never.
Arguments greeting : simpl never.
Arguments error_frame : simpl never.

(** A HELLO its owner can send. *)
Definition sendable (h : Hello) : Prop := hello_valid h /\ Role h <> RoleUnknown.

(** A connection that delivers [data] and then fails with [e], accepts every
    write and supports deadlines. *)
Definition conn (data : bytes) (e : error) : Conn := mkConn (mkReader data e) Buffer (Some None) [].

Lemma zlen_enc_caps cs : zlen (enc_list enc_cap cs) = 5 * zlen cs.
Proof.
  induction cs as [|c cs IH]; [by rewrite enc_list_nil|]. rewrite enc_list_cons, zlen_app, IH, zlen_cons.
  unfold enc_cap. rewrite !zlen_app, zlen_enc_u8, !zlen_enc_u16. lia.
Qed.

Lemma hello_frame_ok h : hello_valid h -> frame_ok (hello_frame h) = true.
Proof.
  intros [? Hv Hc _ _]. apply frame_ok_spec. split_and!; [done..|].
  unfold hello_frame, hello_wire, frameHeaderSize, MaxFrameSize. cbn [Body].
  rewrite !zlen_app, zlen_enc_caps. unfold maxHelloVersionLen, maxHelloCapabilities in *.
  rewrite zlen_enc_u8, zlen_enc_string, zlen_enc_u16. lia.
Qed.

Lemma reads_prefix : Reads validateMVCPPrefix prefix tt.
Proof.
  intros rest e. unfold validateMVCPPrefix.
  rewrite (bind_ok _ _ _ _ _ (ReadFull_exact 5 prefix rest e ltac:(lia) eq_refl)). reflexivity.
Qed.

Lemma prefix_canon r u r' :
  validateMVCPPrefix r = (Ok u, r') -> rdata r = prefix ++ rdata r' /\ rerr r' = rerr r.
Proof.
  unfold validateMVCPPrefix. intros H.
  apply bind_inv in H as (buf & r1 & E1 & H). apply bind_inv in H as (u1 & ? & [H1 ->]%reject_if_inv & H).
  apply reject_if_inv in H as [H2 ->]. apply ReadFull_inv in E1 as (Hd & He & Hl); [|lia].
  apply negb_false_iff, bool_decide_eq_true in H1. apply negb_false_iff, Z.eqb_eq in H2.
  rewrite Hd. split; [|done]. f_equal. unfold prefix. change (str "MVCP") with mvcpMagic.
  rewrite <- H1. unfold mvcpMagicSize in *.
  do 5 (destruct buf as [|? buf]; [unfold zlen in Hl; simpl in Hl; lia|]).
  destruct buf; [|unfold zlen in Hl; simpl in Hl; lia]. cbn [lookup_total list_lookup_total] in H2.
  rewrite <- H2, byte_of_val. done.
Qed.

Lemma reads_PeerHello h :
  hello_valid h -> Reads readPeerHello (prefix ++ EncodeMVCPFrame (hello_frame h)) h.
Proof.
  intros Hh. unfold readPeerHello. eapply reads_bind; [apply reads_prefix|].
  rewrite <- (app_nil_r (EncodeMVCPFrame _)).
  eapply reads_bind; [by apply reads_MVCPFrame, hello_frame_ok|].
  apply reads_reject_if; [done|]. intros rest e. unfold lift, Hello_UnmarshalBinary.
  cbn [Body hello_frame]. by rewrite read_hello_wire.
Qed.

(** What a successfully read greeting says about the stream. *)
Lemma readPeerHello_canon r h r' :
  readPeerHello r = (Ok h, r') ->
  exists f, rdata r = prefix ++ EncodeMVCPFrame f ++ rdata r' /\ rerr r' = rerr r /\
    Type_ f = TypeHELLO /\ Body f = hello_wire h /\ hello_valid h.
Proof.
  unfold readPeerHello. intros H. apply bind_inv in H as (u & r1 & E1 & H).
  apply bind_inv in H as (f & r2 & E2 & H). apply bind_inv in H as (u2 & ? & [Ht ->]%reject_if_inv & H).
  apply prefix_canon in E1 as [Hd1 He1]. apply ReadMVCPFrame_canon in E2 as (Hd2 & He2 & _).
  injection H as H <-. apply negb_false_iff, Z.eqb_eq in Ht.
  apply from_bytes_ok_inv in H as [r3 H]. apply read_hello_canon in H as [Hb Hv].
  exists f. rewrite Hd1, Hd2. split_and!; congruence.
Qed.

(** A transport error never claims to be a malformed HELLO. *)
Abbreviation not_malformed := (fun e => errors_Is e errMalformedHello = false).

Lemma validateMVCPPrefix_err r e r' :
  not_malformed (rerr r) -> validateMVCPPrefix r = (Err e, r') -> not_malformed e.
Proof.
  intros Hr. unfold validateMVCPPrefix, ReadFull. rewrite bind_unfold.
  change (5 <=? 0) with false. cbv iota. destruct (5 <=? zlen (rdata r)).
  - rewrite bind_unfold. unfold reject_if, fail.
    destruct (negb _); [by intros [= <- <-]|]. cbn [mret M_ret].
    destruct (negb _); [by intros [= <- <-]|done].
  - intros [= <- <-]. case_bool_decide; [done|]. by case_bool_decide.
Qed.

(** An error blamed on a malformed HELLO is only ever raised once the prefix
    was accepted. *)
Lemma readPeerHello_malformed r e r' :
  not_malformed (rerr r) -> readPeerHello r = (Err e, r') -> is_malformed e ->
  exists rest, rdata r = prefix ++ rest.
Proof.
  intros Hr. unfold readPeerHello. rewrite bind_unfold.
  destruct (validateMVCPPrefix r) as [[u|e1] r1] eqn:E.
  { apply prefix_canon in E as [-> _]. eauto. }
  intros [= <- <-] Hm. apply validateMVCPPrefix_err in E; [congruence|done].
Qed.

(** ** Runs on a connection that accepts writes *)

Lemma on_out_writes m bs c :
  Writes m bs -> wfaults (cout c) = [] ->
  exists w, on_out m c = (Ok tt, mkConn (cin c) w (dl c) (deadlines c)) /\
    wfaults w = [] /\ wout w = wout (cout c) ++ bs.
Proof.
  intros H Hw. destruct (H _ Hw) as (w & E & Hf & Ho). exists w. unfold on_out. by rewrite E.
Qed.

Lemma writes_error_frame code msg : Writes (writeHandshakeError code msg) (error_frame code msg).
Proof.
  unfold writeHandshakeError. intros w Hw.
  rewrite (writes_to_bytes _ (enc_u16 code ++ enc_string msg)) by eauto with wire.
  by apply writes_Write.
Qed.

Lemma writes_prefix : Writes writeMVCPPrefix prefix.
Proof. apply writes_Write. Qed.

Lemma writes_frame f : Writes (WriteMVCPFrame f) (EncodeMVCPFrame f).
Proof. apply writes_Write. Qed.

#[export] Hint Resolve writes_error_frame writes_prefix writes_frame : wire.

Lemma errw_out_writes pre m bs c :
  Writes m bs -> wfaults (cout c) = [] ->
  exists w, errw pre (on_out m) c = (Ok tt, mkConn (cin c) w (dl c) (deadlines c)) /\
    wfaults w = [] /\ wout w = wout (cout c) ++ bs.
Proof.
  intros H Hw. destruct (on_out_writes m bs c H Hw) as (w & E & Hf & Ho). exists w.
  split; [|done]. unfold errw. by rewrite E.
Qed.

Lemma step_ignore_fail {A} m bs e c :
  Writes m bs -> wfaults (cout c) = [] ->
  exists c', (ignore (on_out m) ;; (fail e : M Conn A)) c = (Err e, c') /\
    wout (cout c') = wout (cout c) ++ bs /\ cin c' = cin c /\ deadlines c' = deadlines c.
Proof.
  intros H Hw. destruct (on_out_writes m bs c H Hw) as (w & E & Hf & Ho).
  exists (mkConn (cin c) w (dl c) (deadlines c)).
  rewrite bind_unfold. unfold ignore. by rewrite E.
Qed.

(** The greeting of the local side: prefix, marshalled HELLO, frame. *)
Lemma step_greeting {A} p1 p2 p3 h (k : M Conn A) c :
  sendable h -> wfaults (cout c) = [] ->
  exists w, (errw p1 (on_out writeMVCPPrefix) ;;
    body ← errw p2 (lift (Hello_MarshalBinary h));
    errw p3 (on_out (WriteMVCPFrame (mkFrame TypeHELLO 0 0 body))) ;; k) c
    = k (mkConn (cin c) w (dl c) (deadlines c)) /\
    wfaults w = [] /\ wout w = wout (cout c) ++ greeting h.
Proof.
  intros [Hv Hr] Hw.
  destruct (errw_out_writes p1 _ _ c writes_prefix Hw) as (w1 & E1 & Hf1 & Ho1).
  rewrite (bind_ok _ _ _ _ _ E1).
  rewrite (bind_ok _ _ _ (hello_wire (sorted_hello h)) (mkConn (cin c) w1 (dl c) (deadlines c)))
    by (unfold errw, lift; by rewrite Hello_MarshalBinary_valid).
  destruct (errw_out_writes p3 _ _ (mkConn (cin c) w1 (dl c) (deadlines c))
    (writes_frame (hello_frame (sorted_hello h))) Hf1) as (w2 & E2 & Hf2 & Ho2).
  rewrite (bind_ok _ _ _ _ _ E2). exists w2. split_and!; [done..|]. rewrite Ho2. cbn [cout].
  rewrite Ho1. unfold greeting. by rewrite <- !app_assoc.
Qed.

(** ** What follows the greeting

    What each side answers and sends, as a function of what [readPeerHello]
    returned. *)
Definition verdict : Type := result (Hello * gmap Z Z) * bytes.

Definition check_verdict (peer local : Hello) (reqs : list (Z * Z)) (sent : bytes) : verdict :=
  let n := Negotiate (advertised peer) (advertised local) in
  match Requirements_Check reqs n with
  | Ok _ => (Ok (peer, n), sent)
  | Err e =>
      (Err (HandshakeError ErrorCodeNoCommonCapability (Error e)),
       sent ++ error_frame ErrorCodeNoCommonCapability (Error e))
  end.

Definition role_message (peer : Hello) : bytes := str "unexpected peer role " ++ fmt_d (Role peer).

Definition server_spec (local : Hello) (roles : list Z) (reqs : list (Z * Z))
    (read : result Hello) : verdict :=
  match read with
  | Err e =>
      (Err (Wrapf (str "mvcp: server handshake: read peer hello: ") e []),
       greeting local ++ if errors_Is e errMalformedHello
                         then error_frame ErrorCodeBadPayload (Error e) else [])
  | Ok peer =>
      if roleAccepted (Role peer) roles then check_verdict peer local reqs (greeting local)
      else (Err (HandshakeError ErrorCodeUnexpectedRole (role_message peer)),
            greeting local ++ error_frame ErrorCodeUnexpectedRole (role_message peer))
  end.

Definition client_spec (local : Hello) (roles : list Z) (reqs : list (Z * Z))
    (read : result Hello) : verdict :=
  match read with
  | Err e => (Err (Wrapf (str "mvcp: client handshake: read peer hello: ") e []), [])
  | Ok peer =>
      if roleAccepted (Role peer) roles then check_verdict peer local reqs (greeting local)
      else (Err (HandshakeError ErrorCodeUnexpectedRole (role_message peer)), [])
  end.

(** A run: the verdict it reaches on the connection, the unread input, and the
    deadline calls. *)
Definition runs_to {A} (m : M Conn A) (c : Conn) (res : result A) (out : bytes) (rest : Reader)
    (calls : list deadline_call) : Prop :=
  exists c', m c = (res, c') /\ wout (cout c') = wout (cout c) ++ out /\ cin c' = rest /\
    deadlines c' = deadlines c ++ calls.

Lemma runs_deadline {A} (body : M Conn A) data e res out rest :
  runs_to body (mkConn (mkReader data e) Buffer (Some None) [Armed]) res out rest [] ->
  runs_to (withHandshakeDeadline ;; defer_clear body) (conn data e) res out rest [Armed; Cleared].
Proof.
  intros (c' & E & Ho & Hi & Hd). rewrite app_nil_r in Hd. eexists.
  rewrite bind_unfold. unfold withHandshakeDeadline, conn, defer_clear. cbn [dl cin cout deadlines app].
  rewrite E. split_and!; [done|done|done|]. simpl. by rewrite Hd.
Qed.

Lemma runs_step {A B} (m : M Conn B) (k : B -> M Conn A) c b c' res out1 out rest calls :
  m c = (Ok b, c') -> wout (cout c') = wout (cout c) ++ out1 -> deadlines c' = deadlines c ->
  runs_to (k b) c' res out rest calls ->
  runs_to (m ≫= k) c res (out1 ++ out) rest calls.
Proof.
  intros E Ho Hd (c2 & E2 & Ho2 & Hi & Hd2). exists c2.
  rewrite (bind_ok _ _ _ _ _ E), E2, Ho2, Ho, Hd2, Hd. by rewrite app_assoc.
Qed.

Lemma runs_ret {A} (a : A) c : runs_to (mret a) c (Ok a) [] (cin c) [].
Proof. exists c. by rewrite !app_nil_r. Qed.

Lemma runs_fail {A} (e : error) c : runs_to (fail e : M Conn A) c (Err e) [] (cin c) [].
Proof. exists c. by rewrite !app_nil_r. Qed.

Lemma runs_reject {A} code msg (e : error) c :
  wfaults (cout c) = [] ->
  runs_to (ignore (on_out (writeHandshakeError code msg)) ;; (fail e : M Conn A)) c
    (Err e) (error_frame code msg) (cin c) [].
Proof.
  intros Hw. destruct (step_ignore_fail (A := A) _ _ e c (writes_error_frame code msg) Hw)
    as (c' & E & Ho & Hi & Hd). exists c'. by rewrite E, Ho, Hi, Hd, app_nil_r.
Qed.

(** The common tail: negotiate, check the requirements, reject or return. *)
Lemma runs_check peer local reqs sent c :
  wfaults (cout c) = [] ->
  let n := Negotiate (advertised peer) (advertised local) in
  let v := check_verdict peer local reqs sent in
  exists tail, v.2 = sent ++ tail /\
  runs_to (match Requirements_Check reqs n with
      | Err e =>
          ignore (on_out (writeHandshakeError ErrorCodeNoCommonCapability (Error e))) ;;
          fail (HandshakeError ErrorCodeNoCommonCapability (Error e))
      | Ok _ => mret (peer, n)
      end) c v.1 tail (cin c) [].
Proof.
  intros Hw. unfold check_verdict. cbv zeta. destruct (Requirements_Check _ _); simpl.
  - exists []. split; [by rewrite app_nil_r|apply runs_ret].
  - eexists. split; [done|]. by apply runs_reject.
Qed.

Lemma runs_greeting {A} p1 p2 p3 h (k : M Conn A) c res out rest calls :
  sendable h -> wfaults (cout c) = [] ->
  (forall w, wfaults w = [] -> runs_to k (mkConn (cin c) w (dl c) (deadlines c)) res out rest calls) ->
  runs_to (errw p1 (on_out writeMVCPPrefix) ;;
    body ← errw p2 (lift (Hello_MarshalBinary h));
    errw p3 (on_out (WriteMVCPFrame (mkFrame TypeHELLO 0 0 body))) ;; k) c
    res (greeting h ++ out) rest calls.
Proof.
  intros Hh Hw Hk. destruct (step_greeting p1 p2 p3 h k c Hh Hw) as (w & E & Hf & Ho).
  destruct (Hk w Hf) as (c' & E' & Ho' & Hi & Hd). exists c'.
  rewrite E, E', Ho', Hd. cbn [cout deadlines]. by rewrite Ho, <- app_assoc.
Qed.

#[local] Opaque greeting error_frame.

Lemma ServerHandshake_runs local roles reqs data e :
  sendable local ->
  let '(read, rest) := readPeerHello (mkReader data e) in
  let '(res, out) := server_spec local roles reqs read in
  runs_to (ServerHandshake local roles reqs) (conn data e) res out rest [Armed; Cleared].
Proof.
  intros Hl. destruct (readPeerHello (mkReader data e)) as [read rest] eqn:Er.
  destruct (server_spec local roles reqs read) as [res out] eqn:Es.
  unfold ServerHandshake. apply runs_deadline.
  assert (exists out', out = greeting local ++ out') as [out' Hout].
  { revert Es. unfold server_spec, check_verdict. destruct read as [peer|er].
    - destruct (roleAccepted _ _); [destruct (Requirements_Check _ _)|]; intros [= _ <-]; eauto.
      exists []. by rewrite app_nil_r.
    - intros [= _ <-]. eauto. }
  subst out. apply runs_greeting; [done|done|]. intros w Hw. cbn [cin cout dl deadlines].
  destruct read as [peer|er]; simpl in Es.
  - eapply (runs_step _ _ _ _ _ _ [] out'); [unfold catch, on_in; cbn [cin]; by rewrite Er| |done|].
    { by rewrite app_nil_r. }
    cbn [cout dl deadlines]. destruct (roleAccepted _ _); cbn [negb] in *.
    + destruct (runs_check peer local reqs (greeting local) (mkConn rest w (Some None) [Armed]) Hw)
        as (tail & Ht & Hr). rewrite Es in Ht, Hr. cbn [fst snd] in Ht. apply app_inv_head in Ht as ->. exact Hr.
    + injection Es as <- Ht. apply app_inv_head in Ht as <-. by apply runs_reject.
  - injection Es as <- Ht. apply app_inv_head in Ht as <-.
    assert (Hk : forall (k : Hello -> M Conn (Hello * gmap Z Z)) c m o,
      runs_to m c (Err (Wrapf (str "mvcp: server handshake: read peer hello: ") er [])) o rest [] ->
      runs_to (m ≫= k) c (Err (Wrapf (str "mvcp: server handshake: read peer hello: ") er [])) o rest []).
    { intros k c m o (c' & E & H). exists c'. by rewrite (bind_err _ _ _ _ _ E). }
    apply Hk. unfold runs_to, catch, on_in. cbn [cin]. rewrite Er. cbn [cout dl deadlines].
    destruct (errors_Is er errMalformedHello).
    + by apply (runs_reject (A := Hello) _ _ _ (mkConn rest w (Some None) [Armed])).
    + by apply (runs_fail (A := Hello) _ (mkConn rest w (Some None) [Armed])).
Qed.

Lemma ClientHandshake_runs local roles reqs data e :
  sendable local ->
  let '(read, rest) := readPeerHello (mkReader data e) in
  let '(res, out) := client_spec local roles reqs read in
  runs_to (ClientHandshake local roles reqs) (conn data e) res out rest [Armed; Cleared].
Proof.
  intros Hl. destruct (readPeerHello (mkReader data e)) as [read rest] eqn:Er.
  destruct (client_spec local roles reqs read) as [res out] eqn:Es.
  unfold ClientHandshake. apply runs_deadline. destruct read as [peer|er]; simpl in Es.
  - eapply (runs_step _ _ _ _ _ _ [] out); [unfold errw, on_in; cbn [cin]; by rewrite Er| |done|].
    { by rewrite app_nil_r. }
    cbn [cout dl deadlines]. destruct (roleAccepted _ _); cbn [negb].
    + destruct (runs_check peer local reqs (greeting local) (conn data e) eq_refl) as (tail & Ht & _).
      rewrite Es in Ht. cbn [fst snd] in Ht. subst out.
      apply runs_greeting; [done|done|]. intros w Hw. cbn [cin cout dl deadlines].
      destruct (runs_check peer local reqs (greeting local) (mkConn rest w (Some None) [Armed]) Hw)
        as (tail' & Ht' & Hr). rewrite Es in Ht', Hr. cbn [fst snd] in Ht'. apply app_inv_head in Ht' as ->. exact Hr.
    + injection Es as <- <-. apply (runs_fail _ (mkConn rest Buffer (Some None) [Armed])).
  - injection Es as <- <-. exists (mkConn rest Buffer (Some None) [Armed]).
    rewrite bind_unfold. unfold errw, on_in. cbn [cin]. by rewrite Er.
Qed.

(** ** The deadline on any connection, faulty writes included *)

Definition keeps_deadlines {A} (m : M Conn A) : Prop :=
  forall c, deadlines (m c).2 = deadlines c /\ dl (m c).2 = dl c.

Lemma keeps_bind {A B} (m : M Conn A) (f : A -> M Conn B) :
  keeps_deadlines m -> (forall a, keeps_deadlines (f a)) -> keeps_deadlines (m ≫= f).
Proof.
  intros Hm Hf c. rewrite bind_unfold. destruct (Hm c) as [H1 H2].
  destruct (m c) as [[a|e] c']; simpl in *; [|done]. destruct (Hf a c'). by split; etrans.
Qed.

Lemma keeps_on_in {A} (m : M Reader A) : keeps_deadlines (on_in m).
Proof. intros c. unfold on_in. by destruct (m (cin c)). Qed.
Lemma keeps_on_out {A} (m : M Writer A) : keeps_deadlines (on_out m).
Proof. intros c. unfold on_out. by destruct (m (cout c)). Qed.
Lemma keeps_lift {A} (r : result A) : keeps_deadlines (lift r).
Proof. done. Qed.
Lemma keeps_ret {A} (a : A) : keeps_deadlines (mret a).
Proof. done. Qed.
Lemma keeps_fail {A} e : keeps_deadlines (fail e : M Conn A).
Proof. done. Qed.
Lemma keeps_errw {A} pre (m : M Conn A) : keeps_deadlines m -> keeps_deadlines (errw pre m).
Proof. intros H c. specialize (H c). unfold errw. by destruct (m c) as [[]]. Qed.
Lemma keeps_ignore {A} (m : M Conn A) : keeps_deadlines m -> keeps_deadlines (ignore m).
Proof. intros H c. apply H. Qed.
Lemma keeps_catch {A} (m : M Conn A) h :
  keeps_deadlines m -> (forall e, keeps_deadlines (h e)) -> keeps_deadlines (catch m h).
Proof.
  intros Hm Hh c. destruct (Hm c). unfold catch. destruct (m c) as [[a|e] c']; simpl in *; [done|].
  destruct (Hh e c'). by split; etrans.
Qed.

#[export] Hint Resolve keeps_on_in keeps_on_out keeps_lift keeps_ret keeps_fail keeps_errw
  keeps_ignore : wire.

Ltac keeps :=
  repeat first
    [ progress cbv zeta | apply keeps_bind; intros | apply keeps_catch; intros | solve [eauto with wire]
    | match goal with |- keeps_deadlines (if ?b then _ else _) => destruct b end
    | match goal with |- keeps_deadlines (match ?x with _ => _ end) => destruct x end ].

Lemma defer_clear_deadlines {A} (body : M Conn A) c :
  keeps_deadlines body -> dl c = Some None ->
  deadlines ((withHandshakeDeadline ;; defer_clear body) c).2 = deadlines c ++ [Armed; Cleared].
Proof.
  intros Hk Hd. rewrite bind_unfold. unfold withHandshakeDeadline. rewrite Hd.
  unfold defer_clear. pose proof (Hk (mkConn (cin c) (cout c) (Some None) (deadlines c ++ [Armed]))) as [H _].
  destruct (body _) as [res c']. simpl in *. by rewrite H, <- app_assoc.
Qed.

(** ** Properties *)

(** C19: the handshake deadline never leaks into normal traffic.  On a
    connection that takes deadlines, whatever the peer sends and whichever reads
    or writes fail, both handshakes arm the deadline once and end by clearing
    it; a connection without deadline support, or whose [SetDeadline] fails,
    is refused with that error before a byte is read or written, and the failed
    call is the only one made on it. *)
Theorem handshake_deadline_cleared (local : Hello) (roles : list Z) (reqs : list (Z * Z)) (c : Conn) :
  match dl c with
  | Some None =>
      deadlines (ServerHandshake local roles reqs c).2 = deadlines c ++ [Armed; Cleared] /\
      deadlines (ClientHandshake local roles reqs c).2 = deadlines c ++ [Armed; Cleared]
  | Some (Some e) =>
      let refused := (Err (Wrapf (str "mvcp: set handshake deadline: ") e []), mkConn (cin c) (cout c) (dl c) (deadlines c ++ [Armed])) in
      ServerHandshake local roles reqs c = refused /\ ClientHandshake local roles reqs c = refused
  | None =>
      ServerHandshake local roles reqs c = (Err errHandshakeDeadlineRequired, c) /\
      ClientHandshake local roles reqs c = (Err errHandshakeDeadlineRequired, c)
  end.
Proof.
  destruct (dl c) as [[e|]|] eqn:Hd.
  - unfold ServerHandshake, ClientHandshake, withHandshakeDeadline. rewrite !bind_unfold, Hd. done.
  - split; apply defer_clear_deadlines; try done; keeps.
  - unfold ServerHandshake, ClientHandshake, withHandshakeDeadline. rewrite !bind_unfold, Hd. done.
Qed.

(** ** The protocol

    What the bytes of a peer are, and what each side owes them, after the
    message sequence of docs/06-negotiation.md. *)



Definition meets (reqs : list (Z * Z)) (n : gmap Z Z) : Prop :=
  Forall (fun kv => exists rev, n !! kv.1 = Some rev /\ kv.2 <= rev) reqs.



(** *** Reading, by input *)






(** The frame behind the prefix decides what [readPeerHello] returns. *)
Lemma readPeerHello_frame f rest e :
  frame_ok f = true ->
  readPeerHello (mkReader (prefix ++ EncodeMVCPFrame f ++ rest) e) =
  ((if Type_ f =? TypeHELLO then Hello_UnmarshalBinary (Body f)
    else Err (Wrapf [] errMalformedHello (str ": expected HELLO, got 0x" ++ fmt_02X (Type_ f)))),
   mkReader rest e).
Proof.
  intros Hf. unfold readPeerHello. rewrite (bind_ok _ _ _ _ _ (reads_prefix _ e)).
  rewrite (bind_ok _ _ _ _ _ (reads_MVCPFrame f Hf rest e)), bind_unfold.
  unfold reject_if, fail. by destruct (Type_ f =? TypeHELLO).
Qed.

Lemma Hello_UnmarshalBinary_wire h : hello_valid h -> Hello_UnmarshalBinary (hello_wire h) = Ok h.
Proof. intros Hh. unfold Hello_UnmarshalBinary. by rewrite read_hello_wire. Qed.






Lemma roleAccepted_In role roles : roleAccepted role roles = true <-> In role roles.
Proof.
  unfold roleAccepted. rewrite existsb_exists. split; [by intros (r & Hin & ->%Z.eqb_eq)|].
  intros H. exists role. by rewrite Z.eqb_refl.
Qed.




(** *** What success means on any connection *)









Definition demo_core : Hello := NewHello RoleCore (str "core 1") DefaultCapabilities.
Definition demo_guest : Hello := NewHello RoleVHandler (str "guest 1") DefaultCapabilities.

Lemma NewHello_sendable role ver :
  role = RoleCore \/ role = RoleVHandler -> zlen ver <= maxHelloVersionLen ->
  sendable (NewHello role ver DefaultCapabilities).
Proof.
  intros Hr Hv. split; [|destruct Hr as [->| ->]; done].
  split; [destruct Hr as [->| ->]; done|done|done| |].
  - apply (bool_decide_unpack _). vm_compute. exact I.
  - apply (bool_decide_unpack _). vm_compute. exact I.
Qed.

Lemma demo_core_sendable : sendable demo_core.
Proof. apply NewHello_sendable; [by left|done]. Qed.

Lemma demo_guest_sendable : sendable demo_guest.
Proof. apply NewHello_sendable; [by right|done]. Qed.





(** C20: two rules of the negotiation document that nothing enforces.  A HELLO
    whose frame carries other flags or another message id than 0 is taken all
    the same, and a peer of role RoleUnknown is taken when that role is listed:
    for every flags and message id and every valid HELLO whose role is listed
    and whose requirements are met, both sides accept. *)
Theorem hello_header_unchecked (local peer : Hello) (roles : list Z) (reqs : list (Z * Z))
    (flags msgid : Z) (Hl : sendable local) (Hp : hello_valid peer)
    (Hf : u8 flags = true) (Hi : u32 msgid = true) (Hr : In (Role peer) roles)
    (Hm : meets reqs (Negotiate (advertised peer) (advertised local))) :
  let c := conn (prefix ++ EncodeMVCPFrame (mkFrame TypeHELLO flags msgid (hello_wire peer))) io_EOF in
  let accepted := Ok (peer, Negotiate (advertised peer) (advertised local)) in
  (ServerHandshake local roles reqs c).1 = accepted /\ (ClientHandshake local roles reqs c).1 = accepted.
Proof.
  assert (Hok : frame_ok (mkFrame TypeHELLO flags msgid (hello_wire peer)) = true).
  { pose proof (hello_frame_ok peer Hp) as (_ & _ & _ & Hlen)%frame_ok_spec. apply frame_ok_spec. by split_and!. }
  assert (Hread : readPeerHello (mkReader (prefix ++ EncodeMVCPFrame (mkFrame TypeHELLO flags msgid (hello_wire peer))) io_EOF)
    = (Ok peer, mkReader [] io_EOF)).
  { rewrite <- (app_nil_r (EncodeMVCPFrame _)), readPeerHello_frame by done.
    cbn [Type_ Body]. by rewrite Z.eqb_refl, Hello_UnmarshalBinary_wire. }
  apply roleAccepted_In in Hr. apply Requirements_Check_ok in Hm. cbv zeta. split.
  - pose proof (ServerHandshake_runs local roles reqs
      (prefix ++ EncodeMVCPFrame (mkFrame TypeHELLO flags msgid (hello_wire peer))) io_EOF Hl) as R.
    rewrite Hread in R. unfold server_spec, check_verdict in R. rewrite Hr, Hm in R.
    destruct R as (c' & -> & _). done.
  - pose proof (ClientHandshake_runs local roles reqs
      (prefix ++ EncodeMVCPFrame (mkFrame TypeHELLO flags msgid (hello_wire peer))) io_EOF Hl) as R.
    rewrite Hread in R. unfold client_spec, check_verdict in R. rewrite Hr, Hm in R.
    destruct R as (c' & -> & _). done.
Qed.

Lemma hello_header_unchecked_witness :
  (ServerHandshake demo_guest [RoleUnknown] []
    (conn (prefix ++ EncodeMVCPFrame (mkFrame TypeHELLO 0xFF 7 (hello_wire (mkHello RoleUnknown [] [])))) io_EOF)).1
  = Ok (mkHello RoleUnknown [] [], Negotiate (advertised (mkHello RoleUnknown [] [])) (advertised demo_guest)).
Proof.
  apply (hello_header_unchecked demo_guest (mkHello RoleUnknown [] []) [RoleUnknown] [] 0xFF 7 demo_guest_sendable).
  - split; [vm_compute; done|done|done|by apply Forall_nil_2|apply NoDup_nil_2].
  - done.
  - done.
  - simpl. by left.
  - by apply Forall_nil_2.
Defined.

(** C18: end to end, a server and a client whose roles and requirements are
    mutually acceptable both succeed on each other's output, each learning the
    other's HELLO, and agree on the same negotiated set. *)
Theorem handshake_agreement (hs hc : Hello) (accept expect : list Z) (rs rc : list (Z * Z))
    (es ec : error) (Hs : sendable hs) (Hc : sendable hc)
    (Ha : roleAccepted (Role hc) accept = true) (He : roleAccepted (Role hs) expect = true)
    (Hrs : Requirements_Check rs (Negotiate (advertised hc) (advertised hs)) = Ok tt)
    (Hrc : Requirements_Check rc (Negotiate (advertised hc) (advertised hs)) = Ok tt) :
  exists cs cc n,
    ServerHandshake hs accept rs (conn (wout (cout cc)) es) = (Ok (sorted_hello hc, n), cs) /\
    ClientHandshake hc expect rc (conn (wout (cout cs)) ec) = (Ok (sorted_hello hs, n), cc) /\
    n = Negotiate (advertised hc) (advertised hs).
Proof.
  pose proof (ServerHandshake_runs hs accept rs (greeting hc) es Hs) as S.
  pose proof (ClientHandshake_runs hc expect rc (greeting hs) ec Hc) as C.
  assert (Hread : forall h e, sendable h ->
    readPeerHello (mkReader (greeting h) e) = (Ok (sorted_hello h), mkReader [] e)).
  { intros h e [Hv _]. rewrite <- (app_nil_r (greeting h)).
    by apply (reads_PeerHello (sorted_hello h)), hello_valid_sorted. }
  assert (Htab : forall h, sendable h -> advertised (sorted_hello h) = advertised h).
  { intros h [[] _]. by apply advertised_sorted. }
  rewrite (Hread hc es Hc) in S. rewrite (Hread hs ec Hs) in C.
  unfold server_spec, client_spec, check_verdict in S, C. cbn [sorted_hello Role] in S, C.
  fold (sorted_hello hc) in S. fold (sorted_hello hs) in C.
  rewrite Ha, (Htab hc Hc), Hrs in S. rewrite He, (Htab hs Hs), Negotiate_comm, Hrc in C.
  destruct S as (cs & Es & Os & _). destruct C as (cc & Ec & Oc & _).
  exists cs, cc, (Negotiate (advertised hc) (advertised hs)).
  replace (wout (cout cc)) with (greeting hc) by (by rewrite Oc).
  replace (wout (cout cs)) with (greeting hs) by (by rewrite Os). done.
Qed.

Lemma handshake_agreement_witness :
  exists cs cc n,
    ServerHandshake demo_guest [RoleCore] [(CapabilityExec, 2)] (conn (wout (cout cc)) io_EOF)
      = (Ok (sorted_hello demo_core, n), cs) /\
    ClientHandshake demo_core [RoleVHandler] [(CapabilityAppChannel, 1)] (conn (wout (cout cs)) io_EOF)
      = (Ok (sorted_hello demo_guest, n), cc) /\
    n = Negotiate (advertised demo_core) (advertised demo_guest).
Proof.
  apply (handshake_agreement demo_guest demo_core [RoleCore] [RoleVHandler]);
    [exact demo_guest_sendable | exact demo_core_sendable
    | reflexivity | reflexivity | vm_compute; reflexivity | vm_compute; reflexivity].
Defined.

(** A successful server handshake certifies its peer: the input was the
    prefix and one HELLO frame carrying a valid HELLO, the role is one of the
    accepted ones and every requirement holds at the highest common
    revisions. *)
Theorem ServerHandshake_sound (local peer : Hello) (roles : list Z) (reqs : list (Z * Z))
    (data : bytes) (e : error) (n : gmap Z Z) (c' : Conn) (Hl : sendable local)
    (H : ServerHandshake local roles reqs (conn data e) = (Ok (peer, n), c')) :
  (exists f, data = prefix ++ EncodeMVCPFrame f ++ rdata (cin c') /\
     Type_ f = TypeHELLO /\ Body f = hello_wire peer) /\
  hello_valid peer /\ In (Role peer) roles /\
  n = Negotiate (advertised peer) (advertised local) /\
  Forall (fun kv => exists rev, n !! kv.1 = Some rev /\ kv.2 <= rev) reqs.
Proof.
  pose proof (ServerHandshake_runs local roles reqs data e Hl) as S.
  destruct (readPeerHello (mkReader data e)) as [[p|er] rest] eqn:Er; simpl in S;
    [|destruct S as (c & E & _); congruence].
  destruct (roleAccepted (Role p) roles) eqn:Ha; [|destruct S as (c & E & _); congruence].
  unfold check_verdict in S. destruct (Requirements_Check _ _) as [[]|] eqn:Hr;
    [|destruct S as (c & E & _); congruence].
  destruct S as (c & E & _ & Hi & _). rewrite E in H. injection H as <- <- <-.
  apply readPeerHello_canon in Er as (f & Hd & _ & Ht & Hb & Hv). cbn [rdata] in Hd.
  split_and!; [exists f; by rewrite Hi|done| |done|by apply Requirements_Check_ok].
  apply existsb_exists in Ha as (r & Hin & ->%Z.eqb_eq). done.
Qed.

Lemma ServerHandshake_sound_witness :
  match ServerHandshake demo_guest [RoleCore] [] (conn (greeting demo_core) io_EOF) with
  | (Ok (peer, n), _) => hello_valid peer /\ In (Role peer) [RoleCore]
  | (Err _, _) => False
  end.
Proof.
  destruct (ServerHandshake demo_guest [RoleCore] [] (conn (greeting demo_core) io_EOF))
    as [[[peer n]|er] c'] eqn:Hrun; [|vm_compute in Hrun; discriminate Hrun].
  destruct (ServerHandshake_sound demo_guest peer [RoleCore] [] (greeting demo_core) io_EOF n c'
    demo_guest_sendable Hrun) as (_ & Hv & Hin & _). split; [exact Hv|exact Hin].
Defined.

(** An ERROR frame leaves the server only after it accepted the peer's
    wire prefix: when the peer did not send a valid prefix, the output is the
    greeting alone. *)
Theorem ServerHandshake_silent_before_prefix (local : Hello) (roles : list Z) (reqs : list (Z * Z))
    (data : bytes) (e : error) (Hl : sendable local)
    (Hio : errors_Is e errMalformedHello = false)
    (Hp : forall rest, data <> prefix ++ rest) :
  exists er c', ServerHandshake local roles reqs (conn data e) = (Err er, c') /\
    wout (cout c') = greeting local.
Proof.
  pose proof (ServerHandshake_runs local roles reqs data e Hl) as S.
  destruct (readPeerHello (mkReader data e)) as [[p|er] rest] eqn:Er.
  { apply readPeerHello_canon in Er as (f & Hd & _). by destruct (Hp _ Hd). }
  simpl in S. destruct (errors_Is er errMalformedHello) eqn:Hm.
  { apply readPeerHello_malformed in Er as [r Hd]; [by destruct (Hp _ Hd)|done|done]. }
  destruct S as (c & E & Ho & _). rewrite app_nil_r in Ho. eauto.
Qed.

Lemma ServerHandshake_silent_before_prefix_witness :
  exists er c', ServerHandshake demo_guest [RoleCore] [] (conn (str "MVCP2") io_EOF) = (Err er, c') /\
    wout (cout c') = greeting demo_guest.
Proof.
  apply (ServerHandshake_silent_before_prefix demo_guest [RoleCore] [] (str "MVCP2") io_EOF);
    [exact demo_guest_sendable|reflexivity|].
  intros rest H. discriminate H.
Defined.
