(* ===== verification/Codec.v ===== *)
(** * The message codec interface

    [protocol/message.go] asks of a message that it marshals and unmarshals
    itself, and of its package that it registers a decoder for its type byte.
    [Codec] is that interface; [CodecLaws] is what a package promises to the
    registry and to the sessions that use it: on the messages the wire can
    carry, marshalling succeeds and both decoding paths give the message
    back.  [StrictCodec] is the stronger promise of the decoders that refuse
    trailing bytes: they accept nothing but marshalled messages. *)
From Stdlib Require Import ZArith Lia.
From stdpp Require Import base list strings.
From S2P Require Import Prelude GoIO Wire.

Open Scope Z_scope.

Class Codec (A : Type) := {
  (** [MarshalBinary]. *)
  MarshalBinary : A -> result bytes;
  (** the reads of [UnmarshalBinary]. *)
  unmarshal : M Reader A;
  (** the function given to [RegisterMessage]. *)
  decode : M Reader A;
  (** the values whose fields fit their wire widths and prefixes. *)
  carries : A -> bool }.

Definition UnmarshalBinary {A} `{Codec A} (data : bytes) : result A := from_bytes unmarshal data.

Class CodecLaws (A : Type) `{Codec A} := {
  encoding : A -> bytes;
  marshal_encoding m : carries m = true -> MarshalBinary m = Ok (encoding m);
  unmarshal_encoding m : carries m = true -> from_bytes unmarshal (encoding m) = Ok m;
  decode_encoding m : carries m = true -> from_bytes decode (encoding m) = Ok m }.

Class StrictCodec (A : Type) `{CodecLaws A} :=
  unmarshal_canonical data m :
    UnmarshalBinary data = Ok m -> data = encoding m.

(** The trailing-bytes check of the strict decoders:
    [if r.Len() != 0 { return fmt.Errorf("...: %d trailing bytes", r.Len()) }]. *)
Definition no_trailing (name : string) : M Reader unit :=
  n ← Len;
  reject_if (negb (n =? 0)) (Errorf (str name ++ str ": " ++ fmt_d n ++ str " trailing bytes")).

(** [data, err := io.ReadAll(r); ... m.UnmarshalBinary(data)]: the decoders
    that read the whole body first ([decodeApp], [decodeEmptyControlMessage]). *)
Definition decode_all {A} (m : M Reader A) : M Reader A :=
  data ← ReadAll; lift (from_bytes m data).

Lemma from_bytes_decode_all {A} (m : M Reader A) data :
  from_bytes (decode_all m) data = from_bytes m data.
Proof. done. Qed.

Lemma from_bytes_no_trailing {A} name (x : A) :
  from_bytes (no_trailing name ;; mret x) [] = Ok x.
Proof. done. Qed.

(** Splits a boolean conjunction of field conditions. *)
Ltac split_ok H :=
  repeat match type of H with
  | (_ && _) = true => let H1 := fresh H in apply andb_true_iff in H as [H H1]
  end.

(** Exposes the reads of the decoder being run. *)
Ltac unfold_decoder :=
  try match goal with |- from_bytes ?m _ = _ => is_const m; unfold m end.

(** Reads back, field by field, what was written. *)
Ltac peel :=
  unfold_decoder; rewrite <- ?app_assoc;
  repeat (erewrite from_bytes_bind by eauto with wire);
  try (erewrite from_bytes_bind_last by eauto with wire).

(** The field conditions of the message at hand, and its fields. *)
Ltac open_message :=
  let m := fresh "m" in let H := fresh "H" in
  intros m H; unfold carries in H; simpl in H; split_ok H; destruct m; simpl in *.

(** A codec whose body is a plain sequence of fields. *)
Ltac marshal_law := open_message; apply writes_to_bytes; eauto 20 with wire.
Ltac read_law :=
  open_message; rewrite ?from_bytes_decode_all; peel; first [apply from_bytes_ret | reflexivity].

(** Inverts a successful run of a strict decoder into the bytes it consumed. *)
Ltac strict_law :=
  let data := fresh "data" in let m := fresh "m" in let H := fresh "H" in
  intros data m H; apply from_bytes_ok_inv in H as [? H]; unfold unmarshal in H; simpl in H;
  match type of H with ?d _ = _ => is_const d; unfold d in H end;
  unfold no_trailing in H; inv_run; rewrite ?Len_bind in *; inv_run; canon_reads;
  repeat match goal with
  | H : negb (_ =? 0) = false |- _ => apply negb_false_iff, Z.eqb_eq, zlen_0 in H
  end;
  unfold NewReader in *; simpl in *.
