(* ===== verification/MsgApp.v ===== *)
(** * App channel messages: [protocol/messages/app.go]

    The seven APP_* messages, their size-checked encoders and their decoders,
    which refuse trailing bytes. *)
From Stdlib Require Import ZArith Lia.
From stdpp Require Import base list strings.
From S2P Require Import Prelude GoIO Wire Frame Codec.

Open Scope Z_scope.

Record AppOpen := mkAppOpen { open_StreamID : Z; open_Service : bytes; open_Meta : bytes }.
Record AppAccept := mkAppAccept { accept_StreamID : Z; accept_Meta : bytes; accept_Grant : Z }.
Record AppReject := mkAppReject { reject_StreamID : Z; reject_Code : Z; reject_Message : bytes }.
Record AppData := mkAppData { data_StreamID : Z; data_Data : bytes }.
Record AppCredit := mkAppCredit { credit_StreamID : Z; credit_Bytes : Z }.
Record AppClose := mkAppClose { close_StreamID : Z }.
Record AppReset := mkAppReset { reset_StreamID : Z; reset_Code : Z; reset_Message : bytes }.

Definition too_large (name : string) (what : string) (b : bytes) : error :=
  Errorf (str name ++ str ": " ++ str what ++ str " too large (" ++ fmt_d (zlen b) ++ str " bytes)").

Definition AppOpen_MarshalBinary (m : AppOpen) : result bytes :=
  if AppMaxMetaBytes <? zlen (open_Meta m) then Err (too_large "app_open" "meta" (open_Meta m))
  else to_bytes (
    WriteUint32 (open_StreamID m) ;;
    WriteString (open_Service m) ;;
    WriteBytes (open_Meta m)).

Definition AppOpen_unmarshal : M Reader AppOpen :=
  id ← errw "app_open: read stream_id: " ReadUint32;
  service ← errw "app_open: read service: " ReadString;
  meta ← errw "app_open: read meta: " ReadBytes;
  no_trailing "app_open" ;;
  mret (mkAppOpen id service meta).

Definition AppAccept_MarshalBinary (m : AppAccept) : result bytes :=
  if AppMaxMetaBytes <? zlen (accept_Meta m) then Err (too_large "app_accept" "meta" (accept_Meta m))
  else to_bytes (
    WriteUint32 (accept_StreamID m) ;;
    WriteBytes (accept_Meta m) ;;
    WriteUint32 (accept_Grant m)).

Definition AppAccept_unmarshal : M Reader AppAccept :=
  id ← errw "app_accept: read stream_id: " ReadUint32;
  meta ← errw "app_accept: read meta: " ReadBytes;
  grant ← errw "app_accept: read grant: " ReadUint32;
  no_trailing "app_accept" ;;
  mret (mkAppAccept id meta grant).

Definition AppReject_MarshalBinary (m : AppReject) : result bytes :=
  to_bytes (
    WriteUint32 (reject_StreamID m) ;;
    WriteUint16 (reject_Code m) ;;
    WriteString (reject_Message m)).

Definition AppReject_unmarshal : M Reader AppReject :=
  id ← errw "app_reject: read stream_id: " ReadUint32;
  code ← errw "app_reject: read code: " ReadUint16;
  msg ← errw "app_reject: read message: " ReadString;
  no_trailing "app_reject" ;;
  mret (mkAppReject id code msg).

Definition AppData_MarshalBinary (m : AppData) : result bytes :=
  if AppMaxDataBytes <? zlen (data_Data m) then Err (too_large "app_data" "data" (data_Data m))
  else to_bytes (WriteUint32 (data_StreamID m) ;; WriteBytes (data_Data m)).

Definition AppData_unmarshal : M Reader AppData :=
  id ← errw "app_data: read stream_id: " ReadUint32;
  d ← errw "app_data: read data: " ReadBytes;
  no_trailing "app_data" ;;
  mret (mkAppData id d).

Definition AppCredit_MarshalBinary (m : AppCredit) : result bytes :=
  to_bytes (WriteUint32 (credit_StreamID m) ;; WriteUint32 (credit_Bytes m)).

Definition AppCredit_unmarshal : M Reader AppCredit :=
  id ← errw "app_credit: read stream_id: " ReadUint32;
  n ← errw "app_credit: read bytes: " ReadUint32;
  no_trailing "app_credit" ;;
  mret (mkAppCredit id n).

Definition AppClose_MarshalBinary (m : AppClose) : result bytes :=
  to_bytes (WriteUint32 (close_StreamID m)).

Definition AppClose_unmarshal : M Reader AppClose :=
  id ← errw "app_close: read stream_id: " ReadUint32;
  no_trailing "app_close" ;;
  mret (mkAppClose id).

Definition AppReset_MarshalBinary (m : AppReset) : result bytes :=
  to_bytes (
    WriteUint32 (reset_StreamID m) ;;
    WriteUint16 (reset_Code m) ;;
    WriteString (reset_Message m)).

Definition AppReset_unmarshal : M Reader AppReset :=
  id ← errw "app_reset: read stream_id: " ReadUint32;
  code ← errw "app_reset: read code: " ReadUint16;
  msg ← errw "app_reset: read message: " ReadString;
  no_trailing "app_reset" ;;
  mret (mkAppReset id code msg).

(** [decodeApp]: read the whole body, then [UnmarshalBinary]. *)
Definition decodeApp {A} (m : M Reader A) : M Reader A := decode_all m.

(** ** Codec instances *)

#[export] Instance AppOpen_codec : Codec AppOpen := {|
  MarshalBinary := AppOpen_MarshalBinary;
  unmarshal := AppOpen_unmarshal;
  decode := decodeApp AppOpen_unmarshal;
  carries m := u32 (open_StreamID m) && str_ok (open_Service m) && (zlen (open_Meta m) <=? AppMaxMetaBytes) |}.

#[export] Instance AppAccept_codec : Codec AppAccept := {|
  MarshalBinary := AppAccept_MarshalBinary;
  unmarshal := AppAccept_unmarshal;
  decode := decodeApp AppAccept_unmarshal;
  carries m := u32 (accept_StreamID m) && (zlen (accept_Meta m) <=? AppMaxMetaBytes) && u32 (accept_Grant m) |}.

#[export] Instance AppReject_codec : Codec AppReject := {|
  MarshalBinary := AppReject_MarshalBinary;
  unmarshal := AppReject_unmarshal;
  decode := decodeApp AppReject_unmarshal;
  carries m := u32 (reject_StreamID m) && u16 (reject_Code m) && str_ok (reject_Message m) |}.

#[export] Instance AppData_codec : Codec AppData := {|
  MarshalBinary := AppData_MarshalBinary;
  unmarshal := AppData_unmarshal;
  decode := decodeApp AppData_unmarshal;
  carries m := u32 (data_StreamID m) && (zlen (data_Data m) <=? AppMaxDataBytes) |}.

#[export] Instance AppCredit_codec : Codec AppCredit := {|
  MarshalBinary := AppCredit_MarshalBinary;
  unmarshal := AppCredit_unmarshal;
  decode := decodeApp AppCredit_unmarshal;
  carries m := u32 (credit_StreamID m) && u32 (credit_Bytes m) |}.

#[export] Instance AppClose_codec : Codec AppClose := {|
  MarshalBinary := AppClose_MarshalBinary;
  unmarshal := AppClose_unmarshal;
  decode := decodeApp AppClose_unmarshal;
  carries m := u32 (close_StreamID m) |}.

#[export] Instance AppReset_codec : Codec AppReset := {|
  MarshalBinary := AppReset_MarshalBinary;
  unmarshal := AppReset_unmarshal;
  decode := decodeApp AppReset_unmarshal;
  carries m := u32 (reset_StreamID m) && u16 (reset_Code m) && str_ok (reset_Message m) |}.

(** ** Laws *)

Lemma meta_buf_ok b : (zlen b <=? AppMaxMetaBytes) = true -> buf_ok b = true.
Proof. rewrite Z.leb_le. unfold buf_ok. rewrite Z.ltb_lt. change AppMaxMetaBytes with 1024. lia. Qed.

Lemma data_buf_ok b : (zlen b <=? AppMaxDataBytes) = true -> buf_ok b = true.
Proof. rewrite Z.leb_le. unfold buf_ok. rewrite Z.ltb_lt. change AppMaxDataBytes with 65536. lia. Qed.

#[export] Hint Resolve meta_buf_ok data_buf_ok : wire.

(** The size check of an encoder passes on what its message may carry. *)
Lemma size_check_passes (b : bytes) n e (m : M Writer unit) enc :
  (zlen b <=? n) = true -> Writes m enc ->
  (if n <? zlen b then Err e else to_bytes m) = Ok enc.
Proof.
  intros H%Z.leb_le Hm. rewrite (proj2 (Z.ltb_ge _ _)) by lia. by apply writes_to_bytes.
Qed.

Ltac app_marshal :=
  open_message; first [apply size_check_passes; [done|] | apply writes_to_bytes]; eauto with wire.

Ltac app_read :=
  open_message; unfold decodeApp; rewrite ?from_bytes_decode_all; peel;
  apply from_bytes_no_trailing.

#[export] Instance AppOpen_laws : CodecLaws AppOpen.
Proof.
  apply (Build_CodecLaws _ _ (fun m =>
    enc_u32 (open_StreamID m) ++ enc_string (open_Service m) ++ enc_bytes (open_Meta m)));
    [app_marshal|app_read|app_read].
Defined.

#[export] Instance AppAccept_laws : CodecLaws AppAccept.
Proof.
  apply (Build_CodecLaws _ _ (fun m =>
    enc_u32 (accept_StreamID m) ++ enc_bytes (accept_Meta m) ++ enc_u32 (accept_Grant m)));
    [app_marshal|app_read|app_read].
Defined.

#[export] Instance AppReject_laws : CodecLaws AppReject.
Proof.
  apply (Build_CodecLaws _ _ (fun m =>
    enc_u32 (reject_StreamID m) ++ enc_u16 (reject_Code m) ++ enc_string (reject_Message m)));
    [app_marshal|app_read|app_read].
Defined.

#[export] Instance AppData_laws : CodecLaws AppData.
Proof.
  apply (Build_CodecLaws _ _ (fun m => enc_u32 (data_StreamID m) ++ enc_bytes (data_Data m)));
    [app_marshal|app_read|app_read].
Defined.

#[export] Instance AppCredit_laws : CodecLaws AppCredit.
Proof.
  apply (Build_CodecLaws _ _ (fun m => enc_u32 (credit_StreamID m) ++ enc_u32 (credit_Bytes m)));
    [app_marshal|app_read|app_read].
Defined.

#[export] Instance AppClose_laws : CodecLaws AppClose.
Proof.
  apply (Build_CodecLaws _ _ (fun m => enc_u32 (close_StreamID m)));
    [app_marshal|app_read|app_read].
Defined.

#[export] Instance AppReset_laws : CodecLaws AppReset.
Proof.
  apply (Build_CodecLaws _ _ (fun m =>
    enc_u32 (reset_StreamID m) ++ enc_u16 (reset_Code m) ++ enc_string (reset_Message m)));
    [app_marshal|app_read|app_read].
Defined.

(** *** Strictness *)

Ltac app_strict := strict_law;
  repeat match goal with H : rdata _ = _ |- _ => rewrite H in *; clear H end;
  subst; by rewrite ?app_nil_r.

#[export] Instance AppOpen_strict : StrictCodec AppOpen.
Proof. app_strict. Qed.
#[export] Instance AppAccept_strict : StrictCodec AppAccept.
Proof. app_strict. Qed.
#[export] Instance AppReject_strict : StrictCodec AppReject.
Proof. app_strict. Qed.
#[export] Instance AppData_strict : StrictCodec AppData.
Proof. app_strict. Qed.
#[export] Instance AppCredit_strict : StrictCodec AppCredit.
Proof. app_strict. Qed.
#[export] Instance AppClose_strict : StrictCodec AppClose.
Proof. app_strict. Qed.
#[export] Instance AppReset_strict : StrictCodec AppReset.
Proof. app_strict. Qed.

(** *** Decoded messages are within their widths *)

(** What the body of an APP_* frame can decode to; sizes above the limits are
    left to the session. *)
Lemma AppData_unmarshal_bounds data m :
  UnmarshalBinary data = Ok m -> u32 (data_StreamID m) = true /\ buf_ok (data_Data m) = true.
Proof. revert data m. strict_law. done. Qed.

Lemma AppCredit_unmarshal_bounds data m :
  UnmarshalBinary data = Ok m -> u32 (credit_StreamID m) = true /\ u32 (credit_Bytes m) = true.
Proof. revert data m. strict_law. done. Qed.

Lemma AppOpen_unmarshal_bounds data m :
  UnmarshalBinary data = Ok m ->
  u32 (open_StreamID m) = true /\ str_ok (open_Service m) = true /\ buf_ok (open_Meta m) = true.
Proof. revert data m. strict_law. done. Qed.

Lemma AppAccept_unmarshal_bounds data m :
  UnmarshalBinary data = Ok m ->
  u32 (accept_StreamID m) = true /\ buf_ok (accept_Meta m) = true /\ u32 (accept_Grant m) = true.
Proof. revert data m. strict_law. done. Qed.

(** C27: the app-channel bodies are canonical.  A body that decodes is exactly
    the encoding of the message it decodes to, for each of the seven messages:
    no trailing byte is accepted and no two bodies mean the same message. *)
Theorem app_messages_canonical (body : bytes) :
  (forall m : AppOpen, UnmarshalBinary body = Ok m -> body = encoding m)
  /\ (forall m : AppAccept, UnmarshalBinary body = Ok m -> body = encoding m)
  /\ (forall m : AppReject, UnmarshalBinary body = Ok m -> body = encoding m)
  /\ (forall m : AppData, UnmarshalBinary body = Ok m -> body = encoding m)
  /\ (forall m : AppCredit, UnmarshalBinary body = Ok m -> body = encoding m)
  /\ (forall m : AppClose, UnmarshalBinary body = Ok m -> body = encoding m)
  /\ (forall m : AppReset, UnmarshalBinary body = Ok m -> body = encoding m).
Proof. split_and!; intros m; apply unmarshal_canonical. Qed.
