(* ===== verification/Messages.v ===== *)
(** * Message bodies: [protocol/messages]

    The messages with a fixed sequence of fields ([control.go], [error.go],
    [started.go], [file.go], [tools.go], [events.go], the status message of
    [status.go] and the binary messages of [exec.go]).  Each has its
    [MarshalBinary], its [UnmarshalBinary] and the decoder its package
    registers, which reads the same fields under its own error texts. *)
From Stdlib Require Import ZArith Lia.
From stdpp Require Import base list strings.
From S2P Require Import Prelude GoIO Wire Frame Codec.

Open Scope Z_scope.

(** ** control.go *)

Inductive PingMsg := mkPingMsg.
Inductive PongMsg := mkPongMsg.
Inductive ShutdownMsg := mkShutdownMsg.
Inductive ShutdownAckMsg := mkShutdownAckMsg.
Inductive SyncFilesystemsMsg := mkSyncFilesystemsMsg.
Inductive SyncFilesystemsAckMsg := mkSyncFilesystemsAckMsg.

(** The messages without a body: [MarshalBinary] returns nothing,
    [UnmarshalBinary] and the registered decoder accept any body. *)
Definition empty_codec {A} (x : A) : Codec A := {|
  MarshalBinary _ := Ok [];
  unmarshal := mret x;
  decode := mret x;
  carries _ := true |}.

(** The sync messages refuse a payload, and [decodeEmptyControlMessage] reads
    the body first and then unmarshals it. *)
Definition sync_unmarshal {A} (name : string) (x : A) : M Reader A :=
  data ← ReadAll;
  reject_if (negb (zlen data =? 0)) (Errorf (str name ++ str ": unexpected payload")) ;;
  mret x.

Definition decodeEmptyControlMessage {A} (m : M Reader A) : M Reader A := decode_all m.

Definition sync_codec {A} (name : string) (x : A) : Codec A := {|
  MarshalBinary _ := Ok [];
  unmarshal := sync_unmarshal name x;
  decode := decodeEmptyControlMessage (sync_unmarshal name x);
  carries _ := true |}.

#[export] Instance PingMsg_codec : Codec PingMsg := empty_codec mkPingMsg.
#[export] Instance PongMsg_codec : Codec PongMsg := empty_codec mkPongMsg.
#[export] Instance ShutdownMsg_codec : Codec ShutdownMsg := empty_codec mkShutdownMsg.
#[export] Instance ShutdownAckMsg_codec : Codec ShutdownAckMsg := empty_codec mkShutdownAckMsg.
#[export] Instance SyncFilesystemsMsg_codec : Codec SyncFilesystemsMsg :=
  sync_codec "sync_filesystems" mkSyncFilesystemsMsg.
#[export] Instance SyncFilesystemsAckMsg_codec : Codec SyncFilesystemsAckMsg :=
  sync_codec "sync_filesystems_ack" mkSyncFilesystemsAckMsg.

Ltac empty_laws := apply (Build_CodecLaws _ _ (fun _ => [])); by intros [] _.

#[export] Instance PingMsg_laws : CodecLaws PingMsg.
Proof. empty_laws. Defined.
#[export] Instance PongMsg_laws : CodecLaws PongMsg.
Proof. empty_laws. Defined.
#[export] Instance ShutdownMsg_laws : CodecLaws ShutdownMsg.
Proof. empty_laws. Defined.
#[export] Instance ShutdownAckMsg_laws : CodecLaws ShutdownAckMsg.
Proof. empty_laws. Defined.
#[export] Instance SyncFilesystemsMsg_laws : CodecLaws SyncFilesystemsMsg.
Proof. empty_laws. Defined.
#[export] Instance SyncFilesystemsAckMsg_laws : CodecLaws SyncFilesystemsAckMsg.
Proof. empty_laws. Defined.

(** ** error.go and started.go *)

Record ErrorMsg := mkErrorMsg { error_Code : Z; error_Message : bytes }.

Definition ErrorMsg_MarshalBinary (m : ErrorMsg) : result bytes :=
  to_bytes (
    WriteUint16 (error_Code m) ;;
    WriteString (error_Message m)).

Definition ErrorMsg_unmarshal : M Reader ErrorMsg :=
  x0 ← errw "error: read code: " ReadUint16;
  x1 ← errw "error: read message: " ReadString;
  mret (mkErrorMsg x0 x1).

Definition ErrorMsg_decode : M Reader ErrorMsg :=
  x0 ← errw "error: read code: " ReadUint16;
  x1 ← errw "error: read message: " ReadString;
  mret (mkErrorMsg x0 x1).

#[export] Instance ErrorMsg_codec : Codec ErrorMsg := {|
  MarshalBinary := ErrorMsg_MarshalBinary;
  unmarshal := ErrorMsg_unmarshal;
  decode := ErrorMsg_decode;
  carries m := u16 (error_Code m) && str_ok (error_Message m) |}.

#[export] Instance ErrorMsg_laws : CodecLaws ErrorMsg.
Proof.
  apply (Build_CodecLaws _ _ (fun m => enc_u16 (error_Code m) ++ enc_string (error_Message m)));
    [marshal_law|read_law|read_law].
Defined.

Record StartedMsg := mkStartedMsg { started_Stream : bool }.

Definition StartedMsg_MarshalBinary (m : StartedMsg) : result bytes :=
  to_bytes (
    WriteBool (started_Stream m)).

Definition StartedMsg_unmarshal : M Reader StartedMsg :=
  x0 ← errw "started: read stream: " ReadBool;
  mret (mkStartedMsg x0).

Definition StartedMsg_decode : M Reader StartedMsg :=
  x0 ← errw "started: read stream: " ReadBool;
  mret (mkStartedMsg x0).

#[export] Instance StartedMsg_codec : Codec StartedMsg := {|
  MarshalBinary := StartedMsg_MarshalBinary;
  unmarshal := StartedMsg_unmarshal;
  decode := StartedMsg_decode;
  carries m := true |}.

#[export] Instance StartedMsg_laws : CodecLaws StartedMsg.
Proof.
  apply (Build_CodecLaws _ _ (fun m => enc_bool (started_Stream m)));
    [marshal_law|read_law|read_law].
Defined.

(** ** status.go: the status pair *)

Inductive GetStatusMsg := mkGetStatusMsg.

#[export] Instance GetStatusMsg_codec : Codec GetStatusMsg := empty_codec mkGetStatusMsg.

#[export] Instance GetStatusMsg_laws : CodecLaws GetStatusMsg.
Proof. empty_laws. Defined.

Record StatusMsg := mkStatusMsg { status_Version : bytes; status_PID : Z; status_ShuttingDown : bool }.

Definition StatusMsg_MarshalBinary (m : StatusMsg) : result bytes :=
  to_bytes (
    WriteString (status_Version m) ;;
    WriteUint32 (status_PID m) ;;
    WriteBool (status_ShuttingDown m)).

Definition StatusMsg_unmarshal : M Reader StatusMsg :=
  x0 ← errw "status: read version: " ReadString;
  x1 ← errw "status: read pid: " ReadUint32;
  x2 ← errw "status: read shutting_down: " ReadBool;
  mret (mkStatusMsg x0 x1 x2).

Definition StatusMsg_decode : M Reader StatusMsg :=
  x0 ← errw "status: read version: " ReadString;
  x1 ← errw "status: read pid: " ReadUint32;
  x2 ← errw "status: read shutting_down: " ReadBool;
  mret (mkStatusMsg x0 x1 x2).

#[export] Instance StatusMsg_codec : Codec StatusMsg := {|
  MarshalBinary := StatusMsg_MarshalBinary;
  unmarshal := StatusMsg_unmarshal;
  decode := StatusMsg_decode;
  carries m := str_ok (status_Version m) && u32 (status_PID m) |}.

#[export] Instance StatusMsg_laws : CodecLaws StatusMsg.
Proof.
  apply (Build_CodecLaws _ _ (fun m => enc_string (status_Version m) ++ enc_u32 (status_PID m) ++ enc_bool (status_ShuttingDown m)));
    [marshal_law|read_law|read_law].
Defined.

(** ** file.go *)

Record XferInit := mkXferInit { xinit_Path : bytes; xinit_TotalSize : Z; xinit_Dir : Z }.

Definition XferInit_MarshalBinary (m : XferInit) : result bytes :=
  to_bytes (
    WriteString (xinit_Path m) ;;
    WriteUint32 (xinit_TotalSize m) ;;
    WriteUint8 (xinit_Dir m)).

Definition XferInit_unmarshal : M Reader XferInit :=
  x0 ← errw "xfer_init: read path: " ReadString;
  x1 ← errw "xfer_init: read total_size: " ReadUint32;
  x2 ← errw "xfer_init: read dir: " ReadUint8;
  mret (mkXferInit x0 x1 x2).

Definition XferInit_decode : M Reader XferInit :=
  x0 ← errw "xfer_init: " ReadString;
  x1 ← errw "xfer_init: " ReadUint32;
  x2 ← errw "xfer_init: " ReadUint8;
  mret (mkXferInit x0 x1 x2).

#[export] Instance XferInit_codec : Codec XferInit := {|
  MarshalBinary := XferInit_MarshalBinary;
  unmarshal := XferInit_unmarshal;
  decode := XferInit_decode;
  carries m := str_ok (xinit_Path m) && u32 (xinit_TotalSize m) && u8 (xinit_Dir m) |}.

#[export] Instance XferInit_laws : CodecLaws XferInit.
Proof.
  apply (Build_CodecLaws _ _ (fun m => enc_string (xinit_Path m) ++ enc_u32 (xinit_TotalSize m) ++ enc_u8 (xinit_Dir m)));
    [marshal_law|read_law|read_law].
Defined.

Record XferChunk := mkXferChunk { xchunk_Seq : Z; xchunk_Data : bytes }.

Definition XferChunk_MarshalBinary (m : XferChunk) : result bytes :=
  to_bytes (
    WriteUint32 (xchunk_Seq m) ;;
    WriteBytes (xchunk_Data m)).

Definition XferChunk_unmarshal : M Reader XferChunk :=
  x0 ← errw "xfer_chunk: read seq: " ReadUint32;
  x1 ← errw "xfer_chunk: read data: " ReadBytes;
  mret (mkXferChunk x0 x1).

Definition XferChunk_decode : M Reader XferChunk :=
  x0 ← errw "xfer_chunk: " ReadUint32;
  x1 ← errw "xfer_chunk: " ReadBytes;
  mret (mkXferChunk x0 x1).

#[export] Instance XferChunk_codec : Codec XferChunk := {|
  MarshalBinary := XferChunk_MarshalBinary;
  unmarshal := XferChunk_unmarshal;
  decode := XferChunk_decode;
  carries m := u32 (xchunk_Seq m) && buf_ok (xchunk_Data m) |}.

#[export] Instance XferChunk_laws : CodecLaws XferChunk.
Proof.
  apply (Build_CodecLaws _ _ (fun m => enc_u32 (xchunk_Seq m) ++ enc_bytes (xchunk_Data m)));
    [marshal_law|read_law|read_law].
Defined.

Record XferDone := mkXferDone { xdone_Ok : bool; xdone_ChunksReceived : Z; xdone_BytesWritten : Z }.

Definition XferDone_MarshalBinary (m : XferDone) : result bytes :=
  to_bytes (
    WriteBool (xdone_Ok m) ;;
    WriteUint32 (xdone_ChunksReceived m) ;;
    WriteUint64 (xdone_BytesWritten m)).

Definition XferDone_unmarshal : M Reader XferDone :=
  x0 ← errw "xfer_done: read ok: " ReadBool;
  x1 ← errw "xfer_done: read chunks_received: " ReadUint32;
  x2 ← errw "xfer_done: read bytes_written: " ReadUint64;
  mret (mkXferDone x0 x1 x2).

Definition XferDone_decode : M Reader XferDone :=
  x0 ← errw "xfer_done: " ReadBool;
  x1 ← errw "xfer_done: " ReadUint32;
  x2 ← errw "xfer_done: " ReadUint64;
  mret (mkXferDone x0 x1 x2).

#[export] Instance XferDone_codec : Codec XferDone := {|
  MarshalBinary := XferDone_MarshalBinary;
  unmarshal := XferDone_unmarshal;
  decode := XferDone_decode;
  carries m := u32 (xdone_ChunksReceived m) && u64 (xdone_BytesWritten m) |}.

#[export] Instance XferDone_laws : CodecLaws XferDone.
Proof.
  apply (Build_CodecLaws _ _ (fun m => enc_bool (xdone_Ok m) ++ enc_u32 (xdone_ChunksReceived m) ++ enc_u64 (xdone_BytesWritten m)));
    [marshal_law|read_law|read_law].
Defined.

(** ** exec.go: the binary messages *)

Record ExecResult := mkExecResult { xres_ExitCode : Z; xres_Stdout : bytes; xres_Stderr : bytes; xres_DurationMs : Z }.

Definition ExecResult_MarshalBinary (m : ExecResult) : result bytes :=
  to_bytes (
    WriteInt32 (xres_ExitCode m) ;;
    WriteBytes (xres_Stdout m) ;;
    WriteBytes (xres_Stderr m) ;;
    WriteUint32 (xres_DurationMs m)).

Definition ExecResult_unmarshal : M Reader ExecResult :=
  x0 ← errw "exec_result: read exit_code: " ReadInt32;
  x1 ← errw "exec_result: read stdout: " ReadBytes;
  x2 ← errw "exec_result: read stderr: " ReadBytes;
  x3 ← errw "exec_result: read duration: " ReadUint32;
  mret (mkExecResult x0 x1 x2 x3).

Definition ExecResult_decode : M Reader ExecResult :=
  x0 ← errw "exec_result: read exit_code: " ReadInt32;
  x1 ← errw "exec_result: read stdout: " ReadBytes;
  x2 ← errw "exec_result: read stderr: " ReadBytes;
  x3 ← errw "exec_result: read duration: " ReadUint32;
  mret (mkExecResult x0 x1 x2 x3).

#[export] Instance ExecResult_codec : Codec ExecResult := {|
  MarshalBinary := ExecResult_MarshalBinary;
  unmarshal := ExecResult_unmarshal;
  decode := ExecResult_decode;
  carries m := i32 (xres_ExitCode m) && buf_ok (xres_Stdout m) && buf_ok (xres_Stderr m) && u32 (xres_DurationMs m) |}.

#[export] Instance ExecResult_laws : CodecLaws ExecResult.
Proof.
  apply (Build_CodecLaws _ _ (fun m => enc_i32 (xres_ExitCode m) ++ enc_bytes (xres_Stdout m) ++ enc_bytes (xres_Stderr m) ++ enc_u32 (xres_DurationMs m)));
    [marshal_law|read_law|read_law].
Defined.

Record ExecStream := mkExecStream { xstream_Channel : Z; xstream_Sequence : Z; xstream_Data : bytes }.

Definition ExecStream_MarshalBinary (m : ExecStream) : result bytes :=
  to_bytes (
    WriteUint8 (xstream_Channel m) ;;
    WriteUint32 (xstream_Sequence m) ;;
    WriteBytes (xstream_Data m)).

Definition ExecStream_unmarshal : M Reader ExecStream :=
  x0 ← errw "exec_stream: read channel: " ReadUint8;
  x1 ← errw "exec_stream: read sequence: " ReadUint32;
  x2 ← errw "exec_stream: read data: " ReadBytes;
  mret (mkExecStream x0 x1 x2).

Definition ExecStream_decode : M Reader ExecStream :=
  x0 ← errw "exec_stream: read channel: " ReadUint8;
  x1 ← errw "exec_stream: read sequence: " ReadUint32;
  x2 ← errw "exec_stream: read data: " ReadBytes;
  mret (mkExecStream x0 x1 x2).

#[export] Instance ExecStream_codec : Codec ExecStream := {|
  MarshalBinary := ExecStream_MarshalBinary;
  unmarshal := ExecStream_unmarshal;
  decode := ExecStream_decode;
  carries m := u8 (xstream_Channel m) && u32 (xstream_Sequence m) && buf_ok (xstream_Data m) |}.

#[export] Instance ExecStream_laws : CodecLaws ExecStream.
Proof.
  apply (Build_CodecLaws _ _ (fun m => enc_u8 (xstream_Channel m) ++ enc_u32 (xstream_Sequence m) ++ enc_bytes (xstream_Data m)));
    [marshal_law|read_law|read_law].
Defined.

(** ** events.go *)

Record EventReady := mkEventReady { ready_Version : bytes }.

Definition EventReady_MarshalBinary (m : EventReady) : result bytes :=
  to_bytes (
    WriteString (ready_Version m)).

Definition EventReady_unmarshal : M Reader EventReady :=
  x0 ← errw "event_ready: read version: " ReadString;
  mret (mkEventReady x0).

Definition EventReady_decode : M Reader EventReady :=
  x0 ← errw "event_ready: " ReadString;
  mret (mkEventReady x0).

#[export] Instance EventReady_codec : Codec EventReady := {|
  MarshalBinary := EventReady_MarshalBinary;
  unmarshal := EventReady_unmarshal;
  decode := EventReady_decode;
  carries m := str_ok (ready_Version m) |}.

#[export] Instance EventReady_laws : CodecLaws EventReady.
Proof.
  apply (Build_CodecLaws _ _ (fun m => enc_string (ready_Version m)));
    [marshal_law|read_law|read_law].
Defined.

Record EventFileReceived := mkEventFileReceived { filerecv_Path : bytes; filerecv_Size : Z }.

Definition EventFileReceived_MarshalBinary (m : EventFileReceived) : result bytes :=
  to_bytes (
    WriteString (filerecv_Path m) ;;
    WriteUint64 (filerecv_Size m)).

Definition EventFileReceived_unmarshal : M Reader EventFileReceived :=
  x0 ← errw "event_file_received: read path: " ReadString;
  x1 ← errw "event_file_received: read size: " ReadUint64;
  mret (mkEventFileReceived x0 x1).

Definition EventFileReceived_decode : M Reader EventFileReceived :=
  x0 ← errw "event_file_received: " ReadString;
  x1 ← errw "event_file_received: " ReadUint64;
  mret (mkEventFileReceived x0 x1).

#[export] Instance EventFileReceived_codec : Codec EventFileReceived := {|
  MarshalBinary := EventFileReceived_MarshalBinary;
  unmarshal := EventFileReceived_unmarshal;
  decode := EventFileReceived_decode;
  carries m := str_ok (filerecv_Path m) && u64 (filerecv_Size m) |}.

#[export] Instance EventFileReceived_laws : CodecLaws EventFileReceived.
Proof.
  apply (Build_CodecLaws _ _ (fun m => enc_string (filerecv_Path m) ++ enc_u64 (filerecv_Size m)));
    [marshal_law|read_law|read_law].
Defined.

Record EventMount := mkEventMount { mount_Path : bytes; mount_FsType : bytes }.

Definition EventMount_MarshalBinary (m : EventMount) : result bytes :=
  to_bytes (
    WriteString (mount_Path m) ;;
    WriteString (mount_FsType m)).

Definition EventMount_unmarshal : M Reader EventMount :=
  x0 ← errw "event_mount: read path: " ReadString;
  x1 ← errw "event_mount: read fstype: " ReadString;
  mret (mkEventMount x0 x1).

Definition EventMount_decode : M Reader EventMount :=
  x0 ← errw "event_mount: " ReadString;
  x1 ← errw "event_mount: " ReadString;
  mret (mkEventMount x0 x1).

#[export] Instance EventMount_codec : Codec EventMount := {|
  MarshalBinary := EventMount_MarshalBinary;
  unmarshal := EventMount_unmarshal;
  decode := EventMount_decode;
  carries m := str_ok (mount_Path m) && str_ok (mount_FsType m) |}.

#[export] Instance EventMount_laws : CodecLaws EventMount.
Proof.
  apply (Build_CodecLaws _ _ (fun m => enc_string (mount_Path m) ++ enc_string (mount_FsType m)));
    [marshal_law|read_law|read_law].
Defined.

Record EventErrorMsg := mkEventErrorMsg { everr_Code : Z; everr_Message : bytes }.

Definition EventErrorMsg_MarshalBinary (m : EventErrorMsg) : result bytes :=
  to_bytes (
    WriteUint16 (everr_Code m) ;;
    WriteString (everr_Message m)).

Definition EventErrorMsg_unmarshal : M Reader EventErrorMsg :=
  x0 ← errw "event_error: read code: " ReadUint16;
  x1 ← errw "event_error: read message: " ReadString;
  mret (mkEventErrorMsg x0 x1).

Definition EventErrorMsg_decode : M Reader EventErrorMsg :=
  x0 ← errw "event_error: " ReadUint16;
  x1 ← errw "event_error: " ReadString;
  mret (mkEventErrorMsg x0 x1).

#[export] Instance EventErrorMsg_codec : Codec EventErrorMsg := {|
  MarshalBinary := EventErrorMsg_MarshalBinary;
  unmarshal := EventErrorMsg_unmarshal;
  decode := EventErrorMsg_decode;
  carries m := u16 (everr_Code m) && str_ok (everr_Message m) |}.

#[export] Instance EventErrorMsg_laws : CodecLaws EventErrorMsg.
Proof.
  apply (Build_CodecLaws _ _ (fun m => enc_u16 (everr_Code m) ++ enc_string (everr_Message m)));
    [marshal_law|read_law|read_law].
Defined.

Record EventLog := mkEventLog { evlog_Level : Z; evlog_Message : bytes; evlog_TSNs : Z }.

Definition EventLog_MarshalBinary (m : EventLog) : result bytes :=
  to_bytes (
    WriteUint8 (evlog_Level m) ;;
    WriteString (evlog_Message m) ;;
    WriteUint64 (evlog_TSNs m)).

Definition EventLog_unmarshal : M Reader EventLog :=
  x0 ← errw "event_log: read level: " ReadUint8;
  x1 ← errw "event_log: read message: " ReadString;
  x2 ← errw "event_log: read ts_ns: " ReadUint64;
  mret (mkEventLog x0 x1 x2).

Definition EventLog_decode : M Reader EventLog :=
  x0 ← errw "event_log: " ReadUint8;
  x1 ← errw "event_log: " ReadString;
  x2 ← errw "event_log: " ReadUint64;
  mret (mkEventLog x0 x1 x2).

#[export] Instance EventLog_codec : Codec EventLog := {|
  MarshalBinary := EventLog_MarshalBinary;
  unmarshal := EventLog_unmarshal;
  decode := EventLog_decode;
  carries m := u8 (evlog_Level m) && str_ok (evlog_Message m) && u64 (evlog_TSNs m) |}.

#[export] Instance EventLog_laws : CodecLaws EventLog.
Proof.
  apply (Build_CodecLaws _ _ (fun m => enc_u8 (evlog_Level m) ++ enc_string (evlog_Message m) ++ enc_u64 (evlog_TSNs m)));
    [marshal_law|read_law|read_law].
Defined.

Record EventInitFailed := mkEventInitFailed { initfail_Version : bytes; initfail_Reason : bytes }.

Definition EventInitFailed_MarshalBinary (m : EventInitFailed) : result bytes :=
  to_bytes (
    WriteString (initfail_Version m) ;;
    WriteString (initfail_Reason m)).

Definition EventInitFailed_unmarshal : M Reader EventInitFailed :=
  x0 ← errw "event_init_failed: read version: " ReadString;
  x1 ← errw "event_init_failed: read reason: " ReadString;
  mret (mkEventInitFailed x0 x1).

Definition EventInitFailed_decode : M Reader EventInitFailed :=
  x0 ← errw "event_init_failed: read version: " ReadString;
  x1 ← errw "event_init_failed: read reason: " ReadString;
  mret (mkEventInitFailed x0 x1).

#[export] Instance EventInitFailed_codec : Codec EventInitFailed := {|
  MarshalBinary := EventInitFailed_MarshalBinary;
  unmarshal := EventInitFailed_unmarshal;
  decode := EventInitFailed_decode;
  carries m := str_ok (initfail_Version m) && str_ok (initfail_Reason m) |}.

#[export] Instance EventInitFailed_laws : CodecLaws EventInitFailed.
Proof.
  apply (Build_CodecLaws _ _ (fun m => enc_string (initfail_Version m) ++ enc_string (initfail_Reason m)));
    [marshal_law|read_law|read_law].
Defined.

(** ** tools.go *)

Record ToolCall := mkToolCall { tcall_ToolName : bytes; tcall_Params : bytes }.

Definition ToolCall_MarshalBinary (m : ToolCall) : result bytes :=
  to_bytes (
    WriteString (tcall_ToolName m) ;;
    WriteBytes (tcall_Params m)).

Definition ToolCall_unmarshal : M Reader ToolCall :=
  x0 ← errw "tool_call: read tool_name: " ReadString;
  x1 ← errw "tool_call: read params: " ReadBytes;
  mret (mkToolCall x0 x1).

Definition ToolCall_decode : M Reader ToolCall :=
  x0 ← errw "tool_call: " ReadString;
  x1 ← errw "tool_call: " ReadBytes;
  mret (mkToolCall x0 x1).

#[export] Instance ToolCall_codec : Codec ToolCall := {|
  MarshalBinary := ToolCall_MarshalBinary;
  unmarshal := ToolCall_unmarshal;
  decode := ToolCall_decode;
  carries m := str_ok (tcall_ToolName m) && buf_ok (tcall_Params m) |}.

#[export] Instance ToolCall_laws : CodecLaws ToolCall.
Proof.
  apply (Build_CodecLaws _ _ (fun m => enc_string (tcall_ToolName m) ++ enc_bytes (tcall_Params m)));
    [marshal_law|read_law|read_law].
Defined.

Record ToolResult := mkToolResult { tres_Result : bytes; tres_Ok : bool; tres_ErrorMsg : bytes }.

Definition ToolResult_MarshalBinary (m : ToolResult) : result bytes :=
  to_bytes (
    WriteBytes (tres_Result m) ;;
    WriteBool (tres_Ok m) ;;
    WriteString (tres_ErrorMsg m)).

Definition ToolResult_unmarshal : M Reader ToolResult :=
  x0 ← errw "tool_result: read result: " ReadBytes;
  x1 ← errw "tool_result: read ok: " ReadBool;
  x2 ← errw "tool_result: read error_msg: " ReadString;
  mret (mkToolResult x0 x1 x2).

Definition ToolResult_decode : M Reader ToolResult :=
  x0 ← errw "tool_result: " ReadBytes;
  x1 ← errw "tool_result: " ReadBool;
  x2 ← errw "tool_result: " ReadString;
  mret (mkToolResult x0 x1 x2).

#[export] Instance ToolResult_codec : Codec ToolResult := {|
  MarshalBinary := ToolResult_MarshalBinary;
  unmarshal := ToolResult_unmarshal;
  decode := ToolResult_decode;
  carries m := buf_ok (tres_Result m) && str_ok (tres_ErrorMsg m) |}.

#[export] Instance ToolResult_laws : CodecLaws ToolResult.
Proof.
  apply (Build_CodecLaws _ _ (fun m => enc_bytes (tres_Result m) ++ enc_bool (tres_Ok m) ++ enc_string (tres_ErrorMsg m)));
    [marshal_law|read_law|read_law].
Defined.

Inductive ListToolsMsg := mkListToolsMsg.

#[export] Instance ListToolsMsg_codec : Codec ListToolsMsg := empty_codec mkListToolsMsg.

#[export] Instance ListToolsMsg_laws : CodecLaws ListToolsMsg.
Proof. empty_laws. Defined.

Record ToolEntry := mkToolEntry {
  te_Name : bytes;
  te_Description : bytes;
  te_Version : bytes;
  te_Capabilities : list bytes;
  te_Permissions : list bytes;
  te_Schema : bytes }.

Record ListToolsResult := mkListToolsResult { Entries : list ToolEntry }.

Definition write_entry (e : ToolEntry) : M Writer unit :=
  WriteString (te_Name e) ;;
  WriteString (te_Description e) ;;
  WriteString (te_Version e) ;;
  WriteStringSlice (te_Capabilities e) ;;
  WriteStringSlice (te_Permissions e) ;;
  WriteBytes (te_Schema e).

Definition ListToolsResult_MarshalBinary (m : ListToolsResult) : result bytes :=
  to_bytes (
    WriteUint16 (to_u 16 (zlen (Entries m))) ;;
    write_all write_entry (Entries m)).

Definition read_entry : M Reader ToolEntry :=
  name ← errw "list_tools_result: read name: " ReadString;
  desc ← errw "list_tools_result: read description: " ReadString;
  version ← errw "list_tools_result: read version: " ReadString;
  caps ← errw "list_tools_result: read capabilities: " ReadStringSlice;
  perms ← errw "list_tools_result: read permissions: " ReadStringSlice;
  schema ← errw "list_tools_result: read schema: " ReadBytes;
  mret (mkToolEntry name desc version caps perms schema).

Definition ListToolsResult_unmarshal : M Reader ListToolsResult :=
  count ← errw "list_tools_result: read count: " ReadUint16;
  entries ← read_n read_entry (Z.to_nat count);
  mret (mkListToolsResult entries).

Definition decode_entry : M Reader ToolEntry :=
  name ← errw "list_tools_result: " ReadString;
  desc ← errw "list_tools_result: " ReadString;
  version ← errw "list_tools_result: " ReadString;
  caps ← errw "list_tools_result: " ReadStringSlice;
  perms ← errw "list_tools_result: " ReadStringSlice;
  schema ← errw "list_tools_result: " ReadBytes;
  mret (mkToolEntry name desc version caps perms schema).

Definition ListToolsResult_decode : M Reader ListToolsResult :=
  count ← errw "list_tools_result: " ReadUint16;
  entries ← read_n decode_entry (Z.to_nat count);
  mret (mkListToolsResult entries).

Definition entry_ok (e : ToolEntry) : bool :=
  str_ok (te_Name e) && str_ok (te_Description e) && str_ok (te_Version e)
  && slice_ok (te_Capabilities e) && slice_ok (te_Permissions e) && buf_ok (te_Schema e).

#[export] Instance ListToolsResult_codec : Codec ListToolsResult := {|
  MarshalBinary := ListToolsResult_MarshalBinary;
  unmarshal := ListToolsResult_unmarshal;
  decode := ListToolsResult_decode;
  carries m := (zlen (Entries m) <? 2 ^ 16) && forallb entry_ok (Entries m) |}.

Definition enc_entry (e : ToolEntry) : bytes :=
  enc_string (te_Name e) ++ enc_string (te_Description e) ++ enc_string (te_Version e)
  ++ enc_slice (te_Capabilities e) ++ enc_slice (te_Permissions e) ++ enc_bytes (te_Schema e).

Lemma writes_entry e : Writes (write_entry e) (enc_entry e).
Proof. unfold write_entry, enc_entry. eauto 20 with wire. Qed.

(** Both entry readers are the same six reads under different error texts. *)
Ltac reads_entry_tac :=
  intros H; unfold entry_ok in H; split_ok H; unfold enc_entry;
  match goal with |- Reads ?m _ _ => unfold m end;
  rewrite <- (app_nil_r (enc_bytes _));
  repeat (eapply reads_bind; [by eauto with wire|]);
  match goal with e : ToolEntry |- _ => by destruct e end.

Lemma reads_entry e : entry_ok e = true -> Reads read_entry (enc_entry e) e.
Proof. reads_entry_tac. Qed.

Lemma reads_decode_entry e : entry_ok e = true -> Reads decode_entry (enc_entry e) e.
Proof. reads_entry_tac. Qed.

Lemma reads_entries (f : M Reader ToolEntry) pre m :
  (forall e, entry_ok e = true -> Reads f (enc_entry e) e) -> carries m = true ->
  Reads (count ← errw pre ReadUint16; entries ← read_n f (Z.to_nat count); mret (mkListToolsResult entries))
    (enc_u16 (to_u 16 (zlen (Entries m))) ++ enc_list enc_entry (Entries m)) m.
Proof.
  intros Hf [Hl%Z.ltb_lt He]%andb_true_iff. pose proof (zlen_nonneg (Entries m)).
  assert (u16 (zlen (Entries m)) = true) by (apply in_u_spec; lia).
  rewrite to_u_id by done. eapply reads_bind; [by eauto with wire|]. rewrite zlen_to_nat.
  destruct m as [es]. simpl in *.
  apply (reads_map _ mkListToolsResult), (reads_n f enc_entry), Forall_forall.
  intros e Hin. apply Hf. rewrite forallb_forall in He. by apply He, list_elem_of_In.
Qed.

#[export] Instance ListToolsResult_laws : CodecLaws ListToolsResult.
Proof.
  apply (Build_CodecLaws _ _ (fun m =>
    enc_u16 (to_u 16 (zlen (Entries m))) ++ enc_list enc_entry (Entries m))); intros m H.
  - apply writes_to_bytes, writes_bind; [apply writes_u16|]. apply writes_all, writes_entry.
  - by apply reads_from_bytes, reads_entries; [apply reads_entry|].
  - by apply reads_from_bytes, reads_entries; [apply reads_decode_entry|].
Defined.
