(* ===== verification/Heartbeat.v ===== *)
(** * Heartbeats: [protocol/messages/status.go], the TLV-extended message

    The heartbeat carries its health and failure reason as TLV extensions
    that encoding projects in and decoding projects out.  The decoder
    registered for HEARTBEAT frames is modelled next to [UnmarshalBinary]:
    the two differ. *)
From Stdlib Require Import ZArith Lia.
From stdpp Require Import base list strings.
From S2P Require Import Prelude GoIO Wire Frame Codec.

Open Scope Z_scope.

Record HeartbeatExtension := mkExt { ext_Type : Z; ext_Value : bytes }.

Record HeartbeatMsg := mkHeartbeat {
  BootID : Z;
  Seq : Z;
  State : Z;
  HFlags : Z;
  Health : Z;
  FailureReason : bytes;
  Extensions : list HeartbeatExtension }.

#[global] Instance HeartbeatExtension_eq_dec : EqDecision HeartbeatExtension.
Proof. solve_decision. Defined.

(** ** Encoding *)

(** The loop of [materializedExtensions]: the output list and the two [seen]
    flags. *)
Fixpoint project_extensions (m : HeartbeatMsg) (exts : list HeartbeatExtension)
    (seenHealth seenReason : bool) : list HeartbeatExtension * bool * bool :=
  match exts with
  | [] => ([], seenHealth, seenReason)
  | e :: exts' =>
      if ext_Type e =? ExtHealth then
        let '(out, h, r) := project_extensions m exts' true seenReason in
        (mkExt (ext_Type e) [byte_of (Health m)] :: out, h, r)
      else if ext_Type e =? ExtFailureReason then
        let '(out, h, r) := project_extensions m exts' seenHealth true in
        ((if bool_decide (FailureReason m = []) then e
          else mkExt (ext_Type e) (FailureReason m)) :: out, h, r)
      else
        let '(out, h, r) := project_extensions m exts' seenHealth seenReason in
        (e :: out, h, r)
  end.

Definition materializedExtensions (m : HeartbeatMsg) : list HeartbeatExtension :=
  let '(out, seenHealth, seenReason) := project_extensions m (Extensions m) false false in
  let out := if seenHealth then out else out ++ [mkExt ExtHealth [byte_of (Health m)]] in
  if (State m =? HeartbeatStateFailed) && negb (bool_decide (FailureReason m = [])) && negb seenReason
  then out ++ [mkExt ExtFailureReason (FailureReason m)]
  else out.

Definition write_extension (e : HeartbeatExtension) : M Writer unit :=
  errw "ext type: " (WriteUint16 (ext_Type e)) ;;
  errw "ext length: " (WriteUint16 (to_u 16 (zlen (ext_Value e)))) ;;
  errw "ext value: " (Write (ext_Value e)).

Definition writeHeartbeatExtensions (exts : list HeartbeatExtension) : M Writer unit :=
  write_all write_extension exts.

Definition Heartbeat_MarshalBinary (m : HeartbeatMsg) : result bytes :=
  let exts := materializedExtensions m in
  match to_bytes (writeHeartbeatExtensions exts) with
  | Err e => Err e
  | Ok extBuf =>
      to_bytes (
        WriteUint64 (BootID m) ;;
        WriteUint64 (Seq m) ;;
        WriteUint8 (State m) ;;
        WriteUint8 (HFlags m) ;;
        WriteUint16 (to_u 16 (zlen extBuf)) ;;
        Write extBuf)
  end.

(** ** Decoding *)

Definition ext_overrun (extType extLen remain : Z) : error :=
  Errorf (str "heartbeat: extension type=" ++ fmt_d extType ++ str " declared len=" ++ fmt_d extLen
          ++ str " but only " ++ fmt_d remain ++ str " bytes remain").

(** [for extReader.Len() >= 4 { ... }]; each round consumes at least the four
    header bytes, so the number of bytes is enough fuel. *)
Fixpoint extension_loop (fuel : nat) (exts : list HeartbeatExtension) :
    M Reader (list HeartbeatExtension) :=
  match fuel with
  | O => mret exts
  | S fuel' =>
      remain ← Len;
      if remain <? 4 then mret exts
      else
        extType ← ReadUint16;
        extLen ← ReadUint16;
        remain ← Len;
        reject_if (remain <? extLen) (ext_overrun extType extLen remain) ;;
        value ← (fun r => match ReadFull extLen r with
                 | (Err e, r') => (Err (Wrapf (str "heartbeat: read extension type=" ++ fmt_d extType
                                               ++ str " value: ") e []), r')
                 | x => x
                 end) : M Reader bytes;
        extension_loop fuel' (exts ++ [mkExt extType value])
  end.

Definition readHeartbeatExtensions (payloadLen : Z) : M Reader (list HeartbeatExtension) :=
  if payloadLen =? 0 then mret []
  else
    raw ← errw "read extension data: " (ReadFull payloadLen);
    lift (from_bytes (extension_loop (length raw) []) raw).

(** The loop at the end of [UnmarshalBinary]: later TLVs win. *)
Definition project_field (m : Z * bytes) (e : HeartbeatExtension) : Z * bytes :=
  if ext_Type e =? ExtHealth then
    match ext_Value e with b :: _ => (byte_val b, m.2) | [] => m end
  else if ext_Type e =? ExtFailureReason then (m.1, ext_Value e)
  else m.

Definition Heartbeat_unmarshal : M Reader HeartbeatMsg :=
  bootID ← errw "heartbeat: read boot_id: " ReadUint64;
  seq ← errw "heartbeat: read seq: " ReadUint64;
  state ← errw "heartbeat: read state: " ReadUint8;
  flags ← errw "heartbeat: read flags: " ReadUint8;
  payloadLen ← errw "heartbeat: read payload_length: " ReadUint16;
  exts ← errw "heartbeat: read extensions: " (readHeartbeatExtensions payloadLen);
  let '(health, reason) := foldl project_field (HealthHealthy, []) exts in
  mret (mkHeartbeat bootID seq state flags health reason exts).

(** The function registered for [TypeHEARTBEAT]: the struct literal leaves
    [Health] and [FailureReason] at their zero values. *)
Definition Heartbeat_decode : M Reader HeartbeatMsg :=
  bootID ← errw "heartbeat: read boot_id: " ReadUint64;
  seq ← errw "heartbeat: read seq: " ReadUint64;
  state ← errw "heartbeat: read state: " ReadUint8;
  flags ← errw "heartbeat: read flags: " ReadUint8;
  payloadLen ← errw "heartbeat: read payload_length: " ReadUint16;
  exts ← errw "heartbeat: read extensions: " (readHeartbeatExtensions payloadLen);
  mret (mkHeartbeat bootID seq state flags 0 [] exts).

(** ** The TLV list *)

Definition enc_ext (e : HeartbeatExtension) : bytes :=
  enc_u16 (ext_Type e) ++ enc_u16 (to_u 16 (zlen (ext_Value e))) ++ ext_Value e.

Definition ext_ok (e : HeartbeatExtension) : bool := u16 (ext_Type e) && str_ok (ext_Value e).

Lemma writes_extension e : Writes (write_extension e) (enc_ext e).
Proof. unfold write_extension, enc_ext. eauto 10 with wire. Qed.

Lemma writes_extensions exts : Writes (writeHeartbeatExtensions exts) (enc_list enc_ext exts).
Proof. apply writes_all, writes_extension. Qed.

Lemma zlen_enc_ext e : zlen (enc_ext e) = 4 + zlen (ext_Value e).
Proof. unfold enc_ext. rewrite !zlen_app, !zlen_enc_u16. lia. Qed.

(** Enough fuel reads the whole list; up to three trailing bytes, too short
    for a TLV header, end it. *)
Lemma extension_loop_reads exts acc tail err fuel :
  Forall (fun e => ext_ok e = true) exts -> zlen tail < 4 ->
  zlen (enc_list enc_ext exts ++ tail) <= Z.of_nat fuel ->
  extension_loop fuel acc (mkReader (enc_list enc_ext exts ++ tail) err)
  = (Ok (acc ++ exts), mkReader tail err).
Proof.
  intros Hok Ht. revert acc fuel.
  induction Hok as [|e exts He _ IH]; intros acc fuel Hf.
  { rewrite enc_list_nil, app_nil_r. destruct fuel; cbn [extension_loop app]; [done|].
    rewrite Len_bind. cbn [rdata]. by rewrite (proj2 (Z.ltb_lt _ _)). }
  rewrite enc_list_cons in *. apply andb_true_iff in He as [H1 H2].
  pose proof (str_ok_u16 _ H2) as H3. pose proof (zlen_nonneg (ext_Value e)).
  rewrite <- app_assoc in *. rewrite zlen_app, zlen_enc_ext in Hf.
  set (rest := enc_list enc_ext exts ++ tail) in *. pose proof (zlen_nonneg rest).
  destruct fuel as [|fuel]; [lia|]. cbn [extension_loop]. rewrite Len_bind. cbn [rdata].
  rewrite zlen_app, zlen_enc_ext, (proj2 (Z.ltb_ge _ _)) by lia.
  unfold enc_ext. rewrite to_u_id, <- !app_assoc by done.
  rewrite (bind_ok _ _ _ _ _ (reads_u16 _ H1 _ _)), (bind_ok _ _ _ _ _ (reads_u16 _ H3 _ _)).
  rewrite Len_bind. cbn [rdata]. rewrite zlen_app, (proj2 (Z.ltb_ge _ _)) by lia.
  rewrite bind_unfold. cbn [reject_if mret M_ret].
  rewrite bind_unfold, ReadFull_exact by done. rewrite IH by lia.
  rewrite <- app_assoc. by destruct e.
Qed.

(** Conversely, what the loop returns is what the bytes encode. *)
Lemma extension_loop_canon fuel acc r out r' :
  zlen (rdata r) <= Z.of_nat fuel ->
  extension_loop fuel acc r = (Ok out, r') ->
  exists new, out = acc ++ new /\ rdata r = enc_list enc_ext new ++ rdata r' /\
    zlen (rdata r') < 4 /\ Forall (fun e => ext_ok e = true) new.
Proof.
  revert acc r. induction fuel as [|fuel IH]; intros acc r Hf H; cbn [extension_loop] in H.
  { injection H as <- <-. exists []. rewrite app_nil_r, enc_list_nil.
    pose proof (zlen_nonneg (rdata r)). split_and!; [done|done|lia|done]. }
  rewrite Len_bind in H. destruct (Z.ltb_spec (zlen (rdata r)) 4) as [Hlt|Hge].
  { injection H as <- <-. exists []. by rewrite app_nil_r, enc_list_nil. }
  apply bind_inv in H as (ty & r1 & E1 & H). apply bind_inv in H as (ln & r2 & E2 & H).
  rewrite Len_bind in H. apply bind_inv in H as (u & r3 & [Hl ->]%reject_if_inv & H).
  apply bind_inv in H as (v & r4 & E3 & H).
  apply canon_u16 in E1 as (Hd1 & _ & Hu1). apply canon_u16 in E2 as (Hd2 & _ & Hu2).
  pose proof (proj1 (in_u_spec _ _) Hu2) as Hr2.
  destruct (ReadFull ln r2) as [[v'|e] r5] eqn:E4; [|discriminate].
  injection E3 as <- <-. apply ReadFull_inv in E4 as (Hd4 & _ & Hl4); [|lia].
  apply IH in H as (new & -> & Hd & Ht & Hok).
  2: { rewrite Hd1, Hd2, Hd4, !zlen_app, !zlen_enc_u16 in Hf. lia. }
  exists (mkExt ty v' :: new). rewrite <- app_assoc, enc_list_cons. split_and!; [done| |done|].
  - unfold enc_ext. cbn [ext_Type ext_Value]. rewrite Hl4, to_u_id, <- !app_assoc by done.
    by rewrite Hd1, Hd2, Hd4, Hd.
  - constructor; [|done]. apply andb_true_iff. split; [done|]. apply Z.ltb_lt. simpl. lia.
Qed.

Lemma reads_HeartbeatExtensions exts :
  Forall (fun e => ext_ok e = true) exts ->
  Reads (readHeartbeatExtensions (zlen (enc_list enc_ext exts))) (enc_list enc_ext exts) exts.
Proof.
  intros Hok rest err. unfold readHeartbeatExtensions.
  destruct (Z.eqb_spec (zlen (enc_list enc_ext exts)) 0) as [E|E].
  { rewrite (zlen_0 _ E). destruct exts as [|e exts]; [done|].
    rewrite enc_list_cons, zlen_app, zlen_enc_ext in E.
    pose proof (zlen_nonneg (ext_Value e)). pose proof (zlen_nonneg (enc_list enc_ext exts)). lia. }
  rewrite (bind_ok _ _ _ _ _ (reads_errw _ _ _ _ (reads_ReadFull _) _ _)).
  unfold lift, from_bytes, NewReader. rewrite <- (app_nil_r (enc_list enc_ext exts)) at 2.
  rewrite extension_loop_reads; [done|done|done|].
  rewrite app_nil_r. unfold zlen. lia.
Qed.

(** ** The projection *)

Definition is_health (e : HeartbeatExtension) : bool := ext_Type e =? ExtHealth.
Definition is_reason (e : HeartbeatExtension) : bool := ext_Type e =? ExtFailureReason.

Definition project_ext (m : HeartbeatMsg) (e : HeartbeatExtension) : HeartbeatExtension :=
  if is_health e then mkExt (ext_Type e) [byte_of (Health m)]
  else if is_reason e && negb (bool_decide (FailureReason m = [])) then mkExt (ext_Type e) (FailureReason m)
  else e.

Lemma project_extensions_eq m exts h r :
  project_extensions m exts h r
  = (map (project_ext m) exts, h || existsb is_health exts, r || existsb is_reason exts).
Proof.
  revert h r. induction exts as [|e exts IH]; intros h r; simpl; [by rewrite !orb_false_r|].
  unfold project_ext at 1, is_health at 1 2, is_reason at 1 2.
  destruct (Z.eqb_spec (ext_Type e) ExtHealth) as [E|E].
  { rewrite IH. rewrite E. simpl. by rewrite orb_true_r. }
  destruct (ext_Type e =? ExtFailureReason).
  - rewrite IH. simpl. rewrite orb_true_r. by case_bool_decide.
  - rewrite IH. simpl. done.
Qed.

(** A failure reason is sent only on a Failed heartbeat or through an explicit
    TLV; [reason_sent] says what the wire then carries. *)
Definition reason_travels (m : HeartbeatMsg) : bool :=
  if bool_decide (FailureReason m = []) then negb (existsb is_reason (Extensions m))
  else (State m =? HeartbeatStateFailed) || existsb is_reason (Extensions m).

Definition hb_ok (m : HeartbeatMsg) : bool :=
  u64 (BootID m) && u64 (Seq m) && u8 (State m) && u8 (HFlags m) && u8 (Health m)
  && forallb ext_ok (materializedExtensions m)
  && (zlen (enc_list enc_ext (materializedExtensions m)) <? 2 ^ 16).

(** The two fields [UnmarshalBinary] projects out, one at a time. *)
Definition health_of (h : Z) (exts : list HeartbeatExtension) : Z :=
  foldl (fun h e => if is_health e then match ext_Value e with b :: _ => byte_val b | [] => h end else h) h exts.

Definition reason_of (r : bytes) (exts : list HeartbeatExtension) : bytes :=
  foldl (fun r e => if is_reason e then ext_Value e else r) r exts.

Lemma foldl_project_field h r exts :
  foldl project_field (h, r) exts = (health_of h exts, reason_of r exts).
Proof.
  revert h r. induction exts as [|e exts IH]; intros h r; [done|]. cbn [foldl].
  unfold project_field at 2, health_of, reason_of. cbn [foldl fst snd]. unfold is_health at 2, is_reason at 2.
  destruct (Z.eqb_spec (ext_Type e) ExtHealth) as [E|E].
  - rewrite E. cbn. destruct (ext_Value e); apply IH.
  - destruct (ext_Type e =? ExtFailureReason); apply IH.
Qed.

Lemma project_ext_type m e : ext_Type (project_ext m e) = ext_Type e.
Proof. unfold project_ext. by repeat case_match. Qed.

Lemma health_of_projected m h exts :
  u8 (Health m) = true ->
  health_of h (map (project_ext m) exts) = if existsb is_health exts then Health m else h.
Proof.
  intros Hu. revert h. induction exts as [|e exts IH]; intros h; [done|].
  unfold health_of in *. cbn [map foldl existsb]. rewrite IH.
  unfold is_health at 2. rewrite project_ext_type. fold (is_health e).
  unfold project_ext. destruct (is_health e); cbn [ext_Value orb]; [|done].
  rewrite byte_val_of, (Z.mod_small (Health m)) by (by apply in_u_spec in Hu).
  by destruct (existsb is_health exts).
Qed.

Lemma reason_of_projected m r exts :
  reason_of r (map (project_ext m) exts)
  = if existsb is_reason exts && negb (bool_decide (FailureReason m = [])) then FailureReason m
    else reason_of r exts.
Proof.
  revert r. induction exts as [|e exts IH]; intros r; [done|].
  assert (Hp : is_reason (project_ext m e) = is_reason e).
  { unfold is_reason. by rewrite project_ext_type. }
  unfold reason_of. cbn [map foldl existsb]. rewrite Hp.
  change (reason_of (if is_reason e then ext_Value (project_ext m e) else r) (map (project_ext m) exts)
    = if (is_reason e || existsb is_reason exts) && negb (bool_decide (FailureReason m = [])) then FailureReason m
      else reason_of (if is_reason e then ext_Value e else r) exts).
  rewrite IH. destruct (is_reason e) eqn:Er; [|done].
  assert (is_health e = false) as Hh.
  { unfold is_health, is_reason in *. apply Z.eqb_eq in Er. by rewrite Er. }
  unfold project_ext. rewrite Hh, Er. cbn [andb orb].
  destruct (negb (bool_decide (FailureReason m = []))); rewrite ?andb_true_r, ?andb_false_r; [|done].
  destruct (existsb is_reason exts) eqn:Ex; [done|]. cbn [ext_Value].
  clear -Ex. induction exts as [|x exts IH]; [done|]. cbn in Ex. apply orb_false_iff in Ex as [Hx Ex].
  unfold reason_of. cbn [foldl]. rewrite Hx. by apply IH.
Qed.

Lemma reason_of_none r exts : existsb is_reason exts = false -> reason_of r exts = r.
Proof.
  induction exts as [|x exts IH]; [done|]. cbn [existsb]. intros [Hx Ex]%orb_false_iff.
  unfold reason_of. cbn [foldl]. rewrite Hx. by apply IH.
Qed.

Lemma materializedExtensions_eq m :
  materializedExtensions m
  = map (project_ext m) (Extensions m)
    ++ (if existsb is_health (Extensions m) then [] else [mkExt ExtHealth [byte_of (Health m)]])
    ++ (if (State m =? HeartbeatStateFailed) && negb (bool_decide (FailureReason m = []))
           && negb (existsb is_reason (Extensions m))
        then [mkExt ExtFailureReason (FailureReason m)] else []).
Proof.
  unfold materializedExtensions. rewrite project_extensions_eq. cbn [orb].
  destruct (existsb is_health _), (_ && _ && _); by rewrite <- ?app_assoc, ?app_nil_r.
Qed.

(** Decoding projects out exactly the health and the reason that were sent. *)
Lemma projected_health m :
  u8 (Health m) = true -> health_of HealthHealthy (materializedExtensions m) = Health m.
Proof.
  intros Hu. rewrite materializedExtensions_eq. unfold health_of. rewrite !foldl_app.
  fold (health_of HealthHealthy (map (project_ext m) (Extensions m))). rewrite health_of_projected by done.
  assert (Hb : byte_val (byte_of (Health m)) = Health m)
    by (rewrite byte_val_of; apply Z.mod_small; by apply in_u_spec in Hu).
  destruct (existsb is_health _); destruct (_ && _ && _); simpl; done.
Qed.

Lemma projected_reason m :
  reason_travels m = true -> reason_of [] (materializedExtensions m) = FailureReason m.
Proof.
  intros Ht. rewrite materializedExtensions_eq. unfold reason_of. rewrite !foldl_app.
  fold (reason_of [] (map (project_ext m) (Extensions m))). rewrite reason_of_projected.
  unfold reason_travels in Ht. case_bool_decide as Hr.
  - apply negb_true_iff in Ht. rewrite Ht, Hr, !andb_false_r. cbn [negb andb foldl].
    rewrite (reason_of_none [] _ Ht), ?andb_false_r. by destruct (existsb is_health _).
  - cbn [negb]. rewrite !andb_true_r. destruct (existsb is_reason _) eqn:Ex.
    + rewrite andb_false_r. cbn [foldl]. by destruct (existsb is_health _).
    + rewrite orb_false_r in Ht. rewrite Ht. by destruct (existsb is_health _).
Qed.

Definition hb_wire (m : HeartbeatMsg) : bytes :=
  enc_u64 (BootID m) ++ enc_u64 (Seq m) ++ enc_u8 (State m) ++ enc_u8 (HFlags m)
  ++ enc_u16 (zlen (enc_list enc_ext (materializedExtensions m)))
  ++ enc_list enc_ext (materializedExtensions m).

Lemma hb_ok_exts m :
  hb_ok m = true ->
  Forall (fun e => ext_ok e = true) (materializedExtensions m) /\
  u16 (zlen (enc_list enc_ext (materializedExtensions m))) = true.
Proof.
  unfold hb_ok. intros H. split_ok H. split.
  - apply Forall_forall. intros e He. rewrite forallb_forall in H1. by apply H1, list_elem_of_In.
  - apply Z.ltb_lt in H0. apply in_u_spec. pose proof (zlen_nonneg (enc_list enc_ext (materializedExtensions m))). lia.
Qed.

Lemma Heartbeat_marshal_wire m : hb_ok m = true -> Heartbeat_MarshalBinary m = Ok (hb_wire m).
Proof.
  intros H. destruct (hb_ok_exts m H) as [_ Hu]. unfold Heartbeat_MarshalBinary.
  rewrite (writes_to_bytes _ _ (writes_extensions _)), to_u_id by done.
  apply writes_to_bytes. unfold hb_wire. eauto 20 with wire.
Qed.

(** Both decoders read the fields that were written; [k] is what they make of
    the extensions. *)
Lemma hb_fields_read m (k : Z -> Z -> Z -> Z -> list HeartbeatExtension -> M Reader HeartbeatMsg) :
  hb_ok m = true ->
  from_bytes (
    bootID ← errw "heartbeat: read boot_id: " ReadUint64;
    seq ← errw "heartbeat: read seq: " ReadUint64;
    state ← errw "heartbeat: read state: " ReadUint8;
    flags ← errw "heartbeat: read flags: " ReadUint8;
    payloadLen ← errw "heartbeat: read payload_length: " ReadUint16;
    exts ← errw "heartbeat: read extensions: " (readHeartbeatExtensions payloadLen);
    k bootID seq state flags exts) (hb_wire m)
  = from_bytes (k (BootID m) (Seq m) (State m) (HFlags m) (materializedExtensions m)) [].
Proof.
  intros H. destruct (hb_ok_exts m H) as [He Hu]. unfold hb_ok in H. split_ok H. unfold hb_wire.
  do 5 (erewrite from_bytes_bind by eauto with wire).
  erewrite from_bytes_bind_last by (apply reads_errw, reads_HeartbeatExtensions; done). done.
Qed.

(** ** Properties *)

Lemma Heartbeat_unmarshal_wire m : hb_ok m = true -> reason_travels m = true ->
  from_bytes Heartbeat_unmarshal (hb_wire m)
  = Ok (mkHeartbeat (BootID m) (Seq m) (State m) (HFlags m) (Health m) (FailureReason m) (materializedExtensions m)).
Proof.
  intros H Ht. unfold Heartbeat_unmarshal. rewrite hb_fields_read by done.
  assert (u8 (Health m) = true) by (unfold hb_ok in H; by split_ok H).
  rewrite foldl_project_field, projected_health, projected_reason by done. done.
Qed.

(** A heartbeat whose fields fit and whose failure reason is consistent
    with its state round-trips through [MarshalBinary]/[UnmarshalBinary]: every
    field comes back, health included, with the extension list as
    materialized. *)
Theorem Heartbeat_roundtrip (m : HeartbeatMsg) (H : hb_ok m = true) (Ht : reason_travels m = true) :
  exists body, Heartbeat_MarshalBinary m = Ok body /\
    from_bytes Heartbeat_unmarshal body
    = Ok (mkHeartbeat (BootID m) (Seq m) (State m) (HFlags m) (Health m) (FailureReason m)
            (materializedExtensions m)).
Proof. exists (hb_wire m). split; [by apply Heartbeat_marshal_wire|by apply Heartbeat_unmarshal_wire]. Qed.

Definition demo_heartbeat : HeartbeatMsg :=
  mkHeartbeat 7 42 HeartbeatStateFailed 1 1 (str "init_timeout") [mkExt 1 (str "x")].

Lemma Heartbeat_roundtrip_witness :
  exists body, Heartbeat_MarshalBinary demo_heartbeat = Ok body /\
    from_bytes Heartbeat_unmarshal body
    = Ok (mkHeartbeat 7 42 HeartbeatStateFailed 1 1 (str "init_timeout")
            [mkExt 1 (str "x"); mkExt ExtHealth [byte_of 1]; mkExt ExtFailureReason (str "init_timeout")]).
Proof. apply (Heartbeat_roundtrip demo_heartbeat); vm_compute; reflexivity. Defined.

Lemma Heartbeat_decode_wire m : hb_ok m = true ->
  from_bytes Heartbeat_decode (hb_wire m)
  = Ok (mkHeartbeat (BootID m) (Seq m) (State m) (HFlags m) HealthHealthy [] (materializedExtensions m)).
Proof. intros H. unfold Heartbeat_decode. by rewrite hb_fields_read. Qed.

(** C40: the decoder registered for HEARTBEAT frames returns every heartbeat as
    Healthy with an empty failure reason, whatever was sent, although the TLVs
    carrying both are in its extension list; [UnmarshalBinary] of the same body
    gives back the health, and the reason whenever it is sent. *)
Theorem Heartbeat_decode_drops_health (m : HeartbeatMsg) (H : hb_ok m = true) :
  exists body, Heartbeat_MarshalBinary m = Ok body /\
    from_bytes Heartbeat_decode body
    = Ok (mkHeartbeat (BootID m) (Seq m) (State m) (HFlags m) HealthHealthy []
            (materializedExtensions m)) /\
    (reason_travels m = true ->
     from_bytes Heartbeat_unmarshal body
     = Ok (mkHeartbeat (BootID m) (Seq m) (State m) (HFlags m) (Health m) (FailureReason m)
             (materializedExtensions m))).
Proof.
  exists (hb_wire m). split_and!; [by apply Heartbeat_marshal_wire|by apply Heartbeat_decode_wire|].
  intros Ht. by apply Heartbeat_unmarshal_wire.
Qed.

Lemma Heartbeat_decode_drops_health_witness :
  exists body, Heartbeat_MarshalBinary demo_heartbeat = Ok body /\
    from_bytes Heartbeat_decode body
    = Ok (mkHeartbeat 7 42 HeartbeatStateFailed 1 HealthHealthy [] (materializedExtensions demo_heartbeat)) /\
    (reason_travels demo_heartbeat = true ->
     from_bytes Heartbeat_unmarshal body
     = Ok (mkHeartbeat 7 42 HeartbeatStateFailed 1 1 (str "init_timeout") (materializedExtensions demo_heartbeat))).
Proof. apply (Heartbeat_decode_drops_health demo_heartbeat). vm_compute. reflexivity. Defined.

(** The extension loop is total and exact: it succeeds with a list exactly
    when the payload is the encoding of that list followed by at most three
    stray bytes. *)
Theorem extension_loop_exact (raw : bytes) (exts : list HeartbeatExtension) :
  from_bytes (extension_loop (length raw) []) raw = Ok exts <->
  exists tail, raw = enc_list enc_ext exts ++ tail /\ zlen tail < 4 /\
    Forall (fun e => ext_ok e = true) exts.
Proof.
  split.
  - intros [r' H]%from_bytes_ok_inv.
    apply extension_loop_canon in H as (new & -> & Hd & Ht & Hok); [|unfold zlen; simpl; lia].
    exists (rdata r'). done.
  - intros (tail & -> & Ht & Hok). unfold from_bytes, NewReader.
    rewrite extension_loop_reads; [done|done|done|]. unfold zlen. lia.
Qed.
