(* ===== verification/Exec.v ===== *)
(** * EXEC: [protocol/messages/exec.go]

    The EXEC command and its validation.  [path_Clean] is the standard
    library's [path.Clean] on bytes: the loop over the path with its output
    buffer (kept reversed), rooted or not.  [Validate] is characterised by the
    shape of the accepted working directories.  The JSON form of the body is
    in [ExecJson.v]. *)
From Stdlib Require Import ZArith Lia.
From stdpp Require Import base list gmap strings.
From S2P Require Import Prelude GoIO.

Open Scope Z_scope.

Record ExecCmd := mkExecCmd {
  Command : bytes;
  Workdir : bytes;
  Env : gmap bytes bytes;
  TimeoutMs : option Z;
  Spec : bytes }.

Definition slash : byte := byte_of 47.
Definition dot : byte := byte_of 46.
Definition NUL : byte := byte_of 0.

(** ** path *)

Definition path_IsAbs (p : bytes) : bool :=
  match p with c :: _ => bool_decide (c = slash) | [] => false end.

(** [out.w--] and the loop after it, back over the last component. *)
Fixpoint pop_component (dotdot : nat) (ro : bytes) : bytes :=
  match ro with
  | [] => []
  | c :: ro' =>
      if (dotdot <? length ro')%nat && negb (bool_decide (c = slash)) then pop_component dotdot ro' else ro'
  end.

(** The inner loop of the default case: copy up to the next slash. *)
Fixpoint copy_component (rest ro : bytes) : bytes * bytes :=
  match rest with
  | c :: rest' => if bool_decide (c = slash) then (rest, ro) else copy_component rest' (c :: ro)
  | [] => ([], ro)
  end.

(** Does a component end here? *)
Definition at_end (rest : bytes) : bool :=
  match rest with [] => true | c :: _ => bool_decide (c = slash) end.

(** [".."] as a whole component: what follows it. *)
Definition dotdot_here (rest : bytes) : option bytes :=
  match rest with
  | c :: c2 :: rest2 => if bool_decide (c = dot) && bool_decide (c2 = dot) && at_end rest2 then Some rest2 else None
  | _ => None
  end.

(** The main loop: [rest] is [path[r:]], [ro] the reversed output. *)
Fixpoint clean_loop (fuel : nat) (rooted : bool) (dotdot : nat) (rest ro : bytes) : bytes :=
  match fuel with
  | O => ro
  | S fuel =>
      match rest with
      | [] => ro
      | c :: rest1 =>
          if bool_decide (c = slash) then clean_loop fuel rooted dotdot rest1 ro
          else if bool_decide (c = dot) && at_end rest1 then clean_loop fuel rooted dotdot rest1 ro
          else match dotdot_here rest with
          | Some rest2 =>
              if (dotdot <? length ro)%nat
              then clean_loop fuel rooted dotdot rest2 (pop_component dotdot ro)
              else if negb rooted then
                let ro := if (0 <? length ro)%nat then slash :: ro else ro in
                clean_loop fuel rooted (2 + length ro) rest2 (dot :: dot :: ro)
              else clean_loop fuel rooted dotdot rest2 ro
          | None =>
              let ro := if (rooted && negb (length ro =? 1)%nat) || (negb rooted && negb (length ro =? 0)%nat)
                        then slash :: ro else ro in
              let '(rest', ro') := copy_component rest ro in
              clean_loop fuel rooted dotdot rest' ro'
          end
      end
  end.

Definition path_Clean (p : bytes) : bytes :=
  match p with
  | [] => [dot]
  | c :: rest =>
      let ro := if bool_decide (c = slash)
                then clean_loop (length p) true 1 rest [slash]
                else clean_loop (length p) false 0 p [] in
      match ro with [] => [dot] | _ => rev ro end
  end.

(** ** ExecCmd *)

Definition Validate (m : ExecCmd) : result unit :=
  if bool_decide (Command m = []) then Err (Errorf (str "command is required"))
  else if bool_decide (Workdir m = []) then Err (Errorf (str "workdir is required"))
  else if negb (path_IsAbs (Workdir m)) then Err (Errorf (str "workdir must be absolute"))
  else if negb (bool_decide (path_Clean (Workdir m) = Workdir m))
  then Err (Errorf (str "workdir must be clean (no . or ..)"))
  else if bool_decide (NUL ∈ Workdir m) then Err (Errorf (str "workdir contains NUL"))
  else match TimeoutMs m with
  | Some t => if t <=? 0 then Err (Errorf (str "timeout_ms must be positive")) else Ok tt
  | None => Ok tt
  end.

(** The UTF-8 encodings of the runes [unicode.IsSpace] accepts. *)
Definition space_runes : list bytes :=
  map (map byte_of)
    [[9]; [10]; [11]; [12]; [13]; [32]; [0xC2; 0x85]; [0xC2; 0xA0]; [0xE1; 0x9A; 0x80];
     [0xE2; 0x80; 0x80]; [0xE2; 0x80; 0x81]; [0xE2; 0x80; 0x82]; [0xE2; 0x80; 0x83]; [0xE2; 0x80; 0x84];
     [0xE2; 0x80; 0x85]; [0xE2; 0x80; 0x86]; [0xE2; 0x80; 0x87]; [0xE2; 0x80; 0x88]; [0xE2; 0x80; 0x89];
     [0xE2; 0x80; 0x8A]; [0xE2; 0x80; 0xA8]; [0xE2; 0x80; 0xA9]; [0xE2; 0x80; 0xAF]; [0xE2; 0x81; 0x9F];
     [0xE3; 0x80; 0x80]].

Fixpoint strip_prefix (pre s : bytes) : option bytes :=
  match pre, s with
  | [], _ => Some s
  | c :: pre, d :: s => if bool_decide (c = d) then strip_prefix pre s else None
  | _ :: _, [] => None
  end.

Fixpoint strip_any (pats : list bytes) (s : bytes) : option bytes :=
  match pats with
  | [] => None
  | p :: pats => match strip_prefix p s with Some s' => Some s' | None => strip_any pats s end
  end.

Fixpoint trim_left (fuel : nat) (pats : list bytes) (s : bytes) : bytes :=
  match fuel with
  | O => s
  | S fuel => match strip_any pats s with Some s' => trim_left fuel pats s' | None => s end
  end.

(** [bytes.TrimSpace]. *)
Definition TrimSpace (s : bytes) : bytes :=
  let s := trim_left (length s) space_runes s in
  rev (trim_left (length s) (map (@rev byte) space_runes) (rev s)).

Definition HasSpec (m : ExecCmd) : bool :=
  let s := TrimSpace (Spec m) in
  (0 <? zlen s) && negb (bool_decide (s = str "null")).

(** ** Clean absolute paths *)

Definition component (c : bytes) : Prop := c <> [] /\ (slash ∉ c) /\ c <> [dot] /\ c <> [dot; dot].

Definition abs_path (cs : list bytes) : bytes :=
  match cs with [] => [slash] | _ => concat (map (cons slash) cs) end.

Lemma copy_component_spec rest ro :
  exists c rest', rest = c ++ rest' /\ (slash ∉ c) /\ at_end rest' = true
    /\ copy_component rest ro = (rest', rev c ++ ro).
Proof.
  revert ro; induction rest as [|b rest IH]; intros ro; cbn.
  - exists [], []. split_and!; try done. apply not_elem_of_nil.
  - case_bool_decide as Hb.
    + exists [], (b :: rest). split_and!; try done; [apply not_elem_of_nil|]. cbn. by rewrite bool_decide_eq_true_2.
    + destruct (IH (b :: ro)) as (c & r & E & Hc & He & Hcopy). exists (b :: c), r. split_and!; try done.
      * cbn. by rewrite E.
      * apply not_elem_of_cons. by split.
      * rewrite Hcopy. cbn. by rewrite <- app_assoc.
Qed.

Lemma copy_component_eq c rest ro :
  slash ∉ c -> at_end rest = true -> copy_component (c ++ rest) ro = (rest, rev c ++ ro).
Proof.
  revert ro; induction c as [|b c IH]; intros ro Hc He; cbn.
  - destruct rest as [|b rest]; [done|]. cbn in *. by rewrite He.
  - apply not_elem_of_cons in Hc as [Hb Hc]. rewrite bool_decide_eq_false_2 by done. rewrite IH by done.
    by rewrite <- app_assoc.
Qed.

Lemma abs_path_snoc cs c : abs_path (cs ++ [c]) = (match cs with [] => [] | _ => abs_path cs end) ++ slash :: c.
Proof.
  destruct cs as [|b cs]; cbn; [by rewrite app_nil_r|].
  rewrite map_app, concat_app. cbn. by rewrite app_nil_r, <- app_assoc.
Qed.

Lemma length_abs_path cs : Forall component cs -> length (abs_path cs) = 1%nat <-> cs = [].
Proof.
  intros H. destruct cs as [|c cs]; [done|]. apply Forall_cons in H as [(Hc & _) _].
  split; [|done]. cbn. rewrite length_app. destruct c; [done|]. cbn. lia.
Qed.

Lemma abs_path_pos cs : (0 < length (abs_path cs))%nat.
Proof. destruct cs; cbn; lia. Qed.

Lemma pop_component_app l ro :
  slash ∉ l -> l <> [] ->
  pop_component 1 (l ++ slash :: ro) = match ro with [] => [slash] | _ => ro end.
Proof.
  induction l as [|b l IH]; intros Hl Hn; [done|]. apply not_elem_of_cons in Hl as [Hb Hl]. cbn [app pop_component].
  rewrite (bool_decide_eq_false_2 (b = slash)) by done. rewrite andb_true_r.
  destruct (decide (l = [])) as [->|Hl'].
  - cbn [app length]. destruct ro as [|b' ro]; [done|]. cbn. by rewrite andb_false_r.
  - rewrite IH by done. assert ((1 <? length (l ++ slash :: ro))%nat = true) as ->; [|done].
    apply Nat.ltb_lt. rewrite length_app. destruct l; [done|]. cbn. lia.
Qed.

Lemma pop_abs_path cs c ro :
  component c -> rev ro = abs_path (cs ++ [c]) -> rev (pop_component 1 ro) = abs_path cs.
Proof.
  intros (Hn & Hs & _) E. rewrite abs_path_snoc in E. apply (f_equal (@rev byte)) in E.
  rewrite rev_involutive, rev_app_distr in E. cbn in E. rewrite <- app_assoc in E. cbn [app] in E. subst ro.
  rewrite pop_component_app.
  - destruct cs as [|b cs]; [done|]. destruct (rev (abs_path (b :: cs))) eqn:E.
    + apply (f_equal length) in E. rewrite length_rev in E. pose proof (abs_path_pos (b :: cs)). cbn in *. lia.
    + by rewrite <- E, rev_involutive.
  - intros Hin. apply Hs. apply list_elem_of_In, in_rev, list_elem_of_In. done.
  - intros E. apply (f_equal (@rev byte)) in E. by rewrite rev_involutive in E.
Qed.

(** Whatever the rest of the path, the output stays a clean absolute path. *)
Lemma clean_loop_abs fuel rest ro cs :
  Forall component cs -> rev ro = abs_path cs ->
  exists cs', Forall component cs' /\ rev (clean_loop fuel true 1 rest ro) = abs_path cs'.
Proof.
  revert rest ro cs; induction fuel as [|fuel IH]; intros rest ro cs Hcs Ero; [by eauto|].
  destruct rest as [|b rest1]; [by eauto|]. cbn [clean_loop].
  case_bool_decide as Hb; [by apply (IH _ _ cs)|].
  destruct (bool_decide (b = dot) && at_end rest1) eqn:Hdot; [by apply (IH _ _ cs)|].
  destruct (dotdot_here (b :: rest1)) as [rest2|] eqn:Hdd.
  - destruct (1 <? length ro)%nat eqn:Hl; [|by apply (IH _ _ cs)].
    destruct cs as [|c cs _] using rev_ind.
    { apply (f_equal length) in Ero. rewrite length_rev in Ero. cbn in Ero. rewrite Ero in Hl. done. }
    apply Forall_app in Hcs as [Hcs Hc]. apply Forall_cons in Hc as [Hc _].
    apply (IH rest2 _ cs); [done|]. by apply (pop_abs_path cs c).
  - cbn [negb andb]. rewrite orb_false_r.
    set (ro1 := if negb (length ro =? 1)%nat then slash :: ro else ro).
    destruct (copy_component_spec (b :: rest1) ro1) as (c & r & E & Hc & He & ->).
    apply (IH r _ (cs ++ [c])).
    + apply Forall_app. split; [done|]. constructor; [|done]. split_and!; try done.
      * intros ->. cbn in E. subst r. cbn in He. rewrite bool_decide_eq_true in He. done.
      * intros ->. injection E as -> ->. by rewrite He, bool_decide_eq_true_2 in Hdot.
      * intros ->. injection E as -> ->. cbn in Hdd. by rewrite He, bool_decide_eq_true_2 in Hdd.
    + rewrite rev_app_distr, rev_involutive, abs_path_snoc. subst ro1.
      pose proof (length_abs_path cs Hcs) as Hlen. rewrite <- Ero, length_rev in Hlen.
      destruct (Nat.eqb_spec (length ro) 1) as [H1|H1]; cbn [negb].
      * apply Hlen in H1 as ->. rewrite Ero. done.
      * destruct cs; [by destruct H1; apply Hlen|]. cbn [rev]. by rewrite Ero, <- app_assoc.
Qed.

(** A clean absolute path is a fixed point. *)
Lemma clean_loop_fixed cs : forall fuel ds ro,
  Forall component (ds ++ cs) -> rev ro = abs_path ds -> cs <> [] ->
  (length (concat (map (cons slash) cs)) <= fuel)%nat ->
  rev (clean_loop fuel true 1 (drop 1 (concat (map (cons slash) cs))) ro) = abs_path (ds ++ cs).
Proof.
  induction cs as [|c cs IH]; intros fuel ds ro Hcs Ero Hne Hfuel; [done|].
  pose proof Hcs as Hcs'. apply Forall_app in Hcs' as [Hds Hc]. apply Forall_cons in Hc as [Hc Hcs1].
  destruct Hc as (Hn & Hs & Hd1 & Hd2). cbn in Hfuel. rewrite length_app in Hfuel. cbn [map concat app drop].
  rewrite drop_0. set (tl := concat (map (cons slash) cs)) in *.
  assert (at_end tl = true) as Htl by (subst tl; destruct cs; cbn; [done|]; by rewrite bool_decide_eq_true_2).
  destruct c as [|b c]; [done|]. cbn in Hfuel. destruct fuel as [|fuel]; [lia|].
  cbn [app clean_loop]. apply not_elem_of_cons in Hs as Hs'. destruct Hs' as [Hb Hs'].
  rewrite (bool_decide_eq_false_2 (b = slash)) by done.
  assert (bool_decide (b = dot) && at_end (c ++ tl) = false) as ->.
  { destruct (bool_decide_reflect (b = dot)) as [->|]; [|done]. destruct c as [|b' c]; [done|]. cbn.
    apply bool_decide_eq_false_2. apply not_elem_of_cons in Hs' as [? _]. done. }
  assert (dotdot_here (b :: c ++ tl) = None) as ->.
  { destruct c as [|b' c]; cbn.
    - destruct tl as [|b' tl']; [done|]. cbn in Htl. rewrite bool_decide_eq_true in Htl. subst b'.
      by rewrite andb_false_r.
    - destruct (bool_decide_reflect (b = dot)) as [->|]; [|done].
      destruct (bool_decide_reflect (b' = dot)) as [->|]; [|done]. destruct c as [|b' c]; [done|]. cbn.
      rewrite bool_decide_eq_false_2; [done|].
      apply not_elem_of_cons in Hs' as [_ Hs']. apply not_elem_of_cons in Hs' as [? _]. done. }
  cbn [negb andb]. rewrite orb_false_r.
  set (ro1 := if negb (length ro =? 1)%nat then slash :: ro else ro).
  change (b :: c ++ tl) with ((b :: c) ++ tl). rewrite copy_component_eq by done.
  assert (rev (rev (b :: c) ++ ro1) = abs_path (ds ++ [b :: c])) as Ero1.
  { rewrite rev_app_distr, rev_involutive, abs_path_snoc. subst ro1.
    pose proof (length_abs_path ds Hds) as Hlen. rewrite <- Ero, length_rev in Hlen.
    destruct (Nat.eqb_spec (length ro) 1) as [H1|H1]; cbn [negb].
    - apply Hlen in H1 as ->. by rewrite Ero.
    - destruct ds; [by destruct H1; apply Hlen|]. cbn [rev]. by rewrite Ero, <- app_assoc. }
  destruct (decide (cs = [])) as [->|Hcs2].
  - subst tl. destruct fuel; cbn [map concat clean_loop]; done.
  - assert (tl = slash :: drop 1 tl) as Etl by (subst tl; by destruct cs).
    assert (length tl <= fuel)%nat as Hf by lia. 
    destruct fuel as [|fuel]; [rewrite Etl in Hf; cbn in Hf; lia|]. rewrite Etl at 1. cbn [clean_loop].
    rewrite bool_decide_eq_true_2 by done. subst tl.
    rewrite (IH fuel (ds ++ [b :: c])); rewrite <- ?app_assoc; try done. lia.
Qed.

(** The fixed points of [path.Clean] among absolute paths. *)
Lemma path_Clean_fixed p :
  path_IsAbs p = true -> path_Clean p = p <-> exists cs, Forall component cs /\ p = abs_path cs.
Proof.
  intros Habs. destruct p as [|b rest]; [done|]. cbn in Habs. rewrite bool_decide_eq_true in Habs. subst b.
  assert (path_Clean (slash :: rest) = rev (clean_loop (length (slash :: rest)) true 1 rest [slash])) as ->.
  { unfold path_Clean. rewrite bool_decide_eq_true_2 by done.
    destruct (clean_loop_abs (length (slash :: rest)) rest [slash] []) as (cs & _ & E); [done..|].
    destruct (clean_loop _ _ _ _ _); [|done]. pose proof (abs_path_pos cs). rewrite <- E in *. cbn in *. lia. }
  split.
  - intros E. destruct (clean_loop_abs (length (slash :: rest)) rest [slash] []) as (cs & Hcs & E'); [done..|].
    exists cs. split; [done|]. by rewrite <- E, E'.
  - intros (cs & Hcs & E). destruct (decide (cs = [])) as [->|Hne]; [by injection E as ->|].
    assert (slash :: rest = concat (map (cons slash) cs)) as E' by (rewrite E; by destruct cs).
    rewrite E'. replace rest with (drop 1 (concat (map (cons slash) cs))) by (by rewrite <- E').
    rewrite (clean_loop_fixed cs _ []); try done. by destruct cs.
Qed.

(** ** Theorems *)

(** C34: [Validate] accepts exactly the commands with a non-empty command, a
    working directory that is "/" or a "/"-joined sequence of non-empty
    components none of which is "." or ".." or holds a NUL, and no timeout
    or a positive one. *)
Theorem Validate_spec (m : ExecCmd) :
  Validate m = Ok tt <->
  Command m <> []
  /\ (exists cs, Forall component cs /\ Workdir m = abs_path cs)
  /\ (NUL ∉ Workdir m)
  /\ (forall t, TimeoutMs m = Some t -> 0 < t).
Proof.
  unfold Validate. case_bool_decide as Hc; [split; [done|]; by intros [? _]|].
  assert ((exists cs, Forall component cs /\ Workdir m = abs_path cs) ->
    Workdir m <> [] /\ path_IsAbs (Workdir m) = true) as Habs.
  { intros (cs & _ & ->). destruct cs; cbn; by rewrite bool_decide_eq_true_2. }
  case_bool_decide as Hw; [split; [done|]; by intros (_ & [? _]%Habs & _)|].
  destruct (path_IsAbs (Workdir m)) eqn:Ea; [|split; [done|]; by intros (_ & [_ ?]%Habs & _)]. cbn [negb].
  pose proof (path_Clean_fixed (Workdir m) Ea) as Hfix.
  case_bool_decide as Hcl; cbn [negb]; [|split; [done|]; by intros (_ & ?%Hfix & _)].
  case_bool_decide as Hn; [split; [done|]; by intros (_ & _ & ? & _)|].
  destruct (TimeoutMs m) as [t|].
  - destruct (Z.leb_spec t 0); (split; [done || intros _|]).
    + intros (_ & _ & _ & Ht). specialize (Ht t eq_refl). lia.
    + split_and!; [done|by apply Hfix|done|]. intros t' [= <-]. lia.
    + done.
  - split; [intros _|done]. split_and!; [done|by apply Hfix|done|done].
Qed.

Lemma dotdot_here_length rest rest2 : dotdot_here rest = Some rest2 -> (length rest2 < length rest)%nat.
Proof. destruct rest as [|c [|c2 r]]; cbn; try done. case_match; [|done]. intros [= <-]. lia. Qed.

(** The loop of [path.Clean] terminates within as many rounds as the path
    has bytes: any larger fuel gives the same output, so the fuel given by
    [path_Clean] never cuts a path short. *)
Theorem path_Clean_terminates (rooted : bool) (f1 f2 dotdot : nat) (rest ro : bytes)
    (H1 : (length rest <= f1)%nat) (H2 : (length rest <= f2)%nat) :
  clean_loop f1 rooted dotdot rest ro = clean_loop f2 rooted dotdot rest ro.
Proof.
  revert f2 dotdot rest ro H1 H2. induction f1 as [|f1 IH]; intros f2 dotdot rest ro H1 H2.
  - destruct rest; [|cbn in H1; lia]. by destruct f2.
  - destruct rest as [|c rest]; [by destruct f2|]. destruct f2 as [|f2]; [cbn in H2; lia|].
    cbn in H1, H2. cbn [clean_loop]. case_bool_decide as Hc; [apply IH; lia|].
    case_match; [apply IH; lia|].
    destruct (dotdot_here (c :: rest)) as [rest2|] eqn:Hd.
    + apply dotdot_here_length in Hd. cbn in Hd. repeat case_match; apply IH; lia.
    + match goal with |- context [copy_component _ ?o] => set (ro1 := o) end. destruct (copy_component_spec (c :: rest) ro1) as (x & r & E & _ & He & ->).
      apply (f_equal length) in E as El. rewrite length_app in El. cbn in El.
      destruct x as [|b x]; [|cbn in El; apply IH; lia].
      cbn in E. subst r. cbn in He. by rewrite bool_decide_eq_true in He.
Qed.

Lemma path_Clean_terminates_witness :
  clean_loop 12 true 1 (str "a/./b/../c") [slash] = clean_loop 100 true 1 (str "a/./b/../c") [slash].
Proof. apply (path_Clean_terminates true 12 100 1 (str "a/./b/../c") [slash]); cbn; lia. Defined.
