(* ===== verification/Registry.v ===== *)
(** * The message registry: [protocol/message.go] and the [init] functions

    The registry after every package's [init] ran, as one dispatch on the type
    byte over the sum of all messages.  Proved against the codec interface:
    what its instances marshal decodes to itself under its own type byte; HELLO,
    HEARTBEAT and EXEC join in [ExecJson.v]. *)
From Stdlib Require Import ZArith Lia.
From stdpp Require Import base list gmap strings.
From S2P Require Import Prelude GoIO Wire Frame Hello Codec MsgApp Messages Heartbeat Exec.

Open Scope Z_scope.

(** Every type that implements the [Message] interface. *)
Inductive Message :=
  | MHello (m : Hello)
  | MPing (m : PingMsg) | MPong (m : PongMsg)
  | MShutdown (m : ShutdownMsg) | MShutdownAck (m : ShutdownAckMsg)
  | MGetStatus (m : GetStatusMsg) | MStatus (m : StatusMsg) | MHeartbeat (m : HeartbeatMsg)
  | MExecCmd (m : ExecCmd) | MExecStream (m : ExecStream) | MExecResult (m : ExecResult)
  | MXferInit (m : XferInit) | MXferChunk (m : XferChunk) | MXferDone (m : XferDone)
  | MToolCall (m : ToolCall) | MToolResult (m : ToolResult)
  | MListTools (m : ListToolsMsg) | MListToolsResult (m : ListToolsResult)
  | MSyncFilesystems (m : SyncFilesystemsMsg) | MSyncFilesystemsAck (m : SyncFilesystemsAckMsg)
  | MAppOpen (m : AppOpen) | MAppAccept (m : AppAccept) | MAppReject (m : AppReject)
  | MAppData (m : AppData) | MAppCredit (m : AppCredit) | MAppClose (m : AppClose)
  | MAppReset (m : AppReset)
  | MEventReady (m : EventReady) | MEventFileReceived (m : EventFileReceived)
  | MEventMount (m : EventMount) | MEventError (m : EventErrorMsg)
  | MEventLog (m : EventLog) | MEventInitFailed (m : EventInitFailed)
  | MStarted (m : StartedMsg) | MError (m : ErrorMsg).

(** [fn(r)] with its result boxed as a [Message]. *)
Definition boxed {A} (box : A -> Message) (m : M Reader A) : M Reader Message :=
  x ← m; mret (box x).

(** The decoder hello.go registers. *)
Definition Hello_decode : M Reader Hello := decode_all read_hello.

Section Registry.

(** [ExecCmd.UnmarshalBinary] into a new command: the JSON decoding of an EXEC
    body, given in [ExecJson.v]. *)
Variable ExecCmd_UnmarshalBinary : bytes -> result ExecCmd.

Definition ExecCmd_decode : M Reader ExecCmd :=
  data ← errw "exec: read body: " ReadAll;
  lift (ExecCmd_UnmarshalBinary data).

(** [decodeRegistry], as filled by the [init] functions. *)
Definition decodeRegistry (typ : Z) : option (M Reader Message) :=
  if typ =? TypeHELLO then Some (boxed MHello Hello_decode)
  else if typ =? TypePING then Some (boxed MPing decode)
  else if typ =? TypePONG then Some (boxed MPong decode)
  else if typ =? TypeSHUTDOWN then Some (boxed MShutdown decode)
  else if typ =? TypeSHUTDOWNACK then Some (boxed MShutdownAck decode)
  else if typ =? TypeGETSTATUS then Some (boxed MGetStatus decode)
  else if typ =? TypeSTATUS then Some (boxed MStatus decode)
  else if typ =? TypeHEARTBEAT then Some (boxed MHeartbeat Heartbeat_decode)
  else if typ =? TypeEXEC then Some (boxed MExecCmd ExecCmd_decode)
  else if typ =? TypeEXECSTREAM then Some (boxed MExecStream decode)
  else if typ =? TypeEXECRESULT then Some (boxed MExecResult decode)
  else if typ =? TypeXFERINIT then Some (boxed MXferInit decode)
  else if typ =? TypeXFERCHUNK then Some (boxed MXferChunk decode)
  else if typ =? TypeXFERDONE then Some (boxed MXferDone decode)
  else if typ =? TypeTOOLCALL then Some (boxed MToolCall decode)
  else if typ =? TypeTOOLRESULT then Some (boxed MToolResult decode)
  else if typ =? TypeLISTTOOLS then Some (boxed MListTools decode)
  else if typ =? TypeLISTTOOLSRESULT then Some (boxed MListToolsResult decode)
  else if typ =? TypeSYNCFILESYSTEMS then Some (boxed MSyncFilesystems decode)
  else if typ =? TypeSYNCFILESYSTEMSACK then Some (boxed MSyncFilesystemsAck decode)
  else if typ =? TypeAPPOPEN then Some (boxed MAppOpen decode)
  else if typ =? TypeAPPACCEPT then Some (boxed MAppAccept decode)
  else if typ =? TypeAPPREJECT then Some (boxed MAppReject decode)
  else if typ =? TypeAPPDATA then Some (boxed MAppData decode)
  else if typ =? TypeAPPCREDIT then Some (boxed MAppCredit decode)
  else if typ =? TypeAPPCLOSE then Some (boxed MAppClose decode)
  else if typ =? TypeAPPRESET then Some (boxed MAppReset decode)
  else if typ =? TypeEVENTREADY then Some (boxed MEventReady decode)
  else if typ =? TypeEVENTFILERECEIVED then Some (boxed MEventFileReceived decode)
  else if typ =? TypeEVENTMOUNT then Some (boxed MEventMount decode)
  else if typ =? TypeEVENTERROR then Some (boxed MEventError decode)
  else if typ =? TypeEVENTLOG then Some (boxed MEventLog decode)
  else if typ =? TypeEVENTINITFAILED then Some (boxed MEventInitFailed decode)
  else if typ =? TypeSTARTED then Some (boxed MStarted decode)
  else if typ =? TypeERROR then Some (boxed MError decode)
  else None.

Definition DecodeMessage (typ : Z) : M Reader Message :=
  match decodeRegistry typ with
  | None => fail (Errorf (str "mvcp: unknown message type 0x" ++ fmt_02X typ))
  | Some fn => fn
  end.

Definition DecodeMessageBody (typ : Z) (body : bytes) : result Message :=
  from_bytes (DecodeMessage typ) body.

(** The type byte each message is registered and sent under. *)
Definition message_type (m : Message) : Z :=
  match m with
  | MHello _ => TypeHELLO | MPing _ => TypePING | MPong _ => TypePONG
  | MShutdown _ => TypeSHUTDOWN | MShutdownAck _ => TypeSHUTDOWNACK
  | MGetStatus _ => TypeGETSTATUS | MStatus _ => TypeSTATUS | MHeartbeat _ => TypeHEARTBEAT
  | MExecCmd _ => TypeEXEC | MExecStream _ => TypeEXECSTREAM | MExecResult _ => TypeEXECRESULT
  | MXferInit _ => TypeXFERINIT | MXferChunk _ => TypeXFERCHUNK | MXferDone _ => TypeXFERDONE
  | MToolCall _ => TypeTOOLCALL | MToolResult _ => TypeTOOLRESULT
  | MListTools _ => TypeLISTTOOLS | MListToolsResult _ => TypeLISTTOOLSRESULT
  | MSyncFilesystems _ => TypeSYNCFILESYSTEMS | MSyncFilesystemsAck _ => TypeSYNCFILESYSTEMSACK
  | MAppOpen _ => TypeAPPOPEN | MAppAccept _ => TypeAPPACCEPT | MAppReject _ => TypeAPPREJECT
  | MAppData _ => TypeAPPDATA | MAppCredit _ => TypeAPPCREDIT | MAppClose _ => TypeAPPCLOSE
  | MAppReset _ => TypeAPPRESET
  | MEventReady _ => TypeEVENTREADY | MEventFileReceived _ => TypeEVENTFILERECEIVED
  | MEventMount _ => TypeEVENTMOUNT | MEventError _ => TypeEVENTERROR
  | MEventLog _ => TypeEVENTLOG | MEventInitFailed _ => TypeEVENTINITFAILED
  | MStarted _ => TypeSTARTED | MError _ => TypeERROR
  end.

(** [m.MarshalBinary()] and the carried values, for the messages covered by
    [CodecLaws]; [None] for HELLO (whose decoder returns the sorted HELLO),
    HEARTBEAT and EXEC, which have decoders of their own. *)
Definition lawful (m : Message) : option (result bytes * bool) :=
  match m with
  | MHello _ | MHeartbeat _ | MExecCmd _ => None
  | MPing m => Some (MarshalBinary m, carries m) | MPong m => Some (MarshalBinary m, carries m)
  | MShutdown m => Some (MarshalBinary m, carries m) | MShutdownAck m => Some (MarshalBinary m, carries m)
  | MGetStatus m => Some (MarshalBinary m, carries m) | MStatus m => Some (MarshalBinary m, carries m)
  | MExecStream m => Some (MarshalBinary m, carries m) | MExecResult m => Some (MarshalBinary m, carries m)
  | MXferInit m => Some (MarshalBinary m, carries m) | MXferChunk m => Some (MarshalBinary m, carries m)
  | MXferDone m => Some (MarshalBinary m, carries m)
  | MToolCall m => Some (MarshalBinary m, carries m) | MToolResult m => Some (MarshalBinary m, carries m)
  | MListTools m => Some (MarshalBinary m, carries m) | MListToolsResult m => Some (MarshalBinary m, carries m)
  | MSyncFilesystems m => Some (MarshalBinary m, carries m)
  | MSyncFilesystemsAck m => Some (MarshalBinary m, carries m)
  | MAppOpen m => Some (MarshalBinary m, carries m) | MAppAccept m => Some (MarshalBinary m, carries m)
  | MAppReject m => Some (MarshalBinary m, carries m) | MAppData m => Some (MarshalBinary m, carries m)
  | MAppCredit m => Some (MarshalBinary m, carries m) | MAppClose m => Some (MarshalBinary m, carries m)
  | MAppReset m => Some (MarshalBinary m, carries m)
  | MEventReady m => Some (MarshalBinary m, carries m)
  | MEventFileReceived m => Some (MarshalBinary m, carries m)
  | MEventMount m => Some (MarshalBinary m, carries m) | MEventError m => Some (MarshalBinary m, carries m)
  | MEventLog m => Some (MarshalBinary m, carries m) | MEventInitFailed m => Some (MarshalBinary m, carries m)
  | MStarted m => Some (MarshalBinary m, carries m) | MError m => Some (MarshalBinary m, carries m)
  end.

Lemma boxed_roundtrip {A} `{CodecLaws A} (box : A -> Message) (m : A) r :
  Some (MarshalBinary m, carries m) = Some (r, true) ->
  exists body, r = Ok body /\ from_bytes (boxed box decode) body = Ok (box m).
Proof.
  intros [= <- Hc]. exists (encoding m). split; [by apply marshal_encoding|].
  pose proof (decode_encoding m Hc) as Hd. unfold from_bytes, boxed in *. rewrite bind_unfold.
  destruct (decode (NewReader (encoding m))) as [res r']. simpl in Hd. by rewrite Hd.
Qed.

(** The messages covered by the codec interface decode to themselves; the
    whole registry is taken up in [ExecJson.v]. *)
Lemma lawful_roundtrip (m : Message) (r : result bytes) :
  lawful m = Some (r, true) -> exists body, r = Ok body /\ DecodeMessageBody (message_type m) body = Ok m.
Proof.
  intros H. unfold DecodeMessageBody.
  destruct m; try discriminate H; exact (boxed_roundtrip _ _ _ H).
Qed.

Lemma HELLO_registered body : DecodeMessageBody TypeHELLO body =
  match Hello_UnmarshalBinary body with Ok h => Ok (MHello h) | Err e => Err e end.
Proof.
  unfold DecodeMessageBody, DecodeMessage, decodeRegistry. cbn [Z.eqb TypeHELLO].
  unfold boxed, Hello_decode, from_bytes, decode_all. rewrite bind_unfold.
  change ((ReadAll ≫= fun data => lift (from_bytes read_hello data)) (NewReader body))
    with (Hello_UnmarshalBinary body, mkReader [] io_EOF).
  by destruct (Hello_UnmarshalBinary body).
Qed.

Lemma HEARTBEAT_registered body : DecodeMessageBody TypeHEARTBEAT body =
  match from_bytes Heartbeat_decode body with Ok h => Ok (MHeartbeat h) | Err e => Err e end.
Proof.
  change (DecodeMessageBody TypeHEARTBEAT body) with (from_bytes (boxed MHeartbeat Heartbeat_decode) body).
  unfold boxed, from_bytes. rewrite bind_unfold. by destruct (Heartbeat_decode (NewReader body)) as [[]].
Qed.

Lemma EXEC_registered body : DecodeMessageBody TypeEXEC body =
  match ExecCmd_UnmarshalBinary body with Ok m => Ok (MExecCmd m) | Err e => Err e end.
Proof.
  change (DecodeMessageBody TypeEXEC body) with (from_bytes (boxed MExecCmd ExecCmd_decode) body).
  unfold boxed, ExecCmd_decode, from_bytes. rewrite bind_unfold.
  change ((errw "exec: read body: " ReadAll ≫= fun data => lift (ExecCmd_UnmarshalBinary data)) (NewReader body))
    with (ExecCmd_UnmarshalBinary body, mkReader [] io_EOF).
  by destruct (ExecCmd_UnmarshalBinary body).
Qed.

(** A type byte outside the registry is refused without reading the body. *)
Theorem DecodeMessage_unknown (typ : Z) (r : Reader)
    (H : ~ typ ∈ [TypeHELLO; TypePING; TypePONG; TypeSHUTDOWN; TypeSHUTDOWNACK; TypeGETSTATUS;
      TypeSTATUS; TypeHEARTBEAT; TypeEXEC; TypeEXECSTREAM; TypeEXECRESULT; TypeXFERINIT;
      TypeXFERCHUNK; TypeXFERDONE; TypeTOOLCALL; TypeTOOLRESULT; TypeLISTTOOLS;
      TypeLISTTOOLSRESULT; TypeSYNCFILESYSTEMS; TypeSYNCFILESYSTEMSACK; TypeAPPOPEN;
      TypeAPPACCEPT; TypeAPPREJECT; TypeAPPDATA; TypeAPPCREDIT; TypeAPPCLOSE; TypeAPPRESET;
      TypeEVENTREADY; TypeEVENTFILERECEIVED; TypeEVENTMOUNT; TypeEVENTERROR; TypeEVENTLOG;
      TypeEVENTINITFAILED; TypeSTARTED; TypeERROR]) :
  DecodeMessage typ r = (Err (Errorf (str "mvcp: unknown message type 0x" ++ fmt_02X typ)), r).
Proof.
  unfold DecodeMessage, decodeRegistry.
  repeat (apply not_elem_of_cons in H as [Hne H]; rewrite (proj2 (Z.eqb_neq _ _) Hne); clear Hne).
  done.
Qed.

Lemma boxed_inv {A} (box : A -> Message) (m : M Reader A) body x :
  from_bytes (boxed box m) body = Ok x -> exists y, x = box y /\ from_bytes m body = Ok y.
Proof.
  unfold from_bytes, boxed. rewrite bind_unfold. destruct (m (NewReader body)) as [[y|e] r']; cbn; [|done].
  intros [= <-]. eauto.
Qed.

(** The only decoder that yields a message of a type is that type's. *)
Ltac one_decoder :=
  unfold DecodeMessageBody, DecodeMessage, decodeRegistry;
  repeat (match goal with |- context [if ?b then _ else _] => destruct b end;
    [let y := fresh "y" in let E := fresh "E" in let H := fresh "H" in
     intros H; apply boxed_inv in H as (y & E & H); first [discriminate E | injection E as ->; exact H]|]);
  done.

Lemma DecodeMessageBody_accept typ body m :
  DecodeMessageBody typ body = Ok (MAppAccept m) -> UnmarshalBinary body = Ok m.
Proof. one_decoder. Qed.

Lemma DecodeMessageBody_open typ body m :
  DecodeMessageBody typ body = Ok (MAppOpen m) -> UnmarshalBinary body = Ok m.
Proof. one_decoder. Qed.

(** A message comes from its own type byte. *)
Ltac one_type :=
  unfold DecodeMessageBody, DecodeMessage, decodeRegistry;
  repeat (match goal with |- context [if (?t =? ?T) then _ else _] => destruct (Z.eqb_spec t T) as [->|_] end;
    [let y := fresh "y" in let E := fresh "E" in let H := fresh "H" in
     intros H; apply boxed_inv in H as (y & E & H); first [discriminate E | reflexivity]|]);
  done.

Lemma DecodeMessageBody_open_type typ body m : DecodeMessageBody typ body = Ok (MAppOpen m) -> typ = TypeAPPOPEN.
Proof. one_type. Qed.

Lemma DecodeMessageBody_data_type typ body m : DecodeMessageBody typ body = Ok (MAppData m) -> typ = TypeAPPDATA.
Proof. one_type. Qed.

End Registry.

Lemma DecodeMessage_unknown_witness :
  DecodeMessage (fun _ => Err io_EOF) 0xFF (NewReader (str "x"))
  = (Err (Errorf (str "mvcp: unknown message type 0xFF")), NewReader (str "x")).
Proof.
  apply (DecodeMessage_unknown (fun _ => Err io_EOF) 0xFF (NewReader (str "x"))).
  apply (bool_decide_unpack _). vm_compute. exact I.
Defined.
