(* ===== verification/Json.v ===== *)
(** * What exec.go uses of [encoding/json]

    The scanner of the package: a state machine fed one byte at a time, with a
    stack of the objects and arrays it is inside; [read_value] runs it to the
    end of one value, as [Decoder.readValue] does.  String literals in both
    directions, over the runes of a Go string: [appendString] with HTML
    escaping, and [unquote].  [compact] is what the encoder does to a
    [RawMessage]. *)
From Stdlib Require Import ZArith Lia Strings.Byte.
From stdpp Require Import base list strings pretty.
From S2P Require Import Prelude GoIO.

Open Scope Z_scope.
Open Scope byte_scope.

(** Comparison of bytes, as the source's switches do. *)
Declare Scope json_scope.
Delimit Scope json_scope with json.
Notation "a == b" := (bool_decide (a = b)) (at level 70, no associativity) : json_scope.
Open Scope json_scope.

(** ** Runes

    [utf8.DecodeRune] along a string: the valid encodings in it, and the bytes
    that start none. *)

Definition between (lo hi : Z) (b : byte) : bool := (lo <=? byte_val b) && (byte_val b <=? hi).

Definition cont (b : byte) : bool := between 0x80 0xBF b.

(** The second byte a first byte allows (the [first] and [acceptRanges] tables). *)
Definition second_ok (b0 b1 : byte) : bool :=
  if between 0xE0 0xE0 b0 then between 0xA0 0xBF b1
  else if between 0xED 0xED b0 then between 0x80 0x9F b1
  else if between 0xF0 0xF0 b0 then between 0x90 0xBF b1
  else if between 0xF4 0xF4 b0 then between 0x80 0x8F b1
  else cont b1.

Definition ascii (b : byte) : bool := byte_val b <? 0x80.

Definition rune2 (b0 b1 : byte) : bool := between 0xC2 0xDF b0 && cont b1.
Definition rune3 (b0 b1 b2 : byte) : bool := between 0xE0 0xEF b0 && second_ok b0 b1 && cont b2.
Definition rune4 (b0 b1 b2 b3 : byte) : bool := between 0xF0 0xF4 b0 && second_ok b0 b1 && cont b2 && cont b3.

(** A rune of a string, by its encoding, or a byte that is none
    ([RuneError] with size 1). *)
Inductive rune := Rune (enc : bytes) | BadByte (b : byte).

Fixpoint runes (s : bytes) : list rune :=
  match s with
  | [] => []
  | b0 :: s1 =>
      if ascii b0 then Rune [b0] :: runes s1
      else match s1 with
      | [] => BadByte b0 :: runes s1
      | b1 :: s2 =>
          if rune2 b0 b1 then Rune [b0; b1] :: runes s2
          else match s2 with
          | [] => BadByte b0 :: runes s1
          | b2 :: s3 =>
              if rune3 b0 b1 b2 then Rune [b0; b1; b2] :: runes s3
              else match s3 with
              | [] => BadByte b0 :: runes s1
              | b3 :: s4 => if rune4 b0 b1 b2 b3 then Rune [b0; b1; b2; b3] :: runes s4 else BadByte b0 :: runes s1
              end
          end
      end
  end.

(** U+FFFD. *)
Definition replacement : bytes := [xef; xbf; xbd].

Definition rune_bytes (r : rune) : bytes := match r with Rune e => e | BadByte _ => replacement end.

(** [strings.ToValidUTF8(s, "\uFFFD")], bad byte by bad byte. *)
Definition to_valid (s : bytes) : bytes := concat (rune_bytes <$> runes s).

(** [utf8.ValidString]. *)
Definition valid_utf8 (s : bytes) : bool := forallb (fun r => match r with Rune _ => true | BadByte _ => false end) (runes s).

(** [utf8.AppendRune] for a rune that is no surrogate. *)
Definition encode_rune (r : Z) : bytes :=
  if r <? 0x80 then [byte_of r]
  else if r <? 0x800 then [byte_of (0xC0 + Z.shiftr r 6); byte_of (0x80 + Z.land r 0x3F)]
  else if r <? 0x10000 then
    [byte_of (0xE0 + Z.shiftr r 12); byte_of (0x80 + Z.land (Z.shiftr r 6) 0x3F); byte_of (0x80 + Z.land r 0x3F)]
  else
    [byte_of (0xF0 + Z.shiftr r 18); byte_of (0x80 + Z.land (Z.shiftr r 12) 0x3F);
     byte_of (0x80 + Z.land (Z.shiftr r 6) 0x3F); byte_of (0x80 + Z.land r 0x3F)].

(** ** String literals *)

(** [appendString] with [escapeHTML]: one rune of the string. *)
Definition hex_lower (z : Z) : byte := byte_of (if z <? 10 then 48 + z else 87 + z).

Definition html_safe (b : byte) : bool :=
  between 0x20 0x7F b && negb (bool_decide (b ∈ [x22; x26; x3c; x3e; x5c])).

Definition u_escape (z : Z) : bytes :=
  [x5c; "u"; hex_lower (Z.shiftr z 12 mod 16); hex_lower (Z.shiftr z 8 mod 16); hex_lower (Z.shiftr z 4 mod 16); hex_lower (z mod 16)].

Definition quote_byte (b : byte) : bytes :=
  if html_safe b then [b]
  else if (b == x5c) || (b == x22) then [x5c; b]
  else if b == x08 then [x5c; "b"]
  else if b == x0c then [x5c; "f"]
  else if b == x0a then [x5c; "n"]
  else if b == x0d then [x5c; "r"]
  else if b == x09 then [x5c; "t"]
  else u_escape (byte_val b).

Definition quote_rune (r : rune) : bytes :=
  match r with
  | Rune [b] => quote_byte b
  | Rune e => if e == [xe2; x80; xa8] then u_escape 0x2028 else if e == [xe2; x80; xa9] then u_escape 0x2029 else e
  | BadByte _ => u_escape 0xFFFD
  end.

Definition quote (s : bytes) : bytes := [x22] ++ concat (quote_rune <$> runes s) ++ [x22].

(** A rune that is one byte. *)
Definition lit (r : rune) : option byte := match r with Rune [b] => Some b | _ => None end.

(** [getu4]: four hex digits. *)
Definition hex_val (b : byte) : option Z :=
  if between 48 57 b then Some (byte_val b - 48)
  else if between 97 102 b then Some (byte_val b - 87)
  else if between 65 70 b then Some (byte_val b - 55)
  else None.

Arguments hex_val : simpl never.
Arguments hex_lower : simpl never.

Definition hex4 (ra rb rc rd : rune) : option Z :=
  a ← lit ra ≫= hex_val; b ← lit rb ≫= hex_val; c ← lit rc ≫= hex_val; d ← lit rd ≫= hex_val;
  Some (a * 4096 + b * 256 + c * 16 + d).

Definition surrogate (r : Z) : bool := (0xD800 <=? r) && (r <? 0xE000).

(** [utf16.DecodeRune] of two halves. *)
Definition pair_rune (r1 r2 : Z) : option Z :=
  if (0xD800 <=? r1) && (r1 <? 0xDC00) && (0xDC00 <=? r2) && (r2 <? 0xE000)
  then Some ((r1 - 0xD800) * 1024 + (r2 - 0xDC00) + 0x10000) else None.

(** The character a one-letter escape stands for. *)
Definition unescape (c : byte) : option byte :=
  if (c == x22) || (c == x5c) || (c == x2f) || (c == x27) then Some c
  else if c == "b" then Some x08
  else if c == "f" then Some x0c
  else if c == "n" then Some x0a
  else if c == "r" then Some x0d
  else if c == "t" then Some x09
  else None.

(** The rune of an escape [\u] whose low half, if it is a surrogate, follows
    as the runes [q1 .. q6]. *)
Definition low_half (r : Z) (q1 q2 q3 q4 q5 q6 : rune) : option Z :=
  if (lit q1 == Some x5c) && (lit q2 == Some "u") then hex4 q3 q4 q5 q6 ≫= pair_rune r else None.

(** [unquote] on the runes between the quotes; [None] where the source fails. *)
Fixpoint unquote_runes (rs : list rune) : option bytes :=
  match rs with
  | [] => Some []
  | BadByte _ :: rest => (replacement ++.) <$> unquote_runes rest
  | Rune [b] :: rest1 =>
      if b == x5c then
        match rest1 with
        | [] => None
        | r1 :: rest2 =>
            match lit r1 with
            | None => None
            | Some e =>
                if e == "u" then
                  match rest2 with
                  | ra :: rb :: rc :: rd :: rest =>
                      match hex4 ra rb rc rd with
                      | None => None
                      | Some r =>
                          if surrogate r then
                            match rest with
                            | q1 :: q2 :: q3 :: q4 :: q5 :: q6 :: rest' =>
                                match low_half r q1 q2 q3 q4 q5 q6 with
                                | Some r' => (encode_rune r' ++.) <$> unquote_runes rest'
                                | None => (replacement ++.) <$> unquote_runes rest
                                end
                            | _ => (replacement ++.) <$> unquote_runes rest
                            end
                          else (encode_rune r ++.) <$> unquote_runes rest
                      end
                  | _ => None
                  end
                else match unescape e with Some b => (b ::.) <$> unquote_runes rest2 | None => None end
            end
        end
      else if (b == x22) || (byte_val b <? 0x20) then None
      else (b ::.) <$> unquote_runes rest1
  | Rune e :: rest => (e ++.) <$> unquote_runes rest
  end.

(** The literal with its quotes. *)
Definition unquote (l : bytes) : option bytes :=
  match l with
  | c :: s =>
      match rev s with
      | d :: s => if (c == x22) && (d == x22) then unquote_runes (runes (rev s)) else None
      | [] => None
      end
  | [] => None
  end.

(** ** The scanner *)

Inductive parse_state := parseObjectKey | parseObjectValue | parseArrayValue.

(** The [step] functions; [InLit l] is inside true, false or null with [l]
    to come. *)
Inductive scan_state :=
  | BeginValue | BeginValueOrEmpty | BeginStringOrEmpty | BeginString | EndValue | EndTop
  | InString | InStringEsc | InStringEscU (n : nat)
  | Neg | State1 | State0 | Dot | Dot0 | ExpE | ESign | E0
  | InLit (l : bytes).

Inductive scan_op := scanContinue | scanEndComposite | scanSkipSpace | scanEnd | scanError.

Record scanner := mkScanner { sc_step : scan_state; sc_stack : list parse_state }.

Definition isSpace (c : byte) : bool := bool_decide (c ∈ [x20; x09; x0d; x0a]).
Definition digit (c : byte) : bool := between 48 57 c.
Definition maxNestingDepth : Z := 10000.

Definition goto (st : scan_state) (k : list parse_state) (op : scan_op) : scanner * scan_op := (mkScanner st k, op).
Definition scan_fail (k : list parse_state) : scanner * scan_op := (mkScanner EndTop k, scanError).

(** [pushParseState]. *)
Definition push (st : scan_state) (p : parse_state) (k : list parse_state) : scanner * scan_op :=
  if zlen (p :: k) <=? maxNestingDepth then goto st (p :: k) scanContinue else scan_fail k.

(** [popParseState]. *)
Definition pop (k : list parse_state) : scanner * scan_op :=
  goto (match k with [] => EndTop | _ => EndValue end) k scanEndComposite.

Definition stateEndValue (c : byte) (k : list parse_state) : scanner * scan_op :=
  match k with
  | [] => goto EndTop k scanEnd
  | p :: k' =>
      if isSpace c then goto EndValue k scanSkipSpace
      else match p with
      | parseObjectKey => if c == ":" then goto BeginValue (parseObjectValue :: k') scanContinue else scan_fail k
      | parseObjectValue =>
          if c == "," then goto BeginString (parseObjectKey :: k') scanContinue
          else if c == "}" then pop k' else scan_fail k
      | parseArrayValue =>
          if c == "," then goto BeginValue k scanContinue
          else if c == "]" then pop k' else scan_fail k
      end
  end.

Definition stateBeginValue (c : byte) (k : list parse_state) : scanner * scan_op :=
  if isSpace c then goto BeginValue k scanSkipSpace
  else if c == "{" then push BeginStringOrEmpty parseObjectKey k
  else if c == "[" then push BeginValueOrEmpty parseArrayValue k
  else if c == x22 then goto InString k scanContinue
  else if c == "-" then goto Neg k scanContinue
  else if c == "0" then goto State0 k scanContinue
  else if c == "t" then goto (InLit (str "rue")) k scanContinue
  else if c == "f" then goto (InLit (str "alse")) k scanContinue
  else if c == "n" then goto (InLit (str "ull")) k scanContinue
  else if digit c then goto State1 k scanContinue else scan_fail k.

Definition stateBeginString (c : byte) (k : list parse_state) : scanner * scan_op :=
  if isSpace c then goto BeginString k scanSkipSpace
  else if c == x22 then goto InString k scanContinue else scan_fail k.

Definition exp_mark (c : byte) : bool := (c == "e") || (c == "E").

Definition state0 (c : byte) (k : list parse_state) : scanner * scan_op :=
  if c == "." then goto Dot k scanContinue
  else if exp_mark c then goto ExpE k scanContinue else stateEndValue c k.

Definition stateESign (c : byte) (k : list parse_state) : scanner * scan_op :=
  if digit c then goto E0 k scanContinue else scan_fail k.

Definition scan_step (s : scanner) (c : byte) : scanner * scan_op :=
  let k := sc_stack s in
  match sc_step s with
  | BeginValue => stateBeginValue c k
  | BeginValueOrEmpty =>
      if isSpace c then goto BeginValueOrEmpty k scanSkipSpace
      else if c == "]" then stateEndValue c k else stateBeginValue c k
  | BeginStringOrEmpty =>
      if isSpace c then goto BeginStringOrEmpty k scanSkipSpace
      else match k with
      | _ :: k' => if c == "}" then stateEndValue c (parseObjectValue :: k') else stateBeginString c k
      | [] => stateBeginString c k
      end
  | BeginString => stateBeginString c k
  | EndValue => stateEndValue c k
  | EndTop => goto EndTop k scanEnd
  | InString =>
      if c == x22 then goto EndValue k scanContinue
      else if c == x5c then goto InStringEsc k scanContinue
      else if byte_val c <? 0x20 then scan_fail k else goto InString k scanContinue
  | InStringEsc =>
      if bool_decide (c ∈ ["b"; "f"; "n"; "r"; "t"; x5c; x2f; x22]) then goto InString k scanContinue
      else if c == "u" then goto (InStringEscU 4) k scanContinue else scan_fail k
  | InStringEscU n =>
      match hex_val c with
      | Some _ => goto (match n with S (S m) => InStringEscU (S m) | _ => InString end) k scanContinue
      | None => scan_fail k
      end
  | Neg =>
      if c == "0" then goto State0 k scanContinue
      else if digit c then goto State1 k scanContinue else scan_fail k
  | State1 => if digit c then goto State1 k scanContinue else state0 c k
  | State0 => state0 c k
  | Dot => if digit c then goto Dot0 k scanContinue else scan_fail k
  | Dot0 =>
      if digit c then goto Dot0 k scanContinue
      else if exp_mark c then goto ExpE k scanContinue else stateEndValue c k
  | ExpE => if (c == "+") || (c == "-") then goto ESign k scanContinue else stateESign c k
  | ESign => stateESign c k
  | E0 => if digit c then goto E0 k scanContinue else stateEndValue c k
  | InLit l =>
      match l with
      | d :: l' =>
          if c == d then goto (match l' with [] => EndValue | _ => InLit l' end) k scanContinue
          else scan_fail k
      | [] => scan_fail k
      end
  end.

Definition scan_reset : scanner := mkScanner BeginValue [].

(** What goes wrong inside [encoding/json]; the texts are a parameter of the
    decoder. *)
Inductive json_error :=
  | SyntaxError (s : scanner) (c : byte)    (* [c] is invalid in state [s], or one bracket too many *)
  | UnknownField (key : bytes)
  | UnmarshalTypeError (value : bytes) (field : bytes)
  | MarshalerError.

(** [Decoder.readValue] on the bytes to come: the value (with the spaces before
    it) and the rest; an object or array ends with its bracket, another value
    before the byte that follows it. *)
Inductive read_result :=
  | RValue (raw rest : bytes)
  | REOF | RUnexpectedEOF
  | RSyntax (s : scanner) (c : byte).

Definition cons_raw (c : byte) (r : read_result) : read_result :=
  match r with RValue raw rest => RValue (c :: raw) rest | r => r end.

Fixpoint read_value (s : scanner) (data : bytes) : read_result :=
  match data with
  | [] =>
      match scan_step s x20 with
      | (_, scanEnd) => RValue [] []
      | _ => match sc_step s, sc_stack s with BeginValue, [] => REOF | _, _ => RUnexpectedEOF end
      end
  | c :: data' =>
      let '(s', op) := scan_step s c in
      match op with
      | scanEnd => RValue [] data
      | scanError => RSyntax s c
      | scanEndComposite => match sc_stack s' with [] => RValue [c] data' | _ => cons_raw c (read_value s' data') end
      | _ => cons_raw c (read_value s' data')
      end
  end.

(** [appendCompact] with [escape]: drops the spaces outside strings and escapes
    what HTML could trip over; [None] when [src] is not one value. *)
Fixpoint compact (s : scanner) (src : bytes) : option bytes :=
  match src with
  | [] => match scan_step s x20 with (_, scanEnd) => Some [] | _ => None end
  | c :: src1 =>
      let esc := if (c == x3c) || (c == x3e) || (c == x26) then u_escape (byte_val c) else [c] in
      let plain :=
        match scan_step s c with
        | (_, scanError) => None
        | (s', scanSkipSpace) => compact s' src1
        | (s', scanEnd) => if isSpace c then compact s' src1 else None
        | (s', _) => (esc ++.) <$> compact s' src1
        end in
      match sc_step s, src1 with
      | InString, d :: e :: src3 =>
          if (c == xe2) && (d == x80) && ((e == xa8) || (e == xa9))
          then (u_escape (if e == xa8 then 0x2028 else 0x2029) ++.) <$> compact s src3
          else plain
      | _, _ => plain
      end
  end.

(** ** Runes *)

Lemma between_spec lo hi b : between lo hi b = true <-> lo <= byte_val b <= hi.
Proof. unfold between. rewrite andb_true_iff, !Z.leb_le. done. Qed.

Lemma ascii_spec b : ascii b = true <-> byte_val b < 0x80.
Proof. unfold ascii. apply Z.ltb_lt. Qed.

Definition high (b : byte) : Prop := 0x80 <= byte_val b.

(** What a string is made of: an encoding decodes to itself wherever it
    stands, and is one ASCII byte or only bytes above. *)
Definition good (r : rune) : Prop :=
  match r with
  | Rune e => (forall s, runes (e ++ s) = Rune e :: runes s) /\
      ((exists b, e = [b] /\ ascii b = true) \/ (Forall high e /\ (2 <= length e)%nat))
  | BadByte _ => True
  end.

Lemma runes_ascii b s : ascii b = true -> runes (b :: s) = Rune [b] :: runes s.
Proof. intros H. cbn [runes]. by rewrite H. Qed.

Lemma not_ascii b : ascii b = false -> high b.
Proof. unfold ascii, high. intros H%Z.ltb_ge. done. Qed.

Lemma second_ok_high b0 b1 : second_ok b0 b1 = true -> high b1.
Proof. unfold second_ok, cont, high. intros H. repeat case_match; apply between_spec in H; lia. Qed.

Lemma cont_high b : cont b = true -> high b.
Proof. unfold cont, high. rewrite between_spec. lia. Qed.

(** One rune off a string. *)
Lemma runes_step b s : exists r rest, runes (b :: s) = r :: runes rest /\ good r /\ (length rest <= length s)%nat
  /\ b :: s = match r with Rune e => e | BadByte b => [b] end ++ rest.
Proof.
  assert (forall r0 rest0, runes (b :: s) = BadByte b :: runes s -> r0 = BadByte b -> rest0 = s ->
    runes (b :: s) = r0 :: runes rest0 /\ good r0 /\ (length rest0 <= length s)%nat
    /\ b :: s = match r0 with Rune e => e | BadByte b => [b] end ++ rest0) as Hbad by (by intros r0 rest0 E -> ->).
  destruct (ascii b) eqn:Ha.
  { exists (Rune [b]), s. split; [by apply runes_ascii|]. split; [|done]. split; [intros; by apply runes_ascii|]. left. by exists b. }
  pose proof (not_ascii b Ha) as Hb. cbn [runes] in *. rewrite Ha in *.
  destruct s as [|b1 s2]; [by eexists _, _; apply Hbad|].
  destruct (rune2 b b1) eqn:H2.
  { exists (Rune [b; b1]), s2. split; [done|]. split; [|cbn; split; [lia|done]]. split; [intros t; cbn; by rewrite Ha, H2|].
    right. split; [|done]. apply andb_true_iff in H2 as [_ H2%cont_high]. by repeat constructor. }
  destruct s2 as [|b2 s3]; [by eexists _, _; apply Hbad|].
  destruct (rune3 b b1 b2) eqn:H3.
  { exists (Rune [b; b1; b2]), s3. split; [done|]. split; [|cbn; split; [lia|done]].
    split; [intros t; cbn; by rewrite Ha, H2, H3|]. right. split; [|cbn; lia].
    unfold rune3 in H3. apply andb_true_iff in H3 as [[_ H3%second_ok_high]%andb_true_iff H4%cont_high]. by repeat constructor. }
  destruct s3 as [|b3 s4]; [by eexists _, _; apply Hbad|].
  destruct (rune4 b b1 b2 b3) eqn:H4; [|by eexists _, _; apply Hbad].
  exists (Rune [b; b1; b2; b3]), s4. split; [done|]. split; [|cbn; split; [lia|done]].
  split; [intros t; cbn; by rewrite Ha, H2, H3, H4|]. right. split; [|cbn; lia].
  unfold rune4 in H4. apply andb_true_iff in H4 as [[[_ H5%second_ok_high]%andb_true_iff H6%cont_high]%andb_true_iff H7%cont_high].
  by repeat constructor.
Qed.

(** Induction along the runes. *)
Lemma runes_ind (P : bytes -> list rune -> Prop) :
  P [] [] ->
  (forall r e rest, good r -> e = match r with Rune e => e | BadByte b => [b] end -> P rest (runes rest) ->
     runes (e ++ rest) = r :: runes rest -> P (e ++ rest) (r :: runes rest)) ->
  forall s, P s (runes s).
Proof.
  intros H0 H1 s. induction s as [s IH] using (induction_ltof1 _ length). unfold ltof in IH.
  destruct s as [|b s]; [done|]. destruct (runes_step b s) as (r & rest & E & Hg & Hl & Es).
  rewrite E, Es. apply H1; try done; [|by rewrite <- Es]. apply IH. cbn. lia.
Qed.

Lemma runes_good s : Forall good (runes s).
Proof. apply (runes_ind (fun _ rs => Forall good rs)); [constructor|]. intros. by constructor. Qed.

Lemma to_valid_id s : valid_utf8 s = true -> to_valid s = s.
Proof.
  unfold valid_utf8, to_valid. apply (runes_ind (fun s rs => forallb _ rs = true -> concat (rune_bytes <$> rs) = s)); [done|].
  intros [e|b] e' rest _ -> IH _ H; [|done]. cbn in *. by rewrite IH.
Qed.

(** ** Quoting *)

Lemma hex_lower_val d : 0 <= d < 16 -> hex_val (hex_lower d) = Some d /\ ascii (hex_lower d) = true.
Proof.
  intros H. assert (d ∈ seqZ 0 16) as Hin by (apply elem_of_seqZ; lia). revert Hin. cbn.
  intros Hin. repeat (apply elem_of_cons in Hin as [->|Hin]; [by split|]). by apply elem_of_nil in Hin.
Qed.

Lemma unquote_u_escape z t : 0 <= z < 0x10000 -> surrogate z = false ->
  unquote_runes (runes (u_escape z ++ t)) = (encode_rune z ++.) <$> unquote_runes (runes t).
Proof.
  intros Hz Hs. unfold u_escape. cbn [app].
  destruct (hex_lower_val (Z.shiftr z 12 mod 16) ltac:(apply Z.mod_pos_bound; lia)) as [V1 A1].
  destruct (hex_lower_val (Z.shiftr z 8 mod 16) ltac:(apply Z.mod_pos_bound; lia)) as [V2 A2].
  destruct (hex_lower_val (Z.shiftr z 4 mod 16) ltac:(apply Z.mod_pos_bound; lia)) as [V3 A3].
  destruct (hex_lower_val (z mod 16) ltac:(apply Z.mod_pos_bound; lia)) as [V4 A4].
  rewrite !runes_ascii by done. cbn [unquote_runes lit]. rewrite !bool_decide_true by done. unfold hex4. cbn [lit mbind option_bind].
  rewrite V1, V2, V3, V4. cbn [mbind option_bind].
  assert (Z.shiftr z 12 mod 16 * 4096 + Z.shiftr z 8 mod 16 * 256 + Z.shiftr z 4 mod 16 * 16 + z mod 16 = z) as ->.
  { rewrite !Z.shiftr_div_pow2 by lia. change (2 ^ 12) with 4096. change (2 ^ 8) with 256. change (2 ^ 4) with 16.
    Z.to_euclidean_division_equations. lia. }
  by rewrite Hs.
Qed.

Lemma fmap_app_nil (o : option bytes) : ([] ++.) <$> o = o.
Proof. by destruct o. Qed.

(** An ASCII byte: literal, with a short escape, or by its number. *)
Lemma unquote_quote_byte b t : ascii b = true ->
  unquote_runes (runes (quote_byte b ++ t)) = (b ::.) <$> unquote_runes (runes t).
Proof.
  intros Ha. unfold quote_byte. destruct (html_safe b) eqn:Hs.
  { unfold html_safe in Hs. apply andb_true_iff in Hs as [H1%between_spec H2%negb_true_iff%bool_decide_eq_false].
    cbn [app]. rewrite runes_ascii by done. cbn [unquote_runes].
    rewrite (bool_decide_false (b = x5c)), (bool_decide_false (b = x22)) by (intros ->; apply H2; repeat (constructor || apply elem_of_list_further)).
    rewrite (proj2 (Z.ltb_ge _ _)) by lia. done. }
  destruct (b == x5c) eqn:E1; [apply bool_decide_eq_true in E1 as ->; done|].
  destruct (b == x22) eqn:E2; [apply bool_decide_eq_true in E2 as ->; done|]. cbn [orb].
  repeat (case_bool_decide as E; [rewrite E; done|clear E]).
  pose proof (byte_val_range b). apply ascii_spec in Ha.
  rewrite unquote_u_escape; [|lia|unfold surrogate; by rewrite (proj2 (Z.leb_gt _ _)) by lia].
  unfold encode_rune. rewrite (proj2 (Z.ltb_lt _ _)) by lia. by rewrite byte_of_val.
Qed.

Lemma unquote_quote_rune r t : good r ->
  unquote_runes (runes (quote_rune r ++ t)) = (rune_bytes r ++.) <$> unquote_runes (runes t).
Proof.
  destruct r as [e|b]; [|intros _; by apply (unquote_u_escape 0xFFFD)].
  intros [Hr [(b & -> & Ha)|[Hh Hl]]].
  { cbn [quote_rune rune_bytes]. rewrite unquote_quote_byte by done. by destruct (unquote_runes (runes t)). }
  destruct e as [|b0 [|b1 e]]; [cbn in Hl; lia..|]. cbn [quote_rune rune_bytes].
  case_bool_decide as E1; [rewrite E1; by apply (unquote_u_escape 0x2028)|].
  case_bool_decide as E2; [rewrite E2; by apply (unquote_u_escape 0x2029)|]. by rewrite Hr.
Qed.

Lemma unquote_quote s : unquote (quote s) = Some (to_valid s).
Proof.
  unfold unquote, quote, to_valid. cbn [app]. rewrite rev_app_distr. cbn [rev app]. rewrite !bool_decide_true by done. cbn [andb].
  rewrite rev_involutive. pose proof (runes_good s) as Hg. induction Hg as [|r rs Hr _ IH]; [done|]. cbn [fmap list_fmap concat].
  rewrite unquote_quote_rune by done. by rewrite IH.
Qed.

(** ** Scanning *)

(** The scanner over bytes inside a value. *)
Fixpoint feed (s : scanner) (data : bytes) : option scanner :=
  match data with
  | [] => Some s
  | c :: data =>
      let '(s', op) := scan_step s c in
      match op with
      | scanContinue | scanSkipSpace => feed s' data
      | scanEndComposite => match sc_stack s' with [] => None | _ => feed s' data end
      | _ => None
      end
  end.

Lemma feed_app s d d' : feed s (d ++ d') = feed s d ≫= fun s' => feed s' d'.
Proof.
  revert s; induction d as [|c d IH]; intros s; [done|]. cbn [app feed]. destruct (scan_step s c) as [s1 []]; try done.
  destruct (sc_stack s1); [done|apply IH].
Qed.

Definition prepend (d : bytes) (r : read_result) : read_result :=
  match r with RValue raw rest => RValue (d ++ raw) rest | r => r end.

Lemma read_feed s d s' rest : feed s d = Some s' -> read_value s (d ++ rest) = prepend d (read_value s' rest).
Proof.
  revert s; induction d as [|c d IH]; intros s; cbn [feed app]; [intros [= <-]; by destruct (read_value s rest)|].
  cbn [read_value]. assert (forall s1, feed s1 d = Some s' -> cons_raw c (read_value s1 (d ++ rest)) = prepend (c :: d) (read_value s' rest)) as H.
  { intros s1 E. rewrite (IH s1 E). by destruct (read_value s' rest). }
  destruct (scan_step s c) as [s1 []]; try done; intros E; try (by apply H).
  destruct (sc_stack s1); [done|by apply H].
Qed.

Lemma feed_plain k b : b <> x22 -> b <> x5c -> 0x20 <= byte_val b -> feed (mkScanner InString k) [b] = Some (mkScanner InString k).
Proof.
  intros H1 H2 H3. cbn. rewrite !bool_decide_false by done. by rewrite (proj2 (Z.ltb_ge _ _)) by lia.
Qed.

Lemma feed_hex n k d : 0 <= d < 16 ->
  feed (mkScanner (InStringEscU n) k) [hex_lower d]
  = Some (mkScanner (match n with S (S m) => InStringEscU (S m) | _ => InString end) k).
Proof. intros Hd. cbn. by destruct (hex_lower_val d Hd) as [-> _]. Qed.

Lemma feed_u_escape k z : feed (mkScanner InString k) (u_escape z) = Some (mkScanner InString k).
Proof.
  change (u_escape z) with ([x5c; "u"] ++ [hex_lower (Z.shiftr z 12 mod 16)] ++ [hex_lower (Z.shiftr z 8 mod 16)]
    ++ [hex_lower (Z.shiftr z 4 mod 16)] ++ [hex_lower (z mod 16)]).
  rewrite feed_app. change (feed (mkScanner InString k) [x5c; "u"]) with (Some (mkScanner (InStringEscU 4) k)). cbn [mbind option_bind].
  do 3 (rewrite feed_app, feed_hex by (apply Z.mod_pos_bound; lia); cbn [mbind option_bind]).
  apply feed_hex, Z.mod_pos_bound. lia.
Qed.

Lemma html_safe_plain b : html_safe b = true -> b <> x22 /\ b <> x5c /\ 0x20 <= byte_val b.
Proof.
  unfold html_safe. intros [H1%between_spec H2%negb_true_iff%bool_decide_eq_false]%andb_true_iff.
  split_and!; [intros ->; apply H2; repeat (constructor || apply elem_of_list_further)..|lia].
Qed.

Lemma feed_quote_rune k r : good r -> feed (mkScanner InString k) (quote_rune r) = Some (mkScanner InString k).
Proof.
  destruct r as [e|b]; [|intros _; apply feed_u_escape]. intros [_ [(b & -> & Ha)|[Hh Hl]]].
  - cbn [quote_rune]. unfold quote_byte. destruct (html_safe b) eqn:Hs; [by apply html_safe_plain in Hs as (? & ? & ?); apply feed_plain|].
    destruct (b == x5c) eqn:E1; [by apply bool_decide_eq_true in E1 as ->|].
    destruct (b == x22) eqn:E2; [by apply bool_decide_eq_true in E2 as ->|]. cbn [orb].
    clear Hs E1 E2. repeat (case_bool_decide as E; [done|clear E]). apply feed_u_escape.
  - destruct e as [|b0 [|b1 e]]; [cbn in Hl; lia..|]. cbn [quote_rune].
    case_bool_decide; [apply feed_u_escape|]. case_bool_decide; [apply feed_u_escape|].
    clear -Hh. induction Hh as [|b l Hb _ IH]; [done|]. change (b :: l) with ([b] ++ l).
    rewrite feed_app, feed_plain; [done|..]; unfold high in Hb; [intros ->; by vm_compute in Hb..|lia].
Qed.

Lemma feed_quoted k rs : Forall good rs -> feed (mkScanner InString k) (concat (quote_rune <$> rs)) = Some (mkScanner InString k).
Proof.
  induction 1 as [|r rs Hr _ IH]; [done|]. cbn [fmap list_fmap concat]. rewrite feed_app, feed_quote_rune by done. exact IH.
Qed.

(** States in which a string literal may begin. *)
Definition string_next (st : scan_state) : bool :=
  match st with BeginValue | BeginString | BeginStringOrEmpty | BeginValueOrEmpty => true | _ => false end.

Lemma feed_quote st k s : string_next st = true -> feed (mkScanner st k) (quote s) = Some (mkScanner EndValue k).
Proof.
  intros Hst. unfold quote. rewrite feed_app.
  assert (feed (mkScanner st k) [x22] = Some (mkScanner InString k)) as -> by (destruct st, k; done).
  cbn [mbind option_bind]. rewrite feed_app, feed_quoted by apply runes_good. done.
Qed.

(** ** Values *)

(** The bytes that can follow a value. *)
Definition closing (c : byte) : bool := bool_decide (c ∈ [":"; ","; "}"; "]"; x20]).

Definition ended (s : scanner) (k : list parse_state) : Prop := forall c, closing c = true -> scan_step s c = stateEndValue c k.

(** [v] is a value: the scanner accepts it whole inside up to [n] objects and
    arrays and then takes it for ended, and alone it ends where it ends. *)
Record value_text (n : nat) (v : bytes) : Prop := {
  vt_feed : forall k, (length k <= n)%nat -> k <> [] -> exists s, feed (mkScanner BeginValue k) v = Some s /\ ended s k;
  vt_split : forall rest, (match rest with [] => true | c :: _ => closing c end) = true ->
    read_value scan_reset (v ++ rest) = RValue v rest;
  vt_head : exists c v', v = c :: v' /\ isSpace c = false /\ c <> "}" }.

Lemma ended_EndValue k : ended (mkScanner EndValue k) k.
Proof. done. Qed.

Lemma read_ended s rest : ended s [] ->
  (match rest with [] => true | c :: _ => closing c end) = true -> read_value s rest = RValue [] rest.
Proof.
  intros He Hr. destruct rest as [|c rest]; cbn [read_value].
  - by rewrite (He x20) by done.
  - by rewrite (He c Hr).
Qed.

Lemma quote_value n s : value_text n (quote s).
Proof.
  constructor.
  - intros k _ _. exists (mkScanner EndValue k). split; [by apply feed_quote|done].
  - intros rest Hr. rewrite (read_feed _ _ (mkScanner EndValue [])) by (by apply feed_quote).
    rewrite read_ended by done. cbn. by rewrite app_nil_r.
  - by exists x22, (concat (quote_rune <$> runes s) ++ [x22]).
Qed.

(** ** Decimal numbers *)

Definition digits_val (s : bytes) : Z := foldl (fun acc c => acc * 10 + (byte_val c - 48)) 0 s.

Lemma digits_val_snoc ds c : digits_val (ds ++ [c]) = digits_val ds * 10 + (byte_val c - 48).
Proof. unfold digits_val. by rewrite foldl_app. Qed.

(** The digits of a natural number, in front of what follows them. *)
Lemma pretty_digits x : forall s, exists ds, str (pretty_N_go x s) = ds ++ str s /\ forallb digit ds = true
  /\ digits_val ds = Z.of_N x /\ (x = 0%N -> ds = []) /\ (x <> 0%N -> exists c ds', ds = c :: ds' /\ c <> "0").
Proof.
  induction (N.lt_wf_0 x) as [x _ IH]. intros s. destruct (N.eq_0_gt_0_cases x) as [->|Hx].
  { exists []. by rewrite pretty_N_go_0. }
  rewrite pretty_N_go_step by done.
  destruct (IH (x / 10)%N (N.div_lt x 10 Hx eq_refl) (String (pretty_N_char (x mod 10)) s)) as (ds & E & Hd & Hv & H0 & H1).
  assert (exists c, str (String (pretty_N_char (x mod 10)) s) = c :: str s /\ digit c = true /\ byte_val c - 48 = Z.of_N (x mod 10)
    /\ (c = "0" -> (x mod 10 = 0)%N)) as (c & Ec & Hc & Hcv & Hc0).
  { pose proof (N.mod_lt x 10 ltac:(done)) as Hm. revert Hm. generalize (x mod 10)%N. intros m Hm.
    assert (m = 0 \/ m = 1 \/ m = 2 \/ m = 3 \/ m = 4 \/ m = 5 \/ m = 6 \/ m = 7 \/ m = 8 \/ m = 9)%N as Hcases by lia.
    repeat (destruct Hcases as [->|Hcases]; [by eexists; split; [reflexivity|]; vm_compute|]). subst m. by eexists; split; [reflexivity|]; vm_compute. }
  exists (ds ++ [c]). rewrite E, Ec, <- app_assoc. split; [done|]. rewrite forallb_app, Hd, digits_val_snoc, Hv, Hcv. cbn [forallb]. rewrite Hc.
  split; [done|]. split; [rewrite N2Z.inj_div, N2Z.inj_mod; Z.to_euclidean_division_equations; lia|]. split; [lia|]. intros _.
  destruct (N.eq_dec (x / 10)%N 0%N) as [Hz|Hz].
  - rewrite (H0 Hz). exists c, []. split; [done|]. intros Hc'. specialize (Hc0 Hc'). pose proof (N.div_mod x 10 ltac:(done)). lia.
  - destruct (H1 Hz) as (c' & ds' & -> & Hne). by exists c', (ds' ++ [c]).
Qed.

(** The text of an integer: a sign, and 0 or digits that do not start with 0. *)
Lemma fmt_d_text z : exists sign c ds, fmt_d z = sign ++ c :: ds /\ (sign = [] /\ 0 <= z \/ sign = ["-"] /\ z < 0)
  /\ forallb digit (c :: ds) = true /\ digits_val (c :: ds) = Z.abs z /\ (c = "0" -> ds = []).
Proof.
  assert (forall x, exists c ds, str (pretty (Npos x)) = c :: ds /\ forallb digit (c :: ds) = true
    /\ digits_val (c :: ds) = Z.pos x /\ (c = "0" -> ds = [])) as Hpos.
  { intros x. destruct (pretty_digits (Npos x) "") as (ds & E & Hd & Hv & _ & H1). destruct (H1 ltac:(done)) as (c & ds' & -> & Hc).
    exists c, ds'. rewrite app_nil_r in E. split_and!; try done. }
  unfold fmt_d. destruct z as [|x|x].
  - exists [], "0", []. split_and!; try done. by left.
  - destruct (Hpos x) as (c & ds & E & H1 & H2 & H3). exists [], c, ds. split_and!; try done. by left.
  - destruct (Hpos x) as (c & ds & E & H1 & H2 & H3). exists ["-"], c, ds. split_and!; try done; [|by right].
    change (str (pretty (Z.neg x))) with ("-" :: str (pretty (Npos x))). by rewrite E.
Qed.

Lemma closing_cases c : closing c = true -> c = ":" \/ c = "," \/ c = "}" \/ c = "]" \/ c = x20.
Proof.
  unfold closing. intros H%bool_decide_eq_true. repeat (apply elem_of_cons in H as [->|H]; [auto 10|]). by apply elem_of_nil in H.
Qed.

Lemma feed_digits k ds : forallb digit ds = true -> feed (mkScanner State1 k) ds = Some (mkScanner State1 k).
Proof.
  induction ds as [|c ds IH]; [done|]. cbn [forallb]. intros [Hc Hds]%andb_true_iff. cbn [feed scan_step sc_step sc_stack].
  rewrite Hc. by apply IH.
Qed.

(** The digits from the state before the first one. *)
Lemma feed_number st k c ds : st = BeginValue \/ st = Neg -> forallb digit (c :: ds) = true -> (c = "0" -> ds = []) ->
  exists st', feed (mkScanner st k) (c :: ds) = Some (mkScanner st' k) /\ (st' = State0 \/ st' = State1).
Proof.
  intros Hst Hd H0. cbn [forallb] in Hd. apply andb_true_iff in Hd as [Hc Hds].
  destruct (decide (c = "0")) as [->|Hne].
  - rewrite H0 by done. exists State0. split; [|by left]. by destruct Hst as [->| ->].
  - exists State1. split; [|by right]. change (c :: ds) with ([c] ++ ds). rewrite feed_app.
    assert (feed (mkScanner st k) [c] = Some (mkScanner State1 k)) as ->; [|by apply feed_digits].
    clear -Hst Hc Hne. apply between_spec in Hc.
    assert (byte_val c ∈ seqZ 48 10) as Hin by (apply elem_of_seqZ; lia). clear Hc. rewrite <- (byte_of_val c) in Hne |- *.
    revert Hin Hne. generalize (byte_val c). intros z Hin Hne. cbn in Hin.
    repeat (apply elem_of_cons in Hin as [->|Hin]; [first [by destruct Hst as [->| ->]|by destruct Hne]|]). by apply elem_of_nil in Hin.
Qed.

Lemma number_ended st k : st = State0 \/ st = State1 -> ended (mkScanner st k) k.
Proof. intros Hst c Hc. destruct (closing_cases c Hc) as [->|[->|[->|[->| ->]]]]; by destruct Hst as [->| ->]. Qed.

Lemma number_value n z : value_text n (fmt_d z).
Proof.
  destruct (fmt_d_text z) as (sign & c & ds & E & Hsign & Hd & _ & H0). rewrite E.
  assert (forall k, exists st', feed (mkScanner BeginValue k) (sign ++ c :: ds) = Some (mkScanner st' k) /\ (st' = State0 \/ st' = State1)) as Hf.
  { intros k. destruct Hsign as [[-> _]|[-> _]].
    - apply feed_number; auto.
    - rewrite feed_app. change (feed (mkScanner BeginValue k) ["-"]) with (Some (mkScanner Neg k)). apply feed_number; auto. }
  constructor.
  - intros k _ _. destruct (Hf k) as (st' & Ef & Hst). exists (mkScanner st' k). split; [done|by apply number_ended].
  - intros rest Hr. destruct (Hf []) as (st' & Ef & Hst). rewrite (read_feed _ _ _ _ Ef), read_ended by (done || by apply number_ended).
    cbn [prepend]. by rewrite app_nil_r.
  - cbn [forallb] in Hd. apply andb_true_iff in Hd as [Hc%between_spec _].
    destruct Hsign as [[-> _]|[-> _]]; [|by eexists _, _].
    exists c, ds. split_and!; [done| |intros ->; vm_compute in Hc; by destruct Hc as [_ []]].
    unfold isSpace. apply bool_decide_false. intros H.
    repeat (apply elem_of_cons in H as [->|H]; [vm_compute in Hc; by destruct Hc as [[] _]|]). by apply elem_of_nil in H.
Qed.

(** ** Objects *)

Fixpoint joined (l : list bytes) : bytes :=
  match l with [] => [] | [x] => x | x :: l => x ++ [","] ++ joined l end.

Definition member_text (p : bytes * bytes) : bytes := quote p.1 ++ [":"] ++ p.2.

Definition object_text (l : list (bytes * bytes)) : bytes := ["{"] ++ joined (member_text <$> l) ++ ["}"].

Lemma feed_member n st k p : string_next st = true -> (S (length k) <= n)%nat -> value_text n p.2 ->
  exists s, feed (mkScanner st (parseObjectKey :: k)) (member_text p) = Some s /\ ended s (parseObjectValue :: k).
Proof.
  intros Hst Hn Hv. unfold member_text. rewrite feed_app, feed_quote by done. cbn [mbind option_bind]. rewrite feed_app.
  change (feed (mkScanner EndValue (parseObjectKey :: k)) [":"]) with (Some (mkScanner BeginValue (parseObjectValue :: k))).
  by apply (vt_feed n _ Hv).
Qed.

Lemma feed_ended_comma s k : ended s (parseObjectValue :: k) -> feed s [","] = Some (mkScanner BeginString (parseObjectKey :: k)).
Proof. intros He. cbn [feed]. by rewrite (He ",") by done. Qed.

Lemma feed_members n st k l : string_next st = true -> (S (length k) <= n)%nat -> Forall (fun p => value_text n p.2) l -> l <> [] ->
  exists s, feed (mkScanner st (parseObjectKey :: k)) (joined (member_text <$> l)) = Some s /\ ended s (parseObjectValue :: k).
Proof.
  intros Hst Hn Hl. revert st Hst. induction Hl as [|p l Hp Hl IH]; intros st Hst Hne; [done|].
  destruct (feed_member n st k p Hst Hn Hp) as (s & Es & He). destruct l as [|q l]; [by exists s|].
  cbn [fmap list_fmap joined]. rewrite feed_app, Es. cbn [mbind option_bind]. rewrite feed_app, (feed_ended_comma s k He).
  by apply IH.
Qed.

(** The scanner before the closing bracket of a non-empty object. *)
Lemma feed_object n l k : Z.of_nat n < 9000 -> Forall (fun p => value_text (S n) p.2) l -> l <> [] -> (length k <= n)%nat ->
  exists s, feed (mkScanner BeginValue k) (["{"] ++ joined (member_text <$> l)) = Some s /\ ended s (parseObjectValue :: k).
Proof.
  intros Hn Hl Hne Hk. rewrite feed_app.
  assert (feed (mkScanner BeginValue k) ["{"] = Some (mkScanner BeginStringOrEmpty (parseObjectKey :: k))) as ->.
  { change (feed (mkScanner BeginValue k) ["{"]) with (let '(s', op) := push BeginStringOrEmpty parseObjectKey k in
      match op with scanContinue | scanSkipSpace => Some s' | scanEndComposite => match sc_stack s' with [] => None | _ => Some s' end | _ => None end).
    unfold push. rewrite (proj2 (Z.leb_le _ _)); [done|]. unfold maxNestingDepth, zlen. cbn [length]. lia. }
  apply (feed_members (S n)); try done. lia.
Qed.

(** An object ends at its bracket, whatever follows. *)
Lemma object_read n l rest : Z.of_nat n < 9000 -> Forall (fun p => value_text (S n) p.2) l -> l <> [] ->
  read_value scan_reset (object_text l ++ rest) = RValue (object_text l) rest.
Proof.
  intros Hn Hl Hne. destruct (feed_object n l [] Hn Hl Hne (Nat.le_0_l n)) as (s & Es & He). unfold object_text.
  rewrite app_assoc, <- app_assoc, (read_feed _ _ _ _ Es). cbn [app read_value]. by rewrite (He "}") by done.
Qed.

(** A non-empty object, inside others or alone. *)
Lemma object_value n l : Z.of_nat n < 9000 -> Forall (fun p => value_text (S n) p.2) l -> l <> [] -> value_text n (object_text l).
Proof.
  intros Hn Hl Hne. constructor.
  - intros k Hk Hkn. destruct (feed_object n l k Hn Hl Hne Hk) as (s & Es & He). exists (mkScanner EndValue k). split; [|apply ended_EndValue].
    unfold object_text. rewrite app_assoc, feed_app, Es. cbn [mbind option_bind feed]. rewrite (He "}") by done. by destruct k.
  - intros rest _. by apply (object_read n).
  - by exists "{", (joined (member_text <$> l) ++ ["}"]); split_and!.
Qed.

(** ** What is unquoted is valid UTF-8 *)

(** [e] in front of a string does not make it less valid. *)
Definition encoded (e : bytes) : Prop := forall s, valid_utf8 (e ++ s) = valid_utf8 s.

Lemma good_encoded e : good (Rune e) -> encoded e.
Proof. intros [H _] s. unfold valid_utf8. by rewrite H. Qed.

Lemma ascii_encoded b : ascii b = true -> encoded [b].
Proof. intros H s. unfold valid_utf8. cbn [app]. by rewrite runes_ascii. Qed.

Lemma replacement_encoded : encoded replacement.
Proof. done. Qed.

Lemma hex_val_range b d : hex_val b = Some d -> 0 <= d < 16.
Proof. unfold hex_val. intros H. repeat case_match; simplify_eq; match goal with H : between _ _ _ = true |- _ => apply between_spec in H end; lia. Qed.

Lemma hex4_range a b c d r : hex4 a b c d = Some r -> 0 <= r < 0x10000.
Proof.
  unfold hex4. intros (x1 & (b1 & _ & H1%hex_val_range)%bind_Some & (x2 & (b2 & _ & H2%hex_val_range)%bind_Some
    & (x3 & (b3 & _ & H3%hex_val_range)%bind_Some & (x4 & (b4 & _ & H4%hex_val_range)%bind_Some & [= <-])%bind_Some)%bind_Some)%bind_Some)%bind_Some.
  lia.
Qed.

Lemma pair_rune_range r1 r2 r : pair_rune r1 r2 = Some r -> 0x10000 <= r < 0x110000.
Proof. unfold pair_rune. intros H. case_match eqn:E; [|done]. simplify_eq. rewrite !andb_true_iff, !Z.leb_le, !Z.ltb_lt in E. lia. Qed.

Lemma shiftr_div6 r : 0 <= r -> Z.shiftr r 6 = r / 64 /\ Z.shiftr r 12 = r / 4096 /\ Z.shiftr r 18 = r / 262144.
Proof. intros H. by rewrite !Z.shiftr_div_pow2 by lia. Qed.

Lemma land_63 r : Z.land r 0x3F = r mod 64.
Proof. change 0x3F with (Z.ones 6). by rewrite Z.land_ones by lia. Qed.

Lemma byte_val_small z : 0 <= z < 256 -> byte_val (byte_of z) = z.
Proof. intros H. rewrite byte_val_of. by apply Z.mod_small. Qed.

Lemma between_false lo hi b : byte_val b < lo \/ hi < byte_val b -> between lo hi b = false.
Proof. intros H. apply not_true_is_false. rewrite between_spec. lia. Qed.

Lemma high_ascii b : 0x80 <= byte_val b -> ascii b = false.
Proof. intros H. unfold ascii. by apply Z.ltb_ge. Qed.

Lemma cont_spec b : 0x80 <= byte_val b <= 0xBF -> cont b = true.
Proof. apply between_spec. Qed.

Lemma encoded2 b0 b1 : 0xC2 <= byte_val b0 <= 0xDF -> 0x80 <= byte_val b1 <= 0xBF -> encoded [b0; b1].
Proof.
  intros H0%between_spec H1%cont_spec s. assert (rune2 b0 b1 = true) as H2 by (unfold rune2; by rewrite H0, H1).
  apply between_spec in H0. unfold valid_utf8. cbn [app runes]. by rewrite (high_ascii b0), H2 by lia.
Qed.

Lemma encoded3 b0 b1 b2 : 0xE0 <= byte_val b0 <= 0xEF -> second_ok b0 b1 = true -> 0x80 <= byte_val b2 <= 0xBF -> encoded [b0; b1; b2].
Proof.
  intros H0%between_spec H1 H2%cont_spec s. assert (rune3 b0 b1 b2 = true) as H3 by (unfold rune3; by rewrite H0, H1, H2).
  apply between_spec in H0. assert (rune2 b0 b1 = false) as H4 by (unfold rune2; by rewrite between_false by lia).
  unfold valid_utf8. cbn [app runes]. by rewrite (high_ascii b0), H4, H3 by lia.
Qed.

Lemma encoded4 b0 b1 b2 b3 : 0xF0 <= byte_val b0 <= 0xF4 -> second_ok b0 b1 = true -> 0x80 <= byte_val b2 <= 0xBF ->
  0x80 <= byte_val b3 <= 0xBF -> encoded [b0; b1; b2; b3].
Proof.
  intros H0%between_spec H1 H2%cont_spec H3%cont_spec s.
  assert (rune4 b0 b1 b2 b3 = true) as H4 by (unfold rune4; by rewrite H0, H1, H2, H3). apply between_spec in H0.
  assert (rune2 b0 b1 = false) as H5 by (unfold rune2; by rewrite between_false by lia).
  assert (rune3 b0 b1 b2 = false) as H6 by (unfold rune3; by rewrite between_false by lia).
  unfold valid_utf8. cbn [app runes]. by rewrite (high_ascii b0), H5, H6, H4 by lia.
Qed.

(** The second byte, by cases on the first. *)
Lemma second_ok_spec b0 b1 : 0x80 <= byte_val b1 <= 0xBF -> (byte_val b0 = 0xE0 -> 0xA0 <= byte_val b1) ->
  (byte_val b0 = 0xED -> byte_val b1 <= 0x9F) -> (byte_val b0 = 0xF0 -> 0x90 <= byte_val b1) ->
  (byte_val b0 = 0xF4 -> byte_val b1 <= 0x8F) -> second_ok b0 b1 = true.
Proof.
  intros H H1 H2 H3 H4. unfold second_ok, cont.
  repeat (case_match; [match goal with H : between _ _ b0 = true |- _ => apply between_spec in H end; apply between_spec; lia|]).
  by apply between_spec.
Qed.

Lemma encode_rune_encoded r : 0 <= r < 0x110000 -> surrogate r = false -> encoded (encode_rune r).
Proof.
  intros Hr Hs. destruct (shiftr_div6 r ltac:(lia)) as (E6 & E12 & E18).
  assert (~ (0xD800 <= r < 0xE000)) as Hns by (unfold surrogate in Hs; apply andb_false_iff in Hs; rewrite Z.leb_gt, Z.ltb_ge in Hs; lia).
  unfold encode_rune. rewrite !land_63, E6, E12, E18. clear E6 E12 E18 Hs.
  assert (forall z, 0x80 <= byte_val (byte_of (0x80 + z mod 64)) <= 0xBF) as Hc.
  { intros z. pose proof (Z.mod_pos_bound z 64 ltac:(lia)). rewrite byte_val_small by lia. lia. }
  destruct (Z.ltb_spec r 0x80); [apply ascii_encoded, ascii_spec; rewrite byte_val_small; lia|].
  destruct (Z.ltb_spec r 0x800); [apply encoded2; [rewrite byte_val_small; Z.to_euclidean_division_equations; lia|apply Hc]|].
  destruct (Z.ltb_spec r 0x10000).
  - apply encoded3; [rewrite byte_val_small; Z.to_euclidean_division_equations; lia| |apply Hc].
    apply second_ok_spec; [apply Hc|..]; rewrite !byte_val_small by (Z.to_euclidean_division_equations; lia); Z.to_euclidean_division_equations; lia.
  - apply encoded4; [rewrite byte_val_small; Z.to_euclidean_division_equations; lia| |apply Hc|apply Hc].
    apply second_ok_spec; [apply Hc|..]; rewrite !byte_val_small by (Z.to_euclidean_division_equations; lia); Z.to_euclidean_division_equations; lia.
Qed.

Lemma good_lit b : good (Rune [b]) -> ascii b = true.
Proof. intros [_ [(b' & [= <-] & H)|[_ H]]]; [done|cbn in H; lia]. Qed.

Lemma unescape_ascii c b : unescape c = Some b -> ascii b = true.
Proof.
  unfold unescape. destruct (_ || _) eqn:E.
  - intros [= <-]. rewrite !orb_true_iff, !bool_decide_eq_true in E. by destruct E as [[[-> | ->] | ->] | ->].
  - clear E. repeat (case_bool_decide; [by intros [= <-]|]). done.
Qed.

Lemma encoded_fmap e o b : encoded e -> (e ++.) <$> o = Some b -> (forall b', o = Some b' -> valid_utf8 b' = true) -> valid_utf8 b = true.
Proof. intros He H Ho. apply fmap_Some in H as (b' & E & ->). by rewrite He, (Ho b' E). Qed.

Lemma low_half_range r q1 q2 q3 q4 q5 q6 r' : low_half r q1 q2 q3 q4 q5 q6 = Some r' -> 0x10000 <= r' < 0x110000.
Proof. unfold low_half. case_match; [|done]. by intros (x & _ & ?%pair_rune_range)%bind_Some. Qed.

Lemma surrogate_high r : 0x10000 <= r -> surrogate r = false.
Proof. intros H. unfold surrogate. rewrite (proj2 (Z.ltb_ge _ _)) by lia. apply andb_false_r. Qed.

Lemma unquote_runes_valid rs : Forall good rs -> forall b, unquote_runes rs = Some b -> valid_utf8 b = true.
Proof.
  induction rs as [rs IH] using (induction_ltof1 _ length). unfold ltof in IH. intros Hg b.
  assert (forall e rest b, encoded e -> (length rest < length rs)%nat -> Forall good rest ->
    (e ++.) <$> unquote_runes rest = Some b -> valid_utf8 b = true) as Hnext
    by (intros e rest b' He Hl Hr E; apply (encoded_fmap _ _ _ He E); intros b''; by apply IH).
  destruct rs as [|[e|bad] rest]; [by intros [= <-]| |]; apply Forall_cons in Hg as [Hr Hg]; cbn [unquote_runes].
  2: { apply Hnext; cbn; [done|lia|done]. }
  destruct e as [|c [|c1 e]]; [apply (Hnext []); cbn; [done|lia|done]| |apply Hnext; cbn; [by apply good_encoded|lia|done]].
  apply good_lit in Hr. case_bool_decide.
  2: { case_match; [done|]. apply (Hnext [c]); cbn; [by apply ascii_encoded|lia|done]. }
  destruct rest as [|r1 rest]; [done|]. apply Forall_cons in Hg as [_ Hg]. destruct (lit r1) as [x|]; [|done]. case_bool_decide.
  2: { destruct (unescape x) as [y|] eqn:Ey; [|done]. apply unescape_ascii in Ey. apply (Hnext [y]); cbn; [by apply ascii_encoded|lia|done]. }
  destruct rest as [|ra [|rb [|rc [|rd rest]]]]; try done. do 4 apply Forall_cons in Hg as [_ Hg].
  destruct (hex4 ra rb rc rd) as [r|] eqn:E4; [|done]. apply hex4_range in E4.
  destruct (surrogate r) eqn:Es; [|apply Hnext; cbn; [apply encode_rune_encoded; [lia|done]|lia|done]].
  assert ((replacement ++.) <$> unquote_runes rest = Some b -> valid_utf8 b = true) as Hrep by (apply Hnext; cbn; [done|lia|done]).
  destruct rest as [|q1 [|q2 [|q3 [|q4 [|q5 [|q6 rest']]]]]]; [exact Hrep..|].
  destruct (low_half r q1 q2 q3 q4 q5 q6) as [r'|] eqn:El; [|exact Hrep]. apply low_half_range in El.
  do 6 apply Forall_cons in Hg as [_ Hg]. apply Hnext; cbn; [apply encode_rune_encoded; [lia|apply surrogate_high; lia]|lia|done].
Qed.

Lemma unquote_valid l s : unquote l = Some s -> valid_utf8 s = true.
Proof.
  unfold unquote. destruct l as [|c l]; [done|]. destruct (rev l) as [|d t]; [done|]. case_match; [|done].
  apply unquote_runes_valid, runes_good.
Qed.
