(* ===== verification/JsonScan.v ===== *)
(** * The second pass of the JSON decoder accepts what the first let through

    [Decoder.readValue] runs the scanner over a whole value before anything is
    stored; the storing pass takes the value apart again and panics where the two
    disagree.  Here: the scanner inside brackets does what it does outside them
    ([read_local]), a value is a value on its own ([read_self]), a string the
    scanner accepts can be unquoted ([string_unquotes]), and what the encoder
    makes of a raw value by compacting it is a value again ([compact_value]). *)
From Stdlib Require Import ZArith Lia Strings.Byte.
From stdpp Require Import base list strings.
From S2P Require Import Prelude GoIO Json.

Open Scope Z_scope.
Open Scope byte_scope.
Open Scope json_scope.

(** ** Inside and outside brackets *)

(** One step with [k0] below the stack and without; only the nesting limit tells
    them apart. *)
Inductive local_step (st : scan_state) (k k0 : list parse_state) (c : byte) : Prop :=
  | local_error s :
      scan_step (mkScanner st (k ++ k0)) c = (s, scanError) ->
      (scan_step (mkScanner st k) c).2 = scanError \/
        (maxNestingDepth <= zlen (k ++ k0) /\ exists st' p, forall k, scan_step (mkScanner st k) c = push st' p k) ->
      local_step st k k0 c
  | local_same st' k' op :
      scan_step (mkScanner st (k ++ k0)) c = (mkScanner st' (k' ++ k0), op) ->
      scan_step (mkScanner st k) c = (mkScanner st' k', op) ->
      st' <> EndTop -> (st' = BeginStringOrEmpty -> k' <> []) ->
      op = scanContinue \/ op = scanSkipSpace \/ (op = scanEndComposite /\ k' <> []) ->
      local_step st k k0 c
  | local_close :
      scan_step (mkScanner st (k ++ k0)) c = (mkScanner EndValue k0, scanEndComposite) ->
      scan_step (mkScanner st k) c = (mkScanner EndTop [], scanEndComposite) ->
      local_step st k k0 c
  | local_end s :
      k = [] -> scan_step (mkScanner st k0) c = stateEndValue c k0 ->
      scan_step (mkScanner st []) c = (s, scanEnd) -> local_step st k k0 c.

Lemma end_local st k k0 c : k0 <> [] ->
  (forall k, scan_step (mkScanner st k) c = stateEndValue c k) -> local_step st k k0 c.
Proof.
  intros Hk0 Hst. destruct k as [|p k]; [apply (local_end _ _ _ _ (mkScanner EndTop [])); [done|apply Hst|by rewrite Hst]|].
  assert (forall st' k' op, stateEndValue c (p :: k ++ k0) = goto st' (k' ++ k0) op -> stateEndValue c (p :: k) = goto st' k' op ->
    st' <> EndTop -> st' <> BeginStringOrEmpty ->
    op = scanContinue \/ op = scanSkipSpace \/ (op = scanEndComposite /\ k' <> []) -> local_step st (p :: k) k0 c) as Hsame.
  { intros st' k' op E1 E2 H1 H2 H3. by apply (local_same _ _ _ _ st' k' op); [rewrite Hst|rewrite Hst|..]. }
  assert (stateEndValue c (p :: k ++ k0) = scan_fail (p :: k ++ k0) -> stateEndValue c (p :: k) = scan_fail (p :: k) ->
    local_step st (p :: k) k0 c) as Hfail
    by (intros E1 E2; eapply local_error; [rewrite Hst; exact E1|rewrite Hst, E2; by left]).
  assert (stateEndValue c (p :: k ++ k0) = pop (k ++ k0) -> stateEndValue c (p :: k) = pop k -> local_step st (p :: k) k0 c) as Hpop.
  { intros E1 E2. destruct k as [|q k]; [|by eapply Hsame; [exact E1|exact E2|..]; auto].
    eapply local_close; rewrite Hst; [|exact E2]. cbn [app] in *. rewrite E1. by destruct k0. }
  cbn [stateEndValue] in *. destruct (isSpace c); [by eapply (Hsame EndValue (p :: k)); auto|].
  destruct p; repeat (case_bool_decide; [first [by apply Hpop|by eapply (Hsame _ (_ :: k)); auto]|]); by apply Hfail.
Qed.

(** A step that leaves the stack alone. *)
Lemma goto_local st st' k k0 c op : (forall k, scan_step (mkScanner st k) c = goto st' k op) -> st' <> EndTop ->
  (st' = BeginStringOrEmpty -> k <> []) -> op = scanContinue \/ op = scanSkipSpace -> local_step st k k0 c.
Proof. intros E H1 H2 H3. apply (local_same _ _ _ _ st' k op); [apply E..|done|done|tauto]. Qed.

Lemma fail_local st k k0 c : (forall k, scan_step (mkScanner st k) c = scan_fail k) -> local_step st k k0 c.
Proof. intros E. eapply local_error; [apply E|rewrite E; by left]. Qed.

Lemma push_local st st' p k k0 c : (forall k, scan_step (mkScanner st k) c = push st' p k) -> st' <> EndTop -> local_step st k k0 c.
Proof.
  intros E H. destruct (zlen (p :: k ++ k0) <=? maxNestingDepth) eqn:Hd.
  - apply (local_same _ _ _ _ st' (p :: k) scanContinue); [| |done|done|auto]; rewrite E; unfold push.
    + by rewrite Hd.
    + apply Z.leb_le in Hd. rewrite (proj2 (Z.leb_le _ _)); [done|]. revert Hd. unfold zlen. cbn [length]. rewrite length_app. lia.
  - eapply local_error; [rewrite E; unfold push; by rewrite Hd|]. right. split; [|by do 2 eexists].
    apply Z.leb_gt in Hd. rewrite zlen_cons in Hd. lia.
Qed.

(** The cases of a step function, one conditional at a time. *)
Ltac split_ifs :=
  repeat match goal with
  | |- (forall k, @?f k = (if ?b then @?x k else @?y k)) -> _ => destruct b
  end.

Ltac leaf E := first
  [ by apply (fail_local _ _ _ _ E) | by apply end_local; [assumption|exact E]
  | by eapply (push_local _ _ _ _ _ _ E)
  | by eapply (goto_local _ _ _ _ _ _ E); auto ].

Ltac branches := split_ifs; intros E; leaf E.

Lemma begin_local st k k0 c : k0 <> [] -> (forall k, scan_step (mkScanner st k) c = stateBeginValue c k) -> local_step st k k0 c.
Proof. intros Hk. unfold stateBeginValue. branches. Qed.

Lemma string_local st k k0 c : k0 <> [] -> (forall k, scan_step (mkScanner st k) c = stateBeginString c k) -> local_step st k k0 c.
Proof. intros Hk. unfold stateBeginString. branches. Qed.

(** The step function of a state, as an equation. *)
Ltac step_equation :=
  match goal with |- local_step ?st _ _ ?c =>
    let f := eval cbv [scan_step sc_step sc_stack state0 stateESign] in (fun k => scan_step (mkScanner st k) c) in
    let E := fresh in
    assert (forall k, scan_step (mkScanner st k) c = f k) as E by (intros; reflexivity);
    cbv beta in E; revert E
  end.

Ltac step_cases := step_equation; split_ifs; intros E; first [leaf E | by apply begin_local | by apply string_local].

(** The closing bracket of an empty object. *)
Lemma empty_local p k k0 : k0 <> [] -> local_step BeginStringOrEmpty (p :: k) k0 "}".
Proof.
  intros Hk. destruct (end_local EndValue (parseObjectValue :: k) k0 "}" Hk) as [s E He|st' k' op E1 E2 H1 H2 H3|E1 E2|s H _ _]; [done|..].
  - apply (local_error BeginStringOrEmpty (p :: k) k0 "}" s E). destruct He as [He|[_ (st' & q & Hp)]]; [by left|].
    by specialize (Hp [parseArrayValue]).
  - exact (local_same BeginStringOrEmpty (p :: k) k0 "}" st' k' op E1 E2 H1 H2 H3).
  - exact (local_close BeginStringOrEmpty (p :: k) k0 "}" E1 E2).
  - done.
Qed.

Lemma step_local st k k0 c : k0 <> [] -> st <> EndTop -> (st = BeginStringOrEmpty -> k <> []) -> local_step st k k0 c.
Proof.
  intros Hk Hst Hne. destruct st as [| | | | | | | |n| | | | | | | | |l]; try done; try step_cases.
  - destruct k as [|p k]; [by destruct Hne|]. destruct (isSpace c) eqn:Es.
    { by apply (local_same _ _ _ _ BeginStringOrEmpty (p :: k) scanSkipSpace); cbn; rewrite ?Es; auto. }
    destruct (decide (c = "}")) as [->|Hc]; [by apply empty_local|].
    destruct (decide (c = x22)) as [->|Hq]; [by apply (local_same _ _ _ _ InString (p :: k) scanContinue); auto|].
    eapply local_error; [|left]; cbn; rewrite Es, bool_decide_false by done; unfold stateBeginString;
      by rewrite Es, bool_decide_false by done.
  - destruct n as [|[|n]], (hex_val c) eqn:Eh;
      first [by eapply (goto_local _ _ _ _ _ scanContinue); [intros; cbn; by rewrite Eh|..]; auto|by apply fail_local; intros; cbn; rewrite Eh].
  - destruct l as [|d [|e l]]; step_cases.
Qed.

Lemma cons_raw_inv c r raw rest : cons_raw c r = RValue raw rest -> exists raw', r = RValue raw' rest /\ raw = c :: raw'.
Proof. destruct r; intros [= <- <-]. by eexists. Qed.

(** At the end of the input. *)
Lemma read_nil s raw rest : read_value s [] = RValue raw rest -> raw = [] /\ rest = [] /\ (scan_step s x20).2 = scanEnd.
Proof.
  cbn [read_value]. destruct (scan_step s x20) as [s' []]; try (destruct (sc_step s); try done; by destruct (sc_stack s)).
  by intros [= <- <-].
Qed.

(** A value read inside brackets is the value read alone; then the brackets'
    scanner goes on. *)
Lemma read_local data : forall st k k0 raw rest, k0 <> [] -> st <> EndTop -> (st = BeginStringOrEmpty -> k <> []) ->
  read_value (mkScanner st (k ++ k0)) data = RValue raw rest ->
  exists v raw' rest', read_value (mkScanner st k) data = RValue v rest' /\ raw = v ++ raw'
    /\ read_value (mkScanner EndValue k0) rest' = RValue raw' rest.
Proof.
  induction data as [|c data IH]; intros st k k0 raw rest Hk Hst Hne.
  - intros (_ & _ & H)%read_nil. destruct (step_local st k k0 x20 Hk Hst Hne) as [s E _|st' k' op E _ _ _ H3|E _|s -> E _];
      [rewrite E in H..|]; try done.
    + by destruct H3 as [-> |[-> |[-> _]]].
    + cbn [app] in H. rewrite E in H. by destruct k0.
  - destruct (step_local st k k0 c Hk Hst Hne) as [s E _|st' k' op E1 E2 H1 H2 H3|E1 E2|s -> E1 E2]; cbn [read_value].
    + by rewrite E.
    + rewrite E1, E2. cbn [sc_stack].
      assert (cons_raw c (read_value (mkScanner st' (k' ++ k0)) data) = RValue raw rest ->
        exists v raw' rest', cons_raw c (read_value (mkScanner st' k') data) = RValue v rest' /\ raw = v ++ raw'
          /\ read_value (mkScanner EndValue k0) rest' = RValue raw' rest) as Hstep.
      { intros (raw1 & Er & ->)%cons_raw_inv. destruct (IH st' k' k0 raw1 rest Hk H1 H2 Er) as (v & raw' & rest' & Ev & -> & Ek).
        exists (c :: v), raw', rest'. by rewrite Ev. }
      destruct H3 as [-> |[-> |[-> Hk']]]; [exact Hstep..|]. destruct k'; [done|exact Hstep].
    + rewrite E1, E2. cbn [sc_stack]. destruct k0 as [|p k0]; [done|]. intros (raw' & Er & ->)%cons_raw_inv. by exists [c], raw', data.
    + cbn [app]. rewrite E1, E2. intros Er. exists [], raw, (c :: data). split; [done|]. split; [done|]. cbn [read_value].
      change (scan_step (mkScanner EndValue k0) c) with (stateEndValue c k0). by destruct (stateEndValue c k0) as [s1 []].
Qed.

(** The value and the rest are the input. *)
Lemma read_app data : forall s v rest, read_value s data = RValue v rest -> data = v ++ rest.
Proof.
  induction data as [|c data IH]; intros s v rest; [by intros (-> & -> & _)%read_nil|]. cbn [read_value].
  destruct (scan_step s c) as [s' []]; try (intros (v' & E%IH & ->)%cons_raw_inv; by rewrite E); try (by intros [= <- <-]); try done.
  destruct (sc_stack s'); [by intros [= <- <-]|]. intros (v' & E%IH & ->)%cons_raw_inv. by rewrite E.
Qed.

(** An array's first element is inside the array. *)
Definition stacked (s : scanner) : Prop := sc_step s = BeginValueOrEmpty -> sc_stack s <> [].

Ltac step_by_cases :=
  cbv [scan_step sc_step sc_stack stateEndValue stateBeginValue stateBeginString state0 stateESign push pop goto scan_fail];
  repeat case_match.

Lemma step_stacked s c : stacked s -> stacked (scan_step s c).1.
Proof. intros H. destruct s as [st k]. unfold stacked in *. destruct st; revert H; step_by_cases; cbn; naive_solver. Qed.

Lemma begin_no_end c k : (stateBeginValue c k).2 <> scanEnd.
Proof. unfold stateBeginValue, push. by repeat case_match. Qed.

(** Where a value can end it can end with the input. *)
Lemma end_space s c : stacked s -> (scan_step s c).2 = scanEnd -> (scan_step s x20).2 = scanEnd.
Proof.
  destruct s as [st [|p k]]; intros Hs.
  - destruct st; try done; try (by destruct (Hs eq_refl)); step_by_cases; done.
  - destruct st; try done; intros H; exfalso; revert H; step_by_cases; done.
Qed.

(** A value on its own is a value. *)
Lemma read_self data : forall s v rest, stacked s -> read_value s data = RValue v rest -> read_value s v = RValue v [].
Proof.
  assert (forall s, (scan_step s x20).2 = scanEnd -> read_value s [] = RValue [] []) as Hend
    by (intros s H; cbn [read_value]; destruct (scan_step s x20); cbn in H; by subst).
  induction data as [|c data IH]; intros s v rest Hs.
  { intros (-> & _ & H)%read_nil. by apply Hend. }
  pose proof (step_stacked s c Hs) as Hs'. cbn [read_value].
  destruct (scan_step s c) as [s' op] eqn:E. cbn [fst] in Hs'.
  assert (forall v', read_value s' data = RValue v' rest -> cons_raw c (read_value s' v') = RValue (c :: v') []) as Hgo
    by (intros v' E'; by rewrite (IH _ _ _ Hs' E')).
  destruct op; try done.
  - intros (v' & E' & ->)%cons_raw_inv. cbn [read_value]. rewrite E. by apply Hgo.
  - destruct (sc_stack s') eqn:Ek; [intros [= <- <-]; cbn [read_value]; by rewrite E, Ek|].
    intros (v' & E' & ->)%cons_raw_inv. cbn [read_value]. rewrite E, Ek. by apply Hgo.
  - intros (v' & E' & ->)%cons_raw_inv. cbn [read_value]. rewrite E. by apply Hgo.
  - intros [= <- <-]. apply Hend. apply (end_space s c Hs). by rewrite E.
Qed.

(** ** Strings *)

Definition in_string (st : scan_state) : bool :=
  match st with InString | InStringEsc | InStringEscU _ => true | _ => false end.

Lemma string_step st c : in_string st = true ->
  (exists s, scan_step (mkScanner st []) c = (s, scanError)) \/
  (exists st', in_string st' = true /\ scan_step (mkScanner st []) c = (mkScanner st' [], scanContinue)) \/
  (st = InString /\ c = x22).
Proof.
  destruct st as [| | | | | | | |n| | | | | | | | |]; try done; intros _; cbn [scan_step sc_step sc_stack].
  - case_bool_decide; [by right; right|]. case_bool_decide; [right; left; by exists InStringEsc|].
    destruct (_ <? _); [left; by eexists|right; left; by exists InString].
  - case_bool_decide; [right; left; by exists InString|]. case_bool_decide; [right; left; by exists (InStringEscU 4)|left; by eexists].
  - destruct (hex_val c); [right; left; eexists; split; [|reflexivity]; by destruct n as [|[]]|left; by eexists].
Qed.

(** A string literal up to its closing quote. *)
Lemma read_string data : forall st v rest, in_string st = true -> read_value (mkScanner st []) data = RValue v rest ->
  exists w, v = w ++ [x22] /\ feed (mkScanner st []) w = Some (mkScanner InString []).
Proof.
  induction data as [|c data IH]; intros st v rest Hst.
  - intros (_ & _ & H)%read_nil. destruct (string_step st x20 Hst) as [(s & E)|[(st' & _ & E)|[_ [=]]]]; by rewrite E in H.
  - destruct (string_step st c Hst) as [(s & E)|[(st' & Hst' & E)|[-> ->]]]; cbn [read_value].
    + by rewrite E.
    + rewrite E. intros (v' & (w & -> & Hw)%IH & ->)%cons_raw_inv; [|done]. exists (c :: w). split; [done|]. cbn [feed]. by rewrite E.
    + change (scan_step (mkScanner InString []) x22) with (mkScanner EndValue [], scanContinue). cbn iota.
      intros (v' & E & ->)%cons_raw_inv. exists []. split; [|done]. destruct data; cbn in E; by simplify_eq.
Qed.

Lemma lit_runes s r rs b : runes s = r :: rs -> lit r = Some b -> exists s', s = b :: s' /\ rs = runes s' /\ ascii b = true.
Proof.
  destruct s as [|c s]; [done|]. destruct (runes_step c s) as (r' & rest & -> & Hg & _ & E). intros [= -> <-].
  destruct r as [[|x [|y e]]|]; try done. intros [= ->]. apply good_lit in Hg. exists rest. by rewrite E.
Qed.

Lemma hex_ascii b d : hex_val b = Some d -> ascii b = true.
Proof. unfold hex_val. intros H. apply ascii_spec. repeat case_match; simplify_eq; match goal with H : between _ _ _ = true |- _ => apply between_spec in H end; lia. Qed.

(** Hexadecimal digits of an escape. *)
Lemma feed_escape n w : feed (mkScanner (InStringEscU (S n)) []) w = Some (mkScanner InString []) ->
  exists h d w', w = h :: w' /\ hex_val h = Some d
    /\ feed (mkScanner (match n with S m => InStringEscU (S m) | O => InString end) []) w' = Some (mkScanner InString []).
Proof.
  destruct w as [|h w]; [done|]. cbn [feed scan_step sc_step sc_stack]. destruct (hex_val h) as [d|] eqn:E; [|done].
  intros H. exists h, d, w. by destruct n.
Qed.

Lemma feed_escape4 w : feed (mkScanner (InStringEscU 4) []) w = Some (mkScanner InString []) ->
  exists h1 h2 h3 h4 w', w = h1 :: h2 :: h3 :: h4 :: w' /\ feed (mkScanner InString []) w' = Some (mkScanner InString [])
    /\ runes w = Rune [h1] :: Rune [h2] :: Rune [h3] :: Rune [h4] :: runes w'
    /\ exists r, hex4 (Rune [h1]) (Rune [h2]) (Rune [h3]) (Rune [h4]) = Some r.
Proof.
  intros (h1 & d1 & w1 & -> & E1 & (h2 & d2 & w2 & -> & E2 & (h3 & d3 & w3 & -> & E3 & (h4 & d4 & w4 & -> & E4 & H)%feed_escape)%feed_escape)%feed_escape)%feed_escape.
  exists h1, h2, h3, h4, w4. split; [done|]. split; [done|]. split.
  - rewrite !runes_ascii by (by eapply hex_ascii). done.
  - unfold hex4. cbn [lit mbind option_bind]. rewrite E1, E2, E3, E4. by eexists.
Qed.

Lemma feed_high k e : Forall high e -> feed (mkScanner InString k) e = Some (mkScanner InString k).
Proof.
  induction 1 as [|b l Hb _ IH]; [done|]. change (b :: l) with ([b] ++ l).
  rewrite feed_app, feed_plain; [done|..]; unfold high in Hb; [intros ->; by vm_compute in Hb..|lia].
Qed.

(** A rune above ASCII at the front. *)
Lemma high_front b s : ascii b = false -> exists e rest, b :: s = e ++ rest /\ Forall high e /\ (length rest < length (b :: s))%nat
  /\ (is_Some (unquote_runes (runes rest)) -> is_Some (unquote_runes (runes (b :: s)))).
Proof.
  intros Ha. destruct (runes_step b s) as (r & rest & E & Hg & Hl & Es). rewrite E. destruct r as [e|b'].
  - exists e, rest. destruct Hg as [_ [(x & -> & Hx)|[Hh He]]]; [cbn in Es; simplify_eq; by rewrite Ha in Hx|].
    split; [done|]. split; [done|]. split; [cbn; lia|]. destruct e as [|x [|y e]]; [cbn in He; lia..|].
    cbn [unquote_runes]. intros [v ->]. by eexists.
  - exists [b'], rest. cbn in Es. simplify_eq. split; [done|]. split; [repeat constructor; by apply not_ascii|].
    split; [cbn; lia|]. cbn [unquote_runes]. intros [v ->]. by eexists.
Qed.

Lemma unescape_letter c : c ∈ ["b"; "f"; "n"; "r"; "t"; x5c; x2f; x22] -> ascii c = true /\ c <> "u" /\ is_Some (unescape c).
Proof. intros H. repeat (apply elem_of_cons in H as [->|H]; [by split_and!; [done|done|eexists; reflexivity]|]). by apply elem_of_nil in H. Qed.

(** The low half of a pair, when it is one, is an escape too. *)
Lemma low_half_feed r q1 q2 q3 q4 q5 q6 rs r' w : low_half r q1 q2 q3 q4 q5 q6 = Some r' -> runes w = q1 :: q2 :: q3 :: q4 :: q5 :: q6 :: rs ->
  feed (mkScanner InString []) w = Some (mkScanner InString []) ->
  exists w', runes w' = rs /\ (length w' < length w)%nat /\ feed (mkScanner InString []) w' = Some (mkScanner InString []).
Proof.
  unfold low_half. destruct (_ && _) eqn:E; [|done]. apply andb_true_iff in E as [E1%bool_decide_eq_true E2%bool_decide_eq_true].
  intros _ Er. destruct (lit_runes _ _ _ _ Er E1) as (w1 & -> & Er1 & _). destruct (lit_runes _ _ _ _ (eq_sym Er1) E2) as (w2 & -> & Er2 & _).
  change (feed (mkScanner InString []) (x5c :: "u" :: w2)) with (feed (mkScanner (InStringEscU 4) []) w2).
  intros (h1 & h2 & h3 & h4 & w' & -> & Hf & Eh & _)%feed_escape4. exists w'. rewrite Eh in Er2. simplify_eq. split; [done|]. split; [cbn; lia|done].
Qed.

Lemma string_unquotes w : feed (mkScanner InString []) w = Some (mkScanner InString []) -> is_Some (unquote_runes (runes w)).
Proof.
  induction w as [w IH] using (induction_ltof1 _ length). unfold ltof in IH. intros Hf. destruct w as [|b s]; [by eexists|].
  destruct (ascii b) eqn:Ha.
  2: { destruct (high_front b s Ha) as (e & rest & Es & Hh & Hl & Hu). apply Hu, IH; [done|].
       by rewrite Es, feed_app, feed_high in Hf. }
  rewrite runes_ascii by done. cbn [unquote_runes]. destruct (decide (b = x5c)) as [->|Hb].
  2: { rewrite (bool_decide_false (b = x5c)) by done. cbn [feed scan_step sc_step sc_stack] in Hf.
       rewrite (bool_decide_false (b = x5c)) in Hf by done. case_bool_decide; [destruct s as [|c s]; [done|by cbn in Hf]|].
       cbn [orb]. destruct (byte_val b <? 0x20); [done|]. destruct (IH s ltac:(cbn; lia) Hf) as [v ->]. by eexists. }
  rewrite (bool_decide_true (x5c = x5c)) by done. destruct s as [|c s]; [done|].
  change (feed (mkScanner InString []) (x5c :: c :: s)) with (feed (mkScanner InStringEsc []) (c :: s)) in Hf.
  cbn [feed scan_step sc_step sc_stack] in Hf. case_bool_decide as Hc.
  { destruct (unescape_letter c Hc) as (Hca & Hcu & [x Hx]). rewrite runes_ascii by done. cbn [lit]. rewrite bool_decide_false, Hx by done.
    destruct (IH s ltac:(cbn; lia) Hf) as [v ->]. by eexists. }
  case_bool_decide as Hu; [subst c|done]. apply feed_escape4 in Hf as (h1 & h2 & h3 & h4 & w' & -> & Hf & Er & r & Hr).
  rewrite runes_ascii, Er by done. cbn [lit]. rewrite bool_decide_true, Hr by done.
  destruct (IH w' ltac:(cbn; lia) Hf) as [v Hv]. rewrite Hv. destruct (surrogate r); [|by eexists].
  destruct (runes w') as [|q1 [|q2 [|q3 [|q4 [|q5 [|q6 rs]]]]]] eqn:Ew; [by eexists..|].
  destruct (low_half r q1 q2 q3 q4 q5 q6) as [r'|] eqn:El; [|by eexists].
  destruct (low_half_feed _ _ _ _ _ _ _ _ _ _ El Ew Hf) as (w2 & <- & Hl & Hf2).
  destruct (IH w2 ltac:(cbn; lia) Hf2) as [v2 ->]. by eexists.
Qed.

(** The literal of a string, read from its opening quote. *)
Lemma read_unquotes s v rest : read_value scan_reset (x22 :: s) = RValue v rest -> is_Some (unquote v).
Proof.
  change (read_value scan_reset (x22 :: s)) with (cons_raw x22 (read_value (mkScanner InString []) s)).
  intros (v' & (w & -> & Hw)%read_string & ->)%cons_raw_inv; [|done]. cbn [unquote].
  rewrite rev_app_distr. cbn [rev app]. rewrite rev_involutive. by apply string_unquotes.
Qed.

(** ** What [compact] writes is a value *)

(** States in which a value is over, or a number may be. *)
Definition value_end (st : scan_state) : bool :=
  match st with EndValue | State0 | State1 | Dot0 | E0 => true | _ => false end.

(** The scanner of the output lags behind: the space after a number is gone. *)
Definition lags (so st : scan_state) (k : list parse_state) : Prop :=
  so = st \/ (st = EndValue /\ value_end so = true /\ k <> []).

Lemma lags_app so st k k0 : lags so st k -> lags so st (k ++ k0).
Proof. intros [-> |(-> & H & Hk)]; [by left|right]. split_and!; [done..|]. by destruct k. Qed.

Lemma lags_step so st k c : lags so st k ->
  (scan_step (mkScanner st k) c).2 <> scanError -> (scan_step (mkScanner st k) c).2 <> scanSkipSpace ->
  scan_step (mkScanner so k) c = scan_step (mkScanner st k) c.
Proof.
  intros [-> |(-> & H & Hk)]; [done|]. destruct k as [|p k]; [done|].
  destruct so; try done; revert H; step_by_cases; intros; try done; exfalso;
    repeat match goal with E : bool_decide _ = true |- _ => apply bool_decide_eq_true in E; subst end; done.
Qed.

Lemma ended_value_end st k : value_end st = true -> ended (mkScanner st k) k.
Proof.
  intros Hst c [-> |[-> |[-> |[-> | ->]]]]%closing_cases; by destruct st.
Qed.

(** What a scanner inside a value keeps. *)
Definition inside (st : scan_state) (k : list parse_state) : Prop :=
  match st with
  | EndTop => False
  | BeginStringOrEmpty | BeginValueOrEmpty => k <> []
  | InLit l => forallb (between 97 122) l = true
  | _ => True
  end.

Lemma inside_next st k c st' k' op : inside st k -> scan_step (mkScanner st k) c = (mkScanner st' k', op) ->
  op = scanContinue \/ op = scanSkipSpace \/ (op = scanEndComposite /\ k' <> []) -> inside st' k'.
Proof.
  destruct st; cbn [inside]; step_by_cases; cbn; intros Ha [= <- <- <-] Hop; try done;
    try (by destruct Hop as [|[|[]]]). by apply andb_true_iff in Ha as [_ Ha].
Qed.

Lemma end_value st k c : inside st k -> (scan_step (mkScanner st k) c).2 = scanEnd -> k = [] /\ value_end st = true.
Proof.
  intros Hin. destruct k as [|p k]; destruct st; try done; try (by destruct Hin); step_by_cases; done.
Qed.

Lemma skip_value st k c s' : scan_step (mkScanner st k) c = (s', scanSkipSpace) ->
  s' = mkScanner st k \/ (s' = mkScanner EndValue k /\ value_end st = true /\ k <> []).
Proof. destruct k as [|p k]; destruct st; step_by_cases; cbn; intros [= <-]; naive_solver. Qed.

Lemma html_value st k c s' op : (c == x3c) || (c == x3e) || (c == x26) = true -> inside st k ->
  scan_step (mkScanner st k) c = (s', op) -> op = scanContinue \/ op = scanEndComposite ->
  st = InString /\ s' = mkScanner InString k /\ op = scanContinue.
Proof.
  intros Hc Hin. assert (c = x3c \/ c = x3e \/ c = x26) as Hc'
    by (revert Hc; do 3 (case_bool_decide; [by auto|]); done). clear Hc.
  destruct st as [| | | | | | | |n| | | | | | | | |[|d l]]; try done; destruct k as [|p k]; try done;
    destruct Hc' as [-> |[-> | ->]]; try (by intros [= <- <-] [|]); try (by destruct p; intros [= <- <-] [|]);
    cbn [inside forallb] in Hin; apply andb_true_iff in Hin as [Hd _]; cbn [scan_step sc_step sc_stack];
    (case_bool_decide as E; [by rewrite <- E in Hd|by intros [= <- <-] [|]]).
Qed.

Lemma compact_top src k b : compact (mkScanner EndTop k) src = Some b -> b = [].
Proof.
  revert b. induction src as [|c src IH]; intros b; cbn [compact scan_step sc_step sc_stack goto]; [by intros [= <-]|].
  destruct (isSpace c); [apply IH|done].
Qed.

(** Where the scanner goes deeper the byte is a bracket. *)
Definition opens (src : bytes) : Z := zlen (filter (fun c => c = "{" \/ c = "[") src).

Lemma push_bracket st c st' p : (forall k, scan_step (mkScanner st k) c = push st' p k) -> c = "{" \/ c = "[".
Proof.
  intros H. specialize (H [parseArrayValue]). unfold push in H. change (zlen [p; parseArrayValue] <=? maxNestingDepth) with true in H.
  assert (length (sc_stack (scan_step (mkScanner st [parseArrayValue]) c).1) = 2%nat) as Hl by (by rewrite H). clear H.
  revert Hl. destruct st; step_by_cases; cbn; intros; simplify_eq/=;
    repeat match goal with E : bool_decide _ = true |- _ => apply bool_decide_eq_true in E; subst end; auto.
Qed.

Lemma opens_cons c src : opens (c :: src) = opens src + (if bool_decide (c = "{" \/ c = "[") then 1 else 0).
Proof.
  unfold opens. destruct (decide (c = "{" \/ c = "[")) as [H|H].
  - rewrite filter_cons_True, bool_decide_true, zlen_cons by done. lia.
  - rewrite filter_cons_False, bool_decide_false by done. lia.
Qed.

Lemma opens_nonneg src : 0 <= opens src.
Proof. apply zlen_nonneg. Qed.

Lemma step_depth st k c : zlen (sc_stack (scan_step (mkScanner st k) c).1) <= zlen k + (if bool_decide (c = "{" \/ c = "[") then 1 else 0).
Proof.
  destruct (decide (c = "{" \/ c = "[")) as [Hc|Hc]; [rewrite bool_decide_true by done|rewrite bool_decide_false by done].
  - destruct k; destruct st; step_by_cases; cbn [fst snd] in *; simplify_eq/=; unfold zlen; cbn [length]; lia.
  - destruct k; destruct st; step_by_cases; cbn [fst snd] in *; simplify_eq/=; unfold zlen; cbn [length]; try lia;
      repeat match goal with E : bool_decide _ = true |- _ => apply bool_decide_eq_true in E; subst end; tauto.
Qed.

(** [b] is what is left of a value at [(so, k)]: it ends where the input or a
    closing byte says so, alone and inside [k0] as long as the brackets, of
    which [n] are to come, nest no deeper than the scanner allows. *)
Definition scans (so : scan_state) (k : list parse_state) (n : Z) (b : bytes) : Prop :=
  (forall rest, (match rest with [] => true | c :: _ => closing c end) = true ->
     read_value (mkScanner so k) (b ++ rest) = RValue b rest) /\
  (forall k0, k0 <> [] -> zlen (k ++ k0) + n <= maxNestingDepth ->
     exists s, feed (mkScanner so (k ++ k0)) b = Some s /\ ended s k0).

Lemma scans_end st n : value_end st = true -> scans st [] n [].
Proof.
  intros Hst. split.
  - intros rest Hr. cbn [app]. by apply read_ended; [apply ended_value_end|].
  - intros k0 Hk _. eexists. split; [done|]. by apply ended_value_end.
Qed.

Lemma scans_escape k n b z : scans InString k n b -> scans InString k n (u_escape z ++ b).
Proof.
  intros [H1 H2]. split.
  - intros rest Hr. rewrite <- app_assoc, (read_feed _ _ _ _ (feed_u_escape k z)), H1 by done. done.
  - intros k0 Hk Hn. destruct (H2 k0 Hk Hn) as (s & E & He). exists s. split; [|done]. by rewrite feed_app, feed_u_escape.
Qed.

(** The nested scanner follows while the brackets leave it room. *)
Lemma step_nested st k k0 c src st' k' op : inside st k -> k0 <> [] ->
  scan_step (mkScanner st k) c = (mkScanner st' k', op) -> op = scanContinue \/ (op = scanEndComposite /\ k' <> []) ->
  zlen (k ++ k0) + opens (c :: src) <= maxNestingDepth ->
  scan_step (mkScanner st (k ++ k0)) c = (mkScanner st' (k' ++ k0), op).
Proof.
  intros Hin Hk E Hop Hd.
  destruct (step_local st k k0 c Hk) as [s E1 Hor|st1 k1 op1 E1 E2 _ _ _|E1 E2|s -> _ E2];
    [by intros -> |by intros -> | | | | ].
  - rewrite E in Hor. destruct Hor as [Hor|[Hmax (st1 & p & Hp%push_bracket)]]; [by destruct Hop as [-> |[-> _]]|].
    rewrite opens_cons, bool_decide_true in Hd by done. pose proof (opens_nonneg src). lia.
  - rewrite E in E2. injection E2 as <- <- <-. done.
  - rewrite E in E2. simplify_eq. by destruct Hop as [|[]].
  - rewrite E in E2. simplify_eq. by destruct Hop as [|[]].
Qed.

Lemma scans_step so st k c src st' k' op b : inside st k -> lags so st k ->
  scan_step (mkScanner st k) c = (mkScanner st' k', op) -> op = scanContinue \/ (op = scanEndComposite /\ k' <> []) ->
  scans st' k' (opens src) b -> scans so k (opens (c :: src)) (c :: b).
Proof.
  intros Hin Hl E Hop [H1 H2].
  assert (op <> scanError /\ op <> scanSkipSpace) as [Hn1 Hn2] by (destruct Hop as [-> |[-> _]]; done). split.
  - intros rest Hr. cbn [app read_value]. rewrite (lags_step so st k c Hl) by (by rewrite E). rewrite E.
    destruct Hop as [-> |[-> Hk]]; cbn [sc_stack]; [by rewrite H1|]. destruct k'; [done|]. by rewrite H1.
  - intros k0 Hk Hd. pose proof (step_nested st k k0 c src st' k' op Hin Hk E Hop Hd) as En.
    destruct (H2 k0 Hk) as (s & Ef & He).
    { pose proof (step_depth st k c) as Hs. rewrite E in Hs. cbn [fst sc_stack] in Hs. rewrite opens_cons in Hd. rewrite zlen_app in *. lia. }
    exists s. split; [|done]. cbn [feed]. rewrite (lags_step so st (k ++ k0) c) by (by apply lags_app || by rewrite En). rewrite En.
    destruct Hop as [-> |[-> Hk']]; [done|]. cbn [sc_stack]. by destruct k'.
Qed.

(** The closing bracket of the whole value. *)
Lemma scans_close so st k c n s : inside st k -> lags so st k -> scan_step (mkScanner st k) c = (mkScanner s [], scanEndComposite) ->
  scans so k n [c].
Proof.
  intros Hin Hl E. split.
  - intros rest Hr. cbn [app read_value]. rewrite (lags_step so st k c Hl) by (by rewrite E). by rewrite E.
  - intros k0 Hk _. exists (mkScanner EndValue k0). split; [|apply ended_EndValue].
    destruct (step_local st k k0 c Hk) as [s1 E1 Hor|st1 k1 op1 E1 E2 H1 _ H3|E1 E2|s1 -> _ E2];
      [by intros -> |by intros -> | | | |].
    + exfalso. destruct Hor as [Hor|[_ (st1 & p & Hp)]]; [by rewrite E in Hor|]. rewrite Hp in E. unfold push in E. by case_match.
    + rewrite E in E2. simplify_eq. by destruct H3 as [|[|[]]].
    + cbn [feed]. rewrite (lags_step so st (k ++ k0) c) by (by apply lags_app || by rewrite E1). rewrite E1. cbn [sc_stack]. by destruct k0.
    + by rewrite E in E2.
Qed.

Lemma lags_end so st : lags so st [] -> so = st.
Proof. by intros [|(_ & _ & [])]. Qed.

Lemma scans_more so k n n' b : n <= n' -> scans so k n b -> scans so k n' b.
Proof. intros Hn [H1 H2]. split; [done|]. intros k0 Hk Hd. apply H2; [done|lia]. Qed.

Lemma top_state st k c st' k' op : scan_step (mkScanner st k) c = (mkScanner st' k', op) ->
  op = scanEnd \/ (op = scanEndComposite /\ k' = []) -> st' = EndTop.
Proof. destruct k as [|p [|q k]]; destruct st; step_by_cases; cbn; intros [= <- <- <-] [|[]]; done. Qed.

(** One byte of the source, and what the rest makes of it. *)
Lemma compact_byte st so k c src b : inside st k -> lags so st k ->
  (forall st so k b, inside st k -> lags so st k -> compact (mkScanner st k) src = Some b -> scans so k (opens src) b) ->
  match scan_step (mkScanner st k) c with
  | (_, scanError) => None
  | (s', scanSkipSpace) => compact s' src
  | (s', scanEnd) => if isSpace c then compact s' src else None
  | (s', _) => ((if (c == x3c) || (c == x3e) || (c == x26) then u_escape (byte_val c) else [c]) ++.) <$> compact s' src
  end = Some b -> scans so k (opens (c :: src)) b.
Proof.
  intros Hin Hl IH. assert (opens src <= opens (c :: src)) as Ho by (rewrite opens_cons; case_bool_decide; lia).
  destruct (scan_step (mkScanner st k) c) as [[st' k'] op] eqn:E.
  destruct op; [| | | |done].
  - pose proof (inside_next _ _ _ _ _ _ Hin E ltac:(auto)) as Hin'. intros (b' & E' & ->)%fmap_Some.
    destruct (_ || _) eqn:Hh.
    + destruct (html_value st k c _ _ Hh Hin E) as (-> & [= -> ->] & _); [auto|].
      assert (so = InString) as -> by (by destruct Hl as [|[]]). apply scans_escape, (scans_more _ _ (opens src)); [done|].
      apply (IH InString); [done|by left|done].
    + eapply scans_step; [done..|auto|]. apply (IH st'); [done|by left|done].
  - intros (b' & E' & ->)%fmap_Some. destruct (_ || _) eqn:Hh.
    { by destruct (html_value st k c _ _ Hh Hin E) as (_ & _ & ?); [auto|]. }
    destruct (decide (k' = [])) as [->|Hk].
    + assert (st' = EndTop) as -> by (eapply top_state; [exact E|auto]). apply compact_top in E' as ->. by eapply scans_close.
    + pose proof (inside_next _ _ _ _ _ _ Hin E ltac:(auto)) as Hin'. eapply scans_step; [done..|auto|].
      apply (IH st'); [done|by left|done].
  - pose proof (inside_next _ _ _ _ _ _ Hin E ltac:(auto)) as Hin'. intros E'. apply (scans_more _ _ (opens src)); [done|].
    destruct (skip_value _ _ _ _ E) as [[= -> ->]|([= -> ->] & Hv & Hk)]; [by apply (IH st)|]. apply (IH EndValue); [done| |done].
    destruct Hl as [-> |(_ & Hs & _)]; by right.
  - destruct (isSpace c); [|done]. assert (st' = EndTop) as -> by (eapply top_state; [exact E|auto]). intros ->%compact_top.
    destruct (end_value st k c Hin) as [-> Hv]; [by rewrite E|]. apply lags_end in Hl as ->. by apply scans_end.
Qed.

Lemma compact_scans src : forall st so k b, inside st k -> lags so st k -> compact (mkScanner st k) src = Some b ->
  scans so k (opens src) b.
Proof.
  induction src as [src IH] using (induction_ltof1 _ length). unfold ltof in IH. intros st so k b Hin Hl.
  destruct src as [|c src]; cbn [compact].
  { destruct (scan_step (mkScanner st k) x20) as [s []] eqn:E; try done. intros [= <-].
    destruct (end_value st k x20 Hin) as [-> Hv]; [by rewrite E|]. apply lags_end in Hl as ->. by apply scans_end. }
  pose proof (compact_byte st so k c src b Hin Hl (IH src ltac:(cbn; lia))) as Hplain.
  cbn [sc_step]. destruct st; try exact Hplain. destruct src as [|d [|e src3]]; try exact Hplain.
  destruct ((c == xe2) && (d == x80) && ((e == xa8) || (e == xa9))); [|exact Hplain].
  intros (b' & E & ->)%fmap_Some. assert (so = InString) as -> by (by destruct Hl as [|[]]).
  apply scans_escape, (scans_more _ _ (opens src3)); [rewrite !opens_cons; repeat case_bool_decide; lia|].
  by apply (IH src3 ltac:(cbn; lia) InString).
Qed.

Lemma compact_head src b : compact scan_reset src = Some b -> exists c v, b = c :: v /\ isSpace c = false /\ c <> "}".
Proof.
  induction src as [|c src IH]; [done|]. cbn [compact scan_reset sc_step scan_step sc_stack].
  destruct (isSpace c) eqn:Es; [unfold stateBeginValue; rewrite Es; exact IH|].
  assert (forall s' op, stateBeginValue c [] = (s', op) -> op <> scanError -> c <> "}" /\ ((c == x3c) || (c == x3e) || (c == x26) = false) /\ op = scanContinue) as H.
  { intros s' op E Hop. split_and!.
    - intros ->. by injection E as <- <-.
    - destruct (_ || _) eqn:Hh; [|done]. exfalso. revert E Hop.
      assert (c = x3c \/ c = x3e \/ c = x26) as [-> |[-> | ->]] by (revert Hh; do 3 (case_bool_decide; [by auto|]); done); by intros [= <- <-].
    - revert E Hop. unfold stateBeginValue, push. rewrite Es. repeat case_match; by intros [= <- <-]. }
  destruct (stateBeginValue c []) as [s' op]. specialize (H s' op eq_refl).
  assert (op = scanError \/ op <> scanError) as [-> |Hop] by (destruct op; auto); [done|].
  destruct (H Hop) as (Hc & Hh & ->). rewrite Hh.
  intros (b' & _ & ->)%fmap_Some. by exists c, b'.
Qed.

(** A compacted value, anywhere the depth of its source leaves room for. *)
Lemma compact_value n src b : compact scan_reset src = Some b -> Z.of_nat n + opens src <= maxNestingDepth -> value_text n b.
Proof.
  intros E Hn. destruct (compact_scans src BeginValue BeginValue [] b I ltac:(by left) E) as [H1 H2].
  constructor; [|exact H1|by apply compact_head in E]. intros k Hk Hne. apply (H2 k Hne). unfold zlen. cbn [app]. lia.
Qed.
