(* ===== verification/ExecJson.v ===== *)
(** * The JSON body of EXEC: [ExecCmd.MarshalBinary], [ExecCmd.UnmarshalBinary]

    [json.Marshal] of an [ExecCmd]; the decoder with [DisallowUnknownFields]
    into an [ExecCmd], as [encoding/json] does it: one value is found first, then
    its members are stored one after the other, an error is remembered and
    decoding goes on.  A field is found by its name or by the name under Unicode
    folding; a repeated member overwrites, a repeated [env] adds to the map.

    The texts of [encoding/json]'s errors are a parameter, [json_text]; nothing
    depends on them.  With this decoder in hand, the last part takes every
    message of the program through the registry and back. *)
From Stdlib Require Import ZArith Lia Strings.Byte.
From stdpp Require Import base list gmap strings sorting pretty.
From S2P Require Import Prelude GoIO Wire Frame Hello Codec MsgApp Messages Heartbeat Exec Registry Json JsonScan.

Open Scope Z_scope.
Open Scope byte_scope.
Open Scope json_scope.

(** ** Fields *)

Inductive field := FCommand | FWorkdir | FEnv | FTimeoutMs | FSpec.

#[global] Instance field_eq_dec : EqDecision field.
Proof. solve_decision. Defined.

Definition field_name (f : field) : bytes :=
  match f with
  | FCommand => str "command" | FWorkdir => str "workdir" | FEnv => str "env"
  | FTimeoutMs => str "timeout_ms" | FSpec => str "spec"
  end.

Definition fields : list field := [FCommand; FWorkdir; FEnv; FTimeoutMs; FSpec].

(** [foldName]: ASCII letters to upper case; the two other runes that fold to
    an ASCII letter (the Kelvin sign and the long s); the rest fold among
    themselves and match no field. *)
Definition fold_rune (r : rune) : bytes :=
  match r with
  | Rune [b] => [if between 97 122 b then byte_of (byte_val b - 32) else b]
  | Rune e => if e == [xe2; x84; xaa] then ["K"] else if e == [xc5; xbf] then ["S"] else e
  | BadByte _ => replacement
  end.

Definition foldName (s : bytes) : bytes := concat (fold_rune <$> runes s).

Definition find_field (key : bytes) : option field :=
  match list_find (fun f => field_name f = key) fields with
  | Some (_, f) => Some f
  | None => snd <$> list_find (fun f => foldName (field_name f) = foldName key) fields
  end.

(** ** The decoder *)

Fixpoint skip_space (s : bytes) : bytes :=
  match s with c :: s' => if isSpace c then skip_space s' else s | [] => [] end.

Definition split_value (s : bytes) : option (bytes * bytes) :=
  match read_value scan_reset s with RValue raw rest => Some (raw, rest) | _ => None end.

(** The rest after the byte [c]. *)
Definition eat (c : byte) (s : bytes) : option bytes :=
  match s with d :: s' => if d == c then Some s' else None | [] => None end.

(** The members of an object, as literals, from after its opening bracket. *)
Fixpoint members (fuel : nat) (s : bytes) : option (list (bytes * bytes)) :=
  match fuel with
  | O => None
  | S fuel =>
      match eat "}" (skip_space s) with
      | Some _ => Some []
      | None =>
          '(key, s) ← split_value (skip_space s);
          s ← eat ":" (skip_space s);
          '(val, s) ← split_value (skip_space s);
          match eat "}" (skip_space s) with
          | Some _ => Some [(key, val)]
          | None => s ← eat "," (skip_space s); ((key, val) ::.) <$> members fuel s
          end
      end
  end.

Inductive kind := KNull | KBool | KNumber | KString | KArray | KObject.

Definition value_kind (raw : bytes) : kind :=
  match raw with
  | [] => KNumber
  | c :: _ =>
      if c == "{" then KObject else if c == "[" then KArray else if c == x22 then KString
      else if c == "n" then KNull else if (c == "t") || (c == "f") then KBool else KNumber
  end.

Definition kind_text (k : kind) : bytes :=
  match k with
  | KNull => str "null" | KBool => str "bool" | KNumber => str "number"
  | KString => str "string" | KArray => str "array" | KObject => str "object"
  end.

(** A store gives the new value or an error to remember; [None]: the text is
    not what the scanner let through. *)
Definition stored (A : Type) : Type := option (A + json_error).

Definition type_error {A} (f : field) (raw : bytes) : stored A :=
  Some (inr (UnmarshalTypeError (kind_text (value_kind raw)) (field_name f))).

(** A string field: [null] leaves it alone. *)
Definition store_string (f : field) (raw old : bytes) : stored bytes :=
  match value_kind raw with
  | KNull => Some (inl old)
  | KString => inl <$> unquote raw
  | _ => type_error f raw
  end.

(** [strconv.ParseInt(s, 10, 64)]. *)
Definition ParseInt64 (s : bytes) : option Z :=
  let '(sign, ds) := match eat "-" s with Some ds => (-1, ds) | None => (1, s) end in
  if negb (bool_decide (ds = [])) && forallb digit ds && i64 (sign * digits_val ds)
  then Some (sign * digits_val ds) else None.

Definition store_int64 (f : field) (raw : bytes) : stored (option Z) :=
  match value_kind raw with
  | KNull => Some (inl None)
  | KNumber =>
      match ParseInt64 raw with
      | Some z => Some (inl (Some z))
      | None => Some (inr (UnmarshalTypeError (str "number " ++ raw) (field_name f)))
      end
  | _ => type_error f raw
  end.

(** [saveError] keeps the first. *)
Definition save (e : json_error) (old : option json_error) : option json_error :=
  match old with Some e => Some e | None => Some e end.

Definition store_env_member (km : bytes * bytes) (acc : gmap bytes bytes * option json_error) :
    option (gmap bytes bytes * option json_error) :=
  key ← unquote km.1;
  r ← store_string FEnv km.2 [];
  Some (match r with inl v => (<[key := v]> acc.1, acc.2) | inr e => (<[key := []]> acc.1, save e acc.2) end).

Fixpoint store_all {A B} (f : B -> A -> option A) (l : list B) (a : A) : option A :=
  match l with [] => Some a | b :: l => a ← f b a; store_all f l a end.

Definition store_env (raw : bytes) (old : gmap bytes bytes) : stored (gmap bytes bytes) :=
  match value_kind raw with
  | KNull => Some (inl ∅)
  | KObject =>
      kms ← members (length raw) (drop 1 raw);
      '(env, err) ← store_all store_env_member kms (old, None);
      Some (match err with None => inl env | Some e => inr e end)
  | _ => type_error FEnv raw
  end.

Definition set_Command (v : bytes) (m : ExecCmd) := mkExecCmd v (Workdir m) (Env m) (TimeoutMs m) (Spec m).
Definition set_Workdir (v : bytes) (m : ExecCmd) := mkExecCmd (Command m) v (Env m) (TimeoutMs m) (Spec m).
Definition set_Env (v : gmap bytes bytes) (m : ExecCmd) := mkExecCmd (Command m) (Workdir m) v (TimeoutMs m) (Spec m).
Definition set_TimeoutMs (v : option Z) (m : ExecCmd) := mkExecCmd (Command m) (Workdir m) (Env m) v (Spec m).
Definition set_Spec (v : bytes) (m : ExecCmd) := mkExecCmd (Command m) (Workdir m) (Env m) (TimeoutMs m) v.

Definition stored_in {A} (set : A -> ExecCmd -> ExecCmd) (r : stored A) (m : ExecCmd) : stored ExecCmd :=
  match r with
  | None => None
  | Some (inl v) => Some (inl (set v m))
  | Some (inr e) => Some (inr e)
  end.

Definition store_field (f : field) (raw : bytes) (m : ExecCmd) : stored ExecCmd :=
  match f with
  | FCommand => stored_in set_Command (store_string f raw (Command m)) m
  | FWorkdir => stored_in set_Workdir (store_string f raw (Workdir m)) m
  | FEnv => stored_in set_Env (store_env raw (Env m)) m
  | FTimeoutMs => stored_in set_TimeoutMs (store_int64 f raw) m
  | FSpec => Some (inl (set_Spec raw m))
  end.

Definition store_member (km : bytes * bytes) (acc : ExecCmd * option json_error) : option (ExecCmd * option json_error) :=
  key ← unquote km.1;
  match find_field key with
  | None => Some (acc.1, save (UnknownField key) acc.2)
  | Some f =>
      r ← store_field f km.2 acc.1;
      Some (match r with inl m => (m, acc.2) | inr e => (acc.1, save e acc.2) end)
  end.

(** [d.unmarshal] of one value into [m]. *)
Definition unmarshal_value (raw : bytes) (m : ExecCmd) : stored ExecCmd :=
  match value_kind raw with
  | KNull => Some (inl m)
  | KObject =>
      kms ← members (length raw) (drop 1 raw);
      '(m, err) ← store_all store_member kms (m, None);
      Some (match err with None => inl m | Some e => inr e end)
  | k => Some (inr (UnmarshalTypeError (kind_text k) []))
  end.

(** [Decoder.More]. *)
Definition More (s : bytes) : bool :=
  match skip_space s with
  | [] => false
  | c :: _ => negb ((c == "]") || (c == "}"))
  end.

(** ** The encoder *)

(** Map keys are sorted by their bytes. *)
Fixpoint bytes_leb (a b : bytes) : bool :=
  match a, b with
  | [], _ => true
  | _ :: _, [] => false
  | x :: a, y :: b => (byte_val x <? byte_val y) || ((byte_val x =? byte_val y)%Z && bytes_leb a b)
  end.

Definition key_le (p q : bytes * bytes) : Prop := bytes_leb p.1 q.1 = true.

#[global] Instance key_le_dec : RelDecision key_le.
Proof. intros p q. unfold key_le. apply _. Defined.

Definition sorted_env (m : gmap bytes bytes) : list (bytes * bytes) := merge_sort key_le (map_to_list m).

Definition env_member (p : bytes * bytes) : bytes := quote p.1 ++ [":"] ++ quote p.2.

(** [omitempty] drops what is empty. *)
Definition env_part (m : ExecCmd) : bytes :=
  match sorted_env (Env m) with
  | [] => []
  | l => [","] ++ quote (str "env") ++ [":"; "{"] ++ joined (env_member <$> l) ++ ["}"]
  end.

Definition timeout_part (m : ExecCmd) : bytes :=
  match TimeoutMs m with Some t => [","] ++ quote (str "timeout_ms") ++ [":"] ++ fmt_d t | None => [] end.

Definition exec_text (m : ExecCmd) (spec : bytes) : bytes :=
  ["{"] ++ quote (str "command") ++ [":"] ++ quote (Command m) ++ [","] ++ quote (str "workdir") ++ [":"] ++ quote (Workdir m)
  ++ env_part m ++ timeout_part m ++ spec ++ ["}"].

Section Exec.

Context (json_text : json_error -> bytes).

Definition ExecCmd_MarshalBinary (m : ExecCmd) : result bytes :=
  match Spec m with
  | [] => Ok (exec_text m [])
  | spec =>
      match compact scan_reset spec with
      | Some b => Ok (exec_text m ([","] ++ quote (str "spec") ++ [":"] ++ b))
      | None => Err (Errorf (json_text MarshalerError))
      end
  end.

(** What [encoding/json] panics with when its two passes disagree. *)
Definition phasePanic : error := Errorf (str "JSON decoder out of sync - data changing underfoot?").

Definition decode_failed {A} (e : error) : result A := Err (Wrapf (str "exec: decode body: ") e []).

Definition ExecCmd_UnmarshalBinary (m : ExecCmd) (data : bytes) : result ExecCmd :=
  match read_value scan_reset data with
  | REOF => Ok m
  | RUnexpectedEOF => decode_failed io_ErrUnexpectedEOF
  | RSyntax s c => decode_failed (Errorf (json_text (SyntaxError s c)))
  | RValue raw rest =>
      match unmarshal_value (skip_space raw) m with
      | None => Err phasePanic
      | Some (inr e) => decode_failed (Errorf (json_text e))
      | Some (inl m) => if More rest then Err (Errorf (str "exec: trailing data after body")) else Ok m
      end
  end.

End Exec.

Definition zero_exec : ExecCmd := mkExecCmd [] [] ∅ None [].

(** ** Decoding what was encoded *)

Lemma skip_head c s : isSpace c = false -> skip_space (c :: s) = c :: s.
Proof. intros H. cbn. by rewrite H. Qed.

Lemma value_head n v rest : value_text n v -> skip_space (v ++ rest) = v ++ rest /\ eat "}" (v ++ rest) = None.
Proof.
  intros [_ _ (c & v' & -> & Hs & Hc)]. cbn [app]. split; [by apply skip_head|]. cbn. by rewrite bool_decide_false.
Qed.

Lemma value_split n v c rest : value_text n v -> closing c = true -> split_value (v ++ c :: rest) = Some (v, c :: rest).
Proof. intros Hv Hc. unfold split_value. by rewrite (vt_split n v Hv (c :: rest)). Qed.

(** The members of an object's text. *)
Lemma members_text n l rest : forall fuel, (length l <= fuel)%nat -> Forall (fun p => value_text n p.2) l -> l <> [] ->
  members fuel (joined (member_text <$> l) ++ "}" :: rest) = Some ((fun p => (quote p.1, p.2)) <$> l).
Proof.
  induction l as [|p l IH]; intros fuel Hf Hl Hne; [done|]. apply Forall_cons in Hl as [Hp Hl]. destruct fuel as [|fuel]; [cbn in Hf; lia|].
  assert (forall c s, closing c = true -> isSpace c = false -> 
    members (S fuel) (member_text p ++ c :: s) =
      match eat "}" (c :: s) with
      | Some _ => Some [(quote p.1, p.2)]
      | None => s ← eat "," (c :: s); ((quote p.1, p.2) ::.) <$> members fuel s
      end) as Hone.
  { intros c s Hc Hsp. unfold member_text. rewrite <- !app_assoc. cbn [members app].
    destruct (value_head n (quote p.1) (":" :: p.2 ++ c :: s) (quote_value n _)) as [-> ->].
    rewrite (value_split n) by (done || apply quote_value). cbn [mbind option_bind]. rewrite skip_head by done. cbn [eat].
    rewrite bool_decide_true by done. cbn [mbind option_bind]. destruct (value_head n p.2 (c :: s) Hp) as [-> _].
    rewrite (value_split n) by done. cbn [mbind option_bind]. by rewrite !skip_head by done. }
  destruct l as [|q l].
  - cbn [fmap list_fmap joined]. by rewrite Hone by done.
  - cbn [fmap list_fmap joined]. rewrite <- !app_assoc. cbn [app]. rewrite Hone by done. cbn [eat].
    rewrite (bool_decide_false ("," = "}")), (bool_decide_true ("," = ",")) by done. cbn [mbind option_bind].
    change (match (member_text <$> l) with [] => member_text q | _ :: _ => _ end) with (joined (member_text <$> q :: l)).
    rewrite IH by (done || cbn in *; lia). done.
Qed.

Lemma joined_cons2 x y l : joined (x :: y :: l) = x ++ [","] ++ joined (y :: l).
Proof. done. Qed.

Lemma length_joined l : Forall (fun p => p <> []) l -> (length l <= length (joined l))%nat.
Proof.
  induction 1 as [|x l Hx _ IH]; [done|]. destruct x as [|c x]; [done|]. destruct l as [|y l]; [cbn; lia|].
  rewrite joined_cons2, !length_app. cbn [length] in IH |- *. lia.
Qed.

Lemma object_members n l rest : Forall (fun p => value_text n p.2) l -> l <> [] ->
  members (length (object_text l)) (drop 1 (object_text l ++ rest)) = Some ((fun p => (quote p.1, p.2)) <$> l).
Proof.
  intros Hl Hne. unfold object_text. cbn [app drop]. rewrite drop_0, <- app_assoc. apply (members_text n); try done.
  assert (Forall (fun p => p <> []) (member_text <$> l)) as Hm by (apply Forall_fmap, Forall_true; done).
  apply length_joined in Hm. rewrite length_fmap in Hm. cbn [length]. rewrite length_app. lia.
Qed.

(** Members of the environment. *)
Lemma kind_quote s : value_kind (quote s) = KString.
Proof. done. Qed.

Lemma store_quoted f s old : store_string f (quote s) old = Some (inl (to_valid s)).
Proof. unfold store_string. by rewrite kind_quote, unquote_quote. Qed.

(** The environment that is stored: names and values with U+FFFD for what is not
    UTF-8, in the order of the wire, a later name over an earlier one. *)
Definition env_arrives (l : list (bytes * bytes)) (acc : gmap bytes bytes) : gmap bytes bytes :=
  foldl (fun m kv => <[to_valid kv.1 := to_valid kv.2]> m) acc l.

Lemma store_env_members l acc :
  store_all store_env_member ((fun p => (quote p.1, p.2)) <$> ((fun p => (p.1, quote p.2)) <$> l)) (acc, None)
  = Some (env_arrives l acc, None).
Proof.
  revert acc. induction l as [|[k v] l IH]; intros acc; [done|]. cbn [fmap list_fmap store_all].
  assert (store_env_member (quote k, quote v) (acc, None) = Some (<[to_valid k := to_valid v]> acc, None)) as E.
  { unfold store_env_member. cbn [fst snd]. rewrite unquote_quote. cbn [mbind option_bind]. by rewrite store_quoted. }
  cbn [fst snd]. rewrite E. apply IH.
Qed.

Lemma sorted_env_perm m : sorted_env m ≡ₚ map_to_list m.
Proof. apply merge_sort_Permutation. Qed.

Lemma sorted_env_map m : foldl (fun m kv => <[kv.1 := kv.2]> m) ∅ (sorted_env m) = m.
Proof.
  assert (NoDup (sorted_env m).*1) as Hn by (rewrite sorted_env_perm; apply NoDup_fst_map_to_list).
  rewrite foldl_insert_map, map_union_empty by (done || intros; apply lookup_empty).
  rewrite (list_to_map_proper _ (map_to_list m)) by (done || apply sorted_env_perm). apply list_to_map_to_list.
Qed.

Definition env_utf8 (m : gmap bytes bytes) : Prop := map_Forall (fun k v => valid_utf8 k = true /\ valid_utf8 v = true) m.

Lemma env_arrives_id m : env_utf8 m -> env_arrives (sorted_env m) ∅ = m.
Proof.
  intros Hm. rewrite <- (sorted_env_map m) at 2. unfold env_arrives.
  assert (Forall (fun p => valid_utf8 p.1 = true /\ valid_utf8 p.2 = true) (sorted_env m)) as Hok.
  { rewrite sorted_env_perm. apply map_Forall_to_list in Hm. eapply Forall_impl; [exact Hm|]. by intros []. }
  generalize (∅ : gmap bytes bytes). induction Hok as [|[k v] l [Hk Hv] _ IH]; intros acc; [done|].
  cbn [foldl fst snd] in *. by rewrite !to_valid_id, IH.
Qed.

Lemma store_env_text m : m <> ∅ ->
  store_env (object_text ((fun p => (p.1, quote p.2)) <$> sorted_env m)) ∅ = Some (inl (env_arrives (sorted_env m) ∅)).
Proof.
  intros Hne. unfold store_env. change (value_kind (object_text _)) with KObject. cbn iota.
  rewrite <- (app_nil_r (object_text _)) at 2. rewrite (object_members 2).
  - cbn [mbind option_bind]. rewrite store_env_members. done.
  - apply Forall_fmap. apply Forall_true. intros p. apply quote_value.
  - intros E%fmap_nil_inv. apply Hne. apply map_to_list_empty_iff. apply Permutation_nil. by rewrite <- sorted_env_perm, E.
Qed.

(** Numbers. *)
Lemma ParseInt64_fmt_d z : i64 z = true -> ParseInt64 (fmt_d z) = Some z /\ value_kind (fmt_d z) = KNumber.
Proof.
  intros Hz. destruct (fmt_d_text z) as (sign & c & ds & E & Hsign & Hd & Hv & _). rewrite E.
  assert (forallb digit (c :: ds) = true -> 48 <= byte_val c <= 57) as Hc
    by (cbn [forallb]; by intros [?%between_spec _]%andb_true_iff).
  specialize (Hc Hd).
  assert (forall b, b ∈ ["-"; "{"; "["; x22; "n"; "t"; "f"] -> c <> b) as Hne.
  { intros b Hb ->. repeat (apply elem_of_cons in Hb as [->|Hb]; [by vm_compute in Hc; destruct Hc as [H1 H2]; first [by destruct H1|by destruct H2]|]).
    by apply elem_of_nil in Hb. }
  unfold ParseInt64. destruct Hsign as [[-> Hs]|[-> Hs]]; cbn [app eat].
  - rewrite bool_decide_false by (apply Hne; constructor). rewrite Hd, Hv, Z.mul_1_l, Z.abs_eq, Hz by lia. split; [done|].
    unfold value_kind. rewrite !bool_decide_false by (apply Hne; repeat (constructor || apply elem_of_list_further)). done.
  - rewrite (bool_decide_true ("-" = "-")) by done. rewrite Hd, Hv, Z.abs_neq by lia.
    replace (-1 * - z) with z by lia. by rewrite Hz.
Qed.

(** ** The round trip *)

(** The text of a spec that has been compacted. *)
Definition spec_part (b : bytes) : bytes :=
  match b with [] => [] | _ => [","] ++ quote (str "spec") ++ [":"] ++ b end.

(** What the encoder writes, as members. *)
Definition exec_members (m : ExecCmd) (b : bytes) : list (bytes * bytes) :=
  [(str "command", quote (Command m)); (str "workdir", quote (Workdir m))]
  ++ match sorted_env (Env m) with [] => [] | l => [(str "env", object_text ((fun p => (p.1, quote p.2)) <$> l))] end
  ++ match TimeoutMs m with Some t => [(str "timeout_ms", fmt_d t)] | None => [] end
  ++ match b with [] => [] | _ => [(str "spec", b)] end.

Lemma env_members (l : list (bytes * bytes)) : env_member <$> l = member_text <$> ((fun p => (p.1, quote p.2)) <$> l).
Proof. by rewrite <- list_fmap_compose. Qed.

Lemma exec_text_object m b : exec_text m (spec_part b) = object_text (exec_members m b).
Proof.
  unfold exec_text, exec_members, env_part, timeout_part, spec_part.
  assert (forall l, object_text ((fun p => (p.1, quote p.2)) <$> l) = ["{"] ++ joined (env_member <$> l) ++ ["}"]) as He
    by (intros l; by rewrite env_members).
  destruct (sorted_env (Env m)) as [|p l] eqn:E; [|rewrite He; clear He; set (joined _)]; destruct (TimeoutMs m) as [t|]; destruct b as [|c b];
    unfold object_text, member_text; cbn [app fmap list_fmap joined fst snd];
    repeat first [progress cbn [app] | rewrite <- app_assoc]; done.
Qed.

(** A spec as it can be sent: none, or one JSON value, compacted. *)
Definition spec_arrives (m : ExecCmd) : option bytes :=
  match Spec m with [] => Some [] | spec => compact scan_reset spec end.

(** A Go value, the timeout being an int64, and a spec that the object around it
    does not push over the nesting limit of the decoder. *)
Record exec_ok (m : ExecCmd) : Prop := {
  ok_timeout : match TimeoutMs m with Some t => i64 t = true | None => True end;
  ok_spec : opens (Spec m) < maxNestingDepth }.

Lemma exec_members_values m b : exec_ok m -> spec_arrives m = Some b -> Forall (fun p => value_text 1 p.2) (exec_members m b).
Proof.
  intros [_ Hs] Hb. unfold exec_members. apply Forall_app_2; [|apply Forall_app_2; [|apply Forall_app_2]].
  - apply Forall_cons_2; [apply quote_value|]. apply Forall_singleton, quote_value.
  - destruct (sorted_env (Env m)) as [|p l]; [constructor|]. apply Forall_singleton, object_value; [done| |done].
    apply Forall_fmap, Forall_true. intros q. apply quote_value.
  - destruct (TimeoutMs m); [apply Forall_singleton, number_value|constructor].
  - destruct b as [|c b]; [constructor|]. apply Forall_singleton. unfold spec_arrives in Hb.
    destruct (Spec m) as [|d s]; [done|]. apply (compact_value 1 (d :: s)); [done|lia].
Qed.

(** An object ends at its bracket, whatever follows. *)
Lemma exec_read m b rest : exec_ok m -> spec_arrives m = Some b ->
  read_value scan_reset (exec_text m (spec_part b) ++ rest) = RValue (exec_text m (spec_part b)) rest.
Proof. intros Hm Hb. rewrite exec_text_object. apply (object_read 0); [done|by apply exec_members_values|done]. Qed.

(** What arrives: bytes that are not UTF-8 have become U+FFFD, and a spec has
    lost its spaces. *)
Definition arrives (m : ExecCmd) : ExecCmd :=
  mkExecCmd (to_valid (Command m)) (to_valid (Workdir m)) (env_arrives (sorted_env (Env m)) ∅) (TimeoutMs m)
    (default [] (spec_arrives m)).

(** What survives unchanged. *)
Record exact (m : ExecCmd) : Prop := {
  exact_command : valid_utf8 (Command m) = true;
  exact_workdir : valid_utf8 (Workdir m) = true;
  exact_env : env_utf8 (Env m);
  exact_spec : spec_arrives m = Some (Spec m) }.

Lemma arrives_id m : exact m -> arrives m = m.
Proof. intros [Hc Hw He Hs]. unfold arrives. rewrite !to_valid_id, Hs, env_arrives_id by done. by destruct m. Qed.

(** One member whose field is found and stored. *)
Lemma store_member_ok key f raw m m' err : valid_utf8 key = true -> find_field key = Some f ->
  store_field f raw m = Some (inl m') -> store_member (quote key, raw) (m, err) = Some (m', err).
Proof.
  intros Hk Hf Hs. unfold store_member. cbn [fst snd]. rewrite unquote_quote, to_valid_id by done. cbn [mbind option_bind].
  rewrite Hf. cbn [mbind option_bind]. by rewrite Hs.
Qed.

Lemma store_all_cons {A B} (f : B -> A -> option A) b l a a' : f b a = Some a' -> store_all f (b :: l) a = store_all f l a'.
Proof. intros E. cbn [store_all]. by rewrite E. Qed.

Lemma store_all_app {A B} (f : B -> A -> option A) l l' a a' : store_all f l a = Some a' -> store_all f (l ++ l') a = store_all f l' a'.
Proof.
  revert a. induction l as [|b l IH]; intros a; cbn [store_all app]; [by intros [= ->]|].
  destruct (f b a); [apply IH|done].
Qed.

(** The members a command may lack, each stored where it belongs. *)
Lemma store_opt_env m a : Env a = ∅ ->
  store_all store_member ((fun p => (quote p.1, p.2)) <$>
    match sorted_env (Env m) with [] => [] | l => [(str "env", object_text ((fun p => (p.1, quote p.2)) <$> l))] end) (a, None)
  = Some (set_Env (env_arrives (sorted_env (Env m)) ∅) a, None).
Proof.
  intros Ha. destruct (sorted_env (Env m)) as [|p l] eqn:E; [by destruct a; cbn in Ha; subst|].
  assert (Env m <> ∅) as Hne by (intros Hm; rewrite Hm in E; done).
  pose proof (store_env_text (Env m) Hne) as Hs. rewrite E in Hs. cbn [fmap list_fmap fst snd].
  erewrite store_all_cons; [reflexivity|]. apply (store_member_ok (str "env") FEnv); [done..|].
  unfold store_field. rewrite Ha. exact (f_equal (fun r => stored_in set_Env r a) Hs).
Qed.

Lemma store_opt_timeout m a : match TimeoutMs m with Some t => i64 t = true | None => True end -> TimeoutMs a = None ->
  store_all store_member ((fun p => (quote p.1, p.2)) <$> match TimeoutMs m with Some t => [(str "timeout_ms", fmt_d t)] | None => [] end) (a, None)
  = Some (set_TimeoutMs (TimeoutMs m) a, None).
Proof.
  intros Ht Ha. destruct (TimeoutMs m) as [t|]; [|by destruct a; cbn in Ha; subst]. cbn [fmap list_fmap fst snd].
  erewrite store_all_cons; [reflexivity|]. apply (store_member_ok (str "timeout_ms") FTimeoutMs); [done..|].
  unfold store_field, store_int64. destruct (ParseInt64_fmt_d t Ht) as [-> ->]. done.
Qed.

Lemma store_opt_spec b a : Spec a = [] ->
  store_all store_member ((fun p => (quote p.1, p.2)) <$> match b with [] => [] | _ => [(str "spec", b)] end) (a, None)
  = Some (set_Spec b a, None).
Proof.
  intros Ha. destruct b as [|c b]; [by destruct a; cbn in Ha; subst|]. cbn [fmap list_fmap fst snd].
  erewrite store_all_cons; [reflexivity|]. by apply (store_member_ok (str "spec") FSpec).
Qed.

Lemma store_exec m b : exec_ok m -> spec_arrives m = Some b ->
  store_all store_member ((fun p => (quote p.1, p.2)) <$> exec_members m b) (zero_exec, None) = Some (arrives m, None).
Proof.
  intros [Ht _] Hb. unfold exec_members. rewrite !fmap_app.
  erewrite store_all_app; [|].
  2:{ cbn [fmap list_fmap fst snd].
      erewrite store_all_cons by (apply (store_member_ok (str "command") FCommand); [done|done|unfold store_field; rewrite store_quoted; reflexivity]).
      erewrite store_all_cons by (apply (store_member_ok (str "workdir") FWorkdir); [done|done|unfold store_field; rewrite store_quoted; reflexivity]).
      reflexivity. }
  erewrite store_all_app by (by apply store_opt_env).
  erewrite store_all_app by (by apply store_opt_timeout).
  rewrite store_opt_spec by done. unfold arrives. by rewrite Hb.
Qed.

Lemma unmarshal_exec m b : exec_ok m -> spec_arrives m = Some b ->
  unmarshal_value (exec_text m (spec_part b)) zero_exec = Some (inl (arrives m)).
Proof.
  intros Hm Hb. rewrite exec_text_object. unfold unmarshal_value. change (value_kind (object_text _)) with KObject. cbn iota.
  rewrite <- (app_nil_r (object_text _)) at 2. rewrite (object_members 1) by (done || by apply exec_members_values).
  cbn [mbind option_bind]. by rewrite (store_exec m b).
Qed.

(** ** What is decoded is well typed *)

(** The strings are UTF-8, the timeout is an int64. *)
Record well_typed (m : ExecCmd) : Prop := {
  wt_command : valid_utf8 (Command m) = true;
  wt_workdir : valid_utf8 (Workdir m) = true;
  wt_env : map_Forall (fun k v => valid_utf8 k = true /\ valid_utf8 v = true) (Env m);
  wt_timeout : match TimeoutMs m with Some t => i64 t = true | None => True end }.

Lemma store_string_valid f raw old v : valid_utf8 old = true -> store_string f raw old = Some (inl v) -> valid_utf8 v = true.
Proof.
  unfold store_string, type_error. intros Ho H. destruct (value_kind raw); simplify_eq; [done|].
  apply fmap_Some in H as (s & E & [= ->]). by apply unquote_valid in E.
Qed.

Lemma store_all_inv {A B} (P : A -> Prop) (f : B -> A -> option A) l a a' :
  (forall b a a', P a -> f b a = Some a' -> P a') -> P a -> store_all f l a = Some a' -> P a'.
Proof.
  intros Hf. revert a. induction l as [|b l IH]; cbn [store_all]; [by intros a Ha [= <-]|].
  intros a Ha (a1 & E & H)%bind_Some. eauto.
Qed.

Abbreviation env_typed := (map_Forall (fun k v : bytes => valid_utf8 k = true /\ valid_utf8 v = true)).

Lemma store_env_typed raw old env : env_typed old -> store_env raw old = Some (inl env) -> env_typed env.
Proof.
  unfold store_env, type_error. intros Ho H. destruct (value_kind raw); simplify_eq; [apply map_Forall_empty|].
  apply bind_Some in H as (kms & _ & ([env' err] & H & E)%bind_Some).
  assert (env_typed env') as He; [|by destruct err; simplify_eq].
  apply (store_all_inv (fun acc => env_typed acc.1)) in H; [done| |done].
  clear. intros [rk rv] [m err] a' Hm (key & Hk%unquote_valid & (r & Hr & [= <-])%bind_Some)%bind_Some.
  destruct r as [v|e]; apply map_Forall_insert_2; try done. split; [done|]. by apply store_string_valid in Hr.
Qed.

Lemma ParseInt64_i64 s z : ParseInt64 s = Some z -> i64 z = true.
Proof.
  unfold ParseInt64. destruct (match eat "-" s with Some ds => _ | None => _ end) as [sign ds].
  destruct (_ && _) eqn:E; [|done]. intros [= <-]. by apply andb_true_iff in E as [_ E].
Qed.

Lemma store_int64_i64 f raw t : store_int64 f raw = Some (inl t) -> match t with Some t => i64 t = true | None => True end.
Proof.
  unfold store_int64, type_error. intros H. destruct (value_kind raw); simplify_eq; [done|].
  destruct (ParseInt64 raw) eqn:E; simplify_eq. by apply ParseInt64_i64 in E.
Qed.

Lemma store_field_typed f raw m m' : well_typed m -> store_field f raw m = Some (inl m') -> well_typed m'.
Proof.
  intros [Hc Hw He Ht]. unfold store_field, stored_in.
  destruct f; try (destruct (store_string _ _ _) as [[v|]|] eqn:E); try (destruct (store_env _ _) as [[v|]|] eqn:E);
    try (destruct (store_int64 _ _) as [[v|]|] eqn:E); intros; simplify_eq; constructor; cbn; try done.
  - by apply store_string_valid in E.
  - by apply store_string_valid in E.
  - by apply store_env_typed in E.
  - by apply store_int64_i64 in E.
Qed.

Lemma unmarshal_typed raw m m' : well_typed m -> unmarshal_value raw m = Some (inl m') -> well_typed m'.
Proof.
  intros Hm. unfold unmarshal_value. intros H. destruct (value_kind raw); simplify_eq; [done|].
  apply bind_Some in H as (kms & _ & ([m1 err] & H & E)%bind_Some).
  assert (well_typed m1); [|by destruct err; simplify_eq].
  apply (store_all_inv (fun acc => well_typed acc.1)) in H; [done| |done].
  clear. intros [rk rv] [m err] a' Hm (key & _ & H)%bind_Some. destruct (find_field key) as [f|]; [|by simplify_eq].
  apply bind_Some in H as ([m1|e] & Hf & [= <-]); [by apply store_field_typed in Hf|done].
Qed.

(** ** The second pass does not fail *)

Definition spaces_in (st : scan_state) (k : list parse_state) : Prop :=
  forall c, isSpace c = true -> scan_step (mkScanner st k) c = (mkScanner st k, scanSkipSpace).

(** Spaces before the next token; there is a next token. *)
Lemma read_skip st k s raw rest : spaces_in st k -> read_value (mkScanner st k) s = RValue raw rest ->
  exists c t raw', skip_space s = c :: t /\ isSpace c = false /\ (length t < length s)%nat
    /\ read_value (mkScanner st k) (c :: t) = RValue raw' rest.
Proof.
  intros Hsp. revert raw. induction s as [|c s IH]; intros raw H.
  - apply read_nil in H as (_ & _ & H). by rewrite (Hsp x20) in H.
  - cbn [skip_space]. destruct (isSpace c) eqn:E; [|exists c, s, raw; split_and!; [done..|cbn; lia|done]].
    cbn [read_value] in H. rewrite (Hsp c E) in H. apply cons_raw_inv in H as (raw1 & H & _).
    destruct (IH raw1 H) as (c' & t & raw' & ? & ? & ? & ?). exists c', t, raw'. split_and!; try done. cbn. lia.
Qed.

Lemma key_spaces st k : st = BeginString \/ st = BeginStringOrEmpty -> spaces_in st k.
Proof. intros Hst c E. by destruct Hst as [-> | ->]; cbn; unfold stateBeginString; rewrite E. Qed.

Lemma value_spaces k : spaces_in BeginValue k.
Proof. intros c E. cbn. unfold stateBeginValue. by rewrite E. Qed.

Lemma end_spaces p k : spaces_in EndValue (p :: k).
Proof. intros c E. cbn. by rewrite E. Qed.

(** A literal that the first pass let through. *)
Definition is_value (v : bytes) : Prop := read_value scan_reset v = RValue v [] /\ exists c v', v = c :: v' /\ isSpace c = false.

Lemma read_is_value c s v rest : isSpace c = false -> read_value scan_reset (c :: s) = RValue v rest -> is_value v.
Proof.
  intros Hc H. split; [eapply read_self; [|exact H]; by intros [=]|]. pose proof (read_app _ _ _ _ H) as E.
  destruct v as [|d v]; [|injection E as <- _; by exists c, v].
  exfalso. clear E. revert H. cbn [read_value]. destruct (scan_step scan_reset c) as [s' op] eqn:Es.
  pose proof (begin_no_end c []) as Hop. change (stateBeginValue c []) with (scan_step scan_reset c) in Hop. rewrite Es in Hop.
  destruct op; try done; try (by intros (? & _ & [=])%cons_raw_inv). destruct (sc_stack s'); [done|]. by intros (? & _ & [=])%cons_raw_inv.
Qed.

(** One value inside an object, and the rest. *)
Lemma split_local c t p raw rest : isSpace c = false -> read_value (mkScanner BeginValue [p]) (c :: t) = RValue raw rest ->
  exists v s raw', split_value (c :: t) = Some (v, s) /\ is_value v /\ (length s <= length (c :: t))%nat
    /\ read_value (mkScanner EndValue [p]) s = RValue raw' rest.
Proof.
  intros Hc H. destruct (read_local (c :: t) BeginValue [] [p] raw rest) as (v & raw' & s & Hv & _ & Hs); try done.
  exists v, s, raw'. unfold split_value. change (mkScanner BeginValue []) with scan_reset in Hv. rewrite Hv.
  split_and!; [done|by eapply read_is_value| |done]. rewrite (read_app _ _ _ _ Hv), length_app. lia.
Qed.

(** A key: a string that can be unquoted. *)
Lemma key_local st c t raw rest : st = BeginString \/ st = BeginStringOrEmpty -> isSpace c = false -> c <> "}" ->
  read_value (mkScanner st [parseObjectKey]) (c :: t) = RValue raw rest ->
  exists v s raw', split_value (c :: t) = Some (v, s) /\ is_Some (unquote v) /\ (length s <= length (c :: t))%nat
    /\ read_value (mkScanner EndValue [parseObjectKey]) s = RValue raw' rest.
Proof.
  intros Hst Hc Hne H. assert (c = x22) as ->.
  { destruct (decide (c = x22)) as [|Hq]; [done|]. exfalso. cbn [read_value] in H.
    assert (exists s, scan_step (mkScanner st [parseObjectKey]) c = (s, scanError)) as [s E]; [|by rewrite E in H].
    destruct Hst as [-> | ->]; cbn; [|rewrite Hc, bool_decide_false by done]; unfold stateBeginString; rewrite Hc, bool_decide_false by done; by eexists. }
  assert (read_value (mkScanner BeginValue [parseObjectKey]) (x22 :: t) = RValue raw rest) as H' by (by destruct Hst as [-> | ->]).
  destruct (split_local _ _ _ _ _ Hc H') as (v & s & raw' & E & _ & Hl & Hs). exists v, s, raw'. split_and!; try done.
  unfold split_value in E. destruct (read_value scan_reset (x22 :: t)) eqn:Er; simplify_eq. by eapply read_unquotes.
Qed.

Lemma eat_hit c s : eat c (c :: s) = Some s.
Proof. cbn. by rewrite bool_decide_true. Qed.

Lemma eat_miss c d s : d <> c -> eat c (d :: s) = None.
Proof. intros H. cbn. by rewrite bool_decide_false. Qed.

(** The colon after a key. *)
Lemma colon_local s raw rest : read_value (mkScanner EndValue [parseObjectKey]) s = RValue raw rest ->
  exists t raw', eat ":" (skip_space s) = Some t /\ (length t < length s)%nat
    /\ read_value (mkScanner BeginValue [parseObjectValue]) t = RValue raw' rest.
Proof.
  intros H. destruct (read_skip _ _ _ _ _ (end_spaces _ _) H) as (c & t & raw' & -> & Hc & Hl & H').
  cbn in H'. rewrite Hc in H'. case_bool_decide; [subst c|done]. apply cons_raw_inv in H' as (raw'' & H' & _).
  exists t, raw''. by rewrite eat_hit.
Qed.

(** What follows a member: the end of the object or another one. *)
Lemma comma_local s raw rest : read_value (mkScanner EndValue [parseObjectValue]) s = RValue raw rest ->
  (exists t, eat "}" (skip_space s) = Some t) \/
  exists t raw', eat "}" (skip_space s) = None /\ eat "," (skip_space s) = Some t /\ (length t < length s)%nat
    /\ read_value (mkScanner BeginString [parseObjectKey]) t = RValue raw' rest.
Proof.
  intros H. destruct (read_skip _ _ _ _ _ (end_spaces _ _) H) as (c & t & raw' & -> & Hc & Hl & H').
  destruct (decide (c = "}")) as [->|Hb]; [left; by exists t; rewrite eat_hit|]. right.
  cbn in H'. rewrite Hc, (bool_decide_false (c = "}")) in H' by done. case_bool_decide; [subst c|done].
  apply cons_raw_inv in H' as (raw'' & H' & _). exists t, raw''. by rewrite eat_miss, eat_hit.
Qed.

(** The members of an object the first pass let through. *)
Lemma members_total fuel : forall st s raw rest, st = BeginString \/ st = BeginStringOrEmpty -> (length s < fuel)%nat ->
  read_value (mkScanner st [parseObjectKey]) s = RValue raw rest ->
  exists kms, members fuel s = Some kms /\ Forall (fun km => is_Some (unquote km.1) /\ is_value km.2) kms.
Proof.
  induction fuel as [|fuel IH]; intros st s raw rest Hst Hf H; [lia|]. cbn [members].
  destruct (read_skip _ _ _ _ _ (key_spaces _ _ Hst) H) as (c & t & raw1 & -> & Hc & Hl & H1).
  destruct (decide (c = "}")) as [->|Hne]; [rewrite eat_hit; by exists []|]. rewrite eat_miss by done.
  destruct (key_local _ _ _ _ _ Hst Hc Hne H1) as (key & s2 & raw2 & -> & Hk & Hl2 & H2). cbn [mbind option_bind].
  destruct (colon_local _ _ _ H2) as (s3 & raw3 & -> & Hl3 & H3). cbn [mbind option_bind].
  destruct (read_skip _ _ _ _ _ (value_spaces _) H3) as (c4 & t4 & raw4 & -> & Hc4 & Hl4 & H4).
  destruct (split_local _ _ _ _ _ Hc4 H4) as (v & s5 & raw5 & -> & Hv & Hl5 & H5). cbn [mbind option_bind].
  destruct (comma_local _ _ _ H5) as [[t6 ->]|(t6 & raw6 & -> & -> & Hl6 & H6)]; [exists [(key, v)]; split; [done|]; by apply Forall_singleton|].
  cbn [mbind option_bind]. destruct (IH BeginString t6 raw6 rest) as (kms & -> & Hkms); [by left|cbn [length] in *; lia|done|].
  exists ((key, v) :: kms). split; [done|]. by constructor.
Qed.

Lemma value_cases raw : match value_kind raw with KString => exists s, raw = x22 :: s | KObject => exists s, raw = "{" :: s | _ => True end.
Proof.
  destruct raw as [|c s]; [done|]. unfold value_kind. case_bool_decide; [subst; by eexists|]. case_bool_decide; [done|].
  case_bool_decide; [subst; by eexists|]. case_bool_decide; [done|]. by destruct (_ || _).
Qed.

Lemma object_total raw : is_value raw -> value_kind raw = KObject ->
  exists kms, members (length raw) (drop 1 raw) = Some kms /\ Forall (fun km => is_Some (unquote km.1) /\ is_value km.2) kms.
Proof.
  intros [H _] E. pose proof (value_cases raw) as Hc. rewrite E in Hc. destruct Hc as [s ->].
  change (read_value scan_reset ("{" :: s)) with (cons_raw "{" (read_value (mkScanner BeginStringOrEmpty [parseObjectKey]) s)) in H.
  apply cons_raw_inv in H as (raw' & H & _). apply (members_total (S (length s)) BeginStringOrEmpty s raw' []); [by right|lia|exact H].
Qed.

Lemma store_string_total f raw old : is_value raw -> is_Some (store_string f raw old).
Proof.
  intros [H _]. pose proof (value_cases raw) as Hc. unfold store_string. destruct (value_kind raw); try by eexists.
  destruct Hc as [s ->]. destruct (read_unquotes _ _ _ H) as [v ->]. by eexists.
Qed.

Lemma store_all_total {A B} (P : B -> Prop) (f : B -> A -> option A) l a : Forall P l -> (forall b a, P b -> is_Some (f b a)) ->
  is_Some (store_all f l a).
Proof. intros Hl Hf. revert a. induction Hl as [|b l Hb _ IH]; intros a; [by eexists|]. cbn [store_all]. destruct (Hf b a Hb) as [a' ->]. apply IH. Qed.

Lemma store_env_total raw old : is_value raw -> is_Some (store_env raw old).
Proof.
  intros H. unfold store_env. destruct (value_kind raw) eqn:E; try by eexists.
  destruct (object_total raw H E) as (kms & -> & Hk). cbn [mbind option_bind].
  destruct (store_all_total _ store_env_member kms (old, None) Hk) as [[env err] ->]; [|by eexists].
  intros [rk rv] a [[key Ek] Hv]. unfold store_env_member. cbn [fst snd] in *. rewrite Ek. cbn [mbind option_bind].
  destruct (store_string_total FEnv rv [] Hv) as [r ->]. by eexists.
Qed.

Lemma stored_in_total {A} (set : A -> ExecCmd -> ExecCmd) r m : is_Some r -> is_Some (stored_in set r m).
Proof. intros [[v|e] ->]; by eexists. Qed.

Lemma store_field_total f raw m : is_value raw -> is_Some (store_field f raw m).
Proof.
  intros H. destruct f; unfold store_field; try apply stored_in_total; [by apply store_string_total..|by apply store_env_total| |by eexists].
  unfold store_int64. destruct (value_kind raw); try by eexists. destruct (ParseInt64 raw); by eexists.
Qed.

Lemma unmarshal_total raw m : is_value raw -> is_Some (unmarshal_value raw m).
Proof.
  intros H. unfold unmarshal_value. destruct (value_kind raw) eqn:E; try by eexists.
  destruct (object_total raw H E) as (kms & -> & Hk). cbn [mbind option_bind].
  destruct (store_all_total _ store_member kms (m, None) Hk) as [[m' err] ->]; [|by eexists].
  intros [rk rv] a [[key Ek] Hv]. unfold store_member. cbn [fst snd] in *. rewrite Ek. cbn [mbind option_bind].
  destruct (find_field key) as [f|]; [|by eexists]. destruct (store_field_total f rv a.1 Hv) as [r ->]. by eexists.
Qed.

(** The value of a body, without the spaces before it. *)
Lemma body_value data raw rest : read_value scan_reset data = RValue raw rest -> is_value (skip_space raw).
Proof.
  intros H. assert (read_value scan_reset raw = RValue raw []) as Hr by (eapply read_self; [|exact H]; by intros [=]).
  destruct (read_skip _ _ _ _ _ (value_spaces []) Hr) as (c & t & raw' & -> & Hc & _ & H'). pose proof (read_app _ _ _ _ H') as E.
  rewrite app_nil_r in E. rewrite E in H' |- *. by apply (read_is_value c t _ []); [|rewrite E].
Qed.

(** An error remembered stays. *)
Lemma store_all_err l m e m' err : store_all store_member l (m, Some e) = Some (m', err) -> err <> None.
Proof.
  intros H. apply (store_all_inv (fun acc => acc.2 <> None)) in H; [done| |done]. clear.
  intros [rk rv] [m err] a' Hm (key & _ & H)%bind_Some. destruct err as [e|]; [|done].
  destruct (find_field key); [|by simplify_eq]. apply bind_Some in H as ([m1|e1] & _ & [= <-]); done.
Qed.

Definition known (km : bytes * bytes) : Prop := exists key f, unquote km.1 = Some key /\ find_field key = Some f.

Lemma store_all_known l m m' : store_all store_member l (m, None) = Some (m', None) -> Forall known l.
Proof.
  revert m. induction l as [|[rk rv] l IH]; intros m; [done|]. cbn [store_all].
  intros ([m1 err] & Hs & H)%bind_Some. destruct err as [e|]; [by apply store_all_err in H|]. constructor; [|by eapply IH].
  apply bind_Some in Hs as (key & Ek & Hs). exists key. cbn [fst snd] in *. destruct (find_field key) as [f|]; [by exists f|done].
Qed.

(** ** The whole registry *)



Section Theorems.

Context (json_text : json_error -> bytes).

Lemma marshal_exec m :
  ExecCmd_MarshalBinary json_text m =
  match spec_arrives m with Some b => Ok (exec_text m (spec_part b)) | None => Err (Errorf (json_text MarshalerError)) end.
Proof.
  unfold ExecCmd_MarshalBinary, spec_arrives. destruct (Spec m) as [|c s]; [done|].
  destruct (compact scan_reset (c :: s)) as [b|] eqn:E; [|done]. by apply compact_head in E as (d & v & -> & _).
Qed.

Lemma unmarshal_rest m body rest : exec_ok m -> ExecCmd_MarshalBinary json_text m = Ok body ->
  ExecCmd_UnmarshalBinary json_text zero_exec (body ++ rest)
  = if More rest then Err (Errorf (str "exec: trailing data after body")) else Ok (arrives m).
Proof.
  intros Hm. rewrite marshal_exec. destruct (spec_arrives m) as [b|] eqn:Hb; [|done]. intros [= <-].
  unfold ExecCmd_UnmarshalBinary. rewrite exec_read by done.
  change (skip_space (exec_text m (spec_part b))) with (exec_text m (spec_part b)). by rewrite unmarshal_exec.
Qed.

Lemma exec_registered m body : exec_ok m -> ExecCmd_MarshalBinary json_text m = Ok body ->
  DecodeMessageBody (ExecCmd_UnmarshalBinary json_text zero_exec) TypeEXEC body = Ok (MExecCmd (arrives m)).
Proof. intros Hm Hb. rewrite EXEC_registered, <- (app_nil_r body). by rewrite (unmarshal_rest m). Qed.

(** C24: [MarshalBinary] fails only for a non-empty spec that is not one JSON
    value, and what it writes the registry reads back: the command and the
    working directory with U+FFFD for bytes that are not UTF-8 (and every
    character JSON or HTML would trip over intact), the environment, sorted by
    name on the wire, with the same replacement (two names it makes equal become
    one), the timeout down to the ends of int64, and the spec without its
    spaces.  A command whose strings are UTF-8 and whose spec is compact arrives
    unchanged. *)
Theorem exec_roundtrip (m : ExecCmd) (H : exec_ok m) :
  match ExecCmd_MarshalBinary json_text m with
  | Ok body => DecodeMessageBody (ExecCmd_UnmarshalBinary json_text zero_exec) TypeEXEC body = Ok (MExecCmd (arrives m))
  | Err _ => Spec m <> [] /\ compact scan_reset (Spec m) = None
  end
  /\ (exact m -> arrives m = m).
Proof.
  split; [|apply arrives_id]. destruct (ExecCmd_MarshalBinary json_text m) as [body|e] eqn:E; [by apply exec_registered|].
  rewrite marshal_exec in E. unfold spec_arrives in E. destruct (Spec m); [done|]. split; [done|]. by destruct (compact _ _).
Qed.



(** C26: What follows the body of any command that marshals.  Spaces are let
    through; a byte that could start another value is refused with "trailing
    data after body"; but after a closing bracket anything is accepted, because
    [Decoder.More] takes one for the end of the array or object it would be in. *)
Theorem exec_trailing_data (m : ExecCmd) (body rest : bytes) (H : exec_ok m) (Hb : ExecCmd_MarshalBinary json_text m = Ok body) :
  ExecCmd_UnmarshalBinary json_text zero_exec (body ++ rest)
  = match skip_space rest with
    | [] => Ok (arrives m)
    | c :: _ => if bool_decide (c = "}" \/ c = "]") then Ok (arrives m) else Err (Errorf (str "exec: trailing data after body"))
    end.
Proof.
  rewrite (unmarshal_rest m) by done. unfold More. destruct (skip_space rest) as [|c l]; [done|].
  destruct (decide (c = "]")) as [->|H1]; [done|]. destruct (decide (c = "}")) as [->|H2]; [done|].
  by rewrite !bool_decide_false by tauto.
Qed.

(** C25: Whatever bytes arrive as the body of EXEC, a command that is accepted is
    well typed: its command, its working directory and the names and values of its
    environment are valid UTF-8 (escapes of lone surrogates and stray bytes have been
    replaced), and its timeout fits int64; and every member of the body's object
    names a field of [ExecCmd], up to letter case. *)
Theorem exec_well_typed (body : bytes) (msg : Message)
    (H : DecodeMessageBody (ExecCmd_UnmarshalBinary json_text zero_exec) TypeEXEC body = Ok msg) :
  (exists m, msg = MExecCmd m /\ well_typed m)
  /\ forall raw rest, read_value scan_reset body = RValue raw rest -> value_kind (skip_space raw) = KObject ->
       exists kms, members (length (skip_space raw)) (drop 1 (skip_space raw)) = Some kms /\ Forall known kms.
Proof.
  rewrite EXEC_registered in H. unfold ExecCmd_UnmarshalBinary in H. assert (well_typed zero_exec) as H0 by done.
  destruct (read_value scan_reset body) as [raw rest| | |]; simplify_eq; [|by split; [eexists|]].
  destruct (unmarshal_value (skip_space raw) zero_exec) as [[m|e]|] eqn:E; simplify_eq.
  destruct (More rest); simplify_eq. split; [eexists; split; [done|]; by apply unmarshal_typed in E|].
  intros raw' rest' [= <- <-] Ek. unfold unmarshal_value in E. rewrite Ek in E.
  apply bind_Some in E as (kms & Em & ([m1 err] & E & Er)%bind_Some). exists kms. split; [done|].
  destruct err; simplify_eq. by apply store_all_known in E.
Qed.

(** The decoder is total: on any bytes at all, however nested, cut or
    malformed, it accepts, or refuses with an error of the JSON decoder wrapped
    as "exec: decode body", or with "trailing data after body".  The storing pass
    never meets text the scanning pass should have refused, so it cannot panic. *)
Theorem exec_decode_total (m0 : ExecCmd) (data : bytes) :
  match ExecCmd_UnmarshalBinary json_text m0 data with
  | Ok _ => True
  | Err e => e = Errorf (str "exec: trailing data after body") \/ exists e', e = Wrapf (str "exec: decode body: ") e' []
  end.
Proof.
  unfold ExecCmd_UnmarshalBinary. destruct (read_value scan_reset data) as [raw rest| | |] eqn:E; [|done|right; by eexists..].
  destruct (unmarshal_total (skip_space raw) m0 (body_value _ _ _ E)) as [[m|e] ->]; [|right; by eexists].
  destruct (More rest); [by left|done].
Qed.

End Theorems.

Definition demo_exec : ExecCmd :=
  mkExecCmd (str "grep -c '<a>' f && echo") (str "/home/dev") {[str "PATH" := str "/bin"; str "LANG" := str "C"]} (Some 9223372036854775807) [].

Lemma demo_exec_ok : exec_ok demo_exec.
Proof. split; vm_compute; reflexivity. Qed.

(** With a spec that has spaces, an HTML character and a nested object, and an
    environment with two names that are no UTF-8. *)
Definition demo_spec : ExecCmd :=
  mkExecCmd (str "true") (str "/") {[ [xff] := str "1"; [xfe] := str "2" ]} None
    (str "{ " ++ quote (str "a") ++ str " : [ 1 , {} , " ++ [x22; x3c; x22] ++ str " ] } ").

Lemma demo_spec_ok : exec_ok demo_spec.
Proof. split; vm_compute; [exact I|reflexivity]. Qed.

Lemma exec_roundtrip_witness : exists body,
  ExecCmd_MarshalBinary (fun _ => []) demo_spec = Ok body
  /\ DecodeMessageBody (ExecCmd_UnmarshalBinary (fun _ => []) zero_exec) TypeEXEC body = Ok (MExecCmd (arrives demo_spec))
  /\ Env (arrives demo_spec) = {[ replacement := str "1" ]}
  /\ Spec (arrives demo_spec) = str "{" ++ quote (str "a") ++ str ":[1,{}," ++ quote [x3c] ++ str "]}".
Proof.
  destruct (exec_roundtrip (fun _ => []) demo_spec demo_spec_ok) as [H _].
  destruct (ExecCmd_MarshalBinary (fun _ => []) demo_spec) as [body|e] eqn:E; [|vm_compute in E; discriminate E].
  exists body. split; [reflexivity|]. split; [exact H|]. split; vm_compute; reflexivity.
Defined.


Lemma exec_trailing_data_witness :
  ExecCmd_UnmarshalBinary (fun _ => []) zero_exec (exec_text demo_exec [] ++ str " } anything") = Ok (arrives demo_exec).
Proof.
  exact (exec_trailing_data (fun _ => []) demo_exec (exec_text demo_exec []) (str " } anything") demo_exec_ok eq_refl).
Defined.

(** A body with escapes, a lone surrogate and a repeated member. *)
Definition demo_body : bytes :=
  str "{'COMMAND': '\u0041\ud800', 'workdir':'/', 'env':{'k':null}, 'timeout_ms': -5, 'workdir':'/x'}".

Definition demo_json : bytes := (fun b => if bool_decide (b = x27) then x22 else b) <$> demo_body.

Lemma exec_well_typed_witness : exists m,
  DecodeMessageBody (ExecCmd_UnmarshalBinary (fun _ => []) zero_exec) TypeEXEC demo_json = Ok (MExecCmd m) /\ well_typed m.
Proof.
  destruct (exec_well_typed (fun _ => []) demo_json
    (MExecCmd (mkExecCmd (str "A" ++ replacement) (str "/x") {[str "k" := []]} (Some (-5)) []))) as [(m & E & H) _]; [vm_compute; reflexivity|].
  exists m. split; [|exact H]. rewrite <- E. vm_compute. reflexivity.
Defined.
