(* ===== verification/Vpp.v ===== *)
(** * The console protocol: [protocol/vpp]

    VPP frames (one type byte, at most 64 KiB) and the four console messages;
    ATTACH has a tail field that older peers omit. *)
From Stdlib Require Import ZArith Lia Strings.Byte.
From stdpp Require Import base list strings.
From S2P Require Import Prelude GoIO Wire Frame Codec.

Open Scope Z_scope.

Module Vpp.

(** ** vpp.go *)

Definition TypeDATA : Z := 0x00.
Definition TypeWINCH : Z := 0x01.
Definition TypeDETACH : Z := 0x02.
Definition TypeATTACH : Z := 0x03.
Definition TypeSESSION : Z := 0x04.
Definition TypeKILL : Z := 0x05.

Definition vppMaxFrameSize : Z := 64 * 1024.

Record VFrame := mkVFrame { VType : Z; VBody : bytes }.

Definition vppReadFrame : M Reader VFrame :=
  payload ← ReadFrame;
  reject_if (zlen payload <? 1) io_ErrUnexpectedEOF ;;
  reject_if (vppMaxFrameSize <? zlen payload) vpp_ErrFrameTooLarge ;;
  mret (mkVFrame (byte_val (payload !!! 0%nat)) (drop 1 payload)).

Definition vppWriteFrame (f : VFrame) : M Writer unit :=
  reject_if (vppMaxFrameSize <? zlen (VBody f) + 1) vpp_ErrFrameTooLarge ;;
  WriteFrame (byte_of (VType f) :: VBody f).

(** ** types.go *)

Record AttachMsg := mkAttach { Term : bytes; Cols : Z; Rows : Z; SessionID : Z }.
Record SessionMsg := mkSession { s_SessionID : Z; s_PID : Z; s_Cols : Z; s_Rows : Z }.
Record WinchMsg := mkWinch { w_Cols : Z; w_Rows : Z }.
Record DetachMsg := mkDetach { ExitCode : Z }.

(** [Encode] returns [buf.Bytes()]; writes to a [bytes.Buffer] do not fail. *)
Definition buf_bytes (m : M Writer unit) : bytes :=
  match to_bytes m with Ok b => b | Err _ => [] end.

Definition AttachMsg_Encode (m : AttachMsg) : bytes :=
  buf_bytes (
    WriteString (Term m) ;;
    WriteUint16 (Cols m) ;;
    WriteUint16 (Rows m) ;;
    WriteUint32 (SessionID m)).

Definition AttachMsg_read : M Reader AttachMsg :=
  term ← errw "vpp attach: read term: " ReadString;
  cols ← errw "vpp attach: read cols: " ReadUint16;
  rows ← errw "vpp attach: read rows: " ReadUint16;
  n ← Len;
  if 4 <=? n then
    sid ← errw "vpp attach: read session_id: " ReadUint32;
    mret (mkAttach term cols rows sid)
  else mret (mkAttach term cols rows 0).

Definition AttachMsg_Decode (body : bytes) : result AttachMsg := from_bytes AttachMsg_read body.

Definition SessionMsg_Encode (m : SessionMsg) : bytes :=
  buf_bytes (
    WriteUint32 (s_SessionID m) ;;
    WriteUint32 (s_PID m) ;;
    WriteUint16 (s_Cols m) ;;
    WriteUint16 (s_Rows m)).

Definition SessionMsg_Decode (body : bytes) : result SessionMsg :=
  from_bytes (
    sid ← errw "vpp session: read session_id: " ReadUint32;
    pid ← errw "vpp session: read pid: " ReadUint32;
    cols ← errw "vpp session: read cols: " ReadUint16;
    rows ← errw "vpp session: read rows: " ReadUint16;
    mret (mkSession sid pid cols rows)) body.

Definition WinchMsg_Encode (m : WinchMsg) : bytes :=
  buf_bytes (WriteUint16 (w_Cols m) ;; WriteUint16 (w_Rows m)).

Definition WinchMsg_Decode (body : bytes) : result WinchMsg :=
  from_bytes (
    cols ← errw "vpp winch: read cols: " ReadUint16;
    rows ← errw "vpp winch: read rows: " ReadUint16;
    mret (mkWinch cols rows)) body.

Definition DetachMsg_Encode (m : DetachMsg) : bytes := buf_bytes (WriteUint32 (ExitCode m)).

Definition DetachMsg_Decode (body : bytes) : result DetachMsg :=
  from_bytes (
    code ← errw "vpp detach: read exit_code: " ReadUint32;
    mret (mkDetach code)) body.

(** ** Laws *)

Lemma buf_bytes_writes m bs : Writes m bs -> buf_bytes m = bs.
Proof. intros H. unfold buf_bytes. by rewrite (writes_to_bytes _ _ H). Qed.

Definition vframe_ok (f : VFrame) : bool := u8 (VType f) && (zlen (VBody f) + 1 <=? vppMaxFrameSize).

Definition vframe_wire (f : VFrame) : bytes :=
  be_put 4 (to_u 32 (zlen (byte_of (VType f) :: VBody f))) ++ byte_of (VType f) :: VBody f.

Lemma reads_VFrame f : vframe_ok f = true -> Reads vppReadFrame (vframe_wire f) f.
Proof.
  intros [Ht Hl%Z.leb_le]%andb_true_iff rest e. unfold vppReadFrame, vframe_wire.
  pose proof (zlen_cons (byte_of (VType f)) (VBody f)) as Hz. pose proof (zlen_nonneg (VBody f)).
  unfold vppMaxFrameSize in *.
  rewrite (bind_ok _ _ _ _ _ (reads_Frame (byte_of (VType f) :: VBody f) ltac:(unfold MaxFrameSize; lia) rest e)).
  unfold reject_if. rewrite !(proj2 (Z.ltb_ge _ _)) by (unfold vppMaxFrameSize; lia).
  cbn [lookup_total list_lookup_total drop]. rewrite byte_val_of_u8, drop_0 by done. by destruct f.
Qed.

(** A VPP frame within the 64 KiB limit is written as one [Write] and read
    back unchanged from any stream that continues after it; one above the
    limit is refused by the writer before anything is sent. *)
Theorem VFrame_roundtrip (f : VFrame) (rest : bytes) (e : error) (Ht : u8 (VType f) = true) :
  if zlen (VBody f) + 1 <=? vppMaxFrameSize then
    exists bs, vppWriteFrame f Buffer = (Ok tt, mkWriter [bs] []) /\
      vppReadFrame (mkReader (bs ++ rest) e) = (Ok f, mkReader rest e)
  else vppWriteFrame f Buffer = (Err vpp_ErrFrameTooLarge, Buffer).
Proof.
  unfold vppWriteFrame. rewrite bind_unfold. unfold reject_if.
  destruct (Z.leb_spec (zlen (VBody f) + 1) vppMaxFrameSize) as [Hl|Hl].
  - exists (vframe_wire f). rewrite (proj2 (Z.ltb_ge _ _)) by lia. split; [done|].
    apply reads_VFrame. apply andb_true_iff. split; [done|]. by apply Z.leb_le.
  - by rewrite (proj2 (Z.ltb_lt _ _)) by lia.
Qed.

Lemma VFrame_roundtrip_witness :
  exists bs, vppWriteFrame (mkVFrame TypeDATA (str "ls")) Buffer = (Ok tt, mkWriter [bs] []) /\
    vppReadFrame (mkReader (bs ++ str "more") io_EOF) = (Ok (mkVFrame TypeDATA (str "ls")), mkReader (str "more") io_EOF).
Proof. apply (VFrame_roundtrip (mkVFrame TypeDATA (str "ls")) (str "more") io_EOF). reflexivity. Defined.

Definition attach_ok (m : AttachMsg) : bool :=
  str_ok (Term m) && u16 (Cols m) && u16 (Rows m) && u32 (SessionID m).

(** The body an older host sends: no session id. *)
Definition attach_v0 (m : AttachMsg) : bytes :=
  enc_string (Term m) ++ enc_u16 (Cols m) ++ enc_u16 (Rows m).

Lemma attach_read_tail m tail :
  attach_ok m = true ->
  AttachMsg_Decode (attach_v0 m ++ tail)
  = from_bytes (n ← Len;
      if 4 <=? n then
        sid ← errw "vpp attach: read session_id: " ReadUint32;
        mret (mkAttach (Term m) (Cols m) (Rows m) sid)
      else mret (mkAttach (Term m) (Cols m) (Rows m) 0)) tail.
Proof.
  intros H. unfold attach_ok in H. split_ok H. unfold AttachMsg_Decode, AttachMsg_read, attach_v0.
  rewrite <- !app_assoc. do 3 (erewrite from_bytes_bind by eauto with wire). done.
Qed.

(** ATTACH is compatible in both directions: the current encoding decodes
    to the message even when a newer peer appends fields, and an older host's
    body, with no session id or fewer than four extra bytes, decodes with
    session id 0. *)
Theorem AttachMsg_compat (m : AttachMsg) (tail : bytes) (H : attach_ok m = true) :
  AttachMsg_Decode (AttachMsg_Encode m ++ tail) = Ok m /\
  (zlen tail < 4 -> AttachMsg_Decode (attach_v0 m ++ tail) = Ok (mkAttach (Term m) (Cols m) (Rows m) 0)).
Proof.
  assert (He : AttachMsg_Encode m = attach_v0 m ++ enc_u32 (SessionID m)).
  { unfold AttachMsg_Encode, attach_v0. rewrite <- !app_assoc. apply buf_bytes_writes. eauto with wire. }
  assert (Hs : u32 (SessionID m) = true) by (unfold attach_ok in H; by split_ok H).
  split.
  - rewrite He, <- app_assoc, attach_read_tail by done. unfold from_bytes, NewReader.
    rewrite Len_bind. cbn [rdata]. rewrite zlen_app, zlen_enc_u32.
    pose proof (zlen_nonneg tail). rewrite (proj2 (Z.leb_le _ _)) by lia.
    rewrite (bind_ok _ _ _ _ _ (reads_errw _ _ _ _ (reads_u32 _ Hs) _ _)). by destruct m.
  - intros Ht. rewrite attach_read_tail by done. unfold from_bytes, NewReader. rewrite Len_bind.
    cbn [rdata]. by rewrite (proj2 (Z.leb_gt _ _)) by lia.
Qed.

Lemma AttachMsg_compat_witness :
  AttachMsg_Decode (AttachMsg_Encode (mkAttach (str "xterm") 80 24 9) ++ str "!") = Ok (mkAttach (str "xterm") 80 24 9) /\
  AttachMsg_Decode (attach_v0 (mkAttach (str "xterm") 80 24 9) ++ str "!") = Ok (mkAttach (str "xterm") 80 24 0).
Proof.
  destruct (AttachMsg_compat (mkAttach (str "xterm") 80 24 9) (str "!") eq_refl) as [H1 H2].
  split; [exact H1|apply H2; reflexivity].
Defined.

(** SESSION, WINCH and DETACH bodies round-trip, and so does the VPP
    connection prefix. *)
Theorem vpp_messages_roundtrip (s : SessionMsg) (w : WinchMsg) (d : DetachMsg) (rest : bytes) (e : error)
    (Hs : u32 (s_SessionID s) && u32 (s_PID s) && u16 (s_Cols s) && u16 (s_Rows s) = true)
    (Hw : u16 (w_Cols w) && u16 (w_Rows w) = true) (Hd : u32 (ExitCode d) = true) :
  SessionMsg_Decode (SessionMsg_Encode s) = Ok s /\
  WinchMsg_Decode (WinchMsg_Encode w) = Ok w /\
  DetachMsg_Decode (DetachMsg_Encode d) = Ok d /\
  ValidateVPPHandshake (mkReader (buf_bytes WriteVPPHandshake ++ rest) e) = (Ok tt, mkReader rest e).
Proof.
  split_ok Hs. split_ok Hw. split_and!.
  - unfold SessionMsg_Encode. erewrite buf_bytes_writes by eauto with wire.
    unfold SessionMsg_Decode. peel. by destruct s.
  - unfold WinchMsg_Encode. erewrite buf_bytes_writes by eauto with wire.
    unfold WinchMsg_Decode. peel. by destruct w.
  - unfold DetachMsg_Encode. erewrite buf_bytes_writes by eauto with wire.
    unfold DetachMsg_Decode. peel. by destruct d.
  - unfold ValidateVPPHandshake.
    rewrite (bind_ok _ _ _ _ _ (ReadFull_exact 4 (buf_bytes WriteVPPHandshake) rest e ltac:(lia) eq_refl)).
    reflexivity.
Qed.

Lemma vpp_messages_roundtrip_witness :
  SessionMsg_Decode (SessionMsg_Encode (mkSession 1 2 3 4)) = Ok (mkSession 1 2 3 4).
Proof.
  apply (vpp_messages_roundtrip (mkSession 1 2 3 4) (mkWinch 5 6) (mkDetach 7) [] io_EOF); reflexivity.
Defined.

End Vpp.
