(* ===== verification/Stream.v ===== *)
(** * One stream: [protocol/app/stream.go]

    The stream record and, for every method, the code it runs under
    [Stream.mu] (or [lifeMu]) as one function: those are the atomic steps the
    session composes.  Counters keep their Go widths.  [ready] counts
    [close(st.ready)] calls (a second one would panic); [bcast] counts
    [cond.Broadcast()] calls, so that a goroutine in [cond.Wait] sleeps until
    the count exceeds the one it saw. *)
From Stdlib Require Import ZArith Lia.
From stdpp Require Import base list gmap strings.
From S2P Require Import Prelude GoIO Wire Frame.

Open Scope Z_scope.

Record Stream := mkStream {
  sid : Z;
  service : bytes;
  inbound : bool;
  opening : bool;
  accepting : bool;
  localClosed : bool;
  remoteClosed : bool;
  reset : bool;
  resetErr : option (Z * bytes);
  ready : nat;
  openErr : option (Z * bytes);
  opened : bool;
  finished : bool;
  sndCredit : Z;
  rcvWindow : Z;
  sendQ : list bytes;
  sendBytes : Z;
  inQ : list bytes;
  inBytes : Z;
  closeAfterFlush : bool;
  bytesIn : Z;
  bytesOut : Z;
  acceptMeta : bytes;
  ep : option nat;
  bcast : nat }.

(** Field updates. *)
Definition set_opening (v : bool) (st : Stream) : Stream :=
  mkStream (sid st) (service st) (inbound st) v (accepting st) (localClosed st) (remoteClosed st) (reset st) (resetErr st) (ready st) (openErr st) (opened st) (finished st) (sndCredit st) (rcvWindow st) (sendQ st) (sendBytes st) (inQ st) (inBytes st) (closeAfterFlush st) (bytesIn st) (bytesOut st) (acceptMeta st) (ep st) (bcast st).
Definition set_accepting (v : bool) (st : Stream) : Stream :=
  mkStream (sid st) (service st) (inbound st) (opening st) v (localClosed st) (remoteClosed st) (reset st) (resetErr st) (ready st) (openErr st) (opened st) (finished st) (sndCredit st) (rcvWindow st) (sendQ st) (sendBytes st) (inQ st) (inBytes st) (closeAfterFlush st) (bytesIn st) (bytesOut st) (acceptMeta st) (ep st) (bcast st).
Definition set_localClosed (v : bool) (st : Stream) : Stream :=
  mkStream (sid st) (service st) (inbound st) (opening st) (accepting st) v (remoteClosed st) (reset st) (resetErr st) (ready st) (openErr st) (opened st) (finished st) (sndCredit st) (rcvWindow st) (sendQ st) (sendBytes st) (inQ st) (inBytes st) (closeAfterFlush st) (bytesIn st) (bytesOut st) (acceptMeta st) (ep st) (bcast st).
Definition set_remoteClosed (v : bool) (st : Stream) : Stream :=
  mkStream (sid st) (service st) (inbound st) (opening st) (accepting st) (localClosed st) v (reset st) (resetErr st) (ready st) (openErr st) (opened st) (finished st) (sndCredit st) (rcvWindow st) (sendQ st) (sendBytes st) (inQ st) (inBytes st) (closeAfterFlush st) (bytesIn st) (bytesOut st) (acceptMeta st) (ep st) (bcast st).
Definition set_reset (v : bool) (st : Stream) : Stream :=
  mkStream (sid st) (service st) (inbound st) (opening st) (accepting st) (localClosed st) (remoteClosed st) v (resetErr st) (ready st) (openErr st) (opened st) (finished st) (sndCredit st) (rcvWindow st) (sendQ st) (sendBytes st) (inQ st) (inBytes st) (closeAfterFlush st) (bytesIn st) (bytesOut st) (acceptMeta st) (ep st) (bcast st).
Definition set_resetErr (v : option (Z * bytes)) (st : Stream) : Stream :=
  mkStream (sid st) (service st) (inbound st) (opening st) (accepting st) (localClosed st) (remoteClosed st) (reset st) v (ready st) (openErr st) (opened st) (finished st) (sndCredit st) (rcvWindow st) (sendQ st) (sendBytes st) (inQ st) (inBytes st) (closeAfterFlush st) (bytesIn st) (bytesOut st) (acceptMeta st) (ep st) (bcast st).
Definition set_ready (v : nat) (st : Stream) : Stream :=
  mkStream (sid st) (service st) (inbound st) (opening st) (accepting st) (localClosed st) (remoteClosed st) (reset st) (resetErr st) v (openErr st) (opened st) (finished st) (sndCredit st) (rcvWindow st) (sendQ st) (sendBytes st) (inQ st) (inBytes st) (closeAfterFlush st) (bytesIn st) (bytesOut st) (acceptMeta st) (ep st) (bcast st).
Definition set_openErr (v : option (Z * bytes)) (st : Stream) : Stream :=
  mkStream (sid st) (service st) (inbound st) (opening st) (accepting st) (localClosed st) (remoteClosed st) (reset st) (resetErr st) (ready st) v (opened st) (finished st) (sndCredit st) (rcvWindow st) (sendQ st) (sendBytes st) (inQ st) (inBytes st) (closeAfterFlush st) (bytesIn st) (bytesOut st) (acceptMeta st) (ep st) (bcast st).
Definition set_opened (v : bool) (st : Stream) : Stream :=
  mkStream (sid st) (service st) (inbound st) (opening st) (accepting st) (localClosed st) (remoteClosed st) (reset st) (resetErr st) (ready st) (openErr st) v (finished st) (sndCredit st) (rcvWindow st) (sendQ st) (sendBytes st) (inQ st) (inBytes st) (closeAfterFlush st) (bytesIn st) (bytesOut st) (acceptMeta st) (ep st) (bcast st).
Definition set_finished (v : bool) (st : Stream) : Stream :=
  mkStream (sid st) (service st) (inbound st) (opening st) (accepting st) (localClosed st) (remoteClosed st) (reset st) (resetErr st) (ready st) (openErr st) (opened st) v (sndCredit st) (rcvWindow st) (sendQ st) (sendBytes st) (inQ st) (inBytes st) (closeAfterFlush st) (bytesIn st) (bytesOut st) (acceptMeta st) (ep st) (bcast st).
Definition set_sndCredit (v : Z) (st : Stream) : Stream :=
  mkStream (sid st) (service st) (inbound st) (opening st) (accepting st) (localClosed st) (remoteClosed st) (reset st) (resetErr st) (ready st) (openErr st) (opened st) (finished st) v (rcvWindow st) (sendQ st) (sendBytes st) (inQ st) (inBytes st) (closeAfterFlush st) (bytesIn st) (bytesOut st) (acceptMeta st) (ep st) (bcast st).
Definition set_rcvWindow (v : Z) (st : Stream) : Stream :=
  mkStream (sid st) (service st) (inbound st) (opening st) (accepting st) (localClosed st) (remoteClosed st) (reset st) (resetErr st) (ready st) (openErr st) (opened st) (finished st) (sndCredit st) v (sendQ st) (sendBytes st) (inQ st) (inBytes st) (closeAfterFlush st) (bytesIn st) (bytesOut st) (acceptMeta st) (ep st) (bcast st).
Definition set_sendQ (v : list bytes) (st : Stream) : Stream :=
  mkStream (sid st) (service st) (inbound st) (opening st) (accepting st) (localClosed st) (remoteClosed st) (reset st) (resetErr st) (ready st) (openErr st) (opened st) (finished st) (sndCredit st) (rcvWindow st) v (sendBytes st) (inQ st) (inBytes st) (closeAfterFlush st) (bytesIn st) (bytesOut st) (acceptMeta st) (ep st) (bcast st).
Definition set_sendBytes (v : Z) (st : Stream) : Stream :=
  mkStream (sid st) (service st) (inbound st) (opening st) (accepting st) (localClosed st) (remoteClosed st) (reset st) (resetErr st) (ready st) (openErr st) (opened st) (finished st) (sndCredit st) (rcvWindow st) (sendQ st) v (inQ st) (inBytes st) (closeAfterFlush st) (bytesIn st) (bytesOut st) (acceptMeta st) (ep st) (bcast st).
Definition set_inQ (v : list bytes) (st : Stream) : Stream :=
  mkStream (sid st) (service st) (inbound st) (opening st) (accepting st) (localClosed st) (remoteClosed st) (reset st) (resetErr st) (ready st) (openErr st) (opened st) (finished st) (sndCredit st) (rcvWindow st) (sendQ st) (sendBytes st) v (inBytes st) (closeAfterFlush st) (bytesIn st) (bytesOut st) (acceptMeta st) (ep st) (bcast st).
Definition set_inBytes (v : Z) (st : Stream) : Stream :=
  mkStream (sid st) (service st) (inbound st) (opening st) (accepting st) (localClosed st) (remoteClosed st) (reset st) (resetErr st) (ready st) (openErr st) (opened st) (finished st) (sndCredit st) (rcvWindow st) (sendQ st) (sendBytes st) (inQ st) v (closeAfterFlush st) (bytesIn st) (bytesOut st) (acceptMeta st) (ep st) (bcast st).
Definition set_closeAfterFlush (v : bool) (st : Stream) : Stream :=
  mkStream (sid st) (service st) (inbound st) (opening st) (accepting st) (localClosed st) (remoteClosed st) (reset st) (resetErr st) (ready st) (openErr st) (opened st) (finished st) (sndCredit st) (rcvWindow st) (sendQ st) (sendBytes st) (inQ st) (inBytes st) v (bytesIn st) (bytesOut st) (acceptMeta st) (ep st) (bcast st).
Definition set_bytesIn (v : Z) (st : Stream) : Stream :=
  mkStream (sid st) (service st) (inbound st) (opening st) (accepting st) (localClosed st) (remoteClosed st) (reset st) (resetErr st) (ready st) (openErr st) (opened st) (finished st) (sndCredit st) (rcvWindow st) (sendQ st) (sendBytes st) (inQ st) (inBytes st) (closeAfterFlush st) v (bytesOut st) (acceptMeta st) (ep st) (bcast st).
Definition set_bytesOut (v : Z) (st : Stream) : Stream :=
  mkStream (sid st) (service st) (inbound st) (opening st) (accepting st) (localClosed st) (remoteClosed st) (reset st) (resetErr st) (ready st) (openErr st) (opened st) (finished st) (sndCredit st) (rcvWindow st) (sendQ st) (sendBytes st) (inQ st) (inBytes st) (closeAfterFlush st) (bytesIn st) v (acceptMeta st) (ep st) (bcast st).
Definition set_acceptMeta (v : bytes) (st : Stream) : Stream :=
  mkStream (sid st) (service st) (inbound st) (opening st) (accepting st) (localClosed st) (remoteClosed st) (reset st) (resetErr st) (ready st) (openErr st) (opened st) (finished st) (sndCredit st) (rcvWindow st) (sendQ st) (sendBytes st) (inQ st) (inBytes st) (closeAfterFlush st) (bytesIn st) (bytesOut st) v (ep st) (bcast st).
Definition set_ep (v : option nat) (st : Stream) : Stream :=
  mkStream (sid st) (service st) (inbound st) (opening st) (accepting st) (localClosed st) (remoteClosed st) (reset st) (resetErr st) (ready st) (openErr st) (opened st) (finished st) (sndCredit st) (rcvWindow st) (sendQ st) (sendBytes st) (inQ st) (inBytes st) (closeAfterFlush st) (bytesIn st) (bytesOut st) (acceptMeta st) v (bcast st).
Definition set_bcast (v : nat) (st : Stream) : Stream :=
  mkStream (sid st) (service st) (inbound st) (opening st) (accepting st) (localClosed st) (remoteClosed st) (reset st) (resetErr st) (ready st) (openErr st) (opened st) (finished st) (sndCredit st) (rcvWindow st) (sendQ st) (sendBytes st) (inQ st) (inBytes st) (closeAfterFlush st) (bytesIn st) (bytesOut st) (acceptMeta st) (ep st) v.

Definition newStream (id : Z) (service : bytes) (inbound : bool) : Stream :=
  mkStream id service inbound false false false false false None 0 None false false
    0 0 [] 0 [] 0 false 0 0 [] None 0.

Definition Broadcast (st : Stream) : Stream := set_bcast (S (bcast st)) st.

(** ** Lifecycle *)

(** [terminalError]. *)
Definition terminalError (st : Stream) : option error :=
  match resetErr st with Some (c, m) => Some (ResetError c m) | None => None end.

(** [markOpened] under [lifeMu]: [true] when the observer is to be told. *)
Definition markOpened_locked (st : Stream) : bool * Stream :=
  if finished st || opened st then (false, st) else (true, set_opened true st).

(** The [lifeMu] section of [Session.finish]: [None] when it already ran,
    otherwise whether the observer is to be told. *)
Definition finish_locked (st : Stream) : option bool * Stream :=
  if finished st then (None, st) else (Some (opened st), set_finished true st).

Definition attachEndpoint_locked (e : nat) (st : Stream) : Stream := set_ep (Some e) st.

Definition closeEndpoint_locked (st : Stream) : option nat * Stream := (ep st, set_ep None st).

(** [setReset] under [mu]; the broadcast follows the unlock. *)
Definition setReset_locked (code : Z) (message : bytes) (st : Stream) : Stream :=
  if reset st then st
  else
    let st := set_resetErr (Some (code, message)) (set_reset true st) in
    if opening st then set_ready (S (ready st)) (set_opening false st) else st.

(** The condition [maybeFinish] computes. *)
Definition maybeFinish_done (st : Stream) : bool :=
  localClosed st && remoteClosed st && bool_decide (sendQ st = []) && bool_decide (inQ st = []).

(** [detach] under [Stream.mu]: the bytes given back. *)
Definition detach_locked (st : Stream) : Z * Stream :=
  (to_u 64 (sendBytes st + inBytes st), set_sendBytes 0 (set_inBytes 0 st)).

(** The accepting side of [acceptOpen], ready before APP_ACCEPT is sent. *)
Definition acceptOpen_locked (st : Stream) : Stream :=
  Broadcast (set_rcvWindow AppInitialWindow (set_sndCredit AppInitialWindow (set_accepting false st))).

(** [handleAccept] and [handleReject] under [mu]: [true] when [ready] is to be
    closed. *)
Definition handleAccept_locked (grant : Z) (meta : bytes) (st : Stream) : bool * Stream :=
  if opening st then (true, set_acceptMeta meta (set_sndCredit grant (set_opening false st)))
  else (false, st).

Definition handleReject_locked (code : Z) (message : bytes) (st : Stream) : bool * Stream :=
  if opening st then (true, set_openErr (Some (code, message)) (set_opening false st))
  else (false, st).

(** ** Sending *)

Inductive wl_decision :=
  | WL_return
  | WL_send (data : bytes)
  | WL_close
  | WL_wait (seen : nat).

(** The size of the next APP_DATA: the head of the queue, cut to the credit
    and to the frame limit. *)
Definition next_size (head : bytes) (credit : Z) : Z :=
  let n := to_u 32 (zlen head) in
  let n := if credit <? n then credit else n in
  if AppMaxDataBytes <? n then AppMaxDataBytes else n.

(** One round of [writeLoop] under [mu], up to the unlock or to [cond.Wait]. *)
Definition writeLoop_locked (st : Stream) : wl_decision * Stream :=
  if reset st then (WL_return, st)
  else match sendQ st with
  | head :: q =>
      if 0 <? sndCredit st then
        let n := next_size head (sndCredit st) in
        let data := take (Z.to_nat n) head in
        let st := set_sndCredit (to_u 32 (sndCredit st - n)) st in
        let st := set_sendBytes (to_u 64 (sendBytes st - n)) st in
        let st := set_bytesOut (to_u 64 (bytesOut st + n)) st in
        let st := if to_u 32 (zlen head) =? n then set_sendQ q st
                  else set_sendQ (drop (Z.to_nat n) head :: q) st in
        (WL_send data, st)
      else (WL_wait (bcast st), st)
  | [] =>
      if closeAfterFlush st then (WL_close, set_localClosed true st)
      else (WL_wait (bcast st), st)
  end.

Inductive write_decision :=
  | WR_reset (e : option (Z * bytes))
  | WR_closed
  | WR_overflow
  | WR_quota
  | WR_ok.

#[global] Instance write_decision_eq_dec : EqDecision write_decision.
Proof. solve_decision. Defined.

(** [Write] under [mu]; [reserved] is the answer of [reserveBuffer], asked
    only when the earlier checks pass. *)
Definition write_needs_buffer (p : bytes) (st : Stream) : bool :=
  negb (reset st) && negb (localClosed st || closeAfterFlush st)
  && negb (AppMaxSendQueue <? to_u 64 (sendBytes st + zlen p)).

Definition Write_locked (p : bytes) (reserved : bool) (st : Stream) : write_decision * Stream :=
  if reset st then (WR_reset (resetErr st), st)
  else if localClosed st || closeAfterFlush st then (WR_closed, st)
  else if AppMaxSendQueue <? to_u 64 (sendBytes st + zlen p) then (WR_overflow, st)
  else if negb reserved then (WR_quota, st)
  else (WR_ok, Broadcast (set_sendBytes (to_u 64 (sendBytes st + zlen p)) (set_sendQ (sendQ st ++ [p]) st))).

Inductive close_decision :=
  | CW_reset (e : option (Z * bytes))
  | CW_already
  | CW_send_close
  | CW_queued.

Definition CloseWrite_locked (st : Stream) : close_decision * Stream :=
  if reset st then (CW_reset (resetErr st), st)
  else if localClosed st || closeAfterFlush st then (CW_already, st)
  else
    let st := set_closeAfterFlush true st in
    match sendQ st with
    | [] => (CW_send_close, set_localClosed true st)
    | _ => (CW_queued, Broadcast st)
    end.

(** ** Receiving *)

Inductive read_decision :=
  | RD_reset (e : option (Z * bytes))
  | RD_data (data : bytes)
  | RD_eof
  | RD_wait (seen : nat).

(** One round of [Read] under [mu] with a buffer of [n] bytes. *)
Definition Read_locked (n : Z) (st : Stream) : read_decision * Stream :=
  if reset st then (RD_reset (resetErr st), st)
  else match inQ st with
  | head :: q =>
      let k := Z.min n (zlen head) in
      let data := take (Z.to_nat k) head in
      let rest := drop (Z.to_nat k) head in
      let st := set_inQ (match rest with [] => q | _ => rest :: q end) st in
      let st := set_inBytes (to_u 64 (inBytes st - k)) st in
      let st := set_bytesIn (to_u 64 (bytesIn st + k)) st in
      let st := set_rcvWindow (to_u 32 (rcvWindow st + to_u 32 k)) st in
      (RD_data data, st)
  | [] => if remoteClosed st then (RD_eof, st) else (RD_wait (bcast st), st)
  end.

Inductive deliver_decision :=
  | DL_ignored
  | DL_protocol (message : bytes)
  | DL_quota
  | DL_ok.

#[global] Instance deliver_decision_eq_dec : EqDecision deliver_decision.
Proof. solve_decision. Defined.

(** [deliver]: the two checks before the lock and the section under [mu]. *)
Definition deliver_needs_buffer (data : bytes) (st : Stream) : bool :=
  negb (zlen data =? 0) && negb (AppMaxDataBytes <? zlen data)
  && negb (accepting st || opening st) && negb (remoteClosed st || reset st)
  && negb (rcvWindow st <? to_u 32 (zlen data)).

Definition deliver_locked (data : bytes) (reserved : bool) (st : Stream) : deliver_decision * Stream :=
  if zlen data =? 0 then (DL_ignored, st)
  else if AppMaxDataBytes <? zlen data then (DL_protocol (str "data frame too large"), st)
  else if accepting st || opening st then (DL_protocol (str "data before accept"), st)
  else if remoteClosed st || reset st then (DL_protocol (str "data after close"), st)
  else if rcvWindow st <? to_u 32 (zlen data) then (DL_protocol (str "credit exceeded"), st)
  else if negb reserved then (DL_quota, st)
  else
    (DL_ok, Broadcast (set_inBytes (to_u 64 (inBytes st + zlen data))
       (set_inQ (inQ st ++ [data]) (set_rcvWindow (to_u 32 (rcvWindow st - to_u 32 (zlen data))) st)))).

Inductive credit_decision := CR_ignored | CR_cap | CR_ok.

Definition addCredit_locked (n : Z) (st : Stream) : credit_decision * Stream :=
  if n =? 0 then (CR_ignored, st)
  else if reset st then (CR_ignored, st)
  else if AppMaxCredit <? to_u 32 (sndCredit st + n) then (CR_cap, st)
  else (CR_ok, Broadcast (set_sndCredit (to_u 32 (sndCredit st + n)) st)).

(** [remoteClose] under [mu]: [true] when [maybeFinish] follows. *)
Definition remoteClose_locked (st : Stream) : bool * Stream :=
  if reset st || remoteClosed st then (false, st)
  else (true, Broadcast (set_remoteClosed true st)).

(** ** The sections as one operation type *)

Inductive section :=
  | SecMarkOpened | SecFinish
  | SecAttach (e : nat) | SecCloseEndpoint
  | SecSetReset (code : Z) (message : bytes) | SecBroadcast
  | SecDetach
  | SecAcceptOpen
  | SecHandleAccept (grant : Z) (meta : bytes) | SecHandleReject (code : Z) (message : bytes)
  | SecCloseReady
  | SecWriteLoop | SecWrite (p : bytes) (reserved : bool) | SecCloseWrite
  | SecRead (n : Z) | SecDeliver (data : bytes) (reserved : bool)
  | SecAddCredit (n : Z) | SecRemoteClose.

Definition run_section (c : section) (st : Stream) : Stream :=
  match c with
  | SecMarkOpened => (markOpened_locked st).2
  | SecFinish => (finish_locked st).2
  | SecAttach e => attachEndpoint_locked e st
  | SecCloseEndpoint => (closeEndpoint_locked st).2
  | SecSetReset code message => setReset_locked code message st
  | SecBroadcast => Broadcast st
  | SecDetach => (detach_locked st).2
  | SecAcceptOpen => acceptOpen_locked st
  | SecHandleAccept grant meta => (handleAccept_locked grant meta st).2
  | SecHandleReject code message => (handleReject_locked code message st).2
  | SecCloseReady => set_ready (S (ready st)) st
  | SecWriteLoop => (writeLoop_locked st).2
  | SecWrite p reserved => (Write_locked p reserved st).2
  | SecCloseWrite => (CloseWrite_locked st).2
  | SecRead n => (Read_locked n st).2
  | SecDeliver data reserved => (deliver_locked data reserved st).2
  | SecAddCredit n => (addCredit_locked n st).2
  | SecRemoteClose => (remoteClose_locked st).2
  end.

(** Bytes held by a queue of chunks. *)
Definition qlen (q : list bytes) : Z := zlen (concat q).

Lemma qlen_nil : qlen [] = 0.
Proof. done. Qed.

Lemma qlen_cons c q : qlen (c :: q) = zlen c + qlen q.
Proof. unfold qlen; simpl. apply zlen_app. Qed.

Lemma qlen_snoc q c : qlen (q ++ [c]) = qlen q + zlen c.
Proof. unfold qlen. rewrite concat_app, zlen_app. simpl. by rewrite app_nil_r. Qed.

Lemma qlen_nonneg q : 0 <= qlen q.
Proof. apply zlen_nonneg. Qed.

(** What holds of every stream object between sections.  The byte counters
    never exceed what is queued; [sendBytes] is exact until a reset (a reset
    stream keeps its queues, but [detach] zeroes the counters). *)
Record stream_wf (st : Stream) : Prop := {
  wf_credit : 0 <= sndCredit st <= AppMaxCredit;
  wf_opening : opening st = true -> accepting st = false;
  wf_window : 0 <= rcvWindow st
    /\ rcvWindow st + qlen (inQ st) = (if accepting st then 0 else AppInitialWindow);
  wf_sendQ : Forall (fun c => 0 < zlen c <= AppMaxSendQueue) (sendQ st);
  wf_inQ : Forall (fun c => 0 < zlen c) (inQ st);
  wf_sendBytes : 0 <= sendBytes st <= qlen (sendQ st) /\ qlen (sendQ st) <= AppMaxSendQueue
    /\ (reset st = false -> sendBytes st = qlen (sendQ st));
  wf_inBytes : 0 <= inBytes st <= qlen (inQ st);
  wf_reset : reset st = true <-> is_Some (resetErr st) }.

(** [inBytes] is exact until a reset, for every stream a caller can read. *)
Definition in_exact (st : Stream) : Prop := reset st = false -> inBytes st = qlen (inQ st).

Definition stream_exact (st : Stream) : Prop := stream_wf st /\ in_exact st.

(** What each caller establishes before it enters a section. *)
Definition section_pre (c : section) (st : Stream) : Prop :=
  match c with
  | SecDetach => reset st = true \/ sendQ st = [] /\ inQ st = []
  | SecAcceptOpen => accepting st = true
  | SecHandleAccept grant _ => 0 < grant <= AppMaxCredit
  | SecWrite p _ => 0 < zlen p < 2 ^ 63
  | SecRead n => 0 < n
  | SecAddCredit n => u32 n = true
  | _ => True
  end.

(** ** Section lemmas *)

Lemma app_limits :
  AppInitialWindow = 262144 /\ AppMaxCredit = 1048576 /\ AppMaxDataBytes = 65536
  /\ AppMaxSendQueue = 1048576 /\ AppMaxBuffered = 8388608.
Proof. done. Qed.

Lemma to_u32_id v : 0 <= v < 2 ^ 32 -> to_u 32 v = v.
Proof. intros H. apply to_u_id, in_u_spec, H. Qed.

Lemma to_u64_id v : 0 <= v < 2 ^ 64 -> to_u 64 v = v.
Proof. intros H. apply to_u_id, in_u_spec, H. Qed.

Lemma to_u32_bound v : 0 <= to_u 32 v < 2 ^ 32.
Proof. apply in_u_spec, to_u_range. lia. Qed.

Lemma next_size_bounds head credit :
  0 < zlen head <= AppMaxSendQueue -> 0 < credit ->
  0 < next_size head credit <= zlen head /\ next_size head credit <= credit
  /\ next_size head credit <= AppMaxDataBytes.
Proof.
  destruct app_limits as (_ & _ & ED & EQ & _). unfold next_size. rewrite ED, EQ.
  intros H Hc. rewrite to_u32_id by lia.
  destruct (Z.ltb_spec credit (zlen head)); destruct (Z.ltb_spec 65536 credit) as [?|?];
    destruct (Z.ltb_spec 65536 (zlen head)) as [?|?]; lia.
Qed.

(** The write loop's round, when it sends: a non-empty frame within the
    credit and the frame limit, taken from the front of the queue. *)
Lemma writeLoop_send st d st' :
  Forall (fun c => 0 < zlen c <= AppMaxSendQueue) (sendQ st) ->
  0 <= sndCredit st <= AppMaxCredit ->
  writeLoop_locked st = (WL_send d, st') ->
  0 < zlen d <= AppMaxDataBytes /\ zlen d <= sndCredit st
  /\ concat (sendQ st) = d ++ concat (sendQ st')
  /\ Forall (fun c => 0 < zlen c <= AppMaxSendQueue) (sendQ st')
  /\ exists q, st' = set_sendQ q (set_bytesOut (to_u 64 (bytesOut st + zlen d))
       (set_sendBytes (to_u 64 (sendBytes st - zlen d)) (set_sndCredit (sndCredit st - zlen d) st))).
Proof.
  destruct app_limits as (EW & EC & ED & EQ & _). rewrite EC.
  intros HF Hc. unfold writeLoop_locked.
  destruct (reset st); [done|].
  destruct (sendQ st) as [|head q] eqn:Eq; [by destruct (closeAfterFlush st)|].
  destruct (Z.ltb_spec 0 (sndCredit st)) as [Hpos|]; [|done].
  apply Forall_cons in HF as [Hh HF].
  pose proof (next_size_bounds head (sndCredit st) Hh Hpos) as (Hn1 & Hn2 & Hn3).
  set (n := next_size head (sndCredit st)) in *. intros [= <- <-].
  assert (zlen (take (Z.to_nat n) head) = n) as Ez by (rewrite zlen_take; lia).
  rewrite Ez. rewrite EQ in *. rewrite (to_u32_id (zlen head)) by lia. rewrite (to_u32_id (sndCredit st - n)) by lia.
  destruct (Z.eqb_spec (zlen head) n) as [E|E]; simpl.
  - rewrite (take_ge head) by (unfold zlen in *; lia).
    split_and!; try (done || lia). by exists q.
  - rewrite (app_assoc (take _ _)), take_drop. split_and!; try (done || lia).
    + constructor; [|done]. rewrite zlen_drop; lia.
    + by eexists.
Qed.

Lemma writeLoop_ready st :
  reset st = false -> sendQ st <> [] -> 0 < sndCredit st -> exists d st', writeLoop_locked st = (WL_send d, st').
Proof.
  intros Hr Hq Hc. unfold writeLoop_locked. rewrite Hr. destruct (sendQ st); [done|].
  destruct (Z.ltb_spec 0 (sndCredit st)); [by eauto|lia].
Qed.

(** A read returns a non-empty prefix of what is queued, at most [n] bytes. *)
Lemma Read_data n st d st' :
  Forall (fun c => 0 < zlen c) (inQ st) -> 0 < n ->
  Read_locked n st = (RD_data d, st') ->
  reset st = false /\ 0 < zlen d <= n /\ concat (inQ st) = d ++ concat (inQ st')
  /\ Forall (fun c => 0 < zlen c) (inQ st')
  /\ exists q, st' = set_rcvWindow (to_u 32 (rcvWindow st + to_u 32 (zlen d)))
       (set_bytesIn (to_u 64 (bytesIn st + zlen d)) (set_inBytes (to_u 64 (inBytes st - zlen d)) (set_inQ q st))).
Proof.
  intros HF Hn. unfold Read_locked. destruct (reset st); [done|].
  destruct (inQ st) as [|head q] eqn:Eq; [by destruct (remoteClosed st)|].
  apply Forall_cons in HF as [Hh HF]. intros [= <- <-].
  set (k := Z.min n (zlen head)).
  assert (zlen (take (Z.to_nat k) head) = k) as Ez by (rewrite zlen_take; lia). rewrite Ez.
  pose proof (take_drop (Z.to_nat k) head) as Etd.
  split; [done|]. split; [lia|].
  destruct (drop (Z.to_nat k) head) as [|c r] eqn:Ed; simpl.
  - rewrite app_nil_r in Etd. rewrite Etd. split_and!; [done..|]. by eexists.
  - split; [by rewrite app_comm_cons, app_assoc, Etd|]. split; [|by eexists].
    constructor; [|done]. rewrite zlen_cons. pose proof (zlen_nonneg r). lia.
Qed.

(** An accepted frame fits the window and is queued behind the others. *)
Lemma deliver_ok data b st st' :
  0 <= rcvWindow st <= AppInitialWindow ->
  deliver_locked data b st = (DL_ok, st') ->
  b = true /\ accepting st = false /\ opening st = false /\ remoteClosed st = false /\ reset st = false
  /\ 0 < zlen data <= AppMaxDataBytes /\ zlen data <= rcvWindow st
  /\ st' = Broadcast (set_inBytes (to_u 64 (inBytes st + zlen data))
       (set_inQ (inQ st ++ [data]) (set_rcvWindow (rcvWindow st - zlen data) st))).
Proof.
  destruct app_limits as (EW & _ & ED & _). rewrite EW, ED. intros Hw. unfold deliver_locked. rewrite ED.
  pose proof (zlen_nonneg data).
  destruct (Z.eqb_spec (zlen data) 0); [done|].
  destruct (Z.ltb_spec 65536 (zlen data)); [done|].
  destruct (accepting st); [done|]. destruct (opening st); [done|].
  destruct (remoteClosed st); [done|]. destruct (reset st); [done|]. cbn [orb].
  rewrite (to_u32_id (zlen data)) by lia.
  destruct (Z.ltb_spec (rcvWindow st) (zlen data)); [done|].
  destruct b; [|done]. cbn [negb]. intros [= <-].
  rewrite to_u32_id by lia. split_and!; done || lia.
Qed.

(** Anything but an acceptance leaves the stream as it was. *)
Lemma deliver_rejected data b st dec st' :
  deliver_locked data b st = (dec, st') -> dec <> DL_ok -> st' = st.
Proof. unfold deliver_locked. intros H Hd. repeat case_match; by simplify_eq. Qed.

Lemma Write_ok p b st st' :
  0 < zlen p < 2 ^ 63 -> (reset st = false -> 0 <= sendBytes st <= AppMaxSendQueue) ->
  Write_locked p b st = (WR_ok, st') ->
  b = true /\ reset st = false /\ localClosed st = false /\ closeAfterFlush st = false
  /\ sendBytes st + zlen p <= AppMaxSendQueue
  /\ st' = Broadcast (set_sendBytes (sendBytes st + zlen p) (set_sendQ (sendQ st ++ [p]) st)).
Proof.
  destruct app_limits as (_ & _ & _ & EQ & _). rewrite EQ. intros Hp Hs. unfold Write_locked. rewrite EQ.
  destruct (reset st); [done|]. specialize (Hs eq_refl).
  destruct (localClosed st); [done|]. destruct (closeAfterFlush st); [done|]. cbn [orb].
  rewrite to_u64_id by lia.
  destruct (Z.ltb_spec 1048576 (sendBytes st + zlen p)); [done|].
  destruct b; [|done]. cbn [negb]. intros [= <-]. split_and!; done || lia.
Qed.

Lemma Write_refused p b st dec st' :
  Write_locked p b st = (dec, st') -> dec <> WR_ok -> st' = st.
Proof. unfold Write_locked. intros H Hd. repeat case_match; by simplify_eq. Qed.

Lemma wf_win_bounds st : stream_wf st -> 0 <= rcvWindow st <= AppInitialWindow /\ 0 <= qlen (inQ st) <= AppInitialWindow.
Proof.
  intros W. destruct (wf_window _ W). pose proof (qlen_nonneg (inQ st)).
  destruct app_limits as (EW & _). rewrite EW in *. case_match; lia.
Qed.

(** Each section that moves bytes keeps [stream_wf]. *)
Lemma writeLoop_wf st : stream_wf st -> stream_wf (writeLoop_locked st).2.
Proof.
  destruct app_limits as (EW & EC & ED & EQ & _).
  intros W. pose proof W as [H1 H2 H3 H4 H5 H6 H7 H8]. destruct (writeLoop_locked st) as [dec st'] eqn:E. cbn [snd].
  destruct dec as [|d| |seen].
  - unfold writeLoop_locked in E. repeat case_match; by simplify_eq.
  - pose proof (writeLoop_send st d st' H4 H1 E) as (Hd & Hc & Hcat & HF & q & ->).
    assert (reset st = false) as Hr by (unfold writeLoop_locked in E; by destruct (reset st)).
    destruct H6 as (_ & H6b & H6a). specialize (H6a Hr). cbn in *.
    assert (qlen (sendQ st) = zlen d + qlen q) as Eq by (unfold qlen; rewrite Hcat; apply zlen_app).
    pose proof (qlen_nonneg q).
    constructor; cbn; try done; try lia.
    rewrite to_u64_id by lia. split_and!; lia.
  - clear H1 H2 H3 H4 H5 H6 H7 H8. unfold writeLoop_locked in E.
    repeat case_match; simplify_eq; destruct W; by constructor.
  - unfold writeLoop_locked in E. repeat case_match; by simplify_eq.
Qed.

Lemma Read_wf n st :
  0 < n -> stream_wf st -> in_exact st -> stream_wf (Read_locked n st).2 /\ in_exact (Read_locked n st).2.
Proof.
  destruct app_limits as (EW & EC & ED & EQ & _).
  intros Hn W Hx. pose proof (wf_win_bounds st W) as [Hb1 Hb2]. destruct W as [H1 H2 [H3 H3'] H4 H5 H6 H7 H8].
  destruct (Read_locked n st) as [dec st'] eqn:E. cbn [snd].
  assert ((forall d, dec <> RD_data d) -> st' = st) as Hsame.
  { intros Hd. unfold Read_locked in E. repeat case_match; simplify_eq; try done; by edestruct Hd. }
  destruct dec as [|d| |]; try (rewrite Hsame by done; by split). clear Hsame.
  pose proof (Read_data n st d st' H5 Hn E) as (Hr & Hd & Hcat & HF & q & ->). cbn in *.
  assert (qlen (inQ st) = zlen d + qlen q) as Eq by (unfold qlen; rewrite Hcat; apply zlen_app).
  pose proof (qlen_nonneg q). specialize (Hx Hr).
  rewrite (to_u32_id (zlen d)), (to_u64_id (inBytes st - zlen d)) by lia.
  split; [|intros _; cbn; lia].
  constructor; cbn; try done; try lia.
  rewrite to_u32_id by lia. case_match; lia.
Qed.

Lemma deliver_wf data b st : stream_wf st -> stream_wf (deliver_locked data b st).2.
Proof.
  destruct app_limits as (EW & EC & ED & EQ & _).
  intros W. destruct (deliver_locked data b st) as [dec st'] eqn:E. cbn [snd].
  destruct (decide (dec = DL_ok)) as [->|Hn].
  2: { by rewrite (deliver_rejected _ _ _ _ _ E Hn). }
  pose proof (wf_win_bounds _ W).
  apply deliver_ok in E as (-> & Ha & Ho & Hc & Hr & Hd & Hw & ->); [|lia].
  destruct W as [H1 H2 [H3 H3'] H4 H5 H6 H7 H8].
  constructor; cbn; try done; rewrite ?Ha in *; rewrite ?qlen_snoc; try lia.
  - apply Forall_app. split; [done|]. constructor; [lia|done].
  - rewrite to_u64_id; lia.
Qed.

Lemma Write_wf p b st : 0 < zlen p < 2 ^ 63 -> stream_wf st -> stream_wf (Write_locked p b st).2.
Proof.
  destruct app_limits as (EW & EC & ED & EQ & _).
  intros Hp W. destruct (Write_locked p b st) as [dec st'] eqn:E. cbn [snd].
  destruct (decide (dec = WR_ok)) as [->|Hn].
  2: { by rewrite (Write_refused _ _ _ _ _ E Hn). }
  destruct W as [H1 H2 H3 H4 H5 H6 H7 H8]. pose proof (qlen_nonneg (sendQ st)).
  apply Write_ok in E as (-> & Hr & Hl & Hc & Hle & ->); [|done|lia].
  destruct H6 as (_ & H6b & H6a). specialize (H6a Hr).
  constructor; cbn; try done; rewrite ?qlen_snoc; try lia.
  apply Forall_app. split; [done|]. constructor; [lia|done].
Qed.

Lemma detach_wf st : reset st = true \/ sendQ st = [] -> stream_wf st -> stream_wf (detach_locked st).2.
Proof.
  intros Hpre W. pose proof (qlen_nonneg (sendQ st)). pose proof (qlen_nonneg (inQ st)).
  destruct W as [H1 H2 H3 H4 H5 H6 H7 H8]. cbn. constructor; cbn; try done; try lia. split_and!; try lia.
  intros Hr. destruct Hpre as [Hr'|Hs]; [congruence|]. by rewrite Hs.
Qed.

Lemma setReset_wf code message st : stream_wf st -> stream_wf (setReset_locked code message st).
Proof.
  unfold setReset_locked. destruct (reset st) eqn:Er; [done|]. intros [H1 H2 H3 H4 H5 H6 H7 H8].
  cbn. destruct (opening st) eqn:Eo; constructor; cbn; rewrite ?Eo; try done; try (split_and!; done || apply H6).
Qed.

Lemma acceptOpen_wf st : accepting st = true -> stream_wf st -> stream_wf (acceptOpen_locked st).
Proof.
  intros Ha [H1 H2 [H3 H3'] H4 H5 H6 H7 H8]. rewrite Ha in *. pose proof (qlen_nonneg (inQ st)).
  destruct app_limits as (EW & EC & _). constructor; cbn; try done; lia.
Qed.

Lemma addCredit_wf n st : stream_wf st -> stream_wf (addCredit_locked n st).2.
Proof.
  unfold addCredit_locked. destruct (n =? 0); [done|]. destruct (reset st) eqn:Er; [done|].
  destruct (Z.ltb_spec AppMaxCredit (to_u 32 (sndCredit st + n))); [done|].
  pose proof (to_u32_bound (sndCredit st + n)). intros []. constructor; cbn; done || lia.
Qed.

Lemma section_preserves_wf (c : section) (st : Stream) :
  section_pre c st -> stream_wf st -> in_exact st -> stream_wf (run_section c st).
Proof.
  destruct c; cbn [section_pre run_section]; intros Hpre W Hx;
    auto using writeLoop_wf, deliver_wf, Write_wf, setReset_wf, acceptOpen_wf, addCredit_wf.
  - unfold markOpened_locked. case_match; [done|]. destruct W; by constructor.
  - unfold finish_locked. case_match; [done|]. destruct W; by constructor.
  - destruct W; by constructor.
  - destruct W; by constructor.
  - destruct W; by constructor.
  - apply detach_wf; [|done]. destruct Hpre as [|[]]; auto.
  - unfold handleAccept_locked. case_match; [|done]. destruct W as [H1 H2 H3 H4 H5 H6 H7 H8].
    constructor; cbn; try done; lia.
  - unfold handleReject_locked. case_match; [|done]. destruct W. by constructor.
  - destruct W; by constructor.
  - unfold CloseWrite_locked. repeat case_match; try done; destruct W; by constructor.
  - by apply Read_wf.
  - unfold remoteClose_locked. case_match; [done|]. destruct W; by constructor.
Qed.

(** A section keeps [inBytes] exact; only [Read], [deliver] and [detach]
    touch it. *)
Lemma deliver_exact data b st : stream_wf st -> in_exact st -> in_exact (deliver_locked data b st).2.
Proof.
  destruct app_limits as (EW & EC & ED & EQ & _).
  intros W Hx. destruct (deliver_locked data b st) as [dec st'] eqn:E. cbn [snd].
  destruct (decide (dec = DL_ok)) as [->|Hn].
  2: { by rewrite (deliver_rejected _ _ _ _ _ E Hn). }
  pose proof (wf_win_bounds _ W). pose proof (wf_window _ W) as [_ Hw].
  apply deliver_ok in E as (-> & Ha & Ho & Hc & Hr & Hd & Hle & ->); [|lia]. rewrite Ha in Hw.
  specialize (Hx Hr). intros _. cbn. rewrite qlen_snoc, to_u64_id; lia.
Qed.

Lemma section_preserves_exact (c : section) (st : Stream) :
  section_pre c st -> stream_wf st -> in_exact st -> in_exact (run_section c st).
Proof.
  destruct c; cbn [section_pre run_section]; intros Hpre W Hx; try exact Hx; auto using deliver_exact;
    try (unfold markOpened_locked, finish_locked, setReset_locked, handleAccept_locked, handleReject_locked,
           writeLoop_locked, Write_locked, CloseWrite_locked, addCredit_locked, remoteClose_locked;
         repeat case_match; solve [done | exact Hx]).
  - intros Hr. cbn in *. destruct Hpre as [Hr'|[_ Hi]]; [congruence|]. by rewrite Hi.
  - by apply Read_wf.
Qed.

Lemma section_preserves c st : section_pre c st -> stream_exact st -> stream_exact (run_section c st).
Proof. intros Hp [W Hx]. split; [by apply section_preserves_wf|by apply section_preserves_exact]. Qed.

(** ** Waking those who wait

    A section that gives the write loop data or credit, or a reader data or an
    EOF, broadcasts; every section but the write loop's own. *)
Record rouses (st st' : Stream) : Prop := {
  rs_opening : opening st = false -> opening st' = false;
  rs_reset : reset st = true -> reset st' = true;
  rs_flush : closeAfterFlush st = true -> closeAfterFlush st' = true;
  rs_bcast : (bcast st <= bcast st')%nat;
  rs_quiet : opening st = false -> bcast st' = bcast st -> sendQ st' = sendQ st /\ sndCredit st' = sndCredit st;
  rs_queue : closeAfterFlush st = true -> sendQ st' = sendQ st;
  rs_reader : bcast st' = bcast st -> inQ st = [] -> remoteClosed st = false -> inQ st' = [] /\ remoteClosed st' = false }.

Lemma rouses_refl st : rouses st st.
Proof. by constructor. Qed.

Lemma rouses_trans st1 st2 st3 : rouses st1 st2 -> rouses st2 st3 -> rouses st1 st3.
Proof.
  intros [A1 A2 A3 A4 A5 A6 A7] [B1 B2 B3 B4 B5 B6 B7]. constructor; auto; [lia| | |].
  - intros Ho Hb. destruct (A5 Ho ltac:(lia)) as [<- <-]. apply B5; [auto|lia].
  - intros Hc. rewrite B6 by auto. auto.
  - intros Hb Hi Hc. destruct (A7 ltac:(lia) Hi Hc). apply B7; [lia|done..].
Qed.

Lemma section_rouses c st : (match c with SecWriteLoop => False | _ => True end) -> rouses st (run_section c st).
Proof.
  intros Hc. destruct c; try done; constructor; cbn; unfold markOpened_locked, finish_locked, setReset_locked, handleAccept_locked,
    handleReject_locked, Write_locked, CloseWrite_locked, Read_locked, deliver_locked, addCredit_locked, remoteClose_locked;
    repeat case_match; cbn in *; try done; try lia; intros; try congruence; try (split; congruence);
    try (match goal with H : _ || _ = false |- _ => apply orb_false_iff in H as [? ?] end; congruence).
Qed.

(** ** Theorems *)

Lemma newStream_wf id svc inb : stream_wf (set_accepting true (newStream id svc inb)).
Proof. destruct app_limits as (EW & EC & _). constructor; cbn; try done; try lia. Qed.

Lemma openStream_wf id svc :
  stream_wf (set_rcvWindow AppInitialWindow (set_opening true (newStream id svc false))).
Proof. destruct app_limits as (EW & EC & _). constructor; cbn; try done; try lia. Qed.

Lemma newStream_exact id svc inb : stream_exact (set_accepting true (newStream id svc inb)).
Proof. split; [apply newStream_wf|done]. Qed.

Lemma openStream_exact id svc :
  stream_exact (set_rcvWindow AppInitialWindow (set_opening true (newStream id svc false))).
Proof. split; [apply openStream_wf|done]. Qed.

(** Once reset, always reset, with the first reason. *)
Lemma section_reset_sticky c st :
  reset st = true -> reset (run_section c st) = true /\ resetErr (run_section c st) = resetErr st.
Proof.
  intros Hr. destruct c; cbn;
    unfold markOpened_locked, finish_locked, setReset_locked, handleAccept_locked, handleReject_locked,
      writeLoop_locked, Write_locked, CloseWrite_locked, Read_locked, deliver_locked, addCredit_locked,
      remoteClose_locked; rewrite ?Hr, ?orb_true_r; repeat case_match; done.
Qed.

Fixpoint run_sections (cs : list section) (st : Stream) : Stream :=
  match cs with [] => st | c :: cs => run_sections cs (run_section c st) end.

Fixpoint sections_pre (cs : list section) (st : Stream) : Prop :=
  match cs with [] => True | c :: cs => section_pre c st /\ sections_pre cs (run_section c st) end.

Lemma run_sections_exact cs st : stream_exact st -> sections_pre cs st -> stream_exact (run_sections cs st).
Proof.
  revert st; induction cs as [|c cs IH]; intros st W; [done|]. intros [Hp Hps]. apply IH; [|done].
  by apply section_preserves.
Qed.

(** Whatever sequence of locked sections a stream goes through, from the
    object [Open] or [handleOpen] creates, and in whatever order goroutines
    run them: the send credit stays within AppMaxCredit, the receive window
    plus the bytes waiting in [inQ] is exactly the initial window (so the
    peer can never make us buffer more than that on one stream), queues hold
    no empty chunk, the byte counters equal the queued bytes and never exceed
    AppMaxSendQueue until a reset, and the stream is reset exactly when it
    has a reset reason. *)
Theorem stream_invariant (cs : list section) (id : Z) (svc : bytes) (local : bool)
    (st0 := if local then set_rcvWindow AppInitialWindow (set_opening true (newStream id svc false))
            else set_accepting true (newStream id svc true))
    (Hpre : sections_pre cs st0) :
  stream_exact (run_sections cs st0).
Proof. apply run_sections_exact; [|done]. destruct local; [apply openStream_exact|apply newStream_exact]. Qed.

Definition demo_sections : list section :=
  [SecHandleAccept 5 (str "meta"); SecDeliver (str "hello") true; SecWrite (str "worldwide") true;
   SecWriteLoop; SecAddCredit 2; SecWriteLoop; SecRead 3; SecCloseWrite; SecSetReset 7 (str "gone"); SecDetach].

Lemma stream_invariant_witness :
  sections_pre demo_sections (set_rcvWindow AppInitialWindow (set_opening true (newStream 1 (str "db") false)))
  /\ stream_exact (run_sections demo_sections
       (set_rcvWindow AppInitialWindow (set_opening true (newStream 1 (str "db") false)))).
Proof.
  assert (sections_pre demo_sections
    (set_rcvWindow AppInitialWindow (set_opening true (newStream 1 (str "db") false)))) as H.
  { vm_compute. split_and!; try done; try (by left). }
  split; [exact H|]. exact (stream_invariant demo_sections 1 (str "db") true H).
Defined.

(** C14: a reset is final.  No later section clears it or replaces its reason;
    no data is accepted, queued, handed to a reader or taken by the write
    loop, and no credit is added: readers and writers get the first
    reset's error. *)
Theorem reset_is_final (cs : list section) (st : Stream) (Hr : reset st = true) :
  let st' := run_sections cs st in
  reset st' = true /\ resetErr st' = resetErr st
  /\ (writeLoop_locked st').1 = WL_return
  /\ (forall p b, (Write_locked p b st').1 = WR_reset (resetErr st))
  /\ (forall n, (Read_locked n st').1 = RD_reset (resetErr st))
  /\ (CloseWrite_locked st').1 = CW_reset (resetErr st)
  /\ (forall d b, (deliver_locked d b st').1 <> DL_ok)
  /\ (forall n, (addCredit_locked n st').1 = CR_ignored).
Proof.
  assert (reset (run_sections cs st) = true /\ resetErr (run_sections cs st) = resetErr st) as [H1 H2].
  { revert st Hr; induction cs as [|c cs IH]; intros st Hr; [done|]. simpl.
    destruct (section_reset_sticky c st Hr) as [Hr' He]. rewrite <- He. by apply IH. }
  cbn zeta. unfold writeLoop_locked, Write_locked, Read_locked, CloseWrite_locked, deliver_locked, addCredit_locked.
  rewrite H1, H2, ?orb_true_r. split_and!; try done; intros; by repeat case_match.
Qed.

Lemma reset_is_final_witness :
  let st := setReset_locked 7 (str "gone") (newStream 1 (str "db") false) in
  reset st = true /\ reset (run_sections demo_sections st) = true.
Proof.
  split; [reflexivity|].
  apply (reset_is_final demo_sections (setReset_locked 7 (str "gone") (newStream 1 (str "db") false)) eq_refl).
Defined.

(** [deliver] on every branch.  Empty data is a no-op; every other frame
    is either queued whole, consuming exactly its length of the window, or it
    changes nothing and resets the stream: oversized, before the stream is
    accepted, after close or reset, beyond the granted credit, or beyond the
    session's buffer. *)
Theorem deliver_branches (data : bytes) (reserved : bool) (st : Stream) (W : stream_exact st) :
  deliver_locked data reserved st =
    if zlen data =? 0 then (DL_ignored, st)
    else if AppMaxDataBytes <? zlen data then (DL_protocol (str "data frame too large"), st)
    else if accepting st || opening st then (DL_protocol (str "data before accept"), st)
    else if remoteClosed st || reset st then (DL_protocol (str "data after close"), st)
    else if AppInitialWindow <? qlen (inQ st) + zlen data then (DL_protocol (str "credit exceeded"), st)
    else if reserved then
      (DL_ok, Broadcast (set_inBytes (qlen (inQ st) + zlen data)
         (set_inQ (inQ st ++ [data]) (set_rcvWindow (AppInitialWindow - qlen (inQ st) - zlen data) st))))
    else (DL_quota, st).
Proof.
  destruct app_limits as (EW & _ & ED & _). destruct W as [W Hx]. pose proof (wf_win_bounds st W) as [Hb1 Hb2].
  pose proof (zlen_nonneg data) as Hz.
  unfold deliver_locked. destruct (Z.eqb_spec (zlen data) 0); [done|].
  destruct (Z.ltb_spec AppMaxDataBytes (zlen data)); [done|].
  destruct (accepting st) eqn:Ea; [done|]. destruct (opening st) eqn:Eo; [done|].
  destruct (remoteClosed st) eqn:Ec; [done|]. destruct (reset st) eqn:Er; [done|]. cbn [orb].
  pose proof (wf_window st W) as [Hw1 Hw2]. rewrite Ea in Hw2. pose proof (Hx Er) as Hi.
  rewrite (to_u32_id (zlen data)) by lia.
  replace (AppInitialWindow <? qlen (inQ st) + zlen data) with (rcvWindow st <? zlen data) by lia.
  destruct (Z.ltb_spec (rcvWindow st) (zlen data)); [done|]. destruct reserved; [|done]. cbn [negb].
  rewrite (to_u32_id (rcvWindow st - zlen data)), (to_u64_id (inBytes st + zlen data)) by lia.
  replace (rcvWindow st - zlen data) with (AppInitialWindow - qlen (inQ st) - zlen data) by lia.
  by rewrite Hi.
Qed.

Lemma deliver_branches_witness :
  let st := set_rcvWindow AppInitialWindow (set_opening true (newStream 1 (str "db") false)) in
  stream_exact st /\ deliver_locked (str "early") true st = (DL_protocol (str "data before accept"), st).
Proof.
  split; [apply openStream_exact|].
  rewrite (deliver_branches (str "early") true _ (openStream_exact 1 (str "db"))). reflexivity.
Defined.

(** [addCredit]'s cap check is made on the wrapped 32-bit sum.  A peer at
    credit [c] that sends [2^32 - k] (with [0 < k <= c]) is not reset for
    exceeding the cap: its credit update is accepted and takes [k] bytes
    of credit away. *)
Theorem addCredit_wraps (st : Stream) (k : Z)
    (Hr : reset st = false) (Hc : sndCredit st <= AppMaxCredit) (Hk : 0 < k <= sndCredit st) :
  let n := 2 ^ 32 - k in
  u32 n = true /\ AppMaxCredit < sndCredit st + n
  /\ addCredit_locked n st = (CR_ok, Broadcast (set_sndCredit (sndCredit st - k) st)).
Proof.
  destruct app_limits as (_ & EC & _). rewrite EC in *. cbn zeta.
  split; [apply in_u_spec; lia|]. split; [lia|].
  unfold addCredit_locked. rewrite EC, Hr.
  destruct (Z.eqb_spec (2 ^ 32 - k) 0); [lia|].
  assert (to_u 32 (sndCredit st + (2 ^ 32 - k)) = sndCredit st - k) as E.
  { unfold to_u. replace (sndCredit st + (2 ^ 32 - k)) with (sndCredit st - k + 1 * 2 ^ 32) by lia.
    rewrite Z_mod_plus_full. apply Z.mod_small. lia. }
  rewrite E. destruct (Z.ltb_spec 1048576 (sndCredit st - k)); [lia|done].
Qed.

Lemma addCredit_wraps_witness :
  let st := set_sndCredit 5 (newStream 1 (str "db") false) in
  (addCredit_locked (2 ^ 32 - 5) st).1 = CR_ok /\ sndCredit (addCredit_locked (2 ^ 32 - 5) st).2 = 0.
Proof.
  cbn zeta.
  destruct (addCredit_wraps (set_sndCredit 5 (newStream 1 (str "db") false)) 5) as (_ & _ & E);
    [reflexivity|vm_compute; discriminate|vm_compute; split; [reflexivity|discriminate]|].
  rewrite E. split; reflexivity.
Defined.
