(* ===== verification/Flow.v ===== *)
(** * Credit flow between two sides of one stream

    Both ends of one app-channel stream, as stream.go runs them, joined by the
    two directions of the connection (FIFO: every frame of a side goes through
    the session's [writeMu]).  A side is its stream object plus what its
    goroutines hold between two locked sections: the write loop (taking a
    frame out of [sendQ] and writing it are separate steps), the serve
    goroutine (which, when it refuses a frame, sends APP_RESET and then marks
    the stream reset before it handles anything else) and the frames other
    goroutines are about to write (credits of [Read], the APP_CLOSE of
    [CloseWrite], resets), in any order.  The schedule is an explicit list of
    moves; every interleaving is one. *)
From Stdlib Require Import ZArith Lia.
From stdpp Require Import base list gmap strings.
From S2P Require Import Prelude GoIO Wire Frame Stream.

Open Scope Z_scope.

(** The frames of one stream. *)
Inductive pkt :=
  | KAccept (grant : Z) (meta : bytes)
  | KData (data : bytes)
  | KCredit (n : Z)
  | KClose
  | KReset (code : Z) (message : bytes).

Inductive loop_state :=
  | LIdle                    (* about to lock [mu] *)
  | LWait (seen : nat)       (* in [cond.Wait] *)
  | LHold (p : pkt)          (* about to write [p] *)
  | LDone.

Inductive serve_state :=
  | SIdle
  | SSend (code : Z) (message : bytes)   (* resetRemote: about to write APP_RESET *)
  | SSet (code : Z) (message : bytes).   (* resetRemote: about to call setReset *)

Record side := mkSide {
  stm : Stream;
  loop : loop_state;
  serve : serve_state;
  owed : list pkt;
  put : bytes;     (* bytes [Write] accepted so far *)
  got : bytes }.   (* bytes [Read] returned so far *)

Definition with_stm (st : Stream) (s : side) : side := mkSide st (loop s) (serve s) (owed s) (put s) (got s).
Definition with_loop (l : loop_state) (s : side) : side := mkSide (stm s) l (serve s) (owed s) (put s) (got s).
Definition with_serve (v : serve_state) (s : side) : side := mkSide (stm s) (loop s) v (owed s) (put s) (got s).
Definition with_owed (o : list pkt) (s : side) : side := mkSide (stm s) (loop s) (serve s) o (put s) (got s).
Definition with_put (b : bytes) (s : side) : side := mkSide (stm s) (loop s) (serve s) (owed s) b (got s).
Definition with_got (b : bytes) (s : side) : side := mkSide (stm s) (loop s) (serve s) (owed s) (put s) b.

Definition owe (p : pkt) (s : side) : side := with_owed (owed s ++ [p]) s.

(** ** Moves of one side *)

Inductive op :=
  | OWrite (p : bytes) (reserved : bool)
  | OCloseWrite
  | ORead (n : Z)
  | OReset (code : Z) (message : bytes)     (* resetRemote by a user goroutine: the frame *)
  | OSetReset (code : Z) (message : bytes)  (* setReset by a user goroutine or Session.fail *)
  | ODetach                                 (* finish: after a reset or a clean end *)
  | OLoop                                   (* the write loop, started by [Open] once it is answered,
                                               runs to its next blocking point *)
  | OLoopWrite                              (* the write loop's frame reaches the connection *)
  | OOwed (i : nat)                         (* a frame of another goroutine does *)
  | OServeWrite | OServeSet.

#[global] Instance op_eq_dec : EqDecision op.
Proof. solve_decision. Defined.

Definition op_Write (p : bytes) (reserved : bool) (s : side) : side :=
  if zlen p =? 0 then s
  else match Write_locked p reserved (stm s) with
  | (WR_ok, st) => with_put (put s ++ p) (with_stm st s)
  | (WR_overflow, st) => owe (KReset ErrorCodeAppOverflow (str "send queue overflow")) (with_stm st s)
  | (WR_quota, st) => owe (KReset ErrorCodeAppQuotaExceeded (str "session buffer exceeded")) (with_stm st s)
  | (_, st) => with_stm st s
  end.

Definition op_CloseWrite (s : side) : side :=
  match CloseWrite_locked (stm s) with
  | (CW_send_close, st) => owe KClose (with_stm st s)
  | (_, st) => with_stm st s
  end.

Definition op_Read (n : Z) (s : side) : side :=
  if n <=? 0 then s
  else match Read_locked n (stm s) with
  | (RD_data d, st) => owe (KCredit (to_u 32 (zlen d))) (with_got (got s ++ d) (with_stm st s))
  | (_, st) => with_stm st s
  end.

Definition op_loop (s : side) : side :=
  match writeLoop_locked (stm s) with
  | (WL_return, st) => with_loop LDone (with_stm st s)
  | (WL_send d, st) => with_loop (LHold (KData d)) (with_stm st s)
  | (WL_close, st) => with_loop (LHold KClose) (with_stm st s)
  | (WL_wait seen, st) => with_loop (LWait seen) (with_stm st s)
  end.

(** The new side and the frames it puts on the connection; [None] when the
    move is not enabled. *)
Definition local (o : op) (s : side) : option (side * list pkt) :=
  match o with
  | OWrite p reserved => if zlen p <? 2 ^ 63 then Some (op_Write p reserved s, []) else None
  | OCloseWrite => Some (op_CloseWrite s, [])
  | ORead n => Some (op_Read n s, [])
  | OReset code message => Some (owe (KReset code message) s, [])
  | OSetReset code message => Some (with_stm (Broadcast (setReset_locked code message (stm s))) s, [])
  | ODetach =>
      if reset (stm s) || maybeFinish_done (stm s) then Some (with_stm (detach_locked (stm s)).2 s, [])
      else None
  | OLoop =>
      if opening (stm s) then None
      else match loop s with
      | LIdle => Some (op_loop s, [])
      | LWait seen => if (seen <? bcast (stm s))%nat then Some (op_loop s, []) else None
      | _ => None
      end
  | OLoopWrite =>
      match loop s with
      | LHold KClose => Some (with_loop LDone s, [KClose])
      | LHold p => Some (with_loop LIdle s, [p])
      | _ => None
      end
  | OOwed i =>
      match owed s !! i with
      | Some p => Some (with_owed (delete i (owed s)) s, [p])
      | None => None
      end
  | OServeWrite =>
      match serve s with
      | SSend code message => Some (with_serve (SSet code message) s, [KReset code message])
      | _ => None
      end
  | OServeSet =>
      match serve s with
      | SSet code message =>
          Some (with_serve SIdle (with_stm (Broadcast (setReset_locked code message (stm s))) s), [])
      | _ => None
      end
  end.

(** The serve goroutine handles one frame of the peer ([handleFrame]'s
    branches, the stream being in the table). *)
Definition recv (p : pkt) (reserved : bool) (s : side) : side :=
  match p with
  | KAccept grant meta =>
      if AppMaxMetaBytes <? zlen meta
      then with_serve (SSend ErrorCodeAppProtocolError (str "accept meta too large")) s
      else if (grant =? 0) || (AppMaxCredit <? grant)
      then with_serve (SSend ErrorCodeAppProtocolError (str "invalid accept grant")) s
      else with_stm (handleAccept_locked grant meta (stm s)).2 s
  | KData d =>
      match deliver_locked d reserved (stm s) with
      | (DL_protocol m, st) => with_serve (SSend ErrorCodeAppProtocolError m) (with_stm st s)
      | (DL_quota, st) => with_serve (SSend ErrorCodeAppQuotaExceeded (str "session buffer exceeded")) (with_stm st s)
      | (_, st) => with_stm st s
      end
  | KCredit n =>
      match addCredit_locked n (stm s) with
      | (CR_cap, st) => with_serve (SSend ErrorCodeAppProtocolError (str "credit cap exceeded")) (with_stm st s)
      | (_, st) => with_stm st s
      end
  | KClose => with_stm (remoteClose_locked (stm s)).2 s
  | KReset code message => with_stm (Broadcast (setReset_locked code message (stm s))) s
  end.

(** ** Two sides and the connection *)

Record link := mkLink { opener : side; acceptor : side; oa : list pkt; ao : list pkt }.

Inductive move :=
  | MOpener (o : op) | MAcceptor (o : op)
  | ROpener (reserved : bool) | RAcceptor (reserved : bool).

Definition is_idle (v : serve_state) : bool := match v with SIdle => true | _ => false end.

Definition move_link (m : move) (l : link) : option link :=
  match m with
  | MOpener o =>
      match local o (opener l) with
      | Some (s, out) => Some (mkLink s (acceptor l) (oa l ++ out) (ao l))
      | None => None
      end
  | MAcceptor o =>
      match local o (acceptor l) with
      | Some (s, out) => Some (mkLink (opener l) s (oa l) (ao l ++ out))
      | None => None
      end
  | ROpener reserved =>
      match ao l with
      | p :: w => if is_idle (serve (opener l))
                  then Some (mkLink (recv p reserved (opener l)) (acceptor l) (oa l) w) else None
      | [] => None
      end
  | RAcceptor reserved =>
      match oa l with
      | p :: w => if is_idle (serve (acceptor l))
                  then Some (mkLink (opener l) (recv p reserved (acceptor l)) w (ao l)) else None
      | [] => None
      end
  end.

Fixpoint moves (ms : list move) (l : link) : option link :=
  match ms with
  | [] => Some l
  | m :: ms => match move_link m l with Some l' => moves ms l' | None => None end
  end.

(** The link right after the acceptor wrote APP_ACCEPT: the opener's object as
    [Open] made it, the acceptor's as [acceptOpen] left it. *)
Definition fresh_side (st : Stream) : side := mkSide st LIdle SIdle [] [] [].

Definition start (id : Z) (service meta : bytes) : link :=
  mkLink (fresh_side (set_rcvWindow AppInitialWindow (set_opening true (newStream id service false))))
         (fresh_side (acceptOpen_locked (set_accepting true (newStream id service true))))
         [] [KAccept AppInitialWindow meta].

(** ** What is in transit *)

Definition pkt_data (p : pkt) : bytes := match p with KData d => d | _ => [] end.
Definition pkt_credit (p : pkt) : Z := match p with KCredit n => n | KAccept g _ => g | _ => 0 end.
Definition is_accept (p : pkt) : bool := match p with KAccept _ _ => true | _ => false end.
Definition is_data (p : pkt) : bool := match p with KData _ => true | _ => false end.

Fixpoint data (l : list pkt) : bytes := match l with [] => [] | p :: l => pkt_data p ++ data l end.
Fixpoint credits (l : list pkt) : Z := match l with [] => 0 | p :: l => pkt_credit p + credits l end.

Definition held (s : side) : bytes := match loop s with LHold p => pkt_data p | _ => [] end.

Definition pkt_ok (p : pkt) : Prop :=
  match p with
  | KAccept g m => 0 < g <= AppMaxCredit /\ zlen m <= AppMaxMetaBytes
  | KData d => 0 < zlen d <= AppMaxDataBytes
  | KCredit n => 0 < n <= AppInitialWindow
  | _ => True
  end.

Lemma data_app l k : data (l ++ k) = data l ++ data k.
Proof. induction l; simpl; [done|]. by rewrite IHl, app_assoc. Qed.

Lemma credits_app l k : credits (l ++ k) = credits l + credits k.
Proof. induction l; simpl; lia. Qed.

Lemma credits_nonneg l : Forall pkt_ok l -> 0 <= credits l.
Proof. induction 1 as [|p l Hp _ IH]; simpl; [lia|]. destruct p; simpl in *; lia. Qed.

#[export] Instance credits_proper : Proper ((≡ₚ) ==> (=)) credits.
Proof. intros l k H. induction H; simpl; lia. Qed.

Lemma credits_delete i l p : l !! i = Some p -> credits l = pkt_credit p + credits (delete i l).
Proof.
  intros H. by rewrite (delete_Permutation l i p H) at 1.
Qed.

(** ** The side invariant and the effect of a move *)

Definition owed_ok (p : pkt) : Prop := pkt_ok p /\ is_accept p = false /\ is_data p = false.

Record side_ok (s : side) : Prop := {
  so_exact : stream_exact (stm s);
  so_accepting : accepting (stm s) = false;
  so_owed : Forall owed_ok (owed s);
  so_hold : match loop s with LHold p => pkt_ok p /\ is_accept p = false /\ credits [p] = 0 | _ => True end }.

Lemma so_wf s : side_ok s -> stream_wf (stm s).
Proof. by intros [[W _] _ _ _]. Qed.

(** The effect of a move on what the peer's direction sees of it ([s] as
    sender) and on what this side received ([s] as receiver). *)
Record effect (s s' : side) (out : list pkt) : Prop := {
  ef_put : exists p, put s' = put s ++ p
    /\ held s ++ concat (sendQ (stm s)) ++ p = data out ++ held s' ++ concat (sendQ (stm s'));
  ef_credit : sndCredit (stm s) + zlen (held s)
    = sndCredit (stm s') + zlen (held s') + zlen (data out);
  ef_got : got s ++ concat (inQ (stm s)) = got s' ++ concat (inQ (stm s'));
  ef_owed : qlen (inQ (stm s)) + credits (owed s)
    = qlen (inQ (stm s')) + credits (owed s') + credits out;
  ef_live : reset (stm s') = false -> serve s' = SIdle -> reset (stm s) = false /\ serve s = SIdle;
  ef_opening : opening (stm s') = opening (stm s) /\ reset (stm s) = reset (stm s')
    \/ opening (stm s') = false /\ reset (stm s') = true;
  ef_sticky : reset (stm s) = true -> reset (stm s') = true;
  ef_out : Forall (fun p => pkt_ok p /\ is_accept p = false) out;
  ef_side : side_ok s' }.

(** A move that leaves queues, credit and frames alone. *)
Lemma effect_quiet s s' :
  side_ok s ->
  put s' = put s -> got s' = got s -> owed s' = owed s -> held s' = held s ->
  sendQ (stm s') = sendQ (stm s) -> inQ (stm s') = inQ (stm s) ->
  sndCredit (stm s') = sndCredit (stm s) ->
  (reset (stm s') = false -> serve s' = SIdle -> reset (stm s) = false /\ serve s = SIdle) ->
  (opening (stm s') = opening (stm s) /\ reset (stm s) = reset (stm s')
    \/ opening (stm s') = false /\ reset (stm s') = true) ->
  side_ok s' -> effect s s' [].
Proof.
  intros [] Hp Hg Ho Hh Hs Hi Hc Hl Hop Hok. constructor; try done.
  - exists []. by rewrite Hp, Hh, Hs, !app_nil_r.
  - rewrite Hc, Hh. simpl. rewrite zlen_nil. lia.
  - by rewrite Hg, Hi.
  - rewrite Hi, Ho. simpl. lia.
  - intros. destruct Hop as [[_ E]|[_ E]]; congruence.
Qed.

Ltac quantities := unfold held; cbn -[zlen qlen Z.add]; rewrite ?zlen_nil; lia.

Lemma owe_ok s p : side_ok s -> owed_ok p -> side_ok (owe p s).
Proof.
  intros [] Hp. constructor; try done. apply Forall_app. split; [done|]. by constructor.
Qed.

(** Owing a frame that carries neither data nor credit is invisible. *)
Lemma effect_owe s s' p :
  effect s s' [] -> owed_ok p -> pkt_credit p = 0 -> effect s (owe p s') [].
Proof.
  intros [] Hp Hc. constructor; try done.
  - simpl. rewrite credits_app. simpl in *. lia.
  - by apply owe_ok.
Qed.

Lemma section_side_ok c s :
  side_ok s -> section_pre c (stm s) -> accepting (run_section c (stm s)) = false ->
  side_ok (with_stm (run_section c (stm s)) s).
Proof. intros [] ? ?. constructor; try done. by apply section_preserves. Qed.

Lemma effect_Write p b s : zlen p < 2 ^ 63 -> side_ok s -> effect s (op_Write p b s) [].
Proof.
  intros Hp Hok. pose proof Hok as [[W Hx] Ha Ho Hh]. unfold op_Write. pose proof (zlen_nonneg p).
  destruct (Z.eqb_spec (zlen p) 0); [apply effect_quiet; by auto|].
  assert (0 < zlen p < 2 ^ 63) as Hp' by lia.
  destruct (Write_locked p b (stm s)) as [dec st'] eqn:E.
  destruct (decide (dec = WR_ok)) as [->|Hn].
  - pose proof (Write_wf p b (stm s) Hp' W) as W'. rewrite E in W'. cbn [snd] in W'.
    apply Write_ok in E as (-> & Hr & Hl & Hc & Hle & ->); [|done|].
    2: { destruct (wf_sendBytes _ W) as (? & ? & _). pose proof (qlen_nonneg (sendQ (stm s))). lia. }
    constructor; try done; cbn.
    + exists p. split; [done|]. unfold held; cbn. rewrite concat_app. simpl. by rewrite app_nil_r.
    + quantities.
    + lia.
    + by left.
  - rewrite (Write_refused _ _ _ _ _ E Hn).
    assert (effect s (with_stm (stm s) s) []) as Hq.
    { apply effect_quiet; try done; (by left) || (by destruct s). }
    destruct dec; try done; apply effect_owe; done.
Qed.

Lemma effect_CloseWrite s : side_ok s -> effect s (op_CloseWrite s) [].
Proof.
  intros Hok. pose proof Hok as [[W Hx] Ha Ho Hh]. unfold op_CloseWrite.
  pose proof (section_side_ok SecCloseWrite s Hok I) as Hs. cbn [run_section] in Hs.
  revert Hs. unfold CloseWrite_locked. destruct (reset (stm s)) eqn:Er.
  { intros Hs. apply effect_quiet; cbn; auto. }
  destruct (localClosed (stm s) || closeAfterFlush (stm s)).
  { intros Hs. apply effect_quiet; cbn; auto. }
  cbn [sendQ set_closeAfterFlush]. destruct (sendQ (stm s)) eqn:Eq; intros Hs; cbn [fst snd] in *.
  - apply effect_owe; [|done|done]. apply effect_quiet; cbn; auto. 
  - apply effect_quiet; cbn; auto. 
Qed.

Lemma effect_Read n s : side_ok s -> effect s (op_Read n s) [].
Proof.
  intros Hok. pose proof Hok as [[W Hx] Ha Ho Hh]. unfold op_Read.
  destruct (Z.leb_spec n 0); [apply effect_quiet; by auto|].
  pose proof (section_side_ok (SecRead n) s Hok) as Hs. cbn [run_section section_pre] in Hs.
  destruct (Read_locked n (stm s)) as [dec st'] eqn:E. cbn [snd] in Hs.
  assert ((forall d, dec <> RD_data d) -> st' = stm s) as Hsame.
  { intros Hd. unfold Read_locked in E. repeat case_match; simplify_eq; try done; by edestruct Hd. }
  destruct dec as [|d| |]; try (rewrite Hsame by done; apply effect_quiet; destruct s; by auto). clear Hsame.
  pose proof (wf_win_bounds _ W) as [_ Hb].
  apply Read_data in E as (Hr & Hd & Hcat & HF & q & ->); [|by apply wf_inQ|done]. cbn in *.
  assert (qlen (inQ (stm s)) = zlen d + qlen q) as Eq by (unfold qlen; rewrite Hcat; apply zlen_app).
  destruct app_limits as (EW & _). pose proof (qlen_nonneg q).
  rewrite !(to_u32_id (zlen d)) by lia.
  rewrite (to_u32_id (zlen d)) in Hs by lia.
  constructor; try done; cbn.
  - exists []. by rewrite !app_nil_r.
  - quantities.
  - by rewrite Hcat, app_assoc.
  - rewrite credits_app. cbn. lia.
  - by left.
  - apply (owe_ok (with_got (got s ++ d) (with_stm _ s))); [destruct (Hs ltac:(lia) Ha); by constructor|].
    split; [cbn; lia|done].
Qed.

Lemma effect_loop s : held s = [] -> side_ok s -> effect s (op_loop s) [].
Proof.
  intros Hheld Hok. pose proof Hok as [[W Hx] Ha Ho Hh]. unfold op_loop.
  pose proof (section_side_ok SecWriteLoop s Hok I) as Hs. cbn [run_section] in Hs.
  destruct (writeLoop_locked (stm s)) as [dec st'] eqn:E. cbn [snd] in Hs.
  destruct dec as [|d| |seen].
  - assert (st' = stm s) as -> by (unfold writeLoop_locked in E; repeat case_match; by simplify_eq).
    apply effect_quiet; cbn; auto. destruct (Hs Ha). by constructor.
  - apply writeLoop_send in E as (Hd & Hc & Hcat & HF & q & ->); [|by apply wf_sendQ|by apply wf_credit].
    cbn in *. constructor; try done; cbn.
    + exists []. rewrite Hheld, !app_nil_r, Hcat. done.
    + rewrite Hheld. cbn. rewrite zlen_nil. lia.
    + lia.
    + by left.
    + destruct (Hs Ha). by constructor.
  - assert (st' = set_localClosed true (stm s)) as -> by (unfold writeLoop_locked in E; repeat case_match; by simplify_eq).
    apply effect_quiet; cbn; auto. destruct (Hs Ha). by constructor.
  - assert (st' = stm s) as -> by (unfold writeLoop_locked in E; repeat case_match; by simplify_eq).
    apply effect_quiet; cbn; auto. destruct (Hs Ha). by constructor.
Qed.

Lemma effect_setReset v code message s :
  side_ok s -> v = serve s \/ v = SIdle ->
  effect s (with_serve v (with_stm (Broadcast (setReset_locked code message (stm s))) s)) [].
Proof.
  intros Hok Hv. pose proof Hok as [[W Hx] Ha Ho Hh].
  assert (side_ok (with_serve v (with_stm (Broadcast (setReset_locked code message (stm s))) s))) as Hs.
  { constructor; try done; cbn.
    - apply (section_preserves SecBroadcast); [done|]. by apply (section_preserves (SecSetReset code message)).
    - unfold setReset_locked. by repeat case_match. }
  unfold setReset_locked in *. destruct (reset (stm s)) eqn:Er.
  - apply effect_quiet; cbn in *; auto. by rewrite Er.
  - cbn in *. destruct (opening (stm s)) eqn:Eo; apply effect_quiet; cbn in *; auto; done.
Qed.

(** Every local move has its effect. *)
Lemma local_effect o s s' out :
  side_ok s -> local o s = Some (s', out) -> effect s s' out.
Proof.
  intros Hok. pose proof Hok as [[W Hx] Ha Ho Hh]. destruct o; cbn [local].
  - destruct (Z.ltb_spec (zlen p) (2 ^ 63)); intros [= <- <-]. by apply effect_Write.
  - intros [= <- <-]. by apply effect_CloseWrite.
  - intros [= <- <-]. by apply effect_Read.
  - intros [= <- <-]. apply effect_owe; [|done..]. apply effect_quiet; by auto.
  - intros [= <- <-]. apply (effect_setReset (serve s)); auto.
  - destruct (reset (stm s) || maybeFinish_done (stm s)) eqn:Ed; intros [= <- <-].
    assert (section_pre SecDetach (stm s)) as Hpre.
    { apply orb_true_iff in Ed as [?|Ed]; [by left|right]. unfold maybeFinish_done in Ed.
      rewrite !andb_true_iff in Ed. destruct Ed as [[_ ?] ?]. by rewrite !bool_decide_eq_true in *. }
    apply effect_quiet; cbn; auto. by apply (section_side_ok SecDetach).
  - destruct (opening (stm s)); [done|].
    destruct (loop s) eqn:El; try done; try case_match; intros; simplify_eq; apply effect_loop; auto;
      unfold held; by rewrite El.
  - destruct (loop s) as [| |p|] eqn:El; try done. destruct Hh as (Hp & Hacc & Hcr).
    assert (held s = pkt_data p) as Ep by (unfold held; by rewrite El).
    intros H. assert (out = [p] /\ exists l, s' = with_loop l s /\ (l = LIdle \/ l = LDone)) as [-> (l & -> & Hl)].
    { destruct p; simplify_eq; split; try done; eexists; split; eauto. }
    assert (held (with_loop l s) = []) as Ep' by (unfold held; cbn; destruct Hl as [-> | ->]; done).
    constructor; try done; rewrite ?Ep, ?Ep'; cbn; auto.
    + exists []. by rewrite !app_nil_r.
    + rewrite app_nil_r, zlen_nil. lia.
    + cbn in Hcr. lia.
    + constructor; try done. cbn. destruct Hl as [-> | ->]; done.
  - destruct (owed s !! i) as [p|] eqn:Ei; intros [= <- <-].
    destruct (proj1 (Forall_lookup owed_ok _) Ho i p Ei) as (Hp & Hacc & Hd).
    constructor; try done; cbn.
    + exists []. destruct p; by rewrite !app_nil_r.
    + destruct p; try done; quantities.
    + rewrite (credits_delete i _ p Ei). lia.
    + by left.
    + by constructor.
    + constructor; try done. cbn. by apply Forall_delete.
  - destruct (serve s) eqn:Es; intros; simplify_eq. constructor; cbn; try done; try quantities; auto.
    + exists []. by rewrite !app_nil_r.
    + by constructor.
  - destruct (serve s) eqn:Es; intros; simplify_eq. apply (effect_setReset SIdle); auto.
Qed.

(** ** The invariant of one direction

    [dir s r f w]: [s] sends to [r] over [f]; [r]'s frames come back over
    [w]. *)

Definition credit (s r : side) (f w : list pkt) : Z :=
  sndCredit (stm s) + zlen (held s) + zlen (data f) + qlen (inQ (stm r)) + credits (owed r) + credits w.

Definition acc_ok (s : side) (w : list pkt) : Prop :=
  match w with
  | [] => opening (stm s) = false
  | p :: w' =>
      Forall (fun p => is_accept p = false) w'
      /\ if is_accept p
         then opening (stm s) = true /\ sndCredit (stm s) = 0 /\ held s = []
              \/ opening (stm s) = false /\ reset (stm s) = true
         else opening (stm s) = false
  end.

Record dir (s r : side) (f w : list pkt) : Prop := {
  d_frames : Forall pkt_ok f;
  d_sum : credit s r f w <= AppInitialWindow;
  d_exact : reset (stm s) = false -> reset (stm r) = false -> serve r = SIdle ->
    credit s r f w = AppInitialWindow;
  d_fifo : exists lost,
    put s = got r ++ concat (inQ (stm r)) ++ lost ++ data f ++ held s ++ concat (sendQ (stm s))
    /\ (reset (stm r) = false -> serve r = SIdle -> lost = []);
  d_acc : acc_ok s w }.

Lemma Forall_impl_accept l : Forall (fun p => pkt_ok p /\ is_accept p = false) l ->
  Forall pkt_ok l /\ Forall (fun p => is_accept p = false) l.
Proof. intros H. split; (eapply Forall_impl; [exact H|]); by intros ? [? ?]. Qed.

Lemma acc_ok_out s w out :
  Forall (fun p => is_accept p = false) out -> acc_ok s w -> acc_ok s (w ++ out).
Proof.
  intros Ho. destruct w as [|p w]; cbn.
  - destruct out as [|p out]; [done|]. apply Forall_cons in Ho as [Hp Ho]. intros Hs. split; [done|].
    by rewrite Hp.
  - intros [Hw Hp]. split; [|done]. by apply Forall_app.
Qed.

Lemma acc_ok_effect s s' out w : 0 <= sndCredit (stm s') -> effect s s' out -> acc_ok s w -> acc_ok s' w.
Proof.
  intros Hpos [Hp Hc _ _ _ Hop Hst _ _].
  assert (opening (stm s) = false -> opening (stm s') = false) as H1 by (destruct Hop as [[-> _]|[-> _]]; done).
  pose proof (zlen_nonneg (held s')). pose proof (zlen_nonneg (data out)).
  destruct w as [|p w]; cbn; [auto|]. intros [Hw Hh]. split; [done|]. destruct (is_accept p); [|auto].
  destruct Hh as [(Ho & Hz & Hz')|[Ho Hr]]; [|right; auto].
  destruct Hop as [[E1 E2]|[E1 E2]]; [left|by right].
  rewrite Hz' in Hc. rewrite zlen_nil in Hc. split_and!; [congruence|lia|]. apply zlen_0. lia.
Qed.

(** A move of the sender. *)
Lemma dir_sender s s' out r f w :
  effect s s' out -> dir s r f w -> dir s' r (f ++ out) w.
Proof.
  intros E [Hf Hsum Hex (lost & Hfifo & Hlost) Hacc].
  pose proof E as [(p & Hput & Hbytes) Hc _ _ _ Hop Hst Ho Hok].
  apply Forall_impl_accept in Ho as [Ho Ho'].
  assert (credit s' r (f ++ out) w = credit s r f w) as Ec.
  { unfold credit. rewrite data_app, zlen_app. lia. }
  constructor.
  - by apply Forall_app.
  - by rewrite Ec.
  - intros Hs. rewrite Ec. apply Hex. destruct (reset (stm s)) eqn:Er; [|done]. by rewrite Hst in Hs.
  - exists lost. split; [|done]. rewrite Hput, Hfifo, data_app, <- !app_assoc. by rewrite <- Hbytes.
  - apply (acc_ok_effect s s' out); [|done..]. apply (wf_credit _ (so_wf _ Hok)).
Qed.

(** A move of the receiver. *)
Lemma dir_receiver s r r' out f w :
  effect r r' out -> dir s r f w -> dir s r' f (w ++ out).
Proof.
  intros [_ _ Hgot Howed Hlive _ _ Ho _] [Hf Hsum Hex (lost & Hfifo & Hlost) Hacc].
  apply Forall_impl_accept in Ho as [Ho Ho'].
  assert (credit s r' f (w ++ out) = credit s r f w) as Ec.
  { unfold credit. rewrite credits_app. lia. }
  constructor; try done.
  - by rewrite Ec.
  - intros Hs Hr Hv. rewrite Ec. destruct (Hlive Hr Hv). by apply Hex.
  - exists lost. split; [by rewrite Hfifo, (app_assoc (got r)), Hgot, <- app_assoc|].
    intros Hr Hv. destruct (Hlive Hr Hv). auto.
  - by apply acc_ok_out.
Qed.

(** ** Receiving *)

Lemma recv_frame p b s :
  let s' := recv p b s in
  put s' = put s /\ got s' = got s /\ owed s' = owed s /\ loop s' = loop s
  /\ sendQ (stm s') = sendQ (stm s) /\ (reset (stm s) = true -> reset (stm s') = true).
Proof.
  destruct p; cbn [recv]; unfold handleAccept_locked, deliver_locked, addCredit_locked, remoteClose_locked,
    setReset_locked; repeat case_match; simplify_eq; split_and!; done.
Qed.

Lemma recv_side_ok p b s : pkt_ok p -> side_ok s -> side_ok (recv p b s).
Proof.
  intros Hp Hok. pose proof (recv_frame p b s) as (_ & _ & Eo & El & _). cbn zeta in *.
  destruct Hok as [W Ha Ho Hh]. constructor; rewrite ?Eo, ?El; try done; clear Eo El Hh.
  - destruct p; cbn [recv].
    + repeat case_match; try done. apply (section_preserves (SecHandleAccept grant meta)); [apply Hp|done].
    + pose proof (section_preserves (SecDeliver data0 b) (stm s) I W) as W'. cbn [run_section] in W'. by repeat case_match.
    + pose proof (section_preserves (SecAddCredit n) (stm s)) as W'. cbn in W', Hp.
      destruct app_limits as (EW & _).
      assert (u32 n = true) as Hn by (apply in_u_spec; lia). specialize (W' Hn W). by repeat case_match.
    + by apply (section_preserves SecRemoteClose).
    + apply (section_preserves SecBroadcast); [done|]. by apply (section_preserves (SecSetReset code message)).
  - destruct p; cbn [recv]; unfold handleAccept_locked, deliver_locked, addCredit_locked, remoteClose_locked,
      setReset_locked; repeat case_match; by simplify_eq.
Qed.

(** What receiving does to the queue: the data is queued, or it is lost and
    the receiver is resetting. *)
Lemma recv_inQ p b s :
  pkt_ok p -> stream_wf (stm s) -> serve s = SIdle ->
  let s' := recv p b s in
  concat (inQ (stm s')) = concat (inQ (stm s)) ++ pkt_data p /\ (pkt_data p <> [] -> reset (stm s) = false)
  \/ inQ (stm s') = inQ (stm s) /\ (serve s' <> SIdle).
Proof.
  intros Hp W Hs. destruct p; cbn [recv]; cbn zeta.
  - left. rewrite app_nil_r. unfold handleAccept_locked. repeat case_match; done.
  - destruct (deliver_locked data0 b (stm s)) as [dec st'] eqn:E.
    destruct (decide (dec = DL_ok)) as [->|Hn].
    + left. apply deliver_ok in E as (_ & _ & _ & _ & Hr & _ & _ & ->); [|apply wf_win_bounds, W].
      cbn. rewrite concat_app. cbn. by rewrite app_nil_r.
    + right. rewrite (deliver_rejected _ _ _ _ _ E Hn). destruct dec; try done.
      cbn in Hp. unfold deliver_locked in E. destruct (Z.eqb_spec (zlen data0) 0); [lia|].
      repeat case_match; done.
  - left. rewrite app_nil_r. unfold addCredit_locked. by repeat case_match; simplify_eq.
  - left. rewrite app_nil_r. unfold remoteClose_locked. by repeat case_match; simplify_eq.
  - left. rewrite app_nil_r. unfold setReset_locked. by repeat case_match; simplify_eq.
Qed.

Lemma dir_recv_receiver s r p b f w :
  side_ok r -> serve r = SIdle -> dir s r (p :: f) w -> dir s (recv p b r) f w.
Proof.
  intros [[W _] _ _ _] Hv [Hf Hsum Hex (lost & Hfifo & Hlost) Hacc].
  apply Forall_cons in Hf as [Hp Hf].
  pose proof (recv_frame p b r) as (_ & Eg & Eo & _ & _ & Hst). cbn zeta in *.
  pose proof (recv_inQ p b r Hp W Hv) as Hin. cbn zeta in *. set (r' := recv p b r) in *.
  assert (forall q, concat q = concat (inQ (stm r)) ++ pkt_data p -> qlen q = qlen (inQ (stm r)) + zlen (pkt_data p)) as Hq.
  { intros q E. unfold qlen. rewrite E. apply zlen_app. }
  assert (reset (stm r') = false -> reset (stm r) = false) as Hst'.
  { intros H. destruct (reset (stm r)); [|done]. by rewrite Hst in H. }
  unfold credit in *. cbn [data] in *. rewrite zlen_app in *. pose proof (zlen_nonneg (pkt_data p)).
  destruct Hin as [[Hin Hnr]|[Hin Hsv]].
  - constructor; auto; unfold credit; rewrite ?Hin, ?Eg, ?Eo, ?(Hq _ Hin); try lia.
    + intros Hs Hr Hv'. rewrite <- Hex; auto; lia.
    + destruct (decide (pkt_data p = [])) as [Ez|Ez].
      * exists lost. rewrite Ez in *. rewrite app_nil_r. split; [by rewrite Hfifo|]. auto.
      * exists []. rewrite Hlost in Hfifo by auto. split; [|done]. by rewrite Hfifo, <- !app_assoc.
  - constructor; auto; unfold credit; rewrite ?Eo, ?Hin, ?Eg; try lia; try done.
    exists (lost ++ pkt_data p). split; [by rewrite Hfifo, <- !app_assoc|done].
Qed.

(** What receiving does to the send credit. *)
Lemma recv_credit p b s w :
  pkt_ok p -> stream_wf (stm s) -> acc_ok s (p :: w) ->
  sndCredit (stm s) + pkt_credit p <= AppInitialWindow ->
  let s' := recv p b s in
  sndCredit (stm s) <= sndCredit (stm s') <= sndCredit (stm s) + pkt_credit p
  /\ (reset (stm s') = false -> sndCredit (stm s') = sndCredit (stm s) + pkt_credit p)
  /\ opening (stm s') = false.
Proof.
  intros Hp W [_ Hacc] Hle. pose proof (wf_credit _ W) as Hc. destruct app_limits as (EW & EC & _).
  cbn zeta. destruct p as [g m|d|n| |c m]; cbn [recv pkt_credit is_accept pkt_ok] in *.
  - destruct Hp as [Hg Hm]. destruct (Z.ltb_spec AppMaxMetaBytes (zlen m)); [lia|].
    destruct (Z.eqb_spec g 0); [lia|]. destruct (Z.ltb_spec AppMaxCredit g); [lia|]. cbn.
    unfold handleAccept_locked. destruct Hacc as [(Ho & Hz & _)|[Ho Hr]]; rewrite Ho; cbn; [lia|].
    rewrite Hr. split_and!; try lia; done.
  - unfold deliver_locked. repeat case_match; simplify_eq; cbn; split_and!; try done; lia.
  - unfold addCredit_locked. destruct (Z.eqb_spec n 0); [lia|].
    destruct (reset (stm s)) eqn:Er; cbn; [rewrite Er; split_and!; try lia; done|].
    rewrite to_u32_id by lia. destruct (Z.ltb_spec AppMaxCredit (sndCredit (stm s) + n)); [lia|]. cbn.
    split_and!; try lia; done.
  - unfold remoteClose_locked. case_match; cbn; split_and!; try lia; done.
  - unfold setReset_locked. repeat case_match; cbn; split_and!; try lia; done.
Qed.

Lemma dir_recv_sender s r p b f w :
  side_ok s -> side_ok r -> Forall pkt_ok (p :: w) ->
  dir s r f (p :: w) -> dir (recv p b s) r f w.
Proof.
  intros Hs Hr Hw [Hf Hsum Hex Hfifo Hacc].
  apply Forall_cons in Hw as [Hp Hw].
  pose proof (credits_nonneg w Hw) as Hcw.
  assert (0 <= credits (owed r)) as Hco.
  { apply credits_nonneg. eapply Forall_impl; [apply so_owed, Hr|]. by intros ? [? _]. }
  pose proof (recv_frame p b s) as (Ep & _ & _ & El & Eq & Hst). cbn zeta in *.
  unfold credit in *. cbn [credits] in *.
  pose proof (zlen_nonneg (held s)). pose proof (zlen_nonneg (data f)). pose proof (qlen_nonneg (inQ (stm r))).
  pose proof (recv_credit p b s w Hp (so_wf _ Hs) Hacc) as Hc. cbn zeta in *.
  destruct Hc as (Hc1 & Hc2 & Hc3); [lia|]. set (s' := recv p b s) in *.
  assert (held s' = held s) as Eh by (unfold held; by rewrite El).
  assert (reset (stm s') = false -> reset (stm s) = false) as Hst'.
  { intros E. destruct (reset (stm s)); [|done]. by rewrite Hst in E. }
  constructor; auto; unfold credit; rewrite ?Eh, ?Ep, ?Eq; try done.
  - lia.
  - intros E1 E2 E3. rewrite (Hc2 E1). rewrite <- Hex; auto. lia.
  - destruct Hacc as [Hna _]. destruct w as [|q w']; cbn; [done|]. apply Forall_cons in Hna as [Hq Hna].
    rewrite Hq. done.
Qed.

(** ** The link invariant *)

Record link_ok (l : link) : Prop := {
  lk_opener : side_ok (opener l);
  lk_acceptor : side_ok (acceptor l);
  lk_oa : dir (opener l) (acceptor l) (oa l) (ao l);
  lk_ao : dir (acceptor l) (opener l) (ao l) (oa l) }.

Lemma start_ok id svc meta : zlen meta <= AppMaxMetaBytes -> link_ok (start id svc meta).
Proof.
  intros Hm. destruct app_limits as (EW & EC & _).
  assert (side_ok (opener (start id svc meta))) as H1 by (constructor; try done; apply openStream_exact).
  assert (side_ok (acceptor (start id svc meta))) as H2.
  { constructor; try done. apply (section_preserves SecAcceptOpen); [done|]. apply newStream_exact. }
  constructor; try done.
  - constructor; cbn; try done; try (by exists []). split; [done|]. by left.
  - constructor; cbn; try done; try (by exists []). constructor; [|done]. cbn. lia.
Qed.

Lemma move_ok m l l' : link_ok l -> move_link m l = Some l' -> link_ok l'.
Proof.
  intros [Ho Ha Hoa Hao]. destruct m; cbn [move_link].
  - destruct (local o (opener l)) as [[s out]|] eqn:E; intros [= <-]. apply local_effect in E; [|done].
    constructor; cbn; [by destruct E|done| |]; [by apply (dir_sender (opener l))|by apply (dir_receiver _ (opener l))].
  - destruct (local o (acceptor l)) as [[s out]|] eqn:E; intros [= <-]. apply local_effect in E; [|done].
    constructor; cbn; [done|by destruct E| |]; [by apply (dir_receiver _ (acceptor l))|by apply (dir_sender (acceptor l))].
  - destruct (ao l) as [|p w]; [done|]. destruct (serve (opener l)) eqn:Es; intros [= <-].
    pose proof (d_frames _ _ _ _ Hao) as Hf. apply Forall_cons in Hf as [Hp Hf].
    constructor; cbn; [by apply recv_side_ok|done| |].
    + apply dir_recv_sender; try done. by constructor.
    + by apply dir_recv_receiver.
  - destruct (oa l) as [|p w]; [done|]. destruct (serve (acceptor l)) eqn:Es; intros [= <-].
    pose proof (d_frames _ _ _ _ Hoa) as Hf. apply Forall_cons in Hf as [Hp Hf].
    constructor; cbn; [done|by apply recv_side_ok| |].
    + by apply dir_recv_receiver.
    + apply dir_recv_sender; try done. by constructor.
Qed.

Lemma moves_ok ms l l' : link_ok l -> moves ms l = Some l' -> link_ok l'.
Proof.
  revert l; induction ms as [|m ms IH]; intros l Hl; cbn; [by intros [= <-]|].
  destruct (move_link m l) as [l1|] eqn:E; [|done]. apply IH. by apply (move_ok m l).
Qed.

Lemma reach_ok ms id svc meta l :
  zlen meta <= AppMaxMetaBytes -> moves ms (start id svc meta) = Some l -> link_ok l.
Proof. intros Hm. apply moves_ok. by apply start_ok. Qed.

(** ** Waking the write loop

    A write loop that sleeps and was not woken since has nothing to send or no
    credit; one that has ended, or is about to write APP_CLOSE, has sent all. *)

Record awake (s : side) : Prop := {
  aw_wait : forall seen, loop s = LWait seen -> opening (stm s) = false /\ (seen <= bcast (stm s))%nat
    /\ (reset (stm s) = false -> seen = bcast (stm s) -> sendQ (stm s) = [] \/ sndCredit (stm s) <= 0);
  aw_end : loop s = LDone \/ loop s = LHold KClose -> reset (stm s) = true \/ (sendQ (stm s) = [] /\ closeAfterFlush (stm s) = true);
  aw_hold : forall p, loop s = LHold p -> p = KClose \/ exists d, p = KData d }.

Lemma awake_rouses s s' : awake s -> loop s' = loop s -> rouses (stm s) (stm s') -> awake s'.
Proof.
  intros [A1 A2 A3] El [R1 R2 R3 R4 R5 R6 _]. constructor; rewrite El.
  - intros seen E. destruct (A1 seen E) as (Ho & Hle & Hn). split_and!; [auto|lia|]. intros Hr Hb.
    destruct R5 as [-> ->]; [done|lia|]. apply Hn; [|lia]. destruct (reset (stm s)); [|done]. by rewrite R2 in Hr.
  - intros E. destruct (A2 E) as [Hr|[Hq Hc]]; [left; auto|right]. rewrite R6 by done. auto.
  - exact A3.
Qed.

Lemma awake_loop s : opening (stm s) = false -> awake (op_loop s).
Proof.
  intros Ho. unfold op_loop, writeLoop_locked. destruct (reset (stm s)) eqn:Er.
  { constructor; cbn; try done. by left. }
  destruct (sendQ (stm s)) as [|h q] eqn:Eq.
  - destruct (closeAfterFlush (stm s)) eqn:Ec.
    + constructor; cbn; try done; [by right|]. intros p [= <-]. by left.
    + constructor; cbn; try done; [|by intros []]. intros seen [= <-]. split_and!; auto.
  - destruct (Z.ltb_spec 0 (sndCredit (stm s))).
    + cbn. constructor; cbn; try done; [by intros []|]. intros p [= <-]. eauto.
    + constructor; cbn; try done; [|by intros []]. intros seen [= <-]. split_and!; auto.
Qed.

Lemma local_rouses o s s' out : local o s = Some (s', out) -> o <> OLoop -> rouses (stm s) (stm s') /\ (o <> OLoopWrite -> loop s' = loop s).
Proof.
  intros H Hn. destruct o; try done; cbn [local] in H.
  - destruct (zlen p <? 2 ^ 63); [|done]. injection H as <- <-. unfold op_Write. pose proof (section_rouses (SecWrite p reserved) (stm s) I) as R.
    cbn in R. repeat case_match; simplify_eq; done.
  - injection H as <- <-. unfold op_CloseWrite. pose proof (section_rouses SecCloseWrite (stm s) I) as R. cbn in R. repeat case_match; simplify_eq; done.
  - injection H as <- <-. unfold op_Read. pose proof (section_rouses (SecRead n) (stm s) I) as R. cbn in R. repeat case_match; simplify_eq; done.
  - by injection H as <- <-.
  - injection H as <- <-. split; [|done]. apply (rouses_trans _ (setReset_locked code message (stm s)));
      [by apply (section_rouses (SecSetReset code message))|by apply (section_rouses SecBroadcast)].
  - destruct (_ || _); [|done]. injection H as <- <-. split; [|done]. by apply (section_rouses SecDetach).
  - destruct (loop s) as [| |[]|]; try done; by injection H as <- <-.
  - destruct (owed s !! i); [|done]. by injection H as <- <-.
  - destruct (serve s); try done. by injection H as <- <-.
  - destruct (serve s); try done. injection H as <- <-. split; [|done]. apply (rouses_trans _ (setReset_locked code message (stm s)));
      [by apply (section_rouses (SecSetReset code message))|by apply (section_rouses SecBroadcast)].
Qed.

Lemma local_awake o s s' out : awake s -> local o s = Some (s', out) -> awake s'.
Proof.
  intros A H. destruct (decide (o = OLoop)) as [->|Hn].
  { cbn in H. destruct (opening (stm s)) eqn:Eo; [done|]. destruct (loop s); try done; repeat case_match; simplify_eq; by apply awake_loop. }
  destruct (local_rouses o s s' out H Hn) as [R Hl]. destruct (decide (o = OLoopWrite)) as [->|Hw]; [|by apply (awake_rouses s); auto].
  cbn in H. pose proof A as [A1 A2 A3]. destruct (loop s) as [| |p|] eqn:El; try done.
  destruct (A3 p eq_refl) as [->|[d ->]]; simplify_eq; constructor; cbn; try done; [|by intros []]. intros _. apply A2. by right.
Qed.

Lemma recv_rouses p b s : rouses (stm s) (stm (recv p b s)).
Proof.
  destruct p as [grant meta|d|n| |code message]; cbn [recv].
  - destruct (_ <? _); [apply rouses_refl|]. destruct (_ || _); [apply rouses_refl|]. by apply (section_rouses (SecHandleAccept grant meta)).
  - pose proof (section_rouses (SecDeliver d b) (stm s) I) as R. cbn in R. by repeat case_match.
  - pose proof (section_rouses (SecAddCredit n) (stm s) I) as R. cbn in R. by repeat case_match.
  - by apply (section_rouses SecRemoteClose).
  - apply (rouses_trans _ (setReset_locked code message (stm s)));
      [by apply (section_rouses (SecSetReset code message))|by apply (section_rouses SecBroadcast)].
Qed.

Lemma recv_awake p b s : awake s -> awake (recv p b s).
Proof. intros A. apply (awake_rouses s); [done| |apply recv_rouses]. pose proof (recv_frame p b s) as (_ & _ & _ & El & _). exact El. Qed.

(** ** Closing

    An APP_CLOSE is only ever that of a [CloseWrite] of the sender. *)
Definition close_due (s : side) : Prop := KClose ∈ owed s \/ loop s = LHold KClose.

Definition closes (s r : side) (f : list pkt) : Prop :=
  remoteClosed (stm r) = true \/ KClose ∈ f \/ close_due s -> closeAfterFlush (stm s) = true.

Lemma not_close (P : Prop) l p : p <> KClose -> KClose ∈ l ++ [p] -> (KClose ∈ l -> P) -> P.
Proof. intros Hp [H|H]%elem_of_app HP; [auto|]. by apply list_elem_of_singleton in H as <-. Qed.

Lemma due_Write p b s : close_due (op_Write p b s) -> close_due s.
Proof.
  intros H. unfold op_Write, close_due in *. repeat case_match; try done; cbn in *; destruct H as [H|H]; try (by right);
    (eapply not_close; [|exact H|by left]; done).
Qed.

Lemma due_Read n s : close_due (op_Read n s) -> close_due s.
Proof.
  intros H. unfold op_Read, close_due in *. repeat case_match; try done; cbn in *; destruct H as [H|H]; try (by right);
    (eapply not_close; [|exact H|by left]; done).
Qed.

Lemma due_CloseWrite s : close_due (op_CloseWrite s) -> close_due s \/ closeAfterFlush (stm (op_CloseWrite s)) = true.
Proof. unfold op_CloseWrite, CloseWrite_locked. repeat case_match; simplify_eq; auto. Qed.

Lemma due_loop s : close_due (op_loop s) -> close_due s \/ closeAfterFlush (stm (op_loop s)) = true.
Proof.
  unfold op_loop, writeLoop_locked, close_due. repeat case_match; simplify_eq; cbn in *; auto; intros [H|H]; auto; done.
Qed.

Lemma local_due o s s' out : local o s = Some (s', out) -> close_due s' \/ KClose ∈ out -> close_due s \/ closeAfterFlush (stm s') = true.
Proof.
  intros H. destruct o; cbn [local] in H.
  - destruct (_ <? _); [|done]. injection H as <- <-. intros [H|H%elem_of_nil]; [|done]. left. by eapply due_Write.
  - injection H as <- <-. intros [H|H%elem_of_nil]; [|done]. by apply due_CloseWrite.
  - injection H as <- <-. intros [H|H%elem_of_nil]; [|done]. left. by eapply due_Read.
  - injection H as <- <-. intros [[H|H]|H%elem_of_nil]; [|left; by right|done]. left. eapply not_close; [|exact H|by left]. done.
  - injection H as <- <-. intros [H|H%elem_of_nil]; [|done]. by left.
  - destruct (_ || _); [|done]. injection H as <- <-. intros [H|H%elem_of_nil]; [|done]. by left.
  - destruct (opening _); [done|]. assert (s' = op_loop s /\ out = []) as [-> ->] by (repeat case_match; by simplify_eq).
    intros [H1|H1%elem_of_nil]; [|done]. by apply due_loop.
  - destruct (loop s) as [| |p|] eqn:El; try done. assert (out = [p] /\ owed s' = owed s /\ (loop s' = LIdle \/ loop s' = LDone)) as (-> & Eo & Ed)
      by (destruct p; simplify_eq; auto).
    unfold close_due. rewrite Eo, El. intros [[?|E]|E%list_elem_of_singleton]; left; auto; [|right; by rewrite E]. destruct Ed; congruence.
  - destruct (owed s !! i) as [p|] eqn:Ei; [|done]. injection H as <- <-. unfold close_due. cbn. intros [[H|H]|H%list_elem_of_singleton]; left; auto.
    + left. apply list_elem_of_lookup in H as [k Hk]. rewrite list_lookup_delete in Hk.
      destruct (decide (k < i)%nat); by eapply list_elem_of_lookup_2.
    + left. subst p. by eapply list_elem_of_lookup_2.
  - destruct (serve s); try done. injection H as <- <-. intros [H|H%list_elem_of_singleton]; [by left|done].
  - destruct (serve s); try done. injection H as <- <-. intros [H|H%elem_of_nil]; [|done]. by left.
Qed.

Lemma local_flags o s s' out : local o s = Some (s', out) ->
  (closeAfterFlush (stm s) = true -> closeAfterFlush (stm s') = true) /\ remoteClosed (stm s') = remoteClosed (stm s).
Proof.
  intros H. split.
  - destruct (decide (o = OLoop)) as [->|Hn]; [|apply (local_rouses o s s' out H Hn)].
    cbn in H. destruct (opening _); [done|]. assert (s' = op_loop s) as -> by (repeat case_match; by simplify_eq).
    unfold op_loop, writeLoop_locked. repeat case_match; by simplify_eq.
  - destruct o; cbn [local] in H; repeat case_match; simplify_eq; try done;
      unfold op_Write, op_CloseWrite, op_Read, op_loop, Write_locked, CloseWrite_locked, Read_locked, writeLoop_locked, setReset_locked;
      repeat case_match; by simplify_eq.
Qed.

Lemma closes_sender o s s' out r f : closes s r f -> local o s = Some (s', out) -> closes s' r (f ++ out).
Proof.
  intros C H. destruct (local_flags o s s' out H) as [Hc _]. intros Hany.
  assert (closeAfterFlush (stm s) = true \/ closeAfterFlush (stm s') = true) as [?|?]; [|auto|done].
  destruct Hany as [Hr|[[Hf|Ho]%elem_of_app|Hd]]; [left; apply C; auto..| |].
  - destruct (local_due o s s' out H) as [?|?]; [by right|left; apply C; by auto|by right].
  - destruct (local_due o s s' out H) as [?|?]; [by left|left; apply C; by auto|by right].
Qed.

Lemma closes_receiver o s r r' out f : closes s r f -> local o r = Some (r', out) -> closes s r' f.
Proof. intros C H. destruct (local_flags o r r' out H) as [_ E]. unfold closes. by rewrite E. Qed.

Lemma closes_recv_receiver s r p b f : closes s r (p :: f) -> closes s (recv p b r) f.
Proof.
  intros C [Hr|[Hf|Hd]]; apply C; [|right; left; by apply elem_of_cons; right|by right; right].
  destruct (remoteClosed (stm r)) eqn:E; [by left|]. right; left. assert (p = KClose) as ->; [|by apply elem_of_cons; left].
  destruct p; try done; cbn [recv] in Hr; unfold handleAccept_locked, deliver_locked, addCredit_locked, setReset_locked in Hr;
    repeat case_match; simplify_eq; cbn in *; congruence.
Qed.

Lemma closes_recv_sender s r p b f : closes s r f -> closes (recv p b s) r f.
Proof.
  intros C Hany. apply (recv_rouses p b s). apply C. pose proof (recv_frame p b s) as (_ & _ & Eo & El & _). cbn zeta in *.
  unfold close_due in *. rewrite Eo, El in Hany. exact Hany.
Qed.

Record link_live (l : link) : Prop := {
  ll_opener : awake (opener l);
  ll_acceptor : awake (acceptor l);
  ll_oa : closes (opener l) (acceptor l) (oa l);
  ll_ao : closes (acceptor l) (opener l) (ao l) }.

Lemma start_live id svc meta : link_live (start id svc meta).
Proof.
  assert (forall st, awake (fresh_side st)) as Ha by (intros st; constructor; try done; by intros []).
  constructor; try apply Ha; intros [H|[H|[H|H]]]; try done; cbn in H; try (by apply elem_of_nil in H). by apply list_elem_of_singleton in H.
Qed.

Lemma move_live m l l' : link_live l -> move_link m l = Some l' -> link_live l'.
Proof.
  intros [Ho Ha Coa Cao]. destruct m; cbn [move_link].
  - destruct (local o (opener l)) as [[s out]|] eqn:E; intros [= <-].
    constructor; cbn; [exact (local_awake _ _ _ _ Ho E)|done|exact (closes_sender _ _ _ _ _ _ Coa E)|exact (closes_receiver _ _ _ _ _ _ Cao E)].
  - destruct (local o (acceptor l)) as [[s out]|] eqn:E; intros [= <-].
    constructor; cbn; [done|exact (local_awake _ _ _ _ Ha E)|exact (closes_receiver _ _ _ _ _ _ Coa E)|exact (closes_sender _ _ _ _ _ _ Cao E)].
  - destruct (ao l) as [|p w]; [done|]. case_match; intros [= <-].
    constructor; cbn; [by apply recv_awake|done|by apply closes_recv_sender|by apply closes_recv_receiver].
  - destruct (oa l) as [|p w]; [done|]. case_match; intros [= <-].
    constructor; cbn; [done|by apply recv_awake|by apply closes_recv_receiver|by apply closes_recv_sender].
Qed.

Lemma reach_live ms id svc meta l : moves ms (start id svc meta) = Some l -> link_live l.
Proof.
  assert (forall ms l l', link_live l -> moves ms l = Some l' -> link_live l') as H.
  { clear. induction ms as [|m ms IH]; intros l l' Hl; cbn; [by intros [= <-]|].
    destruct (move_link m l) as [l1|] eqn:E; [|done]. apply IH. by apply (move_live m l). }
  apply H, start_live.
Qed.



(** ** Theorems *)


(** A write larger than the window on one side, read on the other. *)
Definition demo_moves : list move :=
  [ROpener true; MOpener (OWrite (str "hello ") true); MOpener OLoop; MOpener (OWrite (str "world") true);
   MOpener OLoopWrite; MOpener OLoop; RAcceptor true; MAcceptor (ORead 4); MAcceptor (OOwed 0)].

Definition demo_link : link := default (start 1 [] []) (moves demo_moves (start 1 (str "db") (str "m"))).


(** A stream is a byte pipe.  In every interleaving, what a side has read
    is a prefix of what its peer has written (nothing lost in the middle,
    duplicated or reordered); and as long as the reading side is not reset
    or resetting, every byte written is accounted for, in order: read, queued
    at the reader, on the connection, in the write loop's hands, or queued
    at the writer. *)
Theorem flow_fifo (ms : list move) (id : Z) (svc meta : bytes) (l : link)
    (Hm : zlen meta <= AppMaxMetaBytes) (H : moves ms (start id svc meta) = Some l) :
  got (acceptor l) `prefix_of` put (opener l)
  /\ got (opener l) `prefix_of` put (acceptor l)
  /\ (reset (stm (acceptor l)) = false -> serve (acceptor l) = SIdle ->
      put (opener l) = got (acceptor l) ++ concat (inQ (stm (acceptor l))) ++ data (oa l)
                       ++ held (opener l) ++ concat (sendQ (stm (opener l))))
  /\ (reset (stm (opener l)) = false -> serve (opener l) = SIdle ->
      put (acceptor l) = got (opener l) ++ concat (inQ (stm (opener l))) ++ data (ao l)
                         ++ held (acceptor l) ++ concat (sendQ (stm (acceptor l)))).
Proof.
  destruct (reach_ok _ _ _ _ _ Hm H) as [_ _ [_ _ _ (l1 & E1 & H1) _] [_ _ _ (l2 & E2 & H2) _]].
  split_and!.
  - rewrite E1. by eexists.
  - rewrite E2. by eexists.
  - intros Hr Hs. by rewrite (H1 Hr Hs) in E1.
  - intros Hr Hs. by rewrite (H2 Hr Hs) in E2.
Qed.

Lemma flow_fifo_witness :
  moves demo_moves (start 1 (str "db") (str "m")) = Some demo_link
  /\ got (acceptor demo_link) = str "hell" /\ put (opener demo_link) = str "hello world"
  /\ got (acceptor demo_link) `prefix_of` put (opener demo_link).
Proof.
  assert (moves demo_moves (start 1 (str "db") (str "m")) = Some demo_link) as E by (vm_compute; reflexivity).
  split; [exact E|]. split; [vm_compute; reflexivity|]. split; [vm_compute; reflexivity|].
  apply (flow_fifo demo_moves 1 (str "db") (str "m") demo_link ltac:(vm_compute; discriminate) E).
Defined.

(** Nothing of the direction [s] to [r] is in motion, and [r] has read all. *)
Definition drained (s r : side) (f w : list pkt) : Prop :=
  f = [] /\ w = [] /\ held s = [] /\ owed r = [] /\ inQ (stm r) = [].

(** A drained direction with data queued: the write loop can run, and sends. *)
Lemma drained_sends s r f w : side_ok s -> awake s -> dir s r f w -> reset (stm s) = false -> reset (stm r) = false -> serve r = SIdle ->
  drained s r f w -> sendQ (stm s) <> [] -> exists s' d, local OLoop s = Some (s', []) /\ loop s' = LHold (KData d) /\ d <> [].
Proof.
  intros Hok [A1 A2 A3] [_ _ Hex _ Hacc] Hs Hr Hv (-> & -> & Eh & Eo & Ei) Hq. cbn in Hacc.
  pose proof (Hex Hs Hr Hv) as Ec. unfold credit in Ec. rewrite Eh, Eo, Ei in Ec. cbn -[zlen qlen Z.add] in Ec. rewrite !zlen_nil, qlen_nil in Ec.
  destruct app_limits as (EW & _). destruct (writeLoop_ready (stm s) Hs Hq ltac:(lia)) as (d & st' & E).
  assert (d <> []) as Hd.
  { apply writeLoop_send in E as (Hd & _); [|apply wf_sendQ, so_wf, Hok|apply wf_credit, so_wf, Hok]. intros ->. cbv [zlen length] in Hd. lia. }
  exists (with_loop (LHold (KData d)) (with_stm st' s)), d. split; [|done]. cbn [local]. rewrite Hacc. unfold op_loop. rewrite E.
  destruct (loop s) as [|seen|p|] eqn:El; [done| | |].
  - destruct (A1 seen eq_refl) as (_ & Hle & Hn). destruct (Nat.ltb_spec seen (bcast (stm s))); [done|].
    destruct (Hn Hs ltac:(lia)); [done|lia].
  - exfalso. destruct (A3 p eq_refl) as [->|[x ->]]; [destruct A2 as [?|[? _]]; auto; congruence|].
    unfold held in Eh. rewrite El in Eh. cbn in Eh. subst x. pose proof (so_hold _ Hok) as Hh. rewrite El in Hh. destruct Hh as [Hh _].
    cbn -[zlen] in Hh. unfold zlen in Hh. cbn in Hh. lia.
  - exfalso. destruct A2 as [?|[? _]]; auto; congruence.
Qed.

(** C4: credit is neither created nor lost, and flow control never deadlocks.
    While neither side is reset, the sender's credit, the data on its way, the
    data waiting for the reader and the credit on its way back add up to the
    initial window, in both directions; and once the reader has read
    everything and its credits arrived, a sender with data in its queue is not
    stuck: its write loop is running or has been woken, and its next round
    takes data to send. *)
Theorem flow_credit_conserved (ms : list move) (id : Z) (svc meta : bytes) (l : link)
    (Hm : zlen meta <= AppMaxMetaBytes) (H : moves ms (start id svc meta) = Some l)
    (Ro : reset (stm (opener l)) = false) (Ra : reset (stm (acceptor l)) = false)
    (So : serve (opener l) = SIdle) (Sa : serve (acceptor l) = SIdle) :
  credit (opener l) (acceptor l) (oa l) (ao l) = AppInitialWindow
  /\ credit (acceptor l) (opener l) (ao l) (oa l) = AppInitialWindow
  /\ (drained (opener l) (acceptor l) (oa l) (ao l) -> sendQ (stm (opener l)) <> [] ->
      exists s d, local OLoop (opener l) = Some (s, []) /\ loop s = LHold (KData d) /\ d <> [])
  /\ (drained (acceptor l) (opener l) (ao l) (oa l) -> sendQ (stm (acceptor l)) <> [] ->
      exists s d, local OLoop (acceptor l) = Some (s, []) /\ loop s = LHold (KData d) /\ d <> []).
Proof.
  destruct (reach_ok _ _ _ _ _ Hm H) as [Ho Ha Hoa Hao]. destruct (reach_live _ _ _ _ _ H) as [Wo Wa _ _].
  split_and!; [by apply (d_exact _ _ _ _ Hoa)|by apply (d_exact _ _ _ _ Hao)|by apply drained_sends|by apply drained_sends].
Qed.

(** The write loop has gone to sleep on an empty queue; then a write. *)
Definition asleep_moves : list move := [ROpener true; MOpener OLoop; MOpener (OWrite (str "hello") true)].

Lemma flow_credit_conserved_witness :
  let l := default (start 1 [] []) (moves asleep_moves (start 1 (str "db") (str "m"))) in
  credit (opener l) (acceptor l) (oa l) (ao l) = AppInitialWindow /\ loop (opener l) = LWait 0
  /\ exists s d, local OLoop (opener l) = Some (s, []) /\ loop s = LHold (KData d) /\ d <> [].
Proof.
  cbn zeta.
  destruct (flow_credit_conserved asleep_moves 1 (str "db") (str "m")
           (default (start 1 [] []) (moves asleep_moves (start 1 (str "db") (str "m"))))) as (H1 & _ & H2 & _);
    [vm_compute; (reflexivity || discriminate)..|].
  split; [exact H1|]. split; [vm_compute; reflexivity|]. apply H2; [split_and!; vm_compute; reflexivity|vm_compute; discriminate].
Defined.

(** C37: [CloseWrite] can overtake the write loop.  [CloseWrite] looks only at
    [sendQ]; when the write loop has taken the last data out of it but has not
    yet written it, the APP_CLOSE goes first, the peer answers the
    late data with a reset "data after close", and the bytes, accepted by
    [Write] before the close, are never read. *)
Theorem close_overtakes_data :
  exists (ms : list move) (l : link),
    moves ms (start 1 (str "db") []) = Some l
    /\ put (opener l) = str "bye" /\ got (acceptor l) = []
    /\ inQ (stm (acceptor l)) = [] /\ oa l = [] /\ sendQ (stm (opener l)) = [] /\ held (opener l) = []
    /\ serve (acceptor l) = SSend ErrorCodeAppProtocolError (str "data after close").
Proof.
  exists [ROpener true; MOpener (OWrite (str "bye") true); MOpener OLoop; MOpener OCloseWrite;
     MOpener (OOwed 0); MOpener OLoopWrite; RAcceptor true; RAcceptor true].
  eexists. split; [vm_compute; reflexivity|]. vm_compute. split_and!; reflexivity.
Qed.

(** A clean half-close can send APP_CLOSE twice.  [CloseWrite] on an empty
    queue writes APP_CLOSE itself; a later wake-up of the write loop (a credit,
    or the peer's close) finds the queue empty with [closeAfterFlush] set
    and writes a second one. *)
Theorem close_sent_twice :
  exists (ms : list move) (l : link),
    moves ms (start 1 (str "db") []) = Some l /\ oa l = [KClose; KClose].
Proof.
  exists [ROpener true; MOpener OLoop; MOpener OCloseWrite; MOpener (OOwed 0);
     MAcceptor OCloseWrite; MAcceptor (OOwed 0); ROpener true; MOpener OLoop; MOpener OLoopWrite].
  eexists. split; vm_compute; reflexivity.
Qed.
