(* ===== verification/Session.v ===== *)
(** * The app-channel session: [protocol/app/session.go]

    The session as a machine of goroutines.  A goroutine is the list of the
    steps it still has to run; one step is what the code does without releasing
    a lock in between (a section under [Session.mu], [bufMu], [Stream.mu] or
    [lifeMu]), one write to the connection, one channel operation or one wait.
    Steps that a step calls for are pushed in front of the rest, so the list is
    the goroutine's call stack.  Stream objects live in a store ([objs]) and are
    named by reference: the stream table, the goroutines and the callers share
    them, and [detach] compares references as the code compares pointers.

    The environment's part is the label of a step: the frame the connection
    delivers, whether a write succeeds, what the handler answers, when a context
    ends, which ready branch a [select] takes, in which order a map is
    ranged over.  API calls start new goroutines. *)
From Stdlib Require Import ZArith Lia.
From stdpp Require Import base list gmap strings.
From S2P Require Import Prelude GoIO Wire Frame MsgApp Exec Registry Stream.

Open Scope Z_scope.

Inductive Role := RoleHost | RoleGuest.

Definition role_val (r : Role) : Z := match r with RoleHost => 0 | RoleGuest => 1 end.

Record Config := mkConfig { cfgRole : Role; cfgHandler : bool; cfgObserver : bool }.

Definition maxLocalStreamID : Z := 0x7FFFFFFF.

(** [ErrorName]. *)
Definition ErrorName (code : Z) : bytes :=
  if code =? ErrorCodeAppServiceNotFound then str "SERVICE_NOT_FOUND"
  else if code =? ErrorCodeAppNotAuthorized then str "NOT_AUTHORIZED"
  else if code =? ErrorCodeAppServiceBusy then str "SERVICE_BUSY"
  else if code =? ErrorCodeAppQuotaExceeded then str "QUOTA_EXCEEDED"
  else if code =? ErrorCodeAppPeerGone then str "PEER_GONE"
  else if code =? ErrorCodeAppOverflow then str "OVERFLOW"
  else if code =? ErrorCodeAppTimeout then str "TIMEOUT"
  else if code =? ErrorCodeAppProtocolError then str "PROTOCOL_ERROR"
  else str "LOCAL_ERROR".

(** What the outside sees: observer callbacks, endpoints closed or bridged. *)
Inductive note :=
  | StreamOpened (r : nat) | StreamClosed (r : nat)
  | EndpointClosed (e : nat) | Bridged (r e : nat).

(** What an API call returns. *)
Inductive outcome :=
  | RStream (r : nat) | RErr (e : error) | RCount (n : Z) | RBytes (data : bytes) | RNil.

(** [Session]; [objs] is the store of stream objects, [sent] the frames written
    to the connection, [closeCh] counts [close(s.closeCh)]. *)
Record Session := mkSession {
  streams : gmap Z nat;
  nextID : Z;
  closed : bool;
  closeCh : nat;
  buffered : Z;
  wg : Z;
  objs : list Stream;
  sent : list Frame;
  conn_closed : nat;
  notes : list note;
  returned : list (nat * outcome) }.

Definition with_streams (v : gmap Z nat) (s : Session) : Session :=
  mkSession v (nextID s) (closed s) (closeCh s) (buffered s) (wg s) (objs s) (sent s) (conn_closed s) (notes s) (returned s).
Definition with_nextID (v : Z) (s : Session) : Session :=
  mkSession (streams s) v (closed s) (closeCh s) (buffered s) (wg s) (objs s) (sent s) (conn_closed s) (notes s) (returned s).
Definition with_closed (v : bool) (s : Session) : Session :=
  mkSession (streams s) (nextID s) v (closeCh s) (buffered s) (wg s) (objs s) (sent s) (conn_closed s) (notes s) (returned s).
Definition with_closeCh (v : nat) (s : Session) : Session :=
  mkSession (streams s) (nextID s) (closed s) v (buffered s) (wg s) (objs s) (sent s) (conn_closed s) (notes s) (returned s).
Definition with_buffered (v : Z) (s : Session) : Session :=
  mkSession (streams s) (nextID s) (closed s) (closeCh s) v (wg s) (objs s) (sent s) (conn_closed s) (notes s) (returned s).
Definition with_wg (v : Z) (s : Session) : Session :=
  mkSession (streams s) (nextID s) (closed s) (closeCh s) (buffered s) v (objs s) (sent s) (conn_closed s) (notes s) (returned s).
Definition with_objs (v : list Stream) (s : Session) : Session :=
  mkSession (streams s) (nextID s) (closed s) (closeCh s) (buffered s) (wg s) v (sent s) (conn_closed s) (notes s) (returned s).
Definition with_sent (v : list Frame) (s : Session) : Session :=
  mkSession (streams s) (nextID s) (closed s) (closeCh s) (buffered s) (wg s) (objs s) v (conn_closed s) (notes s) (returned s).
Definition with_conn_closed (v : nat) (s : Session) : Session :=
  mkSession (streams s) (nextID s) (closed s) (closeCh s) (buffered s) (wg s) (objs s) (sent s) v (notes s) (returned s).
Definition with_notes (v : list note) (s : Session) : Session :=
  mkSession (streams s) (nextID s) (closed s) (closeCh s) (buffered s) (wg s) (objs s) (sent s) (conn_closed s) v (returned s).
Definition with_returned (v : list (nat * outcome)) (s : Session) : Session :=
  mkSession (streams s) (nextID s) (closed s) (closeCh s) (buffered s) (wg s) (objs s) (sent s) (conn_closed s) (notes s) v.

Definition NewSession : Session := mkSession ∅ 0 false 0 0 0 [] [] 0 [] [].

Definition set_obj (r : nat) (st : Stream) (s : Session) : Session := with_objs (<[r := st]> (objs s)) s.
Definition tell (n : note) (s : Session) : Session := with_notes (notes s ++ [n]) s.

(** ** Steps *)

(** What a failed [sendApp] leads to, by caller. *)
Inductive on_err :=
  | EIgnore                       (* sendReject *)
  | EFail                         (* resetRemote, Read: fail, then go on *)
  | EOpen (call r : nat)          (* Open: detach, return the error *)
  | EAccept (e : nat)             (* acceptOpen: close the endpoint, fail, return *)
  | ELoop                         (* writeLoop: fail, return *)
  | ECloseWrite (call : nat).     (* CloseWrite: fail, return the error *)

Inductive instr :=
  | IServe (call : nat) | IWatch (call : nat)
  | IHandleOpen (m : AppOpen)
  | IAcceptOpen (r : nat) (meta : bytes) | IAcceptReady (r e : nat) (meta : bytes)
  | IHandleAccept (m : AppAccept) | IAcceptLocked (r : nat) (grant : Z) (meta : bytes)
  | IHandleReject (m : AppReject) | IRejectLocked (r : nat) (code : Z) (message : bytes)
  | ICloseReady (r : nat)
  | IHandleData (m : AppData) | IDeliver (r : nat) (data : bytes)
  | IHandleCredit (m : AppCredit) | IAddCredit (r : nat) (n : Z)
  | IHandleClose (m : AppClose) | IRemoteClose (r : nat)
  | IHandleReset (m : AppReset)
  | IOpen (call : nat) (service meta : bytes) | IOpenSelect (call r : nat) | IOpenResult (call r : nat)
  | ISend (m : Message) (k : on_err) | ISendError (code : Z) (message : bytes)
  | IFail | IZeroBuffered | IFailStreams (refs : list nat) | IConnClose
  | IDetach (r : nat) | IDetachBytes (r : nat) | IReleaseBuffer (n : Z)
  | IFinish (r : nat) | ICloseEndpoint (r : nat) | IEpClose (e : nat)
  | IMarkOpened (r : nat) | IAttachEndpoint (r e : nat) | IBridge (r e : nat)
  | IStartWriteLoop (r : nat) | IWriteLoop (r : nat) | IWriteLoopWait (r : nat) (seen : nat) | IWgDone
  | IMaybeFinish (r : nat) | ISetReset (r : nat) (code : Z) (message : bytes) | IBroadcast (r : nat)
  | IWrite (call r : nat) (p : bytes)
  | IRead (call r : nat) (n : Z) | IReadWait (call r : nat) (n : Z) (seen : nat)
  | ICloseWrite (call r : nat)
  | IWgWait
  | IReturn (call : nat) (o : outcome).

(** The environment's part of a step. *)
Inductive choice :=
  | ChRun
  | ChWrite (r : option error)           (* the result of conn.Write *)
  | ChRead (r : result Frame)            (* the result of ReadMVCPFrame *)
  | ChReady | ChClosed | ChCtx (e : error) | ChStop
  | ChHandler (r : result (nat * bytes)) (* the answer of Handler.Open *)
  | ChPick (i : nat).                    (* map iteration order *)

(** A step's result: the steps the goroutine goes on with before the rest of
    its stack, the goroutines it starts, the new state. *)
Record progress := mkProgress { pushed : list instr; spawned : list (list instr); after : Session }.

Definition next (todo : list instr) (s : Session) : progress := mkProgress todo [] s.

(** ** Messages out *)

(** [%T] of a message. *)
Definition go_type (m : Message) : bytes :=
  match m with
  | MHello _ => str "*protocol.Hello"
  | MPing _ => str "*messages.PingMsg" | MPong _ => str "*messages.PongMsg"
  | MShutdown _ => str "*messages.ShutdownMsg" | MShutdownAck _ => str "*messages.ShutdownAckMsg"
  | MGetStatus _ => str "*messages.GetStatusMsg" | MStatus _ => str "*messages.StatusMsg"
  | MHeartbeat _ => str "*messages.HeartbeatMsg"
  | MExecCmd _ => str "*messages.ExecCmd" | MExecStream _ => str "*messages.ExecStream"
  | MExecResult _ => str "*messages.ExecResult"
  | MXferInit _ => str "*messages.XferInit" | MXferChunk _ => str "*messages.XferChunk"
  | MXferDone _ => str "*messages.XferDone"
  | MToolCall _ => str "*messages.ToolCall" | MToolResult _ => str "*messages.ToolResult"
  | MListTools _ => str "*messages.ListToolsMsg" | MListToolsResult _ => str "*messages.ListToolsResult"
  | MSyncFilesystems _ => str "*messages.SyncFilesystemsMsg"
  | MSyncFilesystemsAck _ => str "*messages.SyncFilesystemsAckMsg"
  | MAppOpen _ => str "*messages.AppOpen" | MAppAccept _ => str "*messages.AppAccept"
  | MAppReject _ => str "*messages.AppReject" | MAppData _ => str "*messages.AppData"
  | MAppCredit _ => str "*messages.AppCredit" | MAppClose _ => str "*messages.AppClose"
  | MAppReset _ => str "*messages.AppReset"
  | MEventReady _ => str "*messages.EventReady" | MEventFileReceived _ => str "*messages.EventFileReceived"
  | MEventMount _ => str "*messages.EventMount" | MEventError _ => str "*messages.EventErrorMsg"
  | MEventLog _ => str "*messages.EventLog" | MEventInitFailed _ => str "*messages.EventInitFailed"
  | MStarted _ => str "*messages.StartedMsg" | MError _ => str "*messages.ErrorMsg"
  end.

Definition appMessageType (m : Message) : result Z :=
  match m with
  | MAppOpen _ => Ok TypeAPPOPEN
  | MAppAccept _ => Ok TypeAPPACCEPT
  | MAppReject _ => Ok TypeAPPREJECT
  | MAppData _ => Ok TypeAPPDATA
  | MAppCredit _ => Ok TypeAPPCREDIT
  | MAppClose _ => Ok TypeAPPCLOSE
  | MAppReset _ => Ok TypeAPPRESET
  | _ => Err (Errorf (str "app: unknown message " ++ go_type m))
  end.

(** [m.MarshalBinary()], for the messages [appMessageType] lets through. *)
Definition app_marshal (m : Message) : result bytes :=
  match m with
  | MAppOpen m => AppOpen_MarshalBinary m
  | MAppAccept m => AppAccept_MarshalBinary m
  | MAppReject m => AppReject_MarshalBinary m
  | MAppData m => AppData_MarshalBinary m
  | MAppCredit m => AppCredit_MarshalBinary m
  | MAppClose m => AppClose_MarshalBinary m
  | MAppReset m => AppReset_MarshalBinary m
  | _ => Err (Errorf [])
  end.

(** [sendApp] up to the write: the frame, or the error. *)
Definition app_frame (m : Message) : result Frame :=
  typ ← appMessageType m;
  body ← app_marshal m;
  Ok (mkFrame typ 0 0 body).

Definition on_error (k : on_err) (err : error) (rest : list instr) : list instr :=
  match k with
  | EIgnore => rest
  | EFail => IFail :: rest
  | EOpen call r => [IDetach r; IReturn call (RErr err)]
  | EAccept e => [IEpClose e; IFail]
  | ELoop => [IFail; IWgDone]
  | ECloseWrite call => [IFail; IReturn call (RErr err)]
  end.

(** [sendApp], with the caller's error branch: [rest] is what the goroutine
    does next.  A write that fails leaves nothing on the connection here; that
    a part of the frame may have gone out, and that [sendReject] and [Open] let
    the session go on after that, is not modelled. *)
Definition sendApp (m : Message) (k : on_err) (w : option error) (rest : list instr) (s : Session) :
    list instr * Session :=
  match app_frame m with
  | Err e => (on_error k e rest, s)
  | Ok f =>
      match w with
      | None => (rest, with_sent (sent s ++ [f]) s)
      | Some e => (on_error k e rest, s)
      end
  end.

Definition error_frame_of (code : Z) (message : bytes) : Frame :=
  mkFrame TypeERROR FlagResponse 0
    (match to_bytes (WriteUint16 code ;; WriteString message) with Ok b => b | Err _ => [] end).

Definition sendError (code : Z) (message : bytes) (w : option error) (s : Session) : Session :=
  match w with
  | None => with_sent (sent s ++ [error_frame_of code message]) s
  | Some _ => s
  end.

Definition sendReject (id code : Z) (message : bytes) : instr :=
  ISend (MAppReject (mkAppReject id code message)) EIgnore.

(** ** The buffered-byte ledger *)

Definition reserveBuffer (n : Z) (s : Session) : bool * Session :=
  if AppMaxBuffered <? to_u 64 (buffered s + n) then (false, s)
  else (true, with_buffered (to_u 64 (buffered s + n)) s).

Definition releaseBuffer (n : Z) (s : Session) : Session :=
  if buffered s <=? n then with_buffered 0 s
  else with_buffered (to_u 64 (buffered s - n)) s.

(** ** Teardown *)

(** The session's part of [fail]: everything under [Session.mu]. *)
Definition Session_fail (s : Session) : progress :=
  if closed s then next [] s
  else
    let refs := (map_to_list (streams s)).*2 in
    next [IZeroBuffered; IFailStreams refs; IConnClose]
      (with_streams ∅ (with_closeCh (S (closeCh s)) (with_closed true s))).

(** [detach] under [Session.mu]: by pointer identity. *)
Definition detach (r : nat) (st : Stream) (s : Session) : progress :=
  next [IDetachBytes r]
    (if bool_decide (streams s !! sid st = Some r) then with_streams (delete (sid st) (streams s)) s else s).

Definition detach_bytes (r : nat) (st : Stream) (s : Session) : progress :=
  let '(remaining, st') := detach_locked st in
  next (if 0 <? remaining then [IReleaseBuffer remaining] else []) (set_obj r st' s).

Definition finish (cfg : Config) (r : nat) (st : Stream) (s : Session) : progress :=
  match finish_locked st with
  | (None, _) => next [] s
  | (Some was_opened, st') =>
      let s := set_obj r st' s in
      next [IDetach r; ICloseEndpoint r]
        (if was_opened && cfgObserver cfg then tell (StreamClosed r) s else s)
  end.

Definition closeEndpoint (r : nat) (st : Stream) (s : Session) : progress :=
  let '(e, st') := closeEndpoint_locked st in
  next (match e with Some e => [IEpClose e] | None => [] end) (set_obj r st' s).

Definition resetRemote (r : nat) (id code : Z) (message : bytes) : list instr :=
  [ISend (MAppReset (mkAppReset id code message)) EFail; ISetReset r code message; IFinish r].

Definition remoteReset (r : nat) (code : Z) (message : bytes) : list instr :=
  [ISetReset r code message; IFinish r].

Definition setReset (r : nat) (code : Z) (message : bytes) (st : Stream) (s : Session) : progress :=
  next [IBroadcast r] (set_obj r (setReset_locked code message st) s).

Definition maybeFinish (r : nat) (st : Stream) (s : Session) : progress :=
  next (if maybeFinish_done st then [IFinish r] else []) s.

Definition markOpened (cfg : Config) (r : nat) (st : Stream) (s : Session) : progress :=
  let '(fresh, st') := markOpened_locked st in
  let s := set_obj r st' s in
  next [] (if fresh && cfgObserver cfg then tell (StreamOpened r) s else s).

Definition startWriteLoop (r : nat) (s : Session) : progress :=
  if closed s then next [] s
  else mkProgress [] [[IWriteLoop r; IWgDone]] (with_wg (wg s + 1) s).

(** ** Stream methods *)

Definition writeLoop (r : nat) (st : Stream) (s : Session) : progress :=
  let '(dec, st') := writeLoop_locked st in
  let s := set_obj r st' s in
  match dec with
  | WL_return => next [] s
  | WL_send d =>
      next [IReleaseBuffer (zlen d); ISend (MAppData (mkAppData (sid st) d)) ELoop; IWriteLoop r] s
  | WL_close => next [ISend (MAppClose (mkAppClose (sid st))) ELoop; IMaybeFinish r] s
  | WL_wait seen => next [IWriteLoopWait r seen] s
  end.

(** The error a reset stream returns. *)
Definition reset_outcome (e : option (Z * bytes)) : outcome :=
  match e with Some (c, m) => RErr (ResetError c m) | None => RNil end.

Definition Stream_Write (call r : nat) (p : bytes) (st : Stream) (s : Session) : progress :=
  if zlen p =? 0 then next [IReturn call (RCount 0)] s
  else
    let '(reserved, s) := if write_needs_buffer p st then reserveBuffer (zlen p) s else (false, s) in
    let '(dec, st') := Write_locked p reserved st in
    let s := set_obj r st' s in
    match dec with
    | WR_reset e => next [IReturn call (reset_outcome e)] s
    | WR_closed => next [IReturn call (RErr ErrStreamClosed)] s
    | WR_overflow =>
        next (resetRemote r (sid st) ErrorCodeAppOverflow (str "send queue overflow")
              ++ [IReturn call (RErr (ResetError ErrorCodeAppOverflow (str "send queue overflow")))]) s
    | WR_quota =>
        next (resetRemote r (sid st) ErrorCodeAppQuotaExceeded (str "session buffer exceeded")
              ++ [IReturn call (RErr (ResetError ErrorCodeAppQuotaExceeded (str "session buffer exceeded")))]) s
    | WR_ok => next [IReturn call (RCount (zlen p))] s
    end.

Definition Stream_Read (call r : nat) (n : Z) (st : Stream) (s : Session) : progress :=
  if n =? 0 then next [IReturn call (RBytes [])] s
  else
    let '(dec, st') := Read_locked n st in
    let s := set_obj r st' s in
    match dec with
    | RD_reset e => next [IReturn call (reset_outcome e)] s
    | RD_data d =>
        next [IReleaseBuffer (zlen d); ISend (MAppCredit (mkAppCredit (sid st) (to_u 32 (zlen d)))) EFail;
              IReturn call (RBytes d)] s
    | RD_eof => next [IMaybeFinish r; IReturn call (RErr io_EOF)] s
    | RD_wait seen => next [IReadWait call r n seen] s
    end.

Definition CloseWrite (call r : nat) (st : Stream) (s : Session) : progress :=
  let '(dec, st') := CloseWrite_locked st in
  let s := set_obj r st' s in
  match dec with
  | CW_reset e => next [IReturn call (reset_outcome e)] s
  | CW_already | CW_queued => next [IReturn call RNil] s
  | CW_send_close =>
      next [ISend (MAppClose (mkAppClose (sid st))) (ECloseWrite call); IMaybeFinish r; IReturn call RNil] s
  end.

Definition deliver (r : nat) (d : bytes) (st : Stream) (s : Session) : progress :=
  let '(reserved, s) := if deliver_needs_buffer d st then reserveBuffer (zlen d) s else (false, s) in
  let '(dec, st') := deliver_locked d reserved st in
  let s := set_obj r st' s in
  match dec with
  | DL_ignored | DL_ok => next [] s
  | DL_protocol message => next (resetRemote r (sid st) ErrorCodeAppProtocolError message) s
  | DL_quota => next (resetRemote r (sid st) ErrorCodeAppQuotaExceeded (str "session buffer exceeded")) s
  end.

Definition addCredit (r : nat) (n : Z) (st : Stream) (s : Session) : progress :=
  let '(dec, st') := addCredit_locked n st in
  let s := set_obj r st' s in
  match dec with
  | CR_ignored | CR_ok => next [] s
  | CR_cap => next (resetRemote r (sid st) ErrorCodeAppProtocolError (str "credit cap exceeded")) s
  end.

Definition remoteClose (r : nat) (st : Stream) (s : Session) : progress :=
  let '(changed, st') := remoteClose_locked st in
  next (if changed then [IMaybeFinish r] else []) (set_obj r st' s).

(** ** Opening *)

Section Handlers.

Context (cfg : Config).

(** [%q] of a string. *)
Context (fmt_q : bytes -> bytes).

Definition localBit : Z := to_u 32 (Z.shiftl (role_val (cfgRole cfg)) 31).
Definition remoteBit : Z := to_u 32 (Z.shiftl (to_u 8 (1 - role_val (cfgRole cfg))) 31).

Definition handleOpen (m : AppOpen) (s : Session) : progress :=
  let id := open_StreamID m in
  if (id =? 0) || negb (Z.land id 0x80000000 =? remoteBit) || negb (ValidAppService (open_Service m))
     || (AppMaxMetaBytes <? zlen (open_Meta m))
  then next [sendReject id ErrorCodeAppProtocolError (str "invalid APP_OPEN")] s
  else if closed s then next [] s
  else match streams s !! id with
  | Some _ => next [sendReject id ErrorCodeAppProtocolError (str "duplicate stream_id")] s
  | None =>
      if AppMaxStreams <=? Z.of_nat (size (streams s))
      then next [sendReject id ErrorCodeAppQuotaExceeded (str "stream quota exceeded")] s
      else
        let r := length (objs s) in
        let st := set_accepting true (newStream id (open_Service m) true) in
        mkProgress [] [[IAcceptOpen r (open_Meta m)]]
          (with_streams (<[id := r]> (streams s)) (with_objs (objs s ++ [st]) s))
  end.

(** [acceptOpen] up to the locked section; [answer] is [Handler.Open]'s. *)
Definition acceptOpen (r : nat) (answer : result (nat * bytes)) (st : Stream) (s : Session) : progress :=
  if negb (cfgHandler cfg)
  then next [IDetach r; sendReject (sid st) ErrorCodeAppLocalError (str "no handler configured")] s
  else match answer with
  | Err e =>
      let code := default ErrorCodeAppLocalError (errors_As_reject e) in
      next [IDetach r; sendReject (sid st) code (Error e)] s
  | Ok (e, acceptMeta) =>
      if AppMaxMetaBytes <? zlen acceptMeta
      then next [IEpClose e; IDetach r;
                 sendReject (sid st) ErrorCodeAppProtocolError (str "accept meta too large")] s
      else next [IAcceptReady r e acceptMeta] s
  end.

Definition acceptOpen_ready (r e : nat) (meta : bytes) (st : Stream) (s : Session) : progress :=
  next [IMarkOpened r;
        ISend (MAppAccept (mkAppAccept (sid st) meta AppInitialWindow)) (EAccept e);
        IAttachEndpoint r e; IStartWriteLoop r; IBridge r e]
    (set_obj r (acceptOpen_locked st) s).

(** [handleAccept] up to [Stream.mu]: [found] is the stream of the table. *)
Definition handleAccept (m : AppAccept) (r : nat) (st : Stream) (s : Session) : progress :=
  if AppMaxMetaBytes <? zlen (accept_Meta m)
  then next (resetRemote r (sid st) ErrorCodeAppProtocolError (str "accept meta too large")) s
  else if (accept_Grant m =? 0) || (AppMaxCredit <? accept_Grant m)
  then next (resetRemote r (sid st) ErrorCodeAppProtocolError (str "invalid accept grant")) s
  else next [IAcceptLocked r (accept_Grant m) (accept_Meta m)] s.

Definition accept_locked (r : nat) (grant : Z) (meta : bytes) (st : Stream) (s : Session) : progress :=
  let '(was, st') := handleAccept_locked grant meta st in
  next (if was then [ICloseReady r] else []) (set_obj r st' s).

Definition reject_locked (r : nat) (code : Z) (message : bytes) (st : Stream) (s : Session) : progress :=
  let '(was, st') := handleReject_locked code message st in
  next (if was then [IDetach r; ICloseReady r] else []) (set_obj r st' s).

Definition closeReady (r : nat) (st : Stream) (s : Session) : progress :=
  next [] (set_obj r (set_ready (S (ready st)) st) s).

(** [Open] up to the end of the section under [Session.mu]. *)
Definition Open (call : nat) (service meta : bytes) (s : Session) : progress :=
  if negb (ValidAppService service)
  then next [IReturn call (RErr (Errorf (str "app: invalid service " ++ fmt_q service)))] s
  else if AppMaxMetaBytes <? zlen meta then next [IReturn call (RErr (Errorf (str "app: meta too large")))] s
  else if closed s then next [IReturn call (RErr ErrSessionClosed)] s
  else if AppMaxStreams <=? Z.of_nat (size (streams s))
  then next [IReturn call (RErr (RejectError ErrorCodeAppQuotaExceeded (str "stream quota exceeded")))] s
  else if maxLocalStreamID <=? nextID s then next [IReturn call (RErr ErrStreamIDExhausted)] s
  else
    let n := to_u 32 (nextID s + 1) in
    let id := Z.lor localBit n in
    let r := length (objs s) in
    let st := set_rcvWindow AppInitialWindow (set_opening true (newStream id service false)) in
    next [ISend (MAppOpen (mkAppOpen id service meta)) (EOpen call r); IOpenSelect call r]
      (with_streams (<[id := r]> (streams s)) (with_objs (objs s ++ [st]) (with_nextID n s))).

(** The three branches of [Open]'s select, each when it can be taken. *)
Definition Open_select (call r : nat) (c : choice) (st : Stream) (s : Session) : option progress :=
  match c with
  | ChReady => if (0 <? ready st)%nat then Some (next [IOpenResult call r] s) else None
  | ChClosed => if (0 <? closeCh s)%nat then Some (next [IReturn call (RErr ErrSessionClosed)] s) else None
  | ChCtx e => Some (next (resetRemote r (sid st) ErrorCodeAppTimeout (str "open context done")
                           ++ [IReturn call (RErr e)]) s)
  | _ => None
  end.

Definition Open_result (call r : nat) (st : Stream) (s : Session) : progress :=
  match openErr st, resetErr st with
  | Some (c, m), _ => next [IReturn call (RErr (RejectError c m))] s
  | None, Some (c, m) => next [IReturn call (RErr (ResetError c m))] s
  | None, None => next [IStartWriteLoop r; IMarkOpened r; IReturn call (RStream r)] s
  end.

(** ** Serving *)

Context (ExecCmd_UnmarshalBinary : bytes -> result ExecCmd).

(** [handleFrame]: the handler to run, or the message of the ERROR frame to
    send and the error to return. *)
Definition handleFrame (f : Frame) : instr + bytes * error :=
  if negb (Flags f =? 0) || negb (MsgID f =? 0)
  then inr (str "app: flags and msg_id must be zero", Errorf (str "app: frame with non-zero flags or msg_id"))
  else match DecodeMessageBody ExecCmd_UnmarshalBinary (Type_ f) (Body f) with
  | Err e => inr (str "app: decode: " ++ Error e, e)
  | Ok (MAppOpen m) => inl (IHandleOpen m)
  | Ok (MAppAccept m) => inl (IHandleAccept m)
  | Ok (MAppReject m) => inl (IHandleReject m)
  | Ok (MAppData m) => inl (IHandleData m)
  | Ok (MAppCredit m) => inl (IHandleCredit m)
  | Ok (MAppClose m) => inl (IHandleClose m)
  | Ok (MAppReset m) => inl (IHandleReset m)
  | Ok _ => inr (str "app: unexpected message type",
                 Errorf (str "app: unexpected message type 0x" ++ fmt_02X (Type_ f)))
  end.

(** One turn of [Serve]'s loop. *)
Definition Serve (call : nat) (c : choice) (s : Session) : option progress :=
  match c with
  | ChRead (Err e) => Some (next [IFail; IReturn call (RErr e)] s)
  | ChRead (Ok f) =>
      if frame_ok f then
        match handleFrame f with
        | inl h => Some (next [h; IServe call] s)
        | inr (message, e) =>
            Some (next [ISendError ErrorCodeBadPayload message; IFail; IReturn call (RErr e)] s)
        end
      else None
  | _ => None
  end.

(** ** One step of a goroutine *)

(** A step on the stream object [r]. *)
Definition on_obj (r : nat) (s : Session) (f : Stream -> Session -> progress) : option progress :=
  match objs s !! r with Some st => Some (f st s) | None => None end.

(** A handler that looks the stream up in the table first. *)
Definition on_id (id : Z) (s : Session) (f : nat -> list instr) : progress :=
  match streams s !! id with Some r => next (f r) s | None => next [] s end.

(** One stream of the loop at the end of [fail], [refs] the others. *)
Definition failStream (r : nat) (refs : list nat) : list instr :=
  [ISetReset r ErrorCodeAppPeerGone (str "connection closed"); IFinish r; IFailStreams refs].


Definition step_instr (i : instr) (c : choice) (s : Session) : option progress :=
  match i, c with
  | IServe call, c => Serve call c s
  | IWatch call, ChCtx _ => Some (next [IFail; IWgWait] s)
  | IWatch call, ChStop => if bool_decide (call ∈ (returned s).*1) then Some (next [] s) else None
  | IHandleOpen m, ChRun => Some (handleOpen m s)
  | IAcceptOpen r _, ChHandler a => on_obj r s (acceptOpen r a)
  | IAcceptReady r e meta, ChRun => on_obj r s (acceptOpen_ready r e meta)
  | IHandleAccept m, ChRun =>
      match streams s !! accept_StreamID m with
      | Some r => on_obj r s (handleAccept m r)
      | None => Some (next [] s)
      end
  | IAcceptLocked r grant meta, ChRun => on_obj r s (accept_locked r grant meta)
  | IHandleReject m, ChRun =>
      Some (on_id (reject_StreamID m) s (fun r => [IRejectLocked r (reject_Code m) (reject_Message m)]))
  | IRejectLocked r code message, ChRun => on_obj r s (reject_locked r code message)
  | ICloseReady r, ChRun => on_obj r s (closeReady r)
  | IHandleData m, ChRun => Some (on_id (data_StreamID m) s (fun r => [IDeliver r (data_Data m)]))
  | IDeliver r d, ChRun => on_obj r s (deliver r d)
  | IHandleCredit m, ChRun => Some (on_id (credit_StreamID m) s (fun r => [IAddCredit r (credit_Bytes m)]))
  | IAddCredit r n, ChRun => on_obj r s (addCredit r n)
  | IHandleClose m, ChRun => Some (on_id (close_StreamID m) s (fun r => [IRemoteClose r]))
  | IRemoteClose r, ChRun => on_obj r s (remoteClose r)
  | IHandleReset m, ChRun =>
      Some (on_id (reset_StreamID m) s (fun r => remoteReset r (reset_Code m) (reset_Message m)))
  | IOpen call service meta, ChRun => Some (Open call service meta s)
  | IOpenSelect call r, c =>
      match objs s !! r with Some st => Open_select call r c st s | None => None end
  | IOpenResult call r, ChRun => on_obj r s (Open_result call r)
  | ISendError code message, ChWrite w => Some (next [] (sendError code message w s))
  | IFail, ChRun => Some (Session_fail s)
  | IZeroBuffered, ChRun => Some (next [] (with_buffered 0 s))
  | IFailStreams [], ChRun => Some (next [] s)
  | IFailStreams refs, ChPick i =>
      match refs !! i with
      | Some r => Some (next (failStream r (delete i refs)) s)
      | None => None
      end
  | IConnClose, ChRun => Some (next [] (with_conn_closed (S (conn_closed s)) s))
  | IDetach r, ChRun => on_obj r s (detach r)
  | IDetachBytes r, ChRun => on_obj r s (detach_bytes r)
  | IReleaseBuffer n, ChRun => Some (next [] (releaseBuffer n s))
  | IFinish r, ChRun => on_obj r s (finish cfg r)
  | ICloseEndpoint r, ChRun => on_obj r s (closeEndpoint r)
  | IEpClose e, ChRun => Some (next [] (tell (EndpointClosed e) s))
  | IMarkOpened r, ChRun => on_obj r s (markOpened cfg r)
  | IAttachEndpoint r e, ChRun => on_obj r s (fun st s => next [] (set_obj r (attachEndpoint_locked e st) s))
  | IBridge r e, ChRun => Some (next [] (tell (Bridged r e) s))
  | IStartWriteLoop r, ChRun => Some (startWriteLoop r s)
  | IWriteLoop r, ChRun => on_obj r s (writeLoop r)
  | IWriteLoopWait r seen, ChRun =>
      match objs s !! r with
      | Some st => if (seen <? bcast st)%nat then Some (writeLoop r st s) else None
      | None => None
      end
  | IWgDone, ChRun => Some (next [] (with_wg (wg s - 1) s))
  | IMaybeFinish r, ChRun => on_obj r s (maybeFinish r)
  | ISetReset r code message, ChRun => on_obj r s (setReset r code message)
  | IBroadcast r, ChRun => on_obj r s (fun st s => next [] (set_obj r (Broadcast st) s))
  | IWrite call r p, ChRun => on_obj r s (Stream_Write call r p)
  | IRead call r n, ChRun => on_obj r s (Stream_Read call r n)
  | IReadWait call r n seen, ChRun =>
      match objs s !! r with
      | Some st => if (seen <? bcast st)%nat then Some (Stream_Read call r n st s) else None
      | None => None
      end
  | ICloseWrite call r, ChRun => on_obj r s (CloseWrite call r)
  | IWgWait, ChRun => if wg s =? 0 then Some (next [] s) else None
  | IReturn call o, ChRun => Some (next [] (with_returned (returned s ++ [(call, o)]) s))
  | _, _ => None
  end.

(** A goroutine's step: [ISend] apart, whose error branch may drop the rest of
    the function it is in, what a step calls for runs before the rest. *)
Definition exec (i : instr) (rest : list instr) (c : choice) (s : Session) :
    option (list instr * list (list instr) * Session) :=
  match i, c with
  | ISend m k, ChWrite w => let '(todo, s') := sendApp m k w rest s in Some (todo, [], s')
  | ISend _ _, _ => None
  | _, _ =>
      match step_instr i c s with
      | Some (mkProgress todo gs s') => Some (todo ++ rest, gs, s')
      | None => None
      end
  end.

(** ** The system: the session, its goroutines, API calls *)

Record World := mkWorld { sess : Session; pool : list (list instr); calls : nat }.

Inductive api :=
  | AServe
  | AOpen (service meta : bytes)
  | AWrite (r : nat) (p : bytes)
  | ARead (r : nat) (n : Z)
  | ACloseWrite (r : nat)
  | AReset (r : nat) (code : Z) (message : bytes)
  | AClose.

(** A caller holds only streams that [Open], the bridge or the observer gave
    it. *)
Definition handed_out (r : nat) (s : Session) : option Stream :=
  match objs s !! r with
  | Some st => if opened st || finished st then Some st else None
  | None => None
  end.

(** [Reset]. *)
Definition Stream_Reset (call r : nat) (code : Z) (message : bytes) (st : Stream) : list instr :=
  resetRemote r (sid st) code message ++ [IReturn call RNil].

Definition Session_Close (call : nat) : list instr := [IFail; IWgWait; IReturn call RNil].

(** The goroutines an API call starts. *)
Definition call_stack (call : nat) (a : api) (s : Session) : option (list (list instr)) :=
  match a with
  | AServe => Some [[IServe call]; [IWatch call]]
  | AOpen service meta => Some [[IOpen call service meta]]
  | AWrite r p =>
      match handed_out r s with
      | Some _ => if zlen p <? 2 ^ 63 then Some [[IWrite call r p]] else None
      | None => None
      end
  | ARead r n =>
      match handed_out r s with
      | Some _ => if 0 <=? n then Some [[IRead call r n]] else None
      | None => None
      end
  | ACloseWrite r => match handed_out r s with Some _ => Some [[ICloseWrite call r]] | None => None end
  | AReset r code message =>
      match handed_out r s with
      | Some st => Some [Stream_Reset call r code message st]
      | None => None
      end
  | AClose => Some [Session_Close call]
  end.

Inductive label := Run (t : nat) (c : choice) | Call (a : api).

Definition step (l : label) (w : World) : option World :=
  match l with
  | Run t c =>
      match pool w !! t with
      | Some (i :: rest) =>
          match exec i rest c (sess w) with
          | Some (g, gs, s) => Some (mkWorld s (<[t := g]> (pool w) ++ gs) (calls w))
          | None => None
          end
      | _ => None
      end
  | Call a =>
      match call_stack (calls w) a (sess w) with
      | Some gs => Some (mkWorld (sess w) (pool w ++ gs) (S (calls w)))
      | None => None
      end
  end.

Fixpoint run (ls : list label) (w : World) : option World :=
  match ls with
  | [] => Some w
  | l :: ls => match step l w with Some w' => run ls w' | None => None end
  end.

Definition world0 : World := mkWorld NewSession [] 0.

(** Every interleaving is a list of labels. *)
Definition reachable (w : World) : Prop := exists ls, run ls world0 = Some w.

End Handlers.
