(* ===== verification/SessionInv.v ===== *)
(** * Safety of the session under every interleaving

    Invariants of [Session.v]'s machine, proved for every list of labels: any
    frames from the peer, any failing writes, any API calls from any number of
    goroutines, in any order.  [sess_rel] describes the steps that only touch
    one stream or an output; the ten steps that do more are treated one by
    one; [stack_ok] describes the call stacks that occur. *)
From Stdlib Require Import ZArith Lia.
From stdpp Require Import base list gmap strings.
From S2P Require Import Prelude GoIO Wire Frame MsgApp Exec Registry Stream Session.

Open Scope Z_scope.

(** ** Observer notifications *)

Definition about (r : nat) (n : note) : bool :=
  match n with
  | StreamOpened r' | StreamClosed r' => (r =? r')%nat
  | _ => false
  end.

Definition obs (r : nat) (ns : list note) : list note := List.filter (about r) ns.

Lemma obs_app r ns ms : obs r (ns ++ ms) = obs r ns ++ obs r ms.
Proof. apply List.filter_app. Qed.

(** What the observer has heard of a stream, from its flags. *)
Definition heard (r : nat) (st : Stream) : list note :=
  if opened st then StreamOpened r :: (if finished st then [StreamClosed r] else []) else [].

(** ** Tokens: steps that must run exactly once *)

Definition wg_token (i : instr) : nat := match i with IWgDone => 1 | _ => 0 end.
Definition ready_token (r : nat) (i : instr) : nat :=
  match i with ICloseReady r' => b2n (r =? r')%nat | _ => 0 end.

(** ** Call stacks *)

(** What the rest of the stack is under a step whose error branch returns from
    the function, and the facts a step carries. *)
Definition head_ok (i : instr) (rest : list instr) : Prop :=
  match i with
  | IWriteLoop _ | IWriteLoopWait _ _ => rest = [IWgDone]
  | ISend _ ELoop => exists r, rest = [IWriteLoop r; IWgDone] \/ rest = [IMaybeFinish r; IWgDone]
  | ISend _ (EOpen call r) => rest = [IOpenSelect call r]
  | ISend _ (EAccept e) => exists r, rest = [IAttachEndpoint r e; IStartWriteLoop r; IBridge r e]
  | ISend _ (ECloseWrite call) => exists r, rest = [IMaybeFinish r; IReturn call RNil]
  | IOpen _ _ _ | IOpenSelect _ _ | IOpenResult _ _ | IAcceptOpen _ _ | IAcceptReady _ _ _
  | ICloseWrite _ _ => rest = []
  | IAcceptLocked _ grant _ => 0 < grant <= AppMaxCredit
  | IReleaseBuffer n => 0 <= n
  | IHandleAccept m => 0 <= accept_Grant m
  | _ => True
  end.

Fixpoint stack_ok (g : list instr) : Prop :=
  match g with [] => True | i :: rest => head_ok i rest /\ stack_ok rest end.

(** Steps with no demand on the rest and no token. *)
Definition plain (i : instr) : bool :=
  match i with
  | IWriteLoop _ | IWriteLoopWait _ _ | IOpen _ _ _ | IOpenSelect _ _ | IOpenResult _ _
  | IAcceptOpen _ _ | IAcceptReady _ _ _ | ICloseWrite _ _ | IAcceptLocked _ _ _
  | IWgDone | ICloseReady _ => false
  | ISend _ k => match k with EIgnore | EFail => true | _ => false end
  | IReleaseBuffer n => 0 <=? n
  | IHandleAccept m => 0 <=? accept_Grant m
  | _ => true
  end.

Lemma plain_head i rest : plain i = true -> head_ok i rest.
Proof. destruct i; try done; cbn; [lia|by case_match|lia]. Qed.

Lemma stack_plain_app g rest : forallb plain g = true -> stack_ok rest -> stack_ok (g ++ rest).
Proof.
  induction g as [|i g IH]; [done|]. cbn. intros [Hi Hg]%andb_true_iff Hr. split; [by apply plain_head|auto].
Qed.

Lemma tally_plain f g :
  (forall i, plain i = true -> f i = 0%nat) -> forallb plain g = true -> tally f g = 0%nat.
Proof.
  intros Hf. induction g as [|i g IH]; [done|]. cbn. intros [Hi Hg]%andb_true_iff. unfold tally in IH. rewrite Hf, IH; done.
Qed.

Lemma wg_plain i : plain i = true -> wg_token i = 0%nat.
Proof. by destruct i. Qed.

Lemma ready_plain r i : plain i = true -> ready_token r i = 0%nat.
Proof. by destruct i. Qed.

(** ** Stream ids *)

Lemma lor_high k b : 0 <= k < 2 ^ 31 -> b = 0 \/ b = 2 ^ 31 -> Z.lor b k = b + k.
Proof.
  intros Hk [->| ->]; [by rewrite Z.lor_0_l|].
  assert (Z.land (2 ^ 31) k = 0) as E.
  { rewrite Z.land_comm, <- (Z.mod_small k (2 ^ 31)), <- Z.land_ones, <- Z.land_assoc by lia.
    apply Z.land_0_r. }
  rewrite <- Z.lxor_lor, <- Z.add_nocarry_lxor; done.
Qed.

Section Invariant.

Context (cfg : Config) (fmt_q : bytes -> bytes) (ExecCmd_UnmarshalBinary : bytes -> result ExecCmd).

Lemma localBit_cases : localBit cfg = 0 \/ localBit cfg = 2 ^ 31.
Proof. unfold localBit. destruct (cfgRole cfg); vm_compute; auto. Qed.

(** ** The session invariant *)

Definition obj_ok (next_id : Z) (st : Stream) : Prop :=
  0 <= sndCredit st <= AppMaxCredit
  /\ if inbound st then sid st <> 0 /\ Z.land (sid st) 0x80000000 = remoteBit cfg
     else exists k, 1 <= k <= next_id /\ sid st = Z.lor (localBit cfg) k.

Record sess_ok (s : Session) : Prop := {
  si_table : forall id r, streams s !! id = Some r -> exists st, objs s !! r = Some st /\ sid st = id;
  si_size : Z.of_nat (size (streams s)) <= AppMaxStreams;
  si_closed : closed s = true -> streams s = ∅;
  si_closeCh : closeCh s = b2n (closed s);
  si_buffered : 0 <= buffered s <= AppMaxBuffered;
  si_nextID : 0 <= nextID s <= maxLocalStreamID;
  si_objs : forall r st, objs s !! r = Some st -> obj_ok (nextID s) st;
  si_local : forall r1 r2 st1 st2, objs s !! r1 = Some st1 -> objs s !! r2 = Some st2 ->
    inbound st1 = false -> inbound st2 = false -> sid st1 = sid st2 -> r1 = r2;
  si_obs : forall r, obs r (notes s) =
    match objs s !! r with Some st => if cfgObserver cfg then heard r st else [] | None => [] end }.

(** ** Steps that touch one stream or an output *)

Record obj_rel (st st' : Stream) : Prop := {
  or_sid : sid st' = sid st;
  or_inbound : inbound st' = inbound st;
  or_opened : opened st' = opened st;
  or_finished : finished st' = finished st;
  or_ready : (ready st' + b2n (opening st') = ready st + b2n (opening st))%nat;
  or_credit : 0 <= sndCredit st <= AppMaxCredit -> 0 <= sndCredit st' <= AppMaxCredit }.

Lemma obj_rel_refl st : obj_rel st st.
Proof. by constructor. Qed.

Record sess_rel (s s' : Session) : Prop := {
  sr_objs : Forall2 obj_rel (objs s) (objs s');
  sr_streams : streams s' ⊆ streams s;
  sr_closed : closed s' = closed s;
  sr_closeCh : closeCh s' = closeCh s;
  sr_nextID : nextID s' = nextID s;
  sr_wg : wg s' = wg s;
  sr_buffered : 0 <= buffered s <= AppMaxBuffered -> 0 <= buffered s' <= AppMaxBuffered;
  sr_obs : forall r, obs r (notes s') = obs r (notes s) }.

Lemma objs_refl l : Forall2 obj_rel l l.
Proof. induction l; constructor; auto using obj_rel_refl. Qed.

Lemma sess_rel_refl s : sess_rel s s.
Proof. constructor; try done. apply objs_refl. Qed.

Lemma sess_rel_obj r st st' s :
  objs s !! r = Some st -> obj_rel st st' -> sess_rel s (set_obj r st' s).
Proof.
  intros Hr Hst. constructor; try done. cbn.
  rewrite <- (list_insert_id (objs s) r st Hr) at 1.
  apply Forall2_insert; [apply objs_refl|done].
Qed.

(** The record without the fields [sess_rel] leaves free. *)
Lemma sess_rel_fields s s' :
  objs s' = objs s -> streams s' = streams s -> closed s' = closed s -> closeCh s' = closeCh s ->
  nextID s' = nextID s -> wg s' = wg s -> buffered s' = buffered s -> notes s' = notes s -> sess_rel s s'.
Proof. intros E1 E2 E3 E4 E5 E6 E7 E8. constructor; rewrite ?E1, ?E2, ?E7, ?E8; try done. apply objs_refl. Qed.

Lemma sess_rel_trans s1 s2 s3 : sess_rel s1 s2 -> sess_rel s2 s3 -> sess_rel s1 s3.
Proof.
  intros [] []. constructor; try congruence; auto.
  - revert sr_objs0 sr_objs1. generalize (objs s1), (objs s2), (objs s3).
    intros l1 l2 l3 H12 H23. rewrite Forall2_lookup in *. intros i. specialize (H12 i); specialize (H23 i).
    destruct H12 as [x y Hxy|]; inversion H23 as [y' z Hyz|]; subst; constructor.
    destruct Hxy, Hyz; constructor; try congruence; auto.
  - by trans (streams s2).
Qed.

Lemma sess_rel_ok s s' : sess_rel s s' -> sess_ok s -> sess_ok s'.
Proof.
  intros [Ho Hs Hc Hch Hn Hw Hb Hobs] [H1 H2 H3 H4 H5 H6 H7 H8 H9].
  assert (forall r st', objs s' !! r = Some st' -> exists st, objs s !! r = Some st /\ obj_rel st st') as Hback.
  { intros r st' E. by apply (Forall2_lookup_r _ _ _ _ _ Ho). }
  constructor; rewrite ?Hc, ?Hch, ?Hn; auto.
  - intros id r E. eapply lookup_weaken in E; [|exact Hs]. destruct (H1 id r E) as (st & E1 & E2).
    destruct (Forall2_lookup_l _ _ _ _ _ Ho E1) as (st' & E3 & []). exists st'. split; [done|congruence].
  - etrans; [|exact H2]. apply inj_le. by apply map_subseteq_size.
  - intros E. apply map_empty. intros id. destruct (streams s' !! id) as [r|] eqn:Ei; [|done].
    eapply lookup_weaken in Ei; [|exact Hs]. by rewrite (H3 E), lookup_empty in Ei.
  - intros r st' E. destruct (Hback r st' E) as (st & E1 & []). destruct (H7 r st E1) as [A B].
    split; [auto|]. by rewrite or_inbound0, or_sid0.
  - intros r1 r2 st1 st2 E1 E2. destruct (Hback _ _ E1) as (x & Ex & []), (Hback _ _ E2) as (y & Ey & []).
    rewrite or_inbound0, or_inbound1, or_sid0, or_sid1. by apply H8.
  - intros r. rewrite Hobs, H9. pose proof (proj1 (Forall2_lookup _ _ _) Ho r) as Hr.
    destruct Hr as [st st' []|]; [|done]. unfold heard. by rewrite or_opened0, or_finished0.
Qed.

(** ** What a step of one goroutine guarantees

    From stack [old] in [s] to stack [new] in [s'], starting [gs]: the session
    invariant, well-formed stacks, and no token created or lost but by its
    counterpart in the state. *)
Record good (s : Session) (old new : list instr) (gs : list (list instr)) (s' : Session) : Prop := {
  g_sess : sess_ok s';
  g_new : stack_ok new;
  g_gs : Forall stack_ok gs;
  g_wg : wg s' + Z.of_nat (tally wg_token old)
    = wg s + Z.of_nat (tally wg_token new) + Z.of_nat (tally_pool wg_token gs);
  g_mono : (length (objs s) <= length (objs s'))%nat;
  g_ready : forall r,
    match objs s !! r, objs s' !! r with
    | Some st, Some st' => inbound st' = inbound st
        /\ (ready st' + b2n (opening st') + tally (ready_token r) new + tally_pool (ready_token r) gs
            = ready st + b2n (opening st) + tally (ready_token r) old)%nat
    | None, Some st' => (ready st' + b2n (opening st') = b2n (negb (inbound st')))%nat
        /\ (tally (ready_token r) new + tally_pool (ready_token r) gs = tally (ready_token r) old)%nat
    | _, None => (tally (ready_token r) new + tally_pool (ready_token r) gs = tally (ready_token r) old)%nat
    end }.

(** A step within [sess_rel] that leaves the tokens alone. *)
Lemma good_rel s s' old new :
  sess_ok s -> sess_rel s s' -> stack_ok new ->
  tally wg_token new = tally wg_token old ->
  (forall r, tally (ready_token r) new = tally (ready_token r) old) ->
  good s old new [] s'.
Proof.
  intros Hs Hrel Hst Hwg Hr. pose proof Hrel as [Ho _ _ _ _ Hw _ _]. constructor; try done.
  - by apply (sess_rel_ok s).
  - rewrite Hw, Hwg. cbn. lia.
  - by rewrite (Forall2_length _ _ _ Ho).
  - intros r. rewrite Hr. pose proof (proj1 (Forall2_lookup _ _ _) Ho r) as E.
    destruct E as [st st' []|]; cbn; [split; [done|]|]; lia.
Qed.

(** The common case: a plain step that pushes plain steps. *)
Lemma good_plain s s' i rest todo :
  sess_ok s -> stack_ok (i :: rest) -> sess_rel s s' ->
  wg_token i = 0%nat -> (forall r, ready_token r i = 0%nat) -> forallb plain todo = true ->
  good s (i :: rest) (todo ++ rest) [] s'.
Proof.
  intros Hs [_ Hrest] Hrel Hw Hr Ht. apply good_rel; try done.
  - by apply stack_plain_app.
  - rewrite tally_app, (tally_plain wg_token) by auto using wg_plain. cbn. by rewrite Hw.
  - intros r. rewrite tally_app, (tally_plain (ready_token r)) by auto using ready_plain. cbn. by rewrite Hr.
Qed.

(** ** Sections as [obj_rel] *)

Lemma Broadcast_rel st : obj_rel st (Broadcast st).
Proof. by constructor. Qed.

Lemma setReset_rel code message st : obj_rel st (setReset_locked code message st).
Proof.
  unfold setReset_locked. destruct (reset st); [apply obj_rel_refl|]. cbn.
  destruct (opening st) eqn:Eo; constructor; cbn; rewrite ?Eo; done.
Qed.

Lemma writeLoop_rel st : obj_rel st (writeLoop_locked st).2.
Proof.
  unfold writeLoop_locked. destruct (reset st); [apply obj_rel_refl|].
  destruct (sendQ st) as [|h q]; [destruct (closeAfterFlush st); by constructor|].
  destruct (Z.ltb_spec 0 (sndCredit st)); [|apply obj_rel_refl].
  destruct app_limits as (_ & EC & ED & _).
  assert (0 <= next_size h (sndCredit st) <= sndCredit st) as Hn.
  { unfold next_size. rewrite ED. pose proof (to_u32_bound (zlen h)).
    destruct (Z.ltb_spec (sndCredit st) (to_u 32 (zlen h))).
    - destruct (Z.ltb_spec 65536 (sndCredit st)); lia.
    - destruct (Z.ltb_spec 65536 (to_u 32 (zlen h))); lia. }
  case_match; constructor; cbn; try done; intros; rewrite to_u32_id; lia.
Qed.

Lemma Write_rel p b st : obj_rel st (Write_locked p b st).2.
Proof. unfold Write_locked. repeat case_match; by constructor. Qed.

Lemma Read_rel n st : obj_rel st (Read_locked n st).2.
Proof. unfold Read_locked. repeat case_match; by constructor. Qed.

Lemma CloseWrite_rel st : obj_rel st (CloseWrite_locked st).2.
Proof. unfold CloseWrite_locked. repeat case_match; by constructor. Qed.

Lemma deliver_rel d b st : obj_rel st (deliver_locked d b st).2.
Proof. unfold deliver_locked. repeat case_match; by constructor. Qed.

Lemma addCredit_rel n st : obj_rel st (addCredit_locked n st).2.
Proof.
  unfold addCredit_locked. destruct (n =? 0); [by constructor|]. destruct (reset st); [by constructor|].
  destruct (Z.ltb_spec AppMaxCredit (to_u 32 (sndCredit st + n))); [by constructor|].
  constructor; try done. cbn. pose proof (to_u32_bound (sndCredit st + n)). lia.
Qed.

Lemma remoteClose_rel st : obj_rel st (remoteClose_locked st).2.
Proof. unfold remoteClose_locked. repeat case_match; by constructor. Qed.

Lemma acceptOpen_rel st : obj_rel st (acceptOpen_locked st).
Proof. by constructor. Qed.

Lemma detach_rel st : obj_rel st (detach_locked st).2.
Proof. by constructor. Qed.

(** ** The ledger *)

Lemma reserveBuffer_rel n s : sess_rel s (reserveBuffer n s).2.
Proof.
  unfold reserveBuffer. destruct (Z.ltb_spec AppMaxBuffered (to_u 64 (buffered s + n))); [apply sess_rel_refl|].
  constructor; try done; cbn; [apply objs_refl|].
  pose proof (proj1 (in_u_spec 64 _) (to_u_range 64 (buffered s + n) ltac:(lia))). lia.
Qed.

Lemma releaseBuffer_rel n s : 0 <= n -> sess_rel s (releaseBuffer n s).
Proof.
  intros Hn. unfold releaseBuffer. destruct app_limits as (_ & _ & _ & _ & EB).
  destruct (Z.leb_spec (buffered s) n); constructor; try done; cbn; try apply objs_refl; intros; try lia.
  rewrite to_u64_id; lia.
Qed.

(** ** Allocation *)

Definition alloc (id n : Z) (st : Stream) (s : Session) : Session :=
  with_streams (<[id := length (objs s)]> (streams s)) (with_objs (objs s ++ [st]) (with_nextID n s)).

Lemma alloc_ok id n st s :
  sess_ok s -> closed s = false -> Z.of_nat (size (streams s)) < AppMaxStreams ->
  nextID s <= n <= maxLocalStreamID -> sid st = id -> obj_ok n st -> opened st = false ->
  (inbound st = false -> forall r' st', objs s !! r' = Some st' -> inbound st' = false -> sid st' <> id) ->
  sess_ok (alloc id n st s).
Proof.
  intros [H1 H2 H3 H4 H5 H6 H7 H8 H9] Hc Hsz Hn Hid Hok Hop Hfresh. constructor; cbn -[obs heard]; try done.
  - intros id' r. rewrite lookup_insert_Some. intros [[<- <-]|[_ E]].
    + exists st. split; [|done]. by apply list_lookup_middle.
    + destruct (H1 id' r E) as (st' & E1 & E2). exists st'. split; [|done]. by apply lookup_app_l_Some.
  - rewrite map_size_insert. destruct (streams s !! id); cbn; lia.
  - by rewrite Hc.
  - lia.
  - intros r st' [E|[-> ->]]%lookup_snoc_inv; [|done]. destruct (H7 r st' E) as [A B]. split; [done|].
    destruct (inbound st'); [done|]. destruct B as (k & ? & ?). exists k. split; [lia|done].
  - intros r1 r2 st1 st2 [E1|[-> ->]]%lookup_snoc_inv [E2|[-> ->]]%lookup_snoc_inv I1 I2 E; auto.
    + by apply (H8 r1 r2 st1 st2).
    + destruct (Hfresh I2 r1 st1 E1 I1). congruence.
    + destruct (Hfresh I1 r2 st2 E2 I2). congruence.
  - intros r. rewrite H9. destruct (decide (r = length (objs s))) as [->|Hr].
    + rewrite (lookup_ge_None_2 (objs s)) by lia. rewrite list_lookup_middle by done.
      unfold heard. rewrite Hop. by destruct (cfgObserver cfg).
    + destruct (objs s !! r) as [st'|] eqn:E; [by rewrite (lookup_app_l_Some _ _ _ _ E)|].
      apply lookup_ge_None in E. rewrite lookup_ge_None_2; [done|]. rewrite length_app. cbn. lia.
Qed.

(** A step that allocates: tokens as before, [ready] as a new object has it. *)
Lemma good_alloc id n st s old new gs :
  sess_ok (alloc id n st s) -> stack_ok new -> Forall stack_ok gs ->
  (ready st + b2n (opening st) = b2n (negb (inbound st)))%nat ->
  (tally wg_token new + tally_pool wg_token gs = tally wg_token old)%nat ->
  (forall r, tally (ready_token r) new + tally_pool (ready_token r) gs = tally (ready_token r) old)%nat ->
  good s old new gs (alloc id n st s).
Proof.
  intros Hs Hn Hg Hst Hw Hr. constructor; try done.
  - cbn. lia.
  - cbn. rewrite length_app. lia.
  - intros r. cbn. destruct (objs s !! r) as [st'|] eqn:E.
    + rewrite (lookup_app_l_Some _ _ _ _ E). split; [done|]. rewrite <- (Hr r). lia.
    + destruct ((objs s ++ [st]) !! r) as [st'|] eqn:E'; [|auto].
      apply lookup_snoc_inv in E' as [E'|[-> ->]]; [congruence|]. auto.
Qed.

Lemma handleOpen_good m rest s :
  sess_ok s -> stack_ok rest ->
  let p := handleOpen cfg m s in
  good s (IHandleOpen m :: rest) (pushed p ++ rest) (spawned p) (after p).
Proof.
  intros Hs Hrest. cbn zeta. unfold handleOpen.
  assert (forall todo, forallb plain todo = true -> good s (IHandleOpen m :: rest) (todo ++ rest) [] s) as Hplain.
  { intros todo Ht. apply good_plain; try done. apply sess_rel_refl. }
  destruct (_ || _ || _ || _) eqn:Ev; [by apply Hplain|].
  destruct (closed s) eqn:Ec; [by apply (Hplain [])|].
  destruct (streams s !! open_StreamID m) eqn:Ed; [by apply Hplain|].
  destruct (Z.leb_spec AppMaxStreams (Z.of_nat (size (streams s)))); [by apply Hplain|].
  rewrite !orb_false_iff, !negb_false_iff in Ev. destruct Ev as [[[Ev1 Ev2] _] _].
  set (st := set_accepting true (newStream (open_StreamID m) (open_Service m) true)).
  cbn [pushed spawned after app].
  change (with_streams _ _) with (alloc (open_StreamID m) (nextID s) st s).
  apply good_alloc; try done.
  - apply alloc_ok; try done; try lia; [pose proof (si_nextID _ Hs); lia|]. split; [cbn; by destruct app_limits as (_ & -> & _)|].
    cbn. apply Z.eqb_eq in Ev2. apply Z.eqb_neq in Ev1. done.
  - repeat constructor.
Qed.

Lemma Open_good call service meta s :
  sess_ok s ->
  let p := Open cfg fmt_q call service meta s in
  good s [IOpen call service meta] (pushed p ++ []) (spawned p) (after p).
Proof.
  intros Hs. cbn zeta. unfold Open.
  assert (forall o, good s [IOpen call service meta] ([IReturn call o] ++ []) [] s) as Hplain.
  { intros o. apply good_plain; try done. apply sess_rel_refl. }
  destruct (negb (ValidAppService service)); [by apply Hplain|].
  destruct (AppMaxMetaBytes <? zlen meta); [by apply Hplain|].
  destruct (closed s) eqn:Ec; [by apply Hplain|].
  destruct (Z.leb_spec AppMaxStreams (Z.of_nat (size (streams s)))); [by apply Hplain|].
  destruct (Z.leb_spec maxLocalStreamID (nextID s)) as [|Hn]; [by apply Hplain|].
  pose proof (si_nextID _ Hs) as Hnext. unfold maxLocalStreamID in *.
  rewrite to_u32_id by lia. cbn [pushed spawned after app].
  set (id := Z.lor (localBit cfg) (nextID s + 1)).
  set (st := set_rcvWindow AppInitialWindow (set_opening true (newStream id service false))).
  change (with_streams _ _) with (alloc id (nextID s + 1) st s).
  apply good_alloc; try done.
  - apply alloc_ok; try done; try (unfold maxLocalStreamID; lia).
    + split; [cbn; by destruct app_limits as (_ & -> & _)|]. exists (nextID s + 1). split; [lia|done].
    + intros _ r' st' E I E'. destruct (si_objs _ Hs r' st' E) as [_ B]. rewrite I in B.
      destruct B as (k & Hk & Hsid). pose proof localBit_cases as Hb.
      rewrite Hsid in E'. unfold id in E'. rewrite !lor_high in E' by (done || lia). lia.
Qed.

(** ** Steps that change one object beyond [obj_rel] *)

Lemma obs_other r r' n : about r' n = true -> r <> r' -> about r n = false.
Proof. destruct n; cbn; try done; intros ->%Nat.eqb_eq Hne; by apply Nat.eqb_neq. Qed.

(** One object changes its flags and the observer is told [ns] about it. *)
Lemma obj_change_ok r st st' ns s :
  sess_ok s -> objs s !! r = Some st ->
  sid st' = sid st -> inbound st' = inbound st ->
  (0 <= sndCredit st <= AppMaxCredit -> 0 <= sndCredit st' <= AppMaxCredit) ->
  forallb (about r) ns = true ->
  (if cfgObserver cfg then heard r st' = heard r st ++ ns else ns = []) ->
  sess_ok (with_notes (notes s ++ ns) (set_obj r st' s)).
Proof.
  intros [H1 H2 H3 H4 H5 H6 H7 H8 H9] Hr Hsid Hin Hcr Hns Hheard.
  pose proof (lookup_lt_Some _ _ _ Hr) as Hlt.
  assert (forall r' x, <[r:=st']> (objs s) !! r' = Some x ->
    exists y, objs s !! r' = Some y /\ sid x = sid y /\ inbound x = inbound y
      /\ (0 <= sndCredit y <= AppMaxCredit -> 0 <= sndCredit x <= AppMaxCredit)) as Hback.
  { intros r' x [(-> & <- & _)|[_ E]]%list_lookup_insert_Some; eauto. }
  constructor; cbn -[obs heard]; try done.
  - intros id r' E. destruct (H1 id r' E) as (y & E1 & E2). destruct (decide (r' = r)) as [->|Hne].
    + exists st'. rewrite list_lookup_insert_eq by done. split; [done|]. congruence.
    + exists y. by rewrite list_lookup_insert_ne by done.
  - intros r' x E. destruct (Hback r' x E) as (y & E1 & E2 & E3 & E4). destruct (H7 r' y E1) as [A B].
    split; [auto|]. by rewrite E2, E3.
  - intros r1 r2 x1 x2 E1 E2. destruct (Hback _ _ E1) as (y1 & A1 & B1 & C1 & _), (Hback _ _ E2) as (y2 & A2 & B2 & C2 & _).
    rewrite B1, B2, C1, C2. by apply H8.
  - intros r'. rewrite obs_app, H9. destruct (decide (r' = r)) as [->|Hne].
    + rewrite Hr, list_lookup_insert_eq by done.
      assert (obs r ns = ns) as ->.
      { clear -Hns. induction ns as [|n ns IH]; [done|]. cbn in *. apply andb_true_iff in Hns as [-> Hns].
        f_equal. by apply IH. }
      destruct (cfgObserver cfg); [done|]. by rewrite Hheard.
    + rewrite list_lookup_insert_ne by done.
      assert (obs r' ns = []) as ->; [|by rewrite app_nil_r].
      clear -Hns Hne. induction ns as [|n ns IH]; [done|]. cbn in *. apply andb_true_iff in Hns as [Hn Hns].
      rewrite (obs_other r' r n) by done. by apply IH.
Qed.

(** Such a step, with its [ready] tokens balanced. *)
Lemma good_change r st st' ns s old new :
  objs s !! r = Some st -> sess_ok (with_notes (notes s ++ ns) (set_obj r st' s)) ->
  inbound st' = inbound st -> stack_ok new ->
  tally wg_token new = tally wg_token old ->
  (ready st' + b2n (opening st') + tally (ready_token r) new
    = ready st + b2n (opening st) + tally (ready_token r) old)%nat ->
  (forall r', r' <> r -> tally (ready_token r') new = tally (ready_token r') old) ->
  good s old new [] (with_notes (notes s ++ ns) (set_obj r st' s)).
Proof.
  intros Hr Hs Hin Hst Hw Hb Ho. pose proof (lookup_lt_Some _ _ _ Hr) as Hlt. constructor; try done.
  - cbn. lia.
  - cbn. by rewrite length_insert.
  - intros r'. cbn [objs with_notes set_obj with_objs]. destruct (decide (r' = r)) as [->|Hne].
    + rewrite Hr, list_lookup_insert_eq by done. split; [done|]. cbn. lia.
    + rewrite list_lookup_insert_ne by done. rewrite (Ho r' Hne).
      destruct (objs s !! r'); cbn; [split; [done|]|]; lia.
Qed.

Lemma notes_nil s : with_notes (notes s ++ []) s = s.
Proof. destruct s. cbn. unfold with_notes. cbn. by rewrite app_nil_r. Qed.

Lemma set_obj_notes r st s ns : with_notes (notes s ++ ns) (set_obj r st s) = with_notes (notes (set_obj r st s) ++ ns) (set_obj r st s).
Proof. done. Qed.

Lemma markOpened_good r st rest s :
  sess_ok s -> stack_ok rest -> objs s !! r = Some st ->
  let p := markOpened cfg r st s in
  good s (IMarkOpened r :: rest) (pushed p ++ rest) (spawned p) (after p).
Proof.
  intros Hs Hrest Hr. cbn zeta. unfold markOpened, markOpened_locked.
  destruct (finished st || opened st) eqn:Ef; cbn [andb pushed spawned after next].
  - apply (good_plain s _ (IMarkOpened r) rest []); try done. apply (sess_rel_obj r st); [done|apply obj_rel_refl].
  - apply orb_false_iff in Ef as [Ef Eo].
    assert (forall ns, (if cfgObserver cfg then ns = [StreamOpened r] else ns = []) ->
      good s (IMarkOpened r :: rest) ([] ++ rest) [] (with_notes (notes s ++ ns) (set_obj r (set_opened true st) s))) as Hg.
    { intros ns Hns. assert (forallb (about r) ns = true) as Hab.
      { destruct (cfgObserver cfg); subst ns; cbn; [|done]. by rewrite Nat.eqb_refl. }
      apply (good_change r st); try done. apply (obj_change_ok r st); try done.
      unfold heard. cbn. rewrite Ef, Eo. destruct (cfgObserver cfg); by subst. }
    destruct (cfgObserver cfg) eqn:Eobs; cbn [andb].
    + exact (Hg [StreamOpened r] eq_refl).
    + specialize (Hg [] eq_refl). rewrite set_obj_notes, notes_nil in Hg. exact Hg.
Qed.

Lemma finish_good r st rest s :
  sess_ok s -> stack_ok rest -> objs s !! r = Some st ->
  let p := finish cfg r st s in
  good s (IFinish r :: rest) (pushed p ++ rest) (spawned p) (after p).
Proof.
  intros Hs Hrest Hr. cbn zeta. unfold finish, finish_locked.
  destruct (finished st) eqn:Ef; cbn [andb pushed spawned after next].
  - apply (good_plain s _ (IFinish r) rest []); try done. apply sess_rel_refl.
  - assert (forall ns, (if opened st && cfgObserver cfg then ns = [StreamClosed r] else ns = []) ->
      good s (IFinish r :: rest) ([IDetach r; ICloseEndpoint r] ++ rest) []
        (with_notes (notes s ++ ns) (set_obj r (set_finished true st) s))) as Hg.
    { intros ns Hns. assert (forallb (about r) ns = true) as Hab.
      { destruct (opened st && cfgObserver cfg); subst ns; cbn; [|done]. by rewrite Nat.eqb_refl. }
      apply (good_change r st); try done. apply (obj_change_ok r st); try done.
      clear Hab. revert Hns. unfold heard. cbn. rewrite Ef. destruct (opened st), (cfgObserver cfg); cbn; by intros ->. }
    destruct (opened st && cfgObserver cfg) eqn:Eobs.
    + exact (Hg [StreamClosed r] eq_refl).
    + specialize (Hg [] eq_refl). rewrite set_obj_notes, notes_nil in Hg. exact Hg.
Qed.

(** One object changes and the observer hears nothing. *)
Lemma good_change_quiet r st st' s old new :
  sess_ok s -> objs s !! r = Some st ->
  sid st' = sid st -> inbound st' = inbound st -> opened st' = opened st -> finished st' = finished st ->
  (0 <= sndCredit st <= AppMaxCredit -> 0 <= sndCredit st' <= AppMaxCredit) ->
  stack_ok new -> tally wg_token new = tally wg_token old ->
  (ready st' + b2n (opening st') + tally (ready_token r) new
    = ready st + b2n (opening st) + tally (ready_token r) old)%nat ->
  (forall r', r' <> r -> tally (ready_token r') new = tally (ready_token r') old) ->
  good s old new [] (set_obj r st' s).
Proof.
  intros Hs Hr Hsid Hin Hop Hfi Hcr Hst Hw Hb Ho.
  rewrite <- (notes_nil (set_obj r st' s)), <- set_obj_notes.
  apply (good_change r st); try done. apply (obj_change_ok r st); try done.
  unfold heard. rewrite Hop, Hfi. destruct (cfgObserver cfg); [by rewrite app_nil_r|done].
Qed.

Lemma ready_self r : ready_token r (ICloseReady r) = 1%nat.
Proof. cbn. by rewrite Nat.eqb_refl. Qed.

Lemma ready_other r r' : r' <> r -> ready_token r' (ICloseReady r) = 0%nat.
Proof. intros H. cbn. by rewrite (proj2 (Nat.eqb_neq r' r) H). Qed.

Lemma accept_locked_good r grant meta st rest s :
  sess_ok s -> stack_ok (IAcceptLocked r grant meta :: rest) -> objs s !! r = Some st ->
  let p := accept_locked r grant meta st s in
  good s (IAcceptLocked r grant meta :: rest) (pushed p ++ rest) (spawned p) (after p).
Proof.
  intros Hs [Hg Hrest] Hr. cbn in Hg. cbn zeta. unfold accept_locked, handleAccept_locked.
  destruct (opening st) eqn:Eo; cbn [pushed spawned after next app].
  - apply (good_change_quiet r st); try done; cbn [ready opening set_acceptMeta set_sndCredit set_opening].
    + cbn. lia.
    + change (tally (ready_token r) (ICloseReady r :: rest)) with (ready_token r (ICloseReady r) + tally (ready_token r) rest)%nat.
      rewrite ready_self, Eo. cbn. unfold tally. lia.
    + intros r' Hne. change (ready_token r' (ICloseReady r) + tally (ready_token r') rest = tally (ready_token r') rest)%nat.
      by rewrite ready_other.
  - apply (good_plain s _ (IAcceptLocked r grant meta) rest []); try done. apply (sess_rel_obj r st); [done|apply obj_rel_refl].
Qed.

Lemma reject_locked_good r code message st rest s :
  sess_ok s -> stack_ok rest -> objs s !! r = Some st ->
  let p := reject_locked r code message st s in
  good s (IRejectLocked r code message :: rest) (pushed p ++ rest) (spawned p) (after p).
Proof.
  intros Hs Hrest Hr. cbn zeta. unfold reject_locked, handleReject_locked.
  destruct (opening st) eqn:Eo; cbn [pushed spawned after next app].
  - apply (good_change_quiet r st); try done; cbn [ready opening set_openErr set_opening].
    + change (tally (ready_token r) (IDetach r :: ICloseReady r :: rest)) with (ready_token r (ICloseReady r) + tally (ready_token r) rest)%nat.
      rewrite ready_self, Eo. cbn. unfold tally. lia.
    + intros r' Hne. change (ready_token r' (ICloseReady r) + tally (ready_token r') rest = tally (ready_token r') rest)%nat.
      by rewrite ready_other.
  - apply (good_plain s _ (IRejectLocked r code message) rest []); try done. apply (sess_rel_obj r st); [done|apply obj_rel_refl].
Qed.

Lemma closeReady_good r st rest s :
  sess_ok s -> stack_ok rest -> objs s !! r = Some st ->
  let p := closeReady r st s in
  good s (ICloseReady r :: rest) (pushed p ++ rest) (spawned p) (after p).
Proof.
  intros Hs Hrest Hr. cbn zeta. unfold closeReady. cbn [pushed spawned after next app].
  apply (good_change_quiet r st); try done; cbn [ready opening set_ready].
  - change (tally (ready_token r) (ICloseReady r :: rest)) with (ready_token r (ICloseReady r) + tally (ready_token r) rest)%nat.
    rewrite ready_self. lia.
  - intros r' Hne. change (tally (ready_token r') rest = ready_token r' (ICloseReady r) + tally (ready_token r') rest)%nat.
    by rewrite ready_other.
Qed.

(** [fail]: closes once, empties the table. *)
Lemma fail_good rest s :
  sess_ok s -> stack_ok rest ->
  let p := Session_fail s in
  good s (IFail :: rest) (pushed p ++ rest) (spawned p) (after p).
Proof.
  intros Hs Hrest. cbn zeta. unfold Session_fail.
  destruct (closed s) eqn:Ec.
  - apply (good_plain s s IFail rest []); try done. apply sess_rel_refl.
  - destruct Hs as [H1 H2 H3 H4 H5 H6 H7 H8 H9]. constructor; try done.
    + constructor; cbn -[obs]; try done. by rewrite H4, Ec.
    + cbn. unfold tally. lia.
    + intros r. cbn. destruct (objs s !! r); cbn; [split; [done|]|]; lia.
Qed.

Lemma startWriteLoop_good r rest s :
  sess_ok s -> stack_ok rest ->
  let p := startWriteLoop r s in
  good s (IStartWriteLoop r :: rest) (pushed p ++ rest) (spawned p) (after p).
Proof.
  intros Hs Hrest. cbn zeta. unfold startWriteLoop. destruct (closed s) eqn:Ec.
  - apply (good_plain s s (IStartWriteLoop r) rest []); try done. apply sess_rel_refl.
  - destruct Hs as [H1 H2 H3 H4 H5 H6 H7 H8 H9]. constructor; try done.
    + repeat constructor.
    + cbn. unfold tally. lia.
    + intros r'. cbn. unfold tally. destruct (objs s !! r'); cbn; [split; [done|]|]; lia.
Qed.

Lemma wgDone_good rest s :
  sess_ok s -> stack_ok rest -> good s (IWgDone :: rest) rest [] (with_wg (wg s - 1) s).
Proof.
  intros [H1 H2 H3 H4 H5 H6 H7 H8 H9] Hrest. constructor; try done.
  - cbn. unfold tally. lia.
  - intros r'. cbn. unfold tally. destruct (objs s !! r'); cbn; [split; [done|]|]; lia.
Qed.

(** [sendApp] and its error branches. *)
Lemma sendApp_good m k w rest s :
  sess_ok s -> stack_ok (ISend m k :: rest) ->
  let '(todo, s') := sendApp m k w rest s in
  good s (ISend m k :: rest) todo [] s'.
Proof.
  intros Hs [Hk Hrest]. unfold sendApp.
  assert (forall e, good s (ISend m k :: rest) (on_error k e rest) [] s) as Herr.
  { intros e. destruct k; cbn [on_error head_ok] in *.
    - apply (good_plain s s (ISend m EIgnore) rest []); try done. apply sess_rel_refl.
    - apply (good_plain s s (ISend m EFail) rest [IFail]); try done. apply sess_rel_refl.
    - subst rest. apply good_rel; try done. apply sess_rel_refl.
    - destruct Hk as [r ->]. apply good_rel; try done. apply sess_rel_refl.
    - destruct Hk as [r [-> | ->]]; apply good_rel; try done; apply sess_rel_refl.
    - destruct Hk as [r ->]. apply good_rel; try done. apply sess_rel_refl. }
  destruct (app_frame m) as [f|e]; [|apply Herr]. destruct w as [e|]; [apply Herr|].
  apply (good_plain s _ (ISend m k) rest []); try done. by apply sess_rel_fields.
Qed.

(** ** The other steps *)

Definition benign (s : Session) (p : progress) : Prop :=
  sess_rel s (after p) /\ forallb plain (pushed p) = true /\ spawned p = [].

Lemma benign_good s p i rest :
  sess_ok s -> stack_ok (i :: rest) -> wg_token i = 0%nat -> (forall r, ready_token r i = 0%nat) ->
  benign s p -> good s (i :: rest) (pushed p ++ rest) (spawned p) (after p).
Proof. intros Hs Hst Hw Hr (Hrel & Hp & ->). by apply good_plain. Qed.

Lemma benign_next s todo : forallb plain todo = true -> benign s (next todo s).
Proof. intros H. split; [apply sess_rel_refl|done]. Qed.

Lemma benign_obj r st st' todo s :
  objs s !! r = Some st -> obj_rel st st' -> forallb plain todo = true -> benign s (next todo (set_obj r st' s)).
Proof. intros Hr Hrel Ht. split; [by apply (sess_rel_obj r st)|done]. Qed.

Lemma benign_detach r st s : benign s (detach r st s).
Proof.
  split; [|done]. unfold detach. cbn. case_bool_decide; [|apply sess_rel_refl].
  constructor; try done; cbn; [apply objs_refl|apply delete_subseteq].
Qed.

Lemma benign_detach_bytes r st s : objs s !! r = Some st -> benign s (detach_bytes r st s).
Proof.
  intros Hr. unfold detach_bytes. destruct (detach_locked st) as [n st'] eqn:E.
  apply (benign_obj r st); [done| |].
  - pose proof (detach_rel st) as H. by rewrite E in H.
  - destruct (Z.ltb_spec 0 n); cbn; [|done]. rewrite andb_true_r. lia.
Qed.

Lemma benign_closeEndpoint r st s : objs s !! r = Some st -> benign s (closeEndpoint r st s).
Proof.
  intros Hr. unfold closeEndpoint. cbn. apply (benign_obj r st); [done|by constructor|]. by destruct (ep st).
Qed.

(** Steps that may reserve buffer first. *)
Lemma reserve_step r st st' n (c : bool) todo s :
  objs s !! r = Some st -> obj_rel st st' -> forallb plain todo = true ->
  let '(reserved, s1) := if c then reserveBuffer n s else (false, s) in
  benign s (next todo (set_obj r st' s1)).
Proof.
  intros Hr Hrel Ht. destruct c; [|by apply (benign_obj r st)].
  pose proof (reserveBuffer_rel n s) as Hb. destruct (reserveBuffer n s) as [b s1] eqn:E. cbn in Hb.
  assert (objs s1 = objs s) as Eo by (unfold reserveBuffer in E; case_match; by simplify_eq).
  split; [|done]. apply (sess_rel_trans s s1); [done|]. apply (sess_rel_obj r st); [by rewrite Eo|done].
Qed.

Lemma benign_Write call r p st s : objs s !! r = Some st -> benign s (Stream_Write call r p st s).
Proof.
  intros Hr. unfold Stream_Write. destruct (zlen p =? 0); [by apply benign_next|].
  pose proof (reserve_step r st) as H.
  specialize (fun st' todo => H st' (zlen p) (write_needs_buffer p st) todo s Hr).
  destruct (if write_needs_buffer p st then _ else _) as [b s1].
  pose proof (Write_rel p b st) as Hw. destruct (Write_locked p b st) as [dec st']. cbn in Hw.
  destruct dec; by apply H.
Qed.

Lemma benign_deliver r d st s : objs s !! r = Some st -> benign s (deliver r d st s).
Proof.
  intros Hr. unfold deliver. pose proof (reserve_step r st) as H.
  specialize (fun st' todo => H st' (zlen d) (deliver_needs_buffer d st) todo s Hr).
  destruct (if deliver_needs_buffer d st then _ else _) as [b s1].
  pose proof (deliver_rel d b st) as Hw. destruct (deliver_locked d b st) as [dec st']. cbn in Hw.
  destruct dec; by apply H.
Qed.

Lemma plain_release n : 0 <= n -> plain (IReleaseBuffer n) = true.
Proof. cbn. lia. Qed.

Lemma benign_Read call r n st s : objs s !! r = Some st -> benign s (Stream_Read call r n st s).
Proof.
  intros Hr. unfold Stream_Read. destruct (n =? 0); [by apply benign_next|].
  pose proof (Read_rel n st) as Hw. destruct (Read_locked n st) as [dec st']. cbn in Hw.
  destruct dec; apply (benign_obj r st); try done.
  cbn [forallb]. rewrite plain_release by apply zlen_nonneg. done.
Qed.

Lemma benign_addCredit r n st s : objs s !! r = Some st -> benign s (addCredit r n st s).
Proof.
  intros Hr. unfold addCredit. pose proof (addCredit_rel n st) as Hw.
  destruct (addCredit_locked n st) as [dec st']. destruct dec; by apply (benign_obj r st).
Qed.

Lemma benign_remoteClose r st s : objs s !! r = Some st -> benign s (remoteClose r st s).
Proof.
  intros Hr. unfold remoteClose. pose proof (remoteClose_rel st) as Hw.
  destruct (remoteClose_locked st) as [dec st']. destruct dec; by apply (benign_obj r st).
Qed.

Lemma benign_tell s n : (forall r, about r n = false) -> benign s (next [] (tell n s)).
Proof.
  intros Hn. split; [|done]. constructor; try done; cbn -[obs]; [apply objs_refl|].
  intros r. rewrite obs_app. cbn. by rewrite Hn, app_nil_r.
Qed.

Lemma benign_on_id id s f : (forall r, forallb plain (f r) = true) -> benign s (on_id id s f).
Proof. intros Hf. unfold on_id. case_match; by apply benign_next. Qed.

(** The steps whose stack has a known rest. *)
Lemma writeLoop_good i r st s :
  sess_ok s -> i = IWriteLoop r \/ (exists seen, i = IWriteLoopWait r seen) -> objs s !! r = Some st ->
  let p := writeLoop r st s in
  good s [i; IWgDone] (pushed p ++ [IWgDone]) (spawned p) (after p).
Proof.
  intros Hs Hi Hr. cbn zeta. unfold writeLoop. pose proof (writeLoop_rel st) as Hw.
  destruct (writeLoop_locked st) as [dec st']. cbn in Hw.
  assert (forall todo, stack_ok (todo ++ [IWgDone]) -> tally wg_token todo = 0%nat ->
    (forall r', tally (ready_token r') todo = 0%nat) ->
    good s [i; IWgDone] (todo ++ [IWgDone]) [] (set_obj r st' s)) as H.
  { intros todo Hst Ht Htr. apply good_rel; [done|by apply (sess_rel_obj r st)|done| |].
    - rewrite tally_app, Ht. by destruct Hi as [->|[? ->]].
    - intros r'. rewrite tally_app, Htr. by destruct Hi as [->|[? ->]]. }
  destruct dec; apply H; try done; cbn.
  - split_and!; try done; [apply zlen_nonneg|eauto].
  - split_and!; try done. eauto.
Qed.

Lemma CloseWrite_good call r st s :
  sess_ok s -> objs s !! r = Some st ->
  let p := CloseWrite call r st s in
  good s [ICloseWrite call r] (pushed p ++ []) (spawned p) (after p).
Proof.
  intros Hs Hr. cbn zeta. unfold CloseWrite. pose proof (CloseWrite_rel st) as Hw.
  destruct (CloseWrite_locked st) as [dec st']. cbn in Hw.
  destruct dec; apply good_rel; try done; try (by apply (sess_rel_obj r st)).
  cbn. split_and!; try done. eauto.
Qed.

Lemma good_known s s' i todo :
  sess_ok s -> sess_rel s s' -> stack_ok todo -> wg_token i = 0%nat -> tally wg_token todo = 0%nat ->
  (forall r, ready_token r i = 0%nat /\ tally (ready_token r) todo = 0%nat) ->
  good s [i] (todo ++ []) [] s'.
Proof.
  intros Hs Hrel Hst Hi Ht Hr. rewrite app_nil_r. apply good_rel; try done; cbn.
  - by rewrite Hi, Ht.
  - intros r. destruct (Hr r) as [-> ->]. done.
Qed.

Lemma Serve_good call c rest s p :
  sess_ok s -> stack_ok (IServe call :: rest) -> Serve ExecCmd_UnmarshalBinary call c s = Some p ->
  good s (IServe call :: rest) (pushed p ++ rest) (spawned p) (after p).
Proof.
  intros Hs Hst. unfold Serve. destruct c as [| |[f|e]| | | | | |]; try done.
  - destruct (frame_ok f); [|done]. destruct (handleFrame ExecCmd_UnmarshalBinary f) as [h|[m e]] eqn:E; intros [= <-].
    + apply benign_good; try done. apply benign_next. cbn. rewrite andb_true_r.
      unfold handleFrame in E. destruct (_ || _); [done|].
      destruct (DecodeMessageBody _ _ _) as [m|] eqn:Ed; [|done]. destruct m; simplify_eq; try done.
      apply DecodeMessageBody_accept, AppAccept_unmarshal_bounds in Ed as (_ & _ & Hg).
      apply in_u_spec in Hg. cbn. lia.
    + apply benign_good; try done. by apply benign_next.
  - intros [= <-]. apply benign_good; try done. by apply benign_next.
Qed.

Lemma handleAccept_good m r st rest s :
  sess_ok s -> stack_ok (IHandleAccept m :: rest) ->
  let p := handleAccept m r st s in
  good s (IHandleAccept m :: rest) (pushed p ++ rest) (spawned p) (after p).
Proof.
  intros Hs [Hg Hst]. cbn in Hg. cbn zeta. unfold handleAccept.
  destruct (AppMaxMetaBytes <? zlen (accept_Meta m)); [apply benign_good; try done; by apply benign_next|].
  destruct (Z.eqb_spec (accept_Grant m) 0); [apply benign_good; try done; by apply benign_next|].
  destruct (Z.ltb_spec AppMaxCredit (accept_Grant m)); [apply benign_good; try done; by apply benign_next|].
  cbn [orb]. apply good_rel; try done; [apply sess_rel_refl|]. cbn. split; [lia|done].
Qed.

Lemma acceptOpen_good r meta a st s :
  sess_ok s ->
  let p := acceptOpen cfg r a st s in
  good s [IAcceptOpen r meta] (pushed p ++ []) (spawned p) (after p).
Proof.
  intros Hs. cbn zeta. unfold acceptOpen. pose proof (sess_rel_refl s).
  destruct (negb (cfgHandler cfg)); [by apply good_known|].
  destruct a as [[e m]|e]; [|by apply good_known].
  case_match; by apply good_known.
Qed.

Lemma acceptOpen_ready_good r e meta st s :
  sess_ok s -> objs s !! r = Some st ->
  let p := acceptOpen_ready r e meta st s in
  good s [IAcceptReady r e meta] (pushed p ++ []) (spawned p) (after p).
Proof.
  intros Hs Hr. cbn zeta. apply good_known; try done.
  - apply (sess_rel_obj r st); [done|apply acceptOpen_rel].
  - cbn. split_and!; try done. eauto.
Qed.

Lemma Open_select_good call r c st s p :
  sess_ok s -> Open_select call r c st s = Some p ->
  good s [IOpenSelect call r] (pushed p ++ []) (spawned p) (after p).
Proof.
  intros Hs. unfold Open_select. pose proof (sess_rel_refl s).
  destruct c; try done; try (case_match; [|done]); intros [= <-]; by apply good_known.
Qed.

Lemma Open_result_good call r st s :
  sess_ok s ->
  let p := Open_result call r st s in
  good s [IOpenResult call r] (pushed p ++ []) (spawned p) (after p).
Proof.
  intros Hs. cbn zeta. unfold Open_result. pose proof (sess_rel_refl s).
  repeat case_match; by apply good_known.
Qed.

Lemma step_good i c rest s p :
  sess_ok s -> stack_ok (i :: rest) -> step_instr cfg fmt_q ExecCmd_UnmarshalBinary i c s = Some p ->
  good s (i :: rest) (pushed p ++ rest) (spawned p) (after p).
Proof.
  intros Hs Hst. pose proof Hst as [Hh Hrest].
  assert (benign s p -> wg_token i = 0%nat -> (forall r, ready_token r i = 0%nat) ->
    good s (i :: rest) (pushed p ++ rest) (spawned p) (after p)) as Hben by (intros; by apply benign_good).
  assert (forall r f, on_obj r s f = Some p -> exists st, objs s !! r = Some st /\ p = f st s) as Hobj.
  { intros r f. unfold on_obj. destruct (objs s !! r) as [st|]; intros; simplify_eq; eauto. }
  destruct i; cbn [step_instr]; try (by apply Serve_good); destruct c; try done; intros H;
    try (apply Hobj in H as (st & Hr & ->)).
  all: try (simplify_eq; by apply Hben; [apply benign_next|..]).
  all: try (simplify_eq; by apply Hben; [apply benign_on_id|..]).
  all: try (simplify_eq; by apply Hben; [apply benign_tell|..]).
  all: try (case_match; simplify_eq; by apply Hben; [apply benign_next|..]).
  all: try (by apply Hben; [eauto using benign_detach, benign_detach_bytes, benign_closeEndpoint, benign_Write,
              benign_Read, benign_deliver, benign_addCredit, benign_remoteClose|..]).
  - injection H as <-. by apply handleOpen_good.
  - cbn in Hh. subst rest. by apply acceptOpen_good.
  - cbn in Hh. subst rest. by apply acceptOpen_ready_good.
  - destruct (streams s !! accept_StreamID m) as [r|].
    + apply Hobj in H as (st & Hr & ->). by apply handleAccept_good.
    + injection H as <-. by apply Hben; [apply benign_next|..].
  - by apply accept_locked_good.
  - by apply reject_locked_good.
  - by apply closeReady_good.
  - cbn in Hh. subst rest. injection H as <-. by apply Open_good.
  - cbn in Hh. subst rest. destruct (objs s !! r); [|done]. by apply Open_select_good in H.
  - cbn in Hh. subst rest. destruct (objs s !! r); [|done]. by apply Open_select_good in H.
  - cbn in Hh. subst rest. destruct (objs s !! r); [|done]. by apply Open_select_good in H.
  - cbn in Hh. subst rest. by apply Open_result_good.
  - injection H as <-. apply Hben; try done. split; [|done]. cbn. unfold sendError. destruct r; by apply sess_rel_fields.
  - injection H as <-. by apply fail_good.
  - injection H as <-. apply Hben; try done. split; [|done]. constructor; try done. apply objs_refl.
  - destruct refs as [|r refs]; [done|]. destruct ((r :: refs) !! i) as [r'|]; [|done]. injection H as <-.
    apply Hben; try done. by apply benign_next.
  - injection H as <-. apply Hben; try done. split; [|done]. by apply sess_rel_fields.
  - injection H as <-. apply Hben; try done. split; [|done]. by apply releaseBuffer_rel.
  - by apply finish_good.
  - by apply markOpened_good.
  - apply Hben; try done. apply (benign_obj r st); try done.
  - injection H as <-. by apply startWriteLoop_good.
  - cbn in Hh. subst rest. apply writeLoop_good; auto.
  - cbn in Hh. subst rest. destruct (objs s !! r) as [st|] eqn:Hr; [|done]. case_match; [|done].
    injection H as <-. apply writeLoop_good; eauto.
  - injection H as <-. by apply wgDone_good.
  - apply Hben; try done. apply benign_next. by case_match.
  - apply Hben; try done. apply (benign_obj r st); try done. apply setReset_rel.
  - apply Hben; try done. apply (benign_obj r st); try done.
  - destruct (objs s !! r) as [st|] eqn:Hr; [|done]. case_match; [|done].
    injection H as <-. apply Hben; try done. by apply benign_Read.
  - cbn in Hh. subst rest. by apply CloseWrite_good.
  - injection H as <-. apply Hben; try done. split; [|done]. by apply sess_rel_fields.
Qed.

(** ** The world invariant *)

Record world_ok (w : World) : Prop := {
  w_sess : sess_ok (sess w);
  w_stacks : Forall stack_ok (pool w);
  w_wg : wg (sess w) = Z.of_nat (tally_pool wg_token (pool w));
  w_ready : forall r,
    match objs (sess w) !! r with
    | Some st => (ready st + b2n (opening st) + tally_pool (ready_token r) (pool w) = b2n (negb (inbound st)))%nat
    | None => tally_pool (ready_token r) (pool w) = 0%nat
    end }.

Lemma world0_ok : world_ok world0.
Proof. by constructor. Qed.

(** A step is a write, whose error branch sees the rest of the stack, or pushes
    in front of it. *)
Lemma exec_cases i rest c s g gs s' :
  exec cfg fmt_q ExecCmd_UnmarshalBinary i rest c s = Some (g, gs, s') ->
  (exists m k w, i = ISend m k /\ c = ChWrite w /\ sendApp m k w rest s = (g, s') /\ gs = [])
  \/ exists p, step_instr cfg fmt_q ExecCmd_UnmarshalBinary i c s = Some p
       /\ g = pushed p ++ rest /\ gs = spawned p /\ s' = after p.
Proof.
  intros H. destruct i; cbn [exec] in H;
    try (right; destruct (step_instr _ _ _ _ _ _) as [[]|]; [|done]; injection H as <- <- <-; by eexists).
  left. destruct c; try done. destruct (sendApp m k r rest s) as [todo s1] eqn:E. simplify_eq. by repeat eexists.
Qed.

Lemma exec_good i rest c s g gs s' :
  sess_ok s -> stack_ok (i :: rest) ->
  exec cfg fmt_q ExecCmd_UnmarshalBinary i rest c s = Some (g, gs, s') -> good s (i :: rest) g gs s'.
Proof.
  intros Hs Hst [(m & k & w & -> & -> & E & ->)|(p & E & -> & -> & ->)]%exec_cases.
  - pose proof (sendApp_good m k w rest s Hs Hst) as Hg. by rewrite E in Hg.
  - by apply (step_good i c).
Qed.

(** API calls bring in no tokens. *)
Lemma call_stack_ok call a s gs :
  call_stack call a s = Some gs ->
  Forall stack_ok gs /\ tally_pool wg_token gs = 0%nat /\ forall r, tally_pool (ready_token r) gs = 0%nat.
Proof.
  destruct a; cbn [call_stack]; intros; repeat case_match; simplify_eq; split_and!; try done; repeat constructor.
Qed.

Lemma step_world_ok l w w' :
  world_ok w -> step cfg fmt_q ExecCmd_UnmarshalBinary l w = Some w' -> world_ok w'.
Proof.
  intros [Hs Hp Hw Hr]. destruct l as [t c|a]; cbn [step].
  - destruct (pool w !! t) as [[|i rest]|] eqn:Et; try done.
    destruct (exec _ _ _ i rest c (sess w)) as [[[g gs] s]|] eqn:E; [|done]. intros [= <-].
    apply exec_good in E as [G1 G2 G3 G4 G5 G6]; [|done|by eapply Forall_lookup_1 in Hp].
    assert (forall f, tally_pool f (<[t:=g]> (pool w) ++ gs) + tally f (i :: rest)
      = tally_pool f (pool w) + tally f g + tally_pool f gs)%nat as Hsum.
    { intros f. rewrite tally_pool_app. pose proof (tally_pool_insert f (pool w) t (i :: rest) g Et). lia. }
    constructor; cbn [sess pool calls]; [done| | |].
    + apply Forall_app. split; [by apply Forall_insert|done].
    + specialize (Hsum wg_token). lia.
    + intros r. specialize (Hsum (ready_token r)). specialize (Hr r). specialize (G6 r).
      destruct (objs (sess w) !! r) as [st|] eqn:Eo.
      * destruct (objs s !! r) as [st'|] eqn:Eo'.
        -- destruct G6 as [E1 E2]. rewrite E1. lia.
        -- apply lookup_lt_Some in Eo. apply lookup_ge_None in Eo'. lia.
      * destruct (objs s !! r) as [st'|]; [destruct G6|]; lia.
  - destruct (call_stack (calls w) a (sess w)) as [gs|] eqn:E; [|done]. intros [= <-].
    apply call_stack_ok in E as (H1 & H2 & H3). constructor; cbn [sess pool calls]; try done.
    + by apply Forall_app.
    + rewrite tally_pool_app. lia.
    + intros r. specialize (Hr r). rewrite tally_pool_app, H3. case_match; lia.
Qed.

Lemma run_world_ok ls w w' :
  world_ok w -> run cfg fmt_q ExecCmd_UnmarshalBinary ls w = Some w' -> world_ok w'.
Proof.
  revert w; induction ls as [|l ls IH]; intros w Hw; cbn; [by intros [= <-]|].
  destruct (step cfg fmt_q ExecCmd_UnmarshalBinary l w) as [w1|] eqn:E; [|done]. apply IH. by apply (step_world_ok l w).
Qed.

Lemma reachable_ok w : reachable cfg fmt_q ExecCmd_UnmarshalBinary w -> world_ok w.
Proof. intros [ls H]. by apply (run_world_ok ls world0); [apply world0_ok|]. Qed.

(** A write loop's stack ends in its [wg.Done]. *)
Lemma writeLoop_has_done g i r :
  stack_ok g -> i ∈ g -> (i = IWriteLoop r \/ exists seen, i = IWriteLoopWait r seen) -> IWgDone ∈ g.
Proof.
  induction g as [|h g IH]; intros Hst Hin Hi; [by apply elem_of_nil in Hin|].
  destruct Hst as [Hh Hg]. apply elem_of_cons in Hin as [->|Hin].
  - assert (g = [IWgDone]) as -> by (destruct Hi as [->|[seen ->]]; exact Hh).
    apply elem_of_cons. right. by apply elem_of_cons; left.
  - apply elem_of_cons. right. by apply IH.
Qed.

(** ** Theorems *)

(** C5: the session's limits hold under every interleaving: at most
    AppMaxStreams streams in the table, at most AppMaxBuffered bytes reserved,
    every stream's send credit within AppMaxCredit; every table entry points to
    the stream object of that id; and once the session is closed the
    table is empty. *)
Theorem session_limits (w : World) (H : reachable cfg fmt_q ExecCmd_UnmarshalBinary w) :
  let s := sess w in
  Z.of_nat (size (streams s)) <= AppMaxStreams
  /\ 0 <= buffered s <= AppMaxBuffered
  /\ (forall r st, objs s !! r = Some st -> 0 <= sndCredit st <= AppMaxCredit)
  /\ (forall id r, streams s !! id = Some r -> exists st, objs s !! r = Some st /\ sid st = id)
  /\ (closed s = true -> streams s = ∅).
Proof.
  destruct (reachable_ok w H) as [[H1 H2 H3 H4 H5 H6 H7 H8 H9] _ _ _]. split_and!; try done; try lia.
  all: intros r st E; apply (H7 r st E).
Qed.

(** C6: the runtime panics of channel and WaitGroup misuse cannot happen.
    [closeCh] is closed at most once, and exactly when the session is marked
    closed; each stream's [ready] channel is closed at most once, though three
    goroutines (accept, reject, reset) may race to close it; the WaitGroup
    counter is never negative and is exactly the number of write loops still
    to call [Done]. *)
Theorem no_double_close (w : World) (H : reachable cfg fmt_q ExecCmd_UnmarshalBinary w) :
  let s := sess w in
  closeCh s = b2n (closed s)
  /\ (forall r st, objs s !! r = Some st -> (ready st <= 1)%nat /\ (opening st = true -> ready st = 0%nat))
  /\ 0 <= wg s /\ wg s = Z.of_nat (tally_pool wg_token (pool w)).
Proof.
  destruct (reachable_ok w H) as [[H1 H2 H3 H4 H5 H6 H7 H8 H9] _ Hw Hr]. split_and!; try done; try lia.
  intros r st E. specialize (Hr r). rewrite E in Hr.
  assert (b2n (negb (inbound st)) <= 1)%nat by (destruct (inbound st); cbn; lia).
  split; [lia|]. intros Ho. rewrite Ho in Hr. cbn in Hr. lia.
Qed.

(** C7: the observer hears of each stream in order and at most once:
    nothing, then StreamOpened, then StreamClosed; and what it has heard is
    exactly what the stream's [opened] and [finished] flags say, so a
    stream that never completed its open is never reported closed. *)
Theorem observer_exactly_once (w : World) (H : reachable cfg fmt_q ExecCmd_UnmarshalBinary w) (r : nat) :
  let heard_of := obs r (notes (sess w)) in
  (heard_of = [] \/ heard_of = [StreamOpened r] \/ heard_of = [StreamOpened r; StreamClosed r])
  /\ (forall st, objs (sess w) !! r = Some st -> cfgObserver cfg = true ->
      (StreamOpened r ∈ heard_of <-> opened st = true)
      /\ (StreamClosed r ∈ heard_of <-> opened st = true /\ finished st = true)).
Proof.
  destruct (reachable_ok w H) as [[H1 H2 H3 H4 H5 H6 H7 H8 H9] _ _ _]. cbn zeta. rewrite H9. split.
  - destruct (objs (sess w) !! r) as [st|]; [|by left]. destruct (cfgObserver cfg); [|by left].
    unfold heard. destruct (opened st), (finished st); auto.
  - intros st -> ->. unfold heard.
    destruct (opened st), (finished st); rewrite ?elem_of_cons, ?elem_of_nil; intuition discriminate.
Qed.

(** C8: stream ids.  A locally opened stream's id carries the local role's
    initiator bit over a counter value between 1 and [nextID], no two local
    streams of a session ever share an id (closed ones included), and a
    remote stream's id is non-zero with the remote bit: so a local and a
    remote stream never collide in the table. *)
Theorem stream_ids (w : World) (H : reachable cfg fmt_q ExecCmd_UnmarshalBinary w) :
  let s := sess w in
  0 <= nextID s <= maxLocalStreamID
  /\ (forall r st, objs s !! r = Some st -> inbound st = false ->
      exists k, 1 <= k <= nextID s /\ sid st = localBit cfg + k)
  /\ (forall r st, objs s !! r = Some st -> inbound st = true ->
      sid st <> 0 /\ Z.land (sid st) 0x80000000 = remoteBit cfg)
  /\ (forall r1 r2 st1 st2, objs s !! r1 = Some st1 -> objs s !! r2 = Some st2 ->
      inbound st1 = false -> inbound st2 = false -> sid st1 = sid st2 -> r1 = r2).
Proof.
  destruct (reachable_ok w H) as [[H1 H2 H3 H4 H5 H6 H7 H8 H9] _ _ _]. split_and!; try done; try lia.
  - intros r st E I. destruct (H7 r st E) as [_ B]. rewrite I in B. destruct B as (k & Hk & Hsid).
    exists k. split; [done|]. rewrite Hsid. unfold maxLocalStreamID in H6. apply lor_high; [lia|apply localBit_cases].
  - intros r st E I. destruct (H7 r st E) as [_ B]. by rewrite I in B.
Qed.

(** [Close] returns only after every write loop has ended: when a
    goroutine passes [wg.Wait], no goroutine has a write loop round left to
    run. *)
Theorem Close_waits_for_write_loops (w w' : World) (t : nat) (c : choice) (rest : list instr)
    (H : reachable cfg fmt_q ExecCmd_UnmarshalBinary w)
    (Ht : pool w !! t = Some (IWgWait :: rest))
    (Hstep : step cfg fmt_q ExecCmd_UnmarshalBinary (Run t c) w = Some w') :
  forall g r seen, g ∈ pool w -> (IWriteLoop r ∉ g) /\ (IWriteLoopWait r seen ∉ g).
Proof.
  destruct (reachable_ok w H) as [_ Hp Hw _]. cbn [step] in Hstep. rewrite Ht in Hstep.
  assert (wg (sess w) = 0) as E0.
  { cbn [exec step_instr] in Hstep. destruct c; try done. by destruct (Z.eqb_spec (wg (sess w)) 0). }
  intros g r seen Hg. assert (tally wg_token g = 0%nat) as Hz.
  { pose proof (tally_pool_elem wg_token (pool w) g Hg). lia. }
  assert (IWgDone ∉ g) as Hn by (intros Hin; apply (tally_elem wg_token) in Hin; cbn in Hin; lia).
  pose proof (proj1 (Forall_forall stack_ok (pool w)) Hp g Hg) as Hst.
  split; intros Hin; apply Hn; eapply writeLoop_has_done; eauto.
Qed.

End Invariant.

(** ** A run *)

Definition demo_cfg : Config := mkConfig RoleHost false true.
Definition no_exec : bytes -> result ExecCmd := fun _ => Err io_EOF.
Definition plain_q : bytes -> bytes := fun b => b.

(** The frame a peer sends for a message. *)
Definition frame_of (m : Message) : Frame :=
  match app_frame m with Ok f => f | Err _ => mkFrame 0 0 0 [] end.

(** Serve; open a stream, which the peer accepts; the write loop starts and
    waits; the peer closes its direction, which wakes the write loop to wait
    again. *)
Definition open_then_peer_close : list label :=
  [Call AServe; Call (AOpen (str "db") []); Run 2 ChRun; Run 2 (ChWrite None);
   Run 0 (ChRead (Ok (frame_of (MAppAccept (mkAppAccept 1 [] 1000))))); Run 0 ChRun; Run 0 ChRun; Run 0 ChRun;
   Run 2 ChReady; Run 2 ChRun; Run 2 ChRun; Run 2 ChRun; Run 2 ChRun;
   Run 3 ChRun;
   Run 0 (ChRead (Ok (frame_of (MAppClose (mkAppClose 1))))); Run 0 ChRun; Run 0 ChRun; Run 0 ChRun;
   Run 3 ChRun].

(** Then the caller closes its own direction and, later, the session; the
    peer hangs up and Serve returns. *)
Definition close_both : list label :=
  [Call (ACloseWrite 0); Run 4 ChRun; Run 4 (ChWrite None); Run 4 ChRun; Run 4 ChRun; Run 4 ChRun; Run 4 ChRun;
   Run 4 ChRun; Run 4 ChRun;
   Call AClose; Run 5 ChRun; Run 5 ChRun; Run 5 ChRun; Run 5 ChRun;
   Run 0 (ChRead (Err io_EOF)); Run 0 ChRun; Run 0 ChRun; Run 1 ChStop].

Definition demo_run (ls : list label) : World := default world0 (run demo_cfg plain_q no_exec ls world0).

Definition demo_world : World := demo_run open_then_peer_close.

Lemma demo_reachable : reachable demo_cfg plain_q no_exec demo_world.
Proof. exists open_then_peer_close. vm_compute. reflexivity. Qed.

Lemma session_limits_witness :
  reachable demo_cfg plain_q no_exec demo_world
  /\ size (streams (sess demo_world)) = 1%nat
  /\ Z.of_nat (size (streams (sess demo_world))) <= AppMaxStreams.
Proof.
  split; [exact demo_reachable|]. split; [vm_compute; reflexivity|].
  apply (session_limits demo_cfg plain_q no_exec demo_world demo_reachable).
Defined.

Lemma no_double_close_witness :
  reachable demo_cfg plain_q no_exec demo_world /\ wg (sess demo_world) = 1
  /\ wg (sess demo_world) = Z.of_nat (tally_pool wg_token (pool demo_world)).
Proof.
  split; [exact demo_reachable|]. split; [vm_compute; reflexivity|].
  apply (no_double_close demo_cfg plain_q no_exec demo_world demo_reachable).
Defined.

Lemma observer_exactly_once_witness :
  reachable demo_cfg plain_q no_exec demo_world /\ obs 0 (notes (sess demo_world)) = [StreamOpened 0]
  /\ (obs 0 (notes (sess demo_world)) = [] \/ obs 0 (notes (sess demo_world)) = [StreamOpened 0]
      \/ obs 0 (notes (sess demo_world)) = [StreamOpened 0; StreamClosed 0]).
Proof.
  split; [exact demo_reachable|]. split; [vm_compute; reflexivity|].
  apply (observer_exactly_once demo_cfg plain_q no_exec demo_world demo_reachable 0).
Defined.

Lemma stream_ids_witness :
  reachable demo_cfg plain_q no_exec demo_world /\ nextID (sess demo_world) = 1
  /\ 0 <= nextID (sess demo_world) <= maxLocalStreamID.
Proof.
  split; [exact demo_reachable|]. split; [vm_compute; reflexivity|].
  apply (stream_ids demo_cfg plain_q no_exec demo_world demo_reachable).
Defined.

(** A session closed with no write loop left. *)
Definition early_close : list label := [Call AClose; Run 0 ChRun; Run 0 ChRun; Run 0 ChRun; Run 0 ChRun].

Lemma Close_waits_for_write_loops_witness :
  let w := demo_run early_close in
  pool w !! 0%nat = Some [IWgWait; IReturn 0 RNil]
  /\ (IWriteLoop 0 ∉ [IWgWait; IReturn 0 RNil]).
Proof.
  cbn zeta.
  assert (reachable demo_cfg plain_q no_exec (demo_run early_close)) as Hr
    by (exists early_close; vm_compute; reflexivity).
  assert (pool (demo_run early_close) !! 0%nat = Some [IWgWait; IReturn 0 RNil]) as Ht by (vm_compute; reflexivity).
  split; [exact Ht|].
  apply (Close_waits_for_write_loops demo_cfg plain_q no_exec (demo_run early_close)
    (default world0 (step demo_cfg plain_q no_exec (Run 0 ChRun) (demo_run early_close)))
    0 ChRun [IReturn 0 RNil] Hr Ht ltac:(vm_compute; reflexivity) [IWgWait; IReturn 0 RNil] 0%nat 0%nat).
  apply list_elem_of_lookup_2 with 0%nat. exact Ht.
Defined.

Definition hung_world : World := demo_run (open_then_peer_close ++ close_both).

(** C35: [Session.Close] can block forever.  When the peer closes a stream
    first and the caller then closes it with an empty send queue,
    [CloseWrite] sets [closeAfterFlush] and finishes the stream without a
    Broadcast: the stream leaves the table with its write loop asleep in
    [cond.Wait], [fail] never resets it, and [Close] waits for it in
    [wg.Wait].  In the state reached no goroutine can take any step, whatever
    the environment answers, and [Close] has not returned. *)
Theorem Close_can_hang :
  reachable demo_cfg plain_q no_exec hung_world
  /\ (forall t c, step demo_cfg plain_q no_exec (Run t c) hung_world = None)
  /\ closed (sess hung_world) = true /\ streams (sess hung_world) = ∅
  /\ pool hung_world !! 3%nat = Some [IWriteLoopWait 0 1; IWgDone]
  /\ pool hung_world !! 5%nat = Some [IWgWait; IReturn 3 RNil].
Proof.
  assert (pool hung_world = [[]; []; []; [IWriteLoopWait 0 1; IWgDone]; []; [IWgWait; IReturn 3 RNil]]) as Ep
    by (vm_compute; reflexivity).
  split; [exists (open_then_peer_close ++ close_both); vm_compute; reflexivity|]. split.
  { intros t c. cbn [step]. rewrite Ep.
    destruct t as [|[|[|[|[|[|t]]]]]]; cbn [lookup list_lookup]; try reflexivity; destruct c; vm_compute; reflexivity. }
  rewrite Ep. split_and!; vm_compute; reflexivity.
Qed.
