(* ===== verification/Ledger.v ===== *)
(** * The buffer ledger and the stream invariant inside the session

    [Stream.v] proves its invariant for any order of locked sections that
    respects [section_pre]; here the session's goroutines are shown to respect
    it under every interleaving, so the stream invariant holds of every
    stream object of every reachable session.  The same argument makes the
    session's [buffered] counter exact: it is the sum of what the streams
    hold and of the releases still to be made.

    A stream is read or written only by callers it was handed to, and is
    handed out by the one goroutine that opens it.  [own] counts the steps
    that can still open a stream, [acc] the steps that still have to accept it,
    [det] the steps that still have to take its bytes, [pend] the bytes a
    goroutine took out of a stream and has not released yet. *)
From Stdlib Require Import ZArith Lia.
From stdpp Require Import base list gmap strings.
From S2P Require Import Prelude GoIO Wire Frame MsgApp Exec Registry Stream Session SessionInv.

Open Scope Z_scope.

(** ** Tokens *)

Definition own (r : nat) (i : instr) : nat :=
  match i with
  | IAcceptOpen r' _ | IAcceptReady r' _ _ | IOpenSelect _ r' | IOpenResult _ r' | IMarkOpened r' =>
      b2n (r =? r')%nat
  | _ => 0
  end.

Definition acc (r : nat) (i : instr) : nat :=
  match i with IAcceptOpen r' _ | IAcceptReady r' _ _ => b2n (r =? r')%nat | _ => 0 end.

Definition det (r : nat) (i : instr) : nat :=
  match i with IDetach r' | IDetachBytes r' => b2n (r =? r')%nat | _ => 0 end.

Definition pend (i : instr) : nat := match i with IReleaseBuffer n => Z.to_nat n | _ => 0 end.

(** ** The object invariant *)

(** Both ends of the life of a stream: reset, or closed and drained. *)
Definition settled (st : Stream) : Prop := reset st = true \/ maybeFinish_done st = true.

(** Nobody can open the stream any more: [o] counts the goroutines that could. *)
Definition orphan (o : nat) (st : Stream) : Prop :=
  opened st = false /\ (o = 0%nat \/ is_Some (openErr st)).

Definition closing (o : nat) (st : Stream) : Prop := settled st \/ orphan o st.

(** Handed to a caller. *)
Definition given (st : Stream) : Prop := opened st = true \/ finished st = true.

(** What [releaseBuffer] is owed for the stream. *)
Definition held_bytes (st : Stream) : Z := sendBytes st + inBytes st.

Record obj_inv (o a d : nat) (st : Stream) : Prop := {
  oi_wf : stream_wf st;
  oi_exact : in_exact st \/ orphan o st;
  oi_own : (o + b2n (opened st) <= 1)%nat;
  oi_acc : (a <= b2n (accepting st))%nat;
  oi_accepting : accepting st = true -> openErr st = None;
  oi_opened : opened st = true -> opening st = false /\ openErr st = None;
  oi_unopened : opened st = false ->
    sendQ st = [] /\ closeAfterFlush st = false /\ localClosed st = false;
  oi_finished : finished st = true -> settled st /\ (held_bytes st = 0 \/ (1 <= d)%nat) }.

(** ** The session invariant

    [T f] is the number of tokens [f] in all goroutines. *)
Record ledger (T : (instr -> nat) -> nat) (s : Session) : Prop := {
  l_objs : forall r st, objs s !! r = Some st -> obj_inv (T (own r)) (T (acc r)) (T (det r)) st;
  l_fresh : forall r, (length (objs s) <= r)%nat -> T (own r) = 0%nat /\ T (acc r) = 0%nat;
  l_sum : closed s = false ->
    buffered s = foldr Z.add 0 (held_bytes <$> objs s) + Z.of_nat (T pend) }.

(** ** What a step relies on *)

Definition at_obj (s : Session) (r : nat) (P : Stream -> Prop) : Prop :=
  exists st, objs s !! r = Some st /\ P st.

(** [resets]: the streams that a step before this one in the stack resets. *)
Definition fact (T : (instr -> nat) -> nat) (s : Session) (resets : list nat) (i : instr) : Prop :=
  match i with
  | IDetach r | IDetachBytes r => at_obj s r (closing (T (own r)))
  | IFinish r => r ∈ resets \/ at_obj s r settled
  | IMarkOpened r => at_obj s r (fun st => opening st = false /\ openErr st = None)
  | IOpenResult _ r => at_obj s r (fun st => opening st = false)
  | IWrite _ r p => at_obj s r given /\ zlen p < 2 ^ 63
  | IRead _ r n | IReadWait _ r n _ => at_obj s r given /\ 0 <= n
  | ICloseWrite _ r => at_obj s r given
  | IZeroBuffered => closed s = true
  | _ => True
  end.

Definition resets_of (i : instr) : list nat := match i with ISetReset r _ _ => [r] | _ => [] end.

Fixpoint facts (T : (instr -> nat) -> nat) (s : Session) (resets : list nat) (g : list instr) : Prop :=
  match g with
  | [] => True
  | i :: rest => fact T s resets i /\ facts T s (resets_of i ++ resets) rest
  end.

Lemma fact_weaken T s a b i : (forall r, r ∈ a -> r ∈ b) -> fact T s a i -> fact T s b i.
Proof. intros Hab. destruct i; try done. intros [?|?]; [left|right]; auto. Qed.

Lemma facts_weaken T s a b g : (forall r, r ∈ a -> r ∈ b) -> facts T s a g -> facts T s b g.
Proof.
  revert a b; induction g as [|i g IH]; intros a b Hab; [done|]. intros [Hi Hg]. split; [by apply (fact_weaken T s a)|].
  eapply IH; [|done]. intros r [?|?]%elem_of_app; apply elem_of_app; auto.
Qed.

Lemma facts_app T s a g h : facts T s a g -> facts T s a h -> facts T s a (g ++ h).
Proof.
  revert a; induction g as [|i g IH]; intros a; [done|]. intros [Hi Hg] Hh. split; [done|]. apply IH; [done|].
  eapply facts_weaken; [|done]. intros r ?. apply elem_of_app. auto.
Qed.

(** A reset that has happened need not be assumed. *)
Lemma facts_discharge T s r b g :
  at_obj s r (fun st => reset st = true) -> forall a, facts T s (a ++ r :: b) g -> facts T s (a ++ b) g.
Proof.
  intros Hr. induction g as [|i g IH]; intros a; [done|]. intros [Hi Hg]. split.
  - destruct i; try done. destruct Hi as [Hi|Hi]; [|by right].
    apply elem_of_app in Hi as [Hi|[->|Hi]%elem_of_cons]; [left; apply elem_of_app; auto| |left; apply elem_of_app; auto].
    right. destruct Hr as (st & E & Hr). exists st. split; [done|by left].
  - rewrite app_assoc in Hg |- *. by apply IH.
Qed.

(** What a step of one goroutine leaves to the others. *)
Record obj_mono (o o' : nat) (st st' : Stream) : Prop := {
  om_closing : closing o st -> closing o' st';
  om_settled : settled st -> settled st';
  om_opening : opening st = false -> opening st' = false /\ openErr st' = openErr st;
  om_given : given st -> given st' }.

Record keeps (T : (instr -> nat) -> nat) (s : Session) (T' : (instr -> nat) -> nat) (s' : Session) : Prop := {
  k_objs : forall r st, objs s !! r = Some st ->
    exists st', objs s' !! r = Some st' /\ obj_mono (T (own r)) (T' (own r)) st st';
  k_closed : closed s = true -> closed s' = true }.

Lemma fact_keeps T s T' s' a i : keeps T s T' s' -> fact T s a i -> fact T' s' a i.
Proof.
  intros [Hk Hc]. assert (forall r (P Q : Stream -> Prop),
    (forall st st', obj_mono (T (own r)) (T' (own r)) st st' -> P st -> Q st') -> at_obj s r P -> at_obj s' r Q) as Hat.
  { intros r P Q HPQ (st & E & HP). destruct (Hk r st E) as (st' & E' & Hm). exists st'. eauto. }
  destruct i; cbn [fact]; auto.
  - apply Hat. intros st st' Hm Ho. by apply Hm.
  - apply Hat. intros st st' Hm. apply Hm.
  - apply Hat. intros st st' Hm. apply Hm.
  - intros [?|Hs]; [by left|right]. revert Hs. apply Hat. intros st st' Hm. apply Hm.
  - apply Hat. intros st st' Hm [Ho He]. destruct (om_opening _ _ _ _ Hm Ho) as [? ->]. done.
  - intros [Hg Hp]. split; [|done]. revert Hg. apply Hat. intros st st' Hm. apply Hm.
  - intros [Hg Hp]. split; [|done]. revert Hg. apply Hat. intros st st' Hm. apply Hm.
  - intros [Hg Hp]. split; [|done]. revert Hg. apply Hat. intros st st' Hm. apply Hm.
  - apply Hat. intros st st' Hm. apply Hm.
Qed.

Lemma facts_keeps T s T' s' g : keeps T s T' s' -> forall a, facts T s a g -> facts T' s' a g.
Proof.
  intros Hk. induction g as [|i g IH]; intros a; [done|]. intros [Hi Hg]. split; [by apply (fact_keeps T s)|auto].
Qed.

(** ** Sections that leave the tokens alone *)

Definition quiet_pre (c : section) (st : Stream) : Prop :=
  match c with
  | SecMarkOpened | SecFinish | SecDetach | SecAcceptOpen => False
  | SecHandleAccept grant _ => 0 < grant <= AppMaxCredit
  | SecWrite p _ => given st /\ 0 < zlen p < 2 ^ 63
  | SecRead n => given st /\ 0 < n
  | SecCloseWrite => given st
  | _ => True
  end.

Lemma done_spec st :
  maybeFinish_done st = true <-> localClosed st = true /\ remoteClosed st = true /\ sendQ st = [] /\ inQ st = [].
Proof. unfold maybeFinish_done. rewrite !andb_true_iff, !bool_decide_eq_true. tauto. Qed.

Lemma settled_spec st :
  settled st <-> reset st = true
    \/ localClosed st = true /\ remoteClosed st = true /\ sendQ st = [] /\ inQ st = [].
Proof. unfold settled. by rewrite done_spec. Qed.

(** A caller's stream that is not settled is open. *)
Lemma given_opened o a d st : obj_inv o a d st -> given st -> ~ settled st -> opened st = true.
Proof. intros Hi [?|Hf] Hs; [done|]. by destruct (oi_finished _ _ _ _ Hi Hf). Qed.

Lemma not_orphan o st : opened st = true -> ~ orphan o st.
Proof. intros Ho [Hf _]. congruence. Qed.

(** The parts of the invariant a section has to show when it changes neither
    the flags of the life cycle nor the counters of a finished stream. *)
Lemma obj_inv_change o a d st st' :
  obj_inv o a d st -> stream_wf st' -> (in_exact st -> in_exact st') ->
  opened st' = opened st -> finished st' = finished st -> accepting st' = accepting st ->
  (opening st = false -> opening st' = false /\ openErr st' = openErr st) ->
  (openErr st' = openErr st \/ opening st = true /\ is_Some (openErr st')) ->
  (opened st = false -> sendQ st' = sendQ st /\ closeAfterFlush st' = closeAfterFlush st
     /\ localClosed st' = localClosed st) ->
  (settled st -> settled st' /\ held_bytes st' = held_bytes st) ->
  obj_inv o a d st' /\ obj_mono o o st st'.
Proof.
  intros Hi W Hx Eo Ef Ea Hop Her Hun Hs. pose proof Hi as [I1 I2 I3 I4 I5 I6 I7 I8].
  assert (orphan o st -> orphan o st') as Horph.
  { intros [H1 H2]. split; [by rewrite Eo|]. destruct Her as [->|[_ ?]]; auto. }
  split.
  - constructor; rewrite ?Eo, ?Ef, ?Ea; try done.
    + destruct I2; auto.
    + intros Ha. destruct Her as [->|[H1 _]]; [auto|]. rewrite (wf_opening _ I1 H1) in Ha. done.
    + intros Ho. destruct (I6 Ho) as [H1 H2]. destruct (Hop H1) as [-> ->]. done.
    + intros Ho. destruct (Hun Ho) as (-> & -> & ->). auto.
    + intros Hf. destruct (I8 Hf) as [H1 H2]. destruct (Hs H1) as [H3 ->]. done.
  - constructor; [|intros H; apply Hs, H|done|].
    + intros [H|H]; [left; apply Hs, H|right; auto].
    + unfold given. by rewrite Eo, Ef.
Qed.

Lemma obj_inv_same o a d st : obj_inv o a d st -> obj_inv o a d st /\ obj_mono o o st st.
Proof. intros H. split; [done|]. by constructor. Qed.

Lemma quiet_Write p b o a d st :
  obj_inv o a d st -> given st -> 0 < zlen p < 2 ^ 63 ->
  obj_inv o a d (Write_locked p b st).2 /\ obj_mono o o st (Write_locked p b st).2.
Proof.
  intros Hi Hg Hp. pose proof (oi_wf _ _ _ _ Hi) as W. pose proof (Write_wf p b st Hp W) as W'.
  destruct (Write_locked p b st) as [dec st'] eqn:E. cbn [snd] in *.
  destruct (decide (dec = WR_ok)) as [->|Hn]; [|rewrite (Write_refused _ _ _ _ _ E Hn); by apply obj_inv_same].
  destruct (wf_sendBytes _ W) as (? & ? & _).
  apply Write_ok in E as (-> & Hr & Hl & Hc & Hle & ->); [|done|lia].
  assert (~ settled st) as Hns by (rewrite settled_spec; intros [?|(? & ? & ? & ?)]; congruence).
  pose proof (given_opened _ _ _ _ Hi Hg Hns) as Ho.
  apply obj_inv_change; auto; try done. intros Hf. congruence.
Qed.

Lemma quiet_CloseWrite o a d st :
  obj_inv o a d st -> given st ->
  obj_inv o a d (CloseWrite_locked st).2 /\ obj_mono o o st (CloseWrite_locked st).2.
Proof.
  intros Hi Hg. pose proof (oi_wf _ _ _ _ Hi) as W. unfold CloseWrite_locked.
  destruct (reset st) eqn:Hr; [by apply obj_inv_same|].
  destruct (localClosed st) eqn:Hl; [by apply obj_inv_same|].
  destruct (closeAfterFlush st) eqn:Hc; [by apply obj_inv_same|]. cbn [orb].
  assert (~ settled st) as Hns by (rewrite settled_spec; intros [?|(? & ? & ? & ?)]; congruence).
  pose proof (given_opened _ _ _ _ Hi Hg Hns) as Ho.
  cbn. case_match; (apply obj_inv_change; auto; try done; [by destruct W; constructor|intros; congruence]).
Qed.

(** A caller that gets data reads an open, exact stream. *)
Lemma Read_data_exact n x st' o a d st :
  obj_inv o a d st -> given st -> 0 < n -> Read_locked n st = (RD_data x, st') ->
  opened st = true /\ in_exact st /\ ~ settled st.
Proof.
  intros Hi Hg Hn E. apply Read_data in E as (Hr & Hd & Hcat & _); [|apply wf_inQ, Hi|done].
  assert (~ settled st) as Hns.
  { rewrite settled_spec, Hr. intros [?|(_ & _ & _ & Hq)]; [done|]. rewrite Hq in Hcat. cbn in Hcat.
    symmetry in Hcat. apply app_eq_nil in Hcat as [-> _]. destruct Hd as [Hd _]. by vm_compute in Hd. }
  pose proof (given_opened _ _ _ _ Hi Hg Hns) as Ho. split_and!; try done.
  destruct (oi_exact _ _ _ _ Hi) as [Hx|Hx]; [done|by apply not_orphan in Hx].
Qed.

Lemma Read_no_data n dec st st' : Read_locked n st = (dec, st') -> (forall x, dec <> RD_data x) -> st' = st.
Proof. intros E Hd. unfold Read_locked in E. repeat case_match; simplify_eq; try done; by edestruct Hd. Qed.

Lemma quiet_Read n o a d st :
  obj_inv o a d st -> given st -> 0 < n ->
  obj_inv o a d (Read_locked n st).2 /\ obj_mono o o st (Read_locked n st).2.
Proof.
  intros Hi Hg Hn. pose proof (oi_wf _ _ _ _ Hi) as W. pose proof (Read_wf n st Hn W) as HR.
  destruct (Read_locked n st) as [dec st'] eqn:E. cbn [snd] in *.
  destruct dec as [|x| |]; try (rewrite (Read_no_data _ _ _ _ E) by done; by apply obj_inv_same).
  destruct (Read_data_exact _ _ _ _ _ _ _ Hi Hg Hn E) as (Ho & Hx & Hns). destruct (HR Hx) as [W' Hx'].
  apply Read_data in E as (Hr & Hd & Hcat & HF & q & ->); [|by apply wf_inQ|done].
  apply obj_inv_change; auto; done.
Qed.

Lemma quiet_deliver x b o a d st :
  obj_inv o a d st ->
  obj_inv o a d (deliver_locked x b st).2 /\ obj_mono o o st (deliver_locked x b st).2.
Proof.
  intros Hi. pose proof (oi_wf _ _ _ _ Hi) as W. pose proof (deliver_wf x b st W) as W'.
  pose proof (deliver_exact x b st W) as Hx.
  destruct (deliver_locked x b st) as [dec st'] eqn:E. cbn [snd] in *.
  destruct (decide (dec = DL_ok)) as [->|Hn]; [|rewrite (deliver_rejected _ _ _ _ _ E Hn); by apply obj_inv_same].
  apply deliver_ok in E as (-> & Ha & Ho & Hc & Hr & Hd & Hle & ->); [|apply wf_win_bounds, W].
  assert (~ settled st) as Hns by (rewrite settled_spec; intros [?|(? & ? & ? & ?)]; congruence).
  apply obj_inv_change; auto; done.
Qed.

Lemma quiet_writeLoop o a d st :
  obj_inv o a d st -> obj_inv o a d (writeLoop_locked st).2 /\ obj_mono o o st (writeLoop_locked st).2.
Proof.
  intros Hi. pose proof (oi_wf _ _ _ _ Hi) as W. pose proof (writeLoop_wf st W) as W'.
  destruct (writeLoop_locked st) as [dec st'] eqn:E. cbn [snd] in *.
  destruct dec as [|x| |seen].
  - assert (st' = st) as -> by (unfold writeLoop_locked in E; repeat case_match; by simplify_eq).
    by apply obj_inv_same.
  - assert (reset st = false /\ sendQ st <> []) as [Hr Hq].
    { unfold writeLoop_locked in E. repeat case_match; by simplify_eq. }
    apply writeLoop_send in E as (Hd & Hc & Hcat & HF & q & ->); [|by apply wf_sendQ|by apply wf_credit].
    assert (opened st = true) as Ho.
    { destruct (opened st) eqn:Ho; [done|]. by destruct (oi_unopened _ _ _ _ Hi Ho). }
    assert (~ settled st) as Hns by (rewrite settled_spec; intros [?|(? & ? & ? & ?)]; congruence).
    apply obj_inv_change; auto; try done. intros; congruence.
  - assert (st' = set_localClosed true st /\ closeAfterFlush st = true) as [-> Hc].
    { unfold writeLoop_locked in E. repeat case_match; by simplify_eq. }
    assert (opened st = true) as Ho.
    { destruct (opened st) eqn:Ho; [done|]. destruct (oi_unopened _ _ _ _ Hi Ho) as (_ & ? & _). congruence. }
    apply obj_inv_change; auto; try done; [intros; congruence|].
    rewrite !settled_spec. cbn. split; [tauto|done].
  - assert (st' = st) as -> by (unfold writeLoop_locked in E; repeat case_match; by simplify_eq).
    by apply obj_inv_same.
Qed.

Lemma quiet_section c o a d st :
  quiet_pre c st -> obj_inv o a d st -> obj_inv o a d (run_section c st) /\ obj_mono o o st (run_section c st).
Proof.
  intros Hp Hi. pose proof (oi_wf _ _ _ _ Hi) as W. destruct c; cbn [quiet_pre run_section] in *; try done.
  - apply obj_inv_change; auto; try done. by destruct W; constructor.
  - apply obj_inv_change; auto; try done. by destruct W; constructor.
  - pose proof (setReset_wf code message st W) as W'. revert W'. unfold setReset_locked.
    destruct (reset st) eqn:Er; [intros _; by apply obj_inv_same|]. cbn.
    destruct (opening st) eqn:Eo; intros W'; apply obj_inv_change; auto; try done.
    all: try (intros _; split; [by left|done]). all: intros Hx; unfold in_exact; done.
  - apply obj_inv_change; auto; try done. by destruct W; constructor.
  - unfold handleAccept_locked. destruct (opening st) eqn:Eo; [|by apply obj_inv_same].
    apply obj_inv_change; auto; try done. destruct W. constructor; cbn; done || lia.
  - unfold handleReject_locked. destruct (opening st) eqn:Eo; [|by apply obj_inv_same].
    apply obj_inv_change; auto; try done; [by destruct W; constructor|by rewrite Eo].
  - apply obj_inv_change; auto; try done. by destruct W; constructor.
  - by apply quiet_writeLoop.
  - destruct Hp. by apply quiet_Write.
  - by apply quiet_CloseWrite.
  - destruct Hp. by apply quiet_Read.
  - by apply quiet_deliver.
  - pose proof (addCredit_wf n st W) as W'. revert W'. unfold addCredit_locked.
    repeat case_match; intros W'; try (by apply obj_inv_same). apply obj_inv_change; auto; done.
  - unfold remoteClose_locked. case_match; [by apply obj_inv_same|].
    apply obj_inv_change; auto; try done; [by destruct W; constructor|].
    rewrite !settled_spec. cbn. split; [tauto|done].
Qed.

(** ** Steps *)

Lemma sum_insert {A} (f : A -> Z) l r x y :
  l !! r = Some x -> foldr Z.add 0 (f <$> <[r := y]> l) = foldr Z.add 0 (f <$> l) - f x + f y.
Proof.
  revert r; induction l as [|z l IH]; intros [|r] H; simplify_eq/=; [lia|]. rewrite (IH r H). lia.
Qed.

Lemma sum_snoc {A} (f : A -> Z) l x : foldr Z.add 0 (f <$> l ++ [x]) = foldr Z.add 0 (f <$> l) + f x.
Proof. induction l as [|y l IH]; cbn; [lia|]. rewrite IH. lia. Qed.

(** A goroutine goes from stack [old] to [new] and starts [gs]. *)
Record balanced (T T' : (instr -> nat) -> nat) (old new : list instr) (gs : list (list instr)) : Prop := {
  bal_old : forall f, (tally f old <= T f)%nat;
  bal_new : forall f, (T' f + tally f old = T f + tally f new + tally_pool f gs)%nat }.

Record fair (T T' : (instr -> nat) -> nat) (s : Session) (new : list instr) (gs : list (list instr)) (s' : Session) :
    Prop := {
  fr_ledger : ledger T' s';
  fr_keeps : keeps T s T' s';
  fr_new : facts T' s' [] new;
  fr_gs : Forall (facts T' s' []) gs }.

(** Tokens that a step of another stream can only bring down (or, for [det],
    only up). *)
Definition tok_le (T T' : (instr -> nat) -> nat) (r : nat) : Prop :=
  (T' (own r) <= T (own r))%nat /\ (T' (acc r) <= T (acc r))%nat /\ (T (det r) <= T' (det r))%nat.

Lemma obj_inv_le o o' a a' d d' st :
  (o' <= o)%nat -> (a' <= a)%nat -> (d <= d')%nat -> obj_inv o a d st -> obj_inv o' a' d' st /\ obj_mono o o' st st.
Proof.
  intros Ho Ha Hd [I1 I2 I3 I4 I5 I6 I7 I8].
  assert (orphan o st -> orphan o' st) as Horph.
  { intros [H1 H2]. split; [done|]. destruct H2; [left; lia|by right]. }
  split; constructor; try done; try lia.
  - destruct I2; auto.
  - intros Hf. destruct (I8 Hf) as [H1 [H2|H2]]; split; auto. right. lia.
  - intros [H|H]; [by left|right; auto].
Qed.

(** A step on one object. *)
Lemma ledger_obj T T' r st st' s s' :
  ledger T s -> objs s !! r = Some st -> objs s' = <[r := st']> (objs s) -> closed s' = closed s ->
  (forall r', r' <> r -> tok_le T T' r') ->
  obj_inv (T' (own r)) (T' (acc r)) (T' (det r)) st' /\ obj_mono (T (own r)) (T' (own r)) st st' ->
  (closed s = false ->
    buffered s' - held_bytes st' - Z.of_nat (T' pend) = buffered s - held_bytes st - Z.of_nat (T pend)) ->
  ledger T' s' /\ keeps T s T' s'.
Proof.
  intros [L1 L2 L3] Hr Eo Ec Htok [Hinv Hm] Hsum. pose proof (lookup_lt_Some _ _ _ Hr) as Hlt. split; constructor.
  - intros r' x. rewrite Eo. intros [(-> & <- & _)|[Hne E]]%list_lookup_insert_Some; [done|].
    destruct (Htok r') as (H1 & H2 & H3); [done|]. by eapply obj_inv_le; [..|apply L1].
  - intros r'. rewrite Eo, length_insert. intros Hge. destruct (L2 r' Hge). destruct (Htok r') as (H1 & H2 & _); lia.
  - rewrite Ec. intros Hc. specialize (Hsum Hc). specialize (L3 Hc). rewrite Eo, (sum_insert _ _ _ _ _ Hr). lia.
  - intros r' x E. rewrite Eo. destruct (decide (r' = r)) as [->|Hne].
    + rewrite list_lookup_insert_eq by done. exists st'. simplify_eq. done.
    + rewrite list_lookup_insert_ne by done. exists x. split; [done|].
      destruct (Htok r') as (H1 & H2 & H3); [done|]. by eapply obj_inv_le; [..|apply L1].
  - congruence.
Qed.

(** A step on no object. *)
Lemma ledger_same T T' s s' :
  ledger T s -> objs s' = objs s -> (forall r, tok_le T T' r) ->
  (closed s = true -> closed s' = true) ->
  (closed s' = false -> closed s = false /\ buffered s' - Z.of_nat (T' pend) = buffered s - Z.of_nat (T pend)) ->
  ledger T' s' /\ keeps T s T' s'.
Proof.
  intros [L1 L2 L3] Eo Htok Hc Hsum. split; constructor; rewrite ?Eo; try done.
  - intros r st E. destruct (Htok r) as (H1 & H2 & H3). by eapply obj_inv_le; [..|apply L1].
  - intros r Hge. destruct (L2 r Hge). destruct (Htok r) as (H1 & H2 & _); lia.
  - intros Hc'. destruct (Hsum Hc') as [Hc0 ?]. specialize (L3 Hc0). lia.
  - intros r st E. exists st. split; [done|].
    destruct (Htok r) as (H1 & H2 & H3). by eapply obj_inv_le; [..|apply L1].
Qed.

(** Steps that carry no token but bytes to release. *)
Definition tokenless (i : instr) : bool :=
  match i with
  | IAcceptOpen _ _ | IAcceptReady _ _ _ | IOpenSelect _ _ | IOpenResult _ _ | IMarkOpened _
  | IDetach _ | IDetachBytes _ => false
  | _ => true
  end.

Definition tracked (f : instr -> nat) : Prop := exists r, f = own r \/ f = acc r \/ f = det r.

Lemma tokenless_tally f g : tracked f -> forallb tokenless g = true -> tally f g = 0%nat.
Proof.
  intros Hf. induction g as [|i g IH]; [done|]. cbn [forallb]. intros [Hi Hg]%andb_true_iff.
  rewrite tally_cons, IH by done. rewrite Nat.add_0_r.
  destruct Hf as (r & [->|[->| ->]]); by destruct i.
Qed.

Lemma own_tracked r : tracked (own r). Proof. unfold tracked; eauto. Qed.
Lemma acc_tracked r : tracked (acc r). Proof. unfold tracked; eauto. Qed.
Lemma det_tracked r : tracked (det r). Proof. unfold tracked; eauto. Qed.

(** A step that pushes no token: all totals stay but for its own. *)
Lemma balanced_push T T' i rest todo f :
  balanced T T' (i :: rest) (todo ++ rest) [] -> (T' f + f i = T f + tally f todo)%nat.
Proof. intros [_ H]. specialize (H f). rewrite tally_cons, tally_app in H. cbn in H. lia. Qed.

Lemma balanced_quiet T T' i rest todo f :
  balanced T T' (i :: rest) (todo ++ rest) [] -> tokenless i = true -> forallb tokenless todo = true ->
  tracked f -> T' f = T f.
Proof.
  intros Hb Hi Ht Hf. pose proof (balanced_push T T' i rest todo f Hb) as E.
  rewrite (tokenless_tally f todo) in E by done.
  pose proof (tokenless_tally f [i] Hf) as Ei. cbn in Ei. rewrite andb_true_r in Ei. specialize (Ei Hi). lia.
Qed.

Lemma fair_push T T' i rest todo s s' :
  facts T s [] (i :: rest) -> resets_of i = [] -> ledger T' s' /\ keeps T s T' s' -> facts T' s' [] todo ->
  fair T T' s (todo ++ rest) [] s'.
Proof.
  intros [_ Hrest] Hi [HL HK] Ht. rewrite Hi in Hrest. constructor; try done.
  apply facts_app; [done|]. by apply (facts_keeps T s).
Qed.

(** The common case: a section of one stream, no token moved. *)
Lemma fair_quiet T T' i rest todo c r st st' s s' :
  ledger T s -> facts T s [] (i :: rest) -> resets_of i = [] ->
  balanced T T' (i :: rest) (todo ++ rest) [] -> tokenless i = true -> forallb tokenless todo = true ->
  objs s !! r = Some st -> quiet_pre c st -> run_section c st = st' -> objs s' = <[r := st']> (objs s) -> closed s' = closed s ->
  (closed s = false -> buffered s' - held_bytes st' - Z.of_nat (tally pend todo)
     = buffered s - held_bytes st - Z.of_nat (pend i)) ->
  facts T' s' [] todo ->
  fair T T' s (todo ++ rest) [] s'.
Proof.
  intros HL HF Hi HB Hti Htt Hr Hp <- Eo Ec Hsum Ht. apply (fair_push T T' i); try done.
  assert (forall f, tracked f -> T' f = T f) as HT by (intros f Hf; by apply (balanced_quiet T T' i rest todo)).
  apply (ledger_obj T T' r st (run_section c st)); try done.
  - intros r' _. unfold tok_le. rewrite !HT by auto using own_tracked, acc_tracked, det_tracked. lia.
  - rewrite !HT by auto using own_tracked, acc_tracked, det_tracked. apply quiet_section; [done|]. by apply HL.
  - intros Hc. specialize (Hsum Hc). pose proof (balanced_push T T' i rest todo pend HB). lia.
Qed.

(** A step on no object, no token moved. *)
Lemma fair_idle T T' i rest todo s s' :
  ledger T s -> facts T s [] (i :: rest) -> resets_of i = [] ->
  balanced T T' (i :: rest) (todo ++ rest) [] -> tokenless i = true -> forallb tokenless todo = true ->
  objs s' = objs s -> closed s' = closed s ->
  (closed s = false -> buffered s' - Z.of_nat (tally pend todo) = buffered s - Z.of_nat (pend i)) ->
  facts T' s' [] todo ->
  fair T T' s (todo ++ rest) [] s'.
Proof.
  intros HL HF Hi HB Hti Htt Eo Ec Hsum Ht. apply (fair_push T T' i); try done.
  assert (forall f, tracked f -> T' f = T f) as HT by (intros f Hf; by apply (balanced_quiet T T' i rest todo)).
  apply ledger_same; try done; [|congruence|].
  - intros r'. unfold tok_le. rewrite !HT by auto using own_tracked, acc_tracked, det_tracked. lia.
  - rewrite Ec. intros Hc. specialize (Hsum Hc). pose proof (balanced_push T T' i rest todo pend HB). split; [done|lia].
Qed.

(** ** Data in and out *)

Lemma reserveBuffer_spec n s b s' :
  0 <= buffered s <= AppMaxBuffered -> 0 <= n < 2 ^ 63 -> reserveBuffer n s = (b, s') ->
  objs s' = objs s /\ closed s' = closed s /\ buffered s' = buffered s + (if b then n else 0).
Proof.
  destruct app_limits as (_ & _ & _ & _ & EB). intros Hb Hn. unfold reserveBuffer. rewrite to_u64_id by lia.
  case_match; intros; simplify_eq; split_and!; try done. lia.
Qed.

(** A write or a delivery reserves exactly what it adds to the stream. *)
Lemma Write_reserves p st s b s1 :
  0 <= buffered s <= AppMaxBuffered -> stream_wf st -> 0 < zlen p < 2 ^ 63 ->
  (if write_needs_buffer p st then reserveBuffer (zlen p) s else (false, s)) = (b, s1) ->
  objs s1 = objs s /\ closed s1 = closed s
  /\ buffered s1 - held_bytes (Write_locked p b st).2 = buffered s - held_bytes st.
Proof.
  intros Hb W Hp. unfold write_needs_buffer, Write_locked. destruct (wf_sendBytes _ W) as (H1 & H2 & _).
  destruct app_limits as (_ & _ & _ & EQ & _). rewrite EQ in *. rewrite to_u64_id by lia.
  destruct (reset st); [by intros [= <- <-]|]. destruct (localClosed st || closeAfterFlush st); [by intros [= <- <-]|].
  destruct (1048576 <? sendBytes st + zlen p); [by intros [= <- <-]|]. cbn [negb andb].
  intros E. apply reserveBuffer_spec in E as (E1 & E2 & E3); [|done|lia].
  split_and!; try done. rewrite E3. unfold held_bytes. destruct b; cbn; lia.
Qed.

Lemma deliver_reserves x st s b s1 :
  0 <= buffered s <= AppMaxBuffered -> stream_wf st ->
  (if deliver_needs_buffer x st then reserveBuffer (zlen x) s else (false, s)) = (b, s1) ->
  objs s1 = objs s /\ closed s1 = closed s
  /\ buffered s1 - held_bytes (deliver_locked x b st).2 = buffered s - held_bytes st.
Proof.
  intros Hb W. pose proof (wf_win_bounds _ W) as [Hw1 Hw2]. pose proof (wf_inBytes _ W) as Hi.
  pose proof (zlen_nonneg x) as Hx. destruct app_limits as (EW & _ & ED & _). rewrite EW in *.
  unfold deliver_needs_buffer, deliver_locked. rewrite ED.
  destruct (Z.eqb_spec (zlen x) 0); [by intros [= <- <-]|].
  destruct (Z.ltb_spec 65536 (zlen x)); [by intros [= <- <-]|].
  destruct (accepting st || opening st); [by intros [= <- <-]|].
  destruct (remoteClosed st || reset st); [by intros [= <- <-]|].
  destruct (rcvWindow st <? to_u 32 (zlen x)); [by intros [= <- <-]|]. cbn [negb andb].
  intros E. apply reserveBuffer_spec in E as (E1 & E2 & E3); [|done|lia].
  split_and!; try done. rewrite E3. unfold held_bytes. destruct b; cbn; rewrite ?to_u64_id; lia.
Qed.

Lemma Read_releases n st x st' :
  stream_wf st -> in_exact st -> 0 < n -> Read_locked n st = (RD_data x, st') ->
  held_bytes st' + zlen x = held_bytes st.
Proof.
  intros W Hx Hn E. pose proof (wf_win_bounds _ W) as [_ Hb].
  apply Read_data in E as (Hr & Hd & Hcat & HF & q & ->); [|by apply wf_inQ|done].
  assert (qlen (inQ st) = zlen x + qlen q) as Eq by (unfold qlen; rewrite Hcat; apply zlen_app).
  pose proof (qlen_nonneg q). specialize (Hx Hr). destruct app_limits as (EW & _). rewrite EW in *.
  unfold held_bytes. cbn. rewrite to_u64_id; lia.
Qed.

Lemma writeLoop_releases st x st' :
  stream_wf st -> writeLoop_locked st = (WL_send x, st') -> held_bytes st' + zlen x = held_bytes st.
Proof.
  intros W E. assert (reset st = false) as Hr by (unfold writeLoop_locked in E; by destruct (reset st)).
  apply writeLoop_send in E as (Hd & Hc & Hcat & HF & q & ->); [|by apply wf_sendQ|by apply wf_credit].
  assert (qlen (sendQ st) = zlen x + qlen q) as Eq by (unfold qlen; rewrite Hcat; apply zlen_app).
  pose proof (qlen_nonneg q). destruct (wf_sendBytes _ W) as (H1 & H2 & H3). specialize (H3 Hr).
  destruct app_limits as (_ & _ & _ & EQ & _). rewrite EQ in *.
  unfold held_bytes. cbn. rewrite to_u64_id; lia.
Qed.

(** The teardown pushed by [resetRemote] resets before it finishes. *)
Lemma facts_resetRemote T s a r id code message g :
  facts T s (r :: a) g -> facts T s a (resetRemote r id code message ++ g).
Proof.
  intros Hg. cbn. split_and!; try done. left. by apply elem_of_cons; left.
Qed.

Section Steps.

Context (cfg : Config) (fmt_q : bytes -> bytes) (ExecCmd_UnmarshalBinary : bytes -> result ExecCmd).
Context (T T' : (instr -> nat) -> nat) (s : Session) (HL : ledger T s).
Context (Hbuf : 0 <= buffered s <= AppMaxBuffered).
Context (Hready : forall r st, objs s !! r = Some st -> (ready st + b2n (opening st) <= 1)%nat).

(** The step of [i] on top of [rest] whose result is [p]. *)
Definition fairly (i : instr) (rest : list instr) (p : progress) : Prop :=
  facts T s [] (i :: rest) -> balanced T T' (i :: rest) (pushed p ++ rest) (spawned p) ->
  fair T T' s (pushed p ++ rest) (spawned p) (after p).

Lemma obj_wf r st : objs s !! r = Some st -> stream_wf st.
Proof. intros Hr. by apply (l_objs _ _ HL) in Hr as []. Qed.

Lemma fairly_next i rest todo :
  resets_of i = [] -> tokenless i = true -> pend i = 0%nat ->
  forallb tokenless todo = true -> tally pend todo = 0%nat -> facts T' s [] todo ->
  fairly i rest (next todo s).
Proof. intros Hi Hti Hp Htt Hpt Ht HF HB. apply (fair_idle T T' i rest todo); try done. intros _. rewrite Hp, Hpt. done. Qed.

Lemma fairly_section c r st st' i rest todo s1 :
  objs s !! r = Some st -> quiet_pre c st -> run_section c st = st' ->
  objs s1 = objs s -> closed s1 = closed s -> buffered s1 - held_bytes st' - Z.of_nat (tally pend todo)
    = buffered s - held_bytes st ->
  resets_of i = [] -> tokenless i = true -> pend i = 0%nat -> forallb tokenless todo = true ->
  facts T' (set_obj r st' s1) [] todo ->
  fairly i rest (next todo (set_obj r st' s1)).
Proof.
  intros Hr Hq Hs Eo Ec Hh Hi Hti Hp Htt Ht HF HB. apply (fair_quiet T T' i rest todo c r st st'); try done.
  - cbn. by rewrite Eo.
  - intros _. rewrite Hp. cbn. lia.
Qed.

Lemma at_obj_head {P r} : at_obj s r P -> forall st, objs s !! r = Some st -> P st.
Proof. intros (st & E & H) st' E'. by simplify_eq. Qed.

Lemma at_obj_set (P : Stream -> Prop) r st st' : objs s !! r = Some st -> P st' -> at_obj (set_obj r st' s) r P.
Proof.
  intros Hr HP. exists st'. split; [|done]. cbn. apply list_lookup_insert_eq. by apply lookup_lt_Some in Hr.
Qed.

Lemma Write_fairly call r p st rest :
  objs s !! r = Some st -> fairly (IWrite call r p) rest (Stream_Write call r p st s).
Proof.
  intros Hr HF. pose proof HF as [[Hg Hp] _]. pose proof (at_obj_head Hg st Hr) as Hg'. revert HF.
  pose proof (obj_wf r st Hr) as W. pose proof (zlen_nonneg p). unfold Stream_Write.
  destruct (Z.eqb_spec (zlen p) 0); [by apply fairly_next|].
  destruct (if write_needs_buffer p st then _ else _) as [b s1] eqn:E.
  apply Write_reserves in E as (E1 & E2 & E3); [|done..|lia].
  destruct (Write_locked p b st) as [dec st'] eqn:Ew. cbn [snd] in *.
  destruct dec; apply (fairly_section (SecWrite p b) r st); try done; try (split; [done|lia]);
    try (cbn [run_section]; by rewrite Ew); try (cbn; lia); by apply facts_resetRemote.
Qed.

Lemma deliver_fairly r x st rest : objs s !! r = Some st -> fairly (IDeliver r x) rest (deliver r x st s).
Proof.
  intros Hr. pose proof (obj_wf r st Hr) as W. unfold deliver.
  destruct (if deliver_needs_buffer x st then _ else _) as [b s1] eqn:E.
  apply deliver_reserves in E as (E1 & E2 & E3); [|done..].
  destruct (deliver_locked x b st) as [dec st'] eqn:Ew. cbn [snd] in *.
  destruct dec; apply (fairly_section (SecDeliver x b) r st); try done;
    try (cbn [run_section]; by rewrite Ew); try (cbn; lia); by apply (facts_resetRemote _ _ _ _ _ _ _ []).
Qed.

Lemma pend_release (x : bytes) : Z.of_nat (pend (IReleaseBuffer (zlen x))) = zlen x.
Proof. cbn. pose proof (zlen_nonneg x). lia. Qed.

Lemma Read_fairly i call r n st rest :
  i = IRead call r n \/ (exists seen, i = IReadWait call r n seen) ->
  objs s !! r = Some st -> fairly i rest (Stream_Read call r n st s).
Proof.
  intros Hi Hr HF. assert (at_obj s r given /\ 0 <= n) as [Hg Hn].
  { destruct HF as [HF _]. by destruct Hi as [->|[? ->]]. }
  assert (resets_of i = [] /\ tokenless i = true /\ pend i = 0%nat) as (Hi1 & Hi2 & Hi3) by by destruct Hi as [->|[? ->]].
  pose proof (at_obj_head Hg st Hr) as Hg'. pose proof (obj_wf r st Hr) as W. revert HF. unfold Stream_Read.
  destruct (Z.eqb_spec n 0); [by apply fairly_next|].
  destruct (Read_locked n st) as [dec st'] eqn:E.
  destruct dec as [|x| |]; apply (fairly_section (SecRead n) r st); try done; try (split; [done|lia]);
    try (cbn [run_section]; by rewrite E); try (rewrite (Read_no_data _ _ _ _ E) by done; cbn; lia).
  2: { rewrite (Read_no_data _ _ _ _ E) by done. split; [|done]. split; [by apply (at_obj_set _ r st)|done]. }
  assert (0 < n) as Hn' by lia.
  destruct (Read_data_exact _ _ _ _ _ _ _ (l_objs _ _ HL _ _ Hr) Hg' Hn' E) as (_ & Hx & _).
  rewrite !tally_cons. pose proof (pend_release x). pose proof (Read_releases n st x st' W Hx Hn' E). cbn in *. lia.
Qed.

Lemma writeLoop_fairly i r st rest :
  i = IWriteLoop r \/ (exists seen, i = IWriteLoopWait r seen) ->
  objs s !! r = Some st -> fairly i rest (writeLoop r st s).
Proof.
  intros Hi Hr. pose proof (obj_wf r st Hr) as W. unfold writeLoop.
  assert (resets_of i = [] /\ tokenless i = true /\ pend i = 0%nat) as (Hi1 & Hi2 & Hi3) by by destruct Hi as [->|[? ->]].
  destruct (writeLoop_locked st) as [dec st'] eqn:E.
  destruct dec as [|x| |seen]; apply (fairly_section SecWriteLoop r st); try done;
    try (cbn [run_section]; by rewrite E).
  2: { rewrite !tally_cons. pose proof (pend_release x). pose proof (writeLoop_releases st x st' W E). cbn in *. lia. }
  all: unfold writeLoop_locked in E; repeat case_match; simplify_eq; unfold held_bytes; cbn; lia.
Qed.

Lemma CloseWrite_fairly call r st rest :
  objs s !! r = Some st -> fairly (ICloseWrite call r) rest (CloseWrite call r st s).
Proof.
  intros Hr HF. pose proof HF as [Hg _]. pose proof (at_obj_head Hg st Hr) as Hg'. revert HF. unfold CloseWrite.
  destruct (CloseWrite_locked st) as [dec st'] eqn:E.
  assert (held_bytes st' = held_bytes st) as Hh by (unfold CloseWrite_locked in E; repeat case_match; by simplify_eq).
  destruct dec; apply (fairly_section SecCloseWrite r st); try done; try (cbn [run_section]; by rewrite E);
    cbn; rewrite Hh; lia.
Qed.

Lemma addCredit_fairly r n st rest : objs s !! r = Some st -> fairly (IAddCredit r n) rest (addCredit r n st s).
Proof.
  intros Hr. unfold addCredit. destruct (addCredit_locked n st) as [dec st'] eqn:E.
  assert (held_bytes st' = held_bytes st) as Hh by (unfold addCredit_locked in E; repeat case_match; by simplify_eq).
  destruct dec; apply (fairly_section (SecAddCredit n) r st); try done; try (cbn [run_section]; by rewrite E);
    try (by apply (facts_resetRemote _ _ _ _ _ _ _ [])); cbn; rewrite Hh; lia.
Qed.

Lemma remoteClose_fairly r st rest : objs s !! r = Some st -> fairly (IRemoteClose r) rest (remoteClose r st s).
Proof.
  intros Hr. unfold remoteClose. destruct (remoteClose_locked st) as [dec st'] eqn:E.
  assert (held_bytes st' = held_bytes st) as Hh by (unfold remoteClose_locked in E; repeat case_match; by simplify_eq).
  destruct dec; apply (fairly_section SecRemoteClose r st); try done; try (cbn [run_section]; by rewrite E);
    cbn; rewrite Hh; lia.
Qed.

Lemma accept_locked_fairly r grant meta st rest :
  objs s !! r = Some st -> 0 < grant <= AppMaxCredit ->
  fairly (IAcceptLocked r grant meta) rest (accept_locked r grant meta st s).
Proof.
  intros Hr Hg. unfold accept_locked. destruct (handleAccept_locked grant meta st) as [b st'] eqn:E.
  assert (held_bytes st' = held_bytes st) as Hh by (unfold handleAccept_locked in E; case_match; by simplify_eq).
  apply (fairly_section (SecHandleAccept grant meta) r st); try done; try (cbn [run_section]; by rewrite E);
    destruct b; try done; cbn; lia.
Qed.

Lemma closeReady_fairly r st rest : objs s !! r = Some st -> fairly (ICloseReady r) rest (closeReady r st s).
Proof. intros Hr. apply (fairly_section SecCloseReady r st); try done. unfold held_bytes. cbn. lia. Qed.

Lemma closeEndpoint_fairly r st rest : objs s !! r = Some st -> fairly (ICloseEndpoint r) rest (closeEndpoint r st s).
Proof.
  intros Hr. apply (fairly_section SecCloseEndpoint r st); try done; destruct (ep st); try done; unfold held_bytes; cbn; lia.
Qed.

Lemma attach_fairly r e st rest :
  objs s !! r = Some st -> fairly (IAttachEndpoint r e) rest (next [] (set_obj r (attachEndpoint_locked e st) s)).
Proof. intros Hr. apply (fairly_section (SecAttach e) r st); try done. unfold held_bytes. cbn. lia. Qed.

Lemma broadcast_fairly r st rest :
  objs s !! r = Some st -> fairly (IBroadcast r) rest (next [] (set_obj r (Broadcast st) s)).
Proof. intros Hr. apply (fairly_section SecBroadcast r st); try done. unfold held_bytes. cbn. lia. Qed.

(** [setReset] establishes what the [finish] after it relies on. *)
Lemma setReset_fairly r code message st rest :
  objs s !! r = Some st -> fairly (ISetReset r code message) rest (setReset r code message st s).
Proof.
  intros Hr [_ HF] HB. unfold setReset in *. cbn [pushed spawned after next] in *.
  set (st' := setReset_locked code message st) in *. set (s' := set_obj r st' s).
  assert (forall f, tracked f -> T' f = T f) as HT
    by (intros f Hf; by apply (balanced_quiet T T' (ISetReset r code message) rest [IBroadcast r])).
  assert (held_bytes st' = held_bytes st) as Hh by (unfold st', setReset_locked; repeat case_match; done).
  assert (reset st' = true) as Hst' by (unfold st', setReset_locked; destruct (reset st) eqn:E; [done|]; by repeat case_match).
  assert (ledger T' s' /\ keeps T s T' s') as [HL' HK].
  { apply (ledger_obj T T' r st st'); try done.
    - intros r' _. unfold tok_le. rewrite !HT by auto using own_tracked, acc_tracked, det_tracked. lia.
    - rewrite !HT by auto using own_tracked, acc_tracked, det_tracked.
      apply (quiet_section (SecSetReset code message)); [done|]. by apply HL.
    - intros _. pose proof (balanced_push _ _ _ _ [IBroadcast r] pend HB) as E. cbn in *. rewrite Hh. lia. }
  constructor; try done. split; [done|]. cbn [resets_of app].
  apply (facts_discharge T' s' r [] rest) with (a := []); [by apply (at_obj_set _ r st)|].
  by apply (facts_keeps T s).
Qed.

Lemma maybeFinish_fairly r st rest : objs s !! r = Some st -> fairly (IMaybeFinish r) rest (maybeFinish r st s).
Proof.
  intros Hr. unfold maybeFinish. destruct (maybeFinish_done st) eqn:E; apply fairly_next; try done.
  cbn. split; [|done]. right. exists st. split; [done|by right].
Qed.

Lemma releaseBuffer_fairly n rest : 0 <= n -> fairly (IReleaseBuffer n) rest (next [] (releaseBuffer n s)).
Proof.
  intros Hn HF HB. apply (fair_idle T T' (IReleaseBuffer n) rest []); try done; try (unfold releaseBuffer; by case_match).
  intros Hc. assert (Z.to_nat n <= T pend)%nat as Hle.
  { pose proof (bal_old _ _ _ _ _ HB pend) as H. rewrite tally_cons in H. cbn in H. lia. }
  pose proof (l_sum _ _ HL Hc) as Hsum.
  assert (0 <= foldr Z.add 0 (held_bytes <$> objs s)) as Hpos.
  { assert (Forall stream_wf (objs s)) as HF'.
    { apply Forall_lookup. intros r st. apply obj_wf. }
    clear -HF'. induction HF' as [|st l [H1 H2 H3 H4 H5 H6 H7 H8] _ IH]; cbn; [done|].
    unfold held_bytes at 1. lia. }
  destruct app_limits as (_ & _ & _ & _ & EB). unfold releaseBuffer.
  destruct (Z.leb_spec (buffered s) n); cbn; [lia|]. rewrite to_u64_id; lia.
Qed.

Lemma zeroBuffered_fairly rest : fairly IZeroBuffered rest (next [] (with_buffered 0 s)).
Proof.
  intros HF HB. pose proof HF as [Hc _]. cbn in Hc. apply (fair_idle T T' IZeroBuffered rest []); try done.
  congruence.
Qed.

Lemma fail_fairly rest : fairly IFail rest (Session_fail s).
Proof.
  unfold Session_fail. destruct (closed s) eqn:Hc; [by apply fairly_next|].
  intros HF HB. cbn [pushed spawned after next] in *.
  set (todo := [IZeroBuffered; IFailStreams ((map_to_list (streams s)).*2); IConnClose]) in *.
  apply (fair_push T T' IFail); try done.
  apply ledger_same; try done. intros r. unfold tok_le.
  rewrite !(balanced_quiet T T' IFail rest todo) by auto using own_tracked, acc_tracked, det_tracked. lia.
Qed.

Lemma startWriteLoop_fairly r rest : fairly (IStartWriteLoop r) rest (startWriteLoop r s).
Proof.
  unfold startWriteLoop. destruct (closed s) eqn:Hc; [by apply fairly_next|].
  intros HF HB. cbn [pushed spawned after next] in *.
  assert (forall f, (T' f + f (IStartWriteLoop r) = T f + (f (IWriteLoop r) + f IWgDone))%nat) as HT.
  { intros f. pose proof (bal_new _ _ _ _ _ HB f) as E. cbn in E. unfold tally in E. cbn in E. unfold tally in E. lia. }
  destruct HF as [_ HF]. assert (ledger T' (with_wg (wg s + 1) s) /\ keeps T s T' (with_wg (wg s + 1) s)) as [HL' HK].
  { apply ledger_same; try done.
    - intros r'. pose proof (HT (own r')). pose proof (HT (acc r')). pose proof (HT (det r')). unfold tok_le. cbn in *. lia.
    - intros _. pose proof (HT pend). cbn in *. split; [done|lia]. }
  constructor; try done; [by apply (facts_keeps T s)|]. by repeat constructor.
Qed.

(** ** Opening and accepting *)

(** The totals of stream [r'] after a step on stream [r]. *)
Ltac totals HB r' :=
  let F f := (let E := fresh "E" in pose proof (balanced_push _ _ _ _ _ f HB) as E; cbn in E) in
  F (own r'); F (acc r'); F (det r').

Ltac other_totals HB :=
  let r' := fresh "r'" in let Hne := fresh "Hne" in
  intros r' Hne; totals HB r'; apply Nat.eqb_neq in Hne; rewrite ?Hne in *; unfold tok_le; cbn in *; lia.

Lemma own_fresh r : (1 <= T (own r))%nat -> exists st, objs s !! r = Some st.
Proof.
  intros Ho. destruct (objs s !! r) as [st|] eqn:E; [by eauto|]. apply lookup_ge_None in E.
  destruct (l_fresh _ _ HL r E). lia.
Qed.

Lemma detach_fairly r st rest : objs s !! r = Some st -> fairly (IDetach r) rest (detach r st s).
Proof.
  intros Hr HF HB. unfold detach in *. cbn [pushed spawned after next] in *.
  assert (forall f, (exists r', f = own r' \/ f = acc r' \/ f = det r') \/ f = pend -> T' f = T f) as HT.
  { intros f Hf. pose proof (balanced_push _ _ _ _ _ f HB) as E. cbn in E.
    destruct Hf as [(r' & [->|[->| ->]])| ->]; cbn in E; lia. }
  apply (fair_push T T' (IDetach r) rest [IDetachBytes r]); try done.
  - apply ledger_same; try done; try (by case_match).
    + intros r'. unfold tok_le. rewrite !HT by eauto. lia.
    + rewrite !HT by eauto. by case_match.
  - split; [|done]. cbn. rewrite HT by eauto. destruct HF as [(st' & E & Hc) _].
    exists st'. split; [by case_match|done].
Qed.

Lemma detach_bytes_fairly r st rest : objs s !! r = Some st -> fairly (IDetachBytes r) rest (detach_bytes r st s).
Proof.
  intros Hr HF HB. unfold detach_bytes, detach_locked in *. cbn [pushed spawned after next] in *.
  pose proof HF as [Hc _]. pose proof (at_obj_head Hc st Hr) as Hcl.
  pose proof (l_objs _ _ HL r st Hr) as Hi. pose proof Hi as [W I2 I3 I4 I5 I6 I7 I8].
  pose proof (wf_win_bounds _ W) as [_ Hw]. pose proof (wf_inBytes _ W) as Hb. pose proof (wf_sendBytes _ W) as (Hs1 & Hs2 & _).
  destruct app_limits as (EW & _ & _ & EQ & _). rewrite EW, EQ in *.
  rewrite to_u64_id in * by lia.
  set (todo := if 0 <? sendBytes st + inBytes st then [IReleaseBuffer (sendBytes st + inBytes st)] else []) in *.
  assert (forall f, tracked f -> tally f todo = 0%nat) as Htodo.
  { intros f Hf. apply tokenless_tally; [done|]. unfold todo. by case_match. }
  assert (Z.of_nat (tally pend todo) = held_bytes st) as Hpend.
  { unfold todo, held_bytes. destruct (Z.ltb_spec 0 (sendBytes st + inBytes st)); cbn; lia. }
  assert (forall r', T' (own r') = T (own r') /\ T' (acc r') = T (acc r')
    /\ (T' (det r') + b2n (r' =? r) = T (det r')))%nat as HT.
  { intros r'. pose proof (balanced_push _ _ _ _ _ (own r') HB) as E1. pose proof (balanced_push _ _ _ _ _ (acc r') HB) as E2.
    pose proof (balanced_push _ _ _ _ _ (det r') HB) as E3.
    rewrite !Htodo in * by auto using own_tracked, acc_tracked, det_tracked. cbn in *. lia. }
  apply (fair_push T T' (IDetachBytes r) rest todo); try done; [|unfold todo; by case_match].
  apply (ledger_obj T T' r st (detach_locked st).2); try done.
  - intros r' Hne%Nat.eqb_neq. destruct (HT r') as (E1 & E2 & E3). rewrite Hne in E3. cbn in E3. unfold tok_le. lia.
  - destruct (HT r) as (-> & -> & _). split; [|by constructor].
    assert (reset st = true \/ sendQ st = []) as Hpre.
    { destruct Hcl as [[H|H%done_spec]|[H _]]; [by left|right; tauto|right; by apply I7]. }
    constructor; try done.
    + by apply detach_wf.
    + destruct Hcl as [[H|H%done_spec]|H]; [left; intros Hf; cbn in Hf; congruence| |by right].
      left. intros _. cbn. by destruct H as (_ & _ & _ & ->).
    + intros Hf. split; [by apply I8|]. by left.
  - intros _. pose proof (balanced_push _ _ _ _ _ pend HB) as E. unfold held_bytes in *. cbn in *. lia.
Qed.

Lemma finish_fairly r st rest : objs s !! r = Some st -> fairly (IFinish r) rest (finish cfg r st s).
Proof.
  intros Hr HF. pose proof HF as [Hs _]. revert HF. unfold finish, finish_locked.
  destruct (finished st) eqn:Ef; [by apply fairly_next|]. intros HF HB. cbn [pushed spawned after next] in *.
  assert (settled st) as Hst. { destruct Hs as [Hs|Hs]; [by apply elem_of_nil in Hs|]. by apply (at_obj_head Hs). }
  match goal with |- fair _ _ _ _ _ ?x => set (s' := x) end. assert (objs s' = <[r:=set_finished true st]> (objs s) /\ closed s' = closed s
    /\ buffered s' = buffered s) as (Eo & Ec & Eb) by (unfold s'; by case_match).
  pose proof (l_objs _ _ HL r st Hr) as Hi. pose proof Hi as [W I2 I3 I4 I5 I6 I7 I8].
  apply (fair_push T T' (IFinish r) rest [IDetach r; ICloseEndpoint r]); try done.
  - apply (ledger_obj T T' r st (set_finished true st)); try done.
    + other_totals HB.
    + totals HB r. rewrite Nat.eqb_refl in *. cbn in *. replace (T' (own r)) with (T (own r)) by lia.
      replace (T' (acc r)) with (T (acc r)) by lia. split.
      * constructor; try done; [by destruct W; constructor|]. intros _. split; [done|]. right. lia.
      * constructor; try done. intros [?|?]; [by left|by right].
    + intros _. rewrite Eb. pose proof (balanced_push _ _ _ _ _ pend HB) as E. cbn in E. unfold held_bytes. cbn. lia.
  - cbn. split_and!; try done. exists (set_finished true st). rewrite Eo, list_lookup_insert_eq
      by (by apply lookup_lt_Some in Hr). split; [done|by left].
Qed.

Lemma markOpened_fairly r st rest : objs s !! r = Some st -> fairly (IMarkOpened r) rest (markOpened cfg r st s).
Proof.
  intros Hr HF HB. pose proof HF as [Hf _]. destruct (at_obj_head Hf st Hr) as [Hop Her].
  pose proof (l_objs _ _ HL r st Hr) as Hi. pose proof Hi as [W I2 I3 I4 I5 I6 I7 I8].
  assert (1 <= T (own r))%nat as Hown.
  { pose proof (bal_old _ _ _ _ _ HB (own r)) as H. rewrite tally_cons in H. cbn in H. rewrite Nat.eqb_refl in H. cbn in H. lia. }
  unfold markOpened in *. destruct (markOpened_locked st) as [b st'] eqn:E. cbn [pushed spawned after next] in *.
  match goal with |- fair _ _ _ _ _ ?x => set (s' := x) end. assert (objs s' = <[r:=st']> (objs s) /\ closed s' = closed s
    /\ buffered s' = buffered s) as (Eo & Ec & Eb) by (unfold s'; by case_match).
  assert (held_bytes st' = held_bytes st) as Hh by (unfold markOpened_locked in E; case_match; by simplify_eq).
  apply (fair_push T T' (IMarkOpened r) rest []); try done. apply (ledger_obj T T' r st st'); try done.
  - other_totals HB.
  - totals HB r. rewrite Nat.eqb_refl in *. cbn in *. unfold markOpened_locked in E.
    destruct (finished st || opened st) eqn:Efo; simplify_eq; [apply (obj_inv_le (T (own r)) _ (T (acc r)) _ (T (det r))); done || lia|].
    apply orb_false_iff in Efo as [Efi Eop].
    assert (~ orphan (T (own r)) st) as Hno.
    { intros [_ [H|H]]; [lia|]. rewrite Her in H. by destruct H. }
    destruct I2 as [I2|I2]; [|done]. split; constructor; cbn; try done; try lia.
    + by destruct W; constructor.
    + by left.
    + intros H. congruence.
    + intros [?|?]; [by left|done].
    + by left.
  - intros _. rewrite Eb, Hh. pose proof (balanced_push _ _ _ _ _ pend HB) as E'. cbn in E'. lia.
Qed.

Lemma acceptOpen_fairly r meta a st rest :
  objs s !! r = Some st -> fairly (IAcceptOpen r meta) rest (acceptOpen cfg r a st s).
Proof.
  intros Hr.
  assert (forall todo, (forall r', tally (own r') todo = 0%nat /\ tally (acc r') todo = 0%nat) -> tally pend todo = 0%nat ->
    (at_obj s r (closing (T' (own r))) -> facts T' s [] todo) -> fairly (IAcceptOpen r meta) rest (next todo s)) as Hdrop.
  { intros todo Htok Hp Hfacts HF HB. cbn [pushed spawned after next] in *.
    pose proof (l_objs _ _ HL r st Hr) as Hi. pose proof (oi_own _ _ _ _ Hi) as Ho.
    apply (fair_push T T' (IAcceptOpen r meta) rest todo); try done.
    - apply ledger_same; try done.
      + intros r'. totals HB r'. destruct (Htok r'). unfold tok_le. lia.
      + intros Hc. split; [done|]. pose proof (balanced_push _ _ _ _ _ pend HB) as E. cbn in E. lia.
    - apply Hfacts. exists st. split; [done|]. right. totals HB r. rewrite Nat.eqb_refl in *. destruct (Htok r). cbn in *.
      destruct (opened st) eqn:Eo; cbn in Ho; [lia|]. split; [done|]. left. lia. }
  unfold acceptOpen. destruct (negb (cfgHandler cfg)); [by apply Hdrop|].
  destruct a as [[e m]|e]; [|by apply Hdrop]. case_match; [by apply Hdrop|].
  intros HF HB. cbn [pushed spawned after next] in *.
  apply (fair_push T T' (IAcceptOpen r meta) rest [IAcceptReady r e m]); try done. apply ledger_same; try done.
  - intros r'. totals HB r'. unfold tok_le. lia.
  - intros Hc. split; [done|]. pose proof (balanced_push _ _ _ _ _ pend HB) as E. cbn in E. lia.
Qed.

Lemma acceptOpen_ready_fairly r e meta st rest :
  objs s !! r = Some st -> fairly (IAcceptReady r e meta) rest (acceptOpen_ready r e meta st s).
Proof.
  intros Hr HF HB. unfold acceptOpen_ready in *. cbn [pushed spawned after next] in *.
  pose proof (l_objs _ _ HL r st Hr) as Hi. pose proof Hi as [W I2 I3 I4 I5 I6 I7 I8].
  pose proof (bal_old _ _ _ _ _ HB (acc r)) as Hacc. rewrite tally_cons in Hacc. cbn in Hacc. rewrite Nat.eqb_refl in Hacc. cbn in Hacc.
  assert (accepting st = true) as Ha by (destruct (accepting st); cbn in *; [done|lia]).
  assert (opening st = false) as Hop.
  { destruct (opening st) eqn:E; [|done]. pose proof (wf_opening _ W E). congruence. }
  apply (fair_push T T' (IAcceptReady r e meta)); try done.
  - apply (ledger_obj T T' r st (acceptOpen_locked st)); try done.
    + other_totals HB.
    + totals HB r. rewrite Nat.eqb_refl in *. rewrite Ha in *. cbn in *. replace (T' (own r)) with (T (own r)) by lia.
      replace (T' (det r)) with (T (det r)) by lia. split; [|by constructor].
      constructor; try done; cbn; [by apply acceptOpen_wf|lia].
    + intros _. pose proof (balanced_push _ _ _ _ _ pend HB) as E. cbn in E. unfold held_bytes. cbn. lia.
  - cbn. split_and!; try done. apply (at_obj_set _ r st); [done|]. cbn. auto.
Qed.

Lemma reject_locked_fairly r code message st rest :
  objs s !! r = Some st -> fairly (IRejectLocked r code message) rest (reject_locked r code message st s).
Proof.
  intros Hr. unfold reject_locked. pose proof (l_objs _ _ HL r st Hr) as Hi.
  pose proof (quiet_section (SecHandleReject code message) _ _ _ st I Hi) as [Hi' Hm]. cbn [run_section] in *.
  destruct (handleReject_locked code message st) as [b st'] eqn:E. cbn [snd] in *.
  assert (held_bytes st' = held_bytes st) as Hh by (unfold handleReject_locked in E; case_match; by simplify_eq).
  destruct b.
  - intros HF HB. cbn [pushed spawned after next] in *.
    apply (fair_push T T' (IRejectLocked r code message) rest [IDetach r; ICloseReady r]); try done.
    + apply (ledger_obj T T' r st st'); try done; [other_totals HB| |].
      * totals HB r. rewrite Nat.eqb_refl in *. cbn in *. replace (T' (own r)) with (T (own r)) by lia. split; [|done].
        by eapply obj_inv_le; [..|exact Hi']; lia.
      * intros _. rewrite Hh. pose proof (balanced_push _ _ _ _ _ pend HB) as E'. cbn in E'. cbn. lia.
    + cbn. split_and!; try done. apply (at_obj_set _ r st); [done|]. right.
      unfold handleReject_locked in E. destruct (opening st) eqn:Eo; [|done]. simplify_eq. split; cbn; [|by right; eauto].
      destruct (opened st) eqn:Ed; [|done]. destruct (oi_opened _ _ _ _ Hi Ed). congruence.
  - apply (fairly_section (SecHandleReject code message) r st); try done; [cbn; by rewrite E|]. cbn. lia.
Qed.

(** A new object, with the token of the goroutine that opens it. *)
Lemma ledger_alloc id n st :
  let r := length (objs s) in
  let s' := alloc id n st s in
  (forall r', r' <> r -> tok_le T T' r') -> obj_inv (T' (own r)) (T' (acc r)) (T' (det r)) st ->
  held_bytes st = 0 -> T' pend = T pend ->
  ledger T' s' /\ keeps T s T' s'.
Proof.
  cbn zeta. intros Htok Hi Hh Hp. destruct HL as [L1 L2 L3]. split; constructor; cbn; try done.
  - intros r' x [E|[-> ->]]%lookup_snoc_inv; [|done].
    destruct (Htok r') as (H1 & H2 & H3); [apply lookup_lt_Some in E; lia|]. by eapply obj_inv_le; [..|apply L1].
  - intros r'. rewrite length_app. cbn. intros Hge. destruct (L2 r' ltac:(lia)).
    destruct (Htok r') as (H1 & H2 & _); lia.
  - intros Hc. rewrite sum_snoc, Hh, Hp, (L3 Hc). lia.
  - intros r' x E. exists x. rewrite (lookup_app_l_Some _ _ _ _ E). split; [done|].
    destruct (Htok r') as (H1 & H2 & H3); [apply lookup_lt_Some in E; lia|]. by eapply obj_inv_le; [..|apply L1].
Qed.

Lemma new_inv a d st :
  stream_exact st -> (a <= b2n (accepting st))%nat -> opened st = false -> finished st = false -> openErr st = None ->
  sendQ st = [] -> closeAfterFlush st = false -> localClosed st = false -> obj_inv 1 a d st.
Proof. intros [W Hx] Ha Ho Hf He Hs Hc Hl. constructor; try done; try congruence; [by left|]. rewrite Ho. done. Qed.

Lemma Open_fairly call service meta rest :
  0 <= nextID s <= maxLocalStreamID ->
  fairly (IOpen call service meta) rest (Open cfg fmt_q call service meta s).
Proof.
  intros Hnext. unfold Open. repeat (case_match; [by apply fairly_next|]).
  intros HF HB. cbn [pushed spawned after next] in *.
  set (r := length (objs s)) in *. destruct (l_fresh _ _ HL r (le_n _)) as [F1 F2].
  eapply (fair_push T T' (IOpen call service meta)); try done. apply ledger_alloc; fold r.
  - other_totals HB.
  - totals HB r. rewrite Nat.eqb_refl in *. cbn in *. replace (T' (own r)) with 1%nat by lia.
    apply new_inv; try done; [apply openStream_exact|cbn; lia].
  - done.
  - pose proof (balanced_push _ _ _ _ _ pend HB) as E. cbn in E. lia.
Qed.

Lemma handleOpen_fairly m rest : fairly (IHandleOpen m) rest (handleOpen cfg m s).
Proof.
  unfold handleOpen. repeat (case_match; [by apply fairly_next|]).
  intros HF HB. cbn [pushed spawned after next] in *.
  set (r := length (objs s)) in *. destruct (l_fresh _ _ HL r (le_n _)) as [F1 F2].
  set (st := set_accepting true (newStream (open_StreamID m) (open_Service m) true)).
  match goal with |- fair _ _ _ _ _ ?x => change x with (alloc (open_StreamID m) (nextID s) st s) end.
  assert (forall f, (T' f + f (IHandleOpen m) = T f + f (IAcceptOpen r (open_Meta m)))%nat) as HT.
  { intros f. pose proof (bal_new _ _ _ _ _ HB f) as E. cbn in E. unfold tally in E. cbn in E. unfold tally in E. lia. }
  assert (ledger T' (alloc (open_StreamID m) (nextID s) st s) /\ keeps T s T' (alloc (open_StreamID m) (nextID s) st s)) as [HL' HK].
  { apply ledger_alloc; fold r; try done.
    - intros r' Hne%Nat.eqb_neq. pose proof (HT (own r')). pose proof (HT (acc r')). pose proof (HT (det r')).
      unfold tok_le. cbn in *. rewrite Hne in *. cbn in *. lia.
    - pose proof (HT (own r)). pose proof (HT (acc r)). cbn in *. rewrite Nat.eqb_refl in *. cbn in *.
      replace (T' (own r)) with 1%nat by lia. apply new_inv; try done; [apply newStream_exact|cbn; lia].
    - pose proof (HT pend). cbn in *. lia. }
  destruct HF as [_ HF]. constructor; try done; [by apply (facts_keeps T s)|]. by repeat constructor.
Qed.

(** Steps that drop or hand on the opener's token and touch no object. *)
Lemma fairly_opener i rest todo :
  resets_of i = [] -> pend i = 0%nat -> tally pend todo = 0%nat ->
  (forall r, tally (own r) todo <= own r i /\ tally (acc r) todo <= acc r i /\ det r i <= tally (det r) todo)%nat ->
  facts T' s [] todo -> fairly i rest (next todo s).
Proof.
  intros Hi Hp Hpt Htok Ht HF HB. cbn [pushed spawned after next] in *.
  apply (fair_push T T' i rest todo); try done. apply ledger_same; try done.
  - intros r. totals HB r. destruct (Htok r) as (? & ? & ?). unfold tok_le. lia.
  - intros Hc. split; [done|]. pose proof (balanced_push _ _ _ _ _ pend HB). lia.
Qed.

Lemma Open_select_fairly call r c st rest p :
  objs s !! r = Some st -> Open_select call r c st s = Some p -> fairly (IOpenSelect call r) rest p.
Proof.
  intros Hr. unfold Open_select. destruct c; try done.
  - destruct (Nat.ltb_spec 0 (ready st)); [|done]. intros [= <-]. apply fairly_opener; try done; [intros r'; cbn; lia|].
    split; [|done]. exists st. split; [done|]. pose proof (Hready r st Hr). destruct (opening st); cbn in *; [lia|done].
  - case_match; [|done]. intros [= <-]. apply fairly_opener; try done. intros r'. cbn. lia.
  - intros [= <-]. apply fairly_opener; try done; [intros r'; cbn; lia|]. by apply facts_resetRemote.
Qed.

Lemma Open_result_fairly call r st rest :
  objs s !! r = Some st -> fairly (IOpenResult call r) rest (Open_result call r st s).
Proof.
  intros Hr HF. pose proof HF as [Ho _]. pose proof (at_obj_head Ho st Hr) as Hop. revert HF. unfold Open_result.
  destruct (openErr st) as [[]|] eqn:Eo; [apply fairly_opener; try done; intros r'; cbn; lia|].
  destruct (resetErr st) as [[]|]; [apply fairly_opener; try done; intros r'; cbn; lia|].
  apply fairly_opener; try done; [intros r'; cbn; lia|]. cbn. split_and!; try done. exists st. done.
Qed.

(** A function returns early: nothing it still had to do carried a token. *)
Lemma fair_return old new :
  forallb tokenless old = true -> forallb tokenless new = true -> tally pend old = 0%nat -> tally pend new = 0%nat ->
  facts T' s [] new -> balanced T T' old new [] -> fair T T' s new [] s.
Proof.
  intros Ho Hn Hpo Hpn Hf [_ HB].
  assert (forall f, tracked f -> T' f = T f) as HT.
  { intros f Hf'. specialize (HB f). rewrite !tokenless_tally in HB by done. cbn in HB. lia. }
  assert (ledger T' s /\ keeps T s T' s) as [HL' HK]; [|by constructor].
  apply ledger_same; try done.
  - intros r. unfold tok_le. rewrite !HT by auto using own_tracked, acc_tracked, det_tracked. lia.
  - intros Hc. split; [done|]. specialize (HB pend). rewrite Hpo, Hpn in HB. cbn in HB. lia.
Qed.

(** [sendApp]: its error branches drop the rest of the function. *)
Lemma sendApp_fair m k w rest new s' :
  stack_ok (ISend m k :: rest) -> facts T s [] (ISend m k :: rest) -> sendApp m k w rest s = (new, s') ->
  balanced T T' (ISend m k :: rest) new [] -> fair T T' s new [] s'.
Proof.
  intros [Hk _] HF. unfold sendApp.
  assert (forall e new, new = on_error k e rest ->
    balanced T T' (ISend m k :: rest) new [] -> fair T T' s new [] s) as Herr.
  { clear new. intros e new -> HB. destruct k; cbn [on_error head_ok] in *.
    - by apply (fairly_next (ISend m EIgnore) rest []).
    - by apply (fairly_next (ISend m EFail) rest [IFail]).
    - subst rest. pose proof (bal_new _ _ _ _ _ HB) as HN. pose proof (bal_old _ _ _ _ _ HB (own r)) as HO.
      cbn in HO. rewrite Nat.eqb_refl in HO. cbn in HO. destruct (own_fresh r) as [st Hr]; [lia|].
      pose proof (oi_own _ _ _ _ (l_objs _ _ HL r st Hr)) as Ho.
      assert (ledger T' s /\ keeps T s T' s) as [HL' HK].
      { apply ledger_same; try done.
        - intros r'. pose proof (HN (own r')). pose proof (HN (acc r')). pose proof (HN (det r')). unfold tok_le. cbn in *. lia.
        - intros Hc. split; [done|]. pose proof (HN pend). cbn in *. lia. }
      constructor; try done. cbn. split_and!; try done. exists st. split; [done|]. right.
      pose proof (HN (own r)) as E. cbn in E. rewrite Nat.eqb_refl in E. cbn in E.
      destruct (opened st) eqn:Ed; cbn in Ho; [lia|]. split; [done|left; lia].
    - destruct Hk as [r ->]. by apply (fair_return (ISend m (EAccept e0) :: [IAttachEndpoint r e0; IStartWriteLoop r; IBridge r e0])).
    - destruct Hk as [r [-> | ->]].
      + by apply (fair_return (ISend m ELoop :: [IWriteLoop r; IWgDone])).
      + by apply (fair_return (ISend m ELoop :: [IMaybeFinish r; IWgDone])).
    - destruct Hk as [r ->]. by apply (fair_return (ISend m (ECloseWrite call) :: [IMaybeFinish r; IReturn call RNil])). }
  destruct (app_frame m) as [f|e]; [|intros [= <- <-]; by apply (Herr e)].
  destruct w as [e|]; intros [= <- <-]; [by apply (Herr e)|].
  intros HB. by apply (fair_idle T T' (ISend m k) rest []).
Qed.

Lemma Serve_fairly call c rest p :
  Serve ExecCmd_UnmarshalBinary call c s = Some p -> fairly (IServe call) rest p.
Proof.
  unfold Serve. destruct c as [| |[f|e]| | | | | |]; try done.
  - destruct (frame_ok f); [|done].
    destruct (handleFrame ExecCmd_UnmarshalBinary f) as [h|[m e]] eqn:E; intros [= <-]; [|by apply fairly_next].
    unfold handleFrame in E. destruct (_ || _); [done|].
    destruct (DecodeMessageBody _ _ _) as [m|]; [|done]. destruct m; simplify_eq; by apply fairly_next.
  - intros [= <-]. by apply fairly_next.
Qed.

Lemma handleAccept_fairly m r st rest : fairly (IHandleAccept m) rest (handleAccept m r st s).
Proof.
  unfold handleAccept. repeat case_match; apply fairly_next; try done; by apply (facts_resetRemote _ _ _ _ _ _ _ []).
Qed.

(** A step that touches an output only. *)
Lemma fairly_output i rest s' :
  resets_of i = [] -> tokenless i = true -> pend i = 0%nat ->
  objs s' = objs s -> closed s' = closed s -> buffered s' = buffered s -> fairly i rest (next [] s').
Proof.
  intros Hi Ht Hp Eo Ec Eb HF HB. apply (fair_idle T T' i rest [] s s'); try done. intros _. rewrite Hp, Eb. done.
Qed.

Lemma fairly_on_id id i rest f :
  resets_of i = [] -> tokenless i = true -> pend i = 0%nat ->
  (forall r, forallb tokenless (f r) = true /\ tally pend (f r) = 0%nat /\ facts T' s [] (f r)) ->
  fairly i rest (on_id id s f).
Proof.
  intros Hi Ht Hp Hf. unfold on_id. destruct (streams s !! id) as [r|]; [|by apply fairly_next].
  destruct (Hf r) as (? & ? & ?). by apply fairly_next.
Qed.

Lemma step_fairly i c rest p :
  sess_ok cfg s -> stack_ok (i :: rest) ->
  step_instr cfg fmt_q ExecCmd_UnmarshalBinary i c s = Some p -> fairly i rest p.
Proof.
  intros Hs [Hh _].
  assert (forall r f, on_obj r s f = Some p -> exists st, objs s !! r = Some st /\ p = f st s) as Hobj.
  { intros r f. unfold on_obj. destruct (objs s !! r) as [st|]; intros; simplify_eq; eauto. }
  destruct i; cbn [step_instr]; try (by apply Serve_fairly); destruct c; try done; intros H;
    try (apply Hobj in H as (st & Hr & ->)).
  all: try (simplify_eq; solve [by apply fairly_next | by apply fairly_output]).
  all: try (case_match; simplify_eq; by apply fairly_next).
  all: try (by eauto using acceptOpen_fairly, acceptOpen_ready_fairly, reject_locked_fairly, closeReady_fairly,
    deliver_fairly, addCredit_fairly, remoteClose_fairly, detach_fairly, detach_bytes_fairly, finish_fairly,
    closeEndpoint_fairly, markOpened_fairly, attach_fairly, writeLoop_fairly, maybeFinish_fairly, setReset_fairly,
    broadcast_fairly, Write_fairly, Read_fairly, CloseWrite_fairly, accept_locked_fairly, Open_result_fairly).
  - injection H as <-. apply handleOpen_fairly.
  - destruct (streams s !! accept_StreamID m) as [r|]; [|simplify_eq; by apply fairly_next].
    apply Hobj in H as (st & Hr & ->). apply handleAccept_fairly.
  - injection H as <-. by apply fairly_on_id.
  - injection H as <-. by apply fairly_on_id.
  - injection H as <-. by apply fairly_on_id.
  - injection H as <-. by apply fairly_on_id.
  - injection H as <-. apply fairly_on_id; try done. intros r. cbn. split_and!; try done. left. by apply elem_of_cons; left.
  - injection H as <-. apply Open_fairly. apply (si_nextID _ _ Hs).
  - destruct (objs s !! r) as [st|] eqn:Hr; [|done]. by apply (Open_select_fairly call r ChReady st).
  - destruct (objs s !! r) as [st|] eqn:Hr; [|done]. by apply (Open_select_fairly call r ChClosed st).
  - destruct (objs s !! r) as [st|] eqn:Hr; [|done]. by apply (Open_select_fairly call r (ChCtx e) st).
  - injection H as <-. unfold sendError. destruct r; by apply fairly_output.
  - injection H as <-. apply fail_fairly.
  - injection H as <-. apply zeroBuffered_fairly.
  - destruct refs as [|r refs]; [done|]. destruct ((r :: refs) !! i) as [r'|]; [|done]. injection H as <-.
    apply fairly_next; try done. cbn. split_and!; try done. left. by apply elem_of_cons; left.
  - injection H as <-. by apply releaseBuffer_fairly.
  - injection H as <-. apply startWriteLoop_fairly.
  - destruct (objs s !! r) as [st|] eqn:Hr; [|done]. case_match; [|done]. injection H as <-. apply writeLoop_fairly; eauto.
  - destruct (objs s !! r) as [st|] eqn:Hr; [|done]. case_match; [|done]. injection H as <-. apply Read_fairly; eauto.
Qed.

Lemma exec_fair i rest c g gs s' :
  sess_ok cfg s -> stack_ok (i :: rest) -> facts T s [] (i :: rest) -> balanced T T' (i :: rest) g gs ->
  exec cfg fmt_q ExecCmd_UnmarshalBinary i rest c s = Some (g, gs, s') -> fair T T' s g gs s'.
Proof.
  intros Hs Hst HF HB [(m & k & w & -> & -> & E & ->)|(p & E & -> & -> & ->)]%exec_cases.
  - by apply (sendApp_fair m k w rest).
  - by apply (step_fairly i c rest p).
Qed.

End Steps.

(** ** The world *)

Section World.

Context (cfg : Config) (fmt_q : bytes -> bytes) (ExecCmd_UnmarshalBinary : bytes -> result ExecCmd).

Definition total (w : World) (f : instr -> nat) : nat := tally_pool f (pool w).

Record ledger_ok (w : World) : Prop := {
  lo_ledger : ledger (total w) (sess w);
  lo_facts : Forall (facts (total w) (sess w) []) (pool w) }.

Lemma world0_ledger : ledger_ok world0.
Proof. by constructor. Qed.

(** An API call's goroutines carry no token. *)
Lemma call_stack_fair call a s gs T :
  call_stack call a s = Some gs ->
  (forall f, tracked f \/ f = pend -> tally_pool f gs = 0%nat) /\ Forall (facts T s []) gs.
Proof.
  assert (forall r st, handed_out r s = Some st -> at_obj s r given) as Hg.
  { intros r st. unfold handed_out. destruct (objs s !! r) as [st'|] eqn:E; [|done].
    destruct (opened st' || finished st') eqn:Eg; [|done]. intros [= ->]. exists st. split; [done|].
    by apply orb_true_iff in Eg. }
  destruct a; cbn [call_stack]; intros; repeat case_match; simplify_eq.
  all: split; [intros f [(r' & [->|[->| ->]])| ->]; done|].
  all: repeat constructor; try done; eauto; try lia; cbn; eauto.
Qed.

Lemma step_ledger_ok l w w' :
  world_ok cfg w -> ledger_ok w -> step cfg fmt_q ExecCmd_UnmarshalBinary l w = Some w' -> ledger_ok w'.
Proof.
  intros [Hs Hp _ Hr] [HL HF]. destruct l as [t c|a]; cbn [step].
  - destruct (pool w !! t) as [[|i rest]|] eqn:Et; try done.
    destruct (exec _ _ _ i rest c (sess w)) as [[[g gs] s]|] eqn:E; [|done]. intros [= <-].
    set (w' := mkWorld s (<[t:=g]> (pool w) ++ gs) (calls w)).
    assert (balanced (total w) (total w') (i :: rest) g gs) as HB.
    { constructor; intros f; unfold total, w'; cbn [pool].
      - apply tally_pool_elem. by eapply list_elem_of_lookup_2.
      - rewrite tally_pool_app. pose proof (tally_pool_insert f (pool w) t (i :: rest) g Et). lia. }
    assert (fair (total w) (total w') (sess w) g gs s) as [F1 F2 F3 F4].
    { apply (exec_fair cfg fmt_q ExecCmd_UnmarshalBinary (total w) (total w') (sess w)) with i rest c; try done.
      - apply (si_buffered _ _ Hs).
      - intros r st Est. specialize (Hr r). rewrite Est in Hr. destruct (inbound st); cbn in Hr; lia.
      - by eapply Forall_lookup_1 in Hp.
      - by eapply Forall_lookup_1 in HF. }
    constructor; [done|]. cbn [pool]. apply Forall_app. split; [|done]. apply Forall_insert; [|done].
    eapply Forall_impl; [exact HF|]. intros g'. by apply facts_keeps.
  - destruct (call_stack (calls w) a (sess w)) as [gs|] eqn:E; [|done]. intros [= <-].
    set (w' := mkWorld (sess w) (pool w ++ gs) (S (calls w))).
    destruct (call_stack_fair _ _ _ _ (total w') E) as [Htok Hgs].
    assert (forall f, tracked f \/ f = pend -> total w' f = total w f) as HT.
    { intros f Hf. unfold total, w'. cbn [pool]. rewrite tally_pool_app, (Htok f Hf). lia. }
    assert (ledger (total w') (sess w) /\ keeps (total w) (sess w) (total w') (sess w)) as [HL' HK].
    { apply ledger_same; try done.
      - intros r. unfold tok_le. rewrite !HT by auto using own_tracked, acc_tracked, det_tracked. lia.
      - rewrite HT by auto. done. }
    constructor; [done|]. cbn [pool]. apply Forall_app. split; [|done].
    eapply Forall_impl; [exact HF|]. intros g'. by apply facts_keeps.
Qed.

Lemma run_ledger_ok ls w w' :
  world_ok cfg w -> ledger_ok w -> run cfg fmt_q ExecCmd_UnmarshalBinary ls w = Some w' -> ledger_ok w'.
Proof.
  revert w; induction ls as [|l ls IH]; intros w Hw HL; cbn; [by intros [= <-]|].
  destruct (step cfg fmt_q ExecCmd_UnmarshalBinary l w) as [w1|] eqn:E; [|done].
  apply IH; [by eapply step_world_ok|by eapply step_ledger_ok].
Qed.

Lemma reachable_ledger w : reachable cfg fmt_q ExecCmd_UnmarshalBinary w -> ledger_ok w.
Proof. intros [ls H]. by eapply run_ledger_ok; [apply world0_ok|apply world0_ledger|]. Qed.

(** ** Theorems *)

(** C10: the stream invariant of Stream.v holds of every stream object of
    every reachable session, whatever the peer sends and however the callers'
    goroutines interleave: credit, window, queues and byte counters are as
    [stream_wf] says; a stream a caller was given has exact counters
    (inbound bytes counted = bytes queued, no underflow); a stream nobody
    opened never sends; and a finished stream was reset, or closed on
    both sides with both queues drained. *)
Theorem session_streams_exact (w : World) (H : reachable cfg fmt_q ExecCmd_UnmarshalBinary w)
    (r : nat) (st : Stream) (Hr : objs (sess w) !! r = Some st) :
  stream_wf st
  /\ (opened st = true -> stream_exact st)
  /\ (opened st = false -> sendQ st = [] /\ localClosed st = false)
  /\ (finished st = true -> reset st = true \/ maybeFinish_done st = true).
Proof.
  destruct (reachable_ledger w H) as [HL _]. destruct (l_objs _ _ HL r st Hr) as [W I2 I3 I4 I5 I6 I7 I8].
  split_and!; try done.
  - intros Ho. split; [done|]. destruct I2 as [?|Hx]; [done|by apply not_orphan in Hx].
  - intros Ho. by destruct (I7 Ho) as (? & _ & ?).
  - intros Hf. by apply I8.
Qed.

(** No bytes on their way back to the ledger. *)
Definition no_release (i : instr) : bool :=
  match i with IReleaseBuffer _ | IDetach _ | IDetachBytes _ => false | _ => true end.

Lemma no_release_total f :
  (forall i, no_release i = true -> f i = 0%nat) -> forall w,
  (forall g, g ∈ pool w -> forallb no_release g = true) -> total w f = 0%nat.
Proof.
  intros Hf w. unfold total. induction (pool w) as [|g p IH]; intros Hp; [done|].
  change (tally f g + tally_pool f p = 0)%nat. rewrite IH.
  - rewrite Nat.add_0_r. specialize (Hp g ltac:(by apply elem_of_cons; left)). revert Hp. clear -Hf.
    induction g as [|i g IH]; [done|]. cbn [forallb]. intros [Hi Hg]%andb_true_iff. rewrite tally_cons, Hf, IH; done.
  - intros g' ?. apply Hp. by apply elem_of_cons; right.
Qed.

(** C9: the session's buffer ledger is exact.  While the session is open,
    [buffered] is the sum over all streams of [sendBytes + inBytes] plus the
    bytes goroutines have taken out and not yet released: no byte is
    reserved without being held, none is released twice, and [releaseBuffer]
    never has to saturate.  In particular nothing leaks: once every stream is
    finished and no release is under way, [buffered] is zero. *)
Theorem buffer_ledger_exact (w : World) (H : reachable cfg fmt_q ExecCmd_UnmarshalBinary w)
    (Hc : closed (sess w) = false) :
  let s := sess w in
  buffered s = foldr Z.add 0 ((fun st => sendBytes st + inBytes st) <$> objs s) + Z.of_nat (tally_pool pend (pool w))
  /\ ((forall r st, objs s !! r = Some st -> finished st = true) ->
      (forall g, g ∈ pool w -> forallb no_release g = true) -> buffered s = 0).
Proof.
  destruct (reachable_ledger w H) as [[L1 L2 L3] _]. cbn zeta. split; [by apply L3|]. intros Hf Hn.
  assert (forall r, total w (det r) = 0%nat) as Hd.
  { intros r. apply no_release_total; [|done]. by intros []. }
  assert (total w pend = 0%nat) as Hp by (apply no_release_total; [by intros []|done]).
  rewrite (L3 Hc), Hp. assert (Forall (fun st => held_bytes st = 0) (objs (sess w))) as Hz.
  { apply Forall_lookup. intros r st Hr. destruct (L1 r st Hr) as [W I2 I3 I4 I5 I6 I7 I8].
    destruct (I8 (Hf r st Hr)) as [_ [?|Hge]]; [done|]. rewrite Hd in Hge. lia. }
  clear -Hz. induction Hz as [|st l Hst _ IH]; [done|]. cbn. rewrite Hst. exact IH.
Qed.

End World.

(** ** A run: five bytes arrive, the caller has read three of them. *)

Definition open_stream : list label := take 14 open_then_peer_close.

Definition read_three : list label :=
  open_stream ++
  [Run 0 (ChRead (Ok (frame_of (MAppData (mkAppData 1 (str "hello")))))); Run 0 ChRun; Run 0 ChRun;
   Call (ARead 0 3); Run 4 ChRun].

Lemma read_three_reachable : reachable demo_cfg plain_q no_exec (demo_run read_three).
Proof. exists read_three. vm_compute. reflexivity. Qed.

Definition zero_stream : Stream := newStream 0 [] false.
Definition first_obj (w : World) : Stream := default zero_stream (objs (sess w) !! 0%nat).

Lemma session_streams_exact_witness :
  let st := first_obj (demo_run read_three) in
  opened st = true /\ inBytes st = 2 /\ stream_exact st.
Proof.
  cbn zeta. split; [vm_compute; reflexivity|]. split; [vm_compute; reflexivity|].
  apply (session_streams_exact demo_cfg plain_q no_exec (demo_run read_three) read_three_reachable 0%nat);
    vm_compute; reflexivity.
Defined.

Lemma buffer_ledger_exact_witness :
  let w := demo_run read_three in
  closed (sess w) = false /\ buffered (sess w) = 5 /\ tally_pool pend (pool w) = 3%nat
  /\ 5 = foldr Z.add 0 ((fun st => sendBytes st + inBytes st) <$> objs (sess w)) + Z.of_nat (tally_pool pend (pool w)).
Proof.
  cbn zeta. assert (closed (sess (demo_run read_three)) = false) as Hc by (vm_compute; reflexivity).
  assert (buffered (sess (demo_run read_three)) = 5) as Hb by (vm_compute; reflexivity).
  split; [exact Hc|]. split; [exact Hb|]. split; [vm_compute; reflexivity|]. rewrite <- Hb.
  apply (buffer_ledger_exact demo_cfg plain_q no_exec (demo_run read_three) read_three_reachable Hc).
Defined.
