(* ===== verification/SessionFifo.v ===== *)
(** * Bytes through the session, in order

    What the session does to the bytes of a stream, under every interleaving of
    its goroutines: the APP_DATA frames written to the connection for a local
    stream carry, in order and without gap, a prefix of the bytes its callers
    were told were written; and what callers read from a stream is, in order
    and without gap, what [deliver] accepted for it.

    Bytes are observed where a user of the package observes them: the count
    [Write] returns, the buffer [Read] fills, the frames on the connection.  The
    proof follows the one write loop a stream has ([loop] counts the steps that
    are or will become it) and the chunk it holds between taking it from the
    queue and writing it to the connection ([held]). *)
From Stdlib Require Import ZArith Lia.
From stdpp Require Import base list gmap strings.
From S2P Require Import Prelude GoIO Wire Frame Codec MsgApp Exec Registry Stream Session SessionInv Ledger.

Open Scope Z_scope.

(** ** What the outside observes *)

(** The APP_DATA message of a frame. *)
Definition frame_msg (f : Frame) : option AppData :=
  if Type_ f =? TypeAPPDATA
  then match UnmarshalBinary (Body f) with Ok m => Some m | Err _ => None end
  else None.

Definition frame_bytes (id : Z) (f : Frame) : bytes :=
  match frame_msg f with
  | Some m => if data_StreamID m =? id then data_Data m else []
  | None => []
  end.

(** The bytes on the connection for stream [id]. *)
Definition out_bytes (id : Z) (l : list Frame) : bytes := concat (frame_bytes id <$> l).

(** What a step that runs [i] on stream [r] tells its caller: bytes a [Write]
    accepted, bytes a [Read] returned; and bytes a delivery queued. *)
Definition put_step (r : nat) (i : instr) (s : Session) : bytes :=
  match i, objs s !! r with
  | IWrite call r' p, Some st =>
      if (r =? r')%nat then
        match pushed (Stream_Write call r p st s) with
        | [IReturn _ (RCount n)] => take (Z.to_nat n) p
        | _ => []
        end
      else []
  | _, _ => []
  end.

Definition read_bytes (p : progress) : bytes :=
  match pushed p with [_; _; IReturn _ (RBytes d)] => d | _ => [] end.

Definition got_step (r : nat) (i : instr) (s : Session) : bytes :=
  match i, objs s !! r with
  | IRead call r' n, Some st | IReadWait call r' n _, Some st =>
      if (r =? r')%nat then read_bytes (Stream_Read call r n st s) else []
  | _, _ => []
  end.

Definition fed_step (r : nat) (i : instr) (s : Session) : bytes :=
  match i, objs s !! r with
  | IDeliver r' d, Some st =>
      if (r =? r')%nat then match pushed (deliver r d st s) with [] => d | _ => [] end else []
  | _, _ => []
  end.

(** Along a run. *)
Definition at_label (f : instr -> Session -> bytes) (l : label) (w : World) : bytes :=
  match l with
  | Run t _ => match pool w !! t with Some (i :: _) => f i (sess w) | _ => [] end
  | Call _ => []
  end.

(** ** The write loop and the chunk it holds *)

Definition loop (r : nat) (i : instr) : nat :=
  match i with
  | IAcceptOpen r' _ | IAcceptReady r' _ _ | IOpenSelect _ r' | IOpenResult _ r'
  | IStartWriteLoop r' | IWriteLoop r' | IWriteLoopWait r' _ => b2n (r =? r')%nat
  | _ => 0
  end.

Fixpoint held (r : nat) (g : list instr) : bytes :=
  match g with
  | [] => []
  | i :: rest =>
      match i, rest with
      | ISend (MAppData m) _, IWriteLoop r' :: _ => if (r =? r')%nat then data_Data m else held r rest
      | _, _ => held r rest
      end
  end.

(** Where an APP_DATA can be in a stack, and what is known of stream ids. *)
Definition shape (s : Session) (i : instr) (rest : list instr) : Prop :=
  match i with
  | IHandleOpen m => u32 (open_StreamID m) = true
  | ISend (MAppData m) k => k = ELoop /\ exists r st, rest = [IWriteLoop r; IWgDone]
      /\ objs s !! r = Some st /\ data_StreamID m = sid st /\ zlen (data_Data m) <= AppMaxDataBytes
  | _ => True
  end.

Fixpoint shapes (s : Session) (g : list instr) : Prop :=
  match g with [] => True | i :: rest => shape s i rest /\ shapes s rest end.

(** Steps that send no APP_DATA. *)
Definition dataless (i : instr) : bool := match i with ISend (MAppData _) _ => false | _ => true end.

(** Steps that send no APP_DATA and carry no fact. *)
Definition bland (i : instr) : bool :=
  match i with IHandleOpen _ | ISend (MAppData _) _ => false | _ => true end.

Lemma shapes_app s g h : forallb bland g = true -> shapes s h -> shapes s (g ++ h).
Proof.
  intros Hg Hh. induction g as [|i g IH]; [done|]. cbn in *. apply andb_true_iff in Hg as [Hi Hg].
  split; [|by apply IH]. destruct i; try done. by destruct m.
Qed.

Lemma held_app r g h : forallb dataless g = true -> held r (g ++ h) = held r h.
Proof.
  intros Hg. induction g as [|i g IH]; [done|]. cbn [forallb] in Hg. apply andb_true_iff in Hg as [Hi Hg].
  rewrite <- (IH Hg). cbn [app held]. destruct i; try done. by destruct m.
Qed.

Lemma bland_dataless g : forallb bland g = true -> forallb dataless g = true.
Proof.
  induction g as [|i g IH]; [done|]. cbn. intros [Hi Hg]%andb_true_iff. rewrite (IH Hg), andb_true_r.
  by destruct i.
Qed.

Lemma held_loop s r g : shapes s g -> held r g <> [] -> (1 <= tally (loop r) g)%nat.
Proof.
  induction g as [|i g IH]; [done|]. intros [Hi Hg] Hh. rewrite tally_cons. cbn [held] in Hh.
  assert (held r g <> [] -> (1 <= loop r i + tally (loop r) g)%nat) as H by (intros ?%IH; [lia|done]).
  destruct i; try (by apply H). destruct m; try (by apply H). destruct g as [|j g']; [by apply H|].
  destruct j; try (by apply H). destruct (Nat.eqb_spec r r0) as [->|]; [|by apply H].
  rewrite tally_cons. cbn. rewrite Nat.eqb_refl. cbn. lia.
Qed.

(** ** The invariant *)

(** What a step may do to an object without touching its send queue. *)
Record sq_rel (st st' : Stream) : Prop := {
  sq_sid : sid st' = sid st;
  sq_inbound : inbound st' = inbound st;
  sq_sendQ : sendQ st' = sendQ st }.

(** No other object has the id: so for every local stream ([local_ids]), and for
    the others as long as the peer does not use an id twice. *)
Definition sole (s : Session) (r : nat) (id : Z) : Prop := forall r' st', objs s !! r' = Some st' -> sid st' = id -> r' = r.

Record fifo (put : nat -> bytes) (s : Session) (p : list (list instr)) : Prop := {
  ff_shape : Forall (shapes s) p;
  ff_loop : forall r, (tally_pool (loop r) p <= 1)%nat;
  ff_fresh : forall r, (length (objs s) <= r)%nat -> tally_pool (loop r) p = 0%nat /\ put r = [];
  ff_ids : forall r st, objs s !! r = Some st -> u32 (sid st) = true;
  ff_sent : forall f m, f ∈ sent s -> frame_msg f = Some m ->
    exists r st, objs s !! r = Some st /\ sid st = data_StreamID m;
  ff_live : forall g r st, g ∈ p -> (1 <= tally (loop r) g)%nat -> objs s !! r = Some st -> sole s r (sid st) ->
    put r = out_bytes (sid st) (sent s) ++ held r g ++ concat (sendQ st);
  ff_prefix : forall r st, objs s !! r = Some st -> sole s r (sid st) ->
    out_bytes (sid st) (sent s) `prefix_of` put r }.

(** The other goroutines and the stepping one. *)
Lemma elem_step {A} (p : list (list A)) t (old new : list A) gs g :
  p !! t = Some old -> g ∈ <[t := new]> p ++ gs -> g = new \/ g ∈ gs \/ exists t', t' <> t /\ p !! t' = Some g.
Proof.
  intros Ht [Hin|Hin]%elem_of_app; [|auto]. apply list_elem_of_lookup in Hin as [t' Hin].
  apply list_lookup_insert_Some in Hin as [(_ & -> & _)|[Hne Hin]]; eauto.
Qed.

Lemma tally_two {A} (f : A -> nat) (p : list (list A)) t t' g h :
  p !! t = Some g -> p !! t' = Some h -> t' <> t -> (tally f g + tally f h <= tally_pool f p)%nat.
Proof.
  intros Ht Ht' Hne. pose proof (tally_pool_insert f p t g [] Ht) as E.
  assert (h ∈ <[t := []]> p) as Hin.
  { apply list_elem_of_lookup. exists t'. by rewrite list_lookup_insert_ne. }
  pose proof (tally_pool_elem f _ h Hin). cbn in E. lia.
Qed.

Lemma tally_step {A} (f : A -> nat) (p : list (list A)) t old new gs :
  p !! t = Some old ->
  (tally_pool f (<[t := new]> p ++ gs) + tally f old = tally_pool f p + tally f new + tally_pool f gs)%nat.
Proof. intros Ht. rewrite tally_pool_app. pose proof (tally_pool_insert f p t old new Ht). lia. Qed.

Lemma out_bytes_app id l l' : out_bytes id (l ++ l') = out_bytes id l ++ out_bytes id l'.
Proof. unfold out_bytes. by rewrite fmap_app, concat_app. Qed.

Lemma out_bytes_none id l : Forall (fun f => frame_msg f = None) l -> out_bytes id l = [].
Proof. induction 1 as [|f l Hf _ IH]; [done|]. unfold out_bytes in *. cbn. unfold frame_bytes at 1. by rewrite Hf, IH. Qed.

(** The shapes of the other stacks survive: objects keep their id. *)
Definition extends (s s' : Session) : Prop :=
  forall r st, objs s !! r = Some st -> exists st', objs s' !! r = Some st' /\ sid st' = sid st /\ inbound st' = inbound st.

Lemma sole_back s s' r id : extends s s' -> sole s' r id -> sole s r id.
Proof. intros He Hs r' st' E Hid. destruct (He r' st' E) as (st & E' & Hs' & _). apply (Hs r' st); [done|congruence]. Qed.

Lemma shapes_extends s s' g : extends s s' -> shapes s g -> shapes s' g.
Proof.
  intros He. induction g as [|i g IH]; [done|]. intros [Hi Hg]. split; [|auto].
  destruct i; try done. destruct m; try done. destruct Hi as (-> & r & st & -> & Hr & Hid & Hlen). split; [done|].
  destruct (He r st Hr) as (st' & Hr' & Hs & _). exists r, st'. split_and!; try done. congruence.
Qed.

(** A step that neither queues nor sends data nor makes an object. *)
Lemma fifo_inert put s s' p t old new gs fs :
  fifo put s p -> p !! t = Some old -> Forall2 sq_rel (objs s) (objs s') ->
  sent s' = sent s ++ fs -> Forall (fun f => frame_msg f = None) fs ->
  shapes s' new -> Forall (shapes s') gs ->
  (forall r, tally (loop r) new + tally_pool (loop r) gs <= tally (loop r) old)%nat ->
  (forall r g, g = new \/ g ∈ gs -> (1 <= tally (loop r) g)%nat -> (tally (loop r) old <= 1)%nat -> held r g = held r old) ->
  fifo put s' (<[t := new]> p ++ gs).
Proof.
  intros [F1 F2 F3 F4 F5 F6 F7] Ht Ho Es Hfs Hnew Hgs Hloop Hheld.
  assert (forall r st', objs s' !! r = Some st' -> exists st, objs s !! r = Some st /\ sq_rel st st') as Hback
    by (intros r st' E; by apply (Forall2_lookup_r _ _ _ _ _ Ho)).
  assert (extends s s') as Hext.
  { intros r st E. destruct (Forall2_lookup_l _ _ _ _ _ Ho E) as (st' & E' & []). by exists st'. }
  assert (forall id, out_bytes id (sent s') = out_bytes id (sent s)) as Hout.
  { intros id. by rewrite Es, out_bytes_app, (out_bytes_none id fs), app_nil_r. }
  assert (forall r, tally_pool (loop r) (<[t := new]> p ++ gs) <= tally_pool (loop r) p)%nat as Hle.
  { intros r. pose proof (tally_step (loop r) p t old new gs Ht). specialize (Hloop r). lia. }
  assert (forall r, tally (loop r) old <= 1)%nat as Hold.
  { intros r. specialize (F2 r). pose proof (tally_pool_elem (loop r) p old ltac:(by eapply list_elem_of_lookup_2)). lia. }
  constructor.
  - apply Forall_app. split; [|done]. apply Forall_insert; [|done].
    eapply Forall_impl; [exact F1|]. intros g. by apply shapes_extends.
  - intros r. specialize (Hle r). specialize (F2 r). lia.
  - intros r Hr. rewrite <- (Forall2_length _ _ _ Ho) in Hr. destruct (F3 r Hr). specialize (Hle r). split; [lia|done].
  - intros r st' E. destruct (Hback r st' E) as (st & E0 & [Hs _ _]). rewrite Hs. by eapply F4.
  - intros f m Hf Hm. rewrite Es in Hf. apply elem_of_app in Hf as [Hf|Hf].
    + destruct (F5 f m Hf Hm) as (r & st & E & Hid). destruct (Hext r st E) as (st' & E' & Hs & _).
      exists r, st'. split; [done|congruence].
    + rewrite Forall_forall in Hfs. rewrite (Hfs f Hf) in Hm. done.
  - intros g r st' Hg Hl E Hin. destruct (Hback r st' E) as (st & E0 & [Hs Hi Hq]). rewrite Hout, Hs, Hq. rewrite Hs in Hin.
    apply (sole_back s) in Hin; [|done]. destruct (elem_step p t old new gs g Ht Hg) as [->|[Hg'|(t' & Hne & Hg')]].
    + rewrite (Hheld r new) by auto. apply F6; try done; [by eapply list_elem_of_lookup_2|]. specialize (Hloop r). lia.
    + rewrite (Hheld r g) by auto. apply F6; try done; [by eapply list_elem_of_lookup_2|].
      specialize (Hloop r). pose proof (tally_pool_elem (loop r) gs g Hg'). lia.
    + apply F6; try done. by eapply list_elem_of_lookup_2.
  - intros r st' E Hin. destruct (Hback r st' E) as (st & E0 & [Hs Hi Hq]). rewrite Hout, Hs. rewrite Hs in Hin.
    apply F7; [done|by apply (sole_back s s')].
Qed.

Lemma sq_refl l : Forall2 sq_rel l l.
Proof. induction l; by constructor. Qed.

Lemma sq_obj r st st' s : objs s !! r = Some st -> sq_rel st st' -> Forall2 sq_rel (objs s) (objs (set_obj r st' s)).
Proof.
  intros Hr Hq. cbn. rewrite <- (list_insert_id (objs s) r st Hr) at 1. apply Forall2_insert; [apply sq_refl|done].
Qed.

(** ** Steps off the data path *)

Record mild (s : Session) (i : instr) (p : progress) : Prop := {
  mi_objs : Forall2 sq_rel (objs s) (objs (after p));
  mi_sent : exists fs, sent (after p) = sent s ++ fs /\ Forall (fun f => frame_msg f = None) fs;
  mi_pushed : forallb dataless (pushed p) = true /\ (forall rest, shapes (after p) rest -> shapes (after p) (pushed p ++ rest));
  mi_spawned : spawned p = [];
  mi_loop : forall r, (tally (loop r) (pushed p) <= loop r i)%nat }.

Lemma extends_sq s s' : Forall2 sq_rel (objs s) (objs s') -> extends s s'.
Proof. intros Ho r st E. destruct (Forall2_lookup_l _ _ _ _ _ Ho E) as (st' & E' & []). by exists st'. Qed.

Lemma fifo_mild put s p t i rest pr :
  fifo put s p -> p !! t = Some (i :: rest) -> dataless i = true -> mild s i pr ->
  fifo put (after pr) (<[t := pushed pr ++ rest]> p ++ spawned pr).
Proof.
  intros HF Ht Hi [M1 (fs & M2 & M2') [M3 M3'] M4 M5].
  assert (shapes s (i :: rest)) as [_ Hrest] by (eapply Forall_lookup_1; [apply HF|done]).
  apply (fifo_inert put s (after pr) p t (i :: rest) (pushed pr ++ rest) (spawned pr) fs); try done.
  - apply M3'. by apply (shapes_extends s); [apply extends_sq|].
  - by rewrite M4.
  - intros r. rewrite M4, tally_app, tally_cons. specialize (M5 r). cbn. lia.
  - intros r g [->|Hg] _ _; [|rewrite M4 in Hg; by apply elem_of_nil in Hg].
    rewrite held_app by done. symmetry. apply (held_app r [i] rest). cbn [forallb]. by rewrite Hi.
Qed.

Lemma sent_same (s s' : Session) : sent s' = sent s ->
  exists fs, sent s' = sent s ++ fs /\ Forall (fun f => frame_msg f = None) fs.
Proof. intros ->. exists []. by rewrite app_nil_r. Qed.

(** A step that changes no object. *)
Lemma mild_next s s' i todo :
  objs s' = objs s -> sent s' = sent s -> forallb bland todo = true ->
  (forall r, tally (loop r) todo <= loop r i)%nat -> mild s i (next todo s').
Proof.
  intros Eo Es Hb Hl. constructor; cbn; try done.
  - rewrite Eo. apply sq_refl.
  - by apply sent_same.
  - split; [by apply bland_dataless|]. intros rest. by apply shapes_app.
Qed.

(** A step on one object that leaves its send queue alone. *)
Lemma mild_obj s s1 i r st st' todo :
  objs s !! r = Some st -> sq_rel st st' -> objs s1 = objs s -> sent s1 = sent s -> forallb bland todo = true ->
  (forall r, tally (loop r) todo <= loop r i)%nat -> mild s i (next todo (set_obj r st' s1)).
Proof.
  intros Hr Hq Eo Es Hb Hl. constructor; cbn; try done.
  - rewrite Eo. by apply (sq_obj r st st' s).
  - by apply sent_same.
  - split; [by apply bland_dataless|]. intros rest. by apply shapes_app.
Qed.

Ltac no_loop := let r := fresh "r" in intros r; cbn; lia.

Lemma mild_deliver r x st s : objs s !! r = Some st -> mild s (IDeliver r x) (deliver r x st s).
Proof.
  intros Hr. unfold deliver. destruct (if deliver_needs_buffer x st then _ else _) as [b s1] eqn:E.
  assert (objs s1 = objs s /\ sent s1 = sent s) as [Eo Es].
  { unfold reserveBuffer in E. repeat case_match; by simplify_eq. }
  destruct (deliver_locked x b st) as [dec st'] eqn:Ed.
  assert (sq_rel st st') as Hq by (unfold deliver_locked in Ed; repeat case_match; by simplify_eq).
  destruct dec; apply (mild_obj s s1 _ r st); try done; no_loop.
Qed.

Lemma mild_Read call r n st s i :
  i = IRead call r n \/ (exists seen, i = IReadWait call r n seen) ->
  objs s !! r = Some st -> mild s i (Stream_Read call r n st s).
Proof.
  intros Hi Hr. assert (forall r', loop r' i = 0%nat) as Hl by (intros; by destruct Hi as [->|[? ->]]).
  unfold Stream_Read. destruct (n =? 0); [apply mild_next; try done; intros r'; rewrite Hl; done|].
  destruct (Read_locked n st) as [dec st'] eqn:Ed.
  assert (sq_rel st st') as Hq by (unfold Read_locked in Ed; repeat case_match; by simplify_eq).
  destruct dec; apply (mild_obj s s _ r st); try done; intros r'; rewrite Hl; done.
Qed.

Lemma mild_CloseWrite call r st s : objs s !! r = Some st -> mild s (ICloseWrite call r) (CloseWrite call r st s).
Proof.
  intros Hr. unfold CloseWrite. destruct (CloseWrite_locked st) as [dec st'] eqn:Ed.
  assert (sq_rel st st') as Hq by (unfold CloseWrite_locked in Ed; repeat case_match; by simplify_eq).
  destruct dec; apply (mild_obj s s _ r st); try done; no_loop.
Qed.

Lemma mild_addCredit r n st s : objs s !! r = Some st -> mild s (IAddCredit r n) (addCredit r n st s).
Proof.
  intros Hr. unfold addCredit. destruct (addCredit_locked n st) as [dec st'] eqn:Ed.
  assert (sq_rel st st') as Hq by (unfold addCredit_locked in Ed; repeat case_match; by simplify_eq).
  destruct dec; apply (mild_obj s s _ r st); try done; no_loop.
Qed.

Lemma mild_remoteClose r st s : objs s !! r = Some st -> mild s (IRemoteClose r) (remoteClose r st s).
Proof.
  intros Hr. unfold remoteClose. destruct (remoteClose_locked st) as [dec st'] eqn:Ed.
  assert (sq_rel st st') as Hq by (unfold remoteClose_locked in Ed; repeat case_match; by simplify_eq).
  destruct dec; apply (mild_obj s s _ r st); try done; no_loop.
Qed.

Lemma mild_accept_locked r grant meta st s :
  objs s !! r = Some st -> mild s (IAcceptLocked r grant meta) (accept_locked r grant meta st s).
Proof.
  intros Hr. unfold accept_locked. destruct (handleAccept_locked grant meta st) as [b st'] eqn:E.
  assert (sq_rel st st') as Hq by (unfold handleAccept_locked in E; case_match; by simplify_eq).
  destruct b; apply (mild_obj s s _ r st); try done; no_loop.
Qed.

Lemma mild_reject_locked r code message st s :
  objs s !! r = Some st -> mild s (IRejectLocked r code message) (reject_locked r code message st s).
Proof.
  intros Hr. unfold reject_locked. destruct (handleReject_locked code message st) as [b st'] eqn:E.
  assert (sq_rel st st') as Hq by (unfold handleReject_locked in E; case_match; by simplify_eq).
  destruct b; apply (mild_obj s s _ r st); try done; no_loop.
Qed.

Lemma mild_setReset r code message st s :
  objs s !! r = Some st -> mild s (ISetReset r code message) (setReset r code message st s).
Proof.
  intros Hr. apply (mild_obj s s _ r st); try done. unfold setReset_locked. repeat case_match; done.
Qed.

Lemma mild_detach r st s : mild s (IDetach r) (detach r st s).
Proof. unfold detach. apply mild_next; try done; by case_bool_decide. Qed.

Lemma mild_detach_bytes r st s : objs s !! r = Some st -> mild s (IDetachBytes r) (detach_bytes r st s).
Proof. intros Hr. unfold detach_bytes. cbn. apply (mild_obj s s _ r st); try done; case_match; done. Qed.

Lemma mild_finish cfg r st s : objs s !! r = Some st -> mild s (IFinish r) (finish cfg r st s).
Proof.
  intros Hr. unfold finish, finish_locked. destruct (finished st); [by apply mild_next|].
  assert (mild s (IFinish r) (next [IDetach r; ICloseEndpoint r] (set_obj r (set_finished true st) s))) as H
    by (by apply (mild_obj s s _ r st)).
  destruct H. cbn. case_match; by constructor.
Qed.

Lemma mild_markOpened cfg r st s : objs s !! r = Some st -> mild s (IMarkOpened r) (markOpened cfg r st s).
Proof.
  intros Hr. unfold markOpened. destruct (markOpened_locked st) as [b st'] eqn:E.
  assert (sq_rel st st') as Hq by (unfold markOpened_locked in E; case_match; by simplify_eq).
  assert (mild s (IMarkOpened r) (next [] (set_obj r st' s))) as H by (by apply (mild_obj s s _ r st)).
  destruct H. cbn. case_match; by constructor.
Qed.

Lemma mild_closeEndpoint r st s : objs s !! r = Some st -> mild s (ICloseEndpoint r) (closeEndpoint r st s).
Proof. intros Hr. unfold closeEndpoint. cbn. apply (mild_obj s s _ r st); try done; destruct (ep st); done. Qed.

Lemma mild_acceptOpen cfg r meta a st s : mild s (IAcceptOpen r meta) (acceptOpen cfg r a st s).
Proof.
  unfold acceptOpen. repeat case_match; apply mild_next; try done; intros r'; cbn; lia.
Qed.

Lemma mild_acceptOpen_ready r e meta st s :
  objs s !! r = Some st -> mild s (IAcceptReady r e meta) (acceptOpen_ready r e meta st s).
Proof. intros Hr. apply (mild_obj s s _ r st); try done. intros r'. cbn. lia. Qed.

Lemma mild_Open_select call r c st s p :
  Open_select call r c st s = Some p -> mild s (IOpenSelect call r) p.
Proof.
  unfold Open_select. destruct c; try done; try (case_match; [|done]); intros [= <-]; apply mild_next; try done;
    intros r'; cbn; lia.
Qed.

Lemma mild_Open_result call r st s : mild s (IOpenResult call r) (Open_result call r st s).
Proof. unfold Open_result. repeat case_match; apply mild_next; try done; intros r'; cbn; lia. Qed.

Lemma mild_handleAccept m r st s : mild s (IHandleAccept m) (handleAccept m r st s).
Proof. unfold handleAccept. repeat case_match; by apply mild_next. Qed.

Lemma mild_on_id id i s f :
  (forall r, forallb bland (f r) = true /\ forall r', (tally (loop r') (f r) <= 0)%nat) -> mild s i (on_id id s f).
Proof.
  intros Hf. unfold on_id. destruct (streams s !! id) as [r|]; apply mild_next; try done; [apply Hf| |].
  - intros r'. destruct (Hf r) as [_ H]. specialize (H r'). lia.
  - intros r'. cbn. lia.
Qed.

Lemma mild_fail s : mild s IFail (Session_fail s).
Proof. unfold Session_fail. case_match; by apply mild_next. Qed.

Lemma mild_sendError code message w s : mild s (ISendError code message) (next [] (sendError code message w s)).
Proof.
  unfold sendError. destruct w; [by apply mild_next|]. constructor; cbn; try done; [apply sq_refl|].
  exists [error_frame_of code message]. split; [done|]. by constructor.
Qed.

(** ** The data path *)

(** A step's own and its effect on the other goroutines, in general. *)
Lemma fifo_core put put' s s' p t old new gs :
  fifo put s p -> p !! t = Some old -> length (objs s') = length (objs s) -> extends s s' ->
  (forall r, (length (objs s) <= r)%nat -> put' r = []) ->
  (forall f m, f ∈ sent s' -> frame_msg f = Some m -> f ∈ sent s \/ exists r st, objs s !! r = Some st /\ sid st = data_StreamID m) ->
  shapes s' new -> Forall (shapes s') gs ->
  (forall r, tally (loop r) new + tally_pool (loop r) gs <= tally (loop r) old)%nat ->
  (forall g r st st', g = new \/ g ∈ gs -> (1 <= tally (loop r) g)%nat -> objs s !! r = Some st -> objs s' !! r = Some st' ->
     sole s r (sid st) -> put' r = out_bytes (sid st) (sent s') ++ held r g ++ concat (sendQ st')) ->
  (forall r st st' h, objs s !! r = Some st -> objs s' !! r = Some st' -> sole s r (sid st) ->
     tally (loop r) old = 0%nat -> put r = out_bytes (sid st) (sent s) ++ h ++ concat (sendQ st) ->
     put' r = out_bytes (sid st) (sent s') ++ h ++ concat (sendQ st')) ->
  (forall r st, objs s !! r = Some st -> sole s r (sid st) -> out_bytes (sid st) (sent s') `prefix_of` put' r) ->
  fifo put' s' (<[t := new]> p ++ gs).
Proof.
  intros [F1 F2 F3 F4 F5 F6 F7] Ht Hlen Hext Hfresh Hsent Hnew Hgs Hloop Hlive Hother Hpre.
  assert (forall r st', objs s' !! r = Some st' ->
    exists st, objs s !! r = Some st /\ sid st' = sid st /\ inbound st' = inbound st) as Hback.
  { intros r st' E. destruct (objs s !! r) as [st|] eqn:E0.
    - destruct (Hext r st E0) as (x & Ex & ? & ?). exists st. simplify_eq. done.
    - apply lookup_lt_Some in E. apply lookup_ge_None in E0. lia. }
  assert (forall r, tally_pool (loop r) (<[t := new]> p ++ gs) <= tally_pool (loop r) p)%nat as Hle.
  { intros r. pose proof (tally_step (loop r) p t old new gs Ht). specialize (Hloop r). lia. }
  constructor.
  - apply Forall_app. split; [|done]. apply Forall_insert; [|done].
    eapply Forall_impl; [exact F1|]. intros g. by apply shapes_extends.
  - intros r. specialize (Hle r). specialize (F2 r). lia.
  - intros r Hr. rewrite Hlen in Hr. destruct (F3 r Hr). specialize (Hle r). split; [lia|auto].
  - intros r st' E. destruct (Hback r st' E) as (st & E0 & -> & _). by eapply F4.
  - intros f m Hf Hm. assert (exists r st, objs s !! r = Some st /\ sid st = data_StreamID m) as (r & st & E & Hid).
    { destruct (Hsent f m Hf Hm) as [?|?]; [by eapply F5|done]. }
    destruct (Hext r st E) as (st' & E' & Hs & _). exists r, st'. split; [done|congruence].
  - intros g r st' Hg Hl E Hin. destruct (Hback r st' E) as (st & E0 & Hs & Hi). rewrite Hs. rewrite Hs in Hin.
    apply (sole_back s) in Hin; [|done]. destruct (elem_step p t old new gs g Ht Hg) as [->|[Hg'|(t' & Hne & Hg')]].
    + by apply (Hlive new r st st'); auto.
    + by apply (Hlive g r st st'); auto.
    + apply (Hother r st st'); try done.
      * pose proof (tally_two (loop r) p t t' old g Ht Hg' Hne). specialize (F2 r). lia.
      * apply F6; try done. by eapply list_elem_of_lookup_2.
  - intros r st' E Hin. destruct (Hback r st' E) as (st & E0 & Hs & Hi). rewrite Hs. rewrite Hs in Hin.
    apply Hpre; [done|by apply (sole_back s s')].
Qed.

Lemma extends_obj r st st' s s' :
  objs s !! r = Some st -> objs s' = <[r := st']> (objs s) -> sid st' = sid st -> inbound st' = inbound st -> extends s s'.
Proof.
  intros Hr Eo Hs Hi r' x E. rewrite Eo. destruct (decide (r' = r)) as [->|Hne].
  - rewrite list_lookup_insert_eq by (by apply lookup_lt_Some in Hr). exists st'. simplify_eq. done.
  - rewrite list_lookup_insert_ne by done. by exists x.
Qed.

Definition add_put (put : nat -> bytes) (r : nat) (x : bytes) : nat -> bytes :=
  fun r' => if (r' =? r)%nat then put r' ++ x else put r'.

(** A write queues its bytes behind the others. *)
Lemma fifo_write put s s' p t i rest todo r st st' x :
  fifo put s p -> p !! t = Some (i :: rest) -> dataless i = true -> (forall r', loop r' i = 0%nat) ->
  objs s !! r = Some st -> objs s' = <[r := st']> (objs s) -> sent s' = sent s ->
  sid st' = sid st -> inbound st' = inbound st -> sendQ st' = sendQ st ++ [x] ->
  forallb bland todo = true -> (forall r', tally (loop r') todo = 0%nat) ->
  fifo (add_put put r x) s' (<[t := todo ++ rest]> p ++ []).
Proof.
  intros HF Ht Hi Hli Hr Eo Es Hs Hin Hq Hb Hlt. pose proof HF as [F1 F2 F3 F4 F5 F6 F7].
  pose proof (lookup_lt_Some _ _ _ Hr) as Hlt'.
  assert (shapes s (i :: rest)) as [_ Hrest] by (eapply Forall_lookup_1; [exact F1|done]).
  assert (extends s s') as Hext by (by eapply extends_obj).
  assert (forall r' x0 x1 h, objs s !! r' = Some x0 -> objs s' !! r' = Some x1 ->
    put r' = out_bytes (sid x0) (sent s) ++ h ++ concat (sendQ x0) ->
    add_put put r x r' = out_bytes (sid x0) (sent s') ++ h ++ concat (sendQ x1)) as Hstep.
  { intros r' x0 x1 h E0 E1 Hp. unfold add_put. rewrite Eo in E1. rewrite Es. destruct (Nat.eqb_spec r' r) as [->|Hne].
    - rewrite list_lookup_insert_eq in E1 by done. simplify_eq. rewrite Hq, concat_app, Hp, <- !app_assoc. cbn.
      by rewrite app_nil_r.
    - rewrite list_lookup_insert_ne in E1 by done. by simplify_eq. }
  apply (fifo_core put _ s s' p t (i :: rest)); try done.
  - by rewrite Eo, length_insert.
  - intros r' Hge. unfold add_put. destruct (Nat.eqb_spec r' r); [lia|]. by apply F3.
  - rewrite Es. auto.
  - apply shapes_app; [done|]. by apply (shapes_extends s).
  - intros r'. rewrite tally_app, tally_cons, Hli, Hlt. cbn. lia.
  - intros g r' x0 x1 [->|Hg] Hl E0 E1 Hf; [|by apply elem_of_nil in Hg].
    apply (Hstep r' x0 x1); try done. rewrite held_app by (by apply bland_dataless).
    rewrite <- (held_app r' [i] rest) by (cbn; by rewrite Hi).
    apply F6; try done; [by eapply list_elem_of_lookup_2|].
    rewrite tally_app, Hlt in Hl. cbn [app]. rewrite tally_cons. lia.
  - intros r' x0 x1 h E0 E1 Hf _ Hp. by apply (Hstep r' x0 x1).
  - intros r' x0 E0 Hf. rewrite Es. pose proof (F7 r' x0 E0 Hf). unfold add_put. case_match; [|done].
    by apply prefix_app_r.
Qed.

(** The write loop takes a chunk from the front of the queue. *)
Lemma fifo_take put s p t i r st st' x :
  fifo put s p -> p !! t = Some [i; IWgDone] -> i = IWriteLoop r \/ (exists seen, i = IWriteLoopWait r seen) ->
  objs s !! r = Some st -> sid st' = sid st -> inbound st' = inbound st ->
  concat (sendQ st) = x ++ concat (sendQ st') -> zlen x <= AppMaxDataBytes ->
  fifo put (set_obj r st' s)
    (<[t := [IReleaseBuffer (zlen x); ISend (MAppData (mkAppData (sid st) x)) ELoop; IWriteLoop r; IWgDone]]> p ++ []).
Proof.
  intros HF Ht Hi Hr Hs Hin Hq Hx. pose proof HF as [F1 F2 F3 F4 F5 F6 F7].
  pose proof (lookup_lt_Some _ _ _ Hr) as Hlt.
  assert (forall r', loop r' i = b2n (r' =? r)%nat) as Hli by (intros; by destruct Hi as [->|[? ->]]).
  assert (forall r', held r' [i; IWgDone] = []) as Hhi by (intros; by destruct Hi as [->|[? ->]]).
  assert (forall r', tally (loop r') [i; IWgDone] = b2n (r' =? r)%nat) as Htl.
  { intros r'. rewrite !tally_cons, Hli. cbn. lia. }
  apply (fifo_core put put s _ p t [i; IWgDone]); try done.
  - cbn. by rewrite length_insert.
  - by apply (extends_obj r st st').
  - intros r' Hge. by apply F3.
  - auto.
  - cbn. split_and!; try done. exists r, st'. split_and!; try done. by apply list_lookup_insert_eq.
  - intros r'. rewrite Htl. cbn. lia.
  - intros g r' x0 x1 [->|Hg] Hl E0 E1 Hf; [|by apply elem_of_nil in Hg]. cbn [objs set_obj with_objs] in E1. cbn [sent set_obj with_objs].
    assert (r' = r) as ->.
    { unfold tally in Hl. cbn in Hl. destruct (Nat.eqb_spec r' r); [done|]. cbn in Hl. lia. }
    rewrite list_lookup_insert_eq in E1 by done. assert (x0 = st) as -> by congruence. assert (x1 = st') as -> by congruence.
    cbn [held]. rewrite Nat.eqb_refl. cbn [data_Data].
    rewrite <- Hq. rewrite <- (app_nil_l (concat (sendQ st))), <- (Hhi r). apply F6; try done; [by eapply list_elem_of_lookup_2|].
    rewrite Htl, Nat.eqb_refl. cbn. lia.
  - intros r' x0 x1 h E0 E1 Hf Hz Hp. cbn [objs set_obj with_objs] in E1. rewrite Htl in Hz.
    destruct (Nat.eqb_spec r' r) as [->|Hne]; [done|]. rewrite list_lookup_insert_ne in E1 by done. by simplify_eq.
Qed.

(** The frame of an APP_DATA carries it back. *)
Lemma app_frame_data m f :
  u32 (data_StreamID m) = true -> zlen (data_Data m) <= AppMaxDataBytes ->
  app_frame (MAppData m) = Ok f -> frame_msg f = Some m.
Proof.
  intros Hid Hlen. unfold app_frame. cbn [appMessageType app_marshal].
  assert (carries m = true) as Hc by (destruct m; cbn in *; rewrite Hid; apply Z.leb_le in Hlen; by rewrite Hlen).
  pose proof (marshal_encoding m Hc) as E. change (MarshalBinary m) with (AppData_MarshalBinary m) in E.
  cbn. rewrite E. cbn. intros [= <-]. unfold frame_msg. cbn [Type_ Body]. rewrite Z.eqb_refl.
  unfold UnmarshalBinary. pose proof (unmarshal_encoding m Hc) as Eu. unfold unmarshal in Eu. cbn in Eu |- *. by rewrite Eu.
Qed.

Lemma app_frame_type m f : app_frame m = Ok f -> appMessageType m = Ok (Type_ f).
Proof.
  unfold app_frame. destruct (appMessageType m) as [typ|]; [|done]. cbn.
  destruct (app_marshal m); [|done]. by intros [= <-].
Qed.

Lemma app_frame_other m f :
  (forall d, m <> MAppData d) -> app_frame m = Ok f -> frame_msg f = None.
Proof.
  intros Hm E%app_frame_type. unfold frame_msg.
  destruct m; cbn [appMessageType] in E; try done; try (by edestruct Hm); injection E as <-; done.
Qed.

(** Local ids name one object. *)
Lemma local_ids cfg s r1 r2 st1 st2 :
  sess_ok cfg s -> objs s !! r1 = Some st1 -> objs s !! r2 = Some st2 -> inbound st1 = false ->
  sid st1 = sid st2 -> r1 = r2.
Proof.
  intros Hs E1 E2 Hi Hid. destruct (inbound st2) eqn:Hi2; [|by eapply (si_local _ _ Hs)].
  destruct (si_objs _ _ Hs r1 st1 E1) as [_ H1]. destruct (si_objs _ _ Hs r2 st2 E2) as [_ H2]. rewrite Hi in H1. rewrite Hi2 in H2.
  destruct H1 as (k & Hk & Hsid). destruct H2 as [_ H2]. pose proof (si_nextID _ _ Hs) as Hn. unfold maxLocalStreamID in Hn.
  rewrite <- Hid, Hsid in H2. exfalso.
  assert (Z.land (Z.lor (localBit cfg) k) 0x80000000 = localBit cfg) as E.
  { rewrite Z.land_lor_distr_l. assert (Z.land k 0x80000000 = 0) as ->.
    { change 0x80000000 with (2 ^ 31). rewrite <- (Z.mod_small k (2 ^ 31)), <- Z.land_ones, <- Z.land_assoc by lia.
      apply Z.land_0_r. }
    rewrite Z.lor_0_r. unfold localBit. by destruct (cfgRole cfg). }
  rewrite E in H2. revert H2. unfold localBit, remoteBit. by destruct (cfgRole cfg).
Qed.

(** The chunk goes out. *)
Lemma fifo_send put s p t m r st f :
  fifo put s p -> p !! t = Some [ISend (MAppData m) ELoop; IWriteLoop r; IWgDone] ->
  objs s !! r = Some st -> data_StreamID m = sid st -> frame_msg f = Some m ->
  fifo put (with_sent (sent s ++ [f]) s) (<[t := [IWriteLoop r; IWgDone]]> p ++ []).
Proof.
  intros HF Ht Hr Hid Hf. pose proof HF as [F1 F2 F3 F4 F5 F6 F7].
  assert (forall id, out_bytes id (sent s ++ [f]) = out_bytes id (sent s) ++ if data_StreamID m =? id then data_Data m else []) as Hout.
  { intros id. rewrite out_bytes_app. unfold out_bytes at 2. cbn. unfold frame_bytes. by rewrite Hf, app_nil_r. }
  assert (sole s r (sid st) -> put r = out_bytes (sid st) (sent s ++ [f]) ++ concat (sendQ st)) as Hr'.
  { intros Hin. rewrite Hout, Hid, Z.eqb_refl, <- app_assoc.
    rewrite (F6 [ISend (MAppData m) ELoop; IWriteLoop r; IWgDone] r st); try done.
    - cbn. by rewrite Nat.eqb_refl.
    - by eapply list_elem_of_lookup_2.
    - unfold tally. cbn. rewrite Nat.eqb_refl. cbn. lia. }
  assert (forall r' x, objs s !! r' = Some x -> sole s r' (sid x) -> r' <> r ->
    out_bytes (sid x) (sent s ++ [f]) = out_bytes (sid x) (sent s)) as Hother.
  { intros r' x E Hin Hne. rewrite Hout. destruct (Z.eqb_spec (data_StreamID m) (sid x)) as [Eq|]; [|by rewrite app_nil_r].
    destruct Hne. symmetry. apply (Hin r st); [done|congruence]. }
  apply (fifo_core put put s _ p t [ISend (MAppData m) ELoop; IWriteLoop r; IWgDone]); try done; cbn [objs sent with_sent].
  - intros r' x E. by exists x.
  - intros r' Hge. by apply F3.
  - intros f' m' [Hin|Hin]%elem_of_app Hm'; [by left|]. apply list_elem_of_singleton in Hin as ->. simplify_eq. right. by exists r, st.
  - intros r'. unfold tally. cbn. lia.
  - intros g r' x0 x1 [->|Hg] Hl E0 E1 Hin; [|by apply elem_of_nil in Hg]. simplify_eq.
    assert (r' = r) as ->. { unfold tally in Hl. cbn in Hl. destruct (Nat.eqb_spec r' r); [done|]. cbn in Hl. lia. }
    simplify_eq. by apply Hr'.
  - intros r' x0 x1 h E0 E1 Hin Hz Hp. assert (x1 = x0) as -> by congruence. rewrite (Hother r' x0); try done.
    intros ->. unfold tally in Hz. cbn in Hz. rewrite Nat.eqb_refl in Hz. done.
  - intros r' x E Hin. destruct (decide (r' = r)) as [->|Hne]; [|rewrite (Hother r' x) by done; by apply F7].
    simplify_eq. rewrite (Hr' Hin). by apply prefix_app_r.
Qed.

(** The token of a write loop moves to the goroutine it starts. *)
Lemma fifo_startWriteLoop put s p t r rest :
  fifo put s p -> p !! t = Some (IStartWriteLoop r :: rest) ->
  let pr := startWriteLoop r s in
  fifo put (after pr) (<[t := pushed pr ++ rest]> p ++ spawned pr).
Proof.
  intros HF Ht. cbn zeta. unfold startWriteLoop. destruct (closed s) eqn:Hc.
  { apply (fifo_mild put s p t (IStartWriteLoop r)); try done. apply mild_next; try done. intros r'. cbn. lia. }
  cbn [pushed spawned after next app].
  assert (shapes s (IStartWriteLoop r :: rest)) as [_ Hrest] by (eapply Forall_lookup_1; [apply HF|done]).
  apply (fifo_inert put s _ p t (IStartWriteLoop r :: rest) rest [[IWriteLoop r; IWgDone]] []); try done.
  - apply sq_refl.
  - cbn. by rewrite app_nil_r.
  - by apply (shapes_extends s); [apply extends_sq, sq_refl|].
  - by repeat constructor.
  - intros r'. rewrite tally_cons. unfold tally_pool. cbn. unfold tally. lia.
  - intros r' g [->|Hg] Hl Hle; [done|]. apply list_elem_of_singleton in Hg as ->.
    assert (r' = r) as ->. { unfold tally in Hl. cbn in Hl. destruct (Nat.eqb_spec r' r); [done|]. cbn in Hl. lia. }
    cbn [held]. destruct (held r rest) as [|c x] eqn:E; [done|].
    assert (1 <= tally (loop r) rest)%nat by (apply (held_loop s); [done|]; by rewrite E).
    rewrite tally_cons in Hle. cbn in Hle. rewrite Nat.eqb_refl in Hle. cbn in Hle. unfold tally in *. lia.
Qed.

(** No byte was sent for the id of an object that is new. *)
Lemma out_bytes_new put s p id n st : fifo put s p -> sole (alloc id n st s) (length (objs s)) (sid st) -> out_bytes (sid st) (sent s) = [].
Proof.
  intros HF Hin. assert (forall f, f ∈ sent s -> frame_bytes (sid st) f = []) as Hz.
  { intros f Hf. unfold frame_bytes. destruct (frame_msg f) as [m|] eqn:Em; [|done].
    destruct (ff_sent _ _ _ HF f m Hf Em) as (r & x & E & Ex). destruct (Z.eqb_spec (data_StreamID m) (sid st)) as [Eq|]; [|done].
    exfalso. assert (r = length (objs s)) as ->; [|by apply lookup_lt_Some in E; lia].
    apply (Hin r x); [by cbn; rewrite (lookup_app_l_Some _ _ _ _ E)|congruence]. }
  unfold out_bytes. clear -Hz. induction (sent s) as [|f l IH]; [done|]. cbn. rewrite Hz by (by apply elem_of_cons; left).
  apply IH. intros f' ?. apply Hz. by apply elem_of_cons; right.
Qed.

Lemma held_bland g r : forallb bland g = true -> held r g = [].
Proof. intros Hg. rewrite <- (app_nil_r g). by rewrite held_app by (by apply bland_dataless). Qed.

(** A new object has written nothing. *)
Lemma fifo_alloc put s p t i rest todo gs id n st :
  fifo put s p -> p !! t = Some (i :: rest) ->
  dataless i = true -> (forall r', loop r' i = 0%nat) ->
  forallb bland todo = true -> Forall (fun g => forallb bland g = true) gs ->
  (forall r', tally (loop r') todo + tally_pool (loop r') gs = b2n (r' =? length (objs s)))%nat ->
  sendQ st = [] -> u32 (sid st) = true ->
  fifo put (alloc id n st s) (<[t := todo ++ rest]> p ++ gs).
Proof.
  intros HF Ht Hi Hli Hb Hbg Htok Hq Hid. pose proof HF as [F1 F2 F3 F4 F5 F6 F7].
  set (r := length (objs s)) in *.
  assert (shapes s (i :: rest)) as [_ Hrest] by (eapply Forall_lookup_1; [exact F1|done]).
  assert (extends s (alloc id n st s)) as Hext.
  { intros r' x E. exists x. cbn. by rewrite (lookup_app_l_Some _ _ _ _ E). }
  assert (forall r', tally_pool (loop r') (<[t := todo ++ rest]> p ++ gs) = tally_pool (loop r') p + b2n (r' =? r))%nat as Htot.
  { intros r'. pose proof (tally_step (loop r') p t (i :: rest) (todo ++ rest) gs Ht) as E.
    rewrite tally_app, tally_cons, Hli in E. specialize (Htok r'). lia. }
  pose proof (out_bytes_new put s p id n st HF) as Hnone. fold r in Hnone.
  destruct (F3 r (le_n _)) as [Hr0 Hp0].
  constructor.
  - apply Forall_app. split.
    + apply Forall_insert; [eapply Forall_impl; [exact F1|]; intros g; by apply shapes_extends|].
      apply shapes_app; [done|]. by apply (shapes_extends s).
    + eapply Forall_impl; [exact Hbg|]. intros g Hg. rewrite <- (app_nil_r g). by apply shapes_app.
  - intros r'. rewrite Htot. destruct (Nat.eqb_spec r' r) as [->|]; cbn; [lia|]. specialize (F2 r'). lia.
  - cbn. intros r'. rewrite length_app. cbn. intros Hge. destruct (F3 r' ltac:(lia)) as [E1 E2]. rewrite Htot, E1.
    destruct (Nat.eqb_spec r' r) as [->|]; [unfold r in Hge; lia|done].
  - intros r' x. cbn. intros [E|[-> ->]]%lookup_snoc_inv; [by eapply F4|done].
  - cbn. intros f m Hf Hm. destruct (F5 f m Hf Hm) as (r' & x & E & Ex). exists r', x. by rewrite (lookup_app_l_Some _ _ _ _ E).
  - cbn [sent alloc with_streams with_objs with_nextID]. intros g r' x Hg Hl E Hin.
    apply lookup_snoc_inv in E as [E|[-> ->]].
    + assert (r' <> r) as Hne by (apply lookup_lt_Some in E; unfold r; lia). apply Nat.eqb_neq in Hne.
      destruct (elem_step p t _ _ gs g Ht Hg) as [->|[Hg'|(t' & _ & Hg')]].
      * rewrite held_app by (by apply bland_dataless). rewrite <- (held_app r' [i] rest) by (cbn; by rewrite Hi).
        apply F6; try done; [by eapply list_elem_of_lookup_2| |by apply (sole_back s (alloc id n st s))].
        specialize (Htok r'). rewrite Hne in Htok. cbn in Htok.
        rewrite tally_app in Hl. cbn [app]. rewrite tally_cons. lia.
      * specialize (Htok r'). rewrite Hne in Htok. cbn in Htok. pose proof (tally_pool_elem (loop r') gs g Hg'). lia.
      * apply F6; try done; [by eapply list_elem_of_lookup_2|by apply (sole_back s (alloc id n st s))].
    + rewrite Hq, (Hnone Hin). cbn. rewrite app_nil_r. fold r. rewrite Hp0. symmetry.
      assert (forall t' g', p !! t' = Some g' -> tally (loop r) g' = 0%nat) as Hz.
      { intros t' g' Hg'. pose proof (tally_pool_elem (loop r) p g' ltac:(by eapply list_elem_of_lookup_2)). lia. }
      destruct (elem_step p t _ _ gs g Ht Hg) as [->|[Hg'|(t' & _ & Hg')]].
      * rewrite held_app by (by apply bland_dataless). destruct (held r rest) eqn:Eh; [done|].
        pose proof (held_loop s r rest Hrest ltac:(by rewrite Eh)). specialize (Hz t _ Ht). rewrite tally_cons in Hz. lia.
      * apply held_bland. rewrite Forall_forall in Hbg. by apply Hbg.
      * specialize (Hz t' g Hg'). fold r in Hl. lia.
  - cbn [sent alloc with_streams with_objs with_nextID]. intros r' x [E|[-> ->]]%lookup_snoc_inv Hin; [by apply F7; [|by apply (sole_back s (alloc id n st s))]|].
    rewrite (Hnone Hin). apply prefix_nil.
Qed.

(** A function's early return drops what it still had to do. *)
Lemma fifo_sendApp cfg put s p t m k w rest new s' :
  fifo put s p -> sess_ok cfg s -> stack_ok (ISend m k :: rest) -> p !! t = Some (ISend m k :: rest) ->
  sendApp m k w rest s = (new, s') -> fifo put s' (<[t := new]> p ++ []).
Proof.
  intros HF Hs [Hk _] Ht. pose proof HF as [F1 F2 F3 F4 F5 F6 F7].
  assert (shapes s (ISend m k :: rest)) as [Hm Hrest] by (eapply Forall_lookup_1; [exact F1|done]).
  assert (forall new, shapes s new -> (forall r, tally (loop r) new <= tally (loop r) rest)%nat ->
    (forall r, (1 <= tally (loop r) new)%nat -> held r new = held r (ISend m k :: rest)) ->
    fifo put s (<[t := new]> p ++ [])) as Hret.
  { intros new' Hsh Hl Hh. apply (fifo_inert put s s p t (ISend m k :: rest) new' [] []); try done.
    - apply sq_refl.
    - by rewrite app_nil_r.
    - intros r. rewrite tally_cons. specialize (Hl r). cbn. lia.
    - intros r g [->|Hg] H1 _; [by apply Hh|by apply elem_of_nil in Hg]. }
  assert (dataless (ISend m k) = true -> forall r, held r (ISend m k :: rest) = held r rest) as Hhm.
  { intros Hd r. apply (held_app r [ISend m k] rest). cbn [forallb]. by rewrite Hd. }
  assert (forall e new, new = on_error k e rest -> fifo put s (<[t := new]> p ++ [])) as Herr.
  { intros e new' ->. destruct k; cbn [on_error head_ok] in *.
    - apply Hret; try done. intros r _. symmetry. apply Hhm. destruct m; try done. by destruct Hm.
    - apply Hret; try done. intros r _. symmetry. apply Hhm. destruct m; try done. by destruct Hm.
    - apply Hret; try done; [intros r'; cbn; lia|]. intros r' H. cbn in H. lia.
    - apply Hret; try done; [intros r'; cbn; lia|]. intros r' H. cbn in H. lia.
    - apply Hret; try done; [intros r'; cbn; lia|]. intros r' H. cbn in H. lia.
    - apply Hret; try done; [intros r'; cbn; lia|]. intros r' H. cbn in H. lia. }
  unfold sendApp. destruct (app_frame m) as [f|e] eqn:Ef; [|intros [= <- <-]; by apply (Herr e)].
  destruct w as [e|]; intros [= <- <-]; [by apply (Herr e)|].
  destruct (decide (dataless (ISend m k) = true)) as [Hd|Hd].
  - assert (frame_msg f = None) as Hf by (apply (app_frame_other m); [by intros d ->|done]).
    apply (fifo_inert put s _ p t (ISend m k :: rest) rest [] [f]); try done.
    + apply sq_refl.
    + by constructor.
    + by apply (shapes_extends s); [apply extends_sq, sq_refl|].
    + intros r. rewrite tally_cons. cbn. lia.
    + intros r g [->|Hg] _ _; [by rewrite Hhm|by apply elem_of_nil in Hg].
  - destruct m; try done. destruct Hm as (-> & r & st & -> & Hr & Hid & Hlen).
    apply (fifo_send put s p t m r st f); try done. apply app_frame_data; try done. rewrite Hid. by eapply F4.
Qed.

(** ** Every step *)

Lemma fifo_ext put put' s p : (forall r, put' r = put r) -> fifo put s p -> fifo put' s p.
Proof.
  intros E [F1 F2 F3 F4 F5 F6 F7]. constructor; try done.
  - intros r Hr. rewrite E. by apply F3.
  - intros g r st. rewrite E. apply F6.
  - intros r st. rewrite E. apply F7.
Qed.

Lemma put_step_other r i s : (forall call r' x, i <> IWrite call r' x) -> put_step r i s = [].
Proof. intros Hi. destruct i; try done. by edestruct Hi. Qed.

Section Steps.

Context (cfg : Config) (fmt_q : bytes -> bytes) (ExecCmd_UnmarshalBinary : bytes -> result ExecCmd).

Lemma fifo_Write put s p t call r x rest st :
  fifo put s p -> p !! t = Some (IWrite call r x :: rest) -> objs s !! r = Some st ->
  let pr := Stream_Write call r x st s in
  fifo (fun r' => put r' ++ put_step r' (IWrite call r x) s) (after pr) (<[t := pushed pr ++ rest]> p ++ spawned pr).
Proof.
  intros HF Ht Hr. cbn zeta.
  assert (forall r', put_step r' (IWrite call r x) s =
    if (r' =? r)%nat then match pushed (Stream_Write call r x st s) with [IReturn _ (RCount n)] => take (Z.to_nat n) x | _ => [] end
    else []) as Hput.
  { intros r'. cbn [put_step]. destruct (Nat.eqb_spec r' r) as [->|]; [by rewrite Hr|]. by destruct (objs s !! r'). }
  assert (forall pr, mild s (IWrite call r x) pr -> (forall r', put_step r' (IWrite call r x) s = []) ->
    fifo (fun r' => put r' ++ put_step r' (IWrite call r x) s) (after pr) (<[t := pushed pr ++ rest]> p ++ spawned pr)) as Hmild.
  { intros pr Hm Hz. apply (fifo_ext put); [intros r'; by rewrite Hz, app_nil_r|]. by apply (fifo_mild put s p t (IWrite call r x)). }
  revert Hput. unfold Stream_Write. destruct (Z.eqb_spec (zlen x) 0) as [Hx|Hx]; intros Hput.
  { apply Hmild; [by apply mild_next|]. intros r'. rewrite Hput. by destruct (r' =? r)%nat. }
  destruct (if write_needs_buffer x st then _ else _) as [b s1] eqn:E.
  assert (objs s1 = objs s /\ sent s1 = sent s) as [Eo Es].
  { unfold reserveBuffer in E. repeat case_match; by simplify_eq. }
  destruct (Write_locked x b st) as [dec st'] eqn:Ew.
  destruct (decide (dec = WR_ok)) as [->|Hn].
  - cbn [pushed spawned after next] in *.
    assert (st' = Broadcast (set_sendBytes (to_u 64 (sendBytes st + zlen x)) (set_sendQ (sendQ st ++ [x]) st))) as ->
      by (unfold Write_locked in Ew; repeat case_match; by simplify_eq).
    apply (fifo_ext (add_put put r x)).
    + intros r'. rewrite Hput. unfold add_put. destruct (r' =? r)%nat; [|by rewrite app_nil_r].
      rewrite take_ge; [done|]. unfold zlen. lia.
    + apply (fifo_write put s _ p t (IWrite call r x) rest [IReturn call (RCount (zlen x))] r st
        (Broadcast (set_sendBytes (to_u 64 (sendBytes st + zlen x)) (set_sendQ (sendQ st ++ [x]) st)))); try done.
      cbn. by rewrite Eo.
  - rewrite (Write_refused _ _ _ _ _ Ew Hn) in *.
    destruct dec as [[[]|]| | | |]; try done; apply Hmild;
      try (intros r'; rewrite Hput; by destruct (r' =? r)%nat); by apply (mild_obj s s1 _ r st).
Qed.

Lemma fifo_writeLoop put s p t i r st :
  fifo put s p -> stream_wf st -> p !! t = Some [i; IWgDone] ->
  i = IWriteLoop r \/ (exists seen, i = IWriteLoopWait r seen) -> objs s !! r = Some st ->
  let pr := writeLoop r st s in
  fifo put (after pr) (<[t := pushed pr ++ [IWgDone]]> p ++ spawned pr).
Proof.
  intros HF W Ht Hi Hr. cbn zeta. assert (dataless i = true) as Hd by (by destruct Hi as [->|[? ->]]).
  assert (forall r', loop r' i = b2n (r' =? r)%nat) as Hl by (intros; by destruct Hi as [->|[? ->]]).
  unfold writeLoop. destruct (writeLoop_locked st) as [dec st'] eqn:E.
  assert ((forall x, dec <> WL_send x) -> sq_rel st st') as Hq.
  { intros Hn. unfold writeLoop_locked in E. repeat case_match; simplify_eq; try done; by edestruct Hn. }
  destruct dec as [|x| |seen].
  2: { apply writeLoop_send in E as (Hx & _ & Hc & _ & q & ->); [|by apply wf_sendQ|by apply wf_credit].
       cbn [pushed spawned after next app]. by apply (fifo_take put s p t i r st); try done; lia. }
  all: apply (fifo_mild put s p t i); try done; apply (mild_obj s s _ r st); try done;
    try (by apply Hq); intros r'; rewrite Hl; cbn; lia.
Qed.

(** ** Objects change only through the sections of [Stream.v] *)

Inductive runs : instr -> nat -> section -> Prop :=
  | R_acceptOpen r e meta : runs (IAcceptReady r e meta) r SecAcceptOpen
  | R_accept r grant meta : runs (IAcceptLocked r grant meta) r (SecHandleAccept grant meta)
  | R_reject r code message : runs (IRejectLocked r code message) r (SecHandleReject code message)
  | R_closeReady r : runs (ICloseReady r) r SecCloseReady
  | R_deliver r x b : runs (IDeliver r x) r (SecDeliver x b)
  | R_addCredit r n : runs (IAddCredit r n) r (SecAddCredit n)
  | R_remoteClose r : runs (IRemoteClose r) r SecRemoteClose
  | R_detach r : runs (IDetachBytes r) r SecDetach
  | R_finish r : runs (IFinish r) r SecFinish
  | R_closeEndpoint r : runs (ICloseEndpoint r) r SecCloseEndpoint
  | R_markOpened r : runs (IMarkOpened r) r SecMarkOpened
  | R_attach r e : runs (IAttachEndpoint r e) r (SecAttach e)
  | R_writeLoop r : runs (IWriteLoop r) r SecWriteLoop
  | R_writeLoopWait r seen : runs (IWriteLoopWait r seen) r SecWriteLoop
  | R_setReset r code message : runs (ISetReset r code message) r (SecSetReset code message)
  | R_broadcast r : runs (IBroadcast r) r SecBroadcast
  | R_write call r x b : runs (IWrite call r x) r (SecWrite x b)
  | R_read call r n : runs (IRead call r n) r (SecRead n)
  | R_readWait call r n seen : runs (IReadWait call r n seen) r (SecRead n)
  | R_closeWrite call r : runs (ICloseWrite call r) r SecCloseWrite.

(** The objects [Open] and [handleOpen] make. *)
Definition fresh_stream (st : Stream) : Prop :=
  (exists id svc, st = set_rcvWindow AppInitialWindow (set_opening true (newStream id svc false)))
  \/ exists id svc, st = set_accepting true (newStream id svc true).

Definition allocates (i : instr) : bool := match i with IOpen _ _ _ | IHandleOpen _ => true | _ => false end.

Inductive objs_step (i : instr) (s s' : Session) : Prop :=
  | OS_same : objs s' = objs s -> objs_step i s s'
  | OS_run r st c : runs i r c -> objs s !! r = Some st -> objs s' = <[r := run_section c st]> (objs s) -> objs_step i s s'
  | OS_new st : allocates i = true -> fresh_stream st -> objs s' = objs s ++ [st] -> objs_step i s s'.

Lemma reserve_objs (b : bool) n s b' s1 : (if b then reserveBuffer n s else (false, s)) = (b', s1) -> objs s1 = objs s.
Proof. unfold reserveBuffer. intros H. repeat case_match; by simplify_eq. Qed.

(** A handler on the object [st] whose section is [c]. *)
Lemma run_obj i r st c s s' :
  runs i r c -> objs s !! r = Some st -> objs s' = <[r := run_section c st]> (objs s) -> objs_step i s s'.
Proof. apply OS_run. Qed.

Lemma run_writeLoop i r st s :
  runs i r SecWriteLoop -> objs s !! r = Some st -> objs_step i s (after (writeLoop r st s)).
Proof.
  intros Hi Hr. apply (run_obj i r st SecWriteLoop); [done|done|]. unfold writeLoop. cbn [run_section].
  by destruct (writeLoop_locked st) as [[] ?].
Qed.

Lemma run_Read i call r n st s :
  runs i r (SecRead n) -> objs s !! r = Some st -> objs_step i s (after (Stream_Read call r n st s)).
Proof.
  intros Hi Hr. unfold Stream_Read. destruct (n =? 0); [by apply OS_same|].
  apply (run_obj i r st (SecRead n)); [done|done|]. cbn [run_section]. by destruct (Read_locked n st) as [[] ?].
Qed.

Lemma run_Write call r x st s : objs s !! r = Some st -> objs_step (IWrite call r x) s (after (Stream_Write call r x st s)).
Proof.
  intros Hr. unfold Stream_Write. destruct (zlen x =? 0); [by apply OS_same|].
  destruct (if write_needs_buffer x st then _ else _) as [b s1] eqn:E. apply reserve_objs in E.
  apply (run_obj _ r st (SecWrite x b)); [constructor|done|]. cbn [run_section].
  destruct (Write_locked x b st) as [[] ?]; cbn; by rewrite E.
Qed.

Lemma run_deliver r x st s : objs s !! r = Some st -> objs_step (IDeliver r x) s (after (deliver r x st s)).
Proof.
  intros Hr. unfold deliver. destruct (if deliver_needs_buffer x st then _ else _) as [b s1] eqn:E. apply reserve_objs in E.
  apply (run_obj _ r st (SecDeliver x b)); [constructor|done|]. cbn [run_section].
  destruct (deliver_locked x b st) as [[] ?]; cbn; by rewrite E.
Qed.

Lemma run_finish r st s : objs s !! r = Some st -> objs_step (IFinish r) s (after (finish cfg r st s)).
Proof.
  intros Hr. unfold finish. apply (run_obj _ r st SecFinish); [constructor|done|]. cbn [run_section].
  unfold finish_locked. destruct (finished st) eqn:E; cbn; [by rewrite list_insert_id|]. by case_match.
Qed.

Lemma run_markOpened r st s : objs s !! r = Some st -> objs_step (IMarkOpened r) s (after (markOpened cfg r st s)).
Proof.
  intros Hr. unfold markOpened. apply (run_obj _ r st SecMarkOpened); [constructor|done|]. cbn [run_section].
  destruct (markOpened_locked st). cbn. by case_match.
Qed.

Lemma new_Open call service meta s : objs_step (IOpen call service meta) s (after (Open cfg fmt_q call service meta s)).
Proof. unfold Open. repeat (case_match; [by apply OS_same|]). eapply OS_new; [done| |reflexivity]. left. eauto. Qed.

Lemma new_handleOpen m s : objs_step (IHandleOpen m) s (after (handleOpen cfg m s)).
Proof. unfold handleOpen. repeat (case_match; [by apply OS_same|]). eapply OS_new; [done| |reflexivity]. right. eauto. Qed.

Lemma same_on_id i id s f : objs_step i s (after (on_id id s f)).
Proof. unfold on_id. case_match; by apply OS_same. Qed.

Lemma same_Serve call c s pr : Serve ExecCmd_UnmarshalBinary call c s = Some pr -> objs_step (IServe call) s (after pr).
Proof. unfold Serve. intros H. repeat case_match; simplify_eq; by apply OS_same. Qed.

Lemma same_acceptOpen r meta a st s : objs_step (IAcceptOpen r meta) s (after (acceptOpen cfg r a st s)).
Proof. unfold acceptOpen. repeat case_match; by apply OS_same. Qed.

Lemma step_objs i c s pr :
  step_instr cfg fmt_q ExecCmd_UnmarshalBinary i c s = Some pr -> objs_step i s (after pr).
Proof.
  assert (forall r f, on_obj r s f = Some pr -> exists st, objs s !! r = Some st /\ pr = f st s) as Hobj.
  { intros r f. unfold on_obj. destruct (objs s !! r) as [st|]; intros; simplify_eq; eauto. }
  destruct i; cbn [step_instr]; try (by apply same_Serve); destruct c; try done; intros H;
    try (apply Hobj in H as (st & Hr & ->)).
  all: try (simplify_eq; solve [by apply OS_same | apply same_on_id | apply new_Open | apply new_handleOpen]).
  all: try (by eauto using same_acceptOpen, run_deliver, run_finish, run_markOpened, run_Write, run_writeLoop, run_Read, runs).
  all: try (eapply run_obj; [constructor|done|reflexivity]).
  all: try (by unfold Open_select in H; repeat case_match; simplify_eq; apply OS_same).
  - destruct (streams s !! accept_StreamID m) as [r|]; [|simplify_eq; by apply OS_same].
    apply Hobj in H as (st & Hr & ->). unfold handleAccept. repeat case_match; by apply OS_same.
  - apply (run_obj _ r st (SecHandleAccept grant meta)); [constructor|done|]. unfold accept_locked. cbn [run_section].
    by destruct (handleAccept_locked grant meta st) as [[] ?].
  - apply (run_obj _ r st (SecHandleReject code message)); [constructor|done|]. unfold reject_locked. cbn [run_section].
    by destruct (handleReject_locked code message st) as [[] ?].
  - apply (run_obj _ r st (SecAddCredit n)); [constructor|done|]. unfold addCredit. cbn [run_section].
    by destruct (addCredit_locked n st) as [[] ?].
  - apply (run_obj _ r st SecRemoteClose); [constructor|done|]. unfold remoteClose. cbn [run_section].
    by destruct (remoteClose_locked st) as [[] ?].
  - unfold Open_result. repeat case_match; by apply OS_same.
  - simplify_eq. apply OS_same. unfold sendError. by case_match.
  - simplify_eq. apply OS_same. unfold Session_fail. by case_match.
  - apply OS_same. cbn. by case_match.
  - simplify_eq. apply OS_same. unfold releaseBuffer. cbn. by case_match.
  - simplify_eq. apply OS_same. unfold startWriteLoop. by case_match.
  - destruct (objs s !! r) as [st|] eqn:Hr; [|done]. case_match; [|done]. simplify_eq. apply run_writeLoop; [constructor|done].
  - destruct (objs s !! r) as [st|] eqn:Hr; [|done]. case_match; [|done]. simplify_eq. apply run_Read; [constructor|done].
  - apply (run_obj _ r st SecCloseWrite); [constructor|done|]. unfold CloseWrite. cbn [run_section].
    by destruct (CloseWrite_locked st) as [[] ?].
Qed.

(** ** Every step keeps the bytes in order *)

Lemma mild_Serve call c s pr : Serve ExecCmd_UnmarshalBinary call c s = Some pr -> mild s (IServe call) pr.
Proof.
  unfold Serve. destruct c as [| |[f|e]| | | | | |]; try done; [|by intros [= <-]; apply mild_next].
  destruct (frame_ok f); [|done].
  destruct (handleFrame ExecCmd_UnmarshalBinary f) as [h|[m e]] eqn:E; intros [= <-]; [|by apply mild_next].
  unfold handleFrame in E. destruct (_ || _); [done|].
  destruct (DecodeMessageBody _ _ _) as [m|] eqn:Ed; [|done].
  destruct m; simplify_eq; try (by apply mild_next).
  constructor; cbn; try done; [apply sq_refl|by apply sent_same|]. split; [done|]. intros rest Hrest. split_and!; try done.
  by apply DecodeMessageBody_open, AppOpen_unmarshal_bounds in Ed as [? _].
Qed.

Lemma Open_fifo put s p t call service meta rest :
  fifo put s p -> let pr := Open cfg fmt_q call service meta s in
  sess_ok cfg s -> sess_ok cfg (after pr) -> p !! t = Some (IOpen call service meta :: rest) ->
  fifo put (after pr) (<[t := pushed pr ++ rest]> p ++ spawned pr).
Proof.
  intros HF. cbn zeta. intros Hs. unfold Open.
  assert (forall o, sess_ok cfg s -> p !! t = Some (IOpen call service meta :: rest) ->
    fifo put s (<[t := [IReturn call o] ++ rest]> p ++ [])) as Hret.
  { intros o _ Ht. apply (fifo_mild put s p t (IOpen call service meta) rest (next [IReturn call o] s)); try done.
    by apply mild_next. }
  destruct (negb (ValidAppService service)); [apply Hret|]. destruct (AppMaxMetaBytes <? zlen meta); [apply Hret|].
  destruct (closed s); [apply Hret|]. destruct (AppMaxStreams <=? Z.of_nat (size (streams s))); [apply Hret|].
  destruct (Z.leb_spec maxLocalStreamID (nextID s)) as [|Hn]; [apply Hret|].
  cbn [pushed spawned after next]. intros Hs' Ht.
  apply (fifo_alloc put s p t (IOpen call service meta)
    rest [ISend (MAppOpen (mkAppOpen (Z.lor (localBit cfg) (to_u 32 (nextID s + 1))) service meta)) (EOpen call (length (objs s)));
          IOpenSelect call (length (objs s))] []); try done.
  - intros r'. unfold tally, tally_pool. cbn. lia.
  - cbn. pose proof (si_nextID _ _ Hs) as Hnext. unfold maxLocalStreamID in *. rewrite to_u32_id by lia.
    rewrite lor_high by (lia || apply localBit_cases). apply in_u_spec. destruct (localBit_cases cfg) as [->| ->]; lia.
Qed.

Lemma handleOpen_fifo put s p t m rest :
  fifo put s p -> let pr := handleOpen cfg m s in
  sess_ok cfg (after pr) -> p !! t = Some (IHandleOpen m :: rest) ->
  fifo put (after pr) (<[t := pushed pr ++ rest]> p ++ spawned pr).
Proof.
  intros HF. cbn zeta. unfold handleOpen.
  assert (forall todo, forallb bland todo = true -> (forall r, tally (loop r) todo = 0%nat) ->
    sess_ok cfg s -> p !! t = Some (IHandleOpen m :: rest) ->
    fifo put s (<[t := todo ++ rest]> p ++ [])) as Hret.
  { intros todo Hb Hl _ Ht. apply (fifo_mild put s p t (IHandleOpen m) rest (next todo s)); try done.
    apply mild_next; try done. intros r. by rewrite Hl. }
  destruct (_ || _ || _ || _); [by apply Hret|]. destruct (closed s); [by apply (Hret [])|].
  destruct (streams s !! open_StreamID m); [by apply Hret|].
  destruct (AppMaxStreams <=? Z.of_nat (size (streams s))); [by apply Hret|].
  cbn [pushed spawned after next]. intros Hs' Ht.
  apply (fifo_alloc put s p t (IHandleOpen m) rest [] [[IAcceptOpen (length (objs s)) (open_Meta m)]] (open_StreamID m)
    (nextID s) (set_accepting true (newStream (open_StreamID m) (open_Service m) true))); try done.
  - by repeat constructor.
  - intros r'. unfold tally, tally_pool. cbn. unfold tally. cbn. lia.
  - assert (shapes s (IHandleOpen m :: rest)) as [Hid _] by (eapply Forall_lookup_1; [apply HF|done]). done.
Qed.

Lemma mild_failStreams refs c s pr :
  step_instr cfg fmt_q ExecCmd_UnmarshalBinary (IFailStreams refs) c s = Some pr -> mild s (IFailStreams refs) pr.
Proof.
  destruct refs as [|r refs]; cbn; destruct c; try done; [by intros [= <-]; apply mild_next|].
  destruct ((r :: refs) !! i) as [r'|]; [|done]. intros [= <-]. by apply mild_next.
Qed.

Lemma step_fifo put s p t i c rest pr :
  fifo put s p -> sess_ok cfg s -> sess_ok cfg (after pr) -> stack_ok (i :: rest) ->
  (forall r st, objs s !! r = Some st -> stream_wf st) -> p !! t = Some (i :: rest) ->
  step_instr cfg fmt_q ExecCmd_UnmarshalBinary i c s = Some pr ->
  fifo (fun r => put r ++ put_step r i s) (after pr) (<[t := pushed pr ++ rest]> p ++ spawned pr).
Proof.
  intros HF Hs Hs' [Hh _] Hwf Ht H.
  assert (forall r f, on_obj r s f = Some pr -> exists st, objs s !! r = Some st /\ pr = f st s) as Hobj.
  { intros r f. unfold on_obj. destruct (objs s !! r) as [st|]; intros; simplify_eq; eauto. }
  assert (fifo put (after pr) (<[t := pushed pr ++ rest]> p ++ spawned pr) -> (forall call r' x, i <> IWrite call r' x) ->
    fifo (fun r => put r ++ put_step r i s) (after pr) (<[t := pushed pr ++ rest]> p ++ spawned pr)) as Hno.
  { intros HF' Hi. apply (fifo_ext put); [|done]. intros r. by rewrite put_step_other, app_nil_r. }
  assert (mild s i pr -> dataless i = true -> (forall call r' x, i <> IWrite call r' x) ->
    fifo (fun r => put r ++ put_step r i s) (after pr) (<[t := pushed pr ++ rest]> p ++ spawned pr)) as Hm.
  { intros Hmi Hd Hi. apply Hno; [|done]. by apply (fifo_mild put s p t i). }
  revert H. destruct i; try (by intros ?%mild_failStreams; apply Hm);
    cbn [step_instr]; try (by intros ?%mild_Serve; apply Hm); destruct c; try done; intros H; try (apply Hobj in H as (st & Hr & ->)).
  all: try (simplify_eq; by apply Hm; [apply mild_next|..]).
  all: try (simplify_eq; by apply Hm; [apply mild_on_id|..]).
  all: try (by apply Hm; eauto using mild_acceptOpen, mild_acceptOpen_ready, mild_accept_locked, mild_reject_locked,
    mild_deliver, mild_addCredit, mild_remoteClose, mild_detach, mild_detach_bytes, mild_finish, mild_closeEndpoint,
    mild_markOpened, mild_setReset, mild_CloseWrite, mild_Open_result, mild_Read).
  all: try (by apply Hm; [apply (mild_obj s s _ r st)|..]).
  all: try (destruct (objs s !! r) as [st|] eqn:Hr; [|done]; by apply Hm; [eapply mild_Open_select|..]).
  all: try (by case_match; simplify_eq; apply Hm; [apply mild_next|..]).
  - simplify_eq. apply Hno; [|done]. by apply handleOpen_fifo.
  - destruct (streams s !! accept_StreamID m) as [r|]; [|simplify_eq; by apply Hm; [apply mild_next|..]].
    apply Hobj in H as (st & Hr & ->). apply Hm; [apply mild_handleAccept|done..].
  - simplify_eq. apply Hno; [|done]. by apply Open_fifo.
  - simplify_eq. by apply Hm; [apply mild_sendError|..].
  - simplify_eq. by apply Hm; [apply mild_fail|..].
  - simplify_eq. apply Hm; [|done..]. apply mild_next; try done; unfold releaseBuffer; by case_match.
  - simplify_eq. apply Hno; [|done]. by apply fifo_startWriteLoop.
  - cbn in Hh. subst rest. apply Hno; [|done]. apply (fifo_writeLoop put s p t (IWriteLoop r)); eauto.
  - cbn in Hh. subst rest. destruct (objs s !! r) as [st|] eqn:Hr; [|done]. case_match; [|done]. simplify_eq.
    apply Hno; [|done]. apply (fifo_writeLoop put s p t (IWriteLoopWait r seen)); eauto.
  - apply Hm; [|done..]. unfold maybeFinish. case_match; by apply mild_next.
  - by apply fifo_Write.
  - destruct (objs s !! r) as [st|] eqn:Hr; [|done]. case_match; [|done]. simplify_eq.
    apply Hm; [|done..]. eapply mild_Read; eauto.
Qed.

Lemma exec_fifo put s p t i c rest g gs s' :
  fifo put s p -> sess_ok cfg s -> stack_ok (i :: rest) ->
  (forall r st, objs s !! r = Some st -> stream_wf st) -> p !! t = Some (i :: rest) ->
  exec cfg fmt_q ExecCmd_UnmarshalBinary i rest c s = Some (g, gs, s') ->
  fifo (fun r => put r ++ put_step r i s) s' (<[t := g]> p ++ gs).
Proof.
  intros HF Hs Hst Hwf Ht E. pose proof (exec_good cfg fmt_q ExecCmd_UnmarshalBinary _ _ _ _ _ _ _ Hs Hst E) as [Hs' _ _ _ _ _].
  apply exec_cases in E as [(m & k & w & -> & -> & E & ->)|(pr & E & -> & -> & ->)].
  - apply (fifo_ext put); [intros r; cbn; by rewrite app_nil_r|]. by apply (fifo_sendApp cfg put s p t m k w rest).
  - by apply (step_fifo put s p t i c).
Qed.

(** ** Receiving *)

(** What was delivered is what was read and what waits. *)
Definition inbound_ok (fed got : nat -> bytes) (s : Session) : Prop :=
  (forall r st, objs s !! r = Some st -> fed r = got r ++ concat (inQ st))
  /\ forall r, (length (objs s) <= r)%nat -> fed r = [] /\ got r = [].

Definition receives (i : instr) : bool :=
  match i with IDeliver _ _ | IRead _ _ _ | IReadWait _ _ _ _ => true | _ => false end.

Lemma runs_inQ i r c st : runs i r c -> receives i = false -> inQ (run_section c st) = inQ st.
Proof.
  intros [] Hi; try done; cbn;
    unfold handleAccept_locked, handleReject_locked, addCredit_locked, remoteClose_locked, finish_locked,
      markOpened_locked, writeLoop_locked, setReset_locked, Write_locked, CloseWrite_locked;
    repeat case_match; done.
Qed.

Lemma fresh_inQ st : fresh_stream st -> inQ st = [].
Proof. by intros [(? & ? & ->)|(? & ? & ->)]. Qed.

Lemma inbound_quiet fed got i s s' :
  inbound_ok fed got s -> objs_step i s s' -> receives i = false -> inbound_ok fed got s'.
Proof.
  intros [H1 H2] [Eo|r st c Hc Hr Eo|st _ Hst Eo] Hi; unfold inbound_ok; rewrite Eo; [done| |].
  - rewrite length_insert. split; [|done]. intros r' x [(-> & <- & _)|[_ E]]%list_lookup_insert_Some; [|by apply H1].
    rewrite (runs_inQ _ _ _ _ Hc Hi). by apply H1.
  - rewrite length_app. cbn. split; [|intros r Hr; apply H2; lia].
    intros r x [E|[-> ->]]%lookup_snoc_inv; [by apply H1|]. rewrite (fresh_inQ st Hst). by destruct (H2 _ (le_n _)) as [-> ->].
Qed.

(** One stream's bytes change; [df] is delivered and [dg] read. *)
Lemma inbound_change fed got r st st' df dg s s' :
  inbound_ok fed got s -> objs s !! r = Some st -> objs s' = <[r := st']> (objs s) ->
  concat (inQ st) ++ df = dg ++ concat (inQ st') ->
  inbound_ok (add_put fed r df) (add_put got r dg) s'.
Proof.
  intros [H1 H2] Hr Eo Hq. unfold inbound_ok, add_put. rewrite Eo, length_insert. pose proof (lookup_lt_Some _ _ _ Hr). split.
  - intros r' x [(-> & <- & _)|[Hne E]]%list_lookup_insert_Some.
    + rewrite Nat.eqb_refl, (H1 _ _ Hr), <- !app_assoc. by rewrite Hq.
    + rewrite (proj2 (Nat.eqb_neq _ _)) by done. by apply H1.
  - intros r' Hge. rewrite (proj2 (Nat.eqb_neq _ _)) by lia. by apply H2.
Qed.

Lemma inbound_ext fed fed' got got' s :
  (forall r, fed' r = fed r) -> (forall r, got' r = got r) -> inbound_ok fed got s -> inbound_ok fed' got' s.
Proof. intros E1 E2 [H1 H2]. split; intros r; [intros st|]; rewrite E1, E2; auto. Qed.

Lemma Read_takes n st x st' : Read_locked n st = (RD_data x, st') -> concat (inQ st) = x ++ concat (inQ st').
Proof.
  unfold Read_locked. destruct (reset st); [done|]. destruct (inQ st) as [|h q]; [by case_match|].
  intros [= <- <-]. rewrite <- (take_drop (Z.to_nat (Z.min n (zlen h))) h) at 1. cbn [concat].
  destruct (drop (Z.to_nat (Z.min n (zlen h))) h); cbn; by rewrite <- ?app_assoc.
Qed.

Lemma Read_inbound fed got s i call r n st :
  i = IRead call r n \/ (exists seen, i = IReadWait call r n seen) -> inbound_ok fed got s -> objs s !! r = Some st ->
  inbound_ok (fun r' => fed r' ++ fed_step r' i s) (fun r' => got r' ++ got_step r' i s) (after (Stream_Read call r n st s)).
Proof.
  intros Hi Hok Hr. set (pr := Stream_Read call r n st s).
  assert (forall r', got_step r' i s = if (r' =? r)%nat then read_bytes pr else []) as Hgot.
  { intros r'. assert (got_step r' i s = match objs s !! r' with
      | Some st => if (r' =? r)%nat then read_bytes (Stream_Read call r' n st s) else [] | None => [] end) as ->
      by (by destruct Hi as [->|[? ->]]).
    destruct (Nat.eqb_spec r' r) as [->|]; [by rewrite Hr|]. by destruct (objs s !! r'). }
  assert (forall r', fed_step r' i s = []) as Hfed by (intros; by destruct Hi as [->|[? ->]]).
  assert (objs (after pr) = objs s -> read_bytes pr = [] ->
    inbound_ok (fun r' => fed r' ++ fed_step r' i s) (fun r' => got r' ++ got_step r' i s) (after pr)) as Hsame.
  { intros Eo Ez. apply (inbound_ext fed _ got); [intros r'; by rewrite Hfed, app_nil_r| |by unfold inbound_ok; rewrite Eo].
    intros r'. rewrite Hgot, Ez. case_match; by rewrite app_nil_r. }
  unfold pr, Stream_Read in *. destruct (n =? 0); [by apply Hsame|].
  destruct (Read_locked n st) as [dec st'] eqn:E.
  assert ((forall x, dec <> RD_data x) -> st' = st) as Hst.
  { intros Hd. unfold Read_locked in E. repeat case_match; simplify_eq; try done; by edestruct Hd. }
  destruct dec as [e|x| |seen]; try (apply Hsame; [cbn; rewrite Hst by done; by apply list_insert_id|done]).
  apply (inbound_ext (add_put fed r []) _ (add_put got r x)).
  - intros r'. rewrite Hfed. unfold add_put. destruct (r' =? r)%nat; by rewrite app_nil_r.
  - intros r'. rewrite Hgot. unfold add_put. destruct (r' =? r)%nat; [done|by rewrite app_nil_r].
  - apply (inbound_change fed got r st st' [] x s); try done. rewrite app_nil_r. by apply (Read_takes n).
Qed.

Lemma deliver_inbound fed got s r x st :
  inbound_ok fed got s -> objs s !! r = Some st ->
  inbound_ok (fun r' => fed r' ++ fed_step r' (IDeliver r x) s) (fun r' => got r' ++ got_step r' (IDeliver r x) s)
    (after (deliver r x st s)).
Proof.
  intros Hok Hr. set (pr := deliver r x st s).
  assert (forall r', fed_step r' (IDeliver r x) s = if (r' =? r)%nat then match pushed pr with [] => x | _ => [] end else []) as Hfed.
  { intros r'. cbn [fed_step]. destruct (Nat.eqb_spec r' r) as [->|]; [by rewrite Hr|]. by destruct (objs s !! r'). }
  assert (forall r', got_step r' (IDeliver r x) s = []) as Hgot by (intros; cbn; by destruct (objs s !! r')).
  unfold pr, deliver in *. destruct (if deliver_needs_buffer x st then _ else _) as [b s1] eqn:E. apply reserve_objs in E.
  destruct (deliver_locked x b st) as [dec st'] eqn:Ed.
  assert (objs (set_obj r st' s1) = <[r := st']> (objs s)) as Eo by (cbn; by rewrite E).
  assert (forall y, (forall r', fed_step r' (IDeliver r x) s = if (r' =? r)%nat then y else []) ->
    concat (inQ st) ++ y = concat (inQ st') -> forall s', objs s' = <[r := st']> (objs s) ->
    inbound_ok (fun r' => fed r' ++ fed_step r' (IDeliver r x) s) (fun r' => got r' ++ got_step r' (IDeliver r x) s) s') as Hgen.
  { intros y Hy Hq s' Eo'. apply (inbound_ext (add_put fed r y) _ (add_put got r [])).
    - intros r'. rewrite Hy. unfold add_put. destruct (r' =? r)%nat; [done|by rewrite app_nil_r].
    - intros r'. rewrite Hgot. unfold add_put. destruct (r' =? r)%nat; by rewrite app_nil_r.
    - by apply (inbound_change fed got r st st' y [] s). }
  assert (dec <> DL_ok -> st' = st) as Hst by (intros; by eapply deliver_rejected).
  destruct dec; (eapply Hgen; [exact Hfed| |exact Eo]); cbn [pushed next resetRemote].
  - rewrite Hst by done. unfold deliver_locked in Ed. destruct (Z.eqb_spec (zlen x) 0) as [Hz|]; [|by repeat case_match].
    apply zlen_0 in Hz. subst x. apply app_nil_r.
  - rewrite Hst by done. apply app_nil_r.
  - rewrite Hst by done. apply app_nil_r.
  - assert (inQ st' = inQ st ++ [x]) as -> by (unfold deliver_locked in Ed; repeat case_match; by simplify_eq).
    rewrite concat_app. cbn. by rewrite app_nil_r.
Qed.

Lemma step_inbound fed got i c s pr :
  inbound_ok fed got s -> step_instr cfg fmt_q ExecCmd_UnmarshalBinary i c s = Some pr ->
  inbound_ok (fun r => fed r ++ fed_step r i s) (fun r => got r ++ got_step r i s) (after pr).
Proof.
  intros Hok H. destruct (receives i) eqn:Hi.
  - destruct i; try done; cbn [step_instr] in H; destruct c; try done; unfold on_obj in H;
      (destruct (objs s !! r) as [st|] eqn:Hr; [|done]).
    + injection H as <-. by apply deliver_inbound.
    + injection H as <-. apply Read_inbound; auto.
    + case_match; [|done]. injection H as <-. apply Read_inbound; eauto.
  - apply step_objs in H. apply (inbound_ext fed _ got); [| |by eapply inbound_quiet].
    + intros r. assert (fed_step r i s = []) as -> by (by destruct i). apply app_nil_r.
    + intros r. assert (got_step r i s = []) as -> by (by destruct i). apply app_nil_r.
Qed.

Lemma exec_inbound fed got i rest c s g gs s' :
  inbound_ok fed got s -> exec cfg fmt_q ExecCmd_UnmarshalBinary i rest c s = Some (g, gs, s') ->
  inbound_ok (fun r => fed r ++ fed_step r i s) (fun r => got r ++ got_step r i s) s'.
Proof.
  intros Hok [(m & k & w & -> & -> & E & ->)|(pr & E & -> & -> & ->)]%exec_cases; [|by apply (step_inbound fed got i c)].
  apply (inbound_ext fed _ got); [intros r; cbn; apply app_nil_r..|].
  assert (objs s' = objs s) as Eo by (unfold sendApp in E; repeat case_match; by simplify_eq).
  unfold inbound_ok. by rewrite Eo.
Qed.

(** ** Runs *)

(** The bytes [f] sees along a run. *)
Fixpoint run_bytes (f : instr -> Session -> bytes) (ls : list label) (w : World) : bytes :=
  match ls with
  | [] => []
  | l :: ls =>
      match step cfg fmt_q ExecCmd_UnmarshalBinary l w with
      | Some w' => at_label f l w ++ run_bytes f ls w'
      | None => []
      end
  end.

Record bytes_ok (put fed got : nat -> bytes) (w : World) : Prop := {
  bo_world : world_ok cfg w;
  bo_ledger : ledger_ok w;
  bo_fifo : fifo put (sess w) (pool w);
  bo_inbound : inbound_ok fed got (sess w) }.

Lemma call_bland call a s gs : call_stack call a s = Some gs ->
  Forall (fun g => forallb bland g = true) gs /\ forall r, tally_pool (loop r) gs = 0%nat.
Proof. destruct a; cbn [call_stack]; intros; repeat case_match; simplify_eq; split; try done; repeat constructor. Qed.

Lemma step_bytes_ok put fed got l w w' :
  bytes_ok put fed got w -> step cfg fmt_q ExecCmd_UnmarshalBinary l w = Some w' ->
  bytes_ok (fun r => put r ++ at_label (put_step r) l w) (fun r => fed r ++ at_label (fed_step r) l w)
    (fun r => got r ++ at_label (got_step r) l w) w'.
Proof.
  intros [Hw HL HF HI] H. pose proof (step_world_ok _ _ _ _ _ _ Hw H) as Hw'. pose proof (step_ledger_ok _ _ _ _ _ _ Hw HL H) as HL'.
  constructor; try done; destruct l as [t c|a]; cbn [step at_label] in *.
  - destruct (pool w !! t) as [[|i rest]|] eqn:Et; try done.
    destruct (exec _ _ _ i rest c (sess w)) as [[[g gs] s]|] eqn:E; [|done]. injection H as <-.
    apply (exec_fifo put (sess w) (pool w) t i c rest); try done; [apply Hw|by eapply Forall_lookup_1; [apply Hw|]|].
    intros r st Hr. by apply (l_objs _ _ (lo_ledger _ HL)) in Hr as [].
  - destruct (call_stack (calls w) a (sess w)) as [gs|] eqn:E; [|done]. injection H as <-.
    apply call_bland in E as [Hb Hl]. apply (fifo_ext put); [intros r; apply app_nil_r|]. cbn [sess pool].
    destruct HF as [F1 F2 F3 F4 F5 F6 F7]. constructor; try done.
    + apply Forall_app. split; [done|]. eapply Forall_impl; [exact Hb|]. intros g Hg. rewrite <- (app_nil_r g). by apply shapes_app.
    + intros r. rewrite tally_pool_app, Hl. specialize (F2 r). lia.
    + intros r Hr. rewrite tally_pool_app, Hl. destruct (F3 r Hr). split; [lia|done].
    + intros g r st [Hg|Hg]%elem_of_app Hge; [by apply F6|].
      pose proof (tally_pool_elem (loop r) gs g Hg). rewrite Hl in *. lia.
  - destruct (pool w !! t) as [[|i rest]|] eqn:Et; try done.
    destruct (exec _ _ _ i rest c (sess w)) as [[[g gs] s]|] eqn:E; [|done]. injection H as <-.
    by apply (exec_inbound fed got i rest c (sess w) g gs).
  - destruct (call_stack (calls w) a (sess w)) as [gs|] eqn:E; [|done]. injection H as <-.
    by apply (inbound_ext fed _ got); [intros r; apply app_nil_r..|].
Qed.

Lemma run_bytes_ok put fed got ls w w' :
  bytes_ok put fed got w -> run cfg fmt_q ExecCmd_UnmarshalBinary ls w = Some w' ->
  bytes_ok (fun r => put r ++ run_bytes (put_step r) ls w) (fun r => fed r ++ run_bytes (fed_step r) ls w)
    (fun r => got r ++ run_bytes (got_step r) ls w) w'.
Proof.
  assert (forall put put' fed fed' got got' w, (forall r, put' r = put r) -> (forall r, fed' r = fed r) ->
    (forall r, got' r = got r) -> bytes_ok put fed got w -> bytes_ok put' fed' got' w) as Hext.
  { intros p p' f f' g g' v E1 E2 E3 [B1 B2 B3 B4]. constructor; [done|done|by apply (fifo_ext p)|by apply (inbound_ext f _ g)]. }
  revert put fed got w; induction ls as [|l ls IH]; intros put fed got w Hok; cbn [run run_bytes].
  - intros [= <-]. eapply Hext; [..|exact Hok]; intros r; apply app_nil_r.
  - destruct (step cfg fmt_q ExecCmd_UnmarshalBinary l w) as [w1|] eqn:E; [|done]. intros H.
    eapply Hext; [..|exact (IH _ _ _ _ (step_bytes_ok _ _ _ _ _ _ Hok E) H)]; intros r; apply app_assoc.
Qed.

Lemma world0_bytes_ok : bytes_ok (fun _ => []) (fun _ => []) (fun _ => []) world0.
Proof.
  constructor; [apply world0_ok|apply world0_ledger| |done].
  constructor; try done; try (by intros ? ? ?%elem_of_nil); try (by intros ? ? ? ?%elem_of_nil); by intros r; apply le_S.
Qed.

(** ** The theorems *)

(** C11: outbound bytes keep their order and none is lost, duplicated or
    invented, whatever the interleaving of callers, dispatcher, read loop and
    write loops.  For a stream opened here, the payloads of its APP_DATA frames
    on the connection, concatenated, are always a prefix of what [Write]
    calls reported as written, in the order they were queued; and while the
    stream's write loop runs, what is missing from that prefix is exactly
    what still waits in [sendQ]. *)
Theorem session_fifo_out (ls : list label) (w : World) (r : nat) (st : Stream)
    (Hrun : run cfg fmt_q ExecCmd_UnmarshalBinary ls world0 = Some w)
    (Hr : objs (sess w) !! r = Some st) (Hin : inbound st = false) :
  let put := run_bytes (put_step r) ls world0 in
  let out := out_bytes (sid st) (sent (sess w)) in
  out `prefix_of` put
  /\ (forall g, g ∈ pool w -> g = [IWriteLoop r; IWgDone] \/ (exists seen, g = [IWriteLoopWait r seen; IWgDone]) ->
      put = out ++ concat (sendQ st)).
Proof.
  destruct (run_bytes_ok _ _ _ _ _ _ world0_bytes_ok Hrun) as [Hw _ [_ _ _ _ _ F6 F7] _].
  assert (sole (sess w) r (sid st)) as Hs by (intros r' st' E Hid; symmetry; by eapply local_ids; [apply Hw|exact Hr|..]).
  cbn zeta. split; [by apply F7|]. intros g Hg Hl.
  assert (held r g = [] /\ (1 <= tally (loop r) g)%nat) as [Hh Ht]
    by (destruct Hl as [->|[? ->]]; cbn; rewrite Nat.eqb_refl; by split; [|apply le_n]).
  specialize (F6 g r st Hg Ht Hr Hs). by rewrite Hh in F6.
Qed.

(** C12: inbound bytes keep their order and none is lost, duplicated or
    invented: at every moment of every run, for every stream, the payloads
    [deliver] accepted are exactly the bytes [Read] calls returned followed by
    what waits in [inQ]. *)
Theorem session_fifo_in (ls : list label) (w : World) (r : nat) (st : Stream)
    (Hrun : run cfg fmt_q ExecCmd_UnmarshalBinary ls world0 = Some w)
    (Hr : objs (sess w) !! r = Some st) :
  run_bytes (fed_step r) ls world0 = run_bytes (got_step r) ls world0 ++ concat (inQ st).
Proof.
  destruct (bo_inbound _ _ _ _ (run_bytes_ok _ _ _ _ _ _ world0_bytes_ok Hrun)) as [H _]. by apply H in Hr.
Qed.

(** One step of the world on its streams. *)
Lemma step_history l w w' :
  step cfg fmt_q ExecCmd_UnmarshalBinary l w = Some w' ->
  (forall r st, objs (sess w) !! r = Some st -> exists cs, objs (sess w') !! r = Some (run_sections cs st))
  /\ (forall r st, (length (objs (sess w)) <= r)%nat -> objs (sess w') !! r = Some st -> fresh_stream st).
Proof.
  assert (forall s', objs s' = objs (sess w) ->
    (forall r st, objs (sess w) !! r = Some st -> exists cs, objs s' !! r = Some (run_sections cs st))
    /\ (forall r st, (length (objs (sess w)) <= r)%nat -> objs s' !! r = Some st -> fresh_stream st)) as Hsame.
  { intros s' ->. split; [intros r st Hr; by exists []|]. intros r st Hge Hr%lookup_lt_Some. lia. }
  destruct l as [t c|a]; cbn [step]; intros H.
  - destruct (pool w !! t) as [[|i rest]|]; try done.
    destruct (exec _ _ _ i rest c (sess w)) as [[[g gs] s]|] eqn:E; [|done]. injection H as <-. cbn [sess].
    apply exec_cases in E as [(m & k & e & -> & -> & E & ->)|(pr & E & -> & -> & ->)].
    { apply Hsame. unfold sendApp in E. repeat case_match; by simplify_eq. }
    apply step_objs in E as [Eo|r st c' _ Hr Eo|st _ Hst Eo]; [by apply Hsame|..]; rewrite Eo; split.
    + intros r' x Hx. destruct (decide (r = r')) as [<-|Hne]; [|exists []; by rewrite list_lookup_insert_ne].
      exists [c']. rewrite list_lookup_insert_eq by (by eapply lookup_lt_Some). by simplify_eq.
    + intros r' x Hge Hx%lookup_lt_Some. rewrite length_insert in Hx. lia.
    + intros r x Hx. exists []. by apply lookup_app_l_Some.
    + intros r x Hge [Hx|[_ <-]]%lookup_snoc_inv; [apply lookup_lt_Some in Hx; lia|done].
  - destruct (call_stack (calls w) a (sess w)); [|done]. injection H as <-. by apply Hsame.
Qed.

Lemma run_sections_app cs cs' st : run_sections (cs ++ cs') st = run_sections cs' (run_sections cs st).
Proof. revert st; induction cs as [|c cs IH]; intros st; [done|]. apply IH. Qed.

(** The session refines its streams.  Along any run, from any world, each
    stream object goes through locked sections of app/stream.go and nothing
    else (so two goroutines' accesses never mix), and each new one starts as
    [Open] or [handleOpen] makes it: every fact about sequences of sections,
    such as the finality of a reset, holds inside the session. *)
Theorem session_refines_streams (ls : list label) (w w' : World)
    (Hrun : run cfg fmt_q ExecCmd_UnmarshalBinary ls w = Some w') :
  (forall r st, objs (sess w) !! r = Some st -> exists cs, objs (sess w') !! r = Some (run_sections cs st))
  /\ (forall r st, (length (objs (sess w)) <= r)%nat -> objs (sess w') !! r = Some st ->
      exists st0 cs, fresh_stream st0 /\ st = run_sections cs st0).
Proof.
  revert w Hrun; induction ls as [|l ls IH]; cbn [run]; intros w Hrun.
  { injection Hrun as <-. split; [intros r st Hr; by exists []|]. intros r st Hge Hr%lookup_lt_Some. lia. }
  destruct (step _ _ _ l w) as [w1|] eqn:E; [|done]. apply step_history in E as [E1 E2].
  destruct (IH w1 Hrun) as [I1 I2]. split.
  - intros r st Hr. destruct (E1 r st Hr) as [cs Hr1]. destruct (I1 _ _ Hr1) as [cs' Hr'].
    exists (cs ++ cs'). by rewrite run_sections_app.
  - intros r st Hge Hr. destruct (objs (sess w1) !! r) as [st0|] eqn:E0.
    + exists st0. destruct (I1 _ _ E0) as [cs Hr']. exists cs. split; [by apply (E2 r)|congruence].
    + apply I2 with r; [by apply lookup_ge_None|done].
Qed.

End Steps.

(** ** Witnesses: five bytes arrive and three are read; two writes go out. *)

Definition write_two : list label :=
  open_stream ++
  [Call (AWrite 0 (str "hello")); Run 4 ChRun; Call (AWrite 0 (str "world")); Run 5 ChRun;
   Run 3 ChRun; Run 3 ChRun; Run 3 (ChWrite None)].

Lemma session_fifo_out_witness :
  let w := demo_run write_two in
  sendQ (first_obj w) = [str "world"] /\ out_bytes 1 (sent (sess w)) = str "hello"
  /\ run_bytes demo_cfg plain_q no_exec (put_step 0) write_two world0 = str "hello" ++ str "world".
Proof.
  cbn zeta. split; [vm_compute; reflexivity|]. split; [vm_compute; reflexivity|].
  destruct (session_fifo_out demo_cfg plain_q no_exec write_two (demo_run write_two) 0 (first_obj (demo_run write_two)))
    as [_ H]; [vm_compute; reflexivity..|].
  assert ([IWriteLoop 0; IWgDone] ∈ pool (demo_run write_two)) as Hg
    by (apply (list_elem_of_lookup_2 _ 3); vm_compute; reflexivity).
  rewrite (H _ Hg (or_introl eq_refl)). vm_compute. reflexivity.
Defined.

Lemma session_fifo_in_witness :
  let w := demo_run read_three in
  run_bytes demo_cfg plain_q no_exec (got_step 0) read_three world0 = str "hel" /\ inQ (first_obj w) = [str "lo"]
  /\ run_bytes demo_cfg plain_q no_exec (fed_step 0) read_three world0 = str "hello".
Proof.
  cbn zeta. split; [vm_compute; reflexivity|]. split; [vm_compute; reflexivity|].
  rewrite (session_fifo_in demo_cfg plain_q no_exec read_three (demo_run read_three) 0 (first_obj (demo_run read_three)));
    vm_compute; reflexivity.
Defined.

Lemma session_refines_streams_witness :
  run demo_cfg plain_q no_exec read_three world0 = Some (demo_run read_three)
  /\ exists st0 cs, fresh_stream st0 /\ first_obj (demo_run read_three) = run_sections cs st0.
Proof.
  assert (run demo_cfg plain_q no_exec read_three world0 = Some (demo_run read_three)) as H by (vm_compute; reflexivity).
  split; [exact H|].
  apply (session_refines_streams demo_cfg plain_q no_exec read_three world0 (demo_run read_three) H) with (r := 0%nat);
    vm_compute; [lia|reflexivity].
Defined.
