(* ===== verification/SessionWake.v ===== *)
(** * No lost wake-up

    The write loop and [Read] sleep in [cond.Wait]; whoever changes what they
    wait for must broadcast.  In the machine of [Session.v] a sleeper carries
    the number of broadcasts it has seen, so a sleeper nobody woke since is one
    whose number is current.  The invariant: such a sleeper has nothing to
    do, or a broadcast for it is on its way. *)
From Stdlib Require Import ZArith Lia.
From stdpp Require Import base list gmap strings.
From S2P Require Import Prelude GoIO Wire Frame Codec MsgApp Exec Registry Stream Session SessionInv Ledger SessionFifo.

Open Scope Z_scope.

(** The stream a sleeper waits for and the broadcasts it has seen. *)
Definition sleeps (i : instr) : option (nat * nat) :=
  match i with IWriteLoopWait r seen | IReadWait _ r _ seen => Some (r, seen) | _ => None end.

(** Nothing to do for a sleeper: no data or no credit, no data and no EOF. *)
Definition nothing_for (i : instr) (st : Stream) : Prop :=
  match i with
  | IWriteLoopWait _ _ => sendQ st = [] \/ sndCredit st <= 0
  | IReadWait _ _ _ _ => inQ st = [] /\ remoteClosed st = false
  | _ => True
  end.

(** Steps that lead to a write loop: their stream's open has been answered. *)
Definition drives (i : instr) : option nat :=
  match i with
  | IAcceptOpen r _ | IAcceptReady r _ _ | IOpenResult _ r | IStartWriteLoop r | IWriteLoop r | IWriteLoopWait r _ => Some r
  | _ => None
  end.

Record calm (s : Session) (i : instr) : Prop := {
  cm_drives : forall r, drives i = Some r -> exists st, objs s !! r = Some st /\ opening st = false;
  cm_sleeps : forall r seen, sleeps i = Some (r, seen) -> exists st, objs s !! r = Some st /\ (seen <= bcast st)%nat
    /\ (seen = bcast st -> reset st = false -> nothing_for i st) }.

Lemma calm_plain s i : drives i = None -> sleeps i = None -> calm s i.
Proof. intros H1 H2. constructor; congruence. Qed.

(** ** Sections *)

(** What a section does to a sleeper's stream. *)
Record soothes (st st' : Stream) : Prop := {
  st_opening : opening st = false -> opening st' = false;
  st_reset : reset st = true -> reset st' = true;
  st_bcast : (bcast st <= bcast st')%nat;
  st_writer : opening st = false -> bcast st' = bcast st -> sendQ st = [] \/ sndCredit st <= 0 -> sendQ st' = [] \/ sndCredit st' <= 0;
  st_reader : bcast st' = bcast st -> inQ st = [] -> remoteClosed st = false -> inQ st' = [] /\ remoteClosed st' = false }.

Lemma section_soothes c st : soothes st (run_section c st).
Proof.
  assert (c <> SecWriteLoop -> soothes st (run_section c st)) as H.
  { intros Hn. destruct (section_rouses c st) as [R1 R2 R3 R4 R5 R6 R7]; [by destruct c|]. constructor; try done.
    intros Ho Hb. by destruct (R5 Ho Hb) as [-> ->]. }
  destruct c; try (by apply H). cbn [run_section]. unfold writeLoop_locked.
  destruct (reset st) eqn:Er; [by constructor|]. destruct (sendQ st) as [|h q] eqn:Eq; [destruct (closeAfterFlush st)|]; [constructor; cbn; auto..|].
  destruct (Z.ltb_spec 0 (sndCredit st)); [|by constructor]. cbn [snd].
  constructor; try done; try (by destruct (to_u 32 (zlen h) =? _)). intros _ _ [?|?]; [congruence|lia].
Qed.

Lemma calm_soothes s s' i :
  (forall r st, objs s !! r = Some st -> exists st', objs s' !! r = Some st' /\ soothes st st') -> calm s i -> calm s' i.
Proof.
  intros Hs [C1 C2]. constructor.
  - intros r Hd. destruct (C1 r Hd) as (st & Hr & Ho). destruct (Hs r st Hr) as (st' & Hr' & S). exists st'. split; [done|]. by apply S.
  - intros r seen Hz. destruct (C2 r seen Hz) as (st & Hr & Hle & Hn). destruct (Hs r st Hr) as (st' & Hr' & [S1 S2 S3 S4 S5]).
    exists st'. split; [done|]. split; [lia|]. intros E Hres. assert (reset st = false) as Hres' by (destruct (reset st); [by rewrite S2 in Hres|done]).
    specialize (Hn ltac:(lia) Hres'). destruct i; try done; cbn in *; simplify_eq.
    + destruct (C1 r eq_refl) as (st0 & Hr0 & Ho). simplify_eq. apply S4; auto. lia.
    + destruct Hn. apply S5; [lia|done..].
Qed.

Lemma soothes_refl st : soothes st st.
Proof. by constructor. Qed.

Section Wake.

Context (cfg : Config) (fmt_q : bytes -> bytes) (ExecCmd_UnmarshalBinary : bytes -> result ExecCmd).

Abbreviation step_instr := (step_instr cfg fmt_q ExecCmd_UnmarshalBinary).
Abbreviation exec := (exec cfg fmt_q ExecCmd_UnmarshalBinary).

Lemma step_soothes i c s pr : step_instr i c s = Some pr ->
  forall r st, objs s !! r = Some st -> exists st', objs (after pr) !! r = Some st' /\ soothes st st'.
Proof.
  intros H r st Hr. apply step_objs in H as [Eo|r' st0 c' _ Hr' Eo|st0 _ _ Eo]; rewrite Eo.
  - exists st. split; [done|apply soothes_refl].
  - destruct (decide (r' = r)) as [->|Hne].
    + rewrite list_lookup_insert_eq by (by eapply lookup_lt_Some). simplify_eq. eexists. split; [done|apply section_soothes].
    + rewrite list_lookup_insert_ne by done. exists st. split; [done|apply soothes_refl].
  - rewrite (lookup_app_l_Some _ _ _ _ Hr). exists st. split; [done|apply soothes_refl].
Qed.

(** ** What steps lead to *)

Definition leads (i j : instr) : Prop := (drives j = None \/ drives j = drives i) /\ sleeps j = None.

Ltac all_lead := repeat first [apply Forall_nil_2 | apply Forall_cons_2; [first [apply Forall_nil_2 | by split; auto | all_lead]|]].

(** Steps whose followers need a look of their own. *)
Definition special (i : instr) : bool :=
  match i with
  | IHandleOpen _ | IOpenSelect _ _ | IWriteLoop _ | IWriteLoopWait _ _ | IRead _ _ _ | IReadWait _ _ _ _ => true
  | _ => false
  end.

Lemma step_leads i c s pr : step_instr i c s = Some pr -> special i = false ->
  Forall (leads i) (pushed pr) /\ Forall (Forall (leads i)) (spawned pr).
Proof.
  assert (forall r f, on_obj r s f = Some pr -> exists st, objs s !! r = Some st /\ pr = f st s) as Hobj.
  { intros r f. unfold on_obj. destruct (objs s !! r) as [st|]; intros; simplify_eq; eauto. }
  destruct i; try done; cbn [Session.step_instr]; try (by unfold Serve, handleFrame; intros H _; repeat case_match; simplify_eq; cbn; split; all_lead);
    destruct c; try done; intros H _; try (apply Hobj in H as (st & Hr & ->)).
  all: try (by simplify_eq; split; all_lead).
  all: try (by simplify_eq; unfold on_id, accept_locked, reject_locked, closeReady, remoteClose, addCredit, setReset, maybeFinish,
    markOpened, closeEndpoint, detach, detach_bytes, finish, Open, Open_result, CloseWrite, Stream_Write,
    startWriteLoop, Session_fail, acceptOpen, acceptOpen_ready, deliver in *;
    repeat case_match; simplify_eq; split; all_lead).
  destruct (streams s !! accept_StreamID m) as [r|]; [|by simplify_eq; split; all_lead].
  apply Hobj in H as (st & Hr & ->). unfold handleAccept. repeat case_match; split; all_lead.
Qed.

(** A step just reached: who falls asleep does so on a stream that is not
    reset. *)
Definition drowsy (s : Session) (i : instr) : Prop :=
  calm s i /\ forall r seen, sleeps i = Some (r, seen) -> exists st, objs s !! r = Some st /\ reset st = false.

Lemma drowsy_plain s i : drives i = None -> sleeps i = None -> drowsy s i.
Proof. intros H1 H2. split; [by apply calm_plain|congruence]. Qed.

Lemma drowsy_leads s s' i j :
  (forall r st, objs s !! r = Some st -> exists st', objs s' !! r = Some st' /\ soothes st st') -> calm s i -> leads i j -> drowsy s' j.
Proof.
  intros Hs [C1 _] [[Hd|Hd] Hz]; [by apply drowsy_plain|]. split; [|congruence]. constructor; [|congruence]. intros r Hr. rewrite Hd in Hr.
  destruct (C1 r Hr) as (st & H1 & H2). destruct (Hs r st H1) as (st' & H3 & S). exists st'. split; [done|]. by apply S.
Qed.

Ltac all_calm := repeat first [apply Forall_nil_2 | apply Forall_cons_2; [first [apply Forall_nil_2 | by apply drowsy_plain | all_calm]|]].

Lemma lookup_set_obj r st st' s : objs s !! r = Some st -> objs (set_obj r st' s) !! r = Some st'.
Proof. intros H. cbn. by rewrite list_lookup_insert_eq by (by eapply lookup_lt_Some). Qed.

Lemma writeLoop_calm r st s : objs s !! r = Some st -> opening st = false ->
  Forall (drowsy (after (writeLoop r st s))) (pushed (writeLoop r st s)) /\ spawned (writeLoop r st s) = [].
Proof.
  intros Hr Ho. pose proof (section_soothes SecWriteLoop st) as [S1 _ _ _ _]. cbn [run_section] in S1.
  unfold writeLoop. destruct (writeLoop_locked st) as [dec st'] eqn:E. cbn [snd] in S1.
  destruct dec as [|d| |seen]; cbn [pushed spawned after next]; (split; [|done]).
  - all_calm.
  - apply Forall_cons_2; [by apply drowsy_plain|]. apply Forall_cons_2; [by apply drowsy_plain|]. apply Forall_cons_2; [|apply Forall_nil_2].
    split; [|done]. constructor; [|done]. intros r' [= <-]. exists st'. split; [by eapply lookup_set_obj|auto].
  - all_calm.
  - apply Forall_cons_2; [|apply Forall_nil_2].
    assert (st' = st /\ seen = bcast st /\ reset st = false /\ (sendQ st = [] \/ sndCredit st <= 0)) as (-> & -> & Hres & Hn).
    { unfold writeLoop_locked in E. destruct (reset st) eqn:Er; [done|]. destruct (sendQ st) eqn:Eq; [destruct (closeAfterFlush st); simplify_eq; auto|].
      destruct (Z.ltb_spec 0 (sndCredit st)); simplify_eq. auto. }
    split; [constructor; [intros r' [= <-]|intros r' seen' [= <- <-]]|intros r' seen' [= <- <-]]; exists st;
      (split; [by eapply lookup_set_obj|]); [done|split; [lia|done]|done].
Qed.

Lemma Read_calm call r n st s : objs s !! r = Some st ->
  Forall (drowsy (after (Stream_Read call r n st s))) (pushed (Stream_Read call r n st s)) /\ spawned (Stream_Read call r n st s) = [].
Proof.
  intros Hr. unfold Stream_Read. destruct (n =? 0); [split; [all_calm|done]|].
  destruct (Read_locked n st) as [dec st'] eqn:E. destruct dec as [e|d| |seen]; cbn [pushed spawned after next]; (split; [|done]); [all_calm..|].
  apply Forall_cons_2; [|apply Forall_nil_2].
  assert (st' = st /\ seen = bcast st /\ reset st = false /\ inQ st = [] /\ remoteClosed st = false) as (-> & -> & Hres & Hi & Hc).
  { unfold Read_locked in E. destruct (reset st) eqn:Er; [done|]. destruct (inQ st) eqn:Eq; [destruct (remoteClosed st) eqn:Ec; by simplify_eq|done]. }
  split; [constructor; [done|]|]; intros r' seen' [= <- <-]; exists st; (split; [by eapply lookup_set_obj|]); [split; [lia|done]|done].
Qed.

Lemma step_calm i c s pr : step_instr i c s = Some pr -> calm s i ->
  (forall r st, objs s !! r = Some st -> (0 < ready st)%nat -> opening st = false) ->
  Forall (drowsy (after pr)) (pushed pr) /\ Forall (Forall (drowsy (after pr))) (spawned pr).
Proof.
  intros H Hi Hready. pose proof (step_soothes i c s pr H) as Hs. destruct (special i) eqn:Hsp.
  2: { destruct (step_leads i c s pr H Hsp) as [H1 H2]. split; [eapply Forall_impl; [exact H1|]|eapply Forall_impl; [exact H2|]; intros g Hg; eapply Forall_impl; [exact Hg|]];
         intros j Hj; by eapply drowsy_leads. }
  destruct i; try done; cbn [Session.step_instr] in H.
  - destruct c; try done. injection H as <-. unfold handleOpen. repeat case_match; (split; [all_calm|]); try (by all_calm).
    cbn [spawned after]. apply Forall_cons_2; [|apply Forall_nil_2]. apply Forall_cons_2; [|apply Forall_nil_2]. split; [|done]. constructor; [|done].
    intros r [= <-]. eexists. split; [by apply list_lookup_middle|done].
  - destruct (objs s !! r) as [st|] eqn:Hr; [|done]. unfold Open_select in H. destruct c; try done; try (case_match; [|done]); injection H as <-;
      (split; [|all_calm]); try (by all_calm). apply Forall_cons_2; [|apply Forall_nil_2]. split; [|done]. constructor; [|done]. intros r' [= <-].
    exists st. split; [done|]. eapply Hready; [done|]. by apply Nat.ltb_lt.
  - destruct c; try done. unfold on_obj in H. destruct (objs s !! r) as [st|] eqn:Hr; [|done]. injection H as <-.
    destruct (cm_drives _ _ Hi r eq_refl) as (st0 & Hr0 & Ho). simplify_eq. destruct (writeLoop_calm r st s Hr Ho) as [? ->]. by split.
  - destruct c; try done. destruct (objs s !! r) as [st|] eqn:Hr; [|done]. case_match; [|done]. injection H as <-.
    destruct (cm_drives _ _ Hi r eq_refl) as (st0 & Hr0 & Ho). simplify_eq. destruct (writeLoop_calm r st s Hr Ho) as [? ->]. by split.
  - destruct c; try done. unfold on_obj in H. destruct (objs s !! r) as [st|] eqn:Hr; [|done]. injection H as <-.
    destruct (Read_calm call r n st s Hr) as [? ->]. by split.
  - destruct c; try done. destruct (objs s !! r) as [st|] eqn:Hr; [|done]. case_match; [|done]. injection H as <-.
    destruct (Read_calm call r n st s Hr) as [? ->]. by split.
Qed.


(** ** The invariant *)

Record wakeful (w : World) : Prop := {
  wk_calm : Forall (Forall (calm (sess w))) (pool w);
  wk_reset : forall g i r seen st, g ∈ pool w -> i ∈ g -> sleeps i = Some (r, seen) -> objs (sess w) !! r = Some st ->
    reset st = true -> seen = bcast st -> exists rest, (IBroadcast r :: rest) ∈ pool w }.

Lemma section_resets c st : reset st = false -> reset (run_section c st) = true -> exists code message, c = SecSetReset code message.
Proof.
  intros H. destruct c; cbn; unfold markOpened_locked, finish_locked, handleAccept_locked, handleReject_locked, writeLoop_locked, Write_locked,
    CloseWrite_locked, Read_locked, deliver_locked, addCredit_locked, remoteClose_locked; intros H1; eauto; repeat case_match; simplify_eq; cbn in *; congruence.
Qed.

(** A stream that a step resets gets its broadcast next. *)
Lemma step_resets i c s pr r st st' : step_instr i c s = Some pr -> objs s !! r = Some st -> objs (after pr) !! r = Some st' ->
  reset st = false -> reset st' = true -> pushed pr = [IBroadcast r].
Proof.
  intros H Hr Hr' Hf Ht. pose proof H as [Eo|r' st0 c' Hc Hr0 Eo|st0 _ _ Eo]%step_objs; rewrite Eo in Hr'.
  - congruence.
  - destruct (decide (r' = r)) as [->|Hne]; [|rewrite list_lookup_insert_ne in Hr' by done; congruence].
    rewrite list_lookup_insert_eq in Hr' by (by eapply lookup_lt_Some). simplify_eq. destruct (section_resets c' st Hf Ht) as (code & m & ->).
    inversion Hc; subst. cbn in H. destruct c; try done. unfold on_obj in H. rewrite Hr in H. by injection H as <-.
  - rewrite (lookup_app_l_Some _ _ _ _ Hr) in Hr'. congruence.
Qed.

Lemma step_broadcasts c s pr r st : step_instr (IBroadcast r) c s = Some pr -> objs s !! r = Some st ->
  exists st', objs (after pr) !! r = Some st' /\ bcast st' = S (bcast st).
Proof.
  cbn. destruct c; try done. unfold on_obj. intros H Hr. rewrite Hr in H. injection H as <-. exists (Broadcast st).
  split; [by eapply lookup_set_obj|done].
Qed.

(** An object of the state before a step that is reset after it. *)
Lemma step_was i c s pr r st' : step_instr i c s = Some pr -> objs (after pr) !! r = Some st' -> reset st' = true ->
  exists st, objs s !! r = Some st.
Proof.
  intros H Hr' Ht. pose proof H as [Eo|r' st0 c' _ Hr0 Eo|st0 _ Hfr Eo]%step_objs; rewrite Eo in Hr'; [by eexists| |].
  - destruct (decide (r' = r)) as [->|Hne]; [by eexists|]. rewrite list_lookup_insert_ne in Hr' by done. by eexists.
  - apply lookup_snoc_inv in Hr' as [?|[_ ->]]; [by eexists|]. by destruct Hfr as [(? & ? & ->)|(? & ? & ->)].
Qed.

Lemma exec_wakeful w t i rest c pr : wakeful w -> world_ok cfg w -> pool w !! t = Some (i :: rest) -> step_instr i c (sess w) = Some pr ->
  wakeful (mkWorld (after pr) (<[t := pushed pr ++ rest]> (pool w) ++ spawned pr) (calls w)).
Proof.
  intros [W1 W2] Hw Ht H. pose proof (Forall_lookup_1 _ _ _ _ W1 Ht) as [Hi Hrest]%Forall_cons.
  pose proof (step_soothes i c _ pr H) as Hs.
  destruct (step_calm i c _ pr H Hi) as [Hp Hsp].
  { intros r st Hr Hz. pose proof (w_ready _ _ Hw r) as Hb. rewrite Hr in Hb. destruct (opening st), (inbound st); cbn in Hb; try done; lia. }
  assert (forall l, Forall (drowsy (after pr)) l -> Forall (calm (after pr)) l) as Hd by (intros l Hl; eapply Forall_impl; [exact Hl|]; by intros j [? _]).
  constructor; cbn [sess pool].
  - apply Forall_app. split; [apply Forall_insert|].
    + eapply Forall_impl; [exact W1|]. intros g Hg. eapply Forall_impl; [exact Hg|]. intros j. by apply calm_soothes.
    + apply Forall_app. split; [by apply Hd|]. eapply Forall_impl; [exact Hrest|]. intros j. by apply calm_soothes.
    + eapply Forall_impl; [exact Hsp|]. exact Hd.
  - intros g j r seen st' Hg Hj Hz Hr' Hres Hb.
    assert (drowsy (after pr) j -> False) as Hnew by (intros [_ (x & Hx & Hx')%(fun f => f r seen Hz)]; congruence).
    assert (exists g0, g0 ∈ pool w /\ j ∈ g0) as (g0 & Hg0 & Hj0).
    { destruct (elem_step (pool w) t _ _ _ g Ht Hg) as [->|[Hg'|(t' & _ & Hg')]].
      - apply elem_of_app in Hj as [Hj|Hj]; [exfalso; rewrite Forall_forall in Hp; eauto|].
        eexists. split; [by eapply list_elem_of_lookup_2|]. by apply elem_of_cons; right.
      - exfalso. rewrite Forall_forall in Hsp. specialize (Hsp g Hg'). rewrite Forall_forall in Hsp. eauto.
      - exists g. split; [by eapply list_elem_of_lookup_2|done]. }
    destruct (step_was i c _ pr r st' H Hr' Hres) as [st Hr]. destruct (Hs r st Hr) as (x & Hx & [_ _ Hle _ _]). simplify_eq.
    assert (calm (sess w) j) as Hcalm by (rewrite Forall_forall in W1; specialize (W1 g0 Hg0); rewrite Forall_forall in W1; auto).
    destruct (cm_sleeps _ _ Hcalm r _ Hz) as (y & Hy & Hley & _). simplify_eq. assert (bcast st' = bcast st) as Eb by lia.
    destruct (reset st) eqn:Er.
    + destruct (W2 g0 j r _ st Hg0 Hj0 Hz Hr Er Eb) as [k Hk]. apply list_elem_of_lookup in Hk as [t0 Hk]. destruct (decide (t0 = t)) as [->|Hne].
      * rewrite Ht in Hk. injection Hk as -> ->. destruct (step_broadcasts c _ pr r st H Hr) as (z & Hz1 & Hz2). simplify_eq. lia.
      * exists k. apply elem_of_app. left. apply (list_elem_of_lookup_2 _ t0). by rewrite list_lookup_insert_ne.
    + rewrite (step_resets i c _ pr r st st' H Hr Hr' Er Hres). exists rest. apply elem_of_app. left. apply (list_elem_of_lookup_2 _ t).
      by rewrite list_lookup_insert_eq by (by eapply lookup_lt_Some).
Qed.

Lemma on_error_plain k e rest : exists pre suf, on_error k e rest = pre ++ suf /\ (suf = rest \/ suf = [])
  /\ Forall (fun i => drives i = None /\ sleeps i = None) pre.
Proof.
  destruct k; cbn; [exists [], rest|exists [IFail], rest|eexists _, []; rewrite app_nil_r..]; split_and!; auto; by repeat constructor.
Qed.

Lemma send_wakeful w t m k x rest g s : wakeful w -> pool w !! t = Some (ISend m k :: rest) -> sendApp m k x rest (sess w) = (g, s) ->
  wakeful (mkWorld s (<[t := g]> (pool w) ++ []) (calls w)).
Proof.
  intros [W1 W2] Ht H. pose proof (Forall_lookup_1 _ _ _ _ W1 Ht) as [_ Hrest]%Forall_cons.
  assert (objs s = objs (sess w)) as Eo by (unfold sendApp in H; repeat case_match; by simplify_eq).
  assert (exists pre suf, g = pre ++ suf /\ (suf = rest \/ suf = []) /\ Forall (fun i => drives i = None /\ sleeps i = None) pre) as (pre & suf & -> & Hsuf & Hpre).
  { unfold sendApp in H. repeat case_match; simplify_eq; try apply on_error_plain. exists [], g. split_and!; auto. }
  assert (forall j, calm (sess w) j -> calm s j) as Hc.
  { intros j. apply calm_soothes. intros r st Hr. rewrite Eo. exists st. split; [done|apply soothes_refl]. }
  rewrite app_nil_r. constructor; cbn [sess pool].
  - apply Forall_insert; [eapply Forall_impl; [exact W1|]; intros h Hh; by eapply Forall_impl|]. apply Forall_app. split.
    + eapply Forall_impl; [exact Hpre|]. intros j [? ?]. by apply calm_plain.
    + destruct Hsuf as [-> | ->]; [by eapply Forall_impl|constructor].
  - intros h j r seen st Hh Hj Hz Hr Hres Hb. rewrite Eo in Hr.
    assert (exists g0, g0 ∈ pool w /\ j ∈ g0) as (g0 & Hg0 & Hj0).
    { rewrite <- (app_nil_r (<[t := _]> _)) in Hh. destruct (elem_step (pool w) t _ _ [] h Ht Hh) as [->|[Hg'%elem_of_nil|(t' & _ & Hg')]]; [|done|].
      - eexists. split; [by eapply list_elem_of_lookup_2|]. apply elem_of_app in Hj as [Hj|Hj].
        + rewrite Forall_forall in Hpre. apply Hpre in Hj as [_ ?]. congruence.
        + destruct Hsuf as [-> | ->]; [by apply elem_of_cons; right|by apply elem_of_nil in Hj].
      - exists h. split; [by eapply list_elem_of_lookup_2|done]. }
    destruct (W2 g0 j r seen st Hg0 Hj0 Hz Hr Hres Hb) as [q Hq]. apply list_elem_of_lookup in Hq as [t0 Hq]. exists q.
    apply (list_elem_of_lookup_2 _ t0). destruct (decide (t0 = t)) as [->|Hne]; [congruence|]. by rewrite list_lookup_insert_ne.
Qed.

Lemma call_plain call a s gs : call_stack call a s = Some gs -> Forall (Forall (fun i => drives i = None /\ sleeps i = None)) gs.
Proof.
  intros H. destruct a; cbn in H; unfold Stream_Reset, resetRemote in H; repeat case_match; simplify_eq; cbn [app]; by repeat constructor.
Qed.

Lemma step_wakeful l w w' : wakeful w -> world_ok cfg w -> step cfg fmt_q ExecCmd_UnmarshalBinary l w = Some w' -> wakeful w'.
Proof.
  intros W Hw H. destruct l as [t c|a]; cbn [step] in H.
  - destruct (pool w !! t) as [[|i rest]|] eqn:Ht; [done| |done]. destruct (exec i rest c (sess w)) as [[[g gs] s]|] eqn:E; [|done].
    injection H as <-. apply exec_cases in E as [(m & k & x & -> & -> & E & ->)|(pr & E & -> & -> & ->)]; [by eapply send_wakeful|by eapply exec_wakeful].
  - destruct (call_stack (calls w) a (sess w)) as [gs|] eqn:E; [|done]. injection H as <-. apply call_plain in E. destruct W as [W1 W2].
    constructor; cbn [sess pool].
    + apply Forall_app. split; [done|]. eapply Forall_impl; [exact E|]. intros g Hg. eapply Forall_impl; [exact Hg|]. intros i [? ?]. by apply calm_plain.
    + intros g i r seen st [Hg|Hg]%elem_of_app Hi Hz Hr Hres Hb.
      * destruct (W2 g i r seen st Hg Hi Hz Hr Hres Hb) as [rest ?]. exists rest. apply elem_of_app. by left.
      * rewrite Forall_forall in E. specialize (E g Hg). rewrite Forall_forall in E. apply E in Hi as [_ ?]. congruence.
Qed.

Lemma run_wakeful ls w w' : wakeful w -> world_ok cfg w -> run cfg fmt_q ExecCmd_UnmarshalBinary ls w = Some w' -> wakeful w'.
Proof.
  revert w; induction ls as [|l ls IH]; intros w W Hw; cbn; [by intros [= <-]|].
  destruct (step cfg fmt_q ExecCmd_UnmarshalBinary l w) as [w1|] eqn:E; [|done].
  apply IH; [by eapply step_wakeful|by eapply step_world_ok].
Qed.

(** C13: no wake-up is lost.  In every reachable state of a session, a goroutine
    that sleeps in [cond.Wait] and that nobody has woken since has nothing to
    do, unless its stream was reset and the broadcast of that reset is still to
    come: a write loop has no data queued or no credit; a [Read] has no data and
    the peer has not closed.  In particular data, credit, delivered data and the
    peer's close always wake those who wait for them.  ([closeAfterFlush]
    is the one condition of the write loop that does not: see
    [Close_can_hang].) *)
Theorem no_lost_wakeup (w : World) (H : reachable cfg fmt_q ExecCmd_UnmarshalBinary w) (g : list instr) (i : instr) (r seen : nat) :
  g ∈ pool w -> i ∈ g -> sleeps i = Some (r, seen) ->
  exists st, objs (sess w) !! r = Some st /\ (seen <= bcast st)%nat
  /\ (seen = bcast st -> if reset st then exists rest, (IBroadcast r :: rest) ∈ pool w else nothing_for i st).
Proof.
  intros Hg Hi Hz. destruct H as [ls H]. assert (wakeful w) as [W1 W2].
  { eapply run_wakeful; [|apply world0_ok|exact H]. constructor; [constructor|]. by intros ? ? ? ? ? ?%elem_of_nil. }
  rewrite Forall_forall in W1. specialize (W1 g Hg). rewrite Forall_forall in W1. destruct (cm_sleeps _ _ (W1 i Hi) r seen Hz) as (st & Hr & Hle & Hn).
  exists st. split; [done|]. split; [done|]. intros Hb. destruct (reset st) eqn:Er; [by eapply W2|auto].
Qed.

End Wake.

(** After the peer's close the write loop of [open_then_peer_close] sleeps again,
    with nothing to send. *)
Lemma no_lost_wakeup_witness :
  reachable demo_cfg plain_q no_exec demo_world /\ pool demo_world !! 3%nat = Some [IWriteLoopWait 0 1; IWgDone]
  /\ exists st, objs (sess demo_world) !! 0%nat = Some st
     /\ (if reset st then exists rest, (IBroadcast 0 :: rest) ∈ pool demo_world else nothing_for (IWriteLoopWait 0 1) st).
Proof.
  split; [exact demo_reachable|]. split; [vm_compute; reflexivity|].
  destruct (no_lost_wakeup demo_cfg plain_q no_exec demo_world demo_reachable [IWriteLoopWait 0 1; IWgDone] (IWriteLoopWait 0 1) 0 1)
    as (st & Hr & _ & Hn); [apply (list_elem_of_lookup_2 _ 3); vm_compute; reflexivity|by apply elem_of_cons; left|reflexivity|].
  exists st. split; [exact Hr|]. apply Hn. vm_compute in Hr. injection Hr as <-. reflexivity.
Defined.
