(* ===== verification/SessionRecv.v ===== *)
(** * What a session does with the frames it reads

    One side of a connection between two sessions: the order in which [Serve]
    hands the payloads of APP_DATA frames to streams, and the place of APP_OPEN
    among the frames a session writes.  [SessionPair.v] joins two such sides.

    The frames read so far are [seen].  A stream has been fed a prefix of what
    [seen] carries for its id; while it is in the table and not reset, all of it
    but what the serving goroutine holds ([hand]). *)
From Stdlib Require Import ZArith Lia.
From stdpp Require Import base list gmap strings.
From S2P Require Import Prelude GoIO Wire Frame Codec MsgApp Exec Registry Stream Session SessionInv Ledger SessionFifo.

Open Scope Z_scope.

(** ** Frames *)

(** The APP_OPEN message of a frame. *)
Definition open_msg (f : Frame) : option AppOpen :=
  if Type_ f =? TypeAPPOPEN
  then match UnmarshalBinary (Body f) with Ok m => Some m | Err _ => None end
  else None.

Definition open_at (id : Z) (f : Frame) : nat :=
  match open_msg f with Some m => b2n (open_StreamID m =? id) | None => 0 end.

(** How often [id] is opened. *)
Definition opens (id : Z) (l : list Frame) : nat := tally (open_at id) l.

(** Frames that carry data for [id]. *)
Definition data_for (id : Z) (f : Frame) : Prop := exists m, frame_msg f = Some m /\ data_StreamID m = id.

Lemma out_bytes_not id l : (forall f, f ∈ l -> ~ data_for id f) -> out_bytes id l = [].
Proof.
  induction l as [|f l IH]; intros H; [done|]. unfold out_bytes in *. cbn. rewrite IH by (intros f' ?; apply H; by apply elem_of_cons; right).
  rewrite app_nil_r. unfold frame_bytes. destruct (frame_msg f) as [m|] eqn:E; [|done].
  destruct (Z.eqb_spec (data_StreamID m) id); [|done]. destruct (H f); [by apply elem_of_cons; left|]. by exists m.
Qed.

Section Side.

Context (cfg : Config) (fmt_q : bytes -> bytes) (ExecCmd_UnmarshalBinary : bytes -> result ExecCmd).

Abbreviation handleFrame := (handleFrame ExecCmd_UnmarshalBinary).
Abbreviation step_instr := (step_instr cfg fmt_q ExecCmd_UnmarshalBinary).
Abbreviation exec := (exec cfg fmt_q ExecCmd_UnmarshalBinary).

(** A frame the dispatcher takes for what its type says. *)
Record honest (f : Frame) : Prop := {
  hn_data : forall m, handleFrame f = inl (IHandleData m) <-> frame_msg f = Some m;
  hn_open : forall m, handleFrame f = inl (IHandleOpen m) <-> open_msg f = Some m }.

Lemma handle_data f m : handleFrame f = inl (IHandleData m) -> Type_ f = TypeAPPDATA.
Proof.
  unfold Session.handleFrame. destruct (_ || _); [done|]. destruct (DecodeMessageBody _ _ _) as [x|] eqn:E; [|done].
  destruct x; intros; simplify_eq. by eapply DecodeMessageBody_data_type.
Qed.

Lemma handle_open f m : handleFrame f = inl (IHandleOpen m) -> Type_ f = TypeAPPOPEN.
Proof.
  unfold Session.handleFrame. destruct (_ || _); [done|]. destruct (DecodeMessageBody _ _ _) as [x|] eqn:E; [|done].
  destruct x; intros; simplify_eq. by eapply DecodeMessageBody_open_type.
Qed.

(** A frame that is neither APP_DATA nor APP_OPEN. *)
Lemma honest_other f : Type_ f <> TypeAPPDATA -> Type_ f <> TypeAPPOPEN -> honest f.
Proof.
  intros Hd Ho. split; intros m; split.
  - intros H%handle_data. done.
  - unfold frame_msg. by rewrite (proj2 (Z.eqb_neq _ _)) by done.
  - intros H%handle_open. done.
  - unfold open_msg. by rewrite (proj2 (Z.eqb_neq _ _)) by done.
Qed.

(** A frame of a message the wire can carry. *)
Lemma app_frame_carries {A} `{CodecLaws A} (box : A -> Message) typ (m : A) f : carries m = true ->
  app_frame (box m) = Ok f -> appMessageType (box m) = Ok typ -> app_marshal (box m) = MarshalBinary m ->
  f = mkFrame typ 0 0 (encoding m).
Proof.
  intros Hc. unfold app_frame. intros E Et Em. rewrite Et, Em, (marshal_encoding m Hc) in E. cbn in E. by simplify_eq.
Qed.

Lemma unmarshal_carried {A} `{CodecLaws A} (m : A) : carries m = true -> UnmarshalBinary (encoding m) = Ok m.
Proof. apply unmarshal_encoding. Qed.

Lemma decode_carried {A} `{CodecLaws A} (box : A -> Message) (m : A) : carries m = true -> from_bytes (boxed box decode) (encoding m) = Ok (box m).
Proof.
  intros Hc. destruct (boxed_roundtrip box m (Ok (encoding m))) as (body & [= <-] & E); [by rewrite marshal_encoding, Hc|done].
Qed.

Lemma honest_data m f : carries m = true -> app_frame (MAppData m) = Ok f ->
  honest f /\ frame_msg f = Some m /\ open_msg f = None.
Proof.
  intros Hc E. pose proof (app_frame_carries MAppData TypeAPPDATA m f Hc E eq_refl eq_refl) as ->.
  assert (frame_msg (mkFrame TypeAPPDATA 0 0 (encoding m)) = Some m) as Hm
    by (unfold frame_msg; cbn [Type_ Body]; rewrite Z.eqb_refl; by rewrite (unmarshal_carried m Hc)).
  assert (handleFrame (mkFrame TypeAPPDATA 0 0 (encoding m)) = inl (IHandleData m)) as Hh.
  { unfold Session.handleFrame. cbn [Flags MsgID Type_ Body Z.eqb negb orb].
    change (DecodeMessageBody ExecCmd_UnmarshalBinary TypeAPPDATA (encoding m)) with (from_bytes (boxed MAppData decode) (encoding m)).
    by rewrite (decode_carried MAppData m Hc). }
  split; [|done]. split; intros m'; rewrite ?Hm, ?Hh; split; try done; by intros; simplify_eq.
Qed.

Lemma honest_open m f : carries m = true -> app_frame (MAppOpen m) = Ok f ->
  honest f /\ open_msg f = Some m /\ frame_msg f = None.
Proof.
  intros Hc E. pose proof (app_frame_carries MAppOpen TypeAPPOPEN m f Hc E eq_refl eq_refl) as ->.
  assert (open_msg (mkFrame TypeAPPOPEN 0 0 (encoding m)) = Some m) as Hm
    by (unfold open_msg; cbn [Type_ Body]; rewrite Z.eqb_refl; by rewrite (unmarshal_carried m Hc)).
  assert (handleFrame (mkFrame TypeAPPOPEN 0 0 (encoding m)) = inl (IHandleOpen m)) as Hh.
  { unfold Session.handleFrame. cbn [Flags MsgID Type_ Body Z.eqb negb orb].
    change (DecodeMessageBody ExecCmd_UnmarshalBinary TypeAPPOPEN (encoding m)) with (from_bytes (boxed MAppOpen decode) (encoding m)).
    by rewrite (decode_carried MAppOpen m Hc). }
  split; [|done]. split; intros m'; rewrite ?Hm, ?Hh; split; try done; by intros; simplify_eq.
Qed.

(** Any other message of a session. *)
Lemma honest_app m f : (forall d, m <> MAppData d) -> (forall d, m <> MAppOpen d) -> app_frame m = Ok f ->
  honest f /\ open_msg f = None /\ frame_msg f = None.
Proof.
  intros Hd Ho E%app_frame_type.
  assert (Type_ f <> TypeAPPDATA /\ Type_ f <> TypeAPPOPEN) as [H1 H2]
    by (destruct m; cbn [appMessageType] in E; try done; try (by edestruct Hd); try (by edestruct Ho); injection E as <-; done).
  split; [by apply honest_other|]. unfold open_msg, frame_msg. by rewrite !(proj2 (Z.eqb_neq _ _)) by done.
Qed.

Lemma honest_error code message : honest (error_frame_of code message) /\ open_msg (error_frame_of code message) = None.
Proof. by split; [apply honest_other|]. Qed.

(** ** Tokens *)

Definition serve (i : instr) : nat := match i with IServe _ => 1 | _ => 0 end.

(** Steps that hold what a frame brought. *)
Definition hands (i : instr) : bool :=
  match i with IHandleData _ | IDeliver _ _ | IHandleOpen _ => true | _ => false end.

Definition handles_open (id : Z) (i : instr) : nat :=
  match i with IHandleOpen m => b2n (open_StreamID m =? id) | _ => 0 end.

Definition opener (id : Z) (i : instr) : nat :=
  match i with ISend (MAppOpen m) _ => b2n (open_StreamID m =? id) | _ => 0 end.

Definition resets (r : nat) (i : instr) : nat := match i with ISetReset r' _ _ => b2n (r =? r')%nat | _ => 0 end.

(** Steps off the paths followed here. *)
Definition idle (i : instr) : bool :=
  match i with
  | IServe _ | IHandleData _ | IDeliver _ _ | IHandleOpen _ | IOpen _ _ _ | ISend (MAppOpen _) _ => false
  | _ => true
  end.

Lemma idle_tallies g : forallb idle g = true -> tally serve g = 0%nat /\ forallb (negb ∘ hands) g = true
  /\ (forall id, tally (handles_open id) g = 0%nat /\ tally (opener id) g = 0%nat).
Proof.
  induction g as [|i g IH]; [done|]. cbn [forallb]. intros [Hi Hg]%andb_true_iff. destruct (IH Hg) as (H1 & H2 & H3).
  rewrite tally_cons, H1, H2. split; [by destruct i|]. split; [by destruct i|].
  intros id. rewrite !tally_cons. destruct (H3 id) as [-> ->]. destruct i; try done. by destruct m.
Qed.

Lemma idle_pushed i c s pr : step_instr i c s = Some pr -> idle i = true ->
  forallb idle (pushed pr) = true /\ Forall (fun g => forallb idle g = true) (spawned pr).
Proof.
  assert (forall r f, on_obj r s f = Some pr -> exists st, objs s !! r = Some st /\ pr = f st s) as Hobj.
  { intros r f. unfold on_obj. destruct (objs s !! r) as [st|]; intros; simplify_eq; eauto. }
  destruct i; try done; cbn [Session.step_instr]; destruct c; try done; intros H Hi; try (apply Hobj in H as (st & Hr & ->)).
  all: try (by simplify_eq; split; [|constructor]).
  all: try (simplify_eq; unfold on_id, accept_locked, reject_locked, closeReady, remoteClose, addCredit, setReset, maybeFinish,
    markOpened, closeEndpoint, detach, detach_bytes, finish, Open_result, CloseWrite, Stream_Read, Stream_Write, writeLoop,
    startWriteLoop, Session_fail, acceptOpen, acceptOpen_ready, handleAccept, Open_select in *;
    repeat case_match; simplify_eq; by split; [|repeat constructor]).
  all: try (destruct (objs s !! r) as [st|]; [|done]; case_match; [|done]; simplify_eq; unfold Stream_Read, writeLoop;
    repeat case_match; by split; [|repeat constructor]).
  destruct (streams s !! accept_StreamID m) as [r|]; [|by simplify_eq; split; [|constructor]].
  apply Hobj in H as (st & Hr & ->). unfold handleAccept. repeat case_match; by split; [|repeat constructor].
Qed.

(** ** What steps keep *)

(** An object keeps its id and direction, and stays reset. *)
Record keeps (st st' : Stream) : Prop := {
  kp_sid : sid st' = sid st;
  kp_inbound : inbound st' = inbound st;
  kp_reset : reset st = true -> reset st' = true }.

Lemma section_keeps c st : keeps st (run_section c st).
Proof.
  split; [| |intros H; by apply section_reset_sticky]; destruct c; cbn;
    unfold markOpened_locked, finish_locked, setReset_locked, handleAccept_locked, handleReject_locked,
      writeLoop_locked, Write_locked, CloseWrite_locked, Read_locked, deliver_locked, addCredit_locked,
      remoteClose_locked; repeat case_match; done.
Qed.

Lemma all_keep_refl l : Forall2 keeps l l.
Proof. induction l; by constructor. Qed.

Lemma step_keeps i c s pr : step_instr i c s = Some pr -> allocates i = false -> Forall2 keeps (objs s) (objs (after pr)).
Proof.
  intros H Hi. pose proof H as [Eo|r st c' Hc Hr Eo|st Ha _ Eo]%step_objs; rewrite Eo.
  - apply all_keep_refl.
  - rewrite <- (list_insert_id (objs s) r st Hr) at 1. apply Forall2_insert; [apply all_keep_refl|apply section_keeps].
  - by rewrite Ha in Hi.
Qed.

Lemma step_streams i c s pr : step_instr i c s = Some pr -> allocates i = false -> streams (after pr) ⊆ streams s.
Proof.
  assert (forall r f, on_obj r s f = Some pr -> exists st, objs s !! r = Some st /\ pr = f st s) as Hobj.
  { intros r f. unfold on_obj. destruct (objs s !! r) as [st|]; intros; simplify_eq; eauto. }
  destruct i; try done; cbn [Session.step_instr]; try (by unfold Serve; intros H _; repeat case_match; simplify_eq);
    destruct c; try done; intros H _; try (apply Hobj in H as (st & Hr & ->)).
  all: try (by simplify_eq).
  all: try (unfold deliver; destruct (if deliver_needs_buffer _ _ then _ else _) as [b s1] eqn:E;
    unfold reserveBuffer in E; repeat case_match; by simplify_eq).
  all: try (unfold Stream_Write; case_match; [done|]; destruct (if write_needs_buffer _ _ then _ else _) as [b s1] eqn:E;
    unfold reserveBuffer in E; repeat case_match; by simplify_eq).
  all: try (simplify_eq; unfold on_id, accept_locked, reject_locked, closeReady, remoteClose, addCredit, setReset, maybeFinish,
    markOpened, closeEndpoint, detach_bytes, finish, Open_result, CloseWrite, Stream_Read, writeLoop, releaseBuffer, sendError,
    startWriteLoop, acceptOpen, acceptOpen_ready, handleAccept, Open_select in *;
    repeat case_match; by simplify_eq).
  all: try (destruct (objs s !! r) as [st|]; [|done]; case_match; [|done]; simplify_eq; unfold Stream_Read, writeLoop;
    by repeat case_match).
  - destruct (streams s !! accept_StreamID m) as [r|]; [|by simplify_eq].
    apply Hobj in H as (st & Hr & ->). unfold handleAccept. by repeat case_match.
  - simplify_eq. unfold Session_fail. case_match; [done|apply map_empty_subseteq].
  - unfold detach. cbn. case_bool_decide; [apply delete_subseteq|done].
Qed.

(** ** The serving goroutine *)

(** [IServe] is the last step of its goroutine, what a frame brought its first. *)
Fixpoint rshape (g : list instr) : Prop :=
  match g with
  | [] => True
  | i :: rest => (serve i = 1%nat -> rest = []) /\ (hands i = true -> exists c, rest = [IServe c]) /\ rshape rest
  end.

Definition no_hands (g : list instr) : bool := forallb (negb ∘ hands) g.

Definition rstack (g : list instr) : Prop := rshape g /\ no_hands (tail g) = true.

(** The bytes a goroutine is about to hand to the stream [r] with id [id]. *)
Definition handg (r : nat) (id : Z) (g : list instr) : bytes :=
  match g with
  | IHandleData m :: _ => if data_StreamID m =? id then data_Data m else []
  | IDeliver r' d :: _ => if (r =? r')%nat then d else []
  | _ => []
  end.

Definition hand (r : nat) (id : Z) (p : list (list instr)) : bytes := concat (handg r id <$> p).

Lemma no_hands_handg r id g : no_hands g = true -> handg r id g = [].
Proof. destruct g as [|i g]; [done|]. by destruct i. Qed.

Lemma no_hands_opens id g : no_hands g = true -> tally (handles_open id) g = 0%nat.
Proof.
  induction g as [|i g IH]; [done|]. cbn. intros [Hi Hg]%andb_true_iff. unfold tally in *. rewrite IH by done. by destruct i.
Qed.

Lemma hand_serves r id g : rstack g -> handg r id g <> [] -> (1 <= tally serve g)%nat.
Proof.
  intros [Hs _] Hh. destruct g as [|i g]; [done|]. destruct Hs as (_ & Hi & _).
  destruct i; try done; destruct (Hi eq_refl) as [c ->]; unfold tally; cbn; lia.
Qed.

Lemma hand_nil r id p : (forall g, g ∈ p -> handg r id g = []) -> hand r id p = [].
Proof.
  unfold hand. induction p as [|g p IH]; intros H; [done|]. cbn. rewrite (H g) by (by apply elem_of_cons; left).
  apply IH. intros g' Hg'. apply H. by apply elem_of_cons; right.
Qed.

Lemma hand_app r id p q : hand r id (p ++ q) = hand r id p ++ hand r id q.
Proof. unfold hand. by rewrite fmap_app, concat_app. Qed.

(** A goroutine that holds nothing steps to one that holds nothing. *)
Lemma hand_quiet r id p t old new : p !! t = Some old -> handg r id old = [] -> handg r id new = [] -> hand r id (<[t := new]> p) = hand r id p.
Proof.
  intros Ht Ho Hn. unfold hand. rewrite list_fmap_insert, Hn. f_equal. apply list_insert_id. by rewrite list_lookup_fmap, Ht; cbn; rewrite Ho.
Qed.

(** The only one that holds anything. *)
Lemma hand_only r id p t g : p !! t = Some g -> (forall t' g', t' <> t -> p !! t' = Some g' -> handg r id g' = []) -> hand r id p = handg r id g.
Proof.
  revert t. induction p as [|h p IH]; intros t Ht Ho; [done|]. unfold hand in *. cbn. destruct t as [|t]; cbn in Ht.
  - injection Ht as ->. pose proof (hand_nil r id p) as Hn. unfold hand in Hn. rewrite Hn, app_nil_r; [done|].
    intros g' [t' Hg']%list_elem_of_lookup. by apply (Ho (S t')).
  - rewrite (Ho 0%nat h) by done. apply (IH t Ht). intros t' g' Hne. apply (Ho (S t')). lia.
Qed.

Definition inbound_at (id : Z) (st : Stream) : nat := b2n (inbound st && (sid st =? id)).

Lemma inbound_keeps id l l' : Forall2 keeps l l' -> tally (inbound_at id) l' = tally (inbound_at id) l.
Proof. induction 1 as [|st st' l l' [H1 H2 _] _ IH]; [done|]. rewrite !tally_cons, IH. unfold inbound_at. by rewrite H1, H2. Qed.

(** The serving goroutine is not about to reset [r]. *)
Definition serves_on (r : nat) (p : list (list instr)) : Prop :=
  forall g, g ∈ p -> (1 <= tally serve g)%nat -> tally (resets r) g = 0%nat.

Record recv (seen : list Frame) (fed : nat -> bytes) (s : Session) (p : list (list instr)) : Prop := {
  rv_serve : (tally_pool serve p <= 1)%nat;
  rv_shape : Forall rstack p;
  rv_data : forall m rest, (IHandleData m :: rest) ∈ p -> exists f, f ∈ seen /\ frame_msg f = Some m;
  rv_open : forall m rest f, (IHandleOpen m :: rest) ∈ p -> f ∈ seen -> ~ data_for (open_StreamID m) f;
  rv_prefix : forall r st, objs s !! r = Some st -> fed r `prefix_of` out_bytes (sid st) seen;
  rv_live : forall r st, objs s !! r = Some st -> streams s !! sid st = Some r -> reset st = false -> serves_on r p ->
    fed r ++ hand r (sid st) p = out_bytes (sid st) seen;
  rv_deliver : forall r d rest, (IDeliver r d :: rest) ∈ p -> exists st, objs s !! r = Some st
    /\ (reset st = false -> fed r ++ d `prefix_of` out_bytes (sid st) seen);
  rv_count : forall id, (tally (inbound_at id) (objs s) + tally_pool (handles_open id) p <= opens id seen)%nat }.

(** The goroutines a step leaves: the stepping one, the new ones, the others. *)
Lemma head_elem {A} (p : list (list A)) t (old new : list A) gs i rest : p !! t = Some old ->
  (i :: rest) ∈ <[t := new]> p ++ gs -> new = i :: rest \/ (i :: rest) ∈ gs \/ (i :: rest) ∈ p.
Proof.
  intros Ht Hin. destruct (elem_step p t old new gs (i :: rest) Ht Hin) as [->|[?|(t' & _ & ?)]]; auto.
  right. right. by eapply list_elem_of_lookup_2.
Qed.

(** A step off the paths. *)
Lemma recv_calm seen fed s s' p t old new gs :
  recv seen fed s p -> p !! t = Some old -> Forall2 keeps (objs s) (objs s') -> streams s' ⊆ streams s ->
  no_hands old = true -> no_hands new = true -> Forall (fun g => no_hands g = true) gs ->
  rshape new -> Forall rshape gs -> (tally serve new <= tally serve old)%nat -> tally_pool serve gs = 0%nat ->
  (forall r st', objs s' !! r = Some st' -> reset st' = false -> (1 <= tally serve old)%nat ->
     ((1 <= tally serve new)%nat -> tally (resets r) new = 0%nat) -> tally (resets r) old = 0%nat) ->
  recv seen fed s' (<[t := new]> p ++ gs).
Proof.
  intros [V1 V2 V3 V4 V5 V6 V7 V8] Ht Ho Hst Hold Hnew Hgs Hsn Hsg Hserve Hsgs Hres.
  assert (forall r st', objs s' !! r = Some st' -> exists st, objs s !! r = Some st /\ keeps st st') as Hback
    by (intros r st' E; by apply (Forall2_lookup_r _ _ _ _ _ Ho)).
  assert (forall i rest, hands i = true -> (i :: rest) ∈ <[t := new]> p ++ gs -> (i :: rest) ∈ p) as Hin.
  { intros i rest Hi Hin. destruct (head_elem p t old new gs i rest Ht Hin) as [->|[Hg|?]]; [| |done].
    - cbn in Hnew. by rewrite Hi in Hnew.
    - rewrite Forall_forall in Hgs. specialize (Hgs _ Hg). cbn in Hgs. by rewrite Hi in Hgs. }
  assert (forall r id, hand r id (<[t := new]> p ++ gs) = hand r id p) as Hhand.
  { intros r id. rewrite hand_app, (hand_nil r id gs), app_nil_r.
    - apply (hand_quiet r id p t old); [done|by apply no_hands_handg..].
    - intros g Hg. apply no_hands_handg. rewrite Forall_forall in Hgs. by apply Hgs. }
  constructor.
  - pose proof (tally_step serve p t old new gs Ht). lia.
  - apply Forall_app. split; [apply Forall_insert; [done|]|].
    + split; [done|]. destruct new; [done|]. cbn in Hnew. by apply andb_true_iff in Hnew as [_ ?].
    + rewrite Forall_forall in Hgs, Hsg |- *. intros g Hg. split; [by apply Hsg|]. specialize (Hgs g Hg).
      destruct g; [done|]. cbn in Hgs. by apply andb_true_iff in Hgs as [_ ?].
  - intros m rest Hm. by eapply V3, Hin.
  - intros m rest f Hm. by eapply V4, Hin.
  - intros r st' E. destruct (Hback r st' E) as (st & E0 & [Hs _ _]). rewrite Hs. by apply V5.
  - intros r st' E Htab Hr Hon. destruct (Hback r st' E) as (st & E0 & [Hs _ Hk]). rewrite Hs in *. rewrite Hhand. apply V6; try done.
    + by eapply lookup_weaken.
    + destruct (reset st); [|done]. by rewrite Hk in Hr.
    + intros g [t' Hg]%list_elem_of_lookup Hsv. destruct (decide (t' = t)) as [->|Hne].
      * rewrite Ht in Hg. injection Hg as <-. apply (Hres r st'); try done. intros Hsv'. apply Hon; [|done].
        apply elem_of_app. left. apply list_elem_of_lookup. exists t. apply list_lookup_insert_eq. by apply lookup_lt_Some in Ht.
      * apply Hon; [|done]. apply elem_of_app. left. apply list_elem_of_lookup. exists t'. by rewrite list_lookup_insert_ne.
  - intros r d rest Hd. destruct (V7 r d rest (Hin (IDeliver r d) rest eq_refl Hd)) as (st & E & H). destruct (Forall2_lookup_l _ _ _ _ _ Ho E) as (st' & E' & [Hs _ Hk]).
    exists st'. split; [done|]. rewrite Hs. intros Hr. apply H. destruct (reset st); [|done]. by rewrite Hk in Hr.
  - intros id. rewrite (inbound_keeps id _ _ Ho). pose proof (tally_step (handles_open id) p t old new gs Ht) as E.
    rewrite (no_hands_opens id new), (no_hands_opens id old) in E by done.
    assert (tally_pool (handles_open id) gs = 0%nat) as Hz.
    { clear -Hgs. induction Hgs as [|g gs Hg _ IH]; [done|]. unfold tally_pool in *. cbn. by rewrite no_hands_opens, IH. }
    specialize (V8 id). lia.
Qed.

Lemma rshape_app g h : forallb idle g = true -> rshape h -> rshape (g ++ h).
Proof.
  intros Hg Hh. induction g as [|i g IH]; [done|]. cbn in Hg. apply andb_true_iff in Hg as [Hi Hg].
  split; [by destruct i|]. split; [by destruct i|]. by apply IH.
Qed.

Lemma idle_hands i : idle i = true -> hands i = false /\ serve i = 0%nat.
Proof. by destruct i. Qed.

Lemma recv_idle seen fed s p t i c rest pr :
  recv seen fed s p -> p !! t = Some (i :: rest) -> idle i = true -> step_instr i c s = Some pr ->
  recv seen fed (after pr) (<[t := pushed pr ++ rest]> p ++ spawned pr).
Proof.
  intros HR Ht Hi H. destruct (idle_pushed i c s pr H Hi) as [Hp Hg]. destruct (idle_tallies _ Hp) as (Hps & Hph & _).
  assert (rstack (i :: rest)) as [(_ & _ & Hrest) Hn] by (eapply Forall_lookup_1; [apply HR|done]). cbn [tail] in Hn.
  destruct (idle_hands i Hi) as [Hih His]. assert (allocates i = false) as Ha by (by destruct i).
  apply (recv_calm seen fed s (after pr) p t (i :: rest)); try done.
  - by eapply step_keeps.
  - by eapply step_streams.
  - unfold no_hands in *. cbn [forallb]. by rewrite Hn, andb_true_r; cbn; rewrite Hih.
  - unfold no_hands in *. by rewrite forallb_app, Hph, Hn.
  - eapply Forall_impl; [exact Hg|]. intros g Hidle. by destruct (idle_tallies _ Hidle) as (_ & ? & _).
  - by apply rshape_app.
  - eapply Forall_impl; [exact Hg|]. intros g Hidle. rewrite <- (app_nil_r g). by apply rshape_app.
  - rewrite tally_app, tally_cons. lia.
  - clear -Hg. induction Hg as [|g gs Hidle _ IH]; [done|]. unfold tally_pool in *. cbn. rewrite IH. by destruct (idle_tallies _ Hidle) as [-> _].
  - intros r st' E Hr Hsv Hz. rewrite tally_app, Hps in Hz. rewrite tally_cons, His in Hsv. specialize (Hz ltac:(lia)). rewrite tally_app in Hz.
    rewrite tally_cons. assert (resets r i = 0%nat) as ->; [|lia].
    destruct i; try done. cbn. destruct (Nat.eqb_spec r r0) as [->|]; [|done]. exfalso.
    cbn [Session.step_instr] in H. destruct c; try done. unfold on_obj in H. destruct (objs s !! r0) as [st|] eqn:E0; [|done].
    injection H as <-. cbn in E. rewrite list_lookup_insert_eq in E by (by apply lookup_lt_Some in E0). injection E as <-.
    unfold setReset_locked in Hr. repeat case_match; cbn in Hr; congruence.
Qed.

Lemma no_serve_calm seen fed s s' p t old new :
  recv seen fed s p -> p !! t = Some old -> objs s' = objs s -> streams s' = streams s ->
  no_hands old = true -> tally serve old = 0%nat -> forallb idle new = true ->
  recv seen fed s' (<[t := new]> p ++ []).
Proof.
  intros HR Ht Eo Es Hold Hsv Hnew. destruct (idle_tallies _ Hnew) as (Hps & Hph & _).
  apply (recv_calm seen fed s s' p t old); try done.
  - rewrite Eo. apply all_keep_refl.
  - by rewrite Es.
  - rewrite <- (app_nil_r new). by apply rshape_app.
  - lia.
  - intros. lia.
Qed.

Lemma recv_send seen fed s p t m k w rest new s' :
  recv seen fed s p -> stack_ok (ISend m k :: rest) -> p !! t = Some (ISend m k :: rest) ->
  sendApp m k w rest s = (new, s') -> recv seen fed s' (<[t := new]> p ++ []).
Proof.
  intros HR [Hk _] Ht E.
  assert (rstack (ISend m k :: rest)) as [(_ & _ & Hrest) Hn] by (eapply Forall_lookup_1; [apply HR|done]). cbn [tail] in Hn.
  assert (objs s' = objs s /\ streams s' = streams s) as [Eo Es] by (unfold sendApp in E; repeat case_match; by simplify_eq).
  assert (forall new, new = rest \/ new = IFail :: rest -> recv seen fed s' (<[t := new]> p ++ [])) as Hkeep.
  { intros new' Hnew'. assert (tally serve new' = tally serve rest /\ forall r, tally (resets r) new' = tally (resets r) rest) as [Hs Hr]
      by (by destruct Hnew' as [-> | ->]).
    apply (recv_calm seen fed s s' p t (ISend m k :: rest)); try done.
    - rewrite Eo. apply all_keep_refl.
    - by rewrite Es.
    - by destruct Hnew' as [-> | ->].
    - by destruct Hnew' as [-> | ->].
    - rewrite Hs. done.
    - intros r st' _ _ Hsv Hz. rewrite tally_cons in Hsv |- *. cbn in Hsv |- *. rewrite Hs, Hr in Hz. by apply Hz. }
  assert (forall e, new = on_error k e rest -> recv seen fed s' (<[t := new]> p ++ [])) as Herr.
  { intros e ->. destruct k; cbn [on_error head_ok] in *; try (apply Hkeep; by auto);
      apply (no_serve_calm seen fed s s' p t _ _ HR Ht Eo Es); try done.
    - by subst rest.
    - by destruct Hk as [r ->].
    - by destruct Hk as [r [-> | ->]].
    - by destruct Hk as [r ->]. }
  unfold sendApp in E. destruct (app_frame m) as [f|e]; [|simplify_eq; by eapply Herr].
  destruct w as [e|]; simplify_eq; [by eapply Herr|apply Hkeep; by auto].
Qed.

(** Only the server holds anything. *)
Lemma hand_server seen fed s p t g r id :
  recv seen fed s p -> p !! t = Some g -> (1 <= tally serve g)%nat -> hand r id p = handg r id g.
Proof.
  intros HR Ht Hs. apply (hand_only r id p t); [done|]. intros t' g' Hne Hg'.
  pose proof (tally_two serve p t t' g g' Ht Hg' Hne) as H2. pose proof (rv_serve _ _ _ _ HR) as H1.
  destruct (handg r id g') as [|c x] eqn:E; [done|]. exfalso.
  assert (1 <= tally serve g')%nat; [|lia]. apply (hand_serves r id); [|by rewrite E].
  eapply Forall_lookup_1; [apply HR|done].
Qed.

Lemma others_hold_nothing seen fed s p t g i rest :
  recv seen fed s p -> p !! t = Some g -> (1 <= tally serve g)%nat -> hands i = true -> (i :: rest) ∈ p -> g = i :: rest.
Proof.
  intros HR Ht Hs Hi [t' Hin]%list_elem_of_lookup. destruct (decide (t' = t)) as [->|Hne]; [congruence|]. exfalso.
  pose proof (tally_two serve p t t' _ _ Ht Hin Hne) as H2. pose proof (rv_serve _ _ _ _ HR) as H1.
  assert (rstack (i :: rest)) as [(_ & Hc & _) _] by (eapply Forall_lookup_1; [apply HR|done]).
  destruct (Hc Hi) as [c ->]. unfold tally in *. cbn in H2. lia.
Qed.

(** A step of the serving goroutine. *)
Lemma recv_server seen seen' fed fed' s s' p t old new :
  recv seen fed s p -> p !! t = Some old -> (1 <= tally serve old)%nat ->
  Forall2 keeps (objs s) (objs s') -> streams s' ⊆ streams s -> rstack new -> (tally serve new = 1)%nat ->
  (forall m rest, new = IHandleData m :: rest -> exists f, f ∈ seen' /\ frame_msg f = Some m) ->
  (forall m rest f, new = IHandleOpen m :: rest -> f ∈ seen' -> ~ data_for (open_StreamID m) f) ->
  (forall r st, objs s !! r = Some st -> fed r `prefix_of` out_bytes (sid st) seen -> fed' r `prefix_of` out_bytes (sid st) seen') ->
  (forall r st st', objs s !! r = Some st -> objs s' !! r = Some st' -> streams s !! sid st = Some r -> reset st' = false ->
     tally (resets r) new = 0%nat ->
     tally (resets r) old = 0%nat /\ (fed r ++ handg r (sid st) old = out_bytes (sid st) seen ->
       fed' r ++ handg r (sid st) new = out_bytes (sid st) seen')) ->
  (forall r d rest, new = IDeliver r d :: rest -> exists st', objs s' !! r = Some st'
     /\ (reset st' = false -> fed' r ++ d `prefix_of` out_bytes (sid st') seen')) ->
  (forall id, tally (handles_open id) new + opens id seen <= tally (handles_open id) old + opens id seen')%nat ->
  recv seen' fed' s' (<[t := new]> p ++ []).
Proof.
  intros HR Ht Hsv Ho Hst Hnew Hsn Hdata Hopen Hpre Hlive Hdel Hcount. pose proof HR as [V1 V2 V3 V4 V5 V6 V7 V8].
  assert (forall r st', objs s' !! r = Some st' -> exists st, objs s !! r = Some st /\ keeps st st') as Hback
    by (intros r st' E; by apply (Forall2_lookup_r _ _ _ _ _ Ho)).
  pose proof (lookup_lt_Some _ _ _ Ht) as Hlt.
  assert (forall i rest, hands i = true -> (i :: rest) ∈ <[t := new]> p ++ [] -> new = i :: rest) as Hin.
  { intros i rest Hi Hin. rewrite app_nil_r in Hin. apply list_elem_of_lookup in Hin as [t' Hin].
    apply list_lookup_insert_Some in Hin as [(_ & -> & _)|[Hne Hin]]; [done|]. exfalso.
    assert (old = i :: rest) as -> by (apply (others_hold_nothing seen fed s p t); try done; by eapply list_elem_of_lookup_2).
    pose proof (tally_two serve p t t' _ _ Ht Hin ltac:(done)). lia. }
  assert (forall r id, hand r id (<[t := new]> p ++ []) = handg r id new) as Hhand.
  { intros r id. rewrite app_nil_r. apply (hand_only r id _ t); [by apply list_lookup_insert_eq|]. intros t' g' Hne Hg'.
    rewrite list_lookup_insert_ne in Hg' by done. destruct (handg r id g') as [|c x] eqn:E; [done|]. exfalso.
    pose proof (tally_two serve p t t' _ _ Ht Hg' Hne). assert (1 <= tally serve g')%nat; [|lia].
    apply (hand_serves r id); [by eapply Forall_lookup_1|by rewrite E]. }
  constructor.
  - pose proof (tally_step serve p t old new [] Ht) as E. cbn in E. lia.
  - apply Forall_app. split; [by apply Forall_insert|constructor].
  - intros m rest Hm. by eapply Hdata, Hin.
  - intros m rest f Hm. by eapply Hopen, Hin.
  - intros r st' E. destruct (Hback r st' E) as (st & E0 & [Hs _ _]). rewrite Hs. apply Hpre; [done|by apply V5].
  - intros r st' E Htab Hr Hon. destruct (Hback r st' E) as (st & E0 & [Hs _ Hk]). rewrite Hs in *. rewrite Hhand.
    assert (streams s !! sid st = Some r) as Htab' by (by eapply lookup_weaken).
    assert (tally (resets r) new = 0%nat) as Hz.
    { apply Hon; [|lia]. apply elem_of_app. left. apply list_elem_of_lookup. exists t. by apply list_lookup_insert_eq. }
    destruct (Hlive r st st' E0 E Htab' Hr Hz) as [Hz' Himp]. apply Himp. rewrite <- (hand_server seen fed s p t old r) by done.
    apply V6; try done; [destruct (reset st); [|done]; by rewrite Hk in Hr|].
    intros g [t' Hg]%list_elem_of_lookup Hsg. destruct (decide (t' = t)) as [->|Hne]; [rewrite Ht in Hg; by injection Hg as <-|].
    pose proof (tally_two serve p t t' _ _ Ht Hg Hne). lia.
  - intros r d rest Hd. by eapply Hdel, Hin.
  - intros id. rewrite (inbound_keeps id _ _ Ho). pose proof (tally_step (handles_open id) p t old new [] Ht) as E. cbn in E.
    specialize (V8 id). specialize (Hcount id). lia.
Qed.

(** ** Reading a frame *)

Lemma recv_seen seen fed s p f : frame_msg f = None -> recv seen fed s p -> recv (seen ++ [f]) fed s p.
Proof.
  intros Hf [V1 V2 V3 V4 V5 V6 V7 V8].
  assert (forall id, out_bytes id (seen ++ [f]) = out_bytes id seen) as Hout
    by (intros id; rewrite out_bytes_app, (out_bytes_none id [f]), app_nil_r; [done|by constructor]).
  constructor; try done.
  - intros m rest Hm. destruct (V3 m rest Hm) as (f' & Hin & E). exists f'. split; [by apply elem_of_app; left|done].
  - intros m rest f' Hm [Hin|Hin]%elem_of_app; [by eapply V4|]. apply list_elem_of_singleton in Hin as ->. intros (d & E & _). congruence.
  - intros r st. rewrite Hout. apply V5.
  - intros r st. rewrite Hout. apply V6.
  - intros r d rest Hd. destruct (V7 r d rest Hd) as (st & E & H). exists st. by rewrite Hout.
  - intros id. unfold opens in *. rewrite tally_app. specialize (V8 id). lia.
Qed.

Lemma handle_cases f h : handleFrame f = inl h -> idle h = true /\ (forall r, resets r h = 0%nat)
  \/ (exists m, h = IHandleData m) \/ exists m, h = IHandleOpen m.
Proof.
  unfold Session.handleFrame. destruct (_ || _); [done|]. destruct (DecodeMessageBody _ _ _) as [x|]; [|done].
  destruct x; intros; simplify_eq; eauto.
Qed.

Lemma recv_read seen fed s p t call f c pr :
  recv seen fed s p -> p !! t = Some [IServe call] -> honest f ->
  (forall m f', open_msg f = Some m -> f' ∈ seen -> ~ data_for (open_StreamID m) f') ->
  c = ChRead (Ok f) -> Serve ExecCmd_UnmarshalBinary call c s = Some pr ->
  recv (seen ++ [f]) fed (after pr) (<[t := pushed pr ++ []]> p ++ spawned pr).
Proof.
  intros HR Ht [Hd Ho] Hnew -> H. cbn [Serve] in H. destruct (frame_ok f); [|done].
  assert (tally serve [IServe call] = 1%nat) as Hsv by done.
  destruct (handleFrame f) as [h|[msg e]] eqn:Eh.
  2: { injection H as <-. cbn [after next pushed spawned app].
       apply (recv_calm _ fed s s p t [IServe call]); try done; [|apply all_keep_refl|cbn; lia].
       apply recv_seen; [|done]. destruct (frame_msg f) as [m|]; [|done]. discriminate (proj2 (Hd m) eq_refl). }
  injection H as <-. cbn [after next pushed spawned app].
  destruct (handle_cases f h Eh) as [[Hi Hres]|[[m ->]|[m ->]]].
  - assert (recv (seen ++ [f]) fed s p) as HR' by (apply recv_seen; [|done]; destruct (frame_msg f) as [m|]; [|done];
      pose proof (proj2 (Hd m) eq_refl); by simplify_eq).
    destruct (idle_hands h Hi) as [Hh Hs]. apply (recv_calm _ fed s s p t [IServe call]); try done.
    + apply all_keep_refl.
    + unfold no_hands. cbn. by rewrite Hh.
    + by apply (rshape_app [h]); [cbn; rewrite Hi|].
    + rewrite tally_cons, Hs. done.
  - pose proof (proj1 (Hd m) eq_refl) as Em. apply (recv_server seen _ fed fed s s p t [IServe call]); try done.
    + apply all_keep_refl.
    + split; [|done]. split; [done|]. split; [by eexists|done].
    + intros m' rest [= <- _]. exists f. split; [apply elem_of_app; right; by apply list_elem_of_singleton|done].
    + intros r st Hr Hp. rewrite out_bytes_app. by apply prefix_app_r.
    + intros r st st' _ _ _ _ _. split; [done|]. rewrite out_bytes_app. cbn [handg]. rewrite app_nil_r. intros <-. f_equal.
      unfold out_bytes. cbn. by rewrite app_nil_r; unfold frame_bytes; rewrite Em.
    + intros id. unfold opens. rewrite tally_app. cbn. lia.
  - pose proof (proj1 (Ho m) eq_refl) as Em. assert (frame_msg f = None) as Hf.
    { destruct (frame_msg f) as [d|]; [|done]. pose proof (proj2 (Hd d) eq_refl). by simplify_eq. }
    assert (forall id, out_bytes id (seen ++ [f]) = out_bytes id seen) as Hout
      by (intros id; rewrite out_bytes_app, (out_bytes_none id [f]), app_nil_r; [done|by constructor]).
    apply (recv_server seen _ fed fed s s p t [IServe call]); try done.
    + apply all_keep_refl.
    + split; [|done]. split; [done|]. split; [by eexists|done].
    + intros m' rest f' [= <- _] [Hin|Hin]%elem_of_app; [by apply Hnew|]. apply list_elem_of_singleton in Hin as ->.
      intros (d & E & _). congruence.
    + intros r st Hr. by rewrite Hout.
    + intros r st st' _ _ _ _ _. split; [done|]. by rewrite Hout.
    + intros id. unfold opens. rewrite tally_app, !tally_cons. cbn. unfold open_at. rewrite Em. lia.
Qed.

(** ** Handing data to a stream *)

Lemma recv_handleData seen fed s p t m rest :
  recv seen fed s p -> p !! t = Some (IHandleData m :: rest) ->
  let pr := on_id (data_StreamID m) s (fun r => [IDeliver r (data_Data m)]) in
  (forall id r, streams s !! id = Some r -> exists st, objs s !! r = Some st /\ sid st = id) ->
  recv seen fed (after pr) (<[t := pushed pr ++ rest]> p ++ spawned pr).
Proof.
  intros HR Ht. cbn zeta. intros Htab.
  assert (rstack (IHandleData m :: rest)) as [(_ & Hc & _) _] by (eapply Forall_lookup_1; [apply HR|done]).
  destruct (Hc eq_refl) as [c ->].
  assert (forall r st, objs s !! r = Some st -> streams s !! sid st = Some r -> reset st = false ->
    fed r ++ handg r (sid st) [IHandleData m; IServe c] = out_bytes (sid st) seen) as Hlive.
  { intros r st E Hs Hr. rewrite <- (hand_server seen fed s p t _ r (sid st) HR Ht) by done. apply HR; try done.
    intros g [t' Hg]%list_elem_of_lookup Hsg. destruct (decide (t' = t)) as [->|Hne]; [rewrite Ht in Hg; by injection Hg as <-|].
    pose proof (tally_two serve p t t' _ _ Ht Hg Hne) as H2. pose proof (rv_serve _ _ _ _ HR). unfold tally in *. cbn in H2. lia. }
  unfold on_id. destruct (streams s !! data_StreamID m) as [r|] eqn:Es; cbn [after next pushed spawned app].
  - destruct (Htab _ _ Es) as (st & E & Hid).
    apply (recv_server seen seen fed fed s s p t [IHandleData m; IServe c]); try done.
    + apply all_keep_refl.
    + intros r' x x' E1 E2 Ht' _ _. split; [done|]. cbn [handg]. destruct (Nat.eqb_spec r' r) as [->|Hne].
      * assert (x = st) as -> by congruence. by rewrite Hid, Z.eqb_refl.
      * destruct (Z.eqb_spec (data_StreamID m) (sid x)) as [Eq|]; [|done]. exfalso. rewrite <- Eq, Es in Ht'. by injection Ht'.
    + intros r' x rest [= <- <- _]. exists st. split; [done|]. intros Hr.
      specialize (Hlive r st E ltac:(by rewrite Hid) Hr). cbn [handg] in Hlive. rewrite Hid, Z.eqb_refl in Hlive. by rewrite Hid, Hlive.
  - apply (recv_server seen seen fed fed s s p t [IHandleData m; IServe c]); try done.
    + apply all_keep_refl.
    + intros r' x x' E1 E2 Ht' _ _. split; [done|]. cbn [handg]. destruct (Z.eqb_spec (data_StreamID m) (sid x)) as [Eq|]; [|done].
      exfalso. by rewrite <- Eq, Es in Ht'.
Qed.

Lemma recv_deliver seen fed s p t r x rest st :
  recv seen fed s p -> p !! t = Some (IDeliver r x :: rest) -> objs s !! r = Some st ->
  let pr := deliver r x st s in
  recv seen (fun r' => fed r' ++ fed_step r' (IDeliver r x) s) (after pr) (<[t := pushed pr ++ rest]> p ++ spawned pr).
Proof.
  intros HR Ht Hr. cbn zeta.
  assert (rstack (IDeliver r x :: rest)) as [(_ & Hc & _) _] by (eapply Forall_lookup_1; [apply HR|done]).
  destruct (Hc eq_refl) as [c ->]. set (pr := deliver r x st s).
  assert (forall r', fed_step r' (IDeliver r x) s = if (r' =? r)%nat then match pushed pr with [] => x | _ => [] end else []) as Hfed.
  { intros r'. cbn [fed_step]. destruct (Nat.eqb_spec r' r) as [->|]; [by rewrite Hr|]. by destruct (objs s !! r'). }
  assert (step_instr (IDeliver r x) ChRun s = Some pr) as Hstep by (cbn; unfold on_obj; by rewrite Hr).
  pose proof (step_keeps _ _ _ _ Hstep eq_refl) as Hk. pose proof (step_streams _ _ _ _ Hstep eq_refl) as Hs.
  destruct (rv_deliver _ _ _ _ HR r x [IServe c]) as (st0 & E0 & Hpre); [by eapply list_elem_of_lookup_2|].
  assert (st0 = st) as -> by congruence. clear E0.
  assert (spawned pr = [] /\ forall o, pushed pr = o -> (o = [] /\ (x = [] \/ reset st = false))
    \/ exists m code message, o = [ISend m EFail; ISetReset r code message; IFinish r]) as [-> Hcases].
  { unfold pr, deliver. destruct (if deliver_needs_buffer x st then _ else _) as [b s1]. destruct (deliver_locked x b st) as [dec st'] eqn:E.
    split; [by destruct dec|]. intros o <-.
    destruct dec; cbn [pushed next resetRemote]; [left|right; by repeat eexists..|left]; (split; [done|]).
    - left. unfold deliver_locked in E. destruct (Z.eqb_spec (zlen x) 0) as [Hz|]; [by apply zlen_0 in Hz|by repeat case_match].
    - right. unfold deliver_locked in E. destruct (reset st); [|done]. rewrite orb_true_r in E. by repeat case_match. }
  destruct (Hcases (pushed pr) eq_refl) as [[Hp Hx]|(m & code & message & Hp)]; rewrite Hp in *; cbn [app].
  - apply (recv_server seen seen fed _ s (after pr) p t [IDeliver r x; IServe c]); try done.
    + intros r' st' E Hpr. rewrite Hfed. destruct (Nat.eqb_spec r' r) as [->|]; [|by rewrite app_nil_r].
      assert (st' = st) as -> by congruence. destruct Hx as [->|Hx]; [by rewrite app_nil_r|by apply Hpre].
    + intros r' x0 x1 E1 E2 Ht' _ _. split; [done|]. rewrite Hfed. cbn [handg]. destruct (Nat.eqb_spec r' r); by rewrite ?app_nil_r.
  - assert (forall r', fed r' ++ fed_step r' (IDeliver r x) s = fed r') as Hsame
      by (intros r'; rewrite Hfed; destruct (r' =? r)%nat; apply app_nil_r).
    apply (recv_server seen seen fed _ s (after pr) p t [IDeliver r x; IServe c]); try done.
    + intros r' st' E. by rewrite Hsame.
    + intros r' x0 x1 E1 E2 Ht' _ Hz. unfold tally in Hz. cbn in Hz. destruct (Nat.eqb_spec r' r) as [->|Hne]; [done|].
      split; [done|]. rewrite Hsame. cbn [handg]. by rewrite (proj2 (Nat.eqb_neq _ _)) by done.
Qed.

(** ** New streams *)

Lemma recv_alloc seen fed s p t old new gs id n st :
  recv seen fed s p -> p !! t = Some old -> sid st = id -> (forall r i, handg r i old = []) ->
  no_hands new = true -> Forall (fun g => no_hands g = true) gs -> rshape new -> Forall rshape gs ->
  tally serve new = tally serve old -> tally_pool serve gs = 0%nat ->
  (forall r, tally (resets r) old <= tally (resets r) new)%nat ->
  fed (length (objs s)) = [] -> (forall f, f ∈ seen -> ~ data_for id f) ->
  (forall i, inbound_at i st <= tally (handles_open i) old)%nat ->
  recv seen fed (alloc id n st s) (<[t := new]> p ++ gs).
Proof.
  intros [V1 V2 V3 V4 V5 V6 V7 V8] Ht Hid Hold Hnew Hgs Hsn Hsg Hserve Hsgs Hres Hfed Hnone Hin1.
  assert (forall i rest, hands i = true -> (i :: rest) ∈ <[t := new]> p ++ gs -> (i :: rest) ∈ p) as Hin.
  { intros i rest Hi Hin. destruct (head_elem p t old new gs i rest Ht Hin) as [->|[Hg|?]]; [| |done].
    - cbn in Hnew. by rewrite Hi in Hnew.
    - rewrite Forall_forall in Hgs. specialize (Hgs _ Hg). cbn in Hgs. by rewrite Hi in Hgs. }
  assert (forall r i, hand r i (<[t := new]> p ++ gs) = hand r i p) as Hhand.
  { intros r i. rewrite hand_app, (hand_nil r i gs), app_nil_r.
    - apply (hand_quiet r i p t old); [done|done|by apply no_hands_handg].
    - intros g Hg. apply no_hands_handg. rewrite Forall_forall in Hgs. by apply Hgs. }
  constructor.
  - pose proof (tally_step serve p t old new gs Ht). lia.
  - apply Forall_app. split; [apply Forall_insert; [done|]|].
    + split; [done|]. destruct new; [done|]. cbn in Hnew. by apply andb_true_iff in Hnew as [_ ?].
    + rewrite Forall_forall in Hgs, Hsg |- *. intros g Hg. split; [by apply Hsg|]. specialize (Hgs g Hg).
      destruct g; [done|]. cbn in Hgs. by apply andb_true_iff in Hgs as [_ ?].
  - intros m rest Hm. by eapply V3, Hin.
  - intros m rest f Hm. by eapply V4, Hin.
  - cbn. intros r x [E|[-> ->]]%lookup_snoc_inv; [by apply V5|]. rewrite Hfed. apply prefix_nil.
  - cbn. intros r x [E|[-> ->]]%lookup_snoc_inv Htab Hr Hon; rewrite Hhand.
    + apply lookup_insert_Some in Htab as [[_ <-]|[_ Htab]]; [by apply lookup_lt_Some in E; lia|]. apply V6; try done.
      intros g [t' Hg]%list_elem_of_lookup Hsv. destruct (decide (t' = t)) as [->|Hne].
      * rewrite Ht in Hg. injection Hg as <-. pose proof (Hres r). assert (tally (resets r) new = 0%nat); [|lia]. apply Hon; [|lia].
        apply elem_of_app. left. apply list_elem_of_lookup. exists t. apply list_lookup_insert_eq. by apply lookup_lt_Some in Ht.
      * apply Hon; [|done]. apply elem_of_app. left. apply list_elem_of_lookup. exists t'. by rewrite list_lookup_insert_ne.
    + rewrite Hfed, (out_bytes_not (sid st) seen) by (by rewrite Hid). apply hand_nil. intros g Hg.
      destruct g as [|i g]; [done|]. destruct i; try done; cbn.
      * destruct (Z.eqb_spec (data_StreamID m) (sid st)) as [Eq|]; [|done]. destruct (V3 m g Hg) as (f & Hf & Em).
        destruct (Hnone f Hf). exists m. by rewrite <- Hid.
      * destruct (V7 _ _ _ Hg) as (x & Ex & _). apply lookup_lt_Some in Ex. by rewrite (proj2 (Nat.eqb_neq _ _)) by lia.
  - intros r d rest Hd. destruct (V7 r d rest (Hin (IDeliver r d) rest eq_refl Hd)) as (x & E & H). exists x. split; [|done].
    cbn. by apply lookup_app_l_Some.
  - intros i. cbn. rewrite tally_app, tally_cons. pose proof (tally_step (handles_open i) p t old new gs Ht) as E.
    rewrite (no_hands_opens i new) in E by done.
    assert (tally_pool (handles_open i) gs = 0%nat) as Hz.
    { clear -Hgs. induction Hgs as [|g gs Hg _ IH]; [done|]. unfold tally_pool in *. cbn. by rewrite no_hands_opens, IH. }
    specialize (V8 i). specialize (Hin1 i). change (tally (inbound_at i) []) with 0%nat. lia.
Qed.

Lemma recv_handleOpen seen fed s p t m rest :
  recv seen fed s p -> p !! t = Some (IHandleOpen m :: rest) -> fed (length (objs s)) = [] ->
  let pr := handleOpen cfg m s in recv seen fed (after pr) (<[t := pushed pr ++ rest]> p ++ spawned pr).
Proof.
  intros HR Ht Hfed. cbn zeta.
  assert (rstack (IHandleOpen m :: rest)) as [(_ & Hc & _) _] by (eapply Forall_lookup_1; [apply HR|done]).
  destruct (Hc eq_refl) as [c ->].
  assert (forall todo, forallb idle todo = true -> (forall r, tally (resets r) todo = 0%nat) ->
    recv seen fed s (<[t := todo ++ [IServe c]]> p ++ [])) as Hret.
  { intros todo Hi Hz. destruct (idle_tallies _ Hi) as (Hps & Hph & Hop).
    assert (no_hands (todo ++ [IServe c]) = true) as Hn by (unfold no_hands; by rewrite forallb_app, Hph).
    assert (forall i rest, hands i = true -> todo ++ [IServe c] <> i :: rest) as Hhd by (intros i rest Hh E; rewrite E in Hn; cbn in Hn; by rewrite Hh in Hn).
    apply (recv_server seen seen fed fed s s p t [IHandleOpen m; IServe c]); try done.
    - apply all_keep_refl.
    - split; [by apply rshape_app|]. destruct (todo ++ [IServe c]); [done|]. cbn in Hn. by apply andb_true_iff in Hn as [_ ?].
    - by rewrite tally_app, Hps.
    - intros m' rest E. by apply Hhd in E.
    - intros m' rest f E. by apply Hhd in E.
    - intros r st st' _ _ _ _ _. split; [done|]. by rewrite (no_hands_handg _ _ _ Hn).
    - intros r d rest E. by apply Hhd in E.
    - intros id. rewrite (no_hands_opens id _ Hn). lia. }
  unfold handleOpen. destruct (_ || _ || _ || _); [by apply (Hret [_])|]. destruct (closed s); [by apply (Hret [])|].
  destruct (streams s !! open_StreamID m); [by apply (Hret [_])|].
  destruct (AppMaxStreams <=? Z.of_nat (size (streams s))); [by apply (Hret [_])|]. cbn [after pushed spawned app].
  apply (recv_alloc seen fed s p t [IHandleOpen m; IServe c] [IServe c] [[IAcceptOpen (length (objs s)) (open_Meta m)]] (open_StreamID m)
    (nextID s) (set_accepting true (newStream (open_StreamID m) (open_Service m) true))); try done.
  - by repeat constructor.
  - by repeat constructor.
  - intros f Hf. eapply HR; [|done]. by eapply list_elem_of_lookup_2.
  - intros i. unfold tally. cbn. unfold inbound_at. cbn. lia.
Qed.

Lemma recv_Open seen fed s p t call service meta rest :
  recv seen fed s p -> p !! t = Some (IOpen call service meta :: rest) -> fed (length (objs s)) = [] ->
  let pr := Open cfg fmt_q call service meta s in
  (forall st f, objs (after pr) !! length (objs s) = Some st -> f ∈ seen -> ~ data_for (sid st) f) ->
  recv seen fed (after pr) (<[t := pushed pr ++ rest]> p ++ spawned pr).
Proof.
  intros HR Ht Hfed. cbn zeta.
  assert (rstack (IOpen call service meta :: rest)) as [(_ & _ & Hsh) Hn] by (eapply Forall_lookup_1; [apply HR|done]). cbn [tail] in Hn.
  assert (forall o, recv seen fed s (<[t := [IReturn call o] ++ rest]> p ++ [])) as Hret.
  { intros o. apply (recv_calm seen fed s s p t (IOpen call service meta :: rest)); try done.
    - apply all_keep_refl.
    - intros r st' _ _ Hsv Hz. by apply Hz. }
  unfold Open. do 5 (case_match; [intros _; apply Hret|]). cbn [after pushed spawned next app]. intros Hnone.
  apply (recv_alloc seen fed s p t (IOpen call service meta :: rest)); try done.
  - intros f Hf. refine (Hnone (set_rcvWindow AppInitialWindow (set_opening true (newStream (Z.lor (localBit cfg) (to_u 32 (nextID s + 1))) service false))) f _ Hf).
    cbn. by apply list_lookup_middle.
  - intros i. unfold inbound_at. cbn. lia.
Qed.

(** ** Every step *)

Lemma recv_ext seen fed fed' s p : (forall r, fed' r = fed r) -> recv seen fed s p -> recv seen fed' s p.
Proof.
  intros E [V1 V2 V3 V4 V5 V6 V7 V8]. constructor; try done; [intros r st; rewrite E; apply V5|intros r st; rewrite E; apply V6|].
  intros r d rest Hd. rewrite E. by eapply V7.
Qed.

(** The frame a step reads. *)
Definition reads (i : instr) (c : choice) : list Frame :=
  match i, c with IServe _, ChRead (Ok f) => [f] | _, _ => [] end.

(** What the frames read must satisfy; the peer sees to it. *)
Record welcome (seen : list Frame) (i : instr) (c : choice) (s s' : Session) : Prop := {
  wc_honest : forall f, f ∈ reads i c -> honest f;
  wc_open : forall f m f', f ∈ reads i c -> open_msg f = Some m -> f' ∈ seen -> ~ data_for (open_StreamID m) f';
  wc_new : forall st f, objs s' !! length (objs s) = Some st -> inbound st = false -> f ∈ seen -> ~ data_for (sid st) f }.

Lemma step_recv seen fed s p t i c rest pr :
  recv seen fed s p -> sess_ok cfg s -> p !! t = Some (i :: rest) -> fed (length (objs s)) = [] ->
  step_instr i c s = Some pr -> welcome seen i c s (after pr) ->
  recv (seen ++ reads i c) (fun r => fed r ++ fed_step r i s) (after pr) (<[t := pushed pr ++ rest]> p ++ spawned pr).
Proof.
  intros HR Hs Ht Hfed H [W1 W2 W3].
  destruct (idle i) eqn:Hi.
  { assert (reads i c = []) as -> by (by destruct i). rewrite app_nil_r. apply (recv_ext _ fed); [|by eapply recv_idle].
    intros r. assert (fed_step r i s = []) as -> by (by destruct i). apply app_nil_r. }
  assert (rstack (i :: rest)) as [(Hserve & _ & _) _] by (eapply Forall_lookup_1; [apply HR|done]).
  destruct i; try done; cbn [Session.step_instr] in H.
  - specialize (Hserve eq_refl). subst rest. destruct c as [| |[f|e]| | | | | |]; try done; cbn [reads].
    + apply (recv_ext _ fed); [intros r; cbn; by rewrite app_nil_r|].
      eapply (recv_read seen fed s p t call f); try done; [apply W1|intros m f' Em Hf'; apply (W2 f m)]; try done; by apply list_elem_of_singleton.
    + rewrite app_nil_r. apply (recv_ext _ fed); [intros r; cbn; by rewrite app_nil_r|]. injection H as <-. cbn [after pushed spawned next app].
      by apply (recv_calm seen fed s s p t [IServe call]); try done; [apply all_keep_refl|cbn; lia].
  - destruct c; try done. injection H as <-. cbn [reads]. rewrite app_nil_r. apply (recv_ext _ fed); [intros r; cbn; by rewrite app_nil_r|].
    by apply recv_handleOpen.
  - destruct c; try done. injection H as <-. cbn [reads]. rewrite app_nil_r. apply (recv_ext _ fed); [intros r; cbn; by rewrite app_nil_r|].
    apply recv_handleData; try done. apply Hs.
  - destruct c; try done. unfold on_obj in H. destruct (objs s !! r) as [st|] eqn:Hr; [|done]. injection H as <-. cbn [reads]. rewrite app_nil_r.
    by apply recv_deliver.
  - destruct c; try done. injection H as <-. cbn [reads]. rewrite app_nil_r. apply (recv_ext _ fed); [intros r; cbn; by rewrite app_nil_r|].
    apply recv_Open; try done. intros st f E. apply W3; [done|].
    revert E. unfold Open. repeat (case_match; [cbn; intros E; by apply lookup_lt_Some in E; lia|]). cbn. rewrite list_lookup_middle by done. by intros [= <-].
Qed.

Lemma exec_recv seen fed s p t i c rest g gs s' :
  recv seen fed s p -> sess_ok cfg s -> stack_ok (i :: rest) -> p !! t = Some (i :: rest) -> fed (length (objs s)) = [] ->
  exec i rest c s = Some (g, gs, s') -> welcome seen i c s s' ->
  recv (seen ++ reads i c) (fun r => fed r ++ fed_step r i s) s' (<[t := g]> p ++ gs).
Proof.
  intros HR Hs Hst Ht Hfed E HW. apply exec_cases in E as [(m & k & w & -> & -> & E & ->)|(pr & E & -> & -> & ->)].
  - cbn [reads]. rewrite app_nil_r. apply (recv_ext _ fed); [intros r; cbn; by rewrite app_nil_r|]. by eapply recv_send.
  - by eapply step_recv.
Qed.

(** API calls start goroutines that hold nothing. *)
Lemma call_shapes call a s gs : call_stack call a s = Some gs ->
  Forall (fun g => no_hands g = true /\ rshape g) gs /\ (tally_pool serve gs <= b2n (match a with AServe => true | _ => false end))%nat.
Proof.
  destruct a; cbn [call_stack]; intros; repeat case_match; simplify_eq; split; try done; by repeat (constructor; [by split_and!|]).
Qed.

Lemma recv_call seen fed s p gs :
  recv seen fed s p -> Forall (fun g => no_hands g = true /\ rshape g) gs -> (tally_pool serve p + tally_pool serve gs <= 1)%nat ->
  recv seen fed s (p ++ gs).
Proof.
  intros [V1 V2 V3 V4 V5 V6 V7 V8] Hgs Hsv.
  assert (forall i rest, hands i = true -> (i :: rest) ∈ p ++ gs -> (i :: rest) ∈ p) as Hin.
  { intros i rest Hi [?|Hin]%elem_of_app; [done|]. rewrite Forall_forall in Hgs. destruct (Hgs _ Hin) as [Hn _]. cbn in Hn. by rewrite Hi in Hn. }
  constructor; try done.
  - by rewrite tally_pool_app.
  - apply Forall_app. split; [done|]. eapply Forall_impl; [exact Hgs|]. intros g [Hn Hg]. split; [done|].
    destruct g; [done|]. cbn in Hn. by apply andb_true_iff in Hn as [_ ?].
  - intros m rest Hm. by eapply V3, Hin.
  - intros m rest f Hm. by eapply V4, Hin.
  - intros r st E Htab Hr Hon. rewrite hand_app, (hand_nil r (sid st) gs), app_nil_r.
    + apply V6; try done. intros g Hg. apply Hon. by apply elem_of_app; left.
    + intros g Hg. apply no_hands_handg. rewrite Forall_forall in Hgs. by apply Hgs.
  - intros r d rest Hd. by eapply V7, Hin.
  - intros id. rewrite tally_pool_app. assert (tally_pool (handles_open id) gs = 0%nat) as ->; [|specialize (V8 id); lia].
    clear -Hgs. induction Hgs as [|g gs [Hg _] _ IH]; [done|]. unfold tally_pool in *. cbn. by rewrite no_hands_opens, IH.
Qed.

Lemma recv0 : recv [] (fun _ => []) NewSession [].
Proof. constructor; try done; try (by intros ? ? ?%elem_of_nil); try (by intros ? ? ? ?%elem_of_nil). cbn. lia. Qed.

(** ** APP_OPEN goes out first *)

Definition local_at (id : Z) (st : Stream) : nat := b2n (negb (inbound st) && (sid st =? id)).

Lemma local_keeps id l l' : Forall2 keeps l l' -> tally (local_at id) l' = tally (local_at id) l.
Proof. induction 1 as [|st st' l l' [H1 H2 _] _ IH]; [done|]. rewrite !tally_cons, IH. unfold local_at. by rewrite H1, H2. Qed.

Definition no_opener (g : list instr) : Prop := forall id, tally (opener id) g = 0%nat.

(** An APP_OPEN about to be sent, with what [Open] checked. *)
Definition oshape (s : Session) (g : list instr) : Prop :=
  no_opener (tail g) /\
  match g with
  | ISend (MAppOpen m) k :: rest => carries m = true /\ exists call r st, k = EOpen call r /\ rest = [IOpenSelect call r]
      /\ objs s !! r = Some st /\ sid st = open_StreamID m /\ inbound st = false
  | _ => True
  end.

Record sends (s : Session) (p : list (list instr)) : Prop := {
  sd_honest : Forall honest (sent s);
  sd_shape : Forall (oshape s) p;
  sd_count : forall id, (opens id (sent s) + tally_pool (opener id) p <= tally (local_at id) (objs s))%nat;
  sd_loop : forall g r st, g ∈ p -> (1 <= tally (loop r) g)%nat -> objs s !! r = Some st -> inbound st = false ->
    (1 <= opens (sid st) (sent s))%nat \/ (1 <= tally (opener (sid st)) g)%nat;
  sd_order : forall l1 f l2 m r st, sent s = l1 ++ f :: l2 -> frame_msg f = Some m -> objs s !! r = Some st ->
    inbound st = false -> sid st = data_StreamID m -> (1 <= opens (sid st) l1)%nat }.

(** A step neither makes write loops out of nothing nor sends data or an
    APP_OPEN itself. *)
Ltac loops := split; [intros ?; first [cbn; lia | unfold tally_pool; cbn; unfold tally; cbn; lia]|by left].

Lemma Serve_loops call c s pr : Serve ExecCmd_UnmarshalBinary call c s = Some pr ->
  (forall r, tally (loop r) (pushed pr) + tally_pool (loop r) (spawned pr) <= loop r (IServe call))%nat /\ sent (after pr) = sent s.
Proof.
  unfold Serve. destruct c as [| |[f|e]| | | | | |]; try done; [|by intros [= <-]]. destruct (frame_ok f); [|done].
  destruct (handleFrame f) as [h|[msg e]] eqn:E; intros [= <-]; [|done]. split; [|done]. intros r.
  unfold Session.handleFrame in E. destruct (_ || _); [done|]. destruct (DecodeMessageBody _ _ _) as [x|]; [|done].
  destruct x; simplify_eq; done.
Qed.

Lemma step_loops i c s pr : step_instr i c s = Some pr -> allocates i = false ->
  (forall r, tally (loop r) (pushed pr) + tally_pool (loop r) (spawned pr) <= loop r i)%nat
  /\ (sent (after pr) = sent s \/ exists code message, sent (after pr) = sent s ++ [error_frame_of code message]).
Proof.
  assert (forall r f, on_obj r s f = Some pr -> exists st, objs s !! r = Some st /\ pr = f st s) as Hobj.
  { intros r f. unfold on_obj. destruct (objs s !! r) as [st|]; intros; simplify_eq; eauto. }
  destruct i; try done; cbn [Session.step_instr]; try (intros [? ?]%Serve_loops _; by auto);
    destruct c; try done; intros H _; try (apply Hobj in H as (st & Hr & ->)).
  all: try (simplify_eq; loops).
  all: try (unfold deliver; destruct (if deliver_needs_buffer _ _ then _ else _) as [b s1] eqn:E;
    unfold reserveBuffer in E; repeat case_match; simplify_eq; loops).
  all: try (unfold Stream_Write; case_match; [loops|]; destruct (if write_needs_buffer _ _ then _ else _) as [b s1] eqn:E;
    unfold reserveBuffer in E; repeat case_match; simplify_eq; loops).
  all: try (simplify_eq; unfold on_id, accept_locked, reject_locked, closeReady, remoteClose, addCredit, setReset, maybeFinish,
    markOpened, closeEndpoint, detach, detach_bytes, finish, Open_result, CloseWrite, Stream_Read, writeLoop, releaseBuffer,
    startWriteLoop, Session_fail, acceptOpen, acceptOpen_ready, handleAccept, Open_select in *;
    repeat case_match; simplify_eq; loops).
  all: try (destruct (objs s !! r) as [st|]; [|done]; case_match; [|done]; simplify_eq; unfold Stream_Read, writeLoop;
    repeat case_match; loops).
  - destruct (streams s !! accept_StreamID m) as [r|]; [|simplify_eq; loops].
    apply Hobj in H as (st & Hr & ->). unfold handleAccept. repeat case_match; loops.
  - simplify_eq. unfold sendError. destruct r; [loops|]. split; [intros ?; cbn; lia|]. right. by eexists _, _.
Qed.

Lemma step_openers i c s pr : step_instr i c s = Some pr -> allocates i = false ->
  no_opener (pushed pr) /\ Forall no_opener (spawned pr).
Proof.
  intros H Ha. destruct (idle i) eqn:Hi.
  { destruct (idle_pushed i c s pr H Hi) as [Hp Hg]. split; [by apply idle_tallies in Hp as (_ & _ & Ho); intros id; apply Ho|].
    eapply Forall_impl; [exact Hg|]. intros g Hidle id. by apply idle_tallies in Hidle as (_ & _ & Ho); apply Ho. }
  destruct i; try done; cbn [Session.step_instr] in H.
  - unfold Serve in H. destruct c as [| |[f|e]| | | | | |]; try done; [|simplify_eq; by split; [|constructor]].
    destruct (frame_ok f); [|done]. destruct (handleFrame f) as [h|[msg e]] eqn:E; simplify_eq; [|by split; [|constructor]].
    split; [|constructor]. destruct (handle_cases f h E) as [[Hh _]|[[m ->]|[m ->]]]; try done.
    intros id. cbn [pushed next]. rewrite tally_cons. by destruct h; try destruct m.
  - destruct c; try done. simplify_eq. unfold on_id. case_match; by split; [|constructor].
  - destruct c; try done. unfold on_obj in H. destruct (objs s !! r) as [st|]; [|done]. simplify_eq. unfold deliver.
    destruct (if deliver_needs_buffer _ _ then _ else _). repeat case_match; by split; [|constructor].
Qed.

Lemma no_opener_app g h : no_opener g -> no_opener h -> no_opener (g ++ h).
Proof. intros Hg Hh id. by rewrite tally_app, Hg, Hh. Qed.

Lemma oshape_none s g : no_opener g -> oshape s g.
Proof.
  intros H. split.
  - intros id. specialize (H id). destruct g; [done|]. rewrite tally_cons in H. cbn [tail]. lia.
  - destruct g as [|i g]; [done|]. destruct i; try done. destruct m; try done. specialize (H (open_StreamID m)). rewrite tally_cons in H.
    cbn in H. rewrite Z.eqb_refl in H. cbn in H. lia.
Qed.

Lemma oshape_keeps s s' g : Forall2 keeps (objs s) (objs s') -> oshape s g -> oshape s' g.
Proof.
  intros Ho [H1 H2]. split; [done|]. destruct g as [|i g]; [done|]. destruct i; try done. destruct m; try done.
  destruct H2 as (Hc & call & r & st & -> & -> & Hr & Hid & Hin). split; [done|].
  destruct (Forall2_lookup_l _ _ _ _ _ Ho Hr) as (st' & Hr' & [K1 K2 _]). exists call, r, st'. split_and!; try done; congruence.
Qed.

Lemma opens_app id l l' : opens id (l ++ l') = (opens id l + opens id l')%nat.
Proof. apply tally_app. Qed.

Lemma tally_pool_none {A} (f : A -> nat) gs : Forall (fun g => tally f g = 0%nat) gs -> tally_pool f gs = 0%nat.
Proof. induction 1 as [|g gs Hg _ IH]; [done|]. unfold tally_pool in *. cbn. by rewrite Hg, IH. Qed.

(** The last frame of a list is new or the split is an old one. *)
Lemma split_snoc {A} (l l1 l2 : list A) f x : l ++ [f] = l1 ++ x :: l2 -> (l2 = [] /\ l1 = l /\ x = f) \/ exists l2', l2 = l2' ++ [f] /\ l = l1 ++ x :: l2'.
Proof.
  intros E. destruct l2 as [|y l2' _] using rev_ind.
  - left. apply app_inj_tail in E as [-> ->]. done.
  - right. rewrite app_comm_cons, app_assoc in E. apply app_inj_tail in E as [-> ->]. by exists l2'.
Qed.

(** A step off the path. *)
Lemma sends_calm s s' p t old new gs :
  sends s p -> p !! t = Some old -> Forall2 keeps (objs s) (objs s') ->
  sent s' = sent s \/ (exists f, sent s' = sent s ++ [f] /\ honest f /\ frame_msg f = None /\ open_msg f = None) ->
  no_opener old \/ (forall r, tally (loop r) new + tally_pool (loop r) gs = 0)%nat -> no_opener new -> Forall no_opener gs ->
  (forall r, tally (loop r) new + tally_pool (loop r) gs <= tally (loop r) old)%nat ->
  sends s' (<[t := new]> p ++ gs).
Proof.
  intros [S1 S2 S3 S4 S5] Ht Ho Hsent Hold Hnew Hgs Hloop.
  assert (forall r st', objs s' !! r = Some st' -> exists st, objs s !! r = Some st /\ keeps st st') as Hback
    by (intros r st' E; by apply (Forall2_lookup_r _ _ _ _ _ Ho)).
  assert (forall id, opens id (sent s') = opens id (sent s)) as Hop.
  { intros id. destruct Hsent as [->|(f & -> & _ & _ & Hf)]; [done|]. rewrite opens_app. unfold opens at 2, tally. cbn. unfold open_at. rewrite Hf. lia. }
  constructor.
  - destruct Hsent as [->|(f & -> & Hf & _)]; [done|]. apply Forall_app. split; [done|by constructor].
  - apply Forall_app. split; [apply Forall_insert; [|by apply oshape_none]|].
    + eapply Forall_impl; [exact S2|]. intros g. by apply oshape_keeps.
    + eapply Forall_impl; [exact Hgs|]. intros g. by apply oshape_none.
  - intros id. rewrite Hop, (local_keeps id _ _ Ho). pose proof (tally_step (opener id) p t old new gs Ht) as E. rewrite Hnew in E.
    rewrite (tally_pool_none (opener id) gs) in E by (eapply Forall_impl; [exact Hgs|]; by intros g ?). specialize (S3 id). lia.
  - intros g r st' Hg Hl E Hin. destruct (Hback r st' E) as (st & E0 & [K1 K2 _]). rewrite Hop, K1. rewrite K2 in Hin.
    assert ((1 <= tally (loop r) new + tally_pool (loop r) gs)%nat -> (1 <= opens (sid st) (sent s))%nat) as Hold'.
    { intros H1. destruct Hold as [Hold|Hold]; [|specialize (Hold r); lia]. specialize (Hloop r).
      destruct (S4 old r st) as [?|H2]; try done; [by eapply list_elem_of_lookup_2|lia|]. rewrite Hold in H2. lia. }
    specialize (Hloop r). destruct (elem_step p t old new gs g Ht Hg) as [->|[Hg'|(t' & _ & Hg')]].
    + left. apply Hold'. lia.
    + left. apply Hold'. pose proof (tally_pool_elem (loop r) gs g Hg'). lia.
    + apply (S4 g r st); try done. by eapply list_elem_of_lookup_2.
  - intros l1 f l2 m r st' Es Hm E Hin Hid. destruct (Hback r st' E) as (st & E0 & [K1 K2 _]). rewrite K1 in *. rewrite K2 in Hin.
    destruct Hsent as [Hsent|(x & Hsent & _ & Hx & _)]; rewrite Hsent in Es; [by eapply S5|].
    apply split_snoc in Es as [(-> & -> & ->)|(l2' & -> & Es)]; [congruence|by eapply S5].
Qed.

Lemma step_sends s p t i c rest pr :
  sends s p -> p !! t = Some (i :: rest) -> step_instr i c s = Some pr -> allocates i = false ->
  sends (after pr) (<[t := pushed pr ++ rest]> p ++ spawned pr).
Proof.
  intros HS Ht H Ha. destruct (step_openers i c s pr H Ha) as [Hp Hg]. destruct (step_loops i c s pr H Ha) as [Hl Hsent].
  assert (oshape s (i :: rest)) as [Hrest _] by (eapply Forall_lookup_1; [apply HS|done]). cbn [tail] in Hrest.
  apply (sends_calm s (after pr) p t (i :: rest)); try done.
  - by eapply step_keeps.
  - destruct Hsent as [?|(code & message & E)]; [by left|]. right. exists (error_frame_of code message). destruct (honest_error code message). done.
  - left. intros id. rewrite tally_cons, Hrest. by destruct i.
  - by apply no_opener_app.
  - intros r. rewrite tally_app, tally_cons. specialize (Hl r). lia.
Qed.

Lemma sends_alloc s p t old new gs id n st :
  sends s p -> p !! t = Some old -> no_opener old -> Forall no_opener gs -> oshape (alloc id n st s) new ->
  (forall i, tally (opener i) new <= local_at i st)%nat ->
  (forall r, (r < length (objs s))%nat -> tally (loop r) new + tally_pool (loop r) gs <= tally (loop r) old)%nat ->
  tally_pool (loop (length (objs s))) p = 0%nat ->
  (inbound st = false -> forall g, g = new \/ g ∈ gs -> (1 <= tally (loop (length (objs s))) g)%nat -> (1 <= tally (opener (sid st)) g)%nat) ->
  (inbound st = false -> forall f, f ∈ sent s -> ~ data_for (sid st) f) ->
  sends (alloc id n st s) (<[t := new]> p ++ gs).
Proof.
  intros [S1 S2 S3 S4 S5] Ht Hold Hgs Hnew Hopn Hloop Hfresh Hself Hnone. constructor; cbn [sent objs alloc with_streams with_objs with_nextID]; try done.
  - apply Forall_app. split; [apply Forall_insert; [|done]|].
    + eapply Forall_impl; [exact S2|]. intros g [H1 H2]. split; [done|]. destruct g as [|i g]; [done|]. destruct i; try done. destruct m; try done.
      destruct H2 as (Hc & call & r & x & -> & -> & Hr & Hid & Hin). split; [done|]. exists call, r, x. split_and!; try done. cbn. by apply lookup_app_l_Some.
    + eapply Forall_impl; [exact Hgs|]. intros g. by apply oshape_none.
  - intros i. rewrite tally_app, tally_cons. pose proof (tally_step (opener i) p t old new gs Ht) as E. rewrite Hold in E.
    rewrite (tally_pool_none (opener i) gs) in E by (eapply Forall_impl; [exact Hgs|]; by intros g ?).
    specialize (S3 i). specialize (Hopn i). change (tally (local_at i) []) with 0%nat. lia.
  - intros g r x Hg Hl [E|[-> ->]]%lookup_snoc_inv Hin.
    + assert ((1 <= tally (loop r) old)%nat -> (1 <= opens (sid x) (sent s))%nat) as Hold'.
      { intros H1. destruct (S4 old r x) as [?|H2]; try done; [by eapply list_elem_of_lookup_2|]. rewrite Hold in H2. lia. }
      specialize (Hloop r (lookup_lt_Some _ _ _ E)). destruct (elem_step p t old new gs g Ht Hg) as [->|[Hg'|(t' & _ & Hg')]].
      * left. apply Hold'. lia.
      * left. apply Hold'. pose proof (tally_pool_elem (loop r) gs g Hg'). lia.
      * apply (S4 g r x); try done. by eapply list_elem_of_lookup_2.
    + destruct (elem_step p t old new gs g Ht Hg) as [->|[Hg'|(t' & _ & Hg')]]; [right; by apply Hself; auto|right; by apply Hself; auto|].
      pose proof (tally_pool_elem (loop (length (objs s))) p g ltac:(by eapply list_elem_of_lookup_2)). lia.
  - intros l1 f l2 m r x Es Hm [E|[-> ->]]%lookup_snoc_inv Hin Hid; [by eapply S5|]. destruct (Hnone Hin f); [|by exists m].
    rewrite Es. apply elem_of_app. right. by apply elem_of_cons; left.
Qed.

Lemma sends_handleOpen put s p t m rest :
  sends s p -> fifo put s p -> p !! t = Some (IHandleOpen m :: rest) ->
  let pr := handleOpen cfg m s in sends (after pr) (<[t := pushed pr ++ rest]> p ++ spawned pr).
Proof.
  intros HS HF Ht. cbn zeta. assert (oshape s (IHandleOpen m :: rest)) as [Hrest _] by (eapply Forall_lookup_1; [apply HS|done]). cbn [tail] in Hrest.
  assert (forall todo, no_opener todo -> (forall r, tally (loop r) todo = 0%nat) -> sends s (<[t := todo ++ rest]> p ++ [])) as Hret.
  { intros todo Hi Hz. apply (sends_calm s s p t (IHandleOpen m :: rest)); try done; [apply all_keep_refl|by left|by left|by apply no_opener_app|].
    intros r. rewrite tally_app, tally_cons, Hz. cbn. lia. }
  unfold handleOpen. destruct (_ || _ || _ || _); [by apply (Hret [_])|]. destruct (closed s); [by apply (Hret [])|].
  destruct (streams s !! open_StreamID m); [by apply (Hret [_])|].
  destruct (AppMaxStreams <=? Z.of_nat (size (streams s))); [by apply (Hret [_])|]. cbn [after pushed spawned app].
  apply (sends_alloc s p t (IHandleOpen m :: rest) rest [[IAcceptOpen (length (objs s)) (open_Meta m)]] (open_StreamID m)
    (nextID s) (set_accepting true (newStream (open_StreamID m) (open_Service m) true))); try done.
  - by repeat constructor.
  - by apply oshape_none.
  - intros i. by rewrite Hrest.
  - intros r Hr. rewrite tally_cons. unfold tally_pool. cbn. unfold tally. cbn. rewrite (proj2 (Nat.eqb_neq r _)) by lia. cbn. lia.
  - by apply (ff_fresh _ _ _ HF).
Qed.

Lemma sends_Open put s p t call service meta rest :
  sends s p -> fifo put s p -> sess_ok cfg s -> stack_ok (IOpen call service meta :: rest) -> p !! t = Some (IOpen call service meta :: rest) ->
  let pr := Open cfg fmt_q call service meta s in sess_ok cfg (after pr) ->
  sends (after pr) (<[t := pushed pr ++ rest]> p ++ spawned pr).
Proof.
  intros HS HF Hs [Hr _] Ht. cbn zeta. cbn in Hr. subst rest.
  assert (forall o, sends s (<[t := [IReturn call o]]> p ++ [])) as Hret.
  { intros o. apply (sends_calm s s p t [IOpen call service meta]); try done; [apply all_keep_refl|by left|by left]. }
  unfold Open. destruct (negb (ValidAppService service)) eqn:Hsv; [intros _; apply Hret|]. destruct (AppMaxMetaBytes <? zlen meta) eqn:Hm; [intros _; apply Hret|].
  destruct (closed s); [intros _; apply Hret|]. destruct (AppMaxStreams <=? Z.of_nat (size (streams s))); [intros _; apply Hret|].
  destruct (Z.leb_spec maxLocalStreamID (nextID s)) as [|Hn]; [intros _; apply Hret|].
  cbn [pushed spawned after next app]. intros Hs'.
  set (id := Z.lor (localBit cfg) (to_u 32 (nextID s + 1))) in *.
  set (st := set_rcvWindow AppInitialWindow (set_opening true (newStream id service false))) in *.
  change (with_streams _ _) with (alloc id (to_u 32 (nextID s + 1)) st s) in *.
  apply (sends_alloc s p t [IOpen call service meta]); try done.
  - split; [done|]. split.
    + cbn. rewrite !andb_true_iff. split_and!.
      * pose proof (si_nextID _ _ Hs) as Hnext. unfold id, maxLocalStreamID in *. rewrite to_u32_id by lia.
        rewrite lor_high by (lia || apply localBit_cases). apply in_u_spec. destruct (localBit_cases cfg) as [-> | ->]; lia.
      * apply negb_false_iff, ValidAppService_spec in Hsv as (c & x & -> & _ & _ & Hx). unfold str_ok. rewrite zlen_cons. lia.
      * lia.
    + exists call, (length (objs s)), st. split_and!; try done. cbn. by apply list_lookup_middle.
  - intros i. unfold tally, local_at. cbn. lia.
  - intros r Hr. unfold tally, tally_pool. cbn. rewrite (proj2 (Nat.eqb_neq r _)) by lia. done.
  - by apply (ff_fresh _ _ _ HF).
  - intros _ g [->|Hg] _; [|by apply elem_of_nil in Hg]. unfold tally. cbn. rewrite Z.eqb_refl. cbn. lia.
  - intros _ f Hf (d & Em & Hd). destruct (ff_sent _ _ _ HF f d Hf Em) as (r & x & Ex & Hx).
    assert (length (objs s) = r) as <-; [|by apply lookup_lt_Some in Ex; lia].
    apply (local_ids cfg (alloc id (to_u 32 (nextID s + 1)) st s) _ _ st x); try done; [by apply list_lookup_middle|by apply lookup_app_l_Some|congruence].
Qed.

(** The write loops of the goroutines that did not step. *)
Lemma sends_others s p t old rest g r st : sends s p -> p !! t = Some old ->
  g ∈ <[t := rest]> p ++ [] -> (1 <= tally (loop r) g)%nat -> objs s !! r = Some st -> inbound st = false ->
  g = rest \/ (1 <= opens (sid st) (sent s))%nat \/ (1 <= tally (opener (sid st)) g)%nat.
Proof.
  intros HS Ht Hg Hl Hr Hin. destruct (elem_step p t _ rest [] g Ht Hg) as [->|[Hg'|(t' & _ & Hg')]]; [by left|by apply elem_of_nil in Hg'|].
  right. apply (sd_loop _ _ HS g r st); try done. by eapply list_elem_of_lookup_2.
Qed.

Lemma opens_snoc id l f : (opens id (l ++ [f]) = opens id l + open_at id f)%nat.
Proof. rewrite opens_app. unfold opens at 2, tally. cbn. lia. Qed.

(** An APP_OPEN that is sent is the one its stream was made for. *)
Lemma sends_send_open s p t m k f rest :
  sends s p -> p !! t = Some (ISend (MAppOpen m) k :: rest) -> app_frame (MAppOpen m) = Ok f ->
  sends (with_sent (sent s ++ [f]) s) (<[t := rest]> p ++ []).
Proof.
  intros HS Ht Ef. pose proof HS as [S1 S2 S3 S4 S5].
  assert (oshape s (ISend (MAppOpen m) k :: rest)) as [Hrest Hm] by (by eapply Forall_lookup_1). cbn [tail] in Hrest.
  destruct Hm as (Hc & call & r & st & -> & -> & Hr & Hid & Hin). destruct (honest_open m f Hc Ef) as (Hh & Ho & Hf).
  assert (forall id, open_at id f = b2n (open_StreamID m =? id)%Z) as Hop by (intros id; unfold open_at; by rewrite Ho).
  constructor; cbn [sent objs with_sent]; try done.
  - apply Forall_app. split; [done|by constructor].
  - apply Forall_app. split; [|constructor]. apply Forall_insert; [done|by apply oshape_none].
  - intros id. rewrite opens_snoc, Hop. pose proof (tally_step (opener id) p t _ [IOpenSelect call r] [] Ht) as E. rewrite tally_cons, Hrest in E.
    cbn in E. specialize (S3 id). lia.
  - intros g r' st' Hg Hl Hr' Hin'. rewrite opens_snoc, Hop.
    destruct (sends_others s p t _ _ g r' st' HS Ht Hg Hl Hr' Hin') as [->|[?|?]]; [|left; lia|by right].
    left. unfold tally in Hl. cbn in Hl. destruct (Nat.eqb_spec r' r) as [->|]; [|cbn in Hl; lia].
    assert (st' = st) as -> by congruence. rewrite Hid, Z.eqb_refl. cbn. lia.
  - intros l1 x l2 d r' st' Es Hx Hr' Hin' Hid'. apply split_snoc in Es as [(-> & -> & ->)|(l2' & -> & Es)]; [congruence|by eapply S5].
Qed.

(** APP_DATA leaves from a write loop, after its stream's APP_OPEN. *)
Lemma sends_send_data put s p t m k f rest :
  sends s p -> fifo put s p -> sess_ok cfg s -> p !! t = Some (ISend (MAppData m) k :: rest) -> app_frame (MAppData m) = Ok f ->
  sends (with_sent (sent s ++ [f]) s) (<[t := rest]> p ++ []).
Proof.
  intros HS HF Hs Ht Ef. pose proof HS as [S1 S2 S3 S4 S5].
  assert (shapes s (ISend (MAppData m) k :: rest)) as [Hd _] by (eapply Forall_lookup_1; [apply HF|done]).
  destruct Hd as (-> & r & st & -> & Hr & Hid & Hlen).
  assert (carries m = true) as Hc by (cbn; rewrite andb_true_iff; split; [rewrite Hid; by eapply (ff_ids _ _ _ HF)|by apply Z.leb_le]).
  destruct (honest_data m f Hc Ef) as (Hh & Hf & Ho).
  assert (forall id, open_at id f = 0%nat) as Hop by (intros id; unfold open_at; by rewrite Ho).
  assert (inbound st = false -> (1 <= opens (sid st) (sent s))%nat) as Hst.
  { intros Hin. assert (1 <= tally (loop r) [ISend (MAppData m) ELoop; IWriteLoop r; IWgDone])%nat as Hl
      by (unfold tally; cbn; rewrite Nat.eqb_refl; cbn; lia).
    destruct (S4 _ r st (list_elem_of_lookup_2 _ _ _ Ht) Hl Hr Hin) as [?|H2]; [done|]. unfold tally in H2. cbn in H2. lia. }
  constructor; cbn [sent objs with_sent]; try done.
  - apply Forall_app. split; [done|by constructor].
  - apply Forall_app. split; [|constructor]. apply Forall_insert; [done|by apply oshape_none].
  - intros id. rewrite opens_snoc, Hop. pose proof (tally_step (opener id) p t _ [IWriteLoop r; IWgDone] [] Ht) as E. cbn in E. specialize (S3 id). lia.
  - intros g r' st' Hg Hl Hr' Hin'. rewrite opens_snoc, Hop, Nat.add_0_r.
    destruct (sends_others s p t _ _ g r' st' HS Ht Hg Hl Hr' Hin') as [->|?]; [|done].
    left. unfold tally in Hl. cbn in Hl. destruct (Nat.eqb_spec r' r) as [->|]; [|cbn in Hl; lia].
    assert (st' = st) as -> by congruence. by apply Hst.
  - intros l1 x l2 d r' st' Es Hx Hr' Hin' Hid'. apply split_snoc in Es as [(-> & -> & ->)|(l2' & -> & Es)]; [|by eapply S5].
    assert (d = m) as -> by congruence. assert (r' = r) as -> by (by eapply (local_ids cfg s r' r st' st); try done; congruence).
    assert (st' = st) as -> by congruence. by apply Hst.
Qed.

(** A failed write, and any other message. *)
Lemma sends_send put s p t m k w rest new s' :
  sends s p -> fifo put s p -> sess_ok cfg s -> stack_ok (ISend m k :: rest) -> p !! t = Some (ISend m k :: rest) ->
  sendApp m k w rest s = (new, s') -> sends s' (<[t := new]> p ++ []).
Proof.
  intros HS HF Hs [Hk _] Ht E. assert (oshape s (ISend m k :: rest)) as [Hrest Hm] by (by eapply Forall_lookup_1; [apply HS|]). cbn [tail] in Hrest.
  assert (forall e, no_opener (on_error k e rest) /\ forall r, tally (loop r) (on_error k e rest) <= tally (loop r) rest)%nat as Herr
    by (intros e; split; [by destruct k|intros r; destruct k; cbn [on_error]; rewrite ?tally_cons; cbn [loop];
      try change (tally (loop r) []) with 0%nat; lia]).
  assert (no_opener (ISend m k :: rest) \/ forall e r, tally (loop r) (on_error k e rest) = 0%nat) as Hhead.
  { destruct m; try (left; intros id; rewrite tally_cons, Hrest; done). right. intros e r.
    destruct Hm as (_ & call & r' & st & -> & -> & _). done. }
  assert (forall e, sends s (<[t := on_error k e rest]> p ++ [])) as Hfail.
  { intros e. destruct (Herr e) as [H1 H2]. apply (sends_calm s s p t (ISend m k :: rest)); try done; [apply all_keep_refl|by left| |].
    - destruct Hhead as [?|Hz]; [by left|]. right. intros r. rewrite Hz. done.
    - intros r. rewrite tally_cons. specialize (H2 r). cbn. lia. }
  unfold sendApp in E. destruct (app_frame m) as [f|e] eqn:Ef; [|injection E as <- <-; apply Hfail].
  destruct w as [e|]; injection E as <- <-; [apply Hfail|].
  assert ((forall d, m <> MAppData d) -> (forall d, m <> MAppOpen d) -> sends (with_sent (sent s ++ [f]) s) (<[t := rest]> p ++ [])) as Hother.
  { intros Hnd Hno. destruct (honest_app m f Hnd Hno Ef) as (Hh & Ho & Hf).
    apply (sends_calm s _ p t (ISend m k :: rest)); try done; [apply all_keep_refl|right; by exists f| |].
    - left. intros id. rewrite tally_cons, Hrest. destruct m; try done. by edestruct Hno.
    - intros r. rewrite tally_cons. cbn. lia. }
  destruct m; try (by apply Hother); [by eapply sends_send_open|by eapply sends_send_data].
Qed.

Lemma exec_sends put s p t i c rest g gs s' :
  sends s p -> fifo put s p -> sess_ok cfg s -> stack_ok (i :: rest) -> p !! t = Some (i :: rest) ->
  exec i rest c s = Some (g, gs, s') -> sends s' (<[t := g]> p ++ gs).
Proof.
  intros HS HF Hs Hst Ht E. pose proof (exec_good cfg fmt_q ExecCmd_UnmarshalBinary _ _ _ _ _ _ _ Hs Hst E) as [Hs' _ _ _ _ _].
  apply exec_cases in E as [(m & k & w & -> & -> & E & ->)|(pr & E & -> & -> & ->)]; [by eapply sends_send|].
  destruct (allocates i) eqn:Ha; [|by eapply step_sends].
  destruct i; try done; cbn [Session.step_instr] in E; destruct c; try done; injection E as <-; [by eapply sends_handleOpen|by eapply sends_Open].
Qed.

Lemma sends_call s p call a gs : sends s p -> call_stack call a s = Some gs -> sends s (p ++ gs).
Proof.
  intros [S1 S2 S3 S4 S5] E. assert (Forall no_opener gs) as Hno
    by (destruct a; cbn [call_stack] in E; repeat case_match; simplify_eq; by repeat constructor).
  apply call_bland in E as [_ Hl]. constructor; try done.
  - apply Forall_app. split; [done|]. eapply Forall_impl; [exact Hno|]. intros g. by apply oshape_none.
  - intros id. rewrite tally_pool_app, (tally_pool_none (opener id) gs) by (eapply Forall_impl; [exact Hno|]; by intros g ?).
    specialize (S3 id). lia.
  - intros g r st [Hg|Hg]%elem_of_app Hl1; [by apply S4|]. pose proof (tally_pool_elem (loop r) gs g Hg). rewrite Hl in *. lia.
Qed.

Lemma sends0 : sends NewSession [].
Proof. by constructor. Qed.

(** ** What an end never does *)

(** It does not start serving by itself, and does not take frames back. *)
Lemma step_serves i c s pr : step_instr i c s = Some pr ->
  (tally serve (pushed pr) + tally_pool serve (spawned pr) <= serve i)%nat /\ sent s `prefix_of` sent (after pr).
Proof.
  intros H. split.
  - destruct (idle i) eqn:Hi.
    { destruct (idle_pushed i c s pr H Hi) as [Hp Hg]. destruct (idle_tallies _ Hp) as [-> _].
      rewrite (tally_pool_none serve (spawned pr)); [lia|]. eapply Forall_impl; [exact Hg|]. intros g Hidle. by destruct (idle_tallies _ Hidle). }
    destruct i; try done; cbn [Session.step_instr] in H.
    + unfold Serve in H. destruct c as [| |[f|e]| | | | | |]; try done; [|simplify_eq; cbn; lia]. destruct (frame_ok f); [|done].
      destruct (handleFrame f) as [h|[msg e]] eqn:E; simplify_eq; [|cbn; lia]. cbn [pushed spawned next]. rewrite tally_cons.
      destruct (handle_cases f h E) as [[Hh _]|[[m ->]|[m ->]]]; [destruct (idle_hands h Hh) as [_ ->]|..]; cbn; lia.
    + destruct c; try done. simplify_eq. unfold handleOpen. repeat case_match; unfold tally_pool, tally; cbn; unfold tally; cbn; lia.
    + destruct c; try done. simplify_eq. unfold on_id. case_match; cbn; lia.
    + destruct c; try done. unfold on_obj in H. destruct (objs s !! r) as [st|]; [|done]. simplify_eq. unfold deliver.
      destruct (if deliver_needs_buffer _ _ then _ else _). repeat case_match; cbn; lia.
    + destruct c; try done. simplify_eq. unfold Open. repeat case_match; cbn; lia.
  - destruct (allocates i) eqn:Ha.
    + destruct i; try done; cbn [Session.step_instr] in H; destruct c; try done; simplify_eq; [unfold handleOpen|unfold Open]; by repeat case_match.
    + destruct (step_loops i c s pr H Ha) as [_ [->|(code & message & ->)]]; [done|by apply prefix_app_r].
Qed.

Lemma exec_serves i rest c s g gs s' : stack_ok (i :: rest) -> exec i rest c s = Some (g, gs, s') ->
  (tally serve g + tally_pool serve gs <= tally serve (i :: rest))%nat /\ sent s `prefix_of` sent s'.
Proof.
  intros [Hk _] [(m & k & w & -> & -> & E & ->)|(pr & [H1 H2]%step_serves & -> & -> & ->)]%exec_cases.
  - rewrite tally_cons. cbn. unfold sendApp in E.
    assert (forall e, tally serve (on_error k e rest) <= tally serve rest)%nat as He
      by (intros e; destruct k; cbn [on_error]; rewrite ?tally_cons; cbn [serve]; try change (tally serve []) with 0%nat; lia).
    destruct (app_frame m) as [f|e]; [|simplify_eq; split; [specialize (He e); lia|done]].
    destruct w as [e|]; simplify_eq; [split; [specialize (He e); lia|done]|]. split; [lia|]. by apply prefix_app_r.
  - split; [|done]. rewrite tally_app, tally_cons. lia.
Qed.

End Side.
