(* ===== verification/SessionPair.v ===== *)
(** * Two sessions on one connection

    Each side is the whole machine of [Session.v]; a frame a side reads is the
    next one the other side wrote, reads may also fail at any moment, and
    [Serve] is called at most once on a side (it owns the reading half of the
    connection).  Everything else is free: both callers, both handlers, the
    interleaving of all goroutines, failing writes, resets, closes.

    The theorem joins the two halves of [SessionFifo.v] with [SessionRecv.v]: what
    is read from a stream at one end is a prefix of what was written into the
    stream with the same id at the other. *)
From Stdlib Require Import ZArith Lia.
From stdpp Require Import base list gmap strings.
From S2P Require Import Prelude GoIO Wire Frame Codec MsgApp Exec Registry Stream Session SessionInv Ledger SessionFifo SessionRecv.

Open Scope Z_scope.

(** ** One end *)

Record side := mkSide { world : World; nread : nat; served : bool }.

Definition side0 : side := mkSide world0 0 false.

(** The frames a side has put on the connection. *)
Definition wire (x : side) : list Frame := sent (sess (world x)).

Section Pair.

Context (fmt_q : bytes -> bytes) (ExecCmd_UnmarshalBinary : bytes -> result ExecCmd).

Definition side_step (cfg : Config) (incoming : list Frame) (l : label) (x : side) : option side :=
  w ← step cfg fmt_q ExecCmd_UnmarshalBinary l (world x);
  match l with
  | Run _ (ChRead (Ok f)) =>
      if bool_decide (incoming !! nread x = Some f) then Some (mkSide w (S (nread x)) (served x)) else None
  | Call AServe => if served x then None else Some (mkSide w (nread x) true)
  | _ => Some (mkSide w (nread x) (served x))
  end.

(** ** Both *)

Context (cfg_a cfg_b : Config).

Record pair := mkPair { end_a : side; end_b : side }.

Definition pair0 : pair := mkPair side0 side0.

Inductive plabel := AtA (l : label) | AtB (l : label).

Definition pair_step (l : plabel) (p : pair) : option pair :=
  match l with
  | AtA l => x ← side_step cfg_a (wire (end_b p)) l (end_a p); Some (mkPair x (end_b p))
  | AtB l => x ← side_step cfg_b (wire (end_a p)) l (end_b p); Some (mkPair (end_a p) x)
  end.

Fixpoint pair_run (ls : list plabel) (p : pair) : option pair :=
  match ls with [] => Some p | l :: ls => p ← pair_step l p; pair_run ls p end.

(** What one end did. *)
Definition labels_a (ls : list plabel) : list label := omap (fun l => match l with AtA l => Some l | AtB _ => None end) ls.
Definition labels_b (ls : list plabel) : list label := omap (fun l => match l with AtB l => Some l | AtA _ => None end) ls.

Lemma side_step_world cfg inc l x x' : side_step cfg inc l x = Some x' -> step cfg fmt_q ExecCmd_UnmarshalBinary l (world x) = Some (world x').
Proof. unfold side_step. intros (w & -> & H)%bind_Some. repeat case_match; by simplify_eq. Qed.

Lemma pair_run_worlds ls p p' : pair_run ls p = Some p' ->
  run cfg_a fmt_q ExecCmd_UnmarshalBinary (labels_a ls) (world (end_a p)) = Some (world (end_a p'))
  /\ run cfg_b fmt_q ExecCmd_UnmarshalBinary (labels_b ls) (world (end_b p)) = Some (world (end_b p')).
Proof.
  revert p. induction ls as [|l ls IH]; intros p; cbn [pair_run]; [by intros [= ->]|].
  intros (p1 & H1 & [Ha Hb]%IH)%bind_Some. destruct l as [l|l]; apply bind_Some in H1 as (x & H1%side_step_world & [= <-]); cbn in *;
    by rewrite H1.
Qed.

(** ** The invariant of an end *)

Record side_ok (cfg : Config) (seen : list Frame) (put fed got : nat -> bytes) (x : side) : Prop := {
  so_bytes : bytes_ok cfg put fed got (world x);
  so_recv : recv seen fed (sess (world x)) (pool (world x));
  so_sends : sends ExecCmd_UnmarshalBinary (sess (world x)) (pool (world x));
  so_served : served x = false -> tally_pool serve (pool (world x)) = 0%nat }.

(** ** Ids across the connection *)

Lemma tally_at {A} (f : A -> nat) l : (1 <= tally f l)%nat -> exists i x, l !! i = Some x /\ (1 <= f x)%nat.
Proof.
  induction l as [|y l IH]; [unfold tally; cbn; lia|]. rewrite tally_cons. intros H. destruct (f y) eqn:E.
  - destruct IH as (i & x & Hi & Hx); [lia|]. by exists (S i), x.
  - exists 0%nat, y. split; [done|lia].
Qed.

Lemma tally_one {A} (f : A -> nat) l : (forall x, f x <= 1)%nat ->
  (forall i j x y, l !! i = Some x -> l !! j = Some y -> (1 <= f x)%nat -> (1 <= f y)%nat -> i = j) -> (tally f l <= 1)%nat.
Proof.
  intros H1. induction l as [|z l IH]; intros H; [unfold tally; cbn; lia|]. rewrite tally_cons. specialize (H1 z).
  assert (tally f l <= 1)%nat as Hl by (apply IH; intros i j x y Hi Hj Hx Hy; by injection (H (S i) (S j) x y Hi Hj Hx Hy)).
  destruct (f z) as [|n] eqn:Ez; [lia|]. assert (tally f l = 0)%nat; [|lia].
  destruct (tally f l) eqn:E; [done|]. destruct (tally_at f l) as (i & x & Hi & Hx); [lia|].
  specialize (H 0%nat (S i) z x eq_refl Hi ltac:(lia) Hx). done.
Qed.

Lemma tally_two_at {A} (f : A -> nat) l i j x y : l !! i = Some x -> l !! j = Some y -> i <> j -> (f x + f y <= tally f l)%nat.
Proof.
  revert i j. induction l as [|z l IH]; intros i j Hi Hj Hne; [done|]. rewrite tally_cons. destruct i as [|i], j as [|j]; cbn in Hi, Hj; simplify_eq.
  - pose proof (tally_elem f l y (list_elem_of_lookup_2 _ _ _ Hj)). lia.
  - pose proof (tally_elem f l x (list_elem_of_lookup_2 _ _ _ Hi)). lia.
  - specialize (IH i j Hi Hj ltac:(lia)). lia.
Qed.

Lemma local_at_pos id st : (1 <= local_at id st)%nat -> inbound st = false /\ sid st = id.
Proof. unfold local_at. destruct (inbound st); cbn; [lia|]. destruct (Z.eqb_spec (sid st) id); cbn; [done|lia]. Qed.

Lemma local_once cfg s id : sess_ok cfg s -> (tally (local_at id) (objs s) <= 1)%nat.
Proof.
  intros Hs. apply tally_one; [intros st; unfold local_at; destruct (_ && _); cbn; lia|].
  intros i j x y Hi Hj [Ix Ex]%local_at_pos [Iy Ey]%local_at_pos. apply (si_local _ _ Hs i j x y); try done. congruence.
Qed.

Lemma inbound_at_self st : inbound st = true -> inbound_at (sid st) st = 1%nat.
Proof. intros H. unfold inbound_at. by rewrite H, Z.eqb_refl. Qed.

(** A local id tells the role of its end. *)
Lemma local_bit cfg s r st : sess_ok cfg s -> objs s !! r = Some st -> inbound st = false -> Z.land (sid st) 0x80000000 = localBit cfg.
Proof.
  intros Hs Hr Hin. destruct (si_objs _ _ Hs r st Hr) as [_ H]. rewrite Hin in H. destruct H as (k & Hk & ->).
  pose proof (si_nextID _ _ Hs) as Hn. unfold maxLocalStreamID in Hn. rewrite Z.land_lor_distr_l. assert (Z.land k 0x80000000 = 0) as ->.
  { change 0x80000000 with (2 ^ 31). rewrite <- (Z.mod_small k (2 ^ 31)), <- Z.land_ones, <- Z.land_assoc by lia. apply Z.land_0_r. }
  rewrite Z.lor_0_r. unfold localBit. by destruct (cfgRole cfg).
Qed.

Lemma local_apart cfg cfg' s s' r r' st st' : cfgRole cfg <> cfgRole cfg' -> sess_ok cfg s -> sess_ok cfg' s' ->
  objs s !! r = Some st -> objs s' !! r' = Some st' -> inbound st = false -> inbound st' = false -> sid st <> sid st'.
Proof.
  intros Hrole Hs Hs' Hr Hr' Hin Hin' E. pose proof (local_bit cfg s r st Hs Hr Hin) as H1. pose proof (local_bit cfg' s' r' st' Hs' Hr' Hin') as H2.
  rewrite E, H2 in H1. revert H1. unfold localBit. by destruct (cfgRole cfg), (cfgRole cfg').
Qed.

(** An end has as many inbound streams of an id as the other opened, at most one. *)
Lemma inbound_opened D cfg' seen fed s p s' p' id : recv seen fed s p -> sends D s' p' -> sess_ok cfg' s' -> seen `prefix_of` sent s' ->
  (tally (inbound_at id) (objs s) <= opens id (sent s') <= tally (local_at id) (objs s'))%nat
  /\ (tally (local_at id) (objs s') <= 1)%nat.
Proof.
  intros HR HS Hs [l E]. split; [|by eapply local_once]. pose proof (rv_count _ _ _ _ HR id) as H1. pose proof (sd_count _ _ _ HS id) as H2.
  rewrite E, opens_app in *. lia.
Qed.

(** Ids are used once, on both ends. *)
Lemma sole_pair D cfg cfg' seen fed s p s' p' r st : sess_ok cfg s -> recv seen fed s p -> sends D s' p' -> sess_ok cfg' s' ->
  seen `prefix_of` sent s' -> objs s !! r = Some st -> sole s r (sid st).
Proof.
  intros Hs HR HS Hs' Hp Hr r' st' Hr' Hid. destruct (inbound st) eqn:Hin; [destruct (inbound st') eqn:Hin'|].
  - destruct (decide (r' = r)) as [|Hne]; [done|]. exfalso.
    pose proof (tally_two_at (inbound_at (sid st)) (objs s) r' r st' st Hr' Hr Hne) as H2.
    rewrite (inbound_at_self st) in H2 by done. rewrite <- Hid in H2 at 1. rewrite (inbound_at_self st') in H2 by done.
    destruct (inbound_opened D cfg' seen fed s p s' p' (sid st) HR HS Hs' Hp) as [H3 H4]. lia.
  - by apply (local_ids cfg s r' r st' st).
  - symmetry. by apply (local_ids cfg s r r' st st').
Qed.

Lemma exec_extends cfg i rest c s g gs s' : exec cfg fmt_q ExecCmd_UnmarshalBinary i rest c s = Some (g, gs, s') -> extends s s'.
Proof.
  intros [(m & k & w & -> & -> & E & ->)|(pr & E & -> & -> & ->)]%exec_cases r x Hx.
  - assert (objs s' = objs s) as -> by (unfold sendApp in E; repeat case_match; by simplify_eq). by exists x.
  - apply step_objs in E as [Eo|r' st c' _ Hr Eo|st _ _ Eo]; rewrite Eo.
    + by exists x.
    + destruct (decide (r = r')) as [->|Hne]; [|rewrite list_lookup_insert_ne by done; by exists x].
      rewrite list_lookup_insert_eq by (by apply lookup_lt_Some in Hr). assert (x = st) as -> by congruence.
      destruct (section_keeps c' st). by eexists.
    + rewrite (lookup_app_l_Some _ _ _ _ Hx). by exists x.
Qed.

(** What an end reads is in order: the other end saw to it. *)
Lemma pair_welcome cfg cfg' n seen' put' fed' s p s1 i c rest g gs sY pY :
  cfgRole cfg <> cfgRole cfg' -> sess_ok cfg s1 -> sends ExecCmd_UnmarshalBinary s p ->
  exec cfg fmt_q ExecCmd_UnmarshalBinary i rest c s = Some (g, gs, s1) ->
  sess_ok cfg' sY -> fifo put' sY pY -> recv seen' fed' sY pY -> sends ExecCmd_UnmarshalBinary sY pY -> seen' `prefix_of` sent s ->
  (forall f, f ∈ reads i c -> sent sY !! n = Some f) ->
  welcome ExecCmd_UnmarshalBinary (take n (sent sY)) i c s s1.
Proof.
  intros Hrole Hs1 HS E HsY HFY HRY HSY Hpre Hread. constructor.
  - intros f Hf%Hread. eapply Forall_lookup_1; [apply HSY|exact Hf].
  - intros f m f' Hf%Hread Hm Hf' (d & Hd & Hid). apply list_elem_of_lookup in Hf' as [j Hj].
    pose proof (take_drop_middle _ _ _ Hj) as E1. pose proof (take_drop_middle _ _ _ Hf) as E2.
    assert (open_at (open_StreamID m) f = 1%nat) as Ho by (unfold open_at; by rewrite Hm, Z.eqb_refl).
    pose proof (sd_count _ _ _ HSY (open_StreamID m)) as H1. pose proof (local_once cfg' sY (open_StreamID m) HsY) as H2.
    set (l1 := take j (take n (sent sY))) in *. set (l2 := drop (S j) (take n (sent sY))) in *.
    rewrite <- E2, <- E1 in H1. unfold opens in H1. rewrite !tally_app, !tally_cons, Ho in H1.
    destruct (tally_at (local_at (open_StreamID m)) (objs sY)) as (r & st & Hr & [Hin Hsid]%local_at_pos); [lia|].
    assert (1 <= opens (sid st) l1)%nat as H3.
    { apply (sd_order _ _ _ HSY l1 f' (l2 ++ f :: drop (S n) (sent sY)) d r st); try done; [|congruence].
      rewrite <- E2 at 1. rewrite <- E1, <- app_assoc. done. }
    rewrite Hsid in H3. unfold opens in H3. lia.
  - intros st f Hnew Hin Hf (d & Hd & Hid). apply elem_of_take in Hf as (j & Hj & _).
    destruct (ff_sent _ _ _ HFY f d (list_elem_of_lookup_2 _ _ _ Hj) Hd) as (r & x & Hr & Hx).
    destruct (inbound x) eqn:Hinx; [|by eapply (local_apart cfg cfg' s1 sY); eauto; congruence].
    pose proof (rv_count _ _ _ _ HRY (sid x)) as H1. pose proof (tally_elem (inbound_at (sid x)) (objs sY) x (list_elem_of_lookup_2 _ _ _ Hr)) as H2.
    rewrite inbound_at_self in H2 by done. destruct Hpre as [l El]. pose proof (sd_count _ _ _ HS (sid x)) as H3. rewrite El, opens_app in H3.
    destruct (tally_at (local_at (sid x)) (objs s)) as (r' & y & Hr' & [Hiny Hsidy]%local_at_pos); [lia|].
    destruct (exec_extends _ _ _ _ _ _ _ _ E r' y Hr') as (y' & Hy' & Hs' & Hi').
    assert (r' = length (objs s)) as ->; [|by apply lookup_lt_Some in Hr'; lia].
    apply (si_local _ _ Hs1 r' _ y' st); try done; congruence.
Qed.

Lemma read_serves cfg i rest f s p : exec cfg fmt_q ExecCmd_UnmarshalBinary i rest (ChRead (Ok f)) s = Some p -> exists call, i = IServe call.
Proof. destruct i; cbn; try done; try (by eexists); [by destruct (objs s !! r)|by destruct refs]. Qed.

(** ** Steps *)

Lemma side_step_ok cfg cfg' l x x' y put fed got put' fed' got' :
  cfgRole cfg <> cfgRole cfg' -> side_ok cfg (take (nread x) (wire y)) put fed got x ->
  side_ok cfg' (take (nread y) (wire x)) put' fed' got' y -> (nread x <= length (wire y))%nat ->
  side_step cfg (wire y) l x = Some x' ->
  side_ok cfg (take (nread x') (wire y)) (fun r => put r ++ at_label (put_step r) l (world x))
    (fun r => fed r ++ at_label (fed_step r) l (world x)) (fun r => got r ++ at_label (got_step r) l (world x)) x'
  /\ wire x `prefix_of` wire x' /\ (nread x' <= length (wire y))%nat.
Proof.
  intros Hrole [B R S V] [BY RY SY VY] Hle H. pose proof (side_step_world _ _ _ _ _ H) as Hstep.
  pose proof (step_bytes_ok cfg fmt_q ExecCmd_UnmarshalBinary put fed got l (world x) (world x') B Hstep) as B'.
  destruct l as [t c|a].
  - cbn [step] in Hstep. destruct (pool (world x) !! t) as [[|i rest]|] eqn:Ht; [done| |done].
    destruct (exec cfg fmt_q ExecCmd_UnmarshalBinary i rest c (sess (world x))) as [[[g gs] s1]|] eqn:E; [|done].
    injection Hstep as Hw.
    assert (take (nread x') (wire y) = take (nread x) (wire y) ++ reads i c /\ served x' = served x /\ (nread x' <= length (wire y))%nat
      /\ forall f, f ∈ reads i c -> wire y !! nread x = Some f) as (Hseen & Hserved & Hle' & Hread).
    { unfold side_step in H. apply bind_Some in H as (w & _ & H).
      destruct c as [| |[f|e]| | | | | |]; try (injection H as <-; assert (reads i _ = []) as -> by (by destruct i); rewrite app_nil_r; split_and!; try done; by intros f ?%elem_of_nil).
      case_bool_decide as Hf; [|done]. injection H as <-. destruct (read_serves _ _ _ _ _ _ E) as [call ->]. cbn [reads nread served].
      split; [by apply take_S_r|]. split; [done|]. split; [by apply lookup_lt_Some in Hf|]. intros f' Hf'. by apply list_elem_of_singleton in Hf' as ->. }
    assert (stack_ok (i :: rest)) as Hst by (eapply Forall_lookup_1; [apply B|done]).
    pose proof (exec_good cfg fmt_q ExecCmd_UnmarshalBinary _ _ _ _ _ _ _ (w_sess _ _ (bo_world _ _ _ _ _ B)) Hst E) as [Hs1 _ _ _ _ _].
    destruct (exec_serves _ _ _ _ _ _ _ _ _ _ Hst E) as [Hsv Hsent].
    assert (welcome ExecCmd_UnmarshalBinary (take (nread x) (wire y)) i c (sess (world x)) s1) as HW.
    { eapply (pair_welcome cfg cfg' (nread x) _ put' fed'); try done; [apply BY|apply BY|]. eexists. symmetry. apply take_drop. }
    split; [|split; [unfold wire; by rewrite <- Hw|done]]. constructor; [done|..]; rewrite <- Hw; cbn [sess pool].
    + rewrite Hseen. apply (recv_ext _ (fun r => fed r ++ fed_step r i (sess (world x)))).
      * intros r. cbn [at_label]. by rewrite Ht.
      * eapply exec_recv; try done; [apply B|]. apply (bo_inbound _ _ _ _ _ B). done.
    + eapply exec_sends; try done; apply B.
    + rewrite Hserved. intros Hv. pose proof (tally_step serve (pool (world x)) t _ g gs Ht) as Et. specialize (V Hv).
      pose proof (tally_pool_elem serve (pool (world x)) _ (list_elem_of_lookup_2 _ _ _ Ht)). lia.
  - cbn [step] in Hstep. destruct (call_stack (calls (world x)) a (sess (world x))) as [gs|] eqn:E; [|done]. injection Hstep as Hw.
    assert (nread x' = nread x /\ (served x' = false -> served x = false) /\ (match a with AServe => served x = false /\ served x' = true | _ => True end)) as (Hn & Hsv & Ha).
    { unfold side_step in H. apply bind_Some in H as (w & _ & H). destruct a; try (by injection H as <-). destruct (served x) eqn:Es; [done|]. by injection H as <-. }
    destruct (call_shapes _ _ _ _ E) as [Hsh Hone].
    rewrite Hn. split; [|split; [unfold wire; by rewrite <- Hw|done]]. constructor; [done|..]; rewrite <- Hw; cbn [sess pool].
    + apply (recv_ext _ fed); [intros r; apply app_nil_r|]. apply recv_call; [done|done|]. pose proof (rv_serve _ _ _ _ R).
      destruct a; cbn in Hone; try lia. destruct Ha as [Hv _]. specialize (V Hv). lia.
    + by eapply sends_call.
    + intros Hv. rewrite tally_pool_app, (V (Hsv Hv)). destruct a; cbn in Hone; try lia. destruct Ha as [_ Ha]. congruence.
Qed.

(** ** Runs *)

Record pair_ok (puta feda gota putb fedb gotb : nat -> bytes) (p : pair) : Prop := {
  pa_ok : side_ok cfg_a (take (nread (end_a p)) (wire (end_b p))) puta feda gota (end_a p);
  pb_ok : side_ok cfg_b (take (nread (end_b p)) (wire (end_a p))) putb fedb gotb (end_b p);
  pa_read : (nread (end_a p) <= length (wire (end_b p)))%nat;
  pb_read : (nread (end_b p) <= length (wire (end_a p)))%nat }.

Lemma take_prefix_same {A} (l l' : list A) n : l `prefix_of` l' -> (n <= length l)%nat -> take n l' = take n l /\ (n <= length l')%nat.
Proof. intros [k ->] Hn. rewrite take_app_le, length_app by done. split; [done|lia]. Qed.

Lemma side_ok_ext cfg seen put put' fed fed' got got' x :
  (forall r, put' r = put r) -> (forall r, fed' r = fed r) -> (forall r, got' r = got r) ->
  side_ok cfg seen put fed got x -> side_ok cfg seen put' fed' got' x.
Proof.
  intros E1 E2 E3 [[B1 B2 B3 B4] R S V]. constructor; [constructor|..]; try done; [by apply (fifo_ext put)|by apply (inbound_ext fed _ got)|by apply (recv_ext _ fed)].
Qed.

Abbreviation bytes_a f := (run_bytes cfg_a fmt_q ExecCmd_UnmarshalBinary f).
Abbreviation bytes_b f := (run_bytes cfg_b fmt_q ExecCmd_UnmarshalBinary f).

Lemma sides_step_ok pa fa ga pb fb gb l p p' : cfgRole cfg_a <> cfgRole cfg_b -> pair_ok pa fa ga pb fb gb p -> pair_step l p = Some p' ->
  match l with
  | AtA l => pair_ok (fun r => pa r ++ at_label (put_step r) l (world (end_a p))) (fun r => fa r ++ at_label (fed_step r) l (world (end_a p)))
      (fun r => ga r ++ at_label (got_step r) l (world (end_a p))) pb fb gb p'
  | AtB l => pair_ok pa fa ga (fun r => pb r ++ at_label (put_step r) l (world (end_b p)))
      (fun r => fb r ++ at_label (fed_step r) l (world (end_b p))) (fun r => gb r ++ at_label (got_step r) l (world (end_b p))) p'
  end.
Proof.
  intros Hrole [Oa Ob La Lb]. destruct l as [l|l]; intros (x & H & [= <-])%bind_Some.
  - destruct (side_step_ok cfg_a cfg_b l _ _ _ _ _ _ _ _ _ Hrole Oa Ob La H) as (Oa' & Hpre & La').
    destruct (take_prefix_same _ _ _ Hpre Lb) as [Et Lb']. rewrite <- Et in Ob. by constructor.
  - destruct (side_step_ok cfg_b cfg_a l _ _ _ _ _ _ _ _ _ ltac:(done) Ob Oa Lb H) as (Ob' & Hpre & Lb').
    destruct (take_prefix_same _ _ _ Hpre La) as [Et La']. rewrite <- Et in Oa. by constructor.
Qed.

Lemma run_bytes_cons cfg f l ls w w' : step cfg fmt_q ExecCmd_UnmarshalBinary l w = Some w' ->
  run_bytes cfg fmt_q ExecCmd_UnmarshalBinary f (l :: ls) w = at_label f l w ++ run_bytes cfg fmt_q ExecCmd_UnmarshalBinary f ls w'.
Proof. intros E. cbn. by rewrite E. Qed.

Lemma pair_run_ok pa fa ga pb fb gb ls p p' : cfgRole cfg_a <> cfgRole cfg_b -> pair_ok pa fa ga pb fb gb p -> pair_run ls p = Some p' ->
  pair_ok (fun r => pa r ++ bytes_a (put_step r) (labels_a ls) (world (end_a p)))
    (fun r => fa r ++ bytes_a (fed_step r) (labels_a ls) (world (end_a p)))
    (fun r => ga r ++ bytes_a (got_step r) (labels_a ls) (world (end_a p)))
    (fun r => pb r ++ bytes_b (put_step r) (labels_b ls) (world (end_b p)))
    (fun r => fb r ++ bytes_b (fed_step r) (labels_b ls) (world (end_b p)))
    (fun r => gb r ++ bytes_b (got_step r) (labels_b ls) (world (end_b p))) p'.
Proof.
  intros Hrole. revert pa fa ga pb fb gb p. induction ls as [|l ls IH]; intros pa fa ga pb fb gb p Ok; cbn [pair_run].
  { intros [= <-]. destruct Ok as [Oa Ob La Lb]. constructor; try done; (eapply side_ok_ext; [..|eassumption]); intros r; apply app_nil_r. }
  intros (p1 & H1 & H)%bind_Some. pose proof (sides_step_ok _ _ _ _ _ _ _ _ _ Hrole Ok H1) as Ok1.
  destruct l as [l|l]; destruct (IH _ _ _ _ _ _ _ Ok1 H) as [Oa Ob La Lb]; apply bind_Some in H1 as (x & Hw%side_step_world & [= <-]);
    (constructor; try done); (eapply side_ok_ext; [..|eassumption]); intros r; cbn [end_a end_b labels_a labels_b omap list_omap]; try done;
    first [change (omap _ ls) with (labels_a ls); rewrite (run_bytes_cons cfg_a _ _ _ _ _ Hw)
          |change (omap _ ls) with (labels_b ls); rewrite (run_bytes_cons cfg_b _ _ _ _ _ Hw)]; apply app_assoc.
Qed.

Lemma side0_ok cfg : side_ok cfg [] (fun _ => []) (fun _ => []) (fun _ => []) side0.
Proof. constructor; [apply world0_bytes_ok|apply recv0|apply sends0|done]. Qed.

Lemma pair0_ok : pair_ok (fun _ => []) (fun _ => []) (fun _ => []) (fun _ => []) (fun _ => []) (fun _ => []) pair0.
Proof. constructor; try apply side0_ok; cbn; lia. Qed.

(** ** From one end to the other *)

(** The bytes written into stream [r] of [src] and read from stream [r'] of
    [dst]: in order, none invented or repeated; and nothing lost while [src]'s write
    loop and [dst]'s server are between two frames and [dst] still has the stream,
    not reset: what is written and not read waits in the receive queue, on the
    connection or in the send queue. *)
Definition conveys (src dst : side) (put got : bytes) (r r' : nat) : Prop :=
  got `prefix_of` put
  /\ forall st st' g call, objs (sess (world src)) !! r = Some st -> objs (sess (world dst)) !! r' = Some st' ->
       g ∈ pool (world src) -> g = [IWriteLoop r; IWgDone] \/ (exists seen, g = [IWriteLoopWait r seen; IWgDone]) ->
       [IServe call] ∈ pool (world dst) -> streams (sess (world dst)) !! sid st' = Some r' -> reset st' = false ->
       put = got ++ concat (inQ st') ++ out_bytes (sid st) (drop (nread dst) (wire src)) ++ concat (sendQ st).

Lemma sides_convey cfg cfg' src dst put fed got put' fed' got' r r' st st' :
  side_ok cfg (take (nread src) (wire dst)) put fed got src -> side_ok cfg' (take (nread dst) (wire src)) put' fed' got' dst ->
  objs (sess (world src)) !! r = Some st -> objs (sess (world dst)) !! r' = Some st' -> sid st = sid st' ->
  conveys src dst (put r) (got' r') r r'.
Proof.
  intros [B R S V] [B' R' S' V'] Hr Hr' Hid.
  assert (sole (sess (world src)) r (sid st)) as Hsole.
  { eapply (sole_pair ExecCmd_UnmarshalBinary cfg cfg'); try done; [apply B|apply B'|]. eexists. symmetry. apply take_drop. }
  assert (fed' r' = got' r' ++ concat (inQ st')) as Hfed by (by apply (bo_inbound _ _ _ _ _ B')).
  assert (out_bytes (sid st) (wire src) = out_bytes (sid st) (take (nread dst) (wire src)) ++ out_bytes (sid st) (drop (nread dst) (wire src))) as Hout
    by (by rewrite <- out_bytes_app, take_drop).
  split.
  - pose proof (rv_prefix _ _ _ _ R' r' st' Hr') as H1. rewrite <- Hid, Hfed in H1.
    pose proof (ff_prefix _ _ _ (bo_fifo _ _ _ _ _ B) r st Hr Hsole) as H2. unfold wire in *. rewrite Hout in H2.
    etrans; [|exact H2]. apply prefix_app_r. etrans; [|exact H1]. by apply prefix_app_r.
  - intros x x' g call E E' Hg Hl Hc Ht Hres. assert (x = st) as -> by congruence. assert (x' = st') as -> by congruence.
    assert (held r g = [] /\ (1 <= tally (loop r) g)%nat) as [Hh Htl]
      by (destruct Hl as [->|[? ->]]; cbn; rewrite Nat.eqb_refl; by split; [|apply le_n]).
    pose proof (ff_live _ _ _ (bo_fifo _ _ _ _ _ B) g r st Hg Htl Hr Hsole) as H1. rewrite Hh in H1. cbn [app] in H1. rewrite H1. unfold wire in *. rewrite Hout.
    apply list_elem_of_lookup in Hc as [t Hc].
    assert (fed' r' ++ hand r' (sid st') (pool (world dst)) = out_bytes (sid st') (take (nread dst) (wire src))) as H2.
    { apply (rv_live _ _ _ _ R'); try done. intros g' [t' Hg']%list_elem_of_lookup Hsv. destruct (decide (t' = t)) as [->|Hne].
      - rewrite Hc in Hg'. by injection Hg' as <-.
      - pose proof (tally_two serve _ t t' _ _ Hc Hg' Hne) as H3. pose proof (rv_serve _ _ _ _ R'). cbn in H3. unfold tally in *. cbn in H3. lia. }
    rewrite (hand_server _ _ _ _ t [IServe call] _ _ R' Hc) in H2 by done. cbn [handg] in H2. unfold wire in H2. rewrite app_nil_r in H2.
    rewrite <- Hid in H2. rewrite <- H2, Hfed, <- !app_assoc. done.
Qed.

(** C1: what is written into a stream at one end of a connection is what is
    read from it at the other.  Two sessions of different roles serve the same
    connection; whatever their callers, handlers and schedules do, for streams
    of one id at the two ends the bytes [Read] returned at one are, in order, a
    prefix of the bytes [Write] accepted at the other, in both directions; and
    while the sender's write loop and the receiver's [Serve] run and the stream
    is neither finished nor reset, the rest is accounted for: in the receive
    queue, in frames on the connection, in the send queue.  No frame of another
    stream, and no later stream with the same id, ever mixes in. *)
Theorem session_end_to_end ls p r r' st st' :
  cfgRole cfg_a <> cfgRole cfg_b -> pair_run ls pair0 = Some p ->
  objs (sess (world (end_a p))) !! r = Some st -> objs (sess (world (end_b p))) !! r' = Some st' -> sid st = sid st' ->
  conveys (end_a p) (end_b p) (bytes_a (put_step r) (labels_a ls) world0) (bytes_b (got_step r') (labels_b ls) world0) r r'
  /\ conveys (end_b p) (end_a p) (bytes_b (put_step r') (labels_b ls) world0) (bytes_a (got_step r) (labels_a ls) world0) r' r.
Proof.
  intros Hrole Hrun Hr Hr' Hid. destruct (pair_run_ok _ _ _ _ _ _ ls pair0 p Hrole pair0_ok Hrun) as [Oa Ob _ _].
  split; [apply (sides_convey _ _ _ _ _ _ _ _ _ _ _ _ _ _ Oa Ob Hr Hr' Hid)|].
  by apply (sides_convey _ _ _ _ _ _ _ _ _ _ _ _ _ _ Ob Oa Hr' Hr).
Qed.

End Pair.

(** ** A connection in use *)

(** The host opens a stream, the guest's handler accepts it; the host writes
    three times, two of the frames leave it, the guest reads three bytes of the
    first. *)
Definition host_cfg : Config := mkConfig RoleHost false true.
Definition guest_cfg : Config := mkConfig RoleGuest true true.

Definition hello_between : list plabel :=
  [AtA (Call AServe); AtB (Call AServe);
   AtA (Call (AOpen (str "db") [])); AtA (Run 2 ChRun); AtA (Run 2 (ChWrite None));
   AtB (Run 0 (ChRead (Ok (frame_of (MAppOpen (mkAppOpen 1 (str "db") []))))))]
  ++ (AtB <$> [Run 0 ChRun; Run 2 (ChHandler (Ok (7%nat, []))); Run 2 ChRun; Run 2 ChRun; Run 2 (ChWrite None);
               Run 2 ChRun; Run 2 ChRun; Run 2 ChRun])
  ++ (AtA <$> [Run 0 (ChRead (Ok (frame_of (MAppAccept (mkAppAccept 1 [] AppInitialWindow))))); Run 0 ChRun; Run 0 ChRun;
               Run 0 ChRun; Run 2 ChReady; Run 2 ChRun; Run 2 ChRun; Run 2 ChRun; Run 2 ChRun;
               Call (AWrite 0 (str "hello")); Run 4 ChRun; Call (AWrite 0 (str "big")); Run 5 ChRun;
               Call (AWrite 0 (str "world")); Run 6 ChRun;
               Run 3 ChRun; Run 3 ChRun; Run 3 (ChWrite None); Run 3 ChRun; Run 3 ChRun; Run 3 (ChWrite None)])
  ++ (AtB <$> [Run 0 (ChRead (Ok (frame_of (MAppData (mkAppData 1 (str "hello")))))); Run 0 ChRun; Run 0 ChRun;
               Call (ARead 0 3); Run 4 ChRun]).

Definition hello_pair : pair := default pair0 (pair_run plain_q no_exec host_cfg guest_cfg hello_between pair0).

Lemma session_end_to_end_witness :
  let host := end_a hello_pair in
  let guest := end_b hello_pair in
  pair_run plain_q no_exec host_cfg guest_cfg hello_between pair0 = Some hello_pair
  /\ run_bytes guest_cfg plain_q no_exec (got_step 0) (labels_b hello_between) world0 = str "hel"
  /\ inQ (first_obj (world guest)) = [str "lo"] /\ out_bytes 1 (drop (nread guest) (wire host)) = str "big"
  /\ sendQ (first_obj (world host)) = [str "world"]
  /\ run_bytes host_cfg plain_q no_exec (put_step 0) (labels_a hello_between) world0 = str "hel" ++ str "lo" ++ str "big" ++ str "world".
Proof.
  cbn zeta. do 5 (split; [vm_compute; reflexivity|]).
  destruct (session_end_to_end plain_q no_exec host_cfg guest_cfg hello_between hello_pair 0 0
    (first_obj (world (end_a hello_pair))) (first_obj (world (end_b hello_pair)))) as [[_ H] _]; [done|vm_compute; reflexivity..|].
  rewrite (H (first_obj (world (end_a hello_pair))) (first_obj (world (end_b hello_pair))) [IWriteLoop 0; IWgDone] 0%nat); try (vm_compute; reflexivity).
  - by apply (list_elem_of_lookup_2 _ 3); vm_compute.
  - by left.
  - by apply (list_elem_of_lookup_2 _ 0); vm_compute.
Defined.
