(* ===== verification/Bridge.v ===== *)
(** * The endpoint bridge: [protocol/app/bridge.go]

    [Bridge] runs two goroutines, each an [io.Copy] loop followed by its
    clean-up, and then closes the endpoint.  [io.Copy] is its read and write
    loop; that it hands over to an endpoint that implements [io.WriterTo] or
    [io.ReaderFrom] is not modelled.  The machine has one program
    counter per goroutine and a log of every call made on the stream and on the
    endpoint; a label carries what a call returned, so every endpoint and every
    interleaving is covered.  What the stream may answer is what [Stream.Write]
    and [Stream.Read] of Stream.v return. *)
From Stdlib Require Import ZArith Lia.
From stdpp Require Import base list gmap strings.
From S2P Require Import Prelude GoIO Wire Frame Stream.

Open Scope Z_scope.

(** ** [io.Copy] (package io, the loop of [copyBuffer]) *)

Definition copy_buf : Z := 32 * 1024.

Definition errInvalidWrite : error := IOError (str "invalid write result").
Definition ErrShortWrite : error := IOError (str "short write").

(** Where one of the two goroutines is. *)
Inductive pump :=
  | PRead                                    (* in src.Read *)
  | PWrite (buf : bytes) (er : option error) (* in dst.Write(buf), src.Read returned er *)
  | PReset (e : error)                       (* st.Reset(ErrorCodeAppLocalError, e.Error()) *)
  | PCloseWrite                              (* st.CloseWrite() *)
  | PCloseEp                                 (* closeWrite(ep) *)
  | PDone.

(** After [io.Copy] returned [err]: reset on an error other than EOF, then go
    on with [k]. *)
Definition copied (err : option error) (k : pump) : pump :=
  match err with
  | Some e => if errors_Is e io_EOF then k else PReset e
  | None => k
  end.

(** The end of a round: [er] is what [src.Read] returned. *)
Definition copy_round (er : option error) (k : pump) : pump :=
  match er with
  | None => PRead
  | Some e => if bool_decide (e = Sentinel io_EOF) then copied None k else copied (Some e) k
  end.

Definition copy_read (data : bytes) (er : option error) (k : pump) : pump :=
  if 0 <? zlen data then PWrite data er else copy_round er k.

Definition copy_write (buf : bytes) (er : option error) (nw : Z) (ew : option error) (k : pump) : pump :=
  let '(nw, ew) := if (nw <? 0) || (zlen buf <? nw) then (0, Some (default errInvalidWrite ew)) else (nw, ew) in
  match ew with
  | Some e => copied (Some e) k
  | None => if zlen buf =? nw then copy_round er k else copied (Some ErrShortWrite) k
  end.

(** ** The machine *)

Inductive way := Up | Down.  (* endpoint to stream, stream to endpoint *)

Inductive event :=
  | EvRead (w : way) (data : bytes) (er : option error)
  | EvWrite (w : way) (buf : bytes) (nw : Z) (ew : option error)
  | EvReset (w : way) (code : Z) (message : bytes)
  | EvCloseWrite
  | EvEpCloseWrite
  | EvEpClose.

Record bridge := mkBridge { up : pump; down : pump; joined : bool; log : list event }.

Definition bridge0 : bridge := mkBridge PRead PRead false [].

(** What a call returns: of the stream, only what [Stream] returns. *)
Inductive answer := AnsRead (data : bytes) (er : option error) | AnsWrite (nw : Z) (ew : option error) | AnsNone.

(** [Stream.Write]: all of the buffer, or nothing and a stream error. *)
Definition write_result (p : bytes) (dec : write_decision) : Z * option error :=
  match dec with
  | WR_reset (Some (c, m)) => (0, Some (ResetError c m))
  | WR_reset None => (0, None)
  | WR_closed => (0, Some (Sentinel ErrStreamClosed))
  | WR_overflow => (0, Some (ResetError ErrorCodeAppOverflow (str "send queue overflow")))
  | WR_quota => (0, Some (ResetError ErrorCodeAppQuotaExceeded (str "session buffer exceeded")))
  | WR_ok => (zlen p, None)
  end.

(** [Stream.Read], when it returns: data, or nothing and an error. *)
Definition read_result (dec : read_decision) : option (bytes * option error) :=
  match dec with
  | RD_reset (Some (c, m)) => Some ([], Some (ResetError c m))
  | RD_reset None => Some ([], None)
  | RD_data d => Some (d, None)
  | RD_eof => Some ([], Some (Sentinel io_EOF))
  | RD_wait _ => None
  end.

Definition stream_wrote (buf : bytes) (nw : Z) (ew : option error) : bool :=
  match ew with
  | None => nw =? zlen buf
  | Some e => (nw =? 0) && negb (errors_Is e io_EOF)
  end.

Definition stream_read (data : bytes) (er : option error) : bool :=
  match er with
  | None => (0 <? zlen data) && (zlen data <=? copy_buf)
  | Some e => bool_decide (data = []) && (bool_decide (e = Sentinel io_EOF) || negb (errors_Is e io_EOF))
  end.

(** [io.Reader]: at most the buffer. *)
Definition reader_ok (data : bytes) : bool := zlen data <=? copy_buf.

(** [closeWrite(ep)]; [cw]: the endpoint has a CloseWrite method. *)
Definition closeWrite (cw : bool) : event := if cw then EvEpCloseWrite else EvEpClose.

(** One step of a goroutine: its next counter and the call it made.  After the
    copy the first goroutine calls [st.CloseWrite()], the second does not. *)
Definition after_copy (w : way) : pump := match w with Up => PCloseWrite | Down => PCloseEp end.

Definition pump_step (cw : bool) (w : way) (p : pump) (a : answer) : option (pump * event) :=
  match p, a with
  | PRead, AnsRead data er =>
      if (match w with Up => reader_ok data | Down => stream_read data er end)
      then Some (copy_read data er (after_copy w), EvRead w data er) else None
  | PWrite buf er, AnsWrite nw ew =>
      if (match w with Up => stream_wrote buf nw ew | Down => true end)
      then Some (copy_write buf er nw ew (after_copy w), EvWrite w buf nw ew) else None
  | PReset e, AnsNone => Some (after_copy w, EvReset w ErrorCodeAppLocalError (Error e))
  | PCloseWrite, AnsNone => Some (PCloseEp, EvCloseWrite)
  | PCloseEp, AnsNone => Some (PDone, closeWrite cw)
  | _, _ => None
  end.

Inductive blabel := Step (w : way) (a : answer) | Main.

Definition is_done (p : pump) : bool := match p with PDone => true | _ => false end.

(** [Bridge]: the two goroutines, and after [wg.Wait()] the final [ep.Close()]. *)
Definition Bridge_step (cw : bool) (l : blabel) (b : bridge) : option bridge :=
  match l with
  | Step Up a =>
      match pump_step cw Up (up b) a with
      | Some (p, e) => Some (mkBridge p (down b) (joined b) (log b ++ [e]))
      | None => None
      end
  | Step Down a =>
      match pump_step cw Down (down b) a with
      | Some (p, e) => Some (mkBridge (up b) p (joined b) (log b ++ [e]))
      | None => None
      end
  | Main =>
      if is_done (up b) && is_done (down b) && negb (joined b)
      then Some (mkBridge (up b) (down b) true (log b ++ [EvEpClose])) else None
  end.

Fixpoint Bridge_run (cw : bool) (ls : list blabel) (b : bridge) : option bridge :=
  match ls with
  | [] => Some b
  | l :: ls => match Bridge_step cw l b with Some b' => Bridge_run cw ls b' | None => None end
  end.

(** ** What the log says of one direction *)

#[global] Instance way_eq_dec : EqDecision way.
Proof. solve_decision. Defined.

(** Bytes read from the source, and bytes the destination took. *)
Definition read_of (w : way) (e : event) : bytes :=
  match e with EvRead w' d _ => if decide (w = w') then d else [] | _ => [] end.

Definition took (w : way) (e : event) : bytes :=
  match e with
  | EvWrite w' buf nw _ =>
      if decide (w = w') then (if (nw <? 0) || (zlen buf <? nw) then [] else take (Z.to_nat nw) buf) else []
  | _ => []
  end.

Definition taken (w : way) (l : list event) : bytes := concat (read_of w <$> l).
Definition passed (w : way) (l : list event) : bytes := concat (took w <$> l).

Lemma taken_snoc w l e : taken w (l ++ [e]) = taken w l ++ read_of w e.
Proof. unfold taken. rewrite fmap_app, concat_app. simpl. by rewrite app_nil_r. Qed.

Lemma passed_snoc w l e : passed w (l ++ [e]) = passed w l ++ took w e.
Proof. unfold passed. rewrite fmap_app, concat_app. simpl. by rewrite app_nil_r. Qed.

(** How a direction ended. *)
Definition was_reset (w : way) (l : list event) : Prop :=
  exists m, EvReset w ErrorCodeAppLocalError m ∈ l.

Definition saw_EOF (w : way) (l : list event) : Prop :=
  exists d e, EvRead w d (Some e) ∈ l /\ errors_Is e io_EOF = true.

Definition write_EOF (w : way) (l : list event) : Prop :=
  exists buf nw e, EvWrite w buf nw (Some e) ∈ l /\ errors_Is e io_EOF = true.

Definition ended (w : way) (l : list event) : Prop :=
  was_reset w l \/ (taken w l = passed w l /\ saw_EOF w l) \/ (w = Down /\ write_EOF w l).

Definition pump_ok (w : way) (p : pump) (l : list event) : Prop :=
  match p with
  | PRead => taken w l = passed w l
  | PWrite buf er => taken w l = passed w l ++ buf /\ 0 < zlen buf /\ EvRead w buf er ∈ l
  | PReset _ => passed w l `prefix_of` taken w l
  | PCloseWrite => w = Up /\ ended w l /\ passed w l `prefix_of` taken w l
  | PCloseEp | PDone => ended w l /\ passed w l `prefix_of` taken w l
  end.

Lemma pump_ok_prefix w p l : pump_ok w p l -> passed w l `prefix_of` taken w l.
Proof.
  destruct p; cbn; try tauto.
  - by intros ->.
  - intros (-> & _). by apply prefix_app_r.
Qed.

(** A call that moves no bytes of [w] keeps what is known of [w]. *)
Lemma pump_ok_other w p l e :
  read_of w e = [] -> took w e = [] -> pump_ok w p l -> pump_ok w p (l ++ [e]).
Proof.
  intros Hr Ht. pose proof (taken_snoc w l e) as E1. pose proof (passed_snoc w l e) as E2.
  rewrite Hr, app_nil_r in E1. rewrite Ht, app_nil_r in E2.
  assert (forall x, x ∈ l -> x ∈ l ++ [e]) as Hin by (intros; apply elem_of_app; auto).
  assert (ended w l -> ended w (l ++ [e])) as He.
  { unfold ended, was_reset, saw_EOF, write_EOF. rewrite E1, E2.
    intros [(m & ?)|[(? & d & x & ? & ?)|(? & b & n & x & ? & ?)]]; [left|right; left|right; right]; eauto 10. }
  destruct p; cbn; rewrite ?E1, ?E2; try done.
  - intros (? & ? & ?). auto.
  - intros (? & ? & ?). auto.
  - intros [? ?]. auto.
  - intros [? ?]. auto.
Qed.

(** ** One goroutine's step *)

Lemma copied_ok w err l :
  (forall e, err = Some e -> errors_Is e io_EOF = true -> ended w l) -> (err = None -> ended w l) ->
  passed w l `prefix_of` taken w l -> pump_ok w (copied err (after_copy w)) l.
Proof.
  intros He Hn Hp. assert (ended w l -> pump_ok w (after_copy w) l) as Hk by (destruct w; cbn; auto).
  destruct err as [e|]; cbn; [|by auto]. destruct (errors_Is e io_EOF) eqn:E; [|done]. eauto.
Qed.

Lemma copy_round_ok w er d l :
  taken w l = passed w l -> EvRead w d er ∈ l -> pump_ok w (copy_round er (after_copy w)) l.
Proof.
  intros Ht Hin. destruct er as [e|]; [|done]. cbn [copy_round].
  assert (errors_Is e io_EOF = true -> ended w l) as He.
  { intros E. right. left. split; [done|]. exists d, e. done. }
  case_bool_decide as Ee.
  - apply copied_ok; [done| |by rewrite Ht]. intros _. apply He. by subst.
  - apply copied_ok; [|done|by rewrite Ht]. intros e' [= <-]. done.
Qed.

Lemma pump_step_ok cw w p a l p' e :
  pump_ok w p l -> pump_step cw w p a = Some (p', e) -> pump_ok w p' (l ++ [e]).
Proof.
  intros Hp. destruct p as [|buf er|er| | |], a as [data er'|nw ew|]; try done; cbn [pump_step].
  - case_match; [|done]. intros [= <- <-]. cbn in Hp. unfold copy_read.
    assert (EvRead w data er' ∈ l ++ [EvRead w data er']) as Hin by (apply elem_of_app; right; by apply elem_of_cons; left).
    assert (taken w (l ++ [EvRead w data er']) = passed w (l ++ [EvRead w data er']) ++ data) as Et.
    { rewrite taken_snoc, passed_snoc. cbn. rewrite decide_True by done. by rewrite app_nil_r, Hp. }
    destruct (Z.ltb_spec 0 (zlen data)); [done|].
    apply (copy_round_ok w er' data); [|done]. rewrite Et.
    assert (data = []) as -> by (destruct data; [done|rewrite zlen_cons in *; pose proof (zlen_nonneg data); lia]).
    apply app_nil_r.
  - set (ev := EvWrite w buf nw ew). destruct Hp as (Ht & Hb & Hin).
    assert (EvRead w buf er ∈ l ++ [ev]) as Hin' by (apply elem_of_app; by left).
    assert (ev ∈ l ++ [ev]) as Hev by (apply elem_of_app; right; by apply elem_of_cons; left).
    assert (taken w (l ++ [ev]) = passed w l ++ buf) as Et by (rewrite taken_snoc, Ht; cbn; by rewrite app_nil_r).
    assert (passed w (l ++ [ev]) = passed w l ++ took w ev) as Ep by apply passed_snoc.
    assert (passed w (l ++ [ev]) `prefix_of` taken w (l ++ [ev])) as Hpre.
    { rewrite Et, Ep. apply prefix_app. cbn. rewrite decide_True by done. case_match; [apply prefix_nil|].
      rewrite <- (take_drop (Z.to_nat nw) buf) at 2. by apply prefix_app_r. }
    intros Hstep. assert (p' = copy_write buf er nw ew (after_copy w) /\ e = ev
      /\ (w = Up -> stream_wrote buf nw ew = true)) as (-> & -> & Hw).
    { destruct w; [destruct (stream_wrote buf nw ew) eqn:E|]; simplify_eq; done. }
    assert (forall x, ew = Some x -> errors_Is x io_EOF = true -> ended w (l ++ [ev])) as Hend.
    { intros x -> Hx. destruct w; [|right; right; split; [done|by exists buf, nw, x]].
      specialize (Hw eq_refl). cbn in Hw. rewrite Hx, andb_false_r in Hw. done. }
    unfold copy_write. destruct ((nw <? 0) || (zlen buf <? nw)) eqn:Eb.
    + apply copied_ok; [|done|done]. destruct ew as [x|]; cbn; intros y [= <-]; [by apply Hend|done].
    + destruct ew as [x|]; [apply copied_ok; [|done|done]; intros y [= <-]; by apply Hend|].
      destruct (Z.eqb_spec (zlen buf) nw) as [En|En]; [|apply copied_ok; [by intros y [= <-]|done|done]].
      apply (copy_round_ok w er buf); [|done]. rewrite Et, Ep. cbn. rewrite decide_True, Eb by done.
      rewrite take_ge; [done|]. unfold zlen in En. lia.
  - intros [= <- <-]. set (ev := EvReset w _ _). cbn in Hp.
    assert (passed w (l ++ [ev]) `prefix_of` taken w (l ++ [ev])) as Hpre.
    { rewrite taken_snoc, passed_snoc. cbn. by rewrite !app_nil_r. }
    assert (ended w (l ++ [ev])) by (left; eexists; apply elem_of_app; right; by apply elem_of_cons; left).
    destruct w; cbn; auto.
  - intros [= <- <-]. destruct Hp as (-> & Hp). by apply (pump_ok_other Up PCloseEp).
  - intros [= <- <-]. apply (pump_ok_other w PDone); [..|done]; unfold closeWrite; by destruct cw.
Qed.

(** ** The bridge *)

Definition is_CloseWrite (e : event) : nat := match e with EvCloseWrite => 1 | _ => 0 end.
Definition is_EpClose (e : event) : nat := match e with EvEpClose => 1 | _ => 0 end.
Definition is_EpCloseWrite (e : event) : nat := match e with EvEpCloseWrite => 1 | _ => 0 end.

(** The first goroutine has called [st.CloseWrite()]. *)
Definition half_closed (p : pump) : bool := match p with PCloseEp | PDone => true | _ => false end.

Record bridge_ok (cw : bool) (b : bridge) : Prop := {
  b_up : pump_ok Up (up b) (log b);
  b_down : pump_ok Down (down b) (log b);
  b_closed : forall pre post, log b = pre ++ EvCloseWrite :: post -> ended Up pre;
  b_half : tally is_CloseWrite (log b) = b2n (half_closed (up b));
  b_close : tally is_EpClose (log b)
    = ((if cw then 0 else b2n (is_done (up b)) + b2n (is_done (down b))) + b2n (joined b))%nat;
  b_shut : tally is_EpCloseWrite (log b)
    = (if cw then b2n (is_done (up b)) + b2n (is_done (down b)) else 0)%nat;
  b_joined : joined b = true -> is_done (up b) = true /\ is_done (down b) = true
    /\ exists l, log b = l ++ [EvEpClose] }.

Lemma tally_snoc {A} (f : A -> nat) l e : tally f (l ++ [e]) = (tally f l + f e)%nat.
Proof. rewrite tally_app. cbn. lia. Qed.

(** What the two goroutines' counters go through. *)
Lemma copied_shape err k : copied err k = k \/ exists e, copied err k = PReset e.
Proof. destruct err as [e|]; cbn; [case_match|]; eauto. Qed.

Lemma copy_shape w p a p' e cw :
  pump_step cw w p a = Some (p', e) ->
  (p' = PRead \/ (exists b er, p' = PWrite b er) \/ (exists er, p' = PReset er) \/ p' = after_copy w)
    /\ is_done p = false /\ (w = Up -> half_closed p = false)
    /\ is_CloseWrite e = 0%nat /\ is_EpClose e = 0%nat /\ is_EpCloseWrite e = 0%nat
  \/ p = PCloseWrite /\ p' = PCloseEp /\ e = EvCloseWrite
  \/ p = PCloseEp /\ p' = PDone /\ e = closeWrite cw.
Proof.
  assert (forall er k, copy_round er k = PRead \/ copy_round er k = k \/ exists x, copy_round er k = PReset x) as Hround.
  { intros [x|] k; cbn; [|auto]. case_bool_decide; [auto|]. cbn. case_match; eauto. }
  destruct p as [|buf er|er| | |], a as [data er'|nw ew|]; try done; cbn [pump_step]; intros H.
  - left. match type of H with (if ?c then _ else _) = _ => destruct c; [|done] end. simplify_eq. split_and!; try done. unfold copy_read. case_match; [eauto|].
    destruct (Hround er' (after_copy w)) as [->|[->|[x ->]]]; eauto.
  - left. assert (p' = copy_write buf er nw ew (after_copy w) /\ e = EvWrite w buf nw ew) as [-> ->].
    { by destruct w; [destruct (stream_wrote buf nw ew)|]; simplify_eq. }
    split_and!; try done. unfold copy_write. destruct (if (nw <? 0) || (zlen buf <? nw) then _ else _) as [n x].
    destruct x as [x|]; [destruct (copied_shape (Some x) (after_copy w)) as [->|[y ->]]; eauto|].
    destruct (zlen buf =? n); [|destruct (copied_shape (Some ErrShortWrite) (after_copy w)) as [->|[y ->]]; eauto].
    destruct (Hround er (after_copy w)) as [->|[->|[y ->]]]; eauto.
  - left. simplify_eq. split_and!; try done. auto.
  - simplify_eq. auto.
  - simplify_eq. auto.
Qed.

Lemma not_joined b cw : bridge_ok cw b -> is_done (up b) = false \/ is_done (down b) = false -> joined b = false.
Proof. intros [_ _ _ _ _ _ Hj]. destruct (joined b); [|done]. destruct (Hj eq_refl) as (-> & -> & _). by intros [?|?]. Qed.

Lemma closed_snoc l e (P : list event -> Prop) :
  (forall pre post, l = pre ++ EvCloseWrite :: post -> P pre) -> (e = EvCloseWrite -> P l) ->
  forall pre post, l ++ [e] = pre ++ EvCloseWrite :: post -> P pre.
Proof.
  intros Hl He pre post E. induction post as [|x post' _] using rev_ind.
  - apply app_inj_tail in E as [-> ->]. by apply He.
  - rewrite app_comm_cons, app_assoc in E. apply app_inj_tail in E as [-> ->]. by eapply Hl.
Qed.

Lemma up_step_ok cw a b p e :
  bridge_ok cw b -> pump_step cw Up (up b) a = Some (p, e) ->
  bridge_ok cw (mkBridge p (down b) (joined b) (log b ++ [e])).
Proof.
  intros Hok Hs. pose proof Hok as [B1 B2 B3 B4 B5 B6 B7]. pose proof (copy_shape _ _ _ _ _ _ Hs) as Hc.
  assert (is_done (up b) = false) as Hd by (destruct Hc as [(_ & ? & _)|[(-> & _)|(-> & _)]]; done).
  pose proof (not_joined _ _ Hok (or_introl Hd)) as Hj. rewrite Hd in *.
  assert (read_of Down e = [] /\ took Down e = []) as [Hr Ht].
  { clear -Hs. revert Hs. destruct (up b), a; cbn [pump_step]; intros; repeat case_match; simplify_eq; destruct cw; done. }
  constructor; cbn [up down joined log].
  - by apply (pump_step_ok cw Up (up b) a).
  - by apply pump_ok_other.
  - apply closed_snoc; [done|]. intros ->. destruct Hc as [(_ & _ & _ & ? & _)|[(E & _)|(E & _ & Ec)]]; [done| |].
    + rewrite E in B1. apply B1.
    + unfold closeWrite in Ec. by destruct cw.
  - rewrite tally_snoc, B4. destruct Hc as [(Hp & _ & Hh & -> & _)|[(-> & -> & ->)|(-> & -> & ->)]]; [|done|by destruct cw].
    rewrite (Hh eq_refl). destruct Hp as [->|[(? & ? & ->)|[(? & ->)| ->]]]; done.
  - rewrite tally_snoc, B5. destruct Hc as [(Hp & _ & _ & _ & -> & _)|[(_ & -> & ->)|(_ & -> & ->)]];
      [|cbn; lia|destruct cw; cbn; lia].
    destruct Hp as [->|[(? & ? & ->)|[(? & ->)| ->]]]; cbn; lia.
  - rewrite tally_snoc, B6. destruct Hc as [(Hp & _ & _ & _ & _ & ->)|[(_ & -> & ->)|(_ & -> & ->)]];
      [|cbn; lia|destruct cw; cbn; lia].
    destruct Hp as [->|[(? & ? & ->)|[(? & ->)| ->]]]; cbn; lia.
  - by rewrite Hj.
Qed.

Lemma down_step_ok cw a b p e :
  bridge_ok cw b -> pump_step cw Down (down b) a = Some (p, e) ->
  bridge_ok cw (mkBridge (up b) p (joined b) (log b ++ [e])).
Proof.
  intros Hok Hs. pose proof Hok as [B1 B2 B3 B4 B5 B6 B7]. pose proof (copy_shape _ _ _ _ _ _ Hs) as Hc.
  assert (is_done (down b) = false) as Hd by (destruct Hc as [(_ & ? & _)|[(-> & _)|(-> & _)]]; done).
  pose proof (not_joined _ _ Hok (or_intror Hd)) as Hj. rewrite Hd in *.
  assert (read_of Up e = [] /\ took Up e = []) as [Hr Ht].
  { clear -Hs. revert Hs. destruct (down b), a; cbn [pump_step]; intros; repeat case_match; simplify_eq; destruct cw; done. }
  assert (down b <> PCloseWrite) as Hn by (intros E; rewrite E in B2; by destruct B2).
  assert (is_CloseWrite e = 0%nat) as Hcw.
  { destruct Hc as [(_ & _ & _ & ? & _)|[(? & _)|(_ & _ & ->)]]; [done..|]. by destruct cw. }
  constructor; cbn [up down joined log].
  - by apply pump_ok_other.
  - by apply (pump_step_ok cw Down (down b) a).
  - apply closed_snoc; [done|]. by intros ->.
  - rewrite tally_snoc, B4, Hcw. lia.
  - rewrite tally_snoc, B5. destruct Hc as [(Hp & _ & _ & _ & -> & _)|[(? & _)|(_ & -> & ->)]];
      [|done|destruct cw; cbn; lia].
    destruct Hp as [->|[(? & ? & ->)|[(? & ->)| ->]]]; cbn; lia.
  - rewrite tally_snoc, B6. destruct Hc as [(Hp & _ & _ & _ & _ & ->)|[(? & _)|(_ & -> & ->)]];
      [|done|destruct cw; cbn; lia].
    destruct Hp as [->|[(? & ? & ->)|[(? & ->)| ->]]]; cbn; lia.
  - by rewrite Hj.
Qed.

Lemma Bridge_step_ok cw l b b' : bridge_ok cw b -> Bridge_step cw l b = Some b' -> bridge_ok cw b'.
Proof.
  intros Hok. destruct l as [[|] a|]; cbn [Bridge_step].
  - destruct (pump_step cw Up (up b) a) as [[p e]|] eqn:E; [|done]. intros [= <-]. by eapply up_step_ok.
  - destruct (pump_step cw Down (down b) a) as [[p e]|] eqn:E; [|done]. intros [= <-]. by eapply down_step_ok.
  - destruct (is_done (up b)) eqn:Eu, (is_done (down b)) eqn:Ed, (joined b) eqn:Ej; try done. intros [= <-].
    destruct Hok as [B1 B2 B3 B4 B5 B6 B7]. constructor; cbn [up down joined log]; rewrite ?tally_snoc.
    + by apply pump_ok_other.
    + by apply pump_ok_other.
    + by apply closed_snoc.
    + rewrite B4. cbn. lia.
    + rewrite B5, Eu, Ed, Ej. destruct cw; done.
    + rewrite B6. cbn. lia.
    + eauto.
Qed.

Lemma Bridge_run_ok cw ls b b' : bridge_ok cw b -> Bridge_run cw ls b = Some b' -> bridge_ok cw b'.
Proof.
  revert b; induction ls as [|l ls IH]; intros b Hok; cbn; [by intros [= <-]|].
  destruct (Bridge_step cw l b) as [b1|] eqn:E; [|done]. apply IH. by eapply Bridge_step_ok.
Qed.

Lemma Bridge_run_app cw ls ls' b b' :
  Bridge_run cw ls b = Some b' -> Bridge_run cw (ls ++ ls') b = Bridge_run cw ls' b'.
Proof.
  revert b; induction ls as [|l ls IH]; intros b; cbn; [by intros [= <-]|].
  destruct (Bridge_step cw l b) as [b1|]; [apply IH|done].
Qed.

Lemma bridge0_ok cw : bridge_ok cw bridge0.
Proof. constructor; try done; [|by destruct cw..]. intros [] ? ?; done. Qed.

(** ** What the stream answers *)

Lemma Write_answer p b st : stream_wf st ->
  let '(nw, ew) := write_result p (Write_locked p b st).1 in stream_wrote p nw ew = true.
Proof.
  intros W. unfold Write_locked. destruct (reset st) eqn:Er.
  - apply (wf_reset _ W) in Er as [[c m] ->]. done.
  - destruct (_ || _); [done|]. destruct (_ <? _); [done|]. destruct b; cbn; [lia|done].
Qed.

Lemma Read_answer st d er : stream_wf st ->
  read_result (Read_locked copy_buf st).1 = Some (d, er) -> stream_read d er = true.
Proof.
  intros W. destruct (Read_locked copy_buf st) as [dec st'] eqn:E. cbn [fst].
  destruct dec as [e|x| |seen]; cbn; intros H; simplify_eq.
  - assert (reset st = true /\ e = resetErr st) as [Hr ->] by (unfold Read_locked in E; repeat case_match; by simplify_eq).
    apply (wf_reset _ W) in Hr as [[c m] Hr]. rewrite Hr in H. by simplify_eq.
  - apply Read_data in E as (_ & Hd & _); [|apply wf_inQ, W|done]. unfold stream_read, copy_buf in *. lia.
  - done.
Qed.

(** ** Theorems *)

(** C15: the bridge never shows the peer an ambiguous EOF.  Whenever
    [st.CloseWrite()] is called, either the endpoint had reported EOF and
    every byte read from it had been written to the stream before, or the
    stream had been reset with APP_LOCAL_ERROR before; and in both
    directions, at any time, what the destination took is a prefix of what was
    read from the source, in order.  For every endpoint, whatever its reads
    and writes return, and every interleaving of the two goroutines. *)
Theorem bridge_no_ambiguous_EOF (cw : bool) (ls : list blabel) (b : bridge)
    (H : Bridge_run cw ls bridge0 = Some b) :
  (forall pre post, log b = pre ++ EvCloseWrite :: post ->
     was_reset Up pre \/ (taken Up pre = passed Up pre /\ saw_EOF Up pre))
  /\ (forall w, passed w (log b) `prefix_of` taken w (log b)).
Proof.
  apply (Bridge_run_ok cw ls bridge0 b (bridge0_ok cw)) in H as [B1 B2 B3 B4 B5 B6 B7]. split.
  - intros pre post E. destruct (B3 pre post E) as [?|[?|[? _]]]; auto. done.
  - intros []; [by apply (pump_ok_prefix Up (up b))|by apply (pump_ok_prefix Down (down b))].
Qed.

(** The endpoint sends "ab" and then EOF; the peer has nothing to say. *)
Definition quiet_peer : list blabel :=
  [Step Up (AnsRead (str "ab") None); Step Up (AnsWrite 2 None); Step Up (AnsRead [] (Some (Sentinel io_EOF)));
   Step Up AnsNone; Step Up AnsNone; Step Down (AnsRead [] (Some (Sentinel io_EOF))); Step Down AnsNone; Main].

Definition quiet_log : list event :=
  [EvRead Up (str "ab") None; EvWrite Up (str "ab") 2 None; EvRead Up [] (Some (Sentinel io_EOF)); EvCloseWrite;
   EvEpCloseWrite; EvRead Down [] (Some (Sentinel io_EOF)); EvEpCloseWrite; EvEpClose].

Lemma bridge_no_ambiguous_EOF_witness :
  Bridge_run true quiet_peer bridge0 = Some (mkBridge PDone PDone true quiet_log)
  /\ (was_reset Up (take 3 quiet_log) \/ (taken Up (take 3 quiet_log) = passed Up (take 3 quiet_log) /\ saw_EOF Up (take 3 quiet_log))).
Proof.
  assert (Bridge_run true quiet_peer bridge0 = Some (mkBridge PDone PDone true quiet_log)) as E by (vm_compute; reflexivity).
  split; [exact E|].
  apply (bridge_no_ambiguous_EOF true quiet_peer _ E) with (drop 4 quiet_log). reflexivity.
Defined.

(** What [Bridge] leaves behind when it returns: both goroutines have
    ended, the stream's local direction was closed exactly once, and the last
    call is [ep.Close()].  An endpoint with CloseWrite gets it from both
    goroutines and is closed once; one without is closed three times.
    Each direction has ended in EOF with every byte passed on, in a
    reset of the stream, or (towards the endpoint only) in a write error that
    wraps io.EOF, which is the one failure that is not reported to the peer. *)
Theorem bridge_returns_clean (cw : bool) (ls : list blabel) (b : bridge)
    (H : Bridge_run cw ls bridge0 = Some b) (Hj : joined b = true) :
  up b = PDone /\ down b = PDone
  /\ tally is_CloseWrite (log b) = 1%nat
  /\ tally is_EpClose (log b) = (if cw then 1 else 3)%nat
  /\ tally is_EpCloseWrite (log b) = (if cw then 2 else 0)%nat
  /\ (exists l, log b = l ++ [EvEpClose])
  /\ ended Up (log b) /\ ended Down (log b).
Proof.
  apply (Bridge_run_ok cw ls bridge0 b (bridge0_ok cw)) in H as [B1 B2 B3 B4 B5 B6 B7].
  destruct (B7 Hj) as (Hu & Hd & Hl). destruct (up b), (down b); try done. rewrite B4, B5, B6, Hj.
  split_and!; try done; try (by destruct cw); [apply B1|apply B2].
Qed.

Lemma bridge_returns_clean_witness :
  Bridge_run true quiet_peer bridge0 = Some (mkBridge PDone PDone true quiet_log)
  /\ tally is_CloseWrite quiet_log = 1%nat.
Proof.
  assert (Bridge_run true quiet_peer bridge0 = Some (mkBridge PDone PDone true quiet_log)) as E by (vm_compute; reflexivity).
  split; [exact E|]. apply (bridge_returns_clean true quiet_peer _ E eq_refl).
Defined.

(** ** The endpoint after its write side is closed *)

(** What a connection or a file does once it is shut for writing: a write takes
    nothing and fails, with an error other than EOF. *)
Definition refuses (e : event) : Prop :=
  match e with
  | EvWrite Down _ nw ew => nw = 0 /\ exists x, ew = Some x /\ errors_Is x io_EOF = false
  | _ => True
  end.

(** The second goroutine, and the calls made since: bytes it took can only end
    in a reset. *)
Definition cut_ok (p : pump) (l : list event) : Prop :=
  match p with
  | PRead => taken Down l = []
  | PCloseWrite | PCloseEp | PDone => taken Down l = [] \/ was_reset Down l
  | _ => True
  end.

Lemma was_reset_snoc w l e : was_reset w l -> was_reset w (l ++ [e]).
Proof. intros [m H]. exists m. apply elem_of_app. by left. Qed.

Lemma cut_ok_other p l e : read_of Down e = [] -> cut_ok p l -> cut_ok p (l ++ [e]).
Proof.
  intros He. pose proof (taken_snoc Down l e) as E. rewrite He, app_nil_r in E.
  destruct p; cbn; rewrite ?E; try done; (intros [?|?]; [by left|right; by apply was_reset_snoc]).
Qed.

Lemma cut_ok_round er l : taken Down l = [] -> cut_ok (copy_round er PCloseEp) l.
Proof. intros Ht. unfold copy_round, copied. repeat case_match; cbn; auto. Qed.

Lemma down_step_cut cw p a l p' e : cut_ok p l -> pump_step cw Down p a = Some (p', e) -> refuses e ->
  cut_ok p' (l ++ [e]) /\ took Down e = [].
Proof.
  destruct p as [|buf er|er| | |], a as [data er'|nw ew|]; try done; cbn [pump_step after_copy]; intros Hc H Hr.
  - destruct (stream_read data er'); [|done]. injection H as <- <-. split; [|done]. unfold copy_read.
    destruct (Z.ltb_spec 0 (zlen data)) as [|Hz]; [done|].
    assert (data = []) as -> by (destruct data; [done|rewrite zlen_cons in *; pose proof (zlen_nonneg data); lia]).
    apply cut_ok_round. by rewrite taken_snoc, Hc.
  - injection H as <- <-. destruct Hr as (-> & x & -> & Hx). pose proof (zlen_nonneg buf).
    unfold copy_write, took. rewrite decide_True by done. replace (zlen buf <? 0) with false by lia. cbn. by rewrite Hx.
  - injection H as <- <-. split; [|done]. right. eexists. apply elem_of_app. right. by apply elem_of_cons; left.
  - injection H as <- <-. split; [|done]. by apply (cut_ok_other PCloseEp).
  - injection H as <- <-. split; [|by destruct cw].
    apply (cut_ok_other PDone); [by destruct cw|exact Hc].
Qed.

Lemma up_step_cut cw p a p' e : pump_step cw Up p a = Some (p', e) -> read_of Down e = [] /\ took Down e = [].
Proof. destruct p, a; cbn [pump_step]; intros; repeat case_match; simplify_eq; destruct cw; done. Qed.

(** Every step makes one call. *)
Lemma Bridge_step_log cw lb b b' : Bridge_step cw lb b = Some b' -> exists e, log b' = log b ++ [e] /\
  forall l, refuses e -> cut_ok (down b) l -> cut_ok (down b') (l ++ [e]) /\ took Down e = [].
Proof.
  intros E. destruct lb as [[|] a|]; cbn [Bridge_step] in E.
  - destruct (pump_step cw Up (up b) a) as [[p e]|] eqn:Es; [|done]. injection E as <-. exists e. split; [done|].
    intros l _ Hc. apply up_step_cut in Es as [H1 H2]. split; [by apply cut_ok_other|done].
  - destruct (pump_step cw Down (down b) a) as [[p e]|] eqn:Es; [|done]. injection E as <-. exists e. split; [done|].
    intros l Hr Hc. by apply (down_step_cut cw (down b) a).
  - case_match; [|done]. injection E as <-. eexists. split; [done|]. intros l _ Hc. split; [by apply cut_ok_other|done].
Qed.

Lemma Bridge_run_log cw ls : forall b b', Bridge_run cw ls b = Some b' -> exists seg, log b' = log b ++ seg /\
  forall l, Forall refuses seg -> cut_ok (down b) l -> cut_ok (down b') (l ++ seg) /\ passed Down seg = [].
Proof.
  induction ls as [|lb ls IH]; intros b b'; cbn [Bridge_run].
  { intros [= <-]. exists []. rewrite app_nil_r. split; [done|]. intros l. by rewrite app_nil_r. }
  destruct (Bridge_step cw lb b) as [b1|] eqn:E; [|done]. intros H.
  destruct (Bridge_step_log cw lb b b1 E) as (e & El & He). destruct (IH b1 b' H) as (seg & Es & Hseg).
  exists (e :: seg). split; [by rewrite Es, El, <- app_assoc|]. intros l [Hr Hrs]%Forall_cons Hc.
  destruct (He l Hr Hc) as [Hc1 Ht]. destruct (Hseg _ Hrs Hc1) as [Hc2 Hp]. rewrite <- app_assoc in Hc2. split; [done|].
  unfold passed in *. cbn. by rewrite Ht, Hp.
Qed.

(** The first goroutine at the end of the endpoint's data. *)
Definition half_close : list blabel :=
  [Step Up (AnsRead [] (Some (Sentinel io_EOF))); Step Up AnsNone; Step Up AnsNone].

(** C36: a half-closed endpoint cannot receive the answer.  In any reachable
    state, when the endpoint's read side reports EOF the first goroutine closes
    the endpoint's write side too (all of it, when it has no CloseWrite), with
    the second goroutine wherever it is.  With an endpoint that refuses writes
    once that is done: in every continuation nothing more is delivered to it,
    and if the peer answers, that is, if the second goroutine reads any byte
    from the stream from then on, the stream has been reset with
    APP_LOCAL_ERROR by the time [Bridge] returns, though nobody failed. *)
Theorem reply_after_half_close_is_cut (cw : bool) (ls : list blabel) (b0 : bridge)
    (H : Bridge_run cw ls bridge0 = Some b0) (Hu : up b0 = PRead) :
  exists b1, Bridge_run cw half_close b0 = Some b1 /\ down b1 = down b0
    /\ log b1 = log b0 ++ [EvRead Up [] (Some (Sentinel io_EOF)); EvCloseWrite; closeWrite cw]
    /\ forall ls' b post, Bridge_run cw ls' b1 = Some b -> log b = log b1 ++ post -> Forall refuses post ->
         passed Down (log b) = passed Down (log b0)
         /\ (joined b = true -> taken Down post <> [] -> was_reset Down post).
Proof.
  set (b1 := mkBridge PDone (down b0) (joined b0)
    (log b0 ++ [EvRead Up [] (Some (Sentinel io_EOF)); EvCloseWrite; closeWrite cw])).
  assert (Bridge_run cw half_close b0 = Some b1) as H1.
  { destruct b0 as [u d j l]. cbn in Hu. subst u. unfold b1. cbn [down joined log].
    change (Bridge_run cw half_close (mkBridge PRead d j l)) with
      (Some (mkBridge PDone d j (((l ++ [EvRead Up [] (Some (Sentinel io_EOF))]) ++ [EvCloseWrite]) ++ [closeWrite cw]))).
    by rewrite <- !app_assoc. }
  exists b1. split_and!; [done..|]. intros ls' b post H2 El Hep.
  assert (bridge_ok cw b) as Hok.
  { apply (Bridge_run_ok cw ls' b1); [|done]. apply (Bridge_run_ok cw half_close b0); [|done].
    by apply (Bridge_run_ok cw ls bridge0); [apply bridge0_ok|]. }
  destruct (Bridge_run_log cw ls' b1 b H2) as (seg & Es & Hseg). rewrite El in Es. apply app_inv_head in Es as <-.
  destruct (Hseg [] Hep) as [Hc Hp]; [by destruct (down b1); cbn; auto|]. cbn [app] in Hc. split.
  - rewrite El. unfold passed in *. cbn [b1 log]. rewrite !fmap_app, !concat_app, Hp. by destruct cw; cbn; rewrite !app_nil_r.
  - intros Hj Ht. destruct (b_joined _ _ Hok Hj) as (_ & Hd & _). destruct (down b); try done. by destruct Hc.
Qed.

(** The peer answers afterwards. *)
Definition reply_run : list blabel :=
  [Step Down (AnsRead (str "answer") None); Step Down (AnsWrite 0 (Some (IOError (str "broken pipe")))); Step Down AnsNone;
   Step Down AnsNone; Main].

Lemma reply_after_half_close_is_cut_witness :
  exists b1 b post, Bridge_run true half_close bridge0 = Some b1 /\ Bridge_run true reply_run b1 = Some b
    /\ log b = log b1 ++ post /\ joined b = true /\ taken Down post = str "answer" /\ passed Down (log b) = []
    /\ was_reset Down post.
Proof.
  destruct (reply_after_half_close_is_cut true [] bridge0 eq_refl eq_refl) as (b1 & E1 & _ & _ & H).
  destruct (Bridge_run true reply_run b1) as [b|] eqn:E2.
  2:{ vm_compute in E1. injection E1 as <-. vm_compute in E2. discriminate E2. }
  exists b1, b, (drop 3 (log b)). split; [exact E1|]. split; [exact E2|].
  specialize (H reply_run b (drop 3 (log b)) E2).
  vm_compute in E1. injection E1 as Eb1. rewrite <- Eb1 in E2. vm_compute in E2. injection E2 as Eb.
  assert (log b = log b1 ++ drop 3 (log b)) as El by (rewrite <- Eb, <- Eb1; reflexivity).
  destruct (H El) as [H1 H2].
  { rewrite <- Eb. repeat (apply Forall_cons_2); try exact I; [|apply Forall_nil_2].
    split; [reflexivity|]. eexists. split; reflexivity. }
  split; [exact El|]. split; [rewrite <- Eb; reflexivity|]. split; [rewrite <- Eb; reflexivity|].
  split; [exact H1|]. apply H2; rewrite <- Eb; [reflexivity|discriminate].
Defined.
