(* ===== verification/Tunnel.v ===== *)
(** * Endpoint to endpoint

    [Bridge.v] drives a stream with calls whose answers it takes from the
    environment; here the calls are calls of the session of [Session.v], and
    their answers what the session's goroutines return.  The first part follows
    one call through the session: from the goroutine it starts, through waiting,
    to its result.  The second puts a bridge on each of the two sessions of
    [SessionPair.v] and shows what one endpoint is given by the other. *)
From Stdlib Require Import ZArith Lia.
From stdpp Require Import base list gmap strings.
From S2P Require Import Prelude GoIO Wire Frame Codec MsgApp Exec Registry Stream Session SessionInv Ledger SessionFifo SessionRecv SessionPair Bridge.

Open Scope Z_scope.

(** ** Steps and calls *)

(** The call a step belongs to. *)
Definition call_id (i : instr) : option nat :=
  match i with
  | IServe c | IWatch c | IOpen c _ _ | IOpenSelect c _ | IOpenResult c _ | IWrite c _ _ | IRead c _ _ | IReadWait c _ _ _
  | ICloseWrite c _ | IReturn c _ | ISend _ (EOpen c _) | ISend _ (ECloseWrite c) => Some c
  | _ => None
  end.

(** The direction and the stream a step moves bytes of. *)
Definition moves (i : instr) : option (way * nat) :=
  match i with
  | IWrite _ r _ => Some (Up, r)
  | IRead _ r _ | IReadWait _ r _ _ => Some (Down, r)
  | _ => None
  end.

(** What a step leads to belongs to the same call and moves the same stream. *)
Definition from (i j : instr) : Prop := (call_id j = None \/ call_id j = call_id i) /\ (moves j = None \/ moves j = moves i).

Ltac all_from := repeat first [apply Forall_nil_2 | apply Forall_cons_2; [first [apply Forall_nil_2 | by split; auto | all_from]|]].

Section Calls.

Context (cfg : Config) (fmt_q : bytes -> bytes) (ExecCmd_UnmarshalBinary : bytes -> result ExecCmd).

Abbreviation step_instr := (step_instr cfg fmt_q ExecCmd_UnmarshalBinary).
Abbreviation exec := (exec cfg fmt_q ExecCmd_UnmarshalBinary).

Lemma Serve_from call c s pr : Serve ExecCmd_UnmarshalBinary call c s = Some pr ->
  Forall (from (IServe call)) (pushed pr) /\ Forall (Forall (from (IServe call))) (spawned pr).
Proof.
  unfold Serve, handleFrame. intros H. repeat case_match; simplify_eq; cbn; split; all_from.
Qed.

Lemma step_from i c s pr : step_instr i c s = Some pr ->
  Forall (from i) (pushed pr) /\ Forall (Forall (from i)) (spawned pr).
Proof.
  assert (forall r f, on_obj r s f = Some pr -> exists st, objs s !! r = Some st /\ pr = f st s) as Hobj.
  { intros r f. unfold on_obj. destruct (objs s !! r) as [st|]; intros; simplify_eq; eauto. }
  destruct i; cbn [Session.step_instr]; try (by apply Serve_from); destruct c; try done; intros H;
    try (apply Hobj in H as (st & Hr & ->)).
  all: try (by simplify_eq; split; all_from).
  all: try (by simplify_eq; unfold on_id, accept_locked, reject_locked, closeReady, remoteClose, addCredit, setReset, maybeFinish,
    markOpened, closeEndpoint, detach, detach_bytes, finish, Open, Open_result, CloseWrite, Stream_Read, Stream_Write, writeLoop,
    startWriteLoop, Session_fail, acceptOpen, acceptOpen_ready, handleAccept, handleOpen, deliver, Open_select in *;
    repeat case_match; simplify_eq; split; all_from).
  destruct (streams s !! accept_StreamID m) as [r|]; [|by simplify_eq; split; all_from].
  apply Hobj in H as (st & Hr & ->). unfold handleAccept. repeat case_match; split; all_from.
Qed.

(** Only [IReturn] adds a result. *)
Lemma step_returned i c s pr : step_instr i c s = Some pr ->
  returned (after pr) = returned s
  \/ exists call o, i = IReturn call o /\ pr = next [] (with_returned (returned s ++ [(call, o)]) s).
Proof.
  assert (forall r f, on_obj r s f = Some pr -> exists st, objs s !! r = Some st /\ pr = f st s) as Hobj.
  { intros r f. unfold on_obj. destruct (objs s !! r) as [st|]; intros; simplify_eq; eauto. }
  destruct i; cbn [Session.step_instr]; try (by unfold Serve; intros H; left; repeat case_match; simplify_eq);
    destruct c; try done; intros H; try (apply Hobj in H as (st & Hr & ->)).
  all: try (by simplify_eq; left).
  all: try (left; unfold deliver; destruct (if deliver_needs_buffer _ _ then _ else _) as [b s1] eqn:E;
    unfold reserveBuffer in E; repeat case_match; by simplify_eq).
  all: try (left; unfold Stream_Write; case_match; [done|]; destruct (if write_needs_buffer _ _ then _ else _) as [b s1] eqn:E;
    unfold reserveBuffer in E; repeat case_match; by simplify_eq).
  all: try (left; simplify_eq; unfold on_id, accept_locked, reject_locked, closeReady, remoteClose, addCredit, setReset, maybeFinish,
    markOpened, closeEndpoint, detach, detach_bytes, finish, Open, Open_result, CloseWrite, Stream_Read, writeLoop, releaseBuffer, sendError,
    startWriteLoop, Session_fail, acceptOpen, acceptOpen_ready, handleAccept, handleOpen, Open_select in *;
    repeat case_match; by simplify_eq).
  - left. destruct (streams s !! accept_StreamID m) as [r|]; [|by simplify_eq].
    apply Hobj in H as (st & Hr & ->). unfold handleAccept. by repeat case_match.
  - right. simplify_eq. by eexists _, _.
Qed.

Lemma exec_from i rest c s g gs s' : exec i rest c s = Some (g, gs, s') ->
  (exists pre suf, g = pre ++ suf /\ (suf = rest \/ suf = []) /\ Forall (from i) pre) /\ Forall (Forall (from i)) gs
  /\ (returned s' = returned s
      \/ exists call o, i = IReturn call o /\ g = rest /\ gs = [] /\ returned s' = returned s ++ [(call, o)]).
Proof.
  intros [(m & k & w & -> & -> & E & ->)|(pr & E & -> & -> & ->)]%exec_cases.
  - split_and!; [|constructor|left; unfold sendApp in E; repeat case_match; by simplify_eq].
    unfold sendApp in E. assert (g = rest \/ exists e, g = on_error k e rest) as [->|[e ->]] by (repeat case_match; simplify_eq; eauto).
    + exists [], rest. split_and!; auto.
    + destruct k; cbn [on_error]; [exists [], rest|exists [IFail], rest|eexists _, []; rewrite app_nil_r..]; split_and!; auto; all_from.
  - destruct (step_from i c s pr E) as [Hp Hs]. split; [exists (pushed pr), rest; auto|]. split; [done|].
    destruct (step_returned i c s pr E) as [?|(call & o & -> & ->)]; [by left|]. right. by exists call, o.
Qed.

(** ** Steps that move bytes *)

Definition moved_step (w : way) (r : nat) : instr -> Session -> bytes := match w with Up => put_step r | Down => got_step r end.

Definition buffer (i : instr) : bytes := match i with IWrite _ _ p => p | _ => [] end.

(** The bytes a result stands for. *)
Definition carried (w : way) (buf : bytes) (o : outcome) : bytes :=
  match w, o with Up, RCount n => take (Z.to_nat n) buf | Down, RBytes d => d | _, _ => [] end.

Lemma moved_step_other w r i s : moves i <> Some (w, r) -> moved_step w r i s = [].
Proof.
  intros H. destruct w; cbn; unfold put_step, got_step; destruct i; try done; destruct (objs s !! r); try done;
    destruct (Nat.eqb_spec r r0) as [->|]; try done; by destruct H.
Qed.

(** A call goes on waiting, or ends with the bytes its step moved. *)
Definition call_step (w : way) (r call : nat) (i : instr) (s : Session) (todo : list instr) : Prop :=
  exists pre j, todo = pre ++ [j] /\ Forall (fun x => call_id x = None /\ moves x = None) pre /\ call_id j = Some call
  /\ ((w = Down /\ moves j = Some (w, r) /\ moved_step w r i s = [])
      \/ exists o, j = IReturn call o /\ moved_step w r i s = carried w (buffer i) o).

Ltac nothing := repeat first [apply Forall_nil_2 | apply Forall_cons_2; [done|]].

Lemma Write_call_step call r p st s : objs s !! r = Some st -> call_step Up r call (IWrite call r p) s (pushed (Stream_Write call r p st s)).
Proof.
  intros Hr. assert (moved_step Up r (IWrite call r p) s = match pushed (Stream_Write call r p st s) with
    [IReturn _ (RCount n)] => take (Z.to_nat n) p | _ => [] end) as E by (cbn; unfold put_step; by rewrite Hr, Nat.eqb_refl).
  unfold call_step. rewrite E. clear E. unfold Stream_Write. case_match.
  { exists [], (IReturn call (RCount 0)). split_and!; try done. right. by exists (RCount 0). }
  destruct (if write_needs_buffer p st then _ else _) as [b s1]. destruct (Write_locked p b st) as [dec st'].
  destruct dec as [e| | | |]; cbn [pushed next]; unfold resetRemote; cbn [app].
  - exists [], (IReturn call (reset_outcome e)). split_and!; try done. right. eexists; split; [done|]. by destruct e as [[]|].
  - eexists [], _. split_and!; try done. right. by eexists.
  - eexists [_; _; _], _. split_and!; [done|nothing|done|]. right. by eexists.
  - eexists [_; _; _], _. split_and!; [done|nothing|done|]. right. by eexists.
  - eexists [], _. split_and!; try done. right. by eexists.
Qed.

Lemma Read_call_step call r n st s i : objs s !! r = Some st -> i = IRead call r n \/ (exists seen, i = IReadWait call r n seen) ->
  call_step Down r call i s (pushed (Stream_Read call r n st s)).
Proof.
  intros Hr Hi. assert (moved_step Down r i s = read_bytes (Stream_Read call r n st s)) as E
    by (destruct Hi as [->|[seen ->]]; cbn; by rewrite Hr, Nat.eqb_refl).
  unfold call_step. rewrite E. clear E Hi. unfold Stream_Read. case_match.
  { exists [], (IReturn call (RBytes [])). split_and!; try done. right. by exists (RBytes []). }
  destruct (Read_locked n st) as [dec st']. destruct dec as [e|d| |seen]; unfold read_bytes; cbn [pushed next].
  - exists [], (IReturn call (reset_outcome e)). split_and!; try done. right. eexists; split; [done|]. by destruct e as [[]|].
  - eexists [_; _], _. split_and!; [done|nothing|done|]. right. by eexists.
  - eexists [_], _. split_and!; [done|nothing|done|]. right. by eexists.
  - eexists [], _. split_and!; try done. by left.
Qed.

Lemma exec_moves w r call i rest c s g gs s' : exec i rest c s = Some (g, gs, s') -> moves i = Some (w, r) -> call_id i = Some call ->
  gs = [] /\ exists todo, g = todo ++ rest /\ call_step w r call i s todo.
Proof.
  intros [(m & k & x & -> & _)|(pr & E & -> & -> & _)]%exec_cases Hm Hc; [done|]. destruct i; try done; cbn in Hm, Hc; simplify_eq;
    cbn [Session.step_instr] in E; destruct c; try done.
  - unfold on_obj in E. destruct (objs s !! r) as [st|] eqn:Hr; [|done]. simplify_eq. split; [|eexists; split; [done|by apply Write_call_step]].
    unfold Stream_Write. by repeat case_match.
  - unfold on_obj in E. destruct (objs s !! r) as [st|] eqn:Hr; [|done]. simplify_eq.
    split; [unfold Stream_Read; by repeat case_match|]. eexists. split; [done|]. by apply Read_call_step; auto.
  - destruct (objs s !! r) as [st|] eqn:Hr; [|done]. case_match; [|done]. simplify_eq.
    split; [unfold Stream_Read; by repeat case_match|]. eexists. split; [done|]. by apply Read_call_step; eauto.
Qed.

(** ** Following a call *)

(** Calls are numbered as they are made. *)
Record named (wd : World) : Prop := {
  nm_pool : Forall (Forall (fun i => forall c, call_id i = Some c -> (c < calls wd)%nat)) (pool wd);
  nm_returned : forall c o, (c, o) ∈ returned (sess wd) -> (c < calls wd)%nat }.

Lemma call_stack_id call a s gs : call_stack call a s = Some gs ->
  Forall (Forall (fun i => forall c, call_id i = Some c -> c = call)) gs.
Proof.
  intros H. destruct a; cbn in H; unfold Stream_Reset, resetRemote in H; repeat case_match; simplify_eq; cbn [app];
    repeat (apply Forall_cons_2 || apply Forall_nil_2 || (intros ? [= <-]; done) || done).
Qed.

Lemma Forall_pool {A} (P : list A -> Prop) p t new gs : Forall P p -> P new -> Forall P gs -> Forall P (<[t := new]> p ++ gs).
Proof. intros Hp Hn Hgs. apply Forall_app. split; [by apply Forall_insert|done]. Qed.

Lemma Forall_both {A} (P Q : A -> Prop) l : Forall P l -> Forall Q l -> Forall (fun x => P x /\ Q x) l.
Proof. induction 1; inversion 1; subst; constructor; auto. Qed.

(** The stack after a step: what the step leads to, then what was there. *)
Lemma stack_from (P : instr -> Prop) i rest g :
  (exists pre suf, g = pre ++ suf /\ (suf = rest \/ suf = []) /\ Forall (from i) pre) ->
  Forall P (i :: rest) -> (forall j, from i j -> P j) -> Forall P g.
Proof.
  intros (pre & suf & -> & Hs & Hp) [_ Hr]%Forall_cons HP. apply Forall_app. split; [by eapply Forall_impl|by destruct Hs as [-> | ->]].
Qed.

Lemma named_step l wd wd' : named wd -> step cfg fmt_q ExecCmd_UnmarshalBinary l wd = Some wd' -> named wd'.
Proof.
  intros [N1 N2] H. destruct l as [t c|a]; cbn [step] in H.
  - destruct (pool wd !! t) as [[|i rest]|] eqn:Ht; [done| |done]. destruct (exec i rest c (sess wd)) as [[[g gs] s]|] eqn:E; [|done].
    simplify_eq. destruct (exec_from _ _ _ _ _ _ _ E) as (Hg & Hgs & Hret). pose proof (Forall_lookup_1 _ _ _ _ N1 Ht) as Hi.
    assert (forall j, from i j -> forall x, call_id j = Some x -> (x < calls wd)%nat) as Hfrom.
    { intros j [[Hj|Hj] _] x Hx; [congruence|]. apply Forall_cons in Hi as [Hi _]. apply Hi. congruence. }
    constructor; cbn [pool sess calls].
    + apply Forall_pool; [done|by eapply stack_from|]. eapply Forall_impl; [exact Hgs|]. intros g' Hg'. by eapply Forall_impl.
    + intros x o Hx. destruct Hret as [Er|(call & o' & -> & _ & _ & Er)]; rewrite Er in Hx; [by eapply N2|].
      apply elem_of_app in Hx as [Hx|Hx]; [by eapply N2|]. apply list_elem_of_singleton in Hx as [= -> ->].
      apply Forall_cons in Hi as [Hi _]. by apply Hi.
  - destruct (call_stack (calls wd) a (sess wd)) as [gs|] eqn:E; [|done]. simplify_eq. constructor; cbn [pool sess calls].
    + apply Forall_app. split.
      * eapply Forall_impl; [exact N1|]. intros g Hg. eapply Forall_impl; [exact Hg|]. intros i Hi x Hx. specialize (Hi x Hx). lia.
      * eapply Forall_impl; [by eapply call_stack_id|]. intros g Hg. eapply Forall_impl; [exact Hg|]. intros i Hi x Hx. specialize (Hi x Hx). lia.
    + intros x o Hx. specialize (N2 x o Hx). lia.
Qed.

Definition ours (w : way) (r c : nat) (i : instr) : bool := bool_decide (moves i = Some (w, r)) || bool_decide (call_id i = Some c).

Definition result_of (c : nat) (x : nat * outcome) : nat := b2n (x.1 =? c)%nat.

(** What is known of a step of the call [c], which moves [buf] when writing. *)
Definition call_fact (w : way) (r c : nat) (buf base moved : bytes) (i : instr) : Prop := ours w r c i = true ->
  (moves i = Some (w, r) /\ call_id i = Some c /\ buffer i = buf /\ moved = base)
  \/ exists o, i = IReturn c o /\ moved = base ++ carried w buf o.

(** The bytes moved on stream [r] are those of the calls that are done, [base],
    and what the call under way has moved. *)
Record link (w : way) (r : nat) (pend : option (nat * bytes)) (base moved : bytes) (wd : World) : Prop := {
  lk_base : base `prefix_of` moved;
  lk_more : w = Up -> moved `prefix_of` base ++ default [] (snd <$> pend);
  lk_none : pend = None -> moved = base /\ Forall (Forall (fun i => moves i <> Some (w, r))) (pool wd);
  lk_call : forall c buf, pend = Some (c, buf) -> (c < calls wd)%nat
    /\ (tally_pool (fun i => b2n (ours w r c i)) (pool wd) + tally (result_of c) (returned (sess wd)) <= 1)%nat
    /\ Forall (Forall (call_fact w r c buf base moved)) (pool wd)
    /\ forall o, (c, o) ∈ returned (sess wd) -> moved = base ++ carried w buf o }.

Lemma ours_call w r c i : call_id i = Some c -> ours w r c i = true.
Proof. intros H. unfold ours. rewrite (bool_decide_true (call_id i = Some c)) by done. apply orb_true_r. Qed.

Lemma ours_moves w r c i : moves i = Some (w, r) -> ours w r c i = true.
Proof. intros H. unfold ours. by rewrite bool_decide_true. Qed.

Lemma ours_from w r c i j : from i j -> ours w r c i = false -> ours w r c j = false.
Proof.
  unfold ours. intros [H1 H2]. rewrite !orb_false_iff, !bool_decide_eq_false. intros [N1 N2].
  split; [destruct H2 as [-> | ->]|destruct H1 as [-> | ->]]; done.
Qed.

Abbreviation tok w r c := (fun i => b2n (ours w r c i)).

Lemma no_facts w r c buf base moved g : tally (tok w r c) g = 0%nat -> Forall (call_fact w r c buf base moved) g.
Proof.
  intros H. apply Forall_forall. intros i Hi Ho. pose proof (tally_elem (tok w r c) g i Hi) as H1. cbn in H1. rewrite Ho in H1. cbn in H1. lia.
Qed.

Lemma no_facts_pool w r c buf base moved p : tally_pool (tok w r c) p = 0%nat -> Forall (Forall (call_fact w r c buf base moved)) p.
Proof.
  intros H. apply Forall_forall. intros g Hg. apply no_facts. pose proof (tally_pool_elem (tok w r c) p g Hg). lia.
Qed.

Lemma from_tally w r c i g : ours w r c i = false -> Forall (from i) g -> tally (tok w r c) g = 0%nat.
Proof. intros Hi Hg. apply tally_zero. eapply Forall_impl; [exact Hg|]. intros j Hj. cbn. by rewrite (ours_from _ _ _ i). Qed.

Lemma no_result c l : (forall o, (c, o) ∉ l) -> tally (result_of c) l = 0%nat.
Proof.
  intros H. apply tally_zero, Forall_forall. intros [c' o] Hx. unfold result_of. cbn. destruct (Nat.eqb_spec c' c) as [->|]; [|done].
  by destruct (H o).
Qed.

(** A step of somebody else. *)
Lemma link_other w r c buf base moved i rest e g gs s t wd : link w r (Some (c, buf)) base moved wd -> pool wd !! t = Some (i :: rest) ->
  exec i rest e (sess wd) = Some (g, gs, s) -> ours w r c i = false ->
  link w r (Some (c, buf)) base moved (mkWorld s (<[t := g]> (pool wd) ++ gs) (calls wd)).
Proof.
  intros [L1 L2 _ L4] Ht E Hi. destruct (L4 c buf eq_refl) as (Hc & Htl & Hf & Hr). destruct (exec_from _ _ _ _ _ _ _ E) as (Hg & Hgs & Hret).
  constructor; try done. cbn [pool sess calls]. intros ? ? [= <- <-]. split; [done|]. split; [|split].
  - pose proof (tally_step (tok w r c) (pool wd) t (i :: rest) g gs Ht) as E1. rewrite tally_cons in E1. cbn beta in E1. rewrite Hi in E1.
    assert (tally (tok w r c) g <= tally (tok w r c) rest)%nat as E2.
    { destruct Hg as (pre & suf & -> & Hs & Hp). rewrite tally_app, (from_tally w r c i pre Hi Hp). destruct Hs as [-> | ->]; [lia|].
      change (tally (tok w r c) []) with 0%nat. lia. }
    assert (tally_pool (tok w r c) gs = 0)%nat as E3.
    { apply tally_pool_none. eapply Forall_impl; [exact Hgs|]. intros g'. by apply from_tally. }
    assert (tally (result_of c) (returned s) = tally (result_of c) (returned (sess wd))) as ->; [|cbn in *; lia].
    destruct Hret as [->|(call & o & -> & _ & _ & ->)]; [done|]. rewrite tally_app, tally_cons. unfold result_of at 2. cbn [fst].
    destruct (Nat.eqb_spec call c) as [->|]; [|cbn; lia]. by rewrite ours_call in Hi.
  - assert (forall j, from i j -> call_fact w r c buf base moved j) as Hj.
    { intros j H1%(ours_from w r c) H2; [congruence|done]. }
    apply Forall_pool; [done|eapply stack_from; [done|by eapply Forall_lookup_1|done]|].
    eapply Forall_impl; [exact Hgs|]. intros g' Hg'. by eapply Forall_impl.
  - intros o Ho. destruct Hret as [Er|(call & o' & -> & _ & _ & Er)]; rewrite Er in Ho; [by apply Hr|].
    apply elem_of_app in Ho as [Ho|Ho]; [by apply Hr|]. apply list_elem_of_singleton in Ho as [= <- <-].
    by rewrite ours_call in Hi.
Qed.

(** The call's result is handed to its caller. *)
Lemma link_result w r c buf base moved o rest e g gs s t wd : link w r (Some (c, buf)) base moved wd ->
  pool wd !! t = Some (IReturn c o :: rest) -> exec (IReturn c o) rest e (sess wd) = Some (g, gs, s) ->
  link w r (Some (c, buf)) base moved (mkWorld s (<[t := g]> (pool wd) ++ gs) (calls wd)).
Proof.
  intros [L1 L2 _ L4] Ht E. destruct (L4 c buf eq_refl) as (Hc & Htl & Hf & Hr). destruct e; try done. cbn in E. simplify_eq.
  assert (ours w r c (IReturn c o) = true) as Ho by (by apply ours_call).
  pose proof (Forall_lookup_1 _ _ _ _ Hf Ht) as [H1 H2]%Forall_cons.
  assert (moved = base ++ carried w buf o) as Hm.
  { destruct (H1 Ho) as [(? & _)|(o' & [= <-] & ->)]; done. }
  constructor; try done. cbn [pool sess calls]. intros ? ? [= <- <-]. split; [done|]. split; [|split].
  - pose proof (tally_step (tok w r c) (pool wd) t _ g [] Ht) as E1. rewrite tally_cons in E1. cbn beta in E1. rewrite Ho in E1.
    cbn [returned with_returned]. rewrite tally_app, tally_cons. unfold result_of at 2. cbn [fst]. rewrite Nat.eqb_refl. cbn in *. lia.
  - by apply Forall_pool.
  - cbn [returned with_returned]. intros o' [Ho'|Ho']%elem_of_app; [by apply Hr|]. by apply list_elem_of_singleton in Ho' as [= ->].
Qed.

(** The call's own step. *)
Lemma link_move w r c buf base i rest e g gs s t wd : link w r (Some (c, buf)) base base wd -> pool wd !! t = Some (i :: rest) ->
  moves i = Some (w, r) -> call_id i = Some c -> buffer i = buf -> exec i rest e (sess wd) = Some (g, gs, s) ->
  link w r (Some (c, buf)) base (base ++ moved_step w r i (sess wd)) (mkWorld s (<[t := g]> (pool wd) ++ gs) (calls wd)).
Proof.
  intros [_ _ _ L4] Ht Hm Hci Hb E. destruct (L4 c buf eq_refl) as (Hc & Htl & _ & _).
  destruct (exec_moves w r c _ _ _ _ _ _ _ E Hm Hci) as (-> & todo & -> & pre & j & -> & Hpre & Hj & Hstep).
  destruct (exec_from _ _ _ _ _ _ _ E) as (_ & _ & Hret). assert (returned s = returned (sess wd)) as Er by (by destruct Hret as [?|(? & ? & -> & _)]).
  pose proof (tally_step (tok w r c) (pool wd) t (i :: rest) rest [] Ht) as E1. rewrite tally_cons, app_nil_r in E1. cbn beta in E1.
  rewrite (ours_moves w r c i Hm) in E1. change (tally_pool (tok w r c) []) with 0%nat in E1. cbn [b2n] in E1.
  assert (tally_pool (tok w r c) (<[t := rest]> (pool wd)) = 0 /\ tally (result_of c) (returned (sess wd)) = 0)%nat as [Hz Hzr] by lia.
  assert (t < length (pool wd))%nat as Hlt by (by eapply lookup_lt_Some).
  assert (tally (tok w r c) rest = 0%nat) as Hrest.
  { pose proof (tally_pool_elem (tok w r c) _ rest (list_elem_of_lookup_2 _ t _ (list_lookup_insert_eq (pool wd) t rest Hlt))). lia. }
  constructor; cbn [pool sess calls].
  - by apply prefix_app_r.
  - intros ->. change (default [] (snd <$> Some (c, buf))) with buf. apply prefix_app. destruct Hstep as [(? & _)|(o & _ & ->)]; [done|]. rewrite Hb. destruct o; try apply prefix_nil. cbn.
    rewrite <- (take_drop (Z.to_nat n) buf) at 2. by apply prefix_app_r.
  - done.
  - intros ? ? [= <- <-]. split; [done|]. rewrite app_nil_r, <- (list_insert_insert_eq (pool wd) t _ rest), Er. split; [|split].
    + pose proof (tally_pool_insert (tok w r c) (<[t := rest]> (pool wd)) t rest ((pre ++ [j]) ++ rest) (list_lookup_insert_eq _ _ _ Hlt)) as E2.
      rewrite !tally_app, tally_cons, Hrest in E2. cbn beta in E2. rewrite (ours_call w r c j Hj) in E2.
      assert (tally (tok w r c) pre = 0)%nat as E3.
      { apply tally_zero. eapply Forall_impl; [exact Hpre|]. intros x [H1 H2]. unfold ours. by rewrite H1, H2, !bool_decide_false. }
      change (tally (tok w r c) []) with 0%nat in E2. cbn [b2n] in E2. lia.
    + apply Forall_insert; [by apply no_facts_pool|]. apply Forall_app. split; [|by apply no_facts]. apply Forall_app. split.
      * eapply Forall_impl; [exact Hpre|]. intros x [H1 H2]. unfold call_fact, ours. by rewrite H1, H2, !bool_decide_false.
      * apply Forall_cons_2; [|constructor]. intros _. destruct Hstep as [(-> & Hjm & ->)|(o & -> & ->)].
        -- left. rewrite app_nil_r. split_and!; try done. rewrite <- Hb. by destruct i, j.
        -- right. exists o. by rewrite Hb.
    + intros o Ho. exfalso. pose proof (tally_elem (result_of c) _ _ Ho) as H1. unfold result_of in H1 at 1. cbn [fst] in H1.
      rewrite Nat.eqb_refl in H1. cbn in H1. lia.
Qed.

Lemma link_run w r pend base moved t e wd wd' : link w r pend base moved wd -> step cfg fmt_q ExecCmd_UnmarshalBinary (Run t e) wd = Some wd' ->
  link w r pend base (moved ++ at_label (moved_step w r) (Run t e) wd) wd'.
Proof.
  intros L H. cbn [step at_label] in *. destruct (pool wd !! t) as [[|i rest]|] eqn:Ht; [done| |done].
  destruct (exec i rest e (sess wd)) as [[[g gs] s]|] eqn:E; [|done]. simplify_eq. destruct pend as [[c buf]|].
  - pose proof L as [_ _ _ L4]. destruct (L4 c buf eq_refl) as (_ & _ & Hf & _). pose proof (Forall_lookup_1 _ _ _ _ Hf Ht) as [Hi _]%Forall_cons.
    destruct (ours w r c i) eqn:Ho.
    + destruct (Hi Ho) as [(H1 & H2 & H3 & ->)|(o & -> & _)]; [by eapply link_move|].
      rewrite moved_step_other, app_nil_r by done. by eapply link_result.
    + rewrite moved_step_other, app_nil_r by (intros Hm; by rewrite ours_moves in Ho). by eapply link_other.
  - destruct L as [L1 L2 L3 _]. destruct (L3 eq_refl) as [-> Hf]. destruct (exec_from _ _ _ _ _ _ _ E) as (Hg & Hgs & _).
    pose proof (Forall_lookup_1 _ _ _ _ Hf Ht) as Hi. pose proof Hi as [Hi1 _]%Forall_cons. rewrite moved_step_other, app_nil_r by done.
    assert (forall j, from i j -> moves j <> Some (w, r)) as Hj by (intros j [_ [-> | ->]]; done).
    constructor; try done. intros _. split; [done|]. apply Forall_pool; [done|by eapply stack_from|].
    eapply Forall_impl; [exact Hgs|]. intros g' Hg'. by eapply Forall_impl.
Qed.

(** A call somebody else makes. *)
Lemma link_call w r pend base moved a gs wd : named wd -> link w r pend base moved wd -> call_stack (calls wd) a (sess wd) = Some gs ->
  Forall (Forall (fun i => moves i <> Some (w, r))) gs -> link w r pend base moved (mkWorld (sess wd) (pool wd ++ gs) (S (calls wd))).
Proof.
  intros [N1 N2] [L1 L2 L3 L4] E Hgs. pose proof (call_stack_id _ _ _ _ E) as Hid. constructor; try done; cbn [pool sess calls].
  - intros Hp. destruct (L3 Hp) as [-> Hf]. split; [done|]. by apply Forall_app.
  - intros c buf Hp. destruct (L4 c buf Hp) as (Hc & Htl & Hf & Hr).
    assert (forall i, (forall x, call_id i = Some x -> x = calls wd) -> moves i <> Some (w, r) -> ours w r c i = false) as Hi.
    { intros i H1 H2. unfold ours. rewrite !bool_decide_false; [done| |done]. intros H%H1. lia. }
    assert (tally_pool (tok w r c) gs = 0)%nat as Hz.
    { apply tally_pool_zero. eapply Forall_impl; [exact (Forall_both _ _ _ Hid Hgs)|]. intros g [H1 H2].
      eapply Forall_impl; [exact (Forall_both _ _ _ H1 H2)|]. intros i [? ?]. cbn. by rewrite Hi. }
    split; [lia|]. rewrite tally_pool_app, Hz. split; [lia|]. split; [|done]. apply Forall_app. split; [done|by apply no_facts_pool].
Qed.

Definition transfer (w : way) (r : nat) (buf : bytes) (n : Z) : api := match w with Up => AWrite r buf | Down => ARead r n end.

(** The call is made. *)
Lemma link_start w r base moved buf n gs wd : named wd -> link w r None base moved wd ->
  call_stack (calls wd) (transfer w r buf n) (sess wd) = Some gs -> (w = Down -> buf = []) ->
  link w r (Some (calls wd, buf)) base moved (mkWorld (sess wd) (pool wd ++ gs) (S (calls wd))).
Proof.
  intros [N1 N2] [L1 L2 L3 _] E Hb. destruct (L3 eq_refl) as [-> Hf].
  assert (exists i, gs = [[i]] /\ moves i = Some (w, r) /\ call_id i = Some (calls wd) /\ buffer i = buf) as (i & -> & Hm & Hc & Hbuf).
  { destruct w; cbn in E; repeat case_match; simplify_eq; eexists; split_and!; try done. cbn. by rewrite Hb. }
  assert (tally_pool (tok w r (calls wd)) (pool wd) = 0)%nat as Hz.
  { apply tally_pool_zero. eapply Forall_impl; [exact (Forall_both _ _ _ N1 Hf)|]. intros g [H1 H2].
    eapply Forall_impl; [exact (Forall_both _ _ _ H1 H2)|]. intros j [H3 H4]. unfold ours. rewrite !bool_decide_false; [done| |done].
    intros H%H3. lia. }
  assert (forall o, (calls wd, o) ∉ returned (sess wd)) as Hr by (intros o Ho%N2; lia).
  constructor; try done; cbn [pool sess calls]; [intros _; by apply prefix_app_r|].
  intros ? ? [= <- <-]. split; [lia|]. rewrite tally_pool_app, Hz, no_result by done. split; [|split].
  - unfold tally_pool, tally. cbn. rewrite (ours_moves _ _ _ _ Hm). cbn. lia.
  - apply Forall_app. split; [by apply no_facts_pool|]. apply Forall_cons_2; [|constructor]. apply Forall_cons_2; [|constructor].
    intros _. by left.
  - intros o Ho. by destruct (Hr o).
Qed.

(** The caller has the result. *)
Lemma link_return w r c buf base moved o wd : link w r (Some (c, buf)) base moved wd -> (c, o) ∈ returned (sess wd) ->
  link w r None (base ++ carried w buf o) moved wd.
Proof.
  intros [L1 L2 _ L4] Ho. destruct (L4 c buf eq_refl) as (_ & Htl & _ & Hr). pose proof (tally_elem (result_of c) _ _ Ho) as H1.
  unfold result_of in H1 at 1. cbn [fst] in H1. rewrite Nat.eqb_refl in H1. cbn in H1. rewrite <- (Hr o Ho).
  constructor; try done; [intros _; by apply prefix_app_r|]. intros _. split; [done|]. apply Forall_forall. intros g Hg. apply Forall_forall. intros i Hi Hm.
  pose proof (tally_pool_elem (tok w r c) (pool wd) g Hg). pose proof (tally_elem (tok w r c) g i Hi) as H2. cbn beta in H2.
  rewrite (ours_moves _ _ _ _ Hm) in H2. cbn in H2. lia.
Qed.

End Calls.

(** ** A bridge on a session *)

Record bside := mkBside { host : side; br : bridge; up_call : option nat; down_call : option nat }.

Definition bside0 : bside := mkBside side0 bridge0 None None.

Definition pump_at (w : way) (b : bridge) : pump := match w with Up => up b | Down => down b end.
Definition call_at (w : way) (x : bside) : option nat := match w with Up => up_call x | Down => down_call x end.
Definition set_call (w : way) (c : option nat) (x : bside) : bside :=
  match w with Up => mkBside (host x) (br x) c (down_call x) | Down => mkBside (host x) (br x) (up_call x) c end.
Definition with_host (h : side) (x : bside) : bside := mkBside h (br x) (up_call x) (down_call x).
Definition with_br (b : bridge) (x : bside) : bside := mkBside (host x) b (up_call x) (down_call x).

(** The call of the stream a goroutine of the bridge is about to make; the other
    calls are calls of the endpoint. *)
Definition wants (r : nat) (w : way) (p : pump) : option api :=
  match w, p with
  | Up, PWrite buf _ => Some (AWrite r buf)
  | Down, PRead => Some (ARead r copy_buf)
  | Up, PCloseWrite => Some (ACloseWrite r)
  | _, PReset e => Some (AReset r ErrorCodeAppLocalError (Error e))
  | _, _ => None
  end.

(** What the session returned, as the results of [Read] and [Write]. *)
Definition answer_of (p : pump) (o : outcome) : option answer :=
  match p, o with
  | PRead, RBytes d => Some (AnsRead d None)
  | PRead, RErr e => Some (AnsRead [] (Some e))
  | PRead, RNil => Some (AnsRead [] None)
  | PWrite _ _, RCount n => Some (AnsWrite n None)
  | PWrite _ _, RErr e => Some (AnsWrite 0 (Some e))
  | PWrite _ _, RNil => Some (AnsWrite 0 None)
  | PReset _, _ | PCloseWrite, _ => Some AnsNone
  | _, _ => None
  end.

Definition result_for (c : nat) (l : list (nat * outcome)) : option outcome :=
  head (omap (fun x => if (x.1 =? c)%nat then Some x.2 else None) l).

Lemma result_for_elem c l o : result_for c l = Some o -> (c, o) ∈ l.
Proof.
  unfold result_for. induction l as [|[c' o'] l IH]; [done|]. cbn. destruct (Nat.eqb_spec c' c) as [->|].
  - intros [= ->]. by apply elem_of_cons; left.
  - intros H. apply elem_of_cons; right. by apply IH.
Qed.

(** The session goes on; a goroutine of the bridge calls the stream, gets the
    result of its call, or calls the endpoint; the bridge ends. *)
Inductive tlabel := TSession (l : label) | TCall (w : way) | TReturn (w : way) | TEndpoint (w : way) (a : answer) | TMain.

(** Nobody but the bridge reads or writes its stream. *)
Definition owned (r : nat) (l : label) : bool := match l with Call (AWrite r' _) | Call (ARead r' _) => (r =? r')%nat | _ => false end.

Section Tunnel.

Context (fmt_q : bytes -> bytes) (ExecCmd_UnmarshalBinary : bytes -> result ExecCmd).

Definition bside_step (cfg : Config) (cw : bool) (r : nat) (incoming : list Frame) (l : tlabel) (x : bside) : option bside :=
  match l with
  | TSession l =>
      if owned r l then None
      else h ← side_step fmt_q ExecCmd_UnmarshalBinary cfg incoming l (host x); Some (with_host h x)
  | TCall w =>
      match wants r w (pump_at w (br x)), call_at w x with
      | Some a, None =>
          h ← side_step fmt_q ExecCmd_UnmarshalBinary cfg incoming (Call a) (host x);
          Some (set_call w (Some (calls (world (host x)))) (with_host h x))
      | _, _ => None
      end
  | TReturn w =>
      c ← call_at w x;
      o ← result_for c (returned (sess (world (host x))));
      a ← answer_of (pump_at w (br x)) o;
      b ← Bridge_step cw (Step w a) (br x);
      Some (set_call w None (with_br b x))
  | TEndpoint w a =>
      match wants r w (pump_at w (br x)) with
      | None => b ← Bridge_step cw (Step w a) (br x); Some (with_br b x)
      | Some _ => None
      end
  | TMain => b ← Bridge_step cw Main (br x); Some (with_br b x)
  end.

(** The call that moves bytes, with the bytes it writes. *)
Definition pend_at (w : way) (x : bside) : option (nat * bytes) :=
  match call_at w x, w, pump_at w (br x) with
  | Some c, Up, PWrite buf _ => Some (c, buf)
  | Some c, Down, PRead => Some (c, [])
  | _, _, _ => None
  end.

(** The bytes the bridge has written to the stream, or read from it. *)
Definition settled (w : way) (l : list event) : bytes := match w with Up => passed Up l | Down => taken Down l end.

Record bside_ok (cw : bool) (r : nat) (put got : bytes) (x : bside) : Prop := {
  bk_bridge : bridge_ok cw (br x);
  bk_named : named (world (host x));
  bk_link : forall w, link w r (pend_at w x) (settled w (log (br x))) (match w with Up => put | Down => got end) (world (host x));
  bk_wants : forall w, wants r w (pump_at w (br x)) = None -> call_at w x = None }.

Lemma call_stack_moves call a s gs w r : call_stack call a s = Some gs -> (forall buf n, a <> transfer w r buf n) ->
  Forall (Forall (fun i => moves i <> Some (w, r))) gs.
Proof.
  intros H Ha. destruct a; cbn in H; unfold Stream_Reset, resetRemote in H; repeat case_match; simplify_eq; cbn [app];
    repeat (apply Forall_cons_2 || apply Forall_nil_2 || done).
  - intros [= <- <-]. by destruct (Ha p 0).
  - intros [= <- <-]. by destruct (Ha [] n).
Qed.

(** A step of the session. *)
Lemma bside_session cfg cw r put got l x h : bside_ok cw r put got x -> owned r l = false ->
  step cfg fmt_q ExecCmd_UnmarshalBinary l (world (host x)) = Some (world h) ->
  bside_ok cw r (put ++ at_label (put_step r) l (world (host x))) (got ++ at_label (got_step r) l (world (host x))) (with_host h x).
Proof.
  intros [K1 K2 K3 K4] Ho H. constructor; try done; cbn [with_host host br]; [by eapply named_step|].
  intros w. change (pend_at w (with_host h x)) with (pend_at w x). destruct l as [t e|a].
  - pose proof (link_run cfg fmt_q ExecCmd_UnmarshalBinary w r _ _ _ t e _ _ (K3 w) H) as L. by destruct w.
  - cbn [step] in H. destruct (call_stack _ a _) as [gs|] eqn:E; [|done]. injection H as <-.
    assert (forall buf n, a <> transfer w r buf n) as Ha.
    { intros buf n ->. destruct w; cbn in Ho; by rewrite Nat.eqb_refl in Ho. }
    pose proof (link_call w r _ _ _ a gs _ K2 (K3 w) E (call_stack_moves _ _ _ _ _ _ E Ha)) as L. cbn [at_label]. rewrite !app_nil_r. done.
Qed.

(** The bridge makes a call. *)
Lemma bside_call cfg cw r put got w a x h : bside_ok cw r put got x -> wants r w (pump_at w (br x)) = Some a -> call_at w x = None ->
  step cfg fmt_q ExecCmd_UnmarshalBinary (Call a) (world (host x)) = Some (world h) ->
  bside_ok cw r put got (set_call w (Some (calls (world (host x)))) (with_host h x)).
Proof.
  intros [K1 K2 K3 K4] Hw Hc H. pose proof (named_step _ _ _ _ _ _ K2 H) as K2'. cbn [step] in H.
  destruct (call_stack _ a _) as [gs|] eqn:E; [|done]. injection H as Hh.
  assert (forall w', (forall buf n, a <> transfer w' r buf n) -> link w' r (pend_at w' x) (settled w' (log (br x))) (match w' with Up => put | Down => got end) (world h)) as Hother.
  { intros w' Ha. rewrite <- Hh. by apply (link_call _ _ _ _ _ a), (call_stack_moves _ _ _ _ _ _ E). }
  assert (pend_at w x = None) as Hp by (unfold pend_at; by rewrite Hc).
  assert (forall buf, (w = Down -> buf = []) -> a = transfer w r buf copy_buf ->
    link w r (Some (calls (world (host x)), buf)) (settled w (log (br x))) (match w with Up => put | Down => got end) (world h)) as Hstart.
  { intros buf Hb ->. rewrite <- Hh. eapply (link_start w r _ _ buf copy_buf); try done. rewrite <- Hp. apply K3. }
  constructor.
  - by destruct w.
  - by destruct w.
  - intros w'. assert (host (set_call w (Some (calls (world (host x)))) (with_host h x)) = h) as -> by (by destruct w).
    assert (br (set_call w (Some (calls (world (host x)))) (with_host h x)) = br x) as -> by (by destruct w).
    destruct w, w'; unfold pend_at; cbn [call_at set_call with_host br up_call down_call pump_at] in *.
    + destruct (up (br x)) eqn:Ep; cbn in Hw; simplify_eq; [by apply (Hstart buf)|..]; rewrite <- Hp; by apply (Hother Up).
    + apply (Hother Down). destruct (up (br x)); cbn in Hw; by simplify_eq.
    + apply (Hother Up). destruct (down (br x)); cbn in Hw; by simplify_eq.
    + destruct (down (br x)) eqn:Ep; cbn in Hw; simplify_eq; [by apply (Hstart [])|..]; rewrite <- Hp; by apply (Hother Down).
  - intros w' Hw'. destruct w, w'; cbn in *; try congruence; [by apply (K4 Down)|by apply (K4 Up)].
Qed.

(** The other direction. *)
Definition opposite (w : way) : way := match w with Up => Down | Down => Up end.

Lemma settled_other cw w p a p' e l : pump_step cw w p a = Some (p', e) -> settled (opposite w) (l ++ [e]) = settled (opposite w) l.
Proof.
  intros H. assert (read_of (opposite w) e = [] /\ took (opposite w) e = []) as [Hr Ht].
  { destruct w, cw, p, a; try done; cbn [pump_step] in H; repeat case_match; by simplify_eq. }
  destruct w; cbn in *; rewrite ?taken_snoc, ?passed_snoc, ?Hr, ?Ht; apply app_nil_r.
Qed.

Lemma Bridge_step_pump cw w a b b' : Bridge_step cw (Step w a) b = Some b' -> exists p e, pump_step cw w (pump_at w b) a = Some (p, e)
  /\ pump_at w b' = p /\ pump_at (opposite w) b' = pump_at (opposite w) b /\ log b' = log b ++ [e].
Proof. destruct w; cbn; destruct (pump_step _ _ _ _) as [[p e]|]; intros; simplify_eq; by exists p, e. Qed.

(** A step of the bridge, with what it means for its own direction. *)
Lemma bside_bridge cw r put got w a c x b : bside_ok cw r put got x -> Bridge_step cw (Step w a) (br x) = Some b ->
  link w r None (settled w (log b)) (match w with Up => put | Down => got end) (world (host x)) ->
  c = None -> bside_ok cw r put got (set_call w c (with_br b x)).
Proof.
  intros [K1 K2 K3 K4] H HL ->. pose proof (Bridge_step_ok _ _ _ _ K1 H) as K1'.
  destruct (Bridge_step_pump _ _ _ _ _ H) as (p & e & Hp & Ep & Eo & El). pose proof (settled_other cw w _ _ _ _ (log (br x)) Hp) as Es. rewrite <- El in Es.
  specialize (K3 (opposite w)). rewrite <- Es in K3. specialize (K4 (opposite w)).
  constructor; [by destruct w|by destruct w| |]; intros w'; destruct w, w'; unfold pend_at in *; cbn in *; rewrite ?Eo; done.
Qed.

(** What a direction's event moves is what its call carried. *)
Lemma settled_return cw w p p' e c o a x : pump_at w (br x) = p -> call_at w x = Some c -> wants 0 w p <> None ->
  answer_of p o = Some a -> pump_step cw w p a = Some (p', e) ->
  match pend_at w x with
  | Some (c', buf) => c' = c /\ settled w (log (br x) ++ [e]) = settled w (log (br x)) ++ carried w buf o
  | None => settled w (log (br x) ++ [e]) = settled w (log (br x))
  end.
Proof.
  intros Ep Ec Hw Ha H. unfold pend_at. rewrite Ec. subst p. destruct w; cbn [pump_at] in *; [destruct (up (br x)) as [|buf er|er| | |] | destruct (down (br x)) as [|buf er|er| | |]];
    try done; cbn [settled]; cbn [pump_step] in H.
  - assert (exists nw ew, e = EvWrite Up buf nw ew /\ stream_wrote buf nw ew = true /\ took Up e = carried Up buf o) as (nw & ew & -> & _ & Et).
    { destruct o; cbn in Ha; simplify_eq; cbn [pump_step] in H; destruct (stream_wrote buf _ _) eqn:Es; simplify_eq; eexists _, _; (split; [done|]; split; [done|]);
        cbn [took carried]; rewrite decide_True by done; cbn in Es.
      - case_match; done.
      - pose proof (zlen_nonneg buf). apply Z.eqb_eq in Es as ->. by rewrite (proj2 (orb_false_iff _ _)) by lia.
      - by case_match. }
    by rewrite passed_snoc, Et.
  - destruct o; cbn in Ha; simplify_eq; rewrite passed_snoc; apply app_nil_r.
  - destruct o; cbn in Ha; simplify_eq; rewrite passed_snoc; apply app_nil_r.
  - assert (read_of Down e = carried Down [] o) as Et.
    { destruct o; cbn in Ha; simplify_eq; cbn [pump_step] in H; case_match; simplify_eq; cbn; by rewrite ?decide_True. }
    by rewrite taken_snoc, Et.
  - destruct o; cbn in Ha; simplify_eq; rewrite taken_snoc; apply app_nil_r.
Qed.

Lemma settled_endpoint cw r w p a p' e l : wants r w p = None -> pump_step cw w p a = Some (p', e) -> settled w (l ++ [e]) = settled w l.
Proof.
  intros Hw H. destruct w; cbn [settled]; rewrite ?passed_snoc, ?taken_snoc; destruct p, a; try done; cbn [pump_step] in H;
    repeat case_match; simplify_eq; try apply app_nil_r; destruct cw; apply app_nil_r.
Qed.

Lemma set_call_same w x : set_call w (call_at w x) x = x.
Proof. by destruct w, x. Qed.

Lemma bside_step_ok cfg cw r put got inc l x x' : bside_ok cw r put got x -> bside_step cfg cw r inc l x = Some x' ->
  (host x' = host x /\ bside_ok cw r put got x')
  \/ exists sl, side_step fmt_q ExecCmd_UnmarshalBinary cfg inc sl (host x) = Some (host x')
     /\ bside_ok cw r (put ++ at_label (put_step r) sl (world (host x))) (got ++ at_label (got_step r) sl (world (host x))) x'.
Proof.
  intros Ok H. destruct l as [l|w|w|w a|]; cbn [bside_step] in H.
  - right. destruct (owned r l) eqn:Ho; [done|]. apply bind_Some in H as (h & H & [= <-]). exists l. split; [done|].
    by apply (bside_session cfg), (side_step_world _ _ _ _ _ _ _ H).
  - right. destruct (wants r w _) as [a|] eqn:Hw; [|done]. destruct (call_at w x) eqn:Hc; [done|]. apply bind_Some in H as (h & H & [= <-]).
    exists (Call a). cbn [at_label]. rewrite !app_nil_r. split; [by destruct w|]. by apply (bside_call cfg _ _ _ _ _ a), (side_step_world _ _ _ _ _ _ _ H).
  - left. apply bind_Some in H as (c & Hc & H). apply bind_Some in H as (o & Ho & H). apply bind_Some in H as (a & Ha & H).
    apply bind_Some in H as (b & H & [= <-]). split; [by destruct w|]. apply (bside_bridge cw r put got w a None x b); try done.
    destruct (Bridge_step_pump _ _ _ _ _ H) as (p & e & Hp & _ & _ & ->).
    assert (wants 0 w (pump_at w (br x)) <> None) as Hw.
    { intros Hn. assert (wants r w (pump_at w (br x)) = None) as Hn' by (destruct w, (pump_at _ _); done).
      pose proof (bk_wants _ _ _ _ _ Ok w Hn'). congruence. }
    pose proof (settled_return cw w _ p e c o a x eq_refl Hc Hw Ha Hp) as Hs. pose proof (bk_link _ _ _ _ _ Ok w) as HL.
    destruct (pend_at w x) as [[c' buf]|]; [destruct Hs as [-> ->]|by rewrite Hs]. by apply (link_return _ _ c), result_for_elem.
  - left. destruct (wants r w _) eqn:Hw; [done|]. apply bind_Some in H as (b & H & [= <-]). split; [done|].
    pose proof (bk_wants _ _ _ _ _ Ok w Hw) as Hc. rewrite <- (set_call_same w). apply (bside_bridge cw r put got w a _ x b); try done.
    destruct (Bridge_step_pump _ _ _ _ _ H) as (p & e & Hp & _ & _ & ->). rewrite (settled_endpoint cw r w _ a p e _ Hw Hp).
    pose proof (bk_link _ _ _ _ _ Ok w) as HL. unfold pend_at in HL. by rewrite Hc in HL.
  - left. apply bind_Some in H as (b & H & [= <-]). split; [done|]. destruct Ok as [K1 K2 K3 K4]. pose proof (Bridge_step_ok _ _ _ _ K1 H) as K1'.
    cbn in H. destruct (_ && negb _); [|done]. injection H as <-. constructor; try done.
    intros w. specialize (K3 w). cbn [with_br br host log]. destruct w; cbn [settled] in *; rewrite ?passed_snoc, ?taken_snoc, app_nil_r; exact K3.
Qed.

(** ** Two bridges, two sessions, one connection *)

Context (cfg_a cfg_b : Config) (cw_a cw_b : bool) (ra rb : nat).

Record tunnel := mkTunnel { near : bside; far : bside }.

Definition tunnel0 : tunnel := mkTunnel bside0 bside0.

Inductive tstep := Near (l : tlabel) | Far (l : tlabel).

Definition tunnel_step (l : tstep) (t : tunnel) : option tunnel :=
  match l with
  | Near l => x ← bside_step cfg_a cw_a ra (wire (host (far t))) l (near t); Some (mkTunnel x (far t))
  | Far l => x ← bside_step cfg_b cw_b rb (wire (host (near t))) l (far t); Some (mkTunnel (near t) x)
  end.

Fixpoint tunnel_run (ls : list tstep) (t : tunnel) : option tunnel :=
  match ls with [] => Some t | l :: ls => t ← tunnel_step l t; tunnel_run ls t end.

Abbreviation hosts t := (mkPair (host (near t)) (host (far t))).

Record tunnel_ok (pa fa ga pb fb gb : nat -> bytes) (t : tunnel) : Prop := {
  tk_pair : pair_ok ExecCmd_UnmarshalBinary cfg_a cfg_b pa fa ga pb fb gb (hosts t);
  tk_near : bside_ok cw_a ra (pa ra) (ga ra) (near t);
  tk_far : bside_ok cw_b rb (pb rb) (gb rb) (far t) }.

Lemma tunnel_step_ok l t t' : cfgRole cfg_a <> cfgRole cfg_b ->
  (exists pa fa ga pb fb gb, tunnel_ok pa fa ga pb fb gb t) -> tunnel_step l t = Some t' ->
  exists pa fa ga pb fb gb, tunnel_ok pa fa ga pb fb gb t'.
Proof.
  intros Hrole (pa & fa & ga & pb & fb & gb & [T1 T2 T3]). destruct l as [l|l]; intros (x & H & [= <-])%bind_Some.
  - destruct (bside_step_ok _ _ _ _ _ _ _ _ _ T2 H) as [[E Ok]|(sl & E & Ok)].
    + exists pa, fa, ga, pb, fb, gb. constructor; cbn [near far]; [by rewrite E|done..].
    + pose proof (sides_step_ok fmt_q _ _ _ _ _ _ _ _ _ (AtA sl) _ (mkPair (host x) (host (far t))) Hrole T1) as HP. cbn in HP.
      do 6 eexists. constructor; cbn [near far]; [apply HP; by rewrite E|exact Ok|exact T3].
  - destruct (bside_step_ok _ _ _ _ _ _ _ _ _ T3 H) as [[E Ok]|(sl & E & Ok)].
    + exists pa, fa, ga, pb, fb, gb. constructor; cbn [near far]; [by rewrite E|done..].
    + pose proof (sides_step_ok fmt_q _ _ _ _ _ _ _ _ _ (AtB sl) _ (mkPair (host (near t)) (host x)) Hrole T1) as HP. cbn in HP.
      do 6 eexists. constructor; cbn [near far]; [apply HP; by rewrite E|exact T2|exact Ok].
Qed.

Lemma tunnel_run_ok ls t t' : cfgRole cfg_a <> cfgRole cfg_b ->
  (exists pa fa ga pb fb gb, tunnel_ok pa fa ga pb fb gb t) -> tunnel_run ls t = Some t' ->
  exists pa fa ga pb fb gb, tunnel_ok pa fa ga pb fb gb t'.
Proof.
  intros Hrole. revert t. induction ls as [|l ls IH]; intros t Ok; cbn [tunnel_run]; [by intros [= <-]|].
  intros (t1 & H1 & H)%bind_Some. eapply IH; [|done]. by eapply tunnel_step_ok.
Qed.

Lemma bside0_ok cw r : bside_ok cw r [] [] bside0.
Proof.
  constructor; [apply bridge0_ok| | |by intros []].
  - constructor; [constructor|]. by intros c o ?%elem_of_nil.
  - intros w. destruct w; (constructor; try done; intros _; by split).
Qed.

Lemma tunnel0_ok : exists pa fa ga pb fb gb, tunnel_ok pa fa ga pb fb gb tunnel0.
Proof. do 6 (exists (fun _ => [])). constructor; [apply pair0_ok|apply bside0_ok..]. Qed.

(** What the endpoint of one side was given is a prefix of what was read from
    the endpoint of the other. *)
Lemma bside_taken cw r put got x : bside_ok cw r put got x -> put `prefix_of` taken Up (log (br x)).
Proof.
  intros [[K1 _ _ _ _ _ _] _ K3 _]. specialize (K3 Up). cbn in K3. destruct K3 as [_ L2 L3 _]. specialize (L2 eq_refl).
  pose proof (pump_ok_prefix _ _ _ K1) as Hpre. unfold pend_at in *. cbn [call_at pump_at settled] in *.
  destruct (up_call x) as [c|]; [|destruct (L3 eq_refl) as [-> _]; done].
  destruct (up (br x)) eqn:Ep; try (destruct (L3 eq_refl) as [-> _]; done). destruct K1 as [-> _]. exact L2.
Qed.

Lemma bside_passed cw r put got x : bside_ok cw r put got x -> passed Down (log (br x)) `prefix_of` got.
Proof.
  intros [[_ K1 _ _ _ _ _] _ K3 _]. etrans; [by eapply pump_ok_prefix|]. apply (lk_base _ _ _ _ _ _ (K3 Down)).
Qed.

(** C2: from endpoint to endpoint.  A bridge at each end of a stream that
    crosses two sessions on one connection: whatever the endpoints answer and
    however the goroutines of the bridges and of the sessions interleave, the
    bytes one endpoint has taken are, in order, a prefix of the bytes read from
    the other, in both directions. *)
Theorem endpoints_end_to_end ls t st st' :
  cfgRole cfg_a <> cfgRole cfg_b -> tunnel_run ls tunnel0 = Some t ->
  objs (sess (world (host (near t)))) !! ra = Some st -> objs (sess (world (host (far t)))) !! rb = Some st' -> sid st = sid st' ->
  passed Down (log (br (far t))) `prefix_of` taken Up (log (br (near t)))
  /\ passed Down (log (br (near t))) `prefix_of` taken Up (log (br (far t))).
Proof.
  intros Hrole H Ha Hb Hid. destruct (tunnel_run_ok _ _ _ Hrole tunnel0_ok H) as (pa & fa & ga & pb & fb & gb & [[Oa Ob _ _] Ta Tb]).
  destruct (sides_convey _ _ _ _ _ _ _ _ _ _ _ _ _ _ _ Oa Ob Ha Hb Hid) as [H1 _].
  destruct (sides_convey _ _ _ _ _ _ _ _ _ _ _ _ _ _ _ Ob Oa Hb Ha ltac:(done)) as [H2 _].
  split; (etrans; [by eapply bside_passed|]; etrans; [eassumption|by eapply bside_taken]).
Qed.

End Tunnel.

(** The near endpoint says "hello"; it crosses; the far endpoint takes three
    bytes. *)
Definition hello_across : list tstep :=
  [Near (TSession (Call AServe)); Far (TSession (Call AServe));
   Near (TSession (Call (AOpen (str "db") []))); Near (TSession (Run 2 ChRun)); Near (TSession (Run 2 (ChWrite None)));
   Far (TSession (Run 0 (ChRead (Ok (frame_of (MAppOpen (mkAppOpen 1 (str "db") [])))))))]
  ++ ((fun l => Far (TSession l)) <$> [Run 0 ChRun; Run 2 (ChHandler (Ok (7%nat, []))); Run 2 ChRun; Run 2 ChRun;
        Run 2 (ChWrite None); Run 2 ChRun; Run 2 ChRun; Run 2 ChRun])
  ++ ((fun l => Near (TSession l)) <$> [Run 0 (ChRead (Ok (frame_of (MAppAccept (mkAppAccept 1 [] AppInitialWindow))))); Run 0 ChRun;
        Run 0 ChRun; Run 0 ChRun; Run 2 ChReady; Run 2 ChRun; Run 2 ChRun; Run 2 ChRun; Run 2 ChRun])
  ++ [Near (TEndpoint Up (AnsRead (str "hello") None)); Near (TCall Up); Near (TSession (Run 4 ChRun)); Near (TSession (Run 4 ChRun));
      Near (TReturn Up); Near (TSession (Run 3 ChRun)); Near (TSession (Run 3 ChRun)); Near (TSession (Run 3 (ChWrite None)));
      Far (TCall Down); Far (TSession (Run 4 ChRun));
      Far (TSession (Run 0 (ChRead (Ok (frame_of (MAppData (mkAppData 1 (str "hello")))))))); Far (TSession (Run 0 ChRun));
      Far (TSession (Run 0 ChRun)); Far (TSession (Run 4 ChRun)); Far (TSession (Run 4 ChRun)); Far (TSession (Run 4 (ChWrite None)));
      Far (TSession (Run 4 ChRun)); Far (TReturn Down); Far (TEndpoint Down (AnsWrite 3 None))].

Definition hello_tunnel : tunnel :=
  default tunnel0 (tunnel_run plain_q no_exec host_cfg guest_cfg true true 0 0 hello_across tunnel0).

Lemma endpoints_end_to_end_witness :
  tunnel_run plain_q no_exec host_cfg guest_cfg true true 0 0 hello_across tunnel0 = Some hello_tunnel
  /\ passed Down (log (br (far hello_tunnel))) = str "hel" /\ taken Up (log (br (near hello_tunnel))) = str "hello"
  /\ passed Down (log (br (far hello_tunnel))) `prefix_of` taken Up (log (br (near hello_tunnel))).
Proof.
  do 3 (split; [vm_compute; reflexivity|]).
  apply (endpoints_end_to_end plain_q no_exec host_cfg guest_cfg true true 0 0 hello_across hello_tunnel
    (first_obj (world (host (near hello_tunnel)))) (first_obj (world (host (far hello_tunnel))))); [done|vm_compute; reflexivity..].
Defined.
