(* ===== verification/Rpc.v ===== *)
(** * The RPC layer: [protocol/rpc]

    [types.go]: the frames a handler's [Request] writes.  [client.go]: the
    client as a machine of goroutines (read loop, one forwarder per pending call, callers), in the
    style of [Session.v]: a goroutine is the list of steps it still has to
    run, a step is one section under [Client.mu], one channel operation, one
    read or one write.  Channels of capacity 16 are bounded lists; [call_id],
    [accepted] and [taken] record, for the proofs, a call's message id, the
    frames that went into its [inbox] and what its consumer received. *)
From Stdlib Require Import ZArith Lia.
From stdpp Require Import base list gmap strings.
From S2P Require Import Prelude GoIO Wire Frame Codec Messages.

Open Scope Z_scope.

(** ** types.go *)

Record Response := mkResponse { resp_Type : Z; resp_Body : bytes }.
Record StreamFrame := mkStreamFrame { sf_Type : Z; sf_Body : bytes; sf_More : bool }.
Record Request := mkRequest { req_Type : Z; req_MsgID : Z; req_Flags : Z; req_Body : bytes }.

Definition Request_Respond (r : Request) (msgType : Z) (body : bytes) : Frame :=
  mkFrame msgType FlagResponse (req_MsgID r) body.

Definition Request_Stream (r : Request) (msgType : Z) (body : bytes) : Frame :=
  mkFrame msgType FlagStreamMore (req_MsgID r) body.

Definition Request_StreamEnd (r : Request) (msgType : Z) (body : bytes) : Frame :=
  mkFrame msgType FlagResponse (req_MsgID r) body.

Definition Request_Error (r : Request) (code : Z) (message : bytes) : Frame :=
  mkFrame TypeERROR FlagResponse (req_MsgID r)
    (match to_bytes (WriteUint16 code ;; WriteString message) with Ok b => b | Err _ => [] end).

Definition Request_Started (r : Request) (stream : bool) : Frame :=
  mkFrame TypeSTARTED 0 (req_MsgID r) (EncodeStarted stream).

(** A response frame: [f.Flags & FlagResponse != 0]. *)
Definition is_response (f : Frame) : bool := negb (Z.land (Flags f) FlagResponse =? 0).

(** ** client.go: a pending call *)

Definition chan_cap : nat := 16.

Inductive forwarder :=
  | FSelect                  (* select on inbox and done *)
  | FPush (f : StreamFrame)  (* select on out and done, holding [f] *)
  | FExit.                   (* returned; [out] is closed *)

Record pendingCall := mkPending {
  inbox : list StreamFrame;
  out : list StreamFrame;
  done : bool;
  fwd : forwarder;
  call_id : Z;
  accepted : list Frame;
  taken : list StreamFrame }.

Definition newPendingCall (id : Z) : pendingCall := mkPending [] [] false FSelect id [] [].

Definition out_closed (p : pendingCall) : bool := match fwd p with FExit => true | _ => false end.

(** Which ready branch of a select is taken. *)
Inductive branch := BFrame | BDone | BCtx (e : error) | BClosed.

(** The stream frame the read loop makes of a frame. *)
Definition to_stream_frame (f : Frame) : StreamFrame :=
  mkStreamFrame (Type_ f) (Body f) (negb (is_response f)).

(** [send]: [true] when the frame went into the inbox. *)
Definition pending_send (f : Frame) (b : branch) (p : pendingCall) : option (bool * pendingCall) :=
  match b with
  | BFrame =>
      if (length (inbox p) <? chan_cap)%nat
      then Some (true, mkPending (inbox p ++ [to_stream_frame f]) (out p) (done p) (fwd p) (call_id p)
                         (accepted p ++ [f]) (taken p))
      else None
  | BDone => if done p then Some (false, p) else None
  | _ => None
  end.

(** One step of the forwarder goroutine. *)
Definition forward (b : branch) (p : pendingCall) : option pendingCall :=
  let set_fwd s := mkPending (inbox p) (out p) (done p) s (call_id p) (accepted p) (taken p) in
  match fwd p, b with
  | FSelect, BFrame =>
      match inbox p with
      | f :: q => Some (mkPending q (out p) (done p) (FPush f) (call_id p) (accepted p) (taken p))
      | [] => None
      end
  | FPush f, BFrame =>
      if (length (out p) <? chan_cap)%nat
      then Some (mkPending (inbox p) (out p ++ [f]) (done p) (if sf_More f then FSelect else FExit)
                   (call_id p) (accepted p) (taken p))
      else None
  | FSelect, BDone | FPush _, BDone => if done p then Some (set_fwd FExit) else None
  | _, _ => None
  end.

(** [finish]: [once.Do(close(done))]. *)
Definition pending_finish (p : pendingCall) : pendingCall :=
  mkPending (inbox p) (out p) true (fwd p) (call_id p) (accepted p) (taken p).

(** A receive on [out]: a frame, or [None] when it is closed and empty. *)
Definition pending_take (p : pendingCall) : option (option StreamFrame * pendingCall) :=
  match out p with
  | f :: q => Some (Some f, mkPending (inbox p) q (done p) (fwd p) (call_id p) (accepted p) (taken p ++ [f]))
  | [] => if out_closed p then Some (None, p) else None
  end.

(** ** The client *)

Inductive call_result :=
  | CResponse (r : Response)
  | CStream (p : nat)        (* the channel of call [p] *)
  | CErr (e : error)
  | CNil.

Record Client := mkClient {
  c_msgID : Z;
  c_pending : gmap Z nat;
  c_closed : bool;
  c_closeCh : nat;
  c_started : bool;          (* c.cancel is set *)
  c_cancelled : bool;        (* readerCtx is done *)
  c_wg : Z;
  c_calls : list pendingCall;
  c_wire : list Frame;
  c_conn_closed : nat;
  c_results : list (nat * call_result) }.

Definition NewClient : Client := mkClient 0 ∅ false 0 false false 0 [] [] 0 [].

Definition set_msgID (v : Z) (c : Client) : Client :=
  mkClient v (c_pending c) (c_closed c) (c_closeCh c) (c_started c) (c_cancelled c) (c_wg c) (c_calls c) (c_wire c) (c_conn_closed c) (c_results c).
Definition set_pending (v : gmap Z nat) (c : Client) : Client :=
  mkClient (c_msgID c) v (c_closed c) (c_closeCh c) (c_started c) (c_cancelled c) (c_wg c) (c_calls c) (c_wire c) (c_conn_closed c) (c_results c).
Definition set_calls (v : list pendingCall) (c : Client) : Client :=
  mkClient (c_msgID c) (c_pending c) (c_closed c) (c_closeCh c) (c_started c) (c_cancelled c) (c_wg c) v (c_wire c) (c_conn_closed c) (c_results c).
Definition set_c_wg (v : Z) (c : Client) : Client :=
  mkClient (c_msgID c) (c_pending c) (c_closed c) (c_closeCh c) (c_started c) (c_cancelled c) v (c_calls c) (c_wire c) (c_conn_closed c) (c_results c).
Definition set_started (c : Client) : Client :=
  mkClient (c_msgID c) (c_pending c) (c_closed c) (c_closeCh c) true (c_cancelled c) (c_wg c) (c_calls c) (c_wire c) (c_conn_closed c) (c_results c).
Definition add_wire (f : Frame) (c : Client) : Client :=
  mkClient (c_msgID c) (c_pending c) (c_closed c) (c_closeCh c) (c_started c) (c_cancelled c) (c_wg c) (c_calls c) (c_wire c ++ [f]) (c_conn_closed c) (c_results c).
Definition add_conn_closed (c : Client) : Client :=
  mkClient (c_msgID c) (c_pending c) (c_closed c) (c_closeCh c) (c_started c) (c_cancelled c) (c_wg c) (c_calls c) (c_wire c) (S (c_conn_closed c)) (c_results c).
Definition add_result (call : nat) (r : call_result) (c : Client) : Client :=
  mkClient (c_msgID c) (c_pending c) (c_closed c) (c_closeCh c) (c_started c) (c_cancelled c) (c_wg c) (c_calls c) (c_wire c) (c_conn_closed c) (c_results c ++ [(call, r)]).

Definition allocMsgID (c : Client) : Z * Client :=
  let id := to_u 32 (c_msgID c + 1) in
  let id := if id =? 0 then 1 else id in
  (id, set_msgID id c).

Definition addPending (id : Z) (c : Client) : nat * Client :=
  let r := length (c_calls c) in
  (r, set_pending (<[id := r]> (c_pending c)) (set_calls (c_calls c ++ [newPendingCall id]) c)).

Definition removePending (id : Z) (c : Client) : Client := set_pending (delete id (c_pending c)) c.

(** [shutdown] under [mu]; [None] when already closed. *)
Definition shutdown_locked (c : Client) : option Client :=
  if c_closed c then None
  else
    let refs := (map_to_list (c_pending c)).*2 in
    let calls := imap (fun i p => if bool_decide (i ∈ refs) then pending_finish p else p) (c_calls c) in
    Some (mkClient (c_msgID c) ∅ true (S (c_closeCh c)) (c_started c)
            (c_cancelled c || c_started c) (c_wg c) calls (c_wire c) (c_conn_closed c) (c_results c)).

(** ** Goroutines *)

Inductive rinstr :=
  | RLoop | RRead | RReadErr | RRoute (f : Frame)
  | RSend (p : nat) (f : Frame) | RRemove (id : Z)
  | RShutdown | RWgWait | RWgDone
  | RForward (p : nat)
  | KStart (call : nat) | KStartGo (call : nat) | KStartWatch
  | KAlloc (call : nat) (stream : bool) (typ flags : Z) (body : bytes)
  | KAdd (call : nat) (stream : bool) (id typ flags : Z) (body : bytes)
  | KWrite (call : nat) (stream : bool) (p : nat) (id typ flags : Z) (body : bytes)
  | KReceive (call p : nat) (id : Z) (second : bool)
  | KStreamWatch (p : nat) (id : Z)
  | KFinish (p : nat) | KConnClose
  | KReturn (call : nat) (r : call_result).

(** The environment's part of a step. *)
Inductive renv :=
  | EvRun
  | EvBranch (b : branch)
  | EvFrame (r : result Frame)
  | EvWrite (r : option error).

Record rprogress := mkRProgress { rpushed : list rinstr; rspawned : list (list rinstr); rafter : Client }.

Definition rnext (todo : list rinstr) (c : Client) : rprogress := mkRProgress todo [] c.

Definition on_call (p : nat) (c : Client) (f : pendingCall -> option rprogress) : option rprogress :=
  match c_calls c !! p with Some x => f x | None => None end.

Definition put_call (p : nat) (x : pendingCall) (c : Client) : Client := set_calls (<[p := x]> (c_calls c)) c.

(** [readLoop] after a frame was read. *)
Definition readLoop_route (f : Frame) (c : Client) : rprogress :=
  if c_closed c then rnext [] c
  else match c_pending c !! MsgID f with
  | None => rnext [RLoop] c
  | Some p =>
      if is_response f then rnext [RSend p f; RRemove (MsgID f); RLoop] c
      else rnext [RSend p f; RLoop] c
  end.

(** The deferred cleanup of [CallFlags]. *)
Definition call_cleanup (call p : nat) (id : Z) (r : call_result) : list rinstr :=
  [KFinish p; RRemove id; KReturn call r].

(** [receive], and what [CallFlags] does with its result. *)
Definition CallFlags_receive (call p : nat) (id : Z) (second : bool) (b : branch) (x : pendingCall) (c : Client) :
    option rprogress :=
  match b with
  | BFrame =>
      match pending_take x with
      | Some (None, x') => Some (rnext (call_cleanup call p id (CErr (Errorf (str "mvcp rpc: call closed")))) (put_call p x' c))
      | Some (Some f, x') =>
          if (sf_Type f =? TypeSTARTED) && negb second
          then Some (rnext [KReceive call p id true] (put_call p x' c))
          else Some (rnext (call_cleanup call p id (CResponse (mkResponse (sf_Type f) (sf_Body f)))) (put_call p x' c))
      | None => None
      end
  | BCtx e => Some (rnext (call_cleanup call p id (CErr e)) c)
  | BClosed =>
      if (0 <? c_closeCh c)%nat
      then Some (rnext (call_cleanup call p id (CErr (Errorf (str "mvcp rpc: client closed")))) c) else None
  | BDone => None
  end.

Definition writeRequest (id typ flags : Z) (body : bytes) : Frame := mkFrame typ flags id body.

(** [StreamFlags] once its request is written: the channel is returned and a
    goroutine waits for the context or for the client to close. *)
Definition StreamFlags_written (call p : nat) (id : Z) (c : Client) : rprogress :=
  mkRProgress [KReturn call (CStream p)] [[KStreamWatch p id]] c.

Definition StreamFlags_watch (p : nat) (id : Z) (b : branch) (c : Client) : option rprogress :=
  match b with
  | BCtx _ => Some (rnext [KFinish p; RRemove id] c)
  | BClosed => if (0 <? c_closeCh c)%nat then Some (rnext [KFinish p; RRemove id] c) else None
  | BFrame | BDone => None
  end.

Definition rstep (i : rinstr) (e : renv) (c : Client) : option rprogress :=
  match i, e with
  | RLoop, EvRun => Some (rnext (if c_cancelled c then [] else [RRead]) c)
  | RRead, EvFrame (Ok f) => if frame_ok f then Some (rnext [RRoute f] c) else None
  | RRead, EvFrame (Err _) => Some (rnext [RReadErr] c)
  | RReadErr, EvRun => Some (rnext (if c_cancelled c then [] else [RShutdown]) c)
  | RRoute f, EvRun => Some (readLoop_route f c)
  | RSend p f, EvBranch b =>
      on_call p c (fun x => match pending_send f b x with Some (_, x') => Some (rnext [] (put_call p x' c)) | None => None end)
  | RRemove id, EvRun => Some (rnext [] (removePending id c))
  | RShutdown, EvRun =>
      match shutdown_locked c with Some c' => Some (rnext [RWgWait] c') | None => Some (rnext [] c) end
  | RWgWait, EvRun => if c_wg c =? 0 then Some (rnext [] c) else None
  | RWgDone, EvRun => Some (rnext [] (set_c_wg (c_wg c - 1) c))
  | RForward p, EvBranch b =>
      on_call p c (fun x => match forward b x with
        | Some x' => Some (rnext (if out_closed x' then [] else [RForward p]) (put_call p x' c))
        | None => None
        end)
  | KStart call, EvRun =>
      if c_started c then Some (rnext [KReturn call CNil] c) else Some (rnext [KStartGo call] (set_started c))
  | KStartGo call, EvRun =>
      Some (mkRProgress [KReturn call CNil] [[RLoop; RWgDone]; [KStartWatch]] (set_c_wg (c_wg c + 1) c))
  | KStartWatch, EvBranch (BCtx _) => Some (rnext [RShutdown] c)
  | KAlloc call stream typ flags body, EvRun =>
      let '(id, c') := allocMsgID c in Some (rnext [KAdd call stream id typ flags body] c')
  | KAdd call stream id typ flags body, EvRun =>
      let '(p, c') := addPending id c in
      Some (mkRProgress [KWrite call stream p id typ flags body] [[RForward p]] c')
  | KWrite call stream p id typ flags body, EvWrite None =>
      let c := add_wire (writeRequest id typ flags body) c in
      if stream then Some (StreamFlags_written call p id c)
      else Some (rnext [KReceive call p id false] c)
  | KWrite call stream p id _ _ _, EvWrite (Some e) => Some (rnext (call_cleanup call p id (CErr e)) c)
  | KReceive call p id second, EvBranch b => on_call p c (fun x => CallFlags_receive call p id second b x c)
  | KStreamWatch p id, EvBranch b => StreamFlags_watch p id b c
  | KFinish p, EvRun => on_call p c (fun x => Some (rnext [] (put_call p (pending_finish x) c)))
  | KConnClose, EvRun => Some (rnext [] (add_conn_closed c))
  | KReturn call r, EvRun => Some (rnext [] (add_result call r c))
  | _, _ => None
  end.

(** ** The system *)

Record RWorld := mkRWorld { cl : Client; rpool : list (list rinstr); rcalls : nat }.

Inductive rapi :=
  | AStart
  | ACallFlags (typ flags : Z) (body : bytes)
  | AStreamFlags (typ flags : Z) (body : bytes)
  | ACloseClient.

Definition Client_Close (call : nat) : list rinstr := [RShutdown; KConnClose; KReturn call CNil].

Definition rcall_stack (call : nat) (a : rapi) : list rinstr :=
  match a with
  | AStart => [KStart call]
  | ACallFlags typ flags body => [KAlloc call false typ flags body]
  | AStreamFlags typ flags body => [KAlloc call true typ flags body]
  | ACloseClient => Client_Close call
  end.

(** [RTake p]: the consumer of a [Stream] channel receives from it. *)
Inductive rlabel := RRun (t : nat) (e : renv) | RCall (a : rapi) | RTake (p : nat).

Definition rworld_step (l : rlabel) (w : RWorld) : option RWorld :=
  match l with
  | RRun t e =>
      match rpool w !! t with
      | Some (i :: rest) =>
          match rstep i e (cl w) with
          | Some (mkRProgress todo gs c) => Some (mkRWorld c (<[t := todo ++ rest]> (rpool w) ++ gs) (rcalls w))
          | None => None
          end
      | _ => None
      end
  | RCall a => Some (mkRWorld (cl w) (rpool w ++ [rcall_stack (rcalls w) a]) (S (rcalls w)))
  | RTake p =>
      match c_calls (cl w) !! p with
      | Some x => match pending_take x with
                  | Some (_, x') => Some (mkRWorld (put_call p x' (cl w)) (rpool w) (rcalls w))
                  | None => None
                  end
      | None => None
      end
  end.

Fixpoint rrun (ls : list rlabel) (w : RWorld) : option RWorld :=
  match ls with
  | [] => Some w
  | l :: ls => match rworld_step l w with Some w' => rrun ls w' | None => None end
  end.

Definition rworld0 : RWorld := mkRWorld NewClient [] 0.
Definition rreachable (w : RWorld) : Prop := exists ls, rrun ls rworld0 = Some w.

(** ** Invariants *)

Definition holding (x : pendingCall) : list StreamFrame := match fwd x with FPush f => [f] | _ => [] end.

Definition all_more (l : list StreamFrame) : Prop := Forall (fun f => sf_More f = true) l.

(** [out] closes right after the first final frame, or when abandoned. *)
Definition final_ok (x : pendingCall) : Prop :=
  match fwd x with
  | FExit => (done x = true /\ all_more (taken x ++ out x))
             \/ exists l f, taken x ++ out x = l ++ [f] /\ all_more l /\ sf_More f = false
  | _ => all_more (taken x ++ out x)
  end.

Record pend_ok (x : pendingCall) : Prop := {
  po_inbox : (length (inbox x) <= chan_cap)%nat;
  po_out : (length (out x) <= chan_cap)%nat;
  po_fifo : exists lost, map to_stream_frame (accepted x) = taken x ++ out x ++ holding x ++ lost ++ inbox x
    /\ (done x = false \/ out_closed x = false -> lost = []);
  po_ids : Forall (fun f => MsgID f = call_id x) (accepted x);
  po_final : final_ok x }.

Lemma newPendingCall_ok id : pend_ok (newPendingCall id).
Proof. constructor; cbn; try lia; try done; [by exists []|constructor]. Qed.

Lemma pending_send_ok f b x r x' :
  pend_ok x -> MsgID f = call_id x -> pending_send f b x = Some (r, x') ->
  pend_ok x' /\ call_id x' = call_id x.
Proof.
  intros Hok Hid. unfold pending_send. destruct b; try done.
  - destruct Hok as [H1 H2 (lost & H3 & H3') H4 H5].
    destruct (Nat.ltb_spec (length (inbox x)) chan_cap); intros [= <- <-]. split; [|done]. constructor; cbn; try done.
    + rewrite length_app. cbn. lia.
    + exists lost. split; [|done]. rewrite map_app, H3. cbn. by rewrite <- !app_assoc.
    + apply Forall_app. split; [done|]. by constructor.
  - destruct (done x); by intros [= <- <-].
Qed.

Lemma all_more_snoc l f : all_more l -> sf_More f = true -> all_more (l ++ [f]).
Proof. intros Hl Hf. apply Forall_app. split; [done|]. by constructor. Qed.

Lemma forward_ok b x x' : pend_ok x -> forward b x = Some x' -> pend_ok x' /\ call_id x' = call_id x.
Proof.
  intros [H1 H2 (lost & H3 & H3') H4 H5]. unfold forward, holding, final_ok, out_closed in *.
  destruct (fwd x) as [|f|] eqn:Ef; try done; rewrite H3' in H3 by auto; cbn [app] in H3; destruct b; try done.
  - destruct (inbox x) as [|f q] eqn:Ei; [done|]. intros [= <-]. split; [|done]. constructor; cbn; try done.
    + cbn in H1. lia.
    + by exists [].
  - destruct (done x) eqn:Ed; intros [= <-]. split; [|done]. constructor; cbn; try done.
    + by exists [].
    + left. done.
  - destruct (Nat.ltb_spec (length (out x)) chan_cap); intros [= <-]. split; [|done].
    assert (final_ok (mkPending (inbox x) (out x ++ [f]) (done x) (if sf_More f then FSelect else FExit)
      (call_id x) (accepted x) (taken x))) as Hfin.
    { unfold final_ok. cbn. rewrite app_assoc. destruct (sf_More f) eqn:Em; [by apply all_more_snoc|]. right. eauto. }
    constructor; cbn; try done.
    + rewrite length_app. cbn. lia.
    + exists []. split; [|done]. rewrite H3. unfold holding. cbn. destruct (sf_More f); by rewrite <- !app_assoc.
  - destruct (done x) eqn:Ed; intros [= <-]. split; [|done]. constructor; cbn; try done.
    + exists [f]. split; [by rewrite H3|]. by intros [?|?]; [congruence|].
    + left. done.
Qed.

Lemma pending_finish_ok x : pend_ok x -> pend_ok (pending_finish x).
Proof.
  intros [H1 H2 (lost & H3 & H3') H4 H5]. constructor; cbn; try done.
  - exists lost. split; [done|]. intros [?|?]; [done|auto].
  - unfold final_ok in *. cbn. destruct (fwd x); auto. destruct H5 as [[_ ?]|?]; auto.
Qed.

Lemma pending_take_ok x r x' : pend_ok x -> pending_take x = Some (r, x') -> pend_ok x' /\ call_id x' = call_id x.
Proof.
  intros Hok. unfold pending_take. destruct (out x) as [|f q] eqn:Eo.
  - destruct (out_closed x); by intros [= <- <-].
  - destruct Hok as [H1 H2 (lost & H3 & H3') H4 H5]. rewrite Eo in *.
    assert (taken x ++ f :: q = (taken x ++ [f]) ++ q) as E by (by rewrite <- app_assoc).
    intros [= <- <-]. split; [|done]. constructor; cbn; try done.
    + cbn in H2. lia.
    + exists lost. split; [|done]. rewrite H3. unfold holding. cbn. by rewrite <- app_assoc.
    + unfold final_ok in *. cbn. rewrite Eo in H5. by rewrite <- E.
Qed.

(** *** The client *)

Definition b2nat (b : bool) : nat := if b then 1%nat else 0%nat.

Record client_ok (c : Client) : Prop := {
  ck_calls : Forall pend_ok (c_calls c);
  ck_pending : forall id p, c_pending c !! id = Some p -> exists x, c_calls c !! p = Some x /\ call_id x = id;
  ck_closeCh : c_closeCh c = b2nat (c_closed c);
  ck_msgID : 0 <= c_msgID c < 2 ^ 32 }.

(** Call objects are never removed and keep their id. *)
Definition calls_mono (c c' : Client) : Prop :=
  forall p x, c_calls c !! p = Some x -> exists x', c_calls c' !! p = Some x' /\ call_id x' = call_id x.

Definition rwg (i : rinstr) : nat := match i with RWgDone => 1 | _ => 0 end.

(** What a pending step relies on: a frame is sent to the call it names. *)
Definition rfact (c : Client) (i : rinstr) : Prop :=
  match i with
  | RSend p f => exists x, c_calls c !! p = Some x /\ call_id x = MsgID f
  | _ => True
  end.

Lemma rfact_mono c c' i : calls_mono c c' -> rfact c i -> rfact c' i.
Proof.
  intros Hm. destruct i; try done. intros (x & E1 & E2). destruct (Hm p x E1) as (x' & ? & ?).
  exists x'. split; [done|congruence].
Qed.

(** What one step guarantees. *)
Record rgood (c : Client) (i : rinstr) (p : rprogress) : Prop := {
  rg_ok : client_ok (rafter p);
  rg_mono : calls_mono c (rafter p);
  rg_facts : Forall (rfact (rafter p)) (rpushed p) /\ Forall (Forall (rfact (rafter p))) (rspawned p);
  rg_wg : c_wg (rafter p) + Z.of_nat (rwg i)
    = c_wg c + Z.of_nat (tally rwg (rpushed p)) + Z.of_nat (tally_pool rwg (rspawned p)) }.

Lemma calls_mono_refl c : calls_mono c c.
Proof. intros p x E. eauto. Qed.

Lemma calls_mono_same c c' : c_calls c' = c_calls c -> calls_mono c c'.
Proof. intros E p x. rewrite E. eauto. Qed.

Lemma calls_mono_put c p x x' :
  c_calls c !! p = Some x -> call_id x' = call_id x -> calls_mono c (put_call p x' c).
Proof.
  intros Hp Hid q y Hq. cbn. destruct (decide (q = p)) as [->|Hne].
  - rewrite list_lookup_insert_eq by (by eapply lookup_lt_Some). exists x'. split; [done|congruence].
  - rewrite list_lookup_insert_ne by done. eauto.
Qed.

Lemma put_call_ok c p x x' :
  client_ok c -> c_calls c !! p = Some x -> pend_ok x' -> call_id x' = call_id x -> client_ok (put_call p x' c).
Proof.
  intros [H1 H2 H3 H4] Hp Hx Hid. constructor; cbn; try done.
  - by apply Forall_insert.
  - intros id q E. destruct (H2 id q E) as (y & E1 & E2).
    destruct (calls_mono_put c p x x' Hp Hid q y E1) as (y' & ? & ?). exists y'. split; [done|congruence].
Qed.

(** Steps that leave the client's calls, table and counters alone. *)
Lemma rgood_same c c' i todo :
  client_ok c -> c_calls c' = c_calls c -> (forall id p, c_pending c' !! id = Some p -> c_pending c !! id = Some p) ->
  c_closed c' = c_closed c -> c_closeCh c' = c_closeCh c -> 0 <= c_msgID c' < 2 ^ 32 -> c_wg c' = c_wg c ->
  rwg i = 0%nat -> tally rwg todo = 0%nat -> Forall (rfact c') todo -> rgood c i (rnext todo c').
Proof.
  intros [H1 H2 H3 H4] E1 E2 E3 E4 E5 E6 Hi Ht Hf. constructor; cbn [rafter rpushed rspawned rnext]; try done.
  - constructor; rewrite ?E1, ?E3, ?E4; auto.
  - by apply calls_mono_same.
  - rewrite E6, Hi, Ht. cbn. lia.
Qed.

(** Steps on one call object. *)
Lemma rgood_put c p x x' i todo :
  client_ok c -> c_calls c !! p = Some x -> pend_ok x' -> call_id x' = call_id x ->
  rwg i = 0%nat -> tally rwg todo = 0%nat -> Forall (rfact (put_call p x' c)) todo ->
  rgood c i (rnext todo (put_call p x' c)).
Proof.
  intros Hc Hp Hx Hid Hi Ht Hf. constructor; cbn [rafter rpushed rspawned rnext]; try done.
  - by apply (put_call_ok c p x).
  - by apply (calls_mono_put c p x).
  - rewrite Hi, Ht. cbn. lia.
Qed.

Lemma shutdown_good c c' : client_ok c -> shutdown_locked c = Some c' -> rgood c RShutdown (rnext [RWgWait] c').
Proof.
  intros [H1 H2 H3 H4]. unfold shutdown_locked. destruct (c_closed c) eqn:Ec; [done|]. intros [= <-].
  set (f := fun i p => if bool_decide _ then pending_finish p else p).
  constructor; [| |by split; repeat constructor|cbn; lia].
  - constructor; cbn; try done; [|by rewrite H3].
    rewrite Forall_lookup in *. intros i x. rewrite list_lookup_imap.
    destruct (c_calls c !! i) as [y|] eqn:Ey; intros [= <-]. subst f. cbn.
    case_bool_decide; [apply pending_finish_ok|]; by apply (H1 i).
  - intros p x E. cbn. rewrite list_lookup_imap, E. cbn. eexists. split; [done|].
    subst f. cbn. by case_bool_decide.
Qed.

Lemma readLoop_route_good f c : client_ok c -> rgood c (RRoute f) (readLoop_route f c).
Proof.
  intros Hc. pose proof Hc as [H1 H2 H3 H4]. unfold readLoop_route.
  destruct (c_closed c); [apply rgood_same; by auto|].
  destruct (c_pending c !! MsgID f) as [p|] eqn:E.
  - destruct (H2 _ _ E) as (x & E1 & E2).
    destruct (is_response f); apply rgood_same; auto; repeat constructor; cbn; eauto.
  - apply rgood_same; auto. by repeat constructor.
Qed.

Lemma CallFlags_receive_good call q id second b x c p :
  client_ok c -> c_calls c !! q = Some x -> CallFlags_receive call q id second b x c = Some p ->
  rgood c (KReceive call q id second) p.
Proof.
  intros Hc Hx. unfold CallFlags_receive.
  assert (pend_ok x) as Hok by (by eapply (Forall_lookup_1 _ _ _ _ (ck_calls c Hc))).
  destruct b; try done.
  - destruct (pending_take x) as [[[f|] x']|] eqn:E; [| |done]; apply pending_take_ok in E as [E1 E2]; try done.
    + case_match; intros [= <-]; apply (rgood_put c q x); try done; by repeat constructor.
    + intros [= <-]; apply (rgood_put c q x); try done; by repeat constructor.
  - intros [= <-]. apply rgood_same; auto; try (by repeat constructor). apply ck_msgID, Hc.
  - case_match; [|done]. intros [= <-]. apply rgood_same; auto; try (by repeat constructor). apply ck_msgID, Hc.
Qed.

Lemma allocMsgID_range c : 0 < (allocMsgID c).1 < 2 ^ 32.
Proof.
  unfold allocMsgID, to_u. cbn. pose proof (Z.mod_pos_bound (c_msgID c + 1) (2 ^ 32) ltac:(lia)).
  destruct (Z.eqb_spec ((c_msgID c + 1) mod 2 ^ 32) 0); lia.
Qed.

Lemma addPending_good call stream id typ flags body c :
  client_ok c ->
  let '(p, c') := addPending id c in
  rgood c (KAdd call stream id typ flags body)
    (mkRProgress [KWrite call stream p id typ flags body] [[RForward p]] c').
Proof.
  intros [H1 H2 H3 H4]. unfold addPending. cbn zeta.
  assert (forall p x, c_calls c !! p = Some x -> (c_calls c ++ [newPendingCall id]) !! p = Some x) as Hl.
  { intros p x E. by apply lookup_app_l_Some. }
  constructor; [| |by split; repeat constructor|cbn; lia].
  - constructor; cbn; try done.
    + apply Forall_app. split; [done|]. constructor; [apply newPendingCall_ok|done].
    + intros id' p. rewrite lookup_insert_Some. intros [[<- <-]|[_ E]].
      * exists (newPendingCall id). split; [|done]. by apply list_lookup_middle.
      * destruct (H2 id' p E) as (x & ? & ?). exists x. auto.
  - intros p x E. exists x. split; [by apply Hl|done].
Qed.

Lemma rstep_good i e c p : client_ok c -> rfact c i -> rstep i e c = Some p -> rgood c i p.
Proof.
  intros Hc Hf. pose proof Hc as [H1 H2 H3 H4].
  assert (forall q g, on_call q c g = Some p -> exists x, c_calls c !! q = Some x /\ pend_ok x /\ g x = Some p) as Hcall.
  { intros q g. unfold on_call. destruct (c_calls c !! q) as [x|] eqn:E; [|done]. intros Hg. exists x.
    split; [done|]. split; [|done]. by eapply Forall_lookup_1. }
  assert (forall todo, rwg i = 0%nat -> tally rwg todo = 0%nat -> Forall (rfact c) todo -> rgood c i (rnext todo c)) as Hsame.
  { intros. apply rgood_same; auto. }
  destruct i; cbn [rstep]; destruct e; try done; intros H; try (apply Hcall in H as (x & Hx & Hok & H)).
  - injection H as <-. apply Hsame; try done; case_match; by repeat constructor.
  - destruct r as [f|err]; [destruct (frame_ok f); [|done]|]; injection H as <-; apply Hsame; try done; by repeat constructor.
  - injection H as <-. apply Hsame; try done; case_match; by repeat constructor.
  - injection H as <-. by apply readLoop_route_good.
  - destruct (pending_send f b x) as [[r x']|] eqn:E; [|done]. injection H as <-.
    destruct Hf as (y & Hy & Hid). rewrite Hx in Hy. injection Hy as <-.
    destruct (pending_send_ok f b x r x' Hok (eq_sym Hid) E) as [? ?]. by apply (rgood_put c p0 x).
  - injection H as <-. apply rgood_same; auto. intros id' q. cbn. by rewrite lookup_delete_Some; intros [_ ?].
  - destruct (shutdown_locked c) as [c'|] eqn:E; injection H as <-; [by apply shutdown_good|by apply Hsame].
  - destruct (c_wg c =? 0); [|done]. injection H as <-. by apply Hsame.
  - injection H as <-. constructor; [by constructor|by apply calls_mono_same|by split; repeat constructor|cbn; lia].
  - destruct (forward b x) as [x'|] eqn:E; [|done]. injection H as <-. destruct (forward_ok b x x' Hok E) as [? ?].
    apply (rgood_put c p0 x); try done; case_match; by repeat constructor.
  - destruct (c_started c); injection H as <-; apply rgood_same; auto; by repeat constructor.
  - injection H as <-.
    constructor; [by constructor|by apply calls_mono_same|by split; repeat constructor|cbn; lia].
  - destruct b; try done. injection H as <-. apply Hsame; by repeat constructor.
  - injection H as <-. pose proof (allocMsgID_range c) as Hr. cbn in Hr.
    apply rgood_same; auto; try (cbn; lia); by repeat constructor.
  - pose proof (addPending_good call stream id typ flags body c Hc) as Hg. destruct (addPending id c). by injection H as <-.
  - destruct r; [injection H as <-; apply Hsame; try done; by repeat constructor|].
    destruct stream; injection H as <-.
    + constructor; [by constructor|by apply calls_mono_same|by split; repeat constructor|cbn; lia].
    + apply rgood_same; auto; by repeat constructor.
  - by apply (CallFlags_receive_good call p0 id second b x).
  - unfold StreamFlags_watch in H. destruct b; try done; [|case_match; [|done]]; injection H as <-; apply Hsame; by repeat constructor.
  - injection H as <-. apply (rgood_put c p0 x); try done. by apply pending_finish_ok.
  - injection H as <-. apply rgood_same; auto.
  - injection H as <-. apply rgood_same; auto.
Qed.

(** *** The system *)

Record rworld_ok (w : RWorld) : Prop := {
  rw_client : client_ok (cl w);
  rw_facts : Forall (Forall (rfact (cl w))) (rpool w);
  rw_wg : c_wg (cl w) = Z.of_nat (tally_pool rwg (rpool w)) }.

Lemma rworld0_ok : rworld_ok rworld0.
Proof. by repeat constructor. Qed.

Lemma facts_mono c c' gs : calls_mono c c' -> Forall (Forall (rfact c)) gs -> Forall (Forall (rfact c')) gs.
Proof.
  intros Hm H. eapply Forall_impl; [exact H|]. intros g Hg. eapply Forall_impl; [exact Hg|].
  intros i. by apply rfact_mono.
Qed.

Lemma rworld_step_ok l w w' : rworld_ok w -> rworld_step l w = Some w' -> rworld_ok w'.
Proof.
  intros [Hc Hf Hw]. destruct l as [t e|a|p]; cbn [rworld_step].
  - destruct (rpool w !! t) as [[|i rest]|] eqn:Et; try done.
    pose proof (Forall_lookup_1 _ _ _ _ Hf Et) as Hfs. apply Forall_cons in Hfs as [Hfi Hfr].
    destruct (rstep i e (cl w)) as [pr|] eqn:E; [|done]. apply rstep_good in E as [G1 G2 [G3 G3'] G4]; [|done..].
    destruct pr as [todo gs c]. cbn [rafter rpushed rspawned] in *. intros [= <-]. constructor; cbn [cl rpool]; [done| |].
    + apply Forall_app. split; [|done]. apply Forall_insert; [by apply (facts_mono (cl w))|].
      apply Forall_app. split; [done|]. eapply Forall_impl; [exact Hfr|]. intros j. by apply rfact_mono.
    + rewrite tally_pool_app. pose proof (tally_pool_insert rwg (rpool w) t (i :: rest) (todo ++ rest) Et) as Hs.
      rewrite tally_app in Hs. rewrite tally_cons in Hs. lia.
  - intros [= <-]. constructor; cbn [cl rpool]; [done| |].
    + apply Forall_app. split; [done|]. destruct a; by repeat constructor.
    + rewrite tally_pool_app. destruct a; cbn; lia.
  - destruct (c_calls (cl w) !! p) as [x|] eqn:Ex; [|done].
    destruct (pending_take x) as [[r x']|] eqn:E; [|done]. intros [= <-].
    apply pending_take_ok in E as [E1 E2]; [|by eapply (Forall_lookup_1 _ _ _ _ (ck_calls _ Hc))].
    constructor; cbn [cl rpool]; [by apply (put_call_ok _ p x)| |done].
    by apply (facts_mono (cl w)); [apply (calls_mono_put _ p x)|].
Qed.

Lemma rrun_ok ls w w' : rworld_ok w -> rrun ls w = Some w' -> rworld_ok w'.
Proof.
  revert w; induction ls as [|l ls IH]; intros w Hw; cbn; [by intros [= <-]|].
  destruct (rworld_step l w) as [w1|] eqn:E; [|done]. apply IH. by apply (rworld_step_ok l w).
Qed.

Lemma rreachable_ok w : rreachable w -> rworld_ok w.
Proof. intros [ls H]. by apply (rrun_ok ls rworld0); [apply rworld0_ok|]. Qed.

(** A goroutine that still has its [Done] to call is counted. *)
Lemma rwg_counted w t rest :
  rworld_ok w -> rpool w !! t = Some (RWgWait :: rest) -> RWgDone ∈ rest -> 0 < c_wg (cl w).
Proof.
  intros [_ _ Hw] Ht Hin. apply list_elem_of_lookup_2 in Ht. apply (tally_pool_elem rwg) in Ht.
  apply (tally_elem rwg) in Hin. rewrite tally_cons in Ht. cbn in Hin, Ht. lia.
Qed.

(** The id sequence is a cycle through 1 .. 2^32 - 1. *)
Definition allocMsgID_nth (n : nat) (c : Client) : Z := (Nat.iter n (fun c => (allocMsgID c).2) c).(c_msgID).

Lemma allocMsgID_next c :
  0 <= c_msgID c < 2 ^ 32 -> c_msgID (allocMsgID c).2 = c_msgID c mod (2 ^ 32 - 1) + 1.
Proof.
  intros Hc. unfold allocMsgID, to_u. cbn [snd c_msgID set_msgID].
  destruct (Z.eq_dec (c_msgID c) (2 ^ 32 - 1)) as [->|E]; [reflexivity|].
  rewrite !Z.mod_small by lia. by destruct (Z.eqb_spec (c_msgID c + 1) 0); [lia|].
Qed.

Lemma allocMsgID_closed_form n c :
  0 <= c_msgID c < 2 ^ 32 ->
  allocMsgID_nth (S n) c = (c_msgID c + Z.of_nat n) mod (2 ^ 32 - 1) + 1.
Proof.
  intros Hc. unfold allocMsgID_nth. induction n as [|n IH].
  - rewrite Z.add_0_r. by apply allocMsgID_next.
  - rewrite Nat.iter_succ, allocMsgID_next; rewrite IH.
    + rewrite Zplus_mod_idemp_l. do 2 f_equal. lia.
    + pose proof (Z.mod_pos_bound (c_msgID c + Z.of_nat n) (2 ^ 32 - 1) ltac:(lia)). lia.
Qed.

(** ** Theorems *)

(** C32: the frames of a call, in every interleaving of the read loop, the
    forwarders, callers and consumers: what its consumer has received is a
    prefix of the frames the read loop accepted for it, never duplicated or
    reordered; as long as the call is not done (its caller has not finished or
    cancelled it and the client is not shut down) the accepted frames are
    exactly those received, in [out], in the forwarder's hands and in [inbox],
    in order, so none is lost; every one of them carries the call's message id;
    and no channel exceeds its capacity. *)
Theorem rpc_call_fifo (w : RWorld) (p : nat) (x : pendingCall)
    (H : rreachable w) (Hx : c_calls (cl w) !! p = Some x) :
  taken x `prefix_of` map to_stream_frame (accepted x)
  /\ (done x = false ->
      map to_stream_frame (accepted x) = taken x ++ out x ++ holding x ++ inbox x)
  /\ Forall (fun f => MsgID f = call_id x) (accepted x)
  /\ (length (inbox x) <= chan_cap)%nat /\ (length (out x) <= chan_cap)%nat.
Proof.
  destruct (rreachable_ok w H) as [Hc _ _].
  destruct (Forall_lookup_1 _ _ _ _ (ck_calls _ Hc) Hx) as [H1 H2 (lost & H3 & H3') H4 _].
  split_and!; try done.
  - rewrite H3. by eexists.
  - intros Hd. by rewrite H3, H3' by auto.
Qed.

(** A call's channel closes at the right time.  While the forwarder runs,
    every frame it delivered announces more; it closes the channel right
    after the first final frame, or because the call was abandoned. *)
Theorem rpc_channel_closes_after_final (w : RWorld) (p : nat) (x : pendingCall)
    (H : rreachable w) (Hx : c_calls (cl w) !! p = Some x) :
  (out_closed x = false -> all_more (taken x ++ out x))
  /\ (out_closed x = true -> done x = false ->
      exists l f, taken x ++ out x = l ++ [f] /\ all_more l /\ sf_More f = false).
Proof.
  destruct (rreachable_ok w H) as [Hc _ _].
  destruct (Forall_lookup_1 _ _ _ _ (ck_calls _ Hc) Hx) as [_ _ _ _ H5]. unfold final_ok, out_closed in *.
  destruct (fwd x); split; try done. intros _ Hd. destruct H5 as [[E _]|H5]; [congruence|done].
Qed.

(** C33: message ids are never 0, fit 32 bits, and repeat only after
    2^32 - 1 allocations: two calls whose allocations are closer than that have
    different ids. *)
Theorem rpc_msg_ids (c : Client) (i j : nat)
    (Hc : 0 <= c_msgID c < 2 ^ 32) (Hij : (i < j)%nat) (Hd : Z.of_nat j - Z.of_nat i < 2 ^ 32 - 1) :
  0 < allocMsgID_nth (S i) c < 2 ^ 32 /\ allocMsgID_nth (S i) c <> allocMsgID_nth (S j) c.
Proof.
  rewrite !allocMsgID_closed_form by done. set (a := c_msgID c + Z.of_nat i).
  pose proof (Z.mod_pos_bound a (2 ^ 32 - 1) ltac:(lia)). split; [lia|]. intros E.
  assert ((c_msgID c + Z.of_nat j - a) mod (2 ^ 32 - 1) = 0) as Ez.
  { rewrite Zminus_mod. replace (a mod (2 ^ 32 - 1)) with ((c_msgID c + Z.of_nat j) mod (2 ^ 32 - 1)) by lia.
    by rewrite Z.sub_diag. }
  rewrite Z.mod_small in Ez by lia. lia.
Qed.

Lemma rpc_msg_ids_witness :
  allocMsgID_nth 1 (set_msgID (2 ^ 32 - 1) NewClient) = 1
  /\ allocMsgID_nth 1 (set_msgID (2 ^ 32 - 1) NewClient) <> allocMsgID_nth 3 (set_msgID (2 ^ 32 - 1) NewClient).
Proof.
  split; [reflexivity|]. apply (rpc_msg_ids (set_msgID (2 ^ 32 - 1) NewClient) 0 2); cbn; lia.
Defined.

(** A call, answered by STARTED and a final PONG. *)
Definition rpc_demo : list rlabel :=
  [RCall AStart; RRun 0 EvRun; RRun 0 EvRun; RCall (ACallFlags TypePING 0 []);
   RRun 3 EvRun; RRun 3 EvRun; RRun 3 (EvWrite None);
   RRun 1 EvRun; RRun 1 (EvFrame (Ok (Request_Started (mkRequest TypePING 1 0 []) false))); RRun 1 EvRun;
   RRun 1 (EvBranch BFrame);
   RRun 1 EvRun; RRun 1 (EvFrame (Ok (Request_Respond (mkRequest TypePING 1 0 []) TypePONG (str "pong")))); RRun 1 EvRun;
   RRun 1 (EvBranch BFrame);
   RRun 4 (EvBranch BFrame); RRun 4 (EvBranch BFrame); RRun 3 (EvBranch BFrame);
   RRun 4 (EvBranch BFrame); RRun 4 (EvBranch BFrame); RRun 3 (EvBranch BFrame);
   RRun 3 EvRun; RRun 3 EvRun; RRun 3 EvRun].

Definition rpc_world (ls : list rlabel) : RWorld := default rworld0 (rrun ls rworld0).

Lemma rpc_demo_reachable : rreachable (rpc_world rpc_demo).
Proof. exists rpc_demo. vm_compute. reflexivity. Qed.

Definition rpc_demo_call : pendingCall := default (newPendingCall 0) (c_calls (cl (rpc_world rpc_demo)) !! 0%nat).

Lemma rpc_call_fifo_witness :
  c_results (cl (rpc_world rpc_demo)) = [(1%nat, CResponse (mkResponse TypePONG (str "pong")))]
  /\ length (accepted rpc_demo_call) = 2%nat
  /\ taken rpc_demo_call `prefix_of` map to_stream_frame (accepted rpc_demo_call).
Proof.
  split; [vm_compute; reflexivity|]. split; [vm_compute; reflexivity|].
  apply (rpc_call_fifo (rpc_world rpc_demo) 0 rpc_demo_call rpc_demo_reachable). vm_compute. reflexivity.
Defined.

Lemma rpc_channel_closes_after_final_witness :
  out_closed rpc_demo_call = true
  /\ (out_closed rpc_demo_call = false -> all_more (taken rpc_demo_call ++ out rpc_demo_call)).
Proof.
  split; [vm_compute; reflexivity|].
  apply (rpc_channel_closes_after_final (rpc_world rpc_demo) 0 rpc_demo_call rpc_demo_reachable). vm_compute. reflexivity.
Defined.

Lemma rwait_stuck w t rest :
  rworld_ok w -> rpool w !! t = Some (RWgWait :: rest) -> RWgDone ∈ rest ->
  forall e, rworld_step (RRun t e) w = None.
Proof.
  intros Hok Ht Hin e. pose proof (rwg_counted w t rest Hok Ht Hin). cbn [rworld_step]. rewrite Ht.
  destruct e; try done. cbn [rstep]. destruct (Z.eqb_spec (c_wg (cl w)) 0); [lia|done].
Qed.

Lemma rworld_step_other l w w' t g :
  rworld_step l w = Some w' -> (forall e, l <> RRun t e) -> rpool w !! t = Some g -> rpool w' !! t = Some g.
Proof.
  intros H Hl Ht. pose proof (lookup_lt_Some _ _ _ Ht). destruct l as [t' e|a|p]; cbn [rworld_step] in H.
  - destruct (decide (t' = t)) as [->|Hne]; [by destruct (Hl e)|].
    destruct (rpool w !! t') as [[|i rest]|]; try done. destruct (rstep i e (cl w)) as [[]|]; [|done].
    injection H as <-. cbn [rpool]. apply lookup_app_l_Some. by rewrite list_lookup_insert_ne.
  - injection H as <-. cbn [rpool]. by apply lookup_app_l_Some.
  - repeat case_match; simplify_eq. done.
Qed.

Lemma waits_forever ls : forall w w' t rest,
  rworld_ok w -> rpool w !! t = Some (RWgWait :: rest) -> RWgDone ∈ rest -> rrun ls w = Some w' ->
  rpool w' !! t = Some (RWgWait :: rest) /\ 0 < c_wg (cl w').
Proof.
  induction ls as [|l ls IH]; intros w w' t rest H Ht Hd; cbn [rrun].
  - intros [= <-]. split; [done|]. by apply (rwg_counted w t rest).
  - destruct (rworld_step l w) as [w1|] eqn:E; [|done].
    assert (forall e, l <> RRun t e) as Hl.
    { intros e ->. by rewrite (rwait_stuck w t rest) in E. }
    apply IH; [by apply (rworld_step_ok l w)|by apply (rworld_step_other l w)|done].
Qed.

(** One step of goroutine [t] that only replaces the head of its stack. *)
Lemma rworld_step_head w t i rest e todo c :
  rpool w !! t = Some (i :: rest) -> rstep i e (cl w) = Some (rnext todo c) ->
  rworld_step (RRun t e) w = Some (mkRWorld c (<[t := todo ++ rest]> (rpool w)) (rcalls w)).
Proof. intros Ht E. cbn [rworld_step]. rewrite Ht, E. cbn [rnext]. by rewrite app_nil_r. Qed.

(** C38: when the connection fails, the client's read loop never returns.
    In any reachable state in which the read loop waits for a frame and the
    client is open, let the read fail with any error: three steps of the loop
    later, the check of its context and the call of [shutdown], it waits for the
    WaitGroup in [shutdown] with its own [wg.Done] still deferred below that
    call, and it is in the same place in every later state, whatever anyone
    does. *)
Theorem readLoop_waits_for_itself (w : RWorld) (t : nat) (err : error)
    (H : rreachable w) (Ht : rpool w !! t = Some [RRead; RWgDone])
    (Hopen : c_closed (cl w) = false) (Hctx : c_cancelled (cl w) = false) :
  exists w1, rrun [RRun t (EvFrame (Err err)); RRun t EvRun; RRun t EvRun] w = Some w1 /\
    forall ls w', rrun ls w1 = Some w' -> rpool w' !! t = Some [RWgWait; RWgDone] /\ 0 < c_wg (cl w').
Proof.
  pose proof (lookup_lt_Some _ _ _ Ht) as Hlt.
  destruct (shutdown_locked (cl w)) as [c'|] eqn:Es; [|by unfold shutdown_locked in Es; rewrite Hopen in Es].
  set (w1 := mkRWorld c' (<[t := [RWgWait; RWgDone]]> (rpool w)) (rcalls w)).
  assert (rrun [RRun t (EvFrame (Err err)); RRun t EvRun; RRun t EvRun] w = Some w1) as E.
  { cbn [rrun].
    rewrite (rworld_step_head w t RRead [RWgDone] _ [RReadErr] (cl w)) by done.
    rewrite (rworld_step_head _ t RReadErr [RWgDone] _ [RShutdown] (cl w));
      [|by cbn [rpool]; rewrite list_lookup_insert_eq|by cbn [rstep cl]; rewrite Hctx].
    rewrite (rworld_step_head _ t RShutdown [RWgDone] _ [RWgWait] c');
      [|by cbn [rpool]; rewrite list_lookup_insert_eq by (by rewrite length_insert)|by cbn [rstep cl]; rewrite Es].
    cbn [rpool rcalls]. by rewrite !list_insert_insert_eq. }
  exists w1. split; [done|]. intros ls w' Hrun.
  apply (waits_forever ls w1 w' t [RWgDone]); [|by cbn; rewrite list_lookup_insert_eq|by constructor|done].
  apply (rrun_ok [RRun t (EvFrame (Err err)); RRun t EvRun; RRun t EvRun] w w1); [by apply rreachable_ok|done].
Qed.

Lemma readLoop_waits_for_itself_witness :
  exists w1, rrun [RRun 1 (EvFrame (Err io_EOF)); RRun 1 EvRun; RRun 1 EvRun]
    (rpc_world [RCall AStart; RRun 0 EvRun; RRun 0 EvRun; RRun 1 EvRun]) = Some w1 /\
    forall ls w', rrun ls w1 = Some w' -> rpool w' !! 1%nat = Some [RWgWait; RWgDone] /\ 0 < c_wg (cl w').
Proof.
  apply (readLoop_waits_for_itself (rpc_world [RCall AStart; RRun 0 EvRun; RRun 0 EvRun; RRun 1 EvRun]) 1 io_EOF).
  - exists [RCall AStart; RRun 0 EvRun; RRun 0 EvRun; RRun 1 EvRun]. vm_compute. reflexivity.
  - vm_compute. reflexivity.
  - vm_compute. reflexivity.
  - vm_compute. reflexivity.
Defined.

(** *** A closed channel stays empty *)

(** The channel of call [p] is closed and its consumer has had [l]. *)
Definition shut (p : nat) (l : list StreamFrame) (c : Client) : Prop :=
  exists x, c_calls c !! p = Some x /\ fwd x = FExit /\ out x = [] /\ taken x = l.

Lemma shut_same p l c c' : c_calls c' = c_calls c -> shut p l c -> shut p l c'.
Proof. unfold shut. by intros ->. Qed.

Lemma shut_put p l c q x x' :
  c_calls c !! q = Some x -> (fwd x = FExit -> out x = [] -> fwd x' = FExit /\ out x' = [] /\ taken x' = taken x) ->
  shut p l c -> shut p l (put_call q x' c).
Proof.
  intros Hq Hx (y & Hy & H1 & H2 & H3). unfold shut. cbn. destruct (decide (p = q)) as [->|Hne].
  - rewrite Hq in Hy. injection Hy as ->. destruct (Hx H1 H2) as (? & ? & ?).
    rewrite list_lookup_insert_eq by (by eapply lookup_lt_Some). exists x'. split_and!; try done. congruence.
  - rewrite list_lookup_insert_ne by done. eauto.
Qed.

Lemma take_shut x r x' : pending_take x = Some (r, x') ->
  fwd x = FExit -> out x = [] -> fwd x' = FExit /\ out x' = [] /\ taken x' = taken x.
Proof.
  unfold pending_take, out_closed. intros H Hf Ho. rewrite Ho, Hf in H. injection H as <- <-. done.
Qed.

Lemma rstep_shut i e c p l pr : rstep i e c = Some pr -> shut p l c -> shut p l (rafter pr).
Proof.
  assert (forall c' todo gs, c_calls c' = c_calls c -> shut p l c -> shut p l (rafter (mkRProgress todo gs c'))) as Hs
    by (intros c' todo gs; apply shut_same).
  unfold rstep, on_call, rnext. intros H.
  destruct i, e; try done; try (injection H as <-; by apply Hs); try (repeat case_match; simplify_eq; by apply Hs).
  - unfold readLoop_route, rnext in H. repeat case_match; simplify_eq; by apply Hs.
  - destruct (c_calls c !! p0) as [x|] eqn:Ex; [|done]. unfold pending_send in H.
    destruct b; try done; [destruct (_ <? _)%nat|destruct (done x)]; try done; injection H as <-; by apply (shut_put p l c p0 x).
  - unfold shutdown_locked in H. destruct (c_closed c); simplify_eq; [by apply Hs|].
    intros (x & Hx & H1 & H2 & H3). cbn. unfold shut. cbn. rewrite list_lookup_imap, Hx. cbn. eexists. split; [done|].
    by case_bool_decide.
  - destruct (c_calls c !! p0) as [x|] eqn:Ex; [|done]. destruct (forward b x) as [x'|] eqn:Ef; simplify_eq.
    apply (shut_put p l c p0 x); [done|]. intros Hf _. unfold forward in Ef. by rewrite Hf in Ef.
  - unfold addPending in H. simplify_eq. intros (x & Hx & H1). exists x. cbn. split; [|done]. by apply lookup_app_l_Some.
  - destruct (c_calls c !! p0) as [x|] eqn:Ex; [|done]. unfold CallFlags_receive, rnext in H. destruct b; try done.
    + destruct (pending_take x) as [[[f|] x']|] eqn:Et; [destruct (_ && _)| |done]; injection H as <-;
        apply (shut_put p l c p0 x); try done; by eapply take_shut.
    + simplify_eq. by apply Hs.
    + case_match; simplify_eq. by apply Hs.
  - unfold StreamFlags_watch, rnext in H. destruct b; try done; repeat case_match; simplify_eq; by apply Hs.
  - destruct (c_calls c !! p0) as [x|] eqn:Ex; [|done]. simplify_eq. by apply (shut_put p l c p0 x).
Qed.

Lemma rrun_shut ls p l : forall w w', rrun ls w = Some w' -> shut p l (cl w) -> shut p l (cl w').
Proof.
  induction ls as [|lb ls IH]; intros w w'; cbn [rrun]; [by intros [= <-]|].
  destruct (rworld_step lb w) as [w1|] eqn:E; [|done]. intros H Hs. apply (IH w1 w' H). clear IH H.
  destruct lb as [t e|a|q]; cbn [rworld_step] in E.
  - destruct (rpool w !! t) as [[|i rest]|]; try done. destruct (rstep i e (cl w)) as [[todo gs c]|] eqn:Er; [|done].
    injection E as <-. exact (rstep_shut i e (cl w) p l _ Er Hs).
  - by injection E as <-.
  - destruct (c_calls (cl w) !! q) as [x|] eqn:Ex; [|done]. destruct (pending_take x) as [[r x']|] eqn:Et; [|done].
    injection E as <-. cbn [cl]. apply (shut_put p l (cl w) q x); [done| |done]. by eapply take_shut.
Qed.

(** A stream call; the server sends its final frame and closes the connection. *)
Definition rpc_last_frame : Frame := Request_StreamEnd (mkRequest TypeEXEC 1 0 []) TypeEXECRESULT (str "ok").

Definition rpc_final_lost_run : list rlabel :=
  [RCall AStart; RRun 0 EvRun; RRun 0 EvRun; RCall (AStreamFlags TypeEXEC 0 (str "ls"));
   RRun 3 EvRun; RRun 3 EvRun; RRun 3 (EvWrite None); RRun 3 EvRun;
   RRun 1 EvRun; RRun 1 (EvFrame (Ok rpc_last_frame)); RRun 1 EvRun; RRun 1 (EvBranch BFrame); RRun 1 EvRun;
   RRun 1 EvRun; RRun 1 (EvFrame (Err io_EOF)); RRun 1 EvRun; RRun 1 EvRun;
   RRun 5 (EvBranch BClosed); RRun 5 EvRun; RRun 4 (EvBranch BDone)].

(** Neither the consumer's context ends nor anyone calls [Close]. *)
Definition undisturbed (l : rlabel) : bool :=
  match l with RCall ACloseClient | RRun _ (EvBranch (BCtx _)) => false | _ => true end.

(** C39: the final frame of a stream can be lost although the read loop accepted
    it.  The server sends it and closes the connection; the read loop puts the
    frame into the call's inbox, reads EOF and shuts the client down, and the
    watcher of the stream marks the call done; the forwarder's select may then
    take the done branch with the frame still in the inbox, and close the
    channel.  No context ended and nobody called [Close], and from then on the
    consumer only ever finds a closed channel, in every continuation. *)
Theorem rpc_final_frame_lost :
  exists (ls : list rlabel) (w : RWorld) (x : pendingCall),
    forallb undisturbed ls = true /\ rrun ls rworld0 = Some w /\
    c_results (cl w) = [(1%nat, CStream 0)] /\ c_calls (cl w) !! 0%nat = Some x /\
    accepted x = [rpc_last_frame] /\ sf_More (to_stream_frame rpc_last_frame) = false /\
    forall ls' w', rrun ls' w = Some w' ->
      exists x', c_calls (cl w') !! 0%nat = Some x' /\ taken x' = [] /\ pending_take x' = Some (None, x').
Proof.
  destruct (rrun rpc_final_lost_run rworld0) as [w|] eqn:E; [|by vm_compute in E].
  assert (shut 0 [] (cl w) /\ c_results (cl w) = [(1%nat, CStream 0)] /\
    exists x, c_calls (cl w) !! 0%nat = Some x /\ accepted x = [rpc_last_frame]) as (Hs & Hr & x & Hx & Ha).
  { vm_compute in E. injection E as Ew. rewrite <- Ew. split; [|split; [reflexivity|]].
    - eexists. split_and!; reflexivity.
    - eexists. split; reflexivity. }
  exists rpc_final_lost_run, w, x. split; [reflexivity|]. split; [exact E|]. split; [exact Hr|]. split; [exact Hx|].
  split; [exact Ha|]. split; [reflexivity|]. intros ls' w' Hrun.
  destruct (rrun_shut ls' 0 [] w w' Hrun Hs) as (x' & Hx' & H1 & H2 & H3).
  exists x'. split; [exact Hx'|]. split; [exact H3|]. unfold pending_take, out_closed. by rewrite H1, H2.
Qed.

(** A closed client still sends requests.  The documentation of [IsClosed]
    says that a closed client rejects all future calls; but no call looks at
    [closed]: after [shutdown] a [StreamFlags] writes its request to the
    connection and returns a channel with no error. *)
Theorem closed_client_still_sends :
  exists (ls : list rlabel) (w : RWorld),
    rrun ls rworld0 = Some w /\ c_closed (cl w) = true
    /\ c_wire (cl w) = [mkFrame TypeEXEC 0 1 (str "rm")] /\ c_results (cl w) = [(1%nat, CStream 0)].
Proof.
  exists [RCall AStart; RRun 0 EvRun; RRun 0 EvRun; RRun 2 (EvBranch (BCtx (Errorf (str "context canceled"))));
     RRun 2 EvRun; RCall (AStreamFlags TypeEXEC 0 (str "rm")); RRun 3 EvRun; RRun 3 EvRun; RRun 3 (EvWrite None); RRun 3 EvRun].
  eexists. split; [vm_compute; reflexivity|]. vm_compute. split_and!; reflexivity.
Qed.
