(* ===== verification/RpcServer.v ===== *)
(** * The RPC server: [protocol/rpc/server.go]

    [Serve] as a goroutine, [Handle] as a section under [Server.mu], and one
    goroutine per request running its handler.  Handlers are the user's code:
    here a handler is only known by its name (a number), and what it does is the
    environment's choice at every step: it writes any reply its [Request]
    offers, or returns.  Several [Serve] calls may share a server; each has its
    own context.

    A frame is written with one [Write] call, which puts all its bytes on the
    connection or fails after some of them.  [sv_read], [sv_reqs], [sv_log] and
    [sv_ended] record, for the proofs, the frames read, the requests dispatched
    with the handler looked up, the frames written with the request each
    answers, and the requests whose handler returned or whose refusal could not
    be written. *)
From Stdlib Require Import ZArith Lia.
From stdpp Require Import base list gmap strings.
From S2P Require Import Prelude GoIO Wire Frame Codec Messages Rpc.

Open Scope Z_scope.

(** ** What a handler can write *)

Inductive reply :=
  | AnsRespond (msgType : Z) (body : bytes)
  | AnsStream (msgType : Z) (body : bytes)
  | AnsStreamEnd (msgType : Z) (body : bytes)
  | AnsError (code : Z) (message : bytes)
  | AnsStarted (stream : bool).

Definition reply_frame (r : Request) (a : reply) : Frame :=
  match a with
  | AnsRespond t b => Request_Respond r t b
  | AnsStream t b => Request_Stream r t b
  | AnsStreamEnd t b => Request_StreamEnd r t b
  | AnsError c m => Request_Error r c m
  | AnsStarted b => Request_Started r b
  end.

(** ** The server *)

Record Server := mkServer {
  sv_handlers : gmap Z nat;
  sv_ctx : gmap nat error;                  (* ctx.Err() of the Serve calls whose context is done *)
  sv_out : bytes;                           (* the connection *)
  sv_cut : bool;                            (* a write failed *)
  sv_logged : list (Z * error);             (* log.Printf *)
  sv_results : list (nat * option error);   (* what Serve calls returned *)
  sv_read : list Frame;
  sv_reqs : list (Frame * option nat);
  sv_log : list (nat * Frame);
  sv_ended : list nat }.

Definition NewServer : Server := mkServer ∅ ∅ [] false [] [] [] [] [] [].

Definition Handle (msgType : Z) (h : nat) (s : Server) : Server :=
  mkServer (<[msgType := h]> (sv_handlers s)) (sv_ctx s) (sv_out s) (sv_cut s) (sv_logged s) (sv_results s)
    (sv_read s) (sv_reqs s) (sv_log s) (sv_ended s).

(** A context is done once and keeps its first error. *)
Definition cancel_ctx (call : nat) (e : error) (s : Server) : Server :=
  match sv_ctx s !! call with
  | Some _ => s
  | None => mkServer (sv_handlers s) (<[call := e]> (sv_ctx s)) (sv_out s) (sv_cut s) (sv_logged s) (sv_results s)
              (sv_read s) (sv_reqs s) (sv_log s) (sv_ended s)
  end.

Definition log_error (typ : Z) (e : error) (s : Server) : Server :=
  mkServer (sv_handlers s) (sv_ctx s) (sv_out s) (sv_cut s) (sv_logged s ++ [(typ, e)]) (sv_results s)
    (sv_read s) (sv_reqs s) (sv_log s) (sv_ended s).

Definition sv_return (call : nat) (r : option error) (s : Server) : Server :=
  mkServer (sv_handlers s) (sv_ctx s) (sv_out s) (sv_cut s) (sv_logged s) (sv_results s ++ [(call, r)])
    (sv_read s) (sv_reqs s) (sv_log s) (sv_ended s).

Definition got_frame (f : Frame) (s : Server) : Server :=
  mkServer (sv_handlers s) (sv_ctx s) (sv_out s) (sv_cut s) (sv_logged s) (sv_results s)
    (sv_read s ++ [f]) (sv_reqs s) (sv_log s) (sv_ended s).

Definition add_req (f : Frame) (h : option nat) (s : Server) : Server :=
  mkServer (sv_handlers s) (sv_ctx s) (sv_out s) (sv_cut s) (sv_logged s) (sv_results s)
    (sv_read s) (sv_reqs s ++ [(f, h)]) (sv_log s) (sv_ended s).

(** [WriteMVCPFrame] on the connection, for request [k]: a success, or an error
    after [n] bytes. *)
Definition write_reply (k : nat) (f : Frame) (w : option (nat * error)) (s : Server) : Server :=
  match w with
  | None => mkServer (sv_handlers s) (sv_ctx s) (sv_out s ++ EncodeMVCPFrame f) (sv_cut s) (sv_logged s) (sv_results s)
              (sv_read s) (sv_reqs s) (sv_log s ++ [(k, f)]) (sv_ended s)
  | Some (n, _) => mkServer (sv_handlers s) (sv_ctx s) (sv_out s ++ take n (EncodeMVCPFrame f)) true (sv_logged s)
              (sv_results s) (sv_read s) (sv_reqs s) (sv_log s) (sv_ended s)
  end.

(** Request [k] is over. *)
Definition end_req (k : nat) (s : Server) : Server :=
  mkServer (sv_handlers s) (sv_ctx s) (sv_out s) (sv_cut s) (sv_logged s) (sv_results s)
    (sv_read s) (sv_reqs s) (sv_log s) (sv_ended s ++ [k]).

(** ** Goroutines *)

Inductive vinstr :=
  | VSelect (call : nat) | VRead (call : nat) | VReadErr (call : nat) (e : error)
  | VDispatch (f : Frame)
  | VSendError (k : nat) (msgID : Z)
  | VHandler (k : nat) (h : nat) (req : Request)
  | VReturn (call : nat) (r : option error).

(** The environment's part of a step. *)
Inductive venv :=
  | VRun
  | VFrame (r : result Frame)
  | VWrite (w : option (nat * error))
  | VReply (a : reply) (w : option (nat * error))   (* a handler writes *)
  | VReturns (r : option error).                    (* a handler returns *)

Record vprogress := mkVProgress { vpushed : list vinstr; vspawned : list (list vinstr); vafter : Server }.
Definition vnext (todo : list vinstr) (s : Server) : vprogress := mkVProgress todo [] s.

Definition request_of (f : Frame) : Request := mkRequest (Type_ f) (MsgID f) (Flags f) (Body f).

(** [sendError]: the frame; its write error is dropped. *)
Definition Server_sendError (msgID code : Z) (message : bytes) : Frame :=
  Request_Error (mkRequest 0 msgID 0 []) code message.

Definition unknown_reply (msgID : Z) : Frame :=
  Server_sendError msgID ErrorCodeUnknownType (str "unknown message type").

(** [Serve] with a frame in hand. *)
Definition Serve_dispatch (f : Frame) (s : Server) : vprogress :=
  if is_response f then vnext [] s
  else
    let k := length (sv_reqs s) in
    match sv_handlers s !! Type_ f with
    | None => vnext [VSendError k (MsgID f)] (add_req f None s)
    | Some h => mkVProgress [] [[VHandler k h (request_of f)]] (add_req f (Some h) s)
    end.

Definition vstep (i : vinstr) (e : venv) (s : Server) : option vprogress :=
  match i, e with
  | VSelect call, VRun =>
      match sv_ctx s !! call with
      | Some err => Some (vnext [VReturn call (Some err)] s)
      | None => Some (vnext [VRead call] s)
      end
  | VRead call, VFrame (Ok f) =>
      if frame_ok f then Some (vnext [VDispatch f; VSelect call] (got_frame f s)) else None
  | VRead call, VFrame (Err err) => Some (vnext [VReadErr call err] s)
  | VReadErr call err, VRun =>
      match sv_ctx s !! call with
      | Some _ => Some (vnext [VReturn call None] s)
      | None => Some (vnext [VReturn call (Some err)] s)
      end
  | VDispatch f, VRun => Some (Serve_dispatch f s)
  | VSendError k id, VWrite None => Some (vnext [] (write_reply k (unknown_reply id) None s))
  | VSendError k id, VWrite (Some e) => Some (vnext [] (end_req k (write_reply k (unknown_reply id) (Some e) s)))
  | VHandler k h req, VReply a w => Some (vnext [VHandler k h req] (write_reply k (reply_frame req a) w s))
  | VHandler k h req, VReturns None => Some (vnext [] (end_req k s))
  | VHandler k h req, VReturns (Some err) => Some (vnext [] (end_req k (log_error (req_Type req) err s)))
  | VReturn call r, VRun => Some (vnext [] (sv_return call r s))
  | _, _ => None
  end.

(** ** The system *)

Record SWorld := mkSWorld { srv : Server; vpool : list (list vinstr); vcalls : nat }.

Inductive vlabel :=
  | VGo (t : nat) (e : venv)
  | VServe
  | VHandle (msgType : Z) (h : nat)
  | VCancel (call : nat) (e : error).

Definition vworld_step (l : vlabel) (w : SWorld) : option SWorld :=
  match l with
  | VGo t e =>
      match vpool w !! t with
      | Some (i :: rest) =>
          match vstep i e (srv w) with
          | Some (mkVProgress todo gs s) => Some (mkSWorld s (<[t := todo ++ rest]> (vpool w) ++ gs) (vcalls w))
          | None => None
          end
      | _ => None
      end
  | VServe => Some (mkSWorld (srv w) (vpool w ++ [[VSelect (vcalls w)]]) (S (vcalls w)))
  | VHandle t h => Some (mkSWorld (Handle t h (srv w)) (vpool w) (vcalls w))
  | VCancel call e => Some (mkSWorld (cancel_ctx call e (srv w)) (vpool w) (vcalls w))
  end.

Fixpoint vrun (ls : list vlabel) (w : SWorld) : option SWorld :=
  match ls with
  | [] => Some w
  | l :: ls => match vworld_step l w with Some w' => vrun ls w' | None => None end
  end.

Definition vworld0 : SWorld := mkSWorld NewServer [] 0.
Definition vreachable (w : SWorld) : Prop := exists ls, vrun ls vworld0 = Some w.

(** ** The invariant *)

(** Requests that satisfy [x], the steps that hold one, and the goroutines that
    serve request [k]: its handler, or [Serve] about to refuse it. *)
Definition req_is (x : Frame -> bool) (f : Frame) : nat := b2n (negb (is_response f) && x f).
Definition in_hand (x : Frame -> bool) (i : vinstr) : nat := match i with VDispatch f => req_is x f | _ => 0 end.
Definition serving (k : nat) (i : vinstr) : nat :=
  match i with VSendError k' _ | VHandler k' _ _ => b2n (k =? k')%nat | _ => 0 end.
Definition over (k k' : nat) : nat := b2n (k =? k')%nat.
Definition answers (k : nat) (p : nat * Frame) : nat := b2n (k =? p.1)%nat.

(** What a pending step relies on. *)
Definition vfact (s : Server) (i : vinstr) : Prop :=
  match i with
  | VSendError k id => exists q, sv_reqs s !! k = Some (q, None) /\ id = MsgID q
  | VHandler k h req => exists q, sv_reqs s !! k = Some (q, Some h) /\ req = request_of q
  | VReturn call None => is_Some (sv_ctx s !! call)
  | _ => True
  end.

(** A frame written for request [k]: what its handler wrote, or the refusal. *)
Definition answer_ok (s : Server) (p : nat * Frame) : Prop :=
  exists (q : Frame) (o : option nat), sv_reqs s !! p.1 = Some (q, o) /\ MsgID p.2 = MsgID q
    /\ match o with
       | Some _ => exists a, p.2 = reply_frame (request_of q) a
       | None => p.2 = unknown_reply (MsgID q)
       end.

(** The refusals written for request [k], when it has no handler. *)
Definition refusals (o : option nat) (k : nat) (l : list (nat * Frame)) : nat :=
  match o with None => tally (answers k) l | Some _ => 0 end.

Record server_ok (s : Server) (p : list (list vinstr)) : Prop := {
  so_facts : Forall (Forall (vfact s)) p;
  so_read : forall x, (tally (req_is x) (sv_read s) = tally (req_is x) ((sv_reqs s).*1) + tally_pool (in_hand x) p)%nat;
  so_reqs : Forall (fun q => is_response q.1 = false) (sv_reqs s);
  so_serving : forall k q o, sv_reqs s !! k = Some (q, o) ->
    (refusals o k (sv_log s) + tally_pool (serving k) p + tally (over k) (sv_ended s) = 1)%nat;
  so_ended : Forall (fun k => (k < length (sv_reqs s))%nat) (sv_ended s);
  so_log : Forall (answer_ok s) (sv_log s);
  so_out : sv_cut s = false -> sv_out s = concat (EncodeMVCPFrame <$> (sv_log s).*2);
  so_results : forall call, (call, None) ∈ sv_results s -> is_Some (sv_ctx s !! call) }.

(** Requests are only added, contexts only end. *)
Definition reqs_mono (s s' : Server) : Prop :=
  (forall k x, sv_reqs s !! k = Some x -> sv_reqs s' !! k = Some x)
  /\ forall call, is_Some (sv_ctx s !! call) -> is_Some (sv_ctx s' !! call).

Lemma vfact_mono s s' i : reqs_mono s s' -> vfact s i -> vfact s' i.
Proof.
  intros [H1 H2]. destruct i as [| | | | | |? []]; try done; cbn; [| |apply H2];
    intros (q & E & ->); apply H1 in E; eauto.
Qed.

Lemma vfacts_mono s s' p : reqs_mono s s' -> Forall (Forall (vfact s)) p -> Forall (Forall (vfact s')) p.
Proof.
  intros Hm H. eapply Forall_impl; [exact H|]. intros g Hg. eapply Forall_impl; [exact Hg|]. intros i. by apply vfact_mono.
Qed.

Lemma answer_ok_mono s s' l : reqs_mono s s' -> Forall (answer_ok s) l -> Forall (answer_ok s') l.
Proof. intros [H1 _] H. eapply Forall_impl; [exact H|]. intros p (q & o & E & ? & ?). apply H1 in E. by exists q, o. Qed.

(** The stacks after a step. *)
Lemma vfacts_step s s' p t i rest todo gs :
  Forall (Forall (vfact s)) p -> p !! t = Some (i :: rest) -> reqs_mono s s' ->
  Forall (vfact s') todo -> Forall (Forall (vfact s')) gs -> Forall (Forall (vfact s')) (<[t := todo ++ rest]> p ++ gs).
Proof.
  intros Hp Ht Hm Htodo Hgs. pose proof (vfacts_mono s s' p Hm Hp) as Hp'. apply Forall_app. split; [|done].
  apply Forall_insert; [done|]. apply Forall_app. split; [done|].
  by apply (Forall_lookup_1 _ _ _ _ Hp'), Forall_cons in Ht as [_ ?].
Qed.

(** No step and no frame belongs to a request that is not there yet. *)
Lemma no_serving s p k : Forall (Forall (vfact s)) p -> (length (sv_reqs s) <= k)%nat -> tally_pool (serving k) p = 0%nat.
Proof.
  intros H Hk. apply tally_pool_zero. eapply Forall_impl; [exact H|]. intros g Hg. eapply Forall_impl; [exact Hg|].
  intros [] Hi; try done; destruct Hi as (q & E%lookup_lt_Some & _); cbn; by rewrite (proj2 (Nat.eqb_neq _ _)) by lia.
Qed.

Lemma no_answers s k : Forall (answer_ok s) (sv_log s) -> (length (sv_reqs s) <= k)%nat ->
  tally (answers k) (sv_log s) = 0%nat.
Proof.
  intros H Hk. apply tally_zero. eapply Forall_impl; [exact H|]. intros [k' f] (q & o & E%lookup_lt_Some & _). unfold answers.
  cbn in *. by rewrite (proj2 (Nat.eqb_neq _ _)) by lia.
Qed.

Lemma no_over k n l : Forall (fun k => (k < n)%nat) l -> (n <= k)%nat -> tally (over k) l = 0%nat.
Proof.
  intros H Hk. apply tally_zero. eapply Forall_impl; [exact H|]. intros k' Hk'. unfold over. cbn in Hk'.
  by rewrite (proj2 (Nat.eqb_neq _ _)) by lia.
Qed.

Section Step.
Context (s : Server) (p : list (list vinstr)) (t : nat) (i : vinstr) (rest : list vinstr).
Context (Hok : server_ok s p) (Ht : p !! t = Some (i :: rest)).

(** Steps that neither dispatch nor write, some of which end a request. *)
Lemma quiet_ok s' todo :
  sv_reqs s' = sv_reqs s -> sv_log s' = sv_log s -> (sv_cut s' = false -> sv_cut s = false /\ sv_out s' = sv_out s) ->
  sv_ctx s' = sv_ctx s ->
  (forall call, (call, None) ∈ sv_results s' -> is_Some (sv_ctx s !! call)) ->
  (forall x, tally (req_is x) (sv_read s') + in_hand x i = tally (req_is x) (sv_read s) + tally (in_hand x) todo)%nat ->
  (forall k, tally (serving k) todo + tally (over k) (sv_ended s') = serving k i + tally (over k) (sv_ended s))%nat ->
  Forall (fun k => (k < length (sv_reqs s))%nat) (sv_ended s') -> Forall (vfact s') todo ->
  server_ok s' (<[t := todo ++ rest]> p ++ []).
Proof.
  destruct Hok as [S1 S2 S3 S4 S8 S5 S6 S7]. intros E1 E2 E4 E5 Hres Hread Href Hend Htodo.
  assert (reqs_mono s s') as Hm by (split; intros; by rewrite ?E1, ?E5).
  constructor; rewrite ?E1, ?E2, ?E5; try done.
  - by apply (vfacts_step s s' p t i).
  - intros x. pose proof (tally_pool_insert (in_hand x) p t _ (todo ++ rest) Ht). specialize (S2 x). specialize (Hread x).
    rewrite tally_pool_app, tally_app, tally_cons in *. cbn [tally_pool sum_list_with] in *. lia.
  - intros k q o Hk. pose proof (tally_pool_insert (serving k) p t _ (todo ++ rest) Ht). specialize (S4 k q o Hk). specialize (Href k).
    rewrite tally_pool_app, tally_app, tally_cons in *. cbn [tally_pool sum_list_with] in *. lia.
  - by apply (answer_ok_mono s).
  - intros [Hc ->]%E4. by apply S6.
Qed.

(** A dispatch: exactly one goroutine takes the request over. *)
Lemma add_req_ok f o todo gs :
  i = VDispatch f -> is_response f = false ->
  let s' := add_req f o s in
  Forall (vfact s') todo -> Forall (Forall (vfact s')) gs ->
  (forall x, tally (in_hand x) todo = 0 /\ tally_pool (in_hand x) gs = 0)%nat ->
  (forall k, tally (serving k) todo + tally_pool (serving k) gs = b2n (k =? length (sv_reqs s)))%nat ->
  server_ok s' (<[t := todo ++ rest]> p ++ gs).
Proof.
  intros -> Hf s' Htodo Hgs Hh Hr. destruct Hok as [S1 S2 S3 S4 S8 S5 S6 S7].
  assert (reqs_mono s s') as Hm by (split; [intros k x Hk; by apply lookup_app_l_Some|done]).
  constructor; try done.
  - by apply (vfacts_step s s' p t (VDispatch f)).
  - intros x. pose proof (tally_pool_insert (in_hand x) p t _ (todo ++ rest) Ht). specialize (S2 x). destruct (Hh x).
    cbn [sv_read sv_reqs s' add_req]. rewrite fmap_app, tally_pool_app, !tally_app, !tally_cons in *. cbn in *. lia.
  - apply Forall_app. split; [done|]. by repeat constructor.
  - intros k q o' Hk. pose proof (tally_pool_insert (serving k) p t _ (todo ++ rest) Ht). specialize (Hr k).
    rewrite tally_pool_app, tally_app, tally_cons in *. cbn [sv_log sv_ended s' add_req serving] in *.
    apply lookup_snoc_inv in Hk as [Hk|[-> _]].
    + specialize (S4 k q o' Hk). apply lookup_lt_Some in Hk. rewrite (proj2 (Nat.eqb_neq _ _)) in Hr by lia. cbn in Hr. lia.
    + pose proof (no_serving s p _ S1 (le_n _)). pose proof (no_answers s _ S5 (le_n _)). pose proof (no_over _ _ _ S8 (le_n _)).
      rewrite Nat.eqb_refl in Hr. cbn in Hr. assert (refusals o' (length (sv_reqs s)) (sv_log s) = 0%nat) by (by destruct o'). lia.
  - cbn. eapply Forall_impl; [exact S8|]. intros k Hk. cbn in Hk. rewrite length_app. lia.
  - by apply (answer_ok_mono s).
Qed.

(** A write. *)
Lemma write_ok k f w todo :
  answer_ok s (k, f) -> (forall x, in_hand x i = 0 /\ tally (in_hand x) todo = 0)%nat ->
  (forall k' q o, sv_reqs s !! k' = Some (q, o) ->
     match o, w with None, None => answers k' (k, f) | _, _ => 0 end + tally (serving k') todo = serving k' i)%nat ->
  Forall (vfact s) todo ->
  server_ok (write_reply k f w s) (<[t := todo ++ rest]> p ++ []).
Proof.
  intros Hf Hh Hr Htodo. destruct Hok as [S1 S2 S3 S4 S8 S5 S6 S7].
  assert (reqs_mono s (write_reply k f w s)) as Hm by (by destruct w as [[]|]).
  assert (forall x, (tally (req_is x) (sv_read s)
    = tally (req_is x) ((sv_reqs s).*1) + tally_pool (in_hand x) (<[t := todo ++ rest]> p ++ []))%nat) as Hread.
  { intros x. pose proof (tally_pool_insert (in_hand x) p t _ (todo ++ rest) Ht). specialize (S2 x). destruct (Hh x).
    rewrite tally_pool_app, tally_app, tally_cons in *. cbn [tally_pool sum_list_with] in *. lia. }
  pose proof (vfacts_step s _ p t i rest todo [] S1 Ht Hm) as Hfacts.
  assert (forall k' q o, sv_reqs s !! k' = Some (q, o) ->
    (refusals o k' (sv_log (write_reply k f w s)) + tally_pool (serving k') (<[t := todo ++ rest]> p ++ [])
     + tally (over k') (sv_ended s) = 1)%nat) as Hc.
  { intros k' q o Hk. pose proof (tally_pool_insert (serving k') p t _ (todo ++ rest) Ht).
    specialize (Hr k' q o Hk). specialize (S4 k' q o Hk).
    assert (refusals o k' (sv_log (write_reply k f w s)) = match o, w with None, None => answers k' (k, f) | _, _ => 0 end + refusals o k' (sv_log s))%nat as E
      by (destruct o, w as [[]|]; try done; cbn [refusals write_reply sv_log]; rewrite tally_app; cbn; lia).
    rewrite E, tally_pool_app, tally_app, tally_cons in *. cbn [tally_pool sum_list_with] in *. lia. }
  destruct w as [[n e]|]; constructor; try done.
  - apply Hfacts; [done|constructor].
  - apply Hfacts; [done|constructor].
  - apply Forall_app. split; [done|]. repeat constructor. done.
  - cbn. intros Hcut. rewrite (S6 Hcut), !fmap_app, concat_app. cbn. by rewrite app_nil_r.
Qed.

End Step.

Lemma vstep_ok s p t i rest e pr :
  server_ok s p -> p !! t = Some (i :: rest) -> vstep i e s = Some pr ->
  server_ok (vafter pr) (<[t := vpushed pr ++ rest]> p ++ vspawned pr).
Proof.
  intros Hok Ht H. pose proof Hok as [S1 _ S3 _ S8 _ _ S7].
  assert (vfact s i) as Hi by (by apply (Forall_lookup_1 _ _ _ _ S1), Forall_cons in Ht as [? _]).
  assert (forall todo, (forall x, in_hand x i = 0 /\ tally (in_hand x) todo = 0)%nat ->
    (forall k, tally (serving k) todo = serving k i) -> Forall (vfact s) todo -> server_ok s (<[t := todo ++ rest]> p ++ [])) as Hsame.
  { intros todo Hh Hr Hf. apply (quiet_ok s p t i rest); try done; [|intros k; by rewrite Hr]. intros x. destruct (Hh x). lia. }
  destruct i; cbn [vstep] in H; destruct e; try done.
  - destruct (sv_ctx s !! call) eqn:E; injection H as <-; apply Hsame; by repeat constructor.
  - destruct r as [f|err]; [destruct (frame_ok f); [|done]|]; injection H as <-; [|apply Hsame; by repeat constructor].
    apply (quiet_ok s p t (VRead call) rest); try done; [|by repeat constructor].
    intros x. change (sv_read (vafter _)) with (sv_read s ++ [f]). rewrite tally_app. cbn. lia.
  - destruct (sv_ctx s !! call) eqn:E; injection H as <-; apply Hsame; repeat constructor. cbn. by rewrite E.
  - injection H as <-. unfold Serve_dispatch. destruct (is_response f) eqn:Hf.
    { apply Hsame; try done. intros x. cbn. unfold req_is. by rewrite Hf. }
    destruct (sv_handlers s !! Type_ f) as [h|]; apply (add_req_ok s p t (VDispatch f) rest Hok Ht f); try done;
      try (by intros; cbn; lia); repeat constructor; exists f; (split; [by apply list_lookup_middle|done]).
  - destruct Hi as (q & Hk & ->). destruct w as [[n er]|]; injection H as <-.
    + apply (quiet_ok s p t (VSendError k (MsgID q)) rest); try done.
      * intros k'. cbn [vpushed vafter vnext end_req sv_ended write_reply serving]. rewrite tally_app. cbn. unfold over. lia.
      * cbn. apply Forall_app. split; [done|]. apply lookup_lt_Some in Hk. by repeat constructor.
    + apply (write_ok s p t _ rest Hok Ht k _ None []); try done; [by exists q, None|].
      intros k' q' o Hk'. unfold answers. cbn. destruct (Nat.eqb_spec k' k) as [->|]; [|by destruct o].
      rewrite Hk in Hk'. by injection Hk' as <- <-.
  - injection H as <-. pose proof Hi as (q & Hk & ->). apply (write_ok s p t _ rest Hok Ht); try done; [| |by repeat constructor].
    + exists q, (Some h). split_and!; [done|by destruct a|by exists a].
    + intros k' q' o Hk'. unfold answers. cbn. destruct (Nat.eqb_spec k' k) as [->|].
      * rewrite Hk in Hk'. by injection Hk' as <- <-.
      * by destruct o, w.
  - pose proof Hi as (q & Hk & ->). apply lookup_lt_Some in Hk.
    destruct r; injection H as <-; apply (quiet_ok s p t (VHandler k h (request_of q)) rest); try done;
      try (intros k'; cbn [vpushed vafter vnext end_req log_error sv_ended serving]; rewrite tally_app; cbn; unfold over; lia);
      cbn; apply Forall_app; (split; [done|]); by repeat constructor.
  - injection H as <-. apply (quiet_ok s p t (VReturn call r) rest); try done.
    intros c [Hin|Hin]%elem_of_app; [by apply S7|]. apply list_elem_of_singleton in Hin. by injection Hin as -> <-.
Qed.

Lemma vworld_step_ok l w w' : server_ok (srv w) (vpool w) -> vworld_step l w = Some w' -> server_ok (srv w') (vpool w').
Proof.
  intros Hok. destruct l as [t e| |typ h|call e]; cbn [vworld_step].
  - destruct (vpool w !! t) as [[|i rest]|] eqn:Et; try done. destruct (vstep i e (srv w)) as [[todo gs s]|] eqn:E; [|done].
    intros [= <-]. exact (vstep_ok _ _ _ _ _ _ _ Hok Et E).
  - intros [= <-]. destruct Hok as [S1 S2 S3 S4 S8 S5 S6 S7]. constructor; cbn [srv vpool]; try done.
    + apply Forall_app. split; [done|]. by repeat constructor.
    + intros x. rewrite S2, tally_pool_app. cbn. lia.
    + intros k q o Hk. specialize (S4 k q o Hk). rewrite tally_pool_app. cbn. lia.
  - intros [= <-]. destruct Hok as [S1 S2 S3 S4 S8 S5 S6 S7]. by constructor.
  - intros [= <-]. cbn [srv vpool]. unfold cancel_ctx. destruct (sv_ctx (srv w) !! call) eqn:E; [done|].
    destruct Hok as [S1 S2 S3 S4 S8 S5 S6 S7].
    assert (forall c, is_Some (sv_ctx (srv w) !! c) -> is_Some (<[call := e]> (sv_ctx (srv w)) !! c)) as Hc.
    { intros c Hc. destruct (decide (call = c)) as [->|]; [by rewrite lookup_insert_eq|by rewrite lookup_insert_ne]. }
    constructor; try done.
    + by apply (vfacts_mono (srv w)).
    + intros c Hin. apply Hc. by apply S7.
Qed.

Lemma vreachable_ok w : vreachable w -> server_ok (srv w) (vpool w).
Proof.
  intros [ls H]. assert (server_ok (srv vworld0) (vpool vworld0)) as H0.
  { constructor; try done. by intros c ?%elem_of_nil. }
  revert H0 H. generalize vworld0. induction ls as [|l ls IH]; intros w0 H0; cbn [vrun]; [by intros [= <-]|].
  destruct (vworld_step l w0) as [w1|] eqn:E; [|done]. apply IH. by apply (vworld_step_ok l w0).
Qed.

(** ** Theorems *)

(** Counting a list of frames is a permutation of it. *)
Lemma tally_Permutation (l l' : list Frame) :
  (forall x, tally (fun f => b2n (bool_decide (f = x))) l = tally (fun f => b2n (bool_decide (f = x))) l') -> l ≡ₚ l'.
Proof.
  intros H. apply (Permutation_count_occ Frame_eq_dec). intros x. specialize (H x).
  assert (forall l, count_occ Frame_eq_dec l x = tally (fun f => b2n (bool_decide (f = x))) l) as E.
  { clear. induction l as [|f l IH]; [done|]. rewrite tally_cons. cbn [count_occ].
    case_bool_decide; destruct (Frame_eq_dec f x); try done; by rewrite IH. }
  by rewrite !E.
Qed.

Definition idle (i : vinstr) : bool := match i with VDispatch _ => false | _ => true end.

(** The handlers registered by the steps so far. *)
Definition registered (ls : list vlabel) : gmap Z nat :=
  foldl (fun m l => match l with VHandle t h => <[t := h]> m | _ => m end) ∅ ls.

Lemma registered_snoc ls l : registered (ls ++ [l]) = match l with VHandle t h => <[t := h]> (registered ls) | _ => registered ls end.
Proof. unfold registered. by rewrite foldl_snoc. Qed.

Lemma vrun_snoc ls l w w' : vrun (ls ++ [l]) w = Some w' <-> exists w1, vrun ls w = Some w1 /\ vworld_step l w1 = Some w'.
Proof.
  revert w. induction ls as [|l' ls IH]; intros w; cbn [app vrun].
  - split; [|intros (w1 & [= ->] & H); by rewrite H]. destruct (vworld_step l w) as [w1|] eqn:E; [|done]. intros [= <-]. eauto.
  - destruct (vworld_step l' w) as [w1|]; [apply IH|]. split; [done|]. by intros (w1 & ? & _).
Qed.

(** A step looks a handler up when it dispatches, and changes no other part of
    the registration. *)
Lemma vstep_registered i e s pr : vstep i e s = Some pr ->
  sv_handlers (vafter pr) = sv_handlers s /\
  (sv_reqs (vafter pr) = sv_reqs s \/
   exists q, i = VDispatch q /\ e = VRun /\ sv_reqs (vafter pr) = sv_reqs s ++ [(q, sv_handlers s !! Type_ q)]).
Proof.
  destruct i; cbn [vstep]; destruct e; try done; unfold vnext; try (intros [= <-]; by auto).
  - destruct (sv_ctx s !! call); intros [= <-]; by auto.
  - destruct r as [f|]; [destruct (frame_ok f); [|done]|]; intros [= <-]; by auto.
  - destruct (sv_ctx s !! call); intros [= <-]; by auto.
  - intros [= <-]. unfold Serve_dispatch. destruct (is_response f); [by auto|].
    destruct (sv_handlers s !! Type_ f) as [h|] eqn:E; cbn; (split; [done|right]); exists f; by rewrite E.
  - destruct w as [[]|]; intros [= <-]; by auto.
  - destruct w as [[]|]; intros [= <-]; by auto.
  - destruct r; intros [= <-]; by auto.
Qed.

(** Request [k] is [q], dispatched by one step of the schedule, with the handler
    that was registered for its type when that step ran. *)
Definition dispatched (ls : list vlabel) (k : nat) (q : Frame) (o : option nat) : Prop :=
  exists ls1 t ls2 w1 rest, ls = ls1 ++ VGo t VRun :: ls2 /\ vrun ls1 vworld0 = Some w1 /\
    vpool w1 !! t = Some (VDispatch q :: rest) /\ length (sv_reqs (srv w1)) = k /\ o = registered ls1 !! Type_ q.

Lemma dispatched_snoc ls l k q o : dispatched ls k q o -> dispatched (ls ++ [l]) k q o.
Proof.
  intros (ls1 & t & ls2 & w1 & rest & -> & H). exists ls1, t, (ls2 ++ [l]), w1, rest. split; [by rewrite <- app_assoc|done].
Qed.

Lemma vrun_registered ls : forall w, vrun ls vworld0 = Some w ->
  sv_handlers (srv w) = registered ls /\
  forall k q o, sv_reqs (srv w) !! k = Some (q, o) -> dispatched ls k q o.
Proof.
  induction ls as [|l ls IH] using rev_ind; [by intros w [= <-]|].
  intros w (w1 & H1 & H2)%vrun_snoc. destruct (IH w1 H1) as [Hh Hr]. rewrite registered_snoc.
  assert (forall k q o, sv_reqs (srv w1) !! k = Some (q, o) -> dispatched (ls ++ [l]) k q o) as Hr'
    by (intros k q o Hk; by apply dispatched_snoc, Hr).
  destruct l as [t e| |typ h|call e]; cbn [vworld_step] in H2.
  - destruct (vpool w1 !! t) as [[|i rest]|] eqn:Et; try done. destruct (vstep i e (srv w1)) as [[todo gs s]|] eqn:E; [|done].
    injection H2 as <-. apply vstep_registered in E as [E1 E2]. cbn [vafter srv] in *. split; [congruence|].
    destruct E2 as [-> |(q & -> & -> & ->)]; [done|]. intros k q' o [Hk|[-> Hk]]%lookup_snoc_inv; [by apply Hr'|].
    injection Hk as -> ->. exists ls, t, [], w1, rest. by rewrite Hh.
  - by injection H2 as <-.
  - injection H2 as <-. cbn [srv Handle sv_handlers]. by rewrite Hh.
  - injection H2 as <-. cbn [srv]. unfold cancel_ctx. by destruct (sv_ctx (srv w1) !! call).
Qed.

(** C31: the server serves every request once, and answers to the call that made
    it.  In every interleaving of [Serve] calls, handlers, [Handle] and
    cancellations:
    when no frame is between its read and its dispatch, the dispatched requests
    are exactly the frames read that are not responses, each once;
    each request was dispatched by one step of the schedule, to the handler that was
    registered for its type when that step ran, if any;
    for a request with a handler exactly one goroutine was started, which runs
    that handler on that request or has returned; for one without, the
    UnknownType error has been written once, or its write has failed, or the
    serving goroutine is about to write it, and just one of the three;
    every frame written carries the message id of the request it answers, and is
    a reply of that request's handler or that error;
    and [Serve] returns nil only when its context is done. *)
Theorem server_answers (ls : list vlabel) (w : SWorld) (H : vrun ls vworld0 = Some w) :
  let s := srv w in
  (Forall (fun g => forallb idle g = true) (vpool w) ->
     filter (fun f => is_response f = false) (sv_read s) ≡ₚ (sv_reqs s).*1)
  /\ (forall k q o, sv_reqs s !! k = Some (q, o) ->
        dispatched ls k q o
        /\ match o with
           | Some _ => (tally_pool (serving k) (vpool w) + tally (over k) (sv_ended s) = 1)%nat
           | None => (tally (answers k) (sv_log s) + tally_pool (serving k) (vpool w) + tally (over k) (sv_ended s) = 1)%nat
           end)
  /\ (forall g i, g ∈ vpool w -> i ∈ g ->
        match i with
        | VHandler k h req => exists q, sv_reqs s !! k = Some (q, Some h) /\ req = request_of q
        | VSendError k id => exists q, sv_reqs s !! k = Some (q, None) /\ id = MsgID q
        | _ => True
        end)
  /\ (forall k f, (k, f) ∈ sv_log s -> exists q o, sv_reqs s !! k = Some (q, o) /\ MsgID f = MsgID q
        /\ match o with
           | Some _ => exists a, f = reply_frame (request_of q) a
           | None => f = unknown_reply (MsgID q)
           end)
  /\ (forall call, (call, None) ∈ sv_results s -> is_Some (sv_ctx s !! call)).
Proof.
  destruct (vreachable_ok w (ex_intro _ ls H)) as [S1 S2 S3 S4 S8 S5 S6 S7]. cbn zeta. split_and!; [..|exact S7].
  - intros Hidle. apply tally_Permutation. intros x. specialize (S2 (fun f => bool_decide (f = x))).
    rewrite (tally_pool_zero (in_hand _)) in S2.
    2: { eapply Forall_impl; [exact Hidle|]. intros g Hg. apply Forall_forall. intros j Hj. rewrite forallb_forall in Hg.
         apply list_elem_of_In, Hg in Hj. by destruct j. }
    rewrite Nat.add_0_r in S2. etrans; [|etrans; [exact S2|]].
    + clear. induction (sv_read (srv w)) as [|f l IH]; [done|]. rewrite tally_cons, filter_cons. unfold req_is at 1.
      destruct (is_response f); cbn [negb andb decide]; [by rewrite decide_False|].
      rewrite decide_True, tally_cons by done. by rewrite IH.
    + clear -S3. induction S3 as [|[q o] l Hq _ IH]; [done|]. cbn [fmap list_fmap fst]. rewrite !tally_cons, IH.
      unfold req_is. cbn in Hq. by rewrite Hq.
  - intros k q o Hk. split; [|by specialize (S4 k q o Hk); destruct o].
    by apply (vrun_registered ls w H).
  - intros g i Hg Hi. rewrite Forall_forall in S1. specialize (S1 g Hg). rewrite Forall_forall in S1.
    specialize (S1 i Hi). by destruct i.
  - intros k f Hin. rewrite Forall_forall in S5. apply (S5 _ Hin).
Qed.

(** Concurrent handlers cannot corrupt each other's frames.  As long as no
    write failed, the bytes on the connection are whole frames back to back,
    in the order of the writes, so the peer reads back exactly the frames the
    handlers and the server wrote, whatever their interleaving. *)
Theorem server_frames_whole (w : SWorld) (e : error) (H : vreachable w)
    (Hcut : sv_cut (srv w) = false) (Hfs : Forall (fun f => frame_ok f = true) (sv_log (srv w)).*2) :
  let fs := (sv_log (srv w)).*2 in
  read_n ReadMVCPFrame (length fs) (mkReader (sv_out (srv w)) e) = (Ok fs, mkReader [] e).
Proof.
  destruct (vreachable_ok w H) as [_ _ _ _ _ _ S6 _]. cbn zeta. rewrite (S6 Hcut), <- (app_nil_r (concat _)).
  apply (reads_n ReadMVCPFrame EncodeMVCPFrame). eapply Forall_impl; [exact Hfs|]. apply reads_MVCPFrame.
Qed.

(** The client takes every frame a handler writes for what it is: it
    carries the request's message id, Respond, StreamEnd and Error are final,
    Stream and Started are not; and the server's refusal of an unknown type
    is a final ERROR that decodes to UnknownType. *)
Theorem rpc_replies (r : Request) (a : reply) (id : Z) :
  MsgID (reply_frame r a) = req_MsgID r
  /\ sf_More (to_stream_frame (reply_frame r a)) = (match a with AnsStream _ _ | AnsStarted _ => true | _ => false end)
  /\ MsgID (unknown_reply id) = id /\ Type_ (unknown_reply id) = TypeERROR
  /\ sf_More (to_stream_frame (unknown_reply id)) = false
  /\ UnmarshalBinary (Body (unknown_reply id)) = Ok (mkErrorMsg ErrorCodeUnknownType (str "unknown message type")).
Proof. split; [by destruct a|]. split; [by destruct a|]. by split_and!. Qed.

(** ** A run: two handlers answer at the same time, an unknown type is refused. *)

Definition server_demo : list vlabel :=
  [VHandle TypePING 7; VHandle TypeEXEC 8; VServe;
   VGo 0 VRun; VGo 0 (VFrame (Ok (mkFrame TypeEXEC 0 1 (str "ls")))); VGo 0 VRun;
   VGo 0 VRun; VGo 0 (VFrame (Ok (mkFrame TypePING 0 2 []))); VGo 0 VRun;
   VGo 1 (VReply (AnsStarted true) None);
   VGo 1 (VReply (AnsStream TypeEXECSTREAM (str "a")) None);
   VGo 2 (VReply (AnsRespond TypePONG []) None);
   VGo 1 (VReply (AnsStreamEnd TypeEXECRESULT (str "b")) None);
   VGo 0 VRun; VGo 0 (VFrame (Ok (mkFrame 0x99 0 3 []))); VGo 0 VRun; VGo 0 (VWrite None);
   VGo 2 (VReturns None); VGo 1 (VReturns (Some (Sentinel io_EOF)));
   VGo 0 VRun; VCancel 0 (Errorf (str "context canceled")); VGo 0 (VFrame (Err io_EOF)); VGo 0 VRun; VGo 0 VRun].

Definition server_world : SWorld := default vworld0 (vrun server_demo vworld0).

Lemma server_demo_reachable : vreachable server_world.
Proof. exists server_demo. vm_compute. reflexivity. Qed.

Lemma server_answers_witness :
  let s := srv server_world in
  sv_results s = [(0%nat, None)] /\ MsgID <$> (sv_log s).*2 = [1; 1; 2; 1; 3] /\ sv_logged s = [(TypeEXEC, Sentinel io_EOF)]
  /\ sv_ended s = [1%nat; 0%nat]
  /\ filter (fun f => is_response f = false) (sv_read s) ≡ₚ (sv_reqs s).*1.
Proof.
  cbn zeta. split; [vm_compute; reflexivity|]. split; [vm_compute; reflexivity|]. split; [vm_compute; reflexivity|].
  split; [vm_compute; reflexivity|].
  apply (server_answers server_demo server_world); [vm_compute; reflexivity|]. vm_compute. repeat constructor.
Defined.

Lemma server_frames_whole_witness :
  sv_cut (srv server_world) = false
  /\ read_n ReadMVCPFrame 5 (mkReader (sv_out (srv server_world)) io_EOF)
     = (Ok (sv_log (srv server_world)).*2, mkReader [] io_EOF).
Proof.
  split; [vm_compute; reflexivity|].
  apply (server_frames_whole server_world io_EOF server_demo_reachable); [vm_compute; reflexivity|].
  apply Forall_forall. intros f Hin%list_elem_of_In. revert f Hin. apply forallb_forall. vm_compute. reflexivity.
Defined.
