(* ===== verification/RpcPair.v ===== *)
(** * A client and a server: [protocol/rpc], end to end

    The client of [Rpc.v] and the server of [RpcServer.v] on one connection:
    the server reads, in order, the frames the client wrote, and the client
    those the server wrote.  A write that fails breaks its direction: what was
    written before it still arrives, nothing after it does.  Otherwise both
    sides run freely: any interleaving of calls, streams, cancellations,
    shutdowns, [Serve] calls and handlers. *)
From Stdlib Require Import ZArith Lia.
From stdpp Require Import base list gmap strings.
From S2P Require Import Prelude GoIO Wire Frame Codec Messages Rpc RpcServer.

Open Scope Z_scope.

Record Pair := mkPair {
  pc : RWorld; ps : SWorld;
  c2s : nat; s2c : nat;                    (* frames the server, the client has read *)
  c_lim : option nat; s_lim : option nat   (* frames that arrive before a broken write *) }.

Definition replies (s : SWorld) : list Frame := (sv_log (srv s)).*2.

Definition break_at (n : nat) (lim : option nat) : option nat := match lim with Some k => Some k | None => Some n end.

(** The next frame of a direction. *)
Definition arrives (f : Frame) (n : nat) (lim : option nat) (wire : list Frame) : bool :=
  bool_decide (wire !! n = Some f) && match lim with Some k => (n <? k)%nat | None => true end.

Inductive plabel := PClient (l : rlabel) | PServer (l : vlabel).

Definition pair_step (l : plabel) (P : Pair) : option Pair :=
  match l with
  | PClient l =>
      match rworld_step l (pc P) with
      | None => None
      | Some c =>
          match l with
          | RRun _ (EvFrame (Ok f)) =>
              if arrives f (s2c P) (s_lim P) (replies (ps P))
              then Some (mkPair c (ps P) (c2s P) (S (s2c P)) (c_lim P) (s_lim P)) else None
          | RRun _ (EvWrite (Some _)) =>
              Some (mkPair c (ps P) (c2s P) (s2c P) (break_at (length (c_wire (cl (pc P)))) (c_lim P)) (s_lim P))
          | _ => Some (mkPair c (ps P) (c2s P) (s2c P) (c_lim P) (s_lim P))
          end
      end
  | PServer l =>
      match vworld_step l (ps P) with
      | None => None
      | Some s =>
          match l with
          | VGo _ (VFrame (Ok f)) =>
              if arrives f (c2s P) (c_lim P) (c_wire (cl (pc P)))
              then Some (mkPair (pc P) s (S (c2s P)) (s2c P) (c_lim P) (s_lim P)) else None
          | VGo _ (VWrite (Some _)) | VGo _ (VReply _ (Some _)) =>
              Some (mkPair (pc P) s (c2s P) (s2c P) (c_lim P) (break_at (length (replies (ps P))) (s_lim P)))
          | _ => Some (mkPair (pc P) s (c2s P) (s2c P) (c_lim P) (s_lim P))
          end
      end
  end.

Fixpoint pair_run (ls : list plabel) (P : Pair) : option Pair :=
  match ls with
  | [] => Some P
  | l :: ls => match pair_step l P with Some P' => pair_run ls P' | None => None end
  end.

Definition pair0 : Pair := mkPair rworld0 vworld0 0 0 None None.
Definition pair_reachable (P : Pair) : Prop := exists ls, pair_run ls pair0 = Some P.

(** ** Message ids are used once

    While fewer than 2^32 - 1 calls were made, the counter has not wrapped. *)

Definition allocs (i : rinstr) : nat := match i with KAlloc _ _ _ _ _ => 1 | _ => 0 end.
Definition adding (id : Z) (i : rinstr) : nat := match i with KAdd _ _ id' _ _ _ => b2n (id =? id') | _ => 0 end.
Definition writing (id : Z) (i : rinstr) : nat :=
  match i with KAdd _ _ id' _ _ _ | KWrite _ _ _ id' _ _ _ => b2n (id =? id') | _ => 0 end.
Definition used (id : Z) (c : Client) : nat := b2n ((0 <? id) && (id <=? c_msgID c)).

Record ids_ok (n : nat) (c : Client) (p : list (list rinstr)) : Prop := {
  id_count : c_msgID c + Z.of_nat (tally_pool allocs p) <= Z.of_nat n;
  id_range : 0 <= c_msgID c;
  id_calls : forall id, (tally_pool (adding id) p + tally (fun x => b2n (id =? call_id x)%Z) (c_calls c) <= used id c)%nat;
  id_wire : forall id, (tally_pool (writing id) p + tally (fun f => b2n (id =? MsgID f)%Z) (c_wire c) <= used id c)%nat }.

(** How call objects change: they keep their id, and [done] only rises. *)
Record call_rel (x x' : pendingCall) : Prop := {
  cr_id : call_id x' = call_id x;
  cr_done : done x' = false -> done x = false }.

Lemma tally_calls id l l' : Forall2 call_rel l l' ->
  tally (fun x => b2n (id =? call_id x)%Z) l' = tally (fun x => b2n (id =? call_id x)%Z) l.
Proof. induction 1 as [|x x' l l' [Hx _] _ IH]; [done|]. by rewrite !tally_cons, IH, Hx. Qed.

Lemma call_rel_refl l : Forall2 call_rel l l.
Proof. induction l; by constructor. Qed.

Lemma call_rel_put l p x x' : l !! p = Some x -> call_rel x x' -> Forall2 call_rel l (<[p := x']> l).
Proof.
  intros Hp Hx. rewrite <- (list_insert_id l p x Hp) at 1. apply Forall2_insert; [apply call_rel_refl|done].
Qed.

(** Steps that use no id. *)
Lemma ids_quiet n c c' p t i rest todo gs :
  ids_ok n c p -> p !! t = Some (i :: rest) -> c_msgID c' = c_msgID c -> c_wire c' = c_wire c ->
  Forall2 call_rel (c_calls c) (c_calls c') ->
  (forall f, f = allocs \/ (exists id, f = adding id \/ f = writing id) -> tally f todo + tally_pool f gs <= f i)%nat ->
  ids_ok n c' (<[t := todo ++ rest]> p ++ gs).
Proof.
  intros [I1 I2 I3 I4] Ht E1 E2 Hc Hf.
  assert (forall f, f = allocs \/ (exists id, f = adding id \/ f = writing id) ->
    tally_pool f (<[t := todo ++ rest]> p ++ gs) <= tally_pool f p)%nat as Hle.
  { intros f Hk. specialize (Hf f Hk). pose proof (tally_pool_insert f p t _ (todo ++ rest) Ht).
    rewrite tally_pool_app, tally_app, tally_cons in *. lia. }
  constructor; rewrite ?E1, ?E2; try done.
  - specialize (Hle allocs ltac:(auto)). lia.
  - intros id. rewrite (tally_calls id _ _ Hc). specialize (Hle (adding id) ltac:(eauto)). specialize (I3 id).
    unfold used in *. rewrite E1. lia.
  - intros id. specialize (Hle (writing id) ltac:(eauto)). specialize (I4 id). unfold used in *. rewrite E1. lia.
Qed.

Lemma pending_send_rel f b x r x' : pending_send f b x = Some (r, x') -> call_rel x x'.
Proof. unfold pending_send. intros H. repeat case_match; by simplify_eq. Qed.

Lemma forward_rel b x x' : forward b x = Some x' -> call_rel x x' /\ accepted x' = accepted x.
Proof. unfold forward. intros H. repeat case_match; by simplify_eq. Qed.

Lemma pending_take_rel x r x' : pending_take x = Some (r, x') -> call_rel x x' /\ accepted x' = accepted x.
Proof. unfold pending_take. intros H. repeat case_match; by simplify_eq. Qed.

Lemma shutdown_rel c c' : shutdown_locked c = Some c' ->
  Forall2 call_rel (c_calls c) (c_calls c') /\ c_msgID c' = c_msgID c /\ c_wire c' = c_wire c.
Proof.
  unfold shutdown_locked. destruct (c_closed c); [done|]. intros [= <-]. split; [|done]. cbn. apply Forall2_same_length_lookup_2.
  - by rewrite length_imap.
  - intros i x y Hx. rewrite list_lookup_imap, Hx. cbn. intros [= <-]. by case_bool_decide.
Qed.

(** What a step other than [addPending] does to the calls. *)
Lemma rstep_calls i e c pr : rstep i e c = Some pr ->
  (exists call stream id typ flags body, i = KAdd call stream id typ flags body) \/ Forall2 call_rel (c_calls c) (c_calls (rafter pr)).
Proof.
  intros H.
  assert (forall q g, on_call q c g = Some pr -> exists x, c_calls c !! q = Some x /\ g x = Some pr) as Hcall.
  { intros q g. unfold on_call. destruct (c_calls c !! q) as [x|] eqn:E; [|done]. eauto. }
  destruct i; try (by left; eauto 10); right; cbn [rstep] in H; destruct e; try done;
    try (apply Hcall in H as (x & Hx & H)); try (repeat case_match; simplify_eq; by apply call_rel_refl).
  - injection H as <-. unfold readLoop_route. repeat case_match; apply call_rel_refl.
  - destruct (pending_send f b x) as [[r x']|] eqn:E; [|done]. injection H as <-. cbn.
    apply (call_rel_put _ _ x); [done|]. by apply (pending_send_rel f b x r).
  - destruct (shutdown_locked c) eqn:E; injection H as <-; [by apply shutdown_rel|apply call_rel_refl].
  - destruct (forward b x) as [x'|] eqn:E; [|done]. injection H as <-. cbn.
    apply (call_rel_put _ _ x); [done|]. by apply (forward_rel b).
  - injection H as <-. apply call_rel_refl.
  - unfold CallFlags_receive in H. destruct b; try done.
    + destruct (pending_take x) as [[r x']|] eqn:E; [|done]. apply pending_take_rel in E as [E _].
      repeat case_match; simplify_eq; cbn; by apply (call_rel_put _ _ x).
    + injection H as <-. apply call_rel_refl.
    + case_match; [|done]. injection H as <-. apply call_rel_refl.
  - unfold StreamFlags_watch in H. repeat case_match; simplify_eq; apply call_rel_refl.
  - injection H as <-. cbn. by apply (call_rel_put _ _ x).
Qed.

Lemma used_next id c : 0 <= c_msgID c -> used id (set_msgID (c_msgID c + 1) c) = (used id c + b2n (id =? c_msgID c + 1)%Z)%nat.
Proof.
  intros H. unfold used. cbn [c_msgID set_msgID].
  destruct (Z.ltb_spec 0 id), (Z.leb_spec id (c_msgID c + 1)), (Z.leb_spec id (c_msgID c)),
    (Z.eqb_spec id (c_msgID c + 1)); cbn; lia.
Qed.

(** Steps that handle no id. *)
Definition idless (i : rinstr) : bool :=
  match i with KAlloc _ _ _ _ _ | KAdd _ _ _ _ _ _ | KWrite _ _ _ _ _ _ _ => false | _ => true end.

Lemma rstep_idless i e c pr : rstep i e c = Some pr -> idless i = true ->
  c_msgID (rafter pr) = c_msgID c /\ c_wire (rafter pr) = c_wire c
  /\ forallb idless (rpushed pr) = true /\ forallb (forallb idless) (rspawned pr) = true.
Proof.
  intros H Hi. destruct i; try done; cbn [rstep] in H; destruct e; try done;
    unfold on_call, CallFlags_receive, StreamFlags_watch, shutdown_locked, readLoop_route in H; repeat case_match; by simplify_eq.
Qed.

Lemma idless_tally f l :
  f = allocs \/ (exists id, f = adding id \/ f = writing id) -> forallb idless l = true -> tally f l = 0%nat.
Proof.
  intros Hf Hl. apply tally_zero, Forall_forall. intros j Hj. rewrite forallb_forall in Hl. apply list_elem_of_In, Hl in Hj.
  by destruct Hf as [->|[id [-> | ->]]], j.
Qed.

Lemma rstep_ids n c p t i rest e pr :
  Z.of_nat n < 2 ^ 32 - 1 -> ids_ok n c p -> p !! t = Some (i :: rest) -> rstep i e c = Some pr ->
  ids_ok n (rafter pr) (<[t := rpushed pr ++ rest]> p ++ rspawned pr).
Proof.
  intros Hn Hok Ht H. pose proof (rstep_calls i e c pr H) as Hc. pose proof Hok as [I1 I2 I3 I4].
  assert (forall f todo gs, (tally_pool f (<[t := todo ++ rest]> p ++ gs) + f i = tally_pool f p + tally f todo + tally_pool f gs)%nat) as Hp.
  { intros f todo gs. pose proof (tally_pool_insert f p t _ (todo ++ rest) Ht). rewrite tally_pool_app, tally_app, tally_cons in *. lia. }
  destruct (idless i) eqn:Hi.
  { destruct (rstep_idless i e c pr H Hi) as (E1 & E2 & E3 & E4). destruct Hc as [(? & ? & ? & ? & ? & ? & ->)|Hc]; [done|].
    apply (ids_quiet n c _ p t i); try done. intros f Hf. rewrite (idless_tally f (rpushed pr) Hf E3), (tally_pool_zero f); [lia|].
    apply Forall_forall. intros g Hg. rewrite forallb_forall in E4. apply list_elem_of_In, E4 in Hg.
    apply Forall_forall. intros j Hj. pose proof (idless_tally f g Hf Hg). apply (tally_elem f) in Hj. lia. }
  destruct i; try done; cbn [rstep] in H; destruct e; try done.
  - injection H as <-. pose proof (tally_pool_elem allocs p _ (list_elem_of_lookup_2 _ _ _ Ht)) as Ha.
    rewrite tally_cons in Ha. cbn [allocs] in Ha. unfold to_u. rewrite Z.mod_small by lia.
    destruct (Z.eqb_spec (c_msgID c + 1) 0); [lia|].
    constructor; cbn [rafter rpushed rspawned rnext c_calls c_wire set_msgID c_msgID]; [|lia|..].
    + specialize (Hp allocs [KAdd call stream (c_msgID c + 1) typ flags body] []). cbn in Hp |- *. lia.
    + intros id. rewrite used_next by done. specialize (I3 id).
      specialize (Hp (adding id) [KAdd call stream (c_msgID c + 1) typ flags body] []). cbn in Hp |- *. lia.
    + intros id. rewrite used_next by done. specialize (I4 id).
      specialize (Hp (writing id) [KAdd call stream (c_msgID c + 1) typ flags body] []). cbn in Hp |- *. lia.
  - injection H as <-. set (q := length (c_calls c)).
    constructor; cbn [rafter rpushed rspawned c_calls c_wire set_calls set_pending c_msgID]; try done.
    + specialize (Hp allocs [KWrite call stream q id typ flags body] [[RForward q]]). cbn in Hp |- *. lia.
    + intros id'. rewrite tally_app. specialize (I3 id'). unfold used in *.
      specialize (Hp (adding id') [KWrite call stream q id typ flags body] [[RForward q]]). cbn in Hp, I3 |- *. lia.
    + intros id'. specialize (I4 id'). unfold used in *.
      specialize (Hp (writing id') [KWrite call stream q id typ flags body] [[RForward q]]). cbn in Hp |- *. lia.
  - destruct Hc as [(? & ? & ? & ? & ? & ? & ?)|Hc]; [done|].
    assert (c_msgID (rafter pr) = c_msgID c /\ c_calls (rafter pr) = c_calls c /\ forallb idless (rpushed pr) = true
      /\ (rspawned pr = [] \/ exists j, rspawned pr = [[j]] /\ idless j = true)
      /\ (c_wire (rafter pr) = c_wire c \/ c_wire (rafter pr) = c_wire c ++ [writeRequest id typ flags body]))
      as (E1 & E2 & E3 & E4 & E5).
    { destruct r; [|destruct stream]; simplify_eq; cbn; split_and!; eauto. }
    assert (forall f, f = allocs \/ (exists id, f = adding id \/ f = writing id) -> tally_pool f (rspawned pr) = 0%nat) as Hs.
    { intros f Hf. destruct E4 as [->|(j & -> & Hj)]; [done|].
      change (tally_pool f [[j]]) with (tally f [j] + 0)%nat. rewrite (idless_tally f [j] Hf); [done|]. cbn. by rewrite Hj. }
    constructor; unfold used in *; rewrite ?E1, ?E2; try done.
    + specialize (Hp allocs (rpushed pr) (rspawned pr)). rewrite Hs, (idless_tally allocs) in Hp by eauto. cbn in Hp. lia.
    + intros id'. specialize (Hp (adding id') (rpushed pr) (rspawned pr)). rewrite Hs, (idless_tally (adding id')) in Hp by eauto.
      specialize (I3 id'). cbn in Hp. lia.
    + intros id'. specialize (Hp (writing id') (rpushed pr) (rspawned pr)). rewrite Hs, (idless_tally (writing id')) in Hp by eauto.
      specialize (I4 id'). destruct E5 as [->| ->]; [cbn in Hp; lia|]. rewrite tally_app. cbn in Hp |- *. lia.
Qed.

(** ** The read loop and the order of a call's frames *)

(** The stacks of the one read loop. *)
Inductive reader : list rinstr -> Prop :=
  | RS_loop : reader [RLoop; RWgDone]
  | RS_read : reader [RRead; RWgDone]
  | RS_readErr : reader [RReadErr; RWgDone]
  | RS_route f : reader [RRoute f; RWgDone]
  | RS_send p f : reader [RSend p f; RLoop; RWgDone]
  | RS_send_last p f id : reader [RSend p f; RRemove id; RLoop; RWgDone]
  | RS_remove id : reader [RRemove id; RLoop; RWgDone]
  | RS_shutdown : reader [RShutdown; RWgDone]
  | RS_wait : reader [RWgWait; RWgDone]
  | RS_done : reader [RWgDone].

Definition aside (i : rinstr) : bool :=
  match i with RLoop | RRead | RReadErr | RRoute _ | RSend _ _ | RWgDone => false | _ => true end.

Definition stack_ok (g : list rinstr) : Prop := reader g \/ forallb aside g = true.

Definition starts (i : rinstr) : nat := match i with KStartGo _ | RWgDone => 1 | _ => 0 end.

(** The frame the read loop is about to hand to call [p], and one it is about
    to route to id [id]. *)
Definition sending (p : nat) (g : list rinstr) : list Frame :=
  match g with RSend p' f :: _ => if (p =? p')%nat then [f] else [] | _ => [] end.
Definition routing (id : Z) (g : list rinstr) : list Frame :=
  match g with RRoute f :: _ => if MsgID f =? id then [f] else [] | _ => [] end.
Definition pooled (h : list rinstr -> list Frame) (p : list (list rinstr)) : list Frame := concat (h <$> p).

Definition mine (x : pendingCall) (got : list Frame) : list Frame := filter (fun f => MsgID f = call_id x) got.

(** [got]: the frames the read loop has read.  A call that is in the table of
    an open client has, or is about to be given, all its frames; one that is
    not, a prefix of them. *)
Definition in_order (got : list Frame) (c : Client) (p : list (list rinstr)) (q : nat) (x : pendingCall) : Prop :=
  if decide (c_pending c !! call_id x = Some q /\ c_closed c = false)
  then accepted x ++ pooled (sending q) p ++ pooled (routing (call_id x)) p = mine x got
  else accepted x ++ pooled (sending q) p `prefix_of` mine x got.

Definition routed (got : list Frame) (g : list rinstr) : Prop := match g with RRoute f :: _ => f ∈ got | _ => True end.

Record flow (got : list Frame) (c : Client) (p : list (list rinstr)) : Prop := {
  fl_reader : (tally_pool starts p <= b2n (c_started c))%nat;
  fl_stacks : Forall stack_ok p;
  fl_routed : Forall (routed got) p;
  fl_order : forall q x, c_calls c !! q = Some x -> done x = false -> in_order got c p q x }.

(** *** Pools with one reader *)

Lemma reader_starts g : reader g -> tally starts g = 1%nat.
Proof. by destruct 1. Qed.

Lemma pooled_insert h p t g g' : p !! t = Some g -> h g' = h g -> pooled h (<[t := g']> p) = pooled h p.
Proof.
  intros Ht Hh. unfold pooled. rewrite list_fmap_insert, Hh. f_equal. apply list_insert_id.
  by rewrite list_lookup_fmap, Ht.
Qed.

Lemma pooled_app h p p' : pooled h (p ++ p') = pooled h p ++ pooled h p'.
Proof. unfold pooled. by rewrite fmap_app, concat_app. Qed.

Lemma pooled_none h p : Forall (fun g => h g = []) p -> pooled h p = [].
Proof. induction 1 as [|g p Hg _ IH]; [done|]. unfold pooled in *. cbn. by rewrite Hg, IH. Qed.

Lemma pooled_one h p t g :
  p !! t = Some g -> (forall t' g', t' <> t -> p !! t' = Some g' -> h g' = []) -> pooled h p = h g.
Proof.
  intros Ht Hother. rewrite <- (take_drop_middle p t g Ht), pooled_app. unfold pooled at 2. cbn. fold (pooled h (drop (S t) p)).
  rewrite !pooled_none, app_nil_r; [done|..]; apply Forall_lookup; intros k g' Hk.
  - rewrite lookup_drop in Hk. apply (Hother (S t + k)%nat); [lia|done].
  - apply lookup_take_Some in Hk as [Hk ?]. apply (Hother k); [lia|done].
Qed.

Definition silent (g : list rinstr) : Prop := (forall q, sending q g = []) /\ forall id, routing id g = [].

Lemma aside_silent g : forallb aside g = true -> silent g.
Proof. destruct g as [|[] g]; by cbn. Qed.

Lemma unrouted got g : (forall id, routing id g = []) -> routed got g.
Proof. destruct g as [|[] g]; try done. intros H. specialize (H (MsgID f)). cbn in H. by rewrite Z.eqb_refl in H. Qed.

(** The reader's stack decides what is under way. *)
Lemma reader_alone got c p t g :
  flow got c p -> p !! t = Some g -> reader g ->
  (forall t' g', t' <> t -> p !! t' = Some g' -> forallb aside g' = true)
  /\ (forall q, pooled (sending q) p = sending q g) /\ (forall id, pooled (routing id) p = routing id g).
Proof.
  intros [F1 F2 _ _] Ht Hg.
  assert (forall t' g', t' <> t -> p !! t' = Some g' -> forallb aside g' = true) as Ho.
  { intros t' g' Hne Ht'. destruct (Forall_lookup_1 _ _ _ _ F2 Ht') as [Hr|Hr]; [|done].
    pose proof (tally_pool_insert starts p t g [] Ht) as E. rewrite (reader_starts g Hg) in E.
    assert (g' ∈ <[t := []]> p) as Hin by (apply list_elem_of_lookup; exists t'; by rewrite list_lookup_insert_ne).
    apply (tally_pool_elem starts) in Hin. rewrite (reader_starts g' Hr) in Hin.
    pose proof (tally_pool_elem starts p _ (list_elem_of_lookup_2 _ _ _ Ht)). cbn in E.
    destruct (c_started c); cbn in F1; lia. }
  split; [done|]. split; intros; apply (pooled_one _ p t g Ht); intros t' g' Hne Ht'; by apply (aside_silent g'), (Ho t').
Qed.

(** *** One step *)

Definition serving (c : Client) (q : nat) (x : pendingCall) : Prop :=
  c_pending c !! call_id x = Some q /\ c_closed c = false.

(** A step that reads nothing and makes no call. *)
Lemma flow_keep got c c' p t i rest todo gs :
  let p' := <[t := todo ++ rest]> p ++ gs in
  flow got c p -> p !! t = Some (i :: rest) ->
  (tally starts todo + tally_pool starts gs + b2n (c_started c) <= starts i + b2n (c_started c'))%nat ->
  stack_ok (todo ++ rest) -> Forall stack_ok gs ->
  (forall g id, g = todo ++ rest \/ g ∈ gs -> routing id g = []) ->
  (forall q x', c_calls c' !! q = Some x' -> done x' = false ->
     exists x, c_calls c !! q = Some x /\ done x = false /\ call_id x' = call_id x /\
       ((serving c q x /\ accepted x' ++ pooled (sending q) p' ++ pooled (routing (call_id x)) p'
           = accepted x ++ pooled (sending q) p ++ pooled (routing (call_id x)) p)
        \/ ((~ serving c' q x') /\ accepted x' ++ pooled (sending q) p' = accepted x ++ pooled (sending q) p))) ->
  flow got c' p'.
Proof.
  intros p' [F1 F2 F4 F3] Ht Hs Hst Hgs Hrt Hord. constructor.
  - pose proof (tally_pool_insert starts p t _ (todo ++ rest) Ht). subst p'.
    rewrite tally_pool_app, tally_app, tally_cons in *. lia.
  - subst p'. apply Forall_app. split; [|done]. by apply Forall_insert.
  - subst p'. apply Forall_app. split; [apply Forall_insert; [done|]|apply Forall_forall; intros g Hg]; apply unrouted; auto.
  - intros q x' Hq Hd. destruct (Hord q x' Hq Hd) as (x & Hx & Hdx & Hid & Hcase). specialize (F3 q x Hx Hdx).
    unfold in_order, mine in *. rewrite Hid. fold (serving c q x) in F3.
    destruct Hcase as [[Hsv E]|[Hns E]].
    + rewrite decide_True in F3 by done. rewrite E, F3. destruct (decide _); [done|].
      rewrite <- F3, <- E, (app_assoc (accepted x')). by apply prefix_app_r.
    + rewrite decide_False by (by unfold serving in Hns; rewrite <- Hid). rewrite E.
      destruct (decide (serving c q x)); [|done]. rewrite <- F3, (app_assoc (accepted x)). by apply prefix_app_r.
Qed.

(** What leaves every call's frames alone. *)
Definition keeps (c c' : Client) : Prop :=
  forall q x', c_calls c' !! q = Some x' -> done x' = false ->
    exists x, c_calls c !! q = Some x /\ done x = false /\ call_id x' = call_id x /\ accepted x' = accepted x
      /\ (serving c' q x' -> serving c q x).

Lemma keeps_same c c' : c_calls c' = c_calls c -> c_pending c' = c_pending c -> c_closed c' = c_closed c -> keeps c c'.
Proof. intros E1 E2 E3 q x. rewrite E1. intros Hq Hd. exists x. unfold serving. by rewrite E2, E3. Qed.

Lemma keeps_put c p x x' : c_calls c !! p = Some x -> call_rel x x' -> accepted x' = accepted x -> keeps c (put_call p x' c).
Proof.
  intros Hp [Hid Hdn] Hacc q y. cbn. intros [(-> & <- & _)|[_ Hq]]%list_lookup_insert_Some Hd; [|by exists y].
  exists x. unfold serving. cbn. rewrite Hid. split_and!; auto.
Qed.

Lemma keeps_remove c id : keeps c (removePending id c).
Proof.
  intros q x Hq Hd. exists x. split_and!; try done. unfold serving. cbn. intros [[_ ?]%lookup_delete_Some ?]. done.
Qed.

Lemma keeps_shutdown c c' : client_ok c -> shutdown_locked c = Some c' -> keeps c c'.
Proof.
  intros Hok H q x' Hq Hd. unfold shutdown_locked in H. destruct (c_closed c) eqn:Ec; [done|]. injection H as <-.
  cbn in Hq. rewrite list_lookup_imap in Hq. destruct (c_calls c !! q) as [x|] eqn:Ex; [|done]. injection Hq as <-.
  exists x. case_bool_decide; [done|]. split_and!; try done. by intros [_ ?].
Qed.

Lemma flow_aside got c c' p t i rest todo gs :
  flow got c p -> p !! t = Some (i :: rest) -> silent (i :: rest) -> silent (todo ++ rest) -> Forall silent gs -> keeps c c' ->
  (tally starts todo + tally_pool starts gs + b2n (c_started c) <= starts i + b2n (c_started c'))%nat ->
  stack_ok (todo ++ rest) -> Forall stack_ok gs ->
  flow got c' (<[t := todo ++ rest]> p ++ gs).
Proof.
  intros HF Ht [S1 S1'] [S2 S2'] Hgs Hk Hs Hst Hst'. apply (flow_keep got c c' p t i rest todo gs); try done.
  { intros g id [-> |Hin]; [done|]. rewrite Forall_forall in Hgs. by apply Hgs. }
  intros q x' Hq Hd. destruct (Hk q x' Hq Hd) as (x & Hx & Hdx & Hid & Hacc & Hsv). exists x. split_and!; try done.
  assert (forall h, h (i :: rest) = [] -> h (todo ++ rest) = [] -> Forall (fun g => h g = []) gs ->
    pooled h (<[t := todo ++ rest]> p ++ gs) = pooled h p) as Hp.
  { intros h E1 E2 E3. rewrite pooled_app, (pooled_none h gs), app_nil_r by done. apply (pooled_insert h p t (i :: rest)); congruence. }
  rewrite Hacc, !Hp; try done; try (eapply Forall_impl; [exact Hgs|]; by intros g []).
  destruct (decide (serving c q x)); [by left|right]. split; [auto|done].
Qed.

Definition is_add (i : rinstr) : bool := match i with KAdd _ _ _ _ _ _ => true | _ => false end.

Lemma keeps_refl c : keeps c c.
Proof. by apply keeps_same. Qed.

(** A step outside the read loop. *)
Lemma rstep_aside i e c pr :
  client_ok c -> rstep i e c = Some pr -> aside i = true -> is_add i = false ->
  keeps c (rafter pr) /\ forallb aside (rpushed pr) = true
  /\ Forall (fun g => stack_ok g /\ silent g) (rspawned pr)
  /\ (tally starts (rpushed pr) + tally_pool starts (rspawned pr) + b2n (c_started c)
      <= starts i + b2n (c_started (rafter pr)))%nat.
Proof.
  intros Hok H Hi Ha.
  assert (forall q g, on_call q c g = Some pr -> exists x, c_calls c !! q = Some x /\ g x = Some pr) as Hcall.
  { intros q g. unfold on_call. destruct (c_calls c !! q) as [x|] eqn:E; [|done]. eauto. }
  assert (forall todo c', keeps c c' -> forallb aside todo = true ->
    (tally starts todo + b2n (c_started c) <= starts i + b2n (c_started c'))%nat -> pr = rnext todo c' ->
    keeps c (rafter pr) /\ forallb aside (rpushed pr) = true /\ Forall (fun g => stack_ok g /\ silent g) (rspawned pr)
    /\ (tally starts (rpushed pr) + tally_pool starts (rspawned pr) + b2n (c_started c)
        <= starts i + b2n (c_started (rafter pr)))%nat) as Hnext.
  { intros todo c' Hk Ht Hs ->. split_and!; try done. cbn [rnext rpushed rspawned rafter tally_pool sum_list_with]. lia. }
  destruct i; try done; cbn [rstep] in H; destruct e; try done; try (apply Hcall in H as (x & Hx & H)).
  - injection H as <-. eapply Hnext; [apply keeps_remove| | |reflexivity]; done.
  - destruct (shutdown_locked c) as [c'|] eqn:E; injection H as <-; (eapply Hnext; [| | |reflexivity]); try done.
    + by apply keeps_shutdown.
    + unfold shutdown_locked in E. destruct (c_closed c); [done|]. by injection E as <-.
    + apply keeps_refl.
  - destruct (c_wg c =? 0); [|done]. injection H as <-. eapply Hnext; [apply keeps_refl| | |reflexivity]; done.
  - destruct (forward b x) as [x'|] eqn:E; [|done]. injection H as <-. apply forward_rel in E as [E1 E2].
    eapply Hnext; [by apply (keeps_put c p x x')| | |reflexivity]; by destruct (out_closed x').
  - destruct (c_started c) eqn:E; injection H as <-.
    + eapply Hnext; [apply keeps_refl| | |reflexivity]; [done|cbn; rewrite E; cbn; lia].
    + eapply Hnext; [| | |reflexivity]; [by apply keeps_same|done|cbn; lia].
  - injection H as <-. split_and!; [by apply keeps_same|done| |cbn; lia].
    constructor; [split; [left; constructor|done]|]. constructor; [split; [by right|done]|constructor].
  - destruct b; try done. injection H as <-. eapply Hnext; [apply keeps_refl| | |reflexivity]; done.
  - injection H as <-. eapply Hnext; [| | |reflexivity]; [by apply keeps_same|done|done].
  - destruct r; [injection H as <-; eapply Hnext; [apply keeps_refl| | |reflexivity]; done|].
    destruct stream; injection H as <-; [|eapply Hnext; [| | |reflexivity]; [by apply keeps_same|done|done]].
    split_and!; [by apply keeps_same|done| |cbn; lia]. constructor; [split; [by right|done]|constructor].
  - unfold CallFlags_receive in H. destruct b; try done.
    + destruct (pending_take x) as [[r x']|] eqn:E; [|done]. apply pending_take_rel in E as [E1 E2].
      repeat case_match; simplify_eq; (eapply Hnext; [by apply (keeps_put c p x x')| | |reflexivity]); done.
    + injection H as <-. eapply Hnext; [apply keeps_refl| | |reflexivity]; done.
    + case_match; [|done]. injection H as <-. eapply Hnext; [apply keeps_refl| | |reflexivity]; done.
  - unfold StreamFlags_watch in H. destruct b; try done; [|case_match; [|done]]; injection H as <-; (eapply Hnext; [apply keeps_refl| | |reflexivity]); done.
  - injection H as <-. eapply Hnext; [by apply (keeps_put c p x (pending_finish x))| | |reflexivity]; done.
  - injection H as <-. eapply Hnext; [| | |reflexivity]; [by apply keeps_same|done|done].
  - injection H as <-. eapply Hnext; [| | |reflexivity]; [by apply keeps_same|done|done].
Qed.

Lemma pooled_new got c p t g todo :
  flow got c p -> p !! t = Some g -> reader g ->
  (forall q, pooled (sending q) (<[t := todo]> p ++ []) = sending q todo)
  /\ forall id, pooled (routing id) (<[t := todo]> p ++ []) = routing id todo.
Proof.
  intros HF Ht Hg. destruct (reader_alone got c p t g HF Ht Hg) as [Ho _]. rewrite app_nil_r.
  assert (<[t := todo]> p !! t = Some todo) as Ht' by (by apply list_lookup_insert_eq, (lookup_lt_Some _ _ g)).
  split; intros; apply (pooled_one _ _ t); try done; intros t' g' Hne; rewrite list_lookup_insert_ne by done;
    intros E; by apply (aside_silent g'), (Ho t').
Qed.

(** The read loop routes a frame. *)
Lemma route_flow got c p t f :
  client_ok c -> flow got c p -> p !! t = Some [RRoute f; RWgDone] ->
  let pr := readLoop_route f c in
  flow got (rafter pr) (<[t := rpushed pr ++ [RWgDone]]> p ++ rspawned pr).
Proof.
  intros Hok HF Ht. cbn zeta.
  destruct (reader_alone got c p t _ HF Ht (RS_route f)) as (_ & Hs0 & Hr0).
  assert (forall todo, reader (todo ++ [RWgDone]) -> tally starts todo = 0%nat ->
    (forall id, routing id (todo ++ [RWgDone]) = []) ->
    (forall q x, c_calls c !! q = Some x ->
       (serving c q x -> sending q (todo ++ [RWgDone]) ++ routing (call_id x) (todo ++ [RWgDone]) = routing (call_id x) [RRoute f; RWgDone])
       /\ ((~ serving c q x) -> sending q (todo ++ [RWgDone]) = [])) ->
    flow got c (<[t := todo ++ [RWgDone]]> p ++ [])) as Hgen.
  { intros todo Hrd Hs Hrt Hcase. destruct (pooled_new got c p t _ (todo ++ [RWgDone]) HF Ht (RS_route f)) as [Hs1 Hr1].
    apply (flow_keep got c c p t (RRoute f)); try done; [cbn [tally_pool sum_list_with]; lia|by left|by intros g id [-> |?%elem_of_nil]|].
    intros q x Hx Hd. exists x. destruct (Hcase q x Hx) as [C1 C2]. rewrite Hs0, Hr0, Hs1, Hr1. split_and!; try done.
    destruct (decide (serving c q x)) as [Hsv|Hsv]; [left|right]; (split; [done|]); [by rewrite (C1 Hsv)|by rewrite (C2 Hsv)]. }
  unfold readLoop_route. destruct (c_closed c) eqn:Ec.
  { apply (Hgen []); [constructor|done|done|]. intros q x Hx. split; [|done]. intros [_ ?]. congruence. }
  destruct (c_pending c !! MsgID f) as [p'|] eqn:Ep.
  - destruct (ck_pending c Hok _ _ Ep) as (y & Hy & Hid).
    assert (forall q x, c_calls c !! q = Some x ->
      (serving c q x -> (if (q =? p')%nat then [f] else []) ++ [] = routing (call_id x) [RRoute f; RWgDone])
      /\ ((~ serving c q x) -> (if (q =? p')%nat then [f] else []) = [])) as Hboth.
    { intros q x Hx. destruct (Nat.eqb_spec q p') as [->|Hne]; rewrite ?app_nil_r; cbn [routing].
      - simplify_eq. split; [by rewrite <- Hid, Z.eqb_refl|]. intros []. split; [by rewrite Hid|done].
      - split; [|done]. intros [Hsv _]. destruct (Z.eqb_spec (MsgID f) (call_id x)) as [E|]; [|done]. rewrite <- E in Hsv. congruence. }
    destruct (is_response f); [apply (Hgen [RSend p' f; RRemove (MsgID f); RLoop])|apply (Hgen [RSend p' f; RLoop])]; try done; constructor.
  - apply (Hgen [RLoop]); [constructor|done|done|]. intros q x Hx. split; [|done]. intros [Hsv _]. cbn.
    destruct (Z.eqb_spec (MsgID f) (call_id x)) as [E|]; [|done]. rewrite <- E in Hsv. congruence.
Qed.

(** The read loop hands a frame to a call. *)
Lemma send_flow got c p t p' f rest b pr :
  flow got c p -> p !! t = Some (RSend p' f :: rest) -> reader (RSend p' f :: rest) ->
  rstep (RSend p' f) (EvBranch b) c = Some pr ->
  flow got (rafter pr) (<[t := rpushed pr ++ rest]> p ++ rspawned pr).
Proof.
  intros HF Ht Hr H. destruct (reader_alone got c p t _ HF Ht Hr) as (_ & Hs0 & Hr0).
  destruct (pooled_new got c p t _ rest HF Ht Hr) as [Hs1 Hr1].
  assert (reader rest /\ silent rest) as [Hrr [Hsr Hrr']] by (inversion Hr; subst; split; [constructor|done|constructor|done]).
  cbn [rstep] in H. unfold on_call in H. destruct (c_calls c !! p') as [x|] eqn:Hx; [|done].
  destruct (pending_send f b x) as [[r x']|] eqn:E; [|done]. injection H as <-.
  apply (flow_keep got c (put_call p' x' c) p t (RSend p' f) rest []); try done; [by left|by intros g id [-> |?%elem_of_nil]|].
  intros q y Hq Hd. cbn in Hq. cbn [app].
  assert (call_id x' = call_id x /\ (done x' = false -> done x = false /\ accepted x' = accepted x ++ [f])) as [Eid Eacc].
  { unfold pending_send in E. destruct b; try done; case_match; try done; simplify_eq; (split; [done|]; intros; first [done|congruence]). }
  apply list_lookup_insert_Some in Hq as [(-> & <- & _)|[Hne Hq]].
  - destruct (Eacc Hd) as [Hd' Ea]. exists x. rewrite Hs0, Hr0, Hs1, Hr1, Hsr, Hrr'. cbn [sending routing]. rewrite Nat.eqb_refl, Ea, !app_nil_r. split_and!; try done.
    destruct (decide (serving c q x)) as [|Hns]; [by left|right]. split; [|done]. unfold serving in *. cbn. by rewrite Eid.
  - exists y. rewrite Hs0, Hr0, Hs1, Hr1, Hsr, Hrr'. cbn [sending routing]. rewrite (proj2 (Nat.eqb_neq q p')) by done. split_and!; try done.
    destruct (decide (serving c q y)); [by left|by right].
Qed.

(** A step of the read loop other than a read. *)
Lemma rstep_reader got c p t i rest e pr :
  client_ok c -> flow got c p -> p !! t = Some (i :: rest) -> reader (i :: rest) ->
  rstep i e c = Some pr -> (forall f, e <> EvFrame (Ok f)) ->
  flow got (rafter pr) (<[t := rpushed pr ++ rest]> p ++ rspawned pr).
Proof.
  intros Hok HF Ht Hr H He.
  destruct (reader_alone got c p t _ HF Ht Hr) as (_ & Hs0 & Hr0).
  assert (forall todo c', silent (i :: rest) -> silent (todo ++ rest) -> keeps c c' -> reader (todo ++ rest) \/ todo ++ rest = [] ->
    (tally starts todo <= starts i)%nat -> c_started c' = c_started c -> pr = rnext todo c' ->
    flow got (rafter pr) (<[t := rpushed pr ++ rest]> p ++ rspawned pr)) as Hq.
  { intros todo c' S1 S2 Hk Hst Hs Hsd ->. apply (flow_aside got c c' p t i rest todo []); try done.
    - rewrite Hsd. cbn [tally_pool sum_list_with]. lia.
    - destruct Hst as [? | ->]; [by left|by right]. }
  inversion Hr; subst i rest; clear Hr; cbn [rstep] in H; destruct e; try done.
  - injection H as <-. destruct (c_cancelled c); (eapply Hq; [| | | | | |reflexivity]; [done|done|apply keeps_refl|left; constructor|done|done]).
  - destruct r as [f|err]; [by destruct (He f)|]. injection H as <-.
    eapply Hq; [| | | | | |reflexivity]; [done|done|apply keeps_refl|left; constructor|done|done].
  - injection H as <-. destruct (c_cancelled c); (eapply Hq; [| | | | | |reflexivity]; [done|done|apply keeps_refl|left; constructor|done|done]).
  - injection H as <-. apply (route_flow got c p t f); done.
  - eapply send_flow; [exact HF|exact Ht|constructor|exact H].
  - eapply send_flow; [exact HF|exact Ht|constructor|exact H].
  - injection H as <-. eapply Hq; [| | | | | |reflexivity]; [done|done|apply keeps_remove|left; constructor|done|done].
  - destruct (shutdown_locked c) as [c'|] eqn:E; injection H as <-.
    + eapply Hq; [| | | | | |reflexivity]; [done|done|by apply keeps_shutdown|left; constructor|done|].
      unfold shutdown_locked in E. destruct (c_closed c); [done|]. by injection E as <-.
    + eapply Hq; [| | | | | |reflexivity]; [done|done|apply keeps_refl|left; constructor|done|done].
  - destruct (c_wg c =? 0); [|done]. injection H as <-.
    eapply Hq; [| | | | | |reflexivity]; [done|done|apply keeps_refl|left; constructor|done|done].
  - injection H as <-. eapply Hq; [| | | | | |reflexivity]; [done|done|by apply keeps_same|by right|cbn; lia|done].
Qed.

(** The read loop reads a frame. *)
Lemma read_flow got c p t rest f :
  flow got c p -> p !! t = Some (RRead :: rest) -> flow (got ++ [f]) c (<[t := RRoute f :: rest]> p ++ []).
Proof.
  intros HF Ht. assert (reader (RRead :: rest)) as Hr by (by destruct (Forall_lookup_1 _ _ _ _ (fl_stacks _ _ _ HF) Ht)).
  destruct (reader_alone got c p t _ HF Ht Hr) as (_ & Hs0 & Hr0).
  destruct (pooled_new got c p t _ (RRoute f :: rest) HF Ht Hr) as [Hs1 Hr1].
  destruct HF as [F1 F2 F4 F3]. constructor.
  - pose proof (tally_pool_insert starts p t _ (RRoute f :: rest) Ht). rewrite tally_pool_app, !tally_cons in *. cbn in *. lia.
  - apply Forall_app. split; [|done]. apply Forall_insert; [done|]. left. inversion Hr. constructor.
  - apply Forall_app. split; [|done]. apply Forall_insert; [|apply elem_of_app; right; by apply list_elem_of_singleton].
    eapply Forall_impl; [exact F4|]. intros [|[] g]; try done. intros Hin. apply elem_of_app. by left.
  - intros q x Hx Hd. specialize (F3 q x Hx Hd). unfold in_order, mine in *. rewrite filter_app, filter_cons, filter_nil.
    rewrite Hs0, Hr0 in F3. rewrite Hs1, Hr1. cbn [sending routing] in *. destruct (decide (_ /\ _)).
    + rewrite !app_nil_r in F3. rewrite F3. cbn [app]. f_equal.
      destruct (Z.eqb_spec (MsgID f) (call_id x)); [by rewrite decide_True|by rewrite decide_False].
    + by apply prefix_app_r.
Qed.

(** A new call: its id is in no frame read so far. *)
Lemma add_flow got c p t rest call stream id typ flags body :
  flow got c p -> Forall (Forall (rfact c)) p -> p !! t = Some (KAdd call stream id typ flags body :: rest) ->
  (forall f, f ∈ got -> MsgID f <> id) -> (forall q x, c_calls c !! q = Some x -> call_id x <> id) ->
  let '(q, c') := addPending id c in
  flow got c' (<[t := KWrite call stream q id typ flags body :: rest]> p ++ [[RForward q]]).
Proof.
  intros HF Hfacts Ht Hgot Hids. unfold addPending. set (q0 := length (c_calls c)).
  assert (forallb aside rest = true) as Hrest.
  { destruct (Forall_lookup_1 _ _ _ _ (fl_stacks _ _ _ HF) Ht) as [Hr|Hr]; [inversion Hr|]. done. }
  assert (forall h, (forall g, forallb aside g = true -> h g = []) ->
    pooled h (<[t := KWrite call stream q0 id typ flags body :: rest]> p ++ [[RForward q0]]) = pooled h p) as Hp.
  { intros h Hh. rewrite pooled_app, (pooled_none h [_]), app_nil_r by (constructor; [by apply Hh|constructor]).
    apply (pooled_insert h p t _ _ Ht). by rewrite !Hh. }
  destruct HF as [F1 F2 F4 F3]. constructor.
  - pose proof (tally_pool_insert starts p t _ (KWrite call stream q0 id typ flags body :: rest) Ht).
    rewrite tally_pool_app, !tally_cons in *. cbn in *. lia.
  - apply Forall_app. split; [apply Forall_insert; [done|by right]|]. constructor; [by right|constructor].
  - apply Forall_app. split; [by apply Forall_insert|by repeat constructor].
  - intros q x Hx Hd. unfold in_order. rewrite !Hp by (intros g Hg; by apply aside_silent).
    cbn [c_calls set_pending set_calls c_pending c_closed] in *. apply lookup_snoc_inv in Hx as [Hx|[-> ->]].
    + specialize (F3 q x Hx Hd). unfold in_order in F3. rewrite lookup_insert_ne by (apply not_eq_sym; by apply (Hids q)). done.
    + assert (mine (newPendingCall id) got = []) as ->.
      { unfold mine. clear -Hgot. induction got as [|f l IH]; [done|]. rewrite filter_cons, decide_False.
        - apply IH. intros g Hg. apply Hgot. by apply elem_of_cons; right.
        - apply Hgot. apply elem_of_cons. by left. }
      cbn [newPendingCall accepted call_id app].
      assert (pooled (sending (length (c_calls c))) p = []) as ->.
      { apply pooled_none. eapply Forall_impl; [exact Hfacts|]. intros [|j g]; [done|]. intros [Hj _]%Forall_cons.
        destruct j; try done. destruct Hj as (y & Hy%lookup_lt_Some & _). cbn. by rewrite (proj2 (Nat.eqb_neq _ _)) by lia. }
      assert (pooled (routing id) p = []) as ->; [|by destruct (decide _)].
      apply pooled_none. eapply Forall_impl; [exact F4|]. intros [|[] g] Hg; try done. cbn.
      by rewrite (proj2 (Z.eqb_neq _ _)) by (by apply Hgot).
Qed.

Lemma flow_idle got c c' p : flow got c p -> keeps c c' -> c_started c' = c_started c -> flow got c' p.
Proof.
  intros [F1 F2 F4 F3] Hk Hs. constructor; try done; [by rewrite Hs|]. intros q x' Hq Hd.
  destruct (Hk q x' Hq Hd) as (x & Hx & Hdx & Hid & Hacc & Hsv). specialize (F3 q x Hx Hdx).
  unfold in_order, mine in *.
  destruct (decide (c_pending c !! _ = _ /\ _)) as [H1|H1], (decide (c_pending c' !! _ = _ /\ _)) as [H2|H2];
    rewrite Hid, Hacc; try done; [|by destruct H1; apply Hsv].
  rewrite <- F3, (app_assoc (accepted x)). by apply prefix_app_r.
Qed.

Lemma flow_call got c p g : flow got c p -> forallb aside g = true -> tally starts g = 0%nat -> flow got c (p ++ [g]).
Proof.
  intros [F1 F2 F4 F3] Hg Hs. pose proof (aside_silent g Hg) as [S1 S2].
  assert (forall h, h g = [] -> pooled h (p ++ [g]) = pooled h p) as Hp.
  { intros h Hh. by rewrite pooled_app, (pooled_none h [g]), app_nil_r by (by constructor). }
  constructor.
  - rewrite tally_pool_app. cbn. unfold tally in *. rewrite Hs. lia.
  - apply Forall_app. split; [done|]. constructor; [by right|constructor].
  - apply Forall_app. split; [done|]. constructor; [by apply unrouted|constructor].
  - intros q x Hx Hd. specialize (F3 q x Hx Hd). unfold in_order in *. by rewrite !Hp by done.
Qed.

(** The frames the client has read after label [l]. *)
Definition reads (l : rlabel) (got : list Frame) : list Frame :=
  match l with RRun _ (EvFrame (Ok f)) => got ++ [f] | _ => got end.

Lemma ids_fresh n c p t rest call stream id typ flags body :
  ids_ok n c p -> p !! t = Some (KAdd call stream id typ flags body :: rest) ->
  (forall q x, c_calls c !! q = Some x -> call_id x <> id) /\ (forall f, f ∈ c_wire c -> MsgID f <> id).
Proof.
  intros [_ _ I3 I4] Ht. apply list_elem_of_lookup_2 in Ht.
  pose proof (tally_pool_elem (adding id) p _ Ht) as Ha. pose proof (tally_pool_elem (writing id) p _ Ht) as Hw.
  specialize (I3 id). specialize (I4 id). rewrite !tally_cons in *. cbn [adding writing] in *. rewrite Z.eqb_refl in *. cbn [b2n] in *.
  unfold used in *. assert (b2n ((0 <? id)%Z && (id <=? c_msgID c)%Z) <= 1)%nat by (destruct (_ && _); cbn; lia). split.
  - intros q x Hx Hid. apply list_elem_of_lookup_2, (tally_elem (fun x' => b2n (id =? call_id x')%Z)) in Hx.
    rewrite Hid, Z.eqb_refl in Hx. cbn in Hx. lia.
  - intros f Hf Hid. apply (tally_elem (fun f' => b2n (id =? MsgID f')%Z)) in Hf. rewrite Hid, Z.eqb_refl in Hf. cbn in Hf. lia.
Qed.

Lemma rworld_step_pair got l w w' :
  rworld_ok w -> Z.of_nat (rcalls w') < 2 ^ 32 - 1 -> rworld_step l w = Some w' ->
  (forall f, f ∈ got -> exists q, q ∈ c_wire (cl w) /\ MsgID q = MsgID f) ->
  ids_ok (rcalls w) (cl w) (rpool w) -> flow got (cl w) (rpool w) ->
  ids_ok (rcalls w') (cl w') (rpool w') /\ flow (reads l got) (cl w') (rpool w').
Proof.
  intros [Hc Hfacts _] Hn H Hgot HI HF. destruct l as [t e|a|q]; cbn [rworld_step] in H.
  - destruct (rpool w !! t) as [[|i rest]|] eqn:Ht; try done.
    destruct (rstep i e (cl w)) as [[todo gs c]|] eqn:E; [|done]. injection H as <-. cbn [cl rpool rcalls] in *.
    split; [exact (rstep_ids _ _ _ _ _ _ _ _ Hn HI Ht E)|].
    destruct (is_add i) eqn:Hadd.
    { destruct i; try done. cbn [rstep] in E. destruct e; try done. destruct (ids_fresh _ _ _ _ _ _ _ _ _ _ _ HI Ht) as [I1 I2].
      pose proof (add_flow got (cl w) (rpool w) t rest call stream id typ flags body HF Hfacts Ht) as Hadd'.
      destruct (addPending id (cl w)) as [q c']. injection E as <- <- <-. apply Hadd'; [|done].
      intros f Hf Heq. destruct (Hgot f Hf) as (r & Hr & Hid). by apply (I2 r Hr); congruence. }
    assert (forall f, e = EvFrame (Ok f) -> i = RRead /\ todo = [RRoute f] /\ gs = [] /\ c = cl w) as Hread.
    { intros f ->. destruct i; try done. cbn [rstep] in E. destruct (frame_ok f); [|done]. by injection E as <- <- <-. }
    assert ((exists f, e = EvFrame (Ok f)) \/ (forall f, e <> EvFrame (Ok f))) as [[f ->]|He]
      by (destruct e as [| |[]|]; eauto; by right).
    { destruct (Hread f eq_refl) as (-> & -> & -> & ->). by apply read_flow. }
    assert (reads (RRun t e) got = got) as ->.
    { destruct e as [| |[f|]|]; try done. by destruct (He f). }
    destruct (Forall_lookup_1 _ _ _ _ (fl_stacks _ _ _ HF) Ht) as [Hr|Hr].
    + exact (rstep_reader _ _ _ _ _ _ _ _ Hc HF Ht Hr E He).
    + pose proof Hr as [Hi Hrest]%andb_true_iff. destruct (rstep_aside _ _ _ _ Hc E Hi Hadd) as (A1 & A2 & A3 & A4).
      cbn [rpushed rspawned rafter] in *. assert (forallb aside (todo ++ rest) = true) as Hnew by (rewrite forallb_app; by rewrite A2).
      apply (flow_aside got (cl w) c (rpool w) t i rest todo gs); try done; try (by apply aside_silent); [|by right|];
        (eapply Forall_impl; [exact A3|]; by intros g []).
  - injection H as <-. cbn [cl rpool rcalls reads] in *. split.
    + destruct HI as [I1 I2 I3 I4]. constructor; try done.
      * rewrite tally_pool_app. destruct a; cbn; lia.
      * intros id. rewrite tally_pool_app. specialize (I3 id). destruct a; cbn; lia.
      * intros id. rewrite tally_pool_app. specialize (I4 id). destruct a; cbn; lia.
    + apply flow_call; [done|..]; by destruct a.
  - destruct (c_calls (cl w) !! q) as [x|] eqn:Hx; [|done]. destruct (pending_take x) as [[r x']|] eqn:E; [|done].
    injection H as <-. cbn [cl rpool rcalls reads] in *. apply pending_take_rel in E as [E1 E2]. split.
    + destruct HI as [I1 I2 I3 I4]. constructor; try done. intros id. specialize (I3 id).
      rewrite <- (tally_calls id _ _ (call_rel_put _ _ _ _ Hx E1)) in I3. exact I3.
    + apply (flow_idle got (cl w)); try done. by apply (keeps_put _ _ x).
Qed.

(** ** The pair *)

(** What a server step does to the frames read and written. *)
Lemma vworld_step_wire l s s' : vworld_step l s = Some s' ->
  sv_read (srv s') = match l with VGo _ (VFrame (Ok f)) => sv_read (srv s) ++ [f] | _ => sv_read (srv s) end
  /\ exists fs, replies s' = replies s ++ fs.
Proof.
  assert (forall s0, sv_log s0 = sv_log (srv s) -> exists fs, (sv_log s0).*2 = replies s ++ fs) as Hsame
    by (intros s0 ->; exists []; by rewrite app_nil_r).
  assert (forall k f w, exists fs, (sv_log (write_reply k f w (srv s))).*2 = replies s ++ fs) as Hw.
  { intros k f [[n e]|]; [by apply Hsame|]. exists [f]. cbn. by rewrite fmap_app. }
  assert (forall k f w, sv_read (write_reply k f w (srv s)) = sv_read (srv s)) as Hr by (by intros k f [[]|]).
  intros H. destruct l as [t e| |typ h|call e]; cbn [vworld_step] in H; unfold replies at 1;
    [|injection H as <-; split; [done|by apply Hsame]..|].
  - destruct (vpool s !! t) as [[|i rest]|]; try done. destruct (vstep i e (srv s)) as [[todo gs s0]|] eqn:E; [|done].
    injection H as <-. cbn [srv]. destruct i; unfold vstep, Serve_dispatch, vnext in E; destruct e; try done.
    + case_match; simplify_eq; (split; [done|by apply Hsame]).
    + repeat case_match; simplify_eq; (split; [done|by apply Hsame]).
    + case_match; simplify_eq; (split; [done|by apply Hsame]).
    + repeat case_match; simplify_eq; (split; [done|by apply Hsame]).
    + destruct w as [[n er]|]; injection E as <- <- <-; [split; [done|by apply Hsame]|split; [done|apply (Hw k _ None)]].
    + injection E as <- <- <-. auto.
    + destruct r; injection E as <- <- <-; (split; [done|by apply Hsame]).
    + injection E as <- <- <-. split; [done|by apply Hsame].
  - injection H as <-. cbn [srv]. unfold cancel_ctx. case_match; (split; [done|by apply Hsame]).
Qed.

Lemma rworld_step_wire l w w' : rworld_step l w = Some w' ->
  (exists fs, c_wire (cl w') = c_wire (cl w) ++ fs) /\ (rcalls w <= rcalls w')%nat.
Proof.
  assert (forall c, c_wire c = c_wire (cl w) -> exists fs, c_wire c = c_wire (cl w) ++ fs) as Hsame
    by (intros c ->; exists []; by rewrite app_nil_r).
  intros H. destruct l as [t e|a|q]; cbn [rworld_step] in H.
  - destruct (rpool w !! t) as [[|i rest]|]; try done. destruct (rstep i e (cl w)) as [[todo gs c]|] eqn:E; [|done].
    injection H as <-. cbn [cl rcalls]. split; [|lia]. destruct (idless i) eqn:Hi.
    { apply rstep_idless in E as (_ & E & _); [|done]. by apply Hsame. }
    destruct i; try done; cbn [rstep] in E; destruct e; try done.
    + injection E as <- <- <-. by apply Hsame.
    + injection E as <- <- <-. by apply Hsame.
    + destruct r; [|destruct stream]; injection E as <- <- <-; [by apply Hsame|by eexists..].
  - injection H as <-. cbn. split; [by apply Hsame|lia].
  - destruct (c_calls (cl w) !! q); [|done]. destruct (pending_take _) as [[]|]; [|done]. injection H as <-.
    split; [by apply Hsame|done].
Qed.

Record pair_ok (P : Pair) : Prop := {
  pk_client : rworld_ok (pc P);
  pk_server : server_ok (srv (ps P)) (vpool (ps P));
  pk_read : sv_read (srv (ps P)) = take (c2s P) (c_wire (cl (pc P)));
  pk_c2s : (c2s P <= length (c_wire (cl (pc P))))%nat;
  pk_s2c : (s2c P <= length (replies (ps P)))%nat;
  pk_flow : Z.of_nat (rcalls (pc P)) < 2 ^ 32 - 1 ->
    ids_ok (rcalls (pc P)) (cl (pc P)) (rpool (pc P))
    /\ flow (take (s2c P) (replies (ps P))) (cl (pc P)) (rpool (pc P)) }.

(** A request the server dispatched is a frame the client wrote. *)
Lemma request_read s p k q o : server_ok s p -> sv_reqs s !! k = Some (q, o) -> q ∈ sv_read s.
Proof.
  intros Hok Hk. pose proof (so_read s p Hok (fun f => bool_decide (f = q))) as E.
  pose proof (Forall_lookup_1 _ _ _ _ (so_reqs s p Hok) Hk) as Hq. cbn in Hq.
  assert (q ∈ (sv_reqs s).*1) as Hin by (apply (list_elem_of_lookup_2 _ k); by rewrite list_lookup_fmap, Hk).
  apply (tally_elem (req_is (fun f => bool_decide (f = q)))) in Hin. unfold req_is at 1 in Hin. rewrite Hq, bool_decide_true in Hin by done.
  cbn in Hin. destruct (decide (q ∈ sv_read s)) as [|Hn]; [done|].
  rewrite (tally_zero _ (sv_read s)) in E; [lia|]. apply Forall_forall. intros f Hf. unfold req_is.
  rewrite bool_decide_false by (by intros ->). by rewrite andb_false_r.
Qed.

Lemma reply_requested P k f : pair_ok P -> (k, f) ∈ sv_log (srv (ps P)) ->
  exists q o, sv_reqs (srv (ps P)) !! k = Some (q, o) /\ q ∈ c_wire (cl (pc P)) /\ MsgID q = MsgID f.
Proof.
  intros [_ Hs Hr _ _ _] Hin. pose proof (so_log _ _ Hs) as Hl. rewrite Forall_forall in Hl.
  destruct (Hl _ Hin) as (q & o & Hk & Hid & _). exists q, o. split_and!; try done.
  pose proof (request_read _ _ _ _ _ Hs Hk) as Hq. rewrite Hr in Hq. by apply elem_of_take in Hq as (? & ? & _); eapply list_elem_of_lookup_2.
Qed.

Lemma reply_id P f : pair_ok P -> f ∈ replies (ps P) -> exists q, q ∈ c_wire (cl (pc P)) /\ MsgID q = MsgID f.
Proof.
  intros HP [[k g] [-> Hin]]%list_elem_of_fmap. destruct (reply_requested P k g HP Hin) as (q & o & _ & ? & ?). by exists q.
Qed.

Lemma arrives_next f n lim wire : arrives f n lim wire = true -> take (S n) wire = take n wire ++ [f] /\ (S n <= length wire)%nat.
Proof.
  unfold arrives. intros [H%bool_decide_eq_true _]%andb_true_iff. split; [by apply take_S_r|]. by apply lookup_lt_Some in H.
Qed.

Lemma pair_step_ok l P P' : pair_ok P -> pair_step l P = Some P' -> pair_ok P'.
Proof.
  intros HP H. pose proof HP as [Hc Hs Hr Hn1 Hn2 Hfl]. destruct l as [l|l]; cbn [pair_step] in H.
  - destruct (rworld_step l (pc P)) as [c|] eqn:E; [|done]. pose proof (rworld_step_ok _ _ _ Hc E) as Hc'.
    destruct (rworld_step_wire _ _ _ E) as [[fs Hw] Hcalls].
    assert (forall n lim1 lim2, (n <= length (replies (ps P)))%nat -> take n (replies (ps P)) = reads l (take (s2c P) (replies (ps P))) ->
      pair_ok (mkPair c (ps P) (c2s P) n lim1 lim2)) as Hgen.
    { intros n lim1 lim2 Hn Ht. constructor; cbn [pc ps c2s s2c]; try done.
      - by rewrite Hw, take_app_le.
      - rewrite Hw, length_app. lia.
      - intros Hsmall. rewrite Ht. destruct Hfl as [HI HF]; [lia|]. apply (rworld_step_pair _ l (pc P) c); try done.
        intros f Hf. apply (reply_id P f HP). by apply elem_of_take in Hf as (? & ? & _); eapply list_elem_of_lookup_2. }
    destruct l as [t [| |[f|]|[]]|a|q]; try (injection H as <-; by apply Hgen).
    destruct (arrives f (s2c P) (s_lim P) (replies (ps P))) eqn:Ea; [|done]. injection H as <-.
    apply arrives_next in Ea as [Ea1 Ea2]. by apply Hgen.
  - destruct (vworld_step l (ps P)) as [s|] eqn:E; [|done]. pose proof (vworld_step_ok _ _ _ Hs E) as Hs'.
    destruct (vworld_step_wire _ _ _ E) as [Hrd [fs Hw]].
    assert (forall n lim1 lim2, (n <= length (c_wire (cl (pc P))))%nat -> sv_read (srv s) = take n (c_wire (cl (pc P))) ->
      pair_ok (mkPair (pc P) s n (s2c P) lim1 lim2)) as Hgen.
    { intros n lim1 lim2 Hn Ht. constructor; cbn [pc ps c2s s2c]; try done.
      - rewrite Hw, length_app. lia.
      - intros Hsmall. rewrite Hw, take_app_le by done. by apply Hfl. }
    destruct l as [t [|[f|]|[]|? []|]| | |]; try (injection H as <-; apply Hgen; [done|congruence]).
    destruct (arrives f (c2s P) (c_lim P) (c_wire (cl (pc P)))) eqn:Ea; [|done]. injection H as <-.
    apply arrives_next in Ea as [Ea1 Ea2]. apply Hgen; [done|]. by rewrite Ea1, Hrd, Hr.
Qed.

Lemma pair_reachable_ok P : pair_reachable P -> pair_ok P.
Proof.
  intros [ls H]. assert (pair_ok pair0) as H0.
  { constructor; [apply rworld0_ok|constructor; try done; by intros c ?%elem_of_nil|done|cbn; lia|cbn; lia|].
    intros _. split; constructor; try done; intros; cbn; lia. }
  revert H0 H. generalize pair0. induction ls as [|l ls IH]; intros P0 H0; cbn [pair_run]; [by intros [= <-]|].
  destruct (pair_step l P0) as [P1|] eqn:E; [|done]. apply IH. by apply (pair_step_ok l P0).
Qed.

(** Two requests with one id would be two frames with that id on the wire. *)
Lemma tally_le_take {A} (f : A -> nat) n l : (tally f (take n l) <= tally f l)%nat.
Proof. rewrite <- (take_drop n l) at 2. rewrite tally_app. lia. Qed.

Lemma tally_two_elems {A} (f : A -> nat) l i j x y :
  l !! i = Some x -> l !! j = Some y -> i <> j -> (f x + f y <= tally f l)%nat.
Proof.
  intros Hi Hj Hne. rewrite <- (take_drop_middle l i x Hi), tally_app, tally_cons.
  destruct (decide (j < i)%nat).
  - assert (y ∈ take i l) as Hin%(tally_elem f) by (apply (list_elem_of_lookup_2 _ j); by rewrite lookup_take_lt). lia.
  - assert (y ∈ drop (S i) l) as Hin%(tally_elem f)
      by (apply (list_elem_of_lookup_2 _ (j - S i)); rewrite lookup_drop; by replace (S i + (j - S i))%nat with j by lia). lia.
Qed.

Lemma one_request P k k' q q' o o' :
  pair_ok P -> Z.of_nat (rcalls (pc P)) < 2 ^ 32 - 1 -> sv_reqs (srv (ps P)) !! k = Some (q, o) ->
  sv_reqs (srv (ps P)) !! k' = Some (q', o') -> MsgID q' = MsgID q -> k' = k.
Proof.
  intros HP Hn Hk Hk' Hid. destruct (decide (k' = k)) as [|Hne]; [done|].
  pose proof HP as [_ Hs Hr _ _ Hfl]. destruct (Hfl Hn) as [[_ _ _ I4] _]. specialize (I4 (MsgID q)).
  pose proof (so_read _ _ Hs (fun f => (MsgID q =? MsgID f)%Z)) as E. rewrite Hr in E.
  assert (forall k q o, sv_reqs (srv (ps P)) !! k = Some (q, o) -> (sv_reqs (srv (ps P))).*1 !! k = Some q) as Hf
    by (intros k0 q0 o0 H0; by rewrite list_lookup_fmap, H0).
  pose proof (tally_two_elems (req_is (fun f => (MsgID q =? MsgID f)%Z)) _ _ _ _ _ (Hf _ _ _ Hk) (Hf _ _ _ Hk') (not_eq_sym Hne)) as H2.
  pose proof (Forall_lookup_1 _ _ _ _ (so_reqs _ _ Hs) Hk) as Hq. pose proof (Forall_lookup_1 _ _ _ _ (so_reqs _ _ Hs) Hk') as Hq'.
  cbn in Hq, Hq'. unfold req_is at 1 2 in H2. rewrite Hq, Hq', Hid, Z.eqb_refl in H2. cbn in H2.
  pose proof (tally_le_take (req_is (fun f => (MsgID q =? MsgID f)%Z)) (c2s P) (c_wire (cl (pc P)))).
  assert (forall l, tally (req_is (fun f => (MsgID q =? MsgID f)%Z)) l <= tally (fun f => b2n (MsgID q =? MsgID f)%Z) l)%nat as Hle.
  { clear. induction l as [|f l IH]; [done|]. rewrite !tally_cons. unfold req_is at 1. destruct (is_response f); cbn; lia. }
  specialize (Hle (c_wire (cl (pc P)))). unfold used in I4. destruct (_ && _); cbn in I4; lia.
Qed.

(** C30: an RPC call, end to end.  In every run of a client and a server on one
    connection, as long as fewer than 2^32 - 1 calls were made and the call was
    not abandoned: the frames the call has accepted are, in order and without
    gap, a prefix of the frames the server wrote under the call's id; and
    these are all written for one single request, which the client put on the
    connection and whose handler (or, without one, the server) is the only
    one to answer it: no frame of another call can get in between. *)
Theorem rpc_end_to_end (P : Pair) (p : nat) (x : pendingCall)
    (H : pair_reachable P) (Hn : Z.of_nat (rcalls (pc P)) < 2 ^ 32 - 1)
    (Hx : c_calls (cl (pc P)) !! p = Some x) (Hd : done x = false) :
  let mine := filter (fun f => MsgID f = call_id x) (replies (ps P)) in
  accepted x `prefix_of` mine
  /\ (accepted x = [] \/
      exists k q o, sv_reqs (srv (ps P)) !! k = Some (q, o) /\ q ∈ c_wire (cl (pc P)) /\ MsgID q = call_id x
        /\ mine = (filter (fun r => r.1 = k) (sv_log (srv (ps P)))).*2).
Proof.
  pose proof (pair_reachable_ok P H) as HP. cbn zeta. destruct (pk_flow P HP Hn) as [_ [_ _ _ F3]]. specialize (F3 p x Hx Hd).
  assert (accepted x `prefix_of` filter (fun f => MsgID f = call_id x) (replies (ps P))) as Hpre.
  { etrans; [|rewrite <- (take_drop (s2c P) (replies (ps P))), filter_app; by apply prefix_app_r].
    unfold in_order, mine in F3. destruct (decide _).
    - rewrite <- F3. by apply prefix_app_r.
    - etrans; [|exact F3]. by apply prefix_app_r. }
  split; [done|]. destruct (accepted x) as [|f l] eqn:Ea; [by left|right].
  assert (f ∈ filter (fun f => MsgID f = call_id x) (replies (ps P))) as [Hid Hf]%list_elem_of_filter
    by (destruct Hpre as [z ->]; apply elem_of_cons; by left).
  apply list_elem_of_fmap in Hf as [[k g] [-> Hin]]. cbn in Hid.
  destruct (reply_requested P k g HP Hin) as (q & o & Hk & Hq & Hqid). exists k, q, o. split_and!; try done; [congruence|].
  assert (forall k' g', (k', g') ∈ sv_log (srv (ps P)) -> (MsgID g' = call_id x <-> k' = k)) as Hiff.
  { intros k' g' Hin'. destruct (reply_requested P k' g' HP Hin') as (q' & o' & Hk' & _ & Hqid'). split.
    - intros E. apply (one_request P k k' q q' o o'); try done. congruence.
    - intros ->. congruence. }
  unfold replies. clear -Hiff. induction (sv_log (srv (ps P))) as [|[k' g'] l IH]; [done|].
  cbn [fmap list_fmap snd]. rewrite !filter_cons. specialize (Hiff k' g' ltac:(apply elem_of_cons; by left)) as Hi. cbn [fst].
  rewrite IH by (intros k0 g0 Hg; apply Hiff; apply elem_of_cons; by right).
  destruct (decide (MsgID g' = call_id x)), (decide (k' = k)); try done; tauto.
Qed.

(** ** A run: a call and a stream share the connection. *)

Definition exec_req : Request := mkRequest TypeEXEC 2 0 (str "ls").
Definition ping_req : Request := mkRequest TypePING 1 0 [].

Definition pair_demo : list plabel :=
  [PServer (VHandle TypePING 7); PServer (VHandle TypeEXEC 8); PServer VServe; PServer (VGo 0 VRun);
   PClient (RCall AStart); PClient (RRun 0 EvRun); PClient (RRun 0 EvRun);
   PClient (RCall (ACallFlags TypePING 0 [])); PClient (RRun 3 EvRun); PClient (RRun 3 EvRun); PClient (RRun 3 (EvWrite None));
   PClient (RCall (AStreamFlags TypeEXEC 0 (str "ls"))); PClient (RRun 5 EvRun); PClient (RRun 5 EvRun); PClient (RRun 5 (EvWrite None));
   PServer (VGo 0 (VFrame (Ok (mkFrame TypePING 0 1 [])))); PServer (VGo 0 VRun); PServer (VGo 0 VRun);
   PServer (VGo 0 (VFrame (Ok (mkFrame TypeEXEC 0 2 (str "ls"))))); PServer (VGo 0 VRun);
   PServer (VGo 2 (VReply (AnsStarted true) None)); PServer (VGo 1 (VReply (AnsRespond TypePONG []) None));
   PServer (VGo 2 (VReply (AnsStream TypeEXECSTREAM (str "a")) None));
   PClient (RRun 1 EvRun); PClient (RRun 1 (EvFrame (Ok (Request_Started exec_req true)))); PClient (RRun 1 EvRun);
   PClient (RRun 1 (EvBranch BFrame)); PClient (RRun 1 EvRun);
   PClient (RRun 1 (EvFrame (Ok (Request_Respond ping_req TypePONG [])))); PClient (RRun 1 EvRun);
   PClient (RRun 1 (EvBranch BFrame)); PClient (RRun 1 EvRun); PClient (RRun 1 EvRun);
   PClient (RRun 1 (EvFrame (Ok (Request_Stream exec_req TypeEXECSTREAM (str "a"))))); PClient (RRun 1 EvRun);
   PClient (RRun 1 (EvBranch BFrame))].

Definition pair_world : Pair := default pair0 (pair_run pair_demo pair0).
Definition stream_call : pendingCall := default (newPendingCall 0) (c_calls (cl (pc pair_world)) !! 1%nat).

Lemma rpc_end_to_end_witness :
  MsgID <$> replies (ps pair_world) = [2; 1; 2] /\ length (accepted stream_call) = 2%nat
  /\ accepted stream_call `prefix_of` filter (fun f => MsgID f = call_id stream_call) (replies (ps pair_world)).
Proof.
  split; [vm_compute; reflexivity|]. split; [vm_compute; reflexivity|].
  apply (rpc_end_to_end pair_world 1 stream_call); [exists pair_demo; vm_compute; reflexivity|vm_compute; reflexivity..].
Defined.
